(* ===== verification/_CoqProject ===== *)
-Q . S2P
Prelude.v
Bits.v
Atomics.v
ClientManager.v
HashTable.v
HashTableInv.v
HashTableSpec.v
HashTableGrow.v
HashTableThms.v
HashTableWalk.v
Chars.v
Config.v
Ini.v
IniFile.v
Buffer.v
RingExecutor.v
Startup.v
BufferRing.v
Connection.v
Acceptor.v
Echo.v
EchoThms.v
RespParser.v
RespParserThms.v
Replier.v
Table.v
Service.v
ServiceInv.v
ServiceSpec.v
Expire.v
StringCommands.v
CommandSpec.v
StringCommandsThms.v
Eviction.v
KeyCommands.v
KeyCommandsThms.v
Dispatch.v
DispatchThms.v
Client.v
Rings.v
Cancel.v
Threads.v
ThreadsThms.v
ThreadsFlow.v
ThreadsLive.v
ThreadSamples.v
FairSample.v
ClientThms.v
RingClient.v
System.v
Cron.v
SystemThms.v
Samples.v
CommandThms.v
ServerThms.v
Stats.v
ThreadedServer.v
