(* ===== verification/Prelude.v ===== *)
(** * A verification library for rdss

    rdss is a key/value server that speaks the Redis protocol on io_uring.  One
    thread, the executor of the data structure service, runs all commands; a
    number of client executors receive queries and send replies.  This library
    models the server from [main] to the hash table and proves what
    makes it correct; where the code does not do what it means to, a theorem
    says what it does.

    ** The program and the files that model it

    Paths are under src/src/.  A file ending in Thms, Inv, Spec, Grow or Walk
    holds proofs about the model of the same name.

    Storage:
    - data_structure/hash_table.h: [Bits] (the reverse-binary bucket cursor),
      [HashTable] (entries in a heap, buckets as chains, two bucket vectors
      while a rehash is in progress; one definition per member function), with
      [HashTableInv], [HashTableSpec], [HashTableGrow], [HashTableThms],
      [HashTableWalk].
    - [Table]: the interface of a table as the service uses it: the class
      [Table] of operations, the class [TableLaws] of what they promise in terms
      of finite maps, and the hash table as an instance.
    - data_structure/tracking_hash_table.cc, service/data_structure_service.h,
      .cc: [Service] (the data and expire tables, the shared string objects,
      the LRU times, [SetData], [FindOrExpire], [EraseKey],
      [IncrementalRehashing]), with [ServiceInv], [ServiceSpec].
    - service/eviction_strategy.*: [Eviction]; service/expire_strategy.*:
      [Expire]; the periodic coroutine [Cron], runtime/timeout.h, base/clock.h:
      [Cron].

    Commands:
    - service/commands/string_commands.cc: [StringCommands]; key_commands.cc,
      misc_commands.cc, client_commands.cc: [KeyCommands]; the command table and
      [DataStructureService::Invoke]: [Dispatch].
    - [CommandSpec]: the reply of each command and its effect on the abstract
      database; [StringCommandsThms], [KeyCommandsThms], [DispatchThms],
      [CommandThms]: the handlers implement it.

    Connections:
    - base/buffer.*: [Buffer]; resp/resp_parser.*: [RespParser],
      [RespParserThms]; resp/result.*, error.*, replier.*: [Replier].
    - client.*: [Client], [ClientThms] (a buffer of the client's own),
      [RingClient] (the executor's receive buffers).
    - io/connection.h, runtime/ring_operation.h: [Connection];
      runtime/ring_executor.*: [RingExecutor] (creation, registered files, event
      loop) and [BufferRing] (provided buffers).
    - client_manager.*: [ClientManager]; server.cc, io/listener.h: [Acceptor];
      base/memory.h and the shared maxima of client_manager.cc: [Atomics].
    - base/config.*: [Config]; external/tortellini.hh: [Ini] (reading, with
      [Config::ReadFromFile]) and [IniFile] (the ordered maps, writing,
      assignment).

    Threads:
    - main.cc, the constructor and [Setup] of server.cc, sys/util.cc,
      io/listener.cc and the constructor of [RingExecutor]: [Startup].
    - runtime/ring_executor.h, .cc ([RingTransfer], [Initiate], [Deactivate]):
      [Rings]; runtime/util.cc, the event loops, the main thread ([Run],
      [Shutdown]) and the suspension points of [Process], [AcceptLoop] and
      [Cron]: [Threads], with [ThreadsThms], [ThreadsFlow] (which task follows
      which), [ThreadsLive] (infinite fair executions) and, for concrete rings
      and executions, [ThreadSamples] and [FairSample].
    - io/example/echo_server.cc, a second program on the same runtime: [Echo],
      [EchoThms].
    - io/async_operation.h, async_operation_processor.h, cancellation.h, the
      operations with a cancellation token of an earlier version: [Cancel].

    The whole:
    - [System]: clients and service together, as a step function on inputs (a
      connection, a received chunk, a run of a queued command, a send, the end of
      a client, clock updates, rehashing); [Cron] adds the rounds of periodic
      work.  The suspension points of [Client::Process] are the boundaries of
      the steps, so the sequences of inputs are the interleavings the executors
      allow; that such steps have nothing in common but atomics is shown in
      [ThreadsThms].  [SystemThms], [ServerThms]: the refinement of an abstract
      server.
    - [ThreadedServer]: the server of [Cron] run by the coroutines of [Threads];
      a task makes the step of the server at its suspension point, and the state
      of the client decides what follows.
    - [Stats]: the traffic counters of client_manager.h beside those steps.
    - [Prelude]: outcomes, machine integers, vectors, tactics, hints; [Chars]:
      the character functions of the C++ library; [Samples]: the concrete
      services of the witnesses.

    ** How C++ is modelled

    A statement that may fail has type [Outcome]: a value, a fault (failed
    assertion, null dereference, use after free, index out of range, division by
    zero, signed overflow, bad shift, fatal log, exception), or [Diverge] when
    the fuel of a loop runs out.  The class [BuildMode] says whether assertions
    are compiled; theorems hold for both builds.  Integers are [Z] with the
    wrap-around of their type written out ([u16], [u32], [u64], [i32], [i64]).
    Pointers are locations in explicit heaps: entries of a table, string
    objects with their use counts, views as address and length.

    What is outside src/ is a parameter: the hash function XXH64 ([HashFn], any
    function), the bytes in use that the memory tracker reports ([Memory]), what INFO
    reads of the system ([InfoEnv]), the registered files and the provided
    buffers of liburing and the kernel ([Files], [BufRing] with their laws
    [FilesLaws], [BufRingLaws] and an instance of each), its queues ([Uring],
    [UringLaws], instance in [ThreadSamples]; what fairness speaks of:
    [UringQueues], [UringQueueLaws], instance in [FairSample]), system calls ([Os], [OsLaws],
    instance in [Startup]), placements of new
    memory ([pl_addr]), draws of [std::rand], readings of clocks, results of
    timeouts ([timer_ok]), and the values relaxed loads see.

    ** What the theorems show

    - Server: every execution refines an abstract database with expiry
      ([ServerThms.server_refines_database]), without faults save one
      ([server_never_faults]), and replies waiting to be sent do not change
      ([pending_reply_immutable]).  An execution starts from a service whose
      invariants hold; its inputs are within the limits of [SystemThms.input_ok]:
      multi-bulk queries with at least one string, chunks of at most 16 KB,
      numbers of arguments and sizes below the C++ limits, in ring mode a query
      received whole.  What happens outside of these limits is in the theorems
      of errors.
    - Server on its threads: every interleaving is such an execution, so what
      holds of the steps holds of the threads
      ([ThreadedServer.threaded_server_refines]); every step finds its client
      where the coroutine left it.
    - Hash table: any sequence of calls behaves as a finite map
      ([HashTableThms.table_refines_map]); load bound, termination of the
      rehash, traversal and random draws.
    - Threads, for every interleaving of executors, main thread and kernel:
      coroutines that run at the same time share nothing, none is lost or
      resumed twice, no thread gets stuck while the queues hold two batches, and
      start-up and shutdown are in order.  In every fair execution no completion
      is left behind and every command received is run and answered
      ([ThreadsLive.commands_answered]); fairness is that loops turn, coroutines
      reach their next suspension and the kernel completes what does not depend
      on a peer.
    - Echo server: what a connection sends is what it received, in both buffer
      modes and any interleaving ([EchoThms.echo_streams]).
    - Cancellation: operations are answered once, cancelled or with their
      result, and nothing refers to one that is gone
      ([Cancel.cancellation_answers]).
    - Start-up: what a server that starts has done, and on which machines it
      starts.
    - Commands: Invoke, SET, GETEX, PSETEX/GET, APPEND, SETRANGE, GETRANGE,
      MSETNX, eviction, each on every branch.
    - Protocol: chunked queries, the grammar, inline queries, replies.
    - Buffers and connections: the buffer is a queue, ring buffers are
      conserved, requests reach the client's own socket, the client table is a
      map, the accept loop keeps its books, a round of the event loop handles
      each completion once.
    - Shared counters: the memory tracker and the maxima under any
      interleaving and any stale load.
    - Traffic counters: output is counted exactly, input too if queries arrive
      whole ([Stats.traffic_counters]).
    - Configuration: files round-trip, and every file is read to a
      configuration within the types or to the one fatal error; a file that is
      read and written again means the same, and assigned values are kept.
    - Errors: active expiry reads a freed entry; two concurrent AddClient calls
      lose a client; a query split in ring mode; a peer that closes in the
      middle of a query; a closed socket that stays registered; a second
      SHUTDOWN; queues too small for a batch; sends that fail use up the echo
      server's receive buffers; the descriptor 0; a token shared by two
      operations.

    ** Fuel

    Loops that are not structural take fuel that is enough by a lemma: a chain
    walk as many steps as there are entries in the heap, a rehash as many as the
    old vector has buckets, the bit reversal 7, parsers the length of the buffer,
    PutBufferView one step per entry; theorems about these functions say that
    they return, so that running out of fuel is excluded.  The loop of the
    expiry cycle ends by its clock readings, which are an argument.  The
    eviction loops take the values of [std::rand] as a list and stop when it is
    used up; [evict_only_removes_keys] and [server_never_faults] show that every
    list can be continued so that they return.

    ** Not modelled

    - The operating system, liburing and the kernel: parameters, see above;
      logging.
    - The compiler's part of coroutines (io/promise.h, the awaiters): its effect
      is the tasks of [Threads] and the order of steps.
    - io/async_operation.cc, async_operation_processor.cc: in no build target and
      written against classes and settings that are declared nowhere.
    - Of tortellini.hh: floating-point values, which are the C++ library's
      conversions, and the iterator over sections; the server uses neither. *)

From Stdlib Require Export Ascii ZArith Lia.
From stdpp Require Export base gmap list list_numbers strings fin_maps sets option.
Export list_basics.list list_relations.list list_monad.list list_misc.list.

#[global] Open Scope Z_scope.

(** ** Outcomes of C++ code

    A C++ statement either completes with a value, or stops: a debug-build
    [assert] fails, undefined behaviour is reached (null dereference, access
    to a destroyed object, index outside a vector, division by zero, signed
    overflow), an exception leaves the function, or [LOG(FATAL)] terminates the
    process.  [Diverge] is the
    answer of a loop whose fuel runs out; the theorems show it is never
    reached from a well-formed state. *)

Inductive fault :=
  | AssertFailed
  | NullDeref
  | UseAfterFree
  | OutOfRange
  | DivByZero
  | SignedOverflow
  | BadShift
  | LogFatal
  | Thrown.

Inductive Outcome (A : Type) :=
  | Ok (a : A)
  | Fault (f : fault)
  | Diverge.
Arguments Ok {A} a.
Arguments Fault {A} f.
Arguments Diverge {A}.

#[global] Instance fault_eq_dec : EqDecision fault.
Proof. solve_decision. Defined.
#[global] Instance Outcome_eq_dec {A} `{EqDecision A} : EqDecision (Outcome A).
Proof. solve_decision. Defined.

#[global] Instance outcome_ret : MRet Outcome := @Ok.
#[global] Instance outcome_bind : MBind Outcome := λ A B k c,
  match c with
  | Ok a => k a
  | Fault f => Fault f
  | Diverge => Diverge
  end.

(** Which [assert]s are compiled in: [ndebug] is the NDEBUG macro, set in the
    CMake [release] preset and unset in the [debug] one. *)
Class BuildMode := ndebug : bool.

Definition cassert `{BuildMode} (c : bool) : Outcome unit :=
  if ndebug then Ok tt else if c then Ok tt else Fault AssertFailed.

(** Dereference of a pointer that may be null. *)
Definition deref {A} (p : option A) : Outcome A :=
  match p with Some a => Ok a | None => Fault NullDeref end.

(** ** Machine integers *)

Definition u64 (z : Z) : Z := z mod 2 ^ 64.
Definition u32 (z : Z) : Z := z mod 2 ^ 32.
Definition i32 (z : Z) : Z := (z + 2 ^ 31) mod 2 ^ 32 - 2 ^ 31.
Definition i64 (z : Z) : Z := (z + 2 ^ 63) mod 2 ^ 64 - 2 ^ 63.

Definition i64_max : Z := 2 ^ 63 - 1.
Definition i64_min : Z := - 2 ^ 63.

(** A result of signed 64-bit arithmetic: overflow is undefined behaviour. *)
Definition chk_i64 (z : Z) : Outcome Z :=
  if (i64_min <=? z) && (z <=? i64_max) then Ok z else Fault SignedOverflow.

(** Unsigned remainder: [a % b] is undefined when [b] is zero. *)
Definition umod (a b : Z) : Outcome Z :=
  if b =? 0 then Fault DivByZero else Ok (a mod b).

Lemma u64_small z : 0 ≤ z < 2 ^ 64 → u64 z = z.
Proof. apply Z.mod_small. Qed.
Lemma u32_small z : 0 ≤ z < 2 ^ 32 → u32 z = z.
Proof. apply Z.mod_small. Qed.
Lemma i32_small z : - 2 ^ 31 ≤ z < 2 ^ 31 → i32 z = z.
Proof. intros. unfold i32. rewrite Z.mod_small by lia. lia. Qed.
Lemma i64_small z : - 2 ^ 63 ≤ z < 2 ^ 63 → i64 z = z.
Proof. intros. unfold i64. rewrite Z.mod_small by lia. lia. Qed.
Lemma u64_range z : 0 ≤ u64 z < 2 ^ 64.
Proof. apply Z.mod_pos_bound. lia. Qed.
Lemma chk_i64_Ok z : i64_min ≤ z ≤ i64_max → chk_i64 z = Ok z.
Proof.
  intros [Hlo Hhi]. unfold chk_i64.
  by rewrite (proj2 (Z.leb_le _ _) Hlo), (proj2 (Z.leb_le _ _) Hhi).
Qed.
Lemma umod_Ok a b : 0 < b → umod a b = Ok (a mod b).
Proof. intros. unfold umod. destruct (Z.eqb_spec b 0); [lia|done]. Qed.

(** ** Bytes and strings

    [std::string_view] and [std::string] are byte sequences, here lists of
    [ascii] (the 256 byte values). *)

Abbreviation bytes := (list ascii).

Definition lit (s : string) : bytes := String.list_ascii_of_string s.
#[global] Arguments lit !s /.

Definition byte_val (c : ascii) : Z := Z.of_N (N_of_ascii c).
Definition CR : ascii := "013"%char.
Definition LF : ascii := "010"%char.
Definition CRLF : bytes := [CR; LF].
Definition NUL : ascii := "000"%char.

(** ** Vectors indexed by machine integers

    [v\[i\]] and [*(v.begin() + i)] with an index outside the vector are
    undefined behaviour, the fault [OutOfRange]. *)

Definition vec_get {A} (v : list A) (i : Z) : Outcome A :=
  if i <? 0 then Fault OutOfRange else
  match v !! Z.to_nat i with Some a => Ok a | None => Fault OutOfRange end.

Definition vec_set {A} (v : list A) (i : Z) (a : A) : Outcome (list A) :=
  if (0 <=? i) && (i <? Z.of_nat (length v)) then Ok (<[Z.to_nat i := a]> v)
  else Fault OutOfRange.

Lemma vec_get_Ok {A} (v : list A) i a :
  0 ≤ i → v !! Z.to_nat i = Some a → vec_get v i = Ok a.
Proof.
  intros Hi Hl. unfold vec_get. destruct (Z.ltb_spec i 0); [lia|]. by rewrite Hl.
Qed.

Lemma vec_get_nat {A} (v : list A) (i : nat) a :
  v !! i = Some a → vec_get v (Z.of_nat i) = Ok a.
Proof. intros. apply vec_get_Ok; [lia|]. by rewrite Nat2Z.id. Qed.

Lemma vec_set_nat {A} (v : list A) (i : nat) a :
  (i < length v)%nat → vec_set v (Z.of_nat i) a = Ok (<[i := a]> v).
Proof.
  intros. unfold vec_set.
  replace (0 <=? Z.of_nat i) with true by (symmetry; apply Z.leb_le; lia).
  replace (Z.of_nat i <? Z.of_nat (length v)) with true
    by (symmetry; apply Z.ltb_lt; lia).
  simpl. by rewrite Nat2Z.id.
Qed.

(** ** Outcome reasoning *)

Lemma bind_Ok {A B} (c : Outcome A) (k : A → Outcome B) a :
  c = Ok a → (c ≫= k) = k a.
Proof. by intros ->. Qed.

Lemma bind_Ok_inv {A B} (c : Outcome A) (k : A → Outcome B) b :
  (c ≫= k) = Ok b → ∃ a, c = Ok a ∧ k a = Ok b.
Proof. destruct c; naive_solver. Qed.

Lemma cassert_true `{BuildMode} c : c = true → cassert c = Ok tt.
Proof. intros ->. unfold cassert. by destruct ndebug. Qed.

(** [step] runs the head of a monadic program whose outcome is known;
    [inv_ok] splits a hypothesis [_ = Ok _] along its binds. *)
Ltac step H := rewrite (bind_Ok _ _ _ H); cbn beta iota.
Ltac inv_ok :=
  repeat match goal with
  | H : (_ ≫= _) = Ok _ |- _ => apply bind_Ok_inv in H as (? & ? & ?)
  | H : Ok _ = Ok _ |- _ => injection H as H
  | H : Fault _ = Ok _ |- _ => discriminate H
  | H : Diverge = Ok _ |- _ => discriminate H
  | p : (_ * _)%type |- _ => destruct p
  end; simplify_eq/=.

(** Decide the outermost boolean comparison of the goal. *)
Ltac bcase :=
  match goal with
  | |- context [Z.eqb ?a ?b] => destruct (Z.eqb_spec a b)
  | |- context [Z.ltb ?a ?b] => destruct (Z.ltb_spec a b)
  | |- context [Z.leb ?a ?b] => destruct (Z.leb_spec a b)
  end.

Lemma Zeqb_t a b : a = b → (a =? b) = true.
Proof. apply Z.eqb_eq. Qed.
Lemma Zeqb_f a b : a ≠ b → (a =? b) = false.
Proof. apply Z.eqb_neq. Qed.
Lemma Zltb_t a b : a < b → (a <? b) = true.
Proof. apply Z.ltb_lt. Qed.
Lemma Zltb_f a b : b ≤ a → (a <? b) = false.
Proof. apply Z.ltb_ge. Qed.
Lemma Zleb_t a b : a ≤ b → (a <=? b) = true.
Proof. apply Z.leb_le. Qed.
Lemma Zleb_f a b : b < a → (a <=? b) = false.
Proof. apply Z.leb_gt. Qed.

(** ** Lists *)

Section list_lemmas.
Context {A : Type}.
Implicit Types (l k : list A) (ls : list (list A)).

Lemma concat_insert_perm ls i l l' x :
  ls !! i = Some l → l' ≡ₚ x ++ l → concat (<[i:=l']> ls) ≡ₚ x ++ concat ls.
Proof.
  revert i. induction ls as [|l0 ls IH]; intros [|i] Hl Hp; simplify_eq/=.
  - by rewrite Hp, app_assoc.
  - rewrite (IH i) by done. rewrite !app_assoc. by rewrite (Permutation_app_comm l0).
Qed.

Lemma concat_insert_perm_rem ls i l l' x :
  ls !! i = Some l → l ≡ₚ x ++ l' → concat ls ≡ₚ x ++ concat (<[i:=l']> ls).
Proof.
  revert i. induction ls as [|l0 ls IH]; intros [|i] Hl Hp; simplify_eq/=.
  - by rewrite Hp, app_assoc.
  - rewrite (IH i) at 1 by done. rewrite !app_assoc. by rewrite (Permutation_app_comm l0).
Qed.

Lemma elem_of_concat_lookup ls x :
  x ∈ concat ls ↔ ∃ i l, ls !! i = Some l ∧ x ∈ l.
Proof.
  induction ls as [|l ls IH]; simpl.
  - split; [by intros ?%not_elem_of_nil | by intros ([|]&?&?&?)].
  - rewrite elem_of_app, IH. split.
    + intros [Hx|(i&k&?&?)]; [by exists 0%nat, l | by exists (S i), k].
    + intros ([|i]&k&?&?); simplify_eq/=; eauto.
Qed.

Lemma concat_all_nil ls :
  (∀ i l, ls !! i = Some l → l = []) → concat ls = [].
Proof.
  induction ls as [|l ls IH]; intros Hall; [done|]. simpl.
  rewrite (Hall 0%nat l) by done. apply IH. intros i k Hk. by apply (Hall (S i)).
Qed.
End list_lemmas.

(** The lemmas that close the side goals about vectors and integers. *)
Create HintDb rdss.
Create Rewrite HintDb rdss.
#[export] Hint Resolve vec_get_nat vec_set_nat cassert_true u64_small : rdss.
#[export] Hint Rewrite @length_insert @length_replicate @length_app @length_drop
  @length_take : rdss.
