(* ===== verification/Bits.v ===== *)
(** * Bucket cursors: [detail::rev] and [detail::NextIndex]

    The bit arithmetic of src/src/data_structure/hash_table.h, lines 19-43.
    [TraverseBucket] walks the buckets of a table of [2^k] buckets in
    reverse-binary order; the theorems show that [rev] reverses the 64 bits
    of a word, and that the walk of [NextIndex] starting at bucket 0 meets
    every bucket exactly once before it returns to bucket 0. *)

From S2P Require Import Prelude.

(** ** Definitions *)

Definition not64 (z : Z) : Z := 2 ^ 64 - 1 - z.

(** One turn of the [while] loop of [rev], for the halved shift [s] and the
    updated [mask]. *)
Definition rev_round (s mask v : Z) : Z :=
  Z.lor (Z.land (Z.shiftr v s) mask) (Z.land (u64 (Z.shiftl v s)) (not64 mask)).

Fixpoint rev_loop (fuel : nat) (s mask v : Z) : Z :=
  match fuel with
  | O => v
  | S fuel =>
      let s := Z.shiftr s 1 in
      if 0 <? s then
        let mask := Z.lxor mask (u64 (Z.shiftl mask s)) in
        rev_loop fuel s mask (rev_round s mask v)
      else v
  end.

(** [s] takes the values 32, 16, 8, 4, 2, 1 and 0: seven tests. *)
Definition rev (v : Z) : Z := rev_loop 7 64 (2 ^ 64 - 1) v.

(** The [for] loop of [NextIndex]: the highest set bit of [size] among the
    bits 31 to 0, and -1 when there is none. *)
Fixpoint high_bit (size : Z) (i : nat) : Z :=
  if negb (Z.land (Z.shiftr size (Z.of_nat i)) 1 =? 0) then Z.of_nat i
  else match i with O => -1 | S i => high_bit size i end.

Definition NextIndex (index size : Z) : Outcome Z :=
  let i := high_bit size 31 in
  if i <? 0 then Fault BadShift else
  let mask := u64 (Z.shiftl 1 i) - 1 in
  let index := Z.lor index (not64 mask) in
  let index := rev index in
  let index := u64 (index + 1) in
  Ok (rev index).

(** Iterated [NextIndex], the successive cursors of a full traversal. *)
Fixpoint cursor_after (n : nat) (size : Z) (start : Z) : Outcome Z :=
  match n with
  | O => Ok start
  | S n => c ← cursor_after n size start; NextIndex c size
  end.

(** ** [rev] reverses the bits of a 64-bit word *)

Section bits.
Implicit Types (v i s k m : Z).

Lemma testbit_high v i : 0 ≤ v < 2 ^ 64 → 64 ≤ i → Z.testbit v i = false.
Proof.
  intros Hv Hi. rewrite <- (Z.mod_small v (2 ^ 64)) by done.
  by apply Z.mod_pow2_bits_high.
Qed.

Lemma testbit_not64 m i :
  0 ≤ m < 2 ^ 64 → 0 ≤ i < 64 → Z.testbit (not64 m) i = negb (Z.testbit m i).
Proof.
  intros Hm Hi. unfold not64.
  replace (2 ^ 64 - 1 - m) with ((Z.lnot m) mod 2 ^ 64).
  - rewrite Z.mod_pow2_bits_low by lia. apply Z.lnot_spec. lia.
  - unfold Z.lnot. replace (Z.pred (- m)) with ((2 ^ 64 - 1 - m) + (-1) * 2 ^ 64) by lia.
    rewrite Z.mod_add by lia. apply Z.mod_small. lia.
Qed.

Lemma rev_round_testbit s m v i :
  0 ≤ m < 2 ^ 64 → 0 ≤ s → 0 ≤ i < 64 →
  Z.testbit (rev_round s m v) i =
    if Z.testbit m i then Z.testbit v (i + s) else Z.testbit v (i - s).
Proof.
  intros Hm Hs Hi. unfold rev_round, u64.
  rewrite Z.lor_spec, !Z.land_spec, testbit_not64 by lia.
  rewrite Z.shiftr_spec, Z.mod_pow2_bits_low, Z.shiftl_spec by lia.
  by destruct (Z.testbit m i); rewrite ?andb_true_r, ?andb_false_r, ?orb_false_r.
Qed.

Lemma land_range a b : 0 ≤ b < 2 ^ 64 → 0 ≤ Z.land a b < 2 ^ 64.
Proof.
  intros Hb. assert (Z.land a b = (Z.land a b) mod 2 ^ 64) as ->.
  { apply Z.bits_inj'. intros i Hi. rewrite Z.testbit_mod_pow2 by lia.
    destruct (Z.ltb_spec i 64); [done|]. by rewrite Z.land_spec, (testbit_high b), andb_false_r. }
  apply Z.mod_pos_bound. lia.
Qed.

Lemma lor_range a b : 0 ≤ a < 2 ^ 64 → 0 ≤ b < 2 ^ 64 → 0 ≤ Z.lor a b < 2 ^ 64.
Proof.
  intros Ha Hb. assert (Z.lor a b = (Z.lor a b) mod 2 ^ 64) as ->.
  { apply Z.bits_inj'. intros i Hi. rewrite Z.testbit_mod_pow2 by lia.
    destruct (Z.ltb_spec i 64); [done|].
    by rewrite Z.lor_spec, (testbit_high a), (testbit_high b). }
  apply Z.mod_pos_bound. lia.
Qed.

Lemma rev_round_range s m v : 0 ≤ m < 2 ^ 64 → 0 ≤ rev_round s m v < 2 ^ 64.
Proof.
  intros Hm. unfold rev_round. apply lor_range; apply land_range; unfold not64; lia.
Qed.
End bits.

(** The six masks the loop computes. *)
Definition rev_masks : list (Z * Z) :=
  [ (32, 0x00000000FFFFFFFF); (16, 0x0000FFFF0000FFFF); (8, 0x00FF00FF00FF00FF)
  ; (4, 0x0F0F0F0F0F0F0F0F); (2, 0x3333333333333333); (1, 0x5555555555555555) ].

Lemma rev_unroll v :
  rev v = foldl (λ v '(s, m), rev_round s m v) v rev_masks.
Proof. reflexivity. Qed.

(** Enumerate [0 ≤ i < 64]. *)
Definition below64 : list Z := seqZ 0 64.
Lemma below64_spec i : 0 ≤ i < 64 → i ∈ below64.
Proof. intros. apply elem_of_seqZ. lia. Qed.

Lemma below64_forallb (P : Z → bool) i :
  forallb P below64 = true → 0 ≤ i < 64 → P i = true.
Proof.
  intros HP Hi. apply (proj1 (forallb_forall _ _) HP), list_elem_of_In, below64_spec, Hi.
Qed.

(** A round with a mask of alternating blocks exchanges the blocks: bit [i]
    of the result is bit [i lxor s] of the argument. *)
Definition mask_ok (s m : Z) : bool :=
  forallb (λ i, Z.eqb (Z.lxor i s) (if Z.testbit m i then i + s else i - s)
                && (0 <=? Z.lxor i s) && (Z.lxor i s <? 64)) below64.

Lemma mask_ok_spec s m v i :
  mask_ok s m = true → 0 ≤ m < 2 ^ 64 → 0 ≤ s → 0 ≤ i < 64 →
  Z.testbit (rev_round s m v) i = Z.testbit v (Z.lxor i s) ∧ 0 ≤ Z.lxor i s < 64.
Proof.
  intros Hok Hm Hs Hi. rewrite rev_round_testbit by done.
  pose proof (below64_forallb _ _ Hok Hi) as Hb. cbv beta in Hb.
  rewrite !andb_true_iff, Z.eqb_eq, Z.leb_le, Z.ltb_lt in Hb.
  destruct Hb as [[Heq ?] ?]. split; [|done]. destruct (Z.testbit m i); by rewrite Heq.
Qed.

Lemma rounds_testbit ms v i :
  forallb (λ '(s, m), mask_ok s m && (0 <=? m) && (m <? 2 ^ 64) && (0 <=? s)) ms = true →
  0 ≤ i < 64 →
  let j := foldr (λ '(s, _) j, Z.lxor j s) i ms in
  Z.testbit (foldl (λ v '(s, m), rev_round s m v) v ms) i = Z.testbit v j ∧ 0 ≤ j < 64.
Proof.
  revert v. induction ms as [|[s m] ms IH]; intros v Hms Hi; [done|]. cbn in *.
  rewrite !andb_true_iff, !Z.leb_le, Z.ltb_lt in Hms. destruct Hms as [[[[Hok ?] ?] ?] Hms].
  destruct (IH (rev_round s m v) Hms Hi) as [-> Hj]. by apply mask_ok_spec.
Qed.

Lemma rev_testbit v i : 0 ≤ i < 64 → Z.testbit (rev v) i = Z.testbit v (63 - i).
Proof.
  intros Hi. rewrite rev_unroll. destruct (rounds_testbit rev_masks v i eq_refl Hi) as [-> _].
  f_equal. apply Z.eqb_eq.
  exact (below64_forallb (λ i, foldr (λ '(s, _) j, Z.lxor j s) i rev_masks =? 63 - i) i eq_refl Hi).
Qed.

Lemma rev_range v : 0 ≤ rev v < 2 ^ 64.
Proof. rewrite rev_unroll. cbn [rev_masks foldl]. apply rev_round_range. done. Qed.

Lemma rev_bits_ext v w :
  0 ≤ v < 2 ^ 64 → 0 ≤ w < 2 ^ 64 →
  (∀ i, 0 ≤ i < 64 → Z.testbit v i = Z.testbit w i) → v = w.
Proof.
  intros Hv Hw Hb. apply Z.bits_inj'. intros i Hi.
  destruct (decide (i < 64)); [apply Hb; lia|]. by rewrite !testbit_high by lia.
Qed.

Lemma rev_rev v : 0 ≤ v < 2 ^ 64 → rev (rev v) = v.
Proof.
  intros Hv. apply rev_bits_ext; [apply rev_range|done|].
  intros i Hi. rewrite !rev_testbit by lia. f_equal. lia.
Qed.

(** ** The reverse-binary walk *)

(** Reversal of the low [k] bits. *)
Definition revk (k m : Z) : Z := rev (m * 2 ^ (64 - k)).

Section walk.
Context (k : Z) (Hk : 0 ≤ k ≤ 31).

Lemma pow_split : 2 ^ 64 = 2 ^ k * 2 ^ (64 - k).
Proof using Hk. rewrite <- Z.pow_add_r by lia. f_equal. lia. Qed.

Lemma shifted_range m : 0 ≤ m < 2 ^ k → 0 ≤ m * 2 ^ (64 - k) < 2 ^ 64.
Proof using Hk.
  intros. rewrite pow_split. assert (0 < 2 ^ (64 - k)) by (apply Z.pow_pos_nonneg; lia). nia.
Qed.

Lemma revk_testbit m i :
  0 ≤ m < 2 ^ k → 0 ≤ i < 64 →
  Z.testbit (revk k m) i = if i <? k then Z.testbit m (k - 1 - i) else false.
Proof using Hk.
  intros Hm Hi. unfold revk. rewrite rev_testbit by lia.
  rewrite Z.mul_pow2_bits by lia.
  destruct (Z.ltb_spec i k); [f_equal; lia|]. apply Z.testbit_neg_r. lia.
Qed.

Lemma revk_range m : 0 ≤ m < 2 ^ k → 0 ≤ revk k m < 2 ^ k.
Proof using Hk.
  intros Hm. assert (revk k m = revk k m mod 2 ^ k) as ->.
  { apply rev_bits_ext; [apply rev_range| |].
    - assert (2 ^ k ≤ 2 ^ 64) by (apply Z.pow_le_mono_r; lia).
      assert (0 < 2 ^ k) by (apply Z.pow_pos_nonneg; lia).
      pose proof (Z.mod_pos_bound (revk k m) (2 ^ k)). lia.
    - intros i Hi. rewrite Z.testbit_mod_pow2, revk_testbit by lia.
      by destruct (Z.ltb_spec i k). }
  apply Z.mod_pos_bound, Z.pow_pos_nonneg; lia.
Qed.

Lemma revk_revk m : 0 ≤ m < 2 ^ k → revk k (revk k m) = m.
Proof using Hk.
  intros Hm. assert (2 ^ k ≤ 2 ^ 64) by (apply Z.pow_le_mono_r; lia).
  apply rev_bits_ext; [apply rev_range|lia|].
  intros i Hi. rewrite revk_testbit by (first [by apply revk_range | lia]).
  destruct (Z.ltb_spec i k).
  - rewrite revk_testbit by lia. rewrite Zltb_t by lia. f_equal. lia.
  - symmetry. rewrite <- (Z.mod_small m (2 ^ k)) by done. apply Z.mod_pow2_bits_high. lia.
Qed.

Lemma high_bit_pow : high_bit (2 ^ k) 31 = k.
Proof using Hk.
  assert (k ∈ seqZ 0 32) as Hin by (apply elem_of_seqZ; lia).
  apply Z.eqb_eq.
  refine (proj1 (forallb_forall (λ k, high_bit (2 ^ k) 31 =? k) (seqZ 0 32)) eq_refl k _).
  by apply list_elem_of_In.
Qed.

(** The word [NextIndex] feeds to the first [rev]: the index with all the
    bits above the mask set. *)
Lemma rev_masked x :
  0 ≤ x < 2 ^ k →
  rev (Z.lor x (not64 (2 ^ k - 1))) = revk k x * 2 ^ (64 - k) + (2 ^ (64 - k) - 1).
Proof using Hk.
  intros Hx. assert (0 < 2 ^ (64 - k)) by (apply Z.pow_pos_nonneg; lia).
  pose proof (revk_range x Hx) as Hr. pose proof (shifted_range _ Hr).
  assert (2 ^ k ≤ 2 ^ 64) by (apply Z.pow_le_mono_r; lia).
  assert (0 < 2 ^ k) by (apply Z.pow_pos_nonneg; lia).
  assert (2 ^ (64 - k) - 1 = Z.ones (64 - k)) as Hones by (rewrite Z.ones_equiv; lia).
  assert (revk k x * 2 ^ (64 - k) + (2 ^ (64 - k) - 1)
    = Z.lor (Z.shiftl (revk k x) (64 - k)) (Z.ones (64 - k))) as ->.
  { rewrite Hones, <- Z.shiftl_mul_pow2 by lia. rewrite <- Z.lxor_lor, Z.add_nocarry_lxor; try done.
    all: apply Z.bits_inj'; intros i Hi; rewrite Z.land_spec, Z.shiftl_spec, Z.bits_0 by lia;
      destruct (Z.ltb_spec i (64 - k));
      [rewrite (Z.testbit_neg_r _ (i - (64 - k))) by lia; done
      |rewrite Z.ones_spec_high, andb_false_r by lia; done]. }
  apply rev_bits_ext; [apply rev_range| |].
  { apply lor_range.
    - rewrite Z.shiftl_mul_pow2 by lia. done.
    - rewrite <- Hones. rewrite pow_split. nia. }
  intros i Hi. rewrite rev_testbit, !Z.lor_spec, testbit_not64, Z.shiftl_spec by lia.
  replace (2 ^ k - 1) with (Z.ones k) by (rewrite Z.ones_equiv; lia).
  destruct (Z.ltb_spec i (64 - k)).
  - rewrite (Z.ones_spec_high k), (Z.ones_spec_low (64 - k)) by lia. by rewrite !orb_true_r.
  - rewrite (Z.ones_spec_low k), (Z.ones_spec_high (64 - k)) by lia. simpl.
    rewrite !orb_false_r, revk_testbit by lia.
    destruct (Z.ltb_spec (i - (64 - k)) k); [f_equal; lia|lia].
Qed.

(** One step of the walk: increment of the reversed index. *)
Lemma NextIndex_spec x :
  0 ≤ x < 2 ^ k →
  NextIndex x (2 ^ k) = Ok (revk k ((revk k x + 1) mod 2 ^ k)).
Proof using Hk.
  intros Hx. unfold NextIndex. rewrite high_bit_pow.
  destruct (Z.ltb_spec k 0); [lia|]. f_equal.
  assert (2 ^ k ≤ 2 ^ 31) by (apply Z.pow_le_mono_r; lia).
  assert (0 < 2 ^ (64 - k)) by (apply Z.pow_pos_nonneg; lia).
  assert (0 < 2 ^ k) by (apply Z.pow_pos_nonneg; lia).
  rewrite Z.shiftl_mul_pow2, Z.mul_1_l, (u64_small (2 ^ k)) by lia.
  rewrite rev_masked by done. unfold revk at 2. f_equal.
  replace (revk k x * 2 ^ (64 - k) + (2 ^ (64 - k) - 1) + 1)
    with ((revk k x + 1) * 2 ^ (64 - k)) by lia.
  unfold u64. rewrite pow_split. apply Z.mul_mod_distr_r; lia.
Qed.

(** After [n] steps from bucket 0 the cursor is the reversal of [n]. *)
Lemma cursor_after_spec n :
  cursor_after n (2 ^ k) 0 = Ok (revk k (Z.of_nat n mod 2 ^ k)).
Proof using Hk.
  assert (0 < 2 ^ k) by (apply Z.pow_pos_nonneg; lia).
  induction n as [|n IH]; simpl.
  - rewrite Z.mod_0_l by lia. reflexivity.
  - rewrite (bind_Ok _ _ _ IH). pose proof (Z.mod_pos_bound (Z.of_nat n) (2 ^ k)).
    rewrite NextIndex_spec by (apply revk_range; lia).
    rewrite revk_revk by lia. rewrite Z.add_mod_idemp_l by lia. do 3 f_equal. lia.
Qed.
End walk.

(** ** The walk covers every bucket once *)

(** [rev] is an involution on 64-bit words that mirrors bit positions. *)
Theorem rev_mirror v i :
  0 ≤ v < 2 ^ 64 → 0 ≤ i < 64 →
  Z.testbit (rev v) i = Z.testbit v (63 - i) ∧ rev (rev v) = v ∧ 0 ≤ rev v < 2 ^ 64.
Proof. eauto using rev_testbit, rev_rev, rev_range. Qed.

Lemma rev_mirror_witness :
  Z.testbit (rev 6) 62 = true ∧ rev (rev 6) = 6 ∧ 0 ≤ rev 6 < 2 ^ 64.
Proof. apply (rev_mirror 6 62); lia. Defined.

(** Starting at bucket 0 of a table of [2^k] buckets, every bucket [b] is the
    cursor after exactly one number of steps below [2^k], every cursor is a
    bucket of the table, and the cursor is back at 0, the stop condition of
    the expiration cycle, after [2^k] steps and not before. *)
Theorem traversal_visits_each_bucket_once k :
  0 ≤ k ≤ 31 →
  (∀ b, 0 ≤ b < 2 ^ k →
     ∃ n, (Z.of_nat n < 2 ^ k ∧ cursor_after n (2 ^ k) 0 = Ok b) ∧
          ∀ n', Z.of_nat n' < 2 ^ k → cursor_after n' (2 ^ k) 0 = Ok b → n' = n) ∧
  (∀ n, ∃ b, cursor_after n (2 ^ k) 0 = Ok b ∧ 0 ≤ b < 2 ^ k ∧
     (b = 0 ↔ Z.of_nat n mod 2 ^ k = 0)).
Proof.
  intros Hk. assert (0 < 2 ^ k) by (apply Z.pow_pos_nonneg; lia). split.
  - intros b Hb. pose proof (revk_range k Hk b Hb) as Hr. exists (Z.to_nat (revk k b)).
    split; [split; [lia|]|].
    + rewrite cursor_after_spec, Z2Nat.id, Z.mod_small by lia. by rewrite revk_revk.
    + intros n' Hn'. rewrite cursor_after_spec, Z.mod_small by lia. intros [= <-].
      rewrite revk_revk by lia. lia.
  - intros n. pose proof (Z.mod_pos_bound (Z.of_nat n) (2 ^ k)).
    eexists. split; [by apply cursor_after_spec|]. split; [apply revk_range; lia|].
    split; intros E; [|by rewrite E].
    rewrite <- (revk_revk k Hk (Z.of_nat n mod 2 ^ k)) by lia. by rewrite E.
Qed.

Lemma traversal_visits_each_bucket_once_witness :
  ∃ b, cursor_after 5 8 0 = Ok b ∧ 0 ≤ b < 8 ∧ (b = 0 ↔ Z.of_nat 5 mod 8 = 0).
Proof. apply (traversal_visits_each_bucket_once 3). lia. Defined.
