(* ===== verification/Atomics.v ===== *)
(** * Atomic maxima and the memory tracker

    Model of [MemoryTracker] and [Mallocator] (src/src/base/memory.h) and of
    the maxima of [ClientStats] (src/src/client_manager.cc): atomic variables
    shared by the executor threads, with the loop that raises a maximum by
    [compare_exchange_weak].

    An atomic variable is its modification order, newest value first.  A
    relaxed load may see any value of it, an exchange acts on the newest value
    and may fail spuriously, so every behaviour the memory model allows is one
    of this model. *)

From stdpp Require Import sorting.
From S2P Require Import Prelude.

(** ** Atomic variables *)

Abbreviation atomic := (list Z).

Definition newest (a : atomic) : Z := default 0 (head a).

(** A load that sees the [n]-th value of the modification order. *)
Definition load (n : nat) (a : atomic) : option Z := a !! n.

(** [fetch_add] and [fetch_sub] on [size_t] and [uint64_t]. *)
Definition fetch_add (d : Z) (a : atomic) : atomic := u64 (newest a + d) :: a.
Definition fetch_sub (d : Z) (a : atomic) : atomic := u64 (newest a - d) :: a.

(** ** The maximum loop

    [auto cur = a.load(); while (s > cur && !a.compare_exchange_weak(cur, s)) {}].
    A thread is before the load, in the loop with the value it expects, or
    done. *)

Inductive maxer := MLoad (s : Z) | MLoop (s cur : Z) | MDone (s : Z).

(** What the memory system chooses at a step: which value a load (or a failed
    exchange) sees, and whether an exchange fails spuriously. *)
Record choice := mkChoice { sees : nat; spurious : bool }.

Definition max_step (c : choice) (m : maxer) (a : atomic) : option (maxer * atomic) :=
  match m with
  | MLoad s => cur ← load (sees c) a; Some (MLoop s cur, a)
  | MLoop s cur =>
      if cur <? s then
        if (newest a =? cur) && negb (spurious c) then Some (MDone s, s :: a)
        else cur ← load (sees c) a; Some (MLoop s cur, a)
      else Some (MDone s, a)
  | MDone _ => None
  end.

Definition value_of (m : maxer) : Z :=
  match m with MLoad s | MLoop s _ | MDone s => s end.

(** The modification order of a maximum is increasing: the newest value is the
    largest. *)
Definition increasing (a : atomic) : Prop := StronglySorted (λ x y, y < x) a.

Lemma increasing_newest a n x : increasing a → load n a = Some x → x ≤ newest a.
Proof.
  intros Ha Hx. destruct a as [|y a]; [done|]. inversion_clear Ha as [|? ? _ Hall]. unfold newest. simpl.
  destruct n as [|n]; simpl in Hx; [by injection Hx as ->|].
  eapply Forall_forall in Hall; [|by eapply list_elem_of_lookup_2]. lia.
Qed.

(** A maximum loop that has seen a value it may stop at. *)
Definition seen (m : maxer) (a : atomic) : Prop :=
  match m with
  | MLoad _ => True
  | MLoop _ cur => cur ≤ newest a
  | MDone s => s ≤ newest a
  end.

Lemma max_step_ok c m a m' a' :
  increasing a → a ≠ [] → seen m a → max_step c m a = Some (m', a') →
  increasing a' ∧ a' ≠ [] ∧ seen m' a' ∧ newest a ≤ newest a' ∧ value_of m' = value_of m ∧
  (a' = a ∨ ∃ s, m' = MDone s ∧ a' = s :: a).
Proof.
  intros Ha Hne Hs Hstep. destruct m as [s|s cur|s]; simpl in Hstep; [| |done].
  - apply bind_Some in Hstep as (cur&Hl&[= <- <-]). split_and!; try done; [|by left].
    by eapply increasing_newest.
  - destruct (Z.ltb_spec cur s) as [Hlt|Hge].
    2: { injection Hstep as <- <-. simpl in *. split_and!; try done; [lia|by left]. }
    destruct (Z.eqb_spec (newest a) cur) as [He|He], (spurious c); simpl in Hstep.
    2: { injection Hstep as <- <-. assert (newest (s :: a) = s) as Hs0 by done.
         split_and!; try (done || (simpl; lia) || (right; by exists s)).
         constructor; [done|]. apply Forall_forall. intros x [n Hn]%list_elem_of_lookup.
         pose proof (increasing_newest a n x Ha Hn). lia. }
    all: apply bind_Some in Hstep as (cur'&Hl&[= <- <-]); split_and!; try done; [|by left];
      by eapply increasing_newest.
Qed.

(** ** A shared maximum

    [ClientStats::UpdateInputBufferSize] and [UpdateOutputBufferSize]: any
    number of threads raise the same maximum. *)

Record MaxState := mkMax { var : atomic; threads : gmap nat maxer }.

Inductive max_event :=
  | MStart (t : nat) (s : Z)       (* thread [t] calls Update...Size(s) *)
  | MStep (t : nat) (c : choice).  (* thread [t] makes a step *)

Definition max_next (e : max_event) (st : MaxState) : option MaxState :=
  match e with
  | MStart t s =>
      match threads st !! t with
      | None | Some (MDone _) => Some (mkMax (var st) (<[t := MLoad s]> (threads st)))
      | _ => None
      end
  | MStep t c =>
      m ← threads st !! t;
      '(m', a) ← max_step c m (var st);
      Some (mkMax a (<[t := m']> (threads st)))
  end.

Fixpoint max_run (es : list max_event) (st : MaxState) : option MaxState :=
  match es with
  | [] => Some st
  | e :: es => st ← max_next e st; max_run es st
  end.

(** The maximum at rest: value 0, no thread. *)
Definition max_init : MaxState := mkMax [0] ∅.

(** The values reported by calls that have returned, in a run. *)
Fixpoint returned (es : list max_event) (st : MaxState) : list Z :=
  match es with
  | [] => []
  | e :: es =>
      match max_next e st with
      | None => []
      | Some st' =>
          match e with
          | MStep t _ => match threads st' !! t with
                         | Some (MDone s) => [s]
                         | _ => []
                         end
          | MStart _ _ => []
          end ++ returned es st'
      end
  end.

(** The values that calls were made with. *)
Definition started (es : list max_event) : list Z :=
  omap (λ e, match e with MStart _ s => Some s | _ => None end) es.

Record max_ok (st : MaxState) : Prop := {
  mx_order : increasing (var st);
  mx_some : var st ≠ [];
  mx_seen : ∀ t m, threads st !! t = Some m → seen m (var st) }.

Lemma seen_mono m a a' : newest a ≤ newest a' → seen m a → seen m a'.
Proof. destruct m; simpl; intros; try done; lia. Qed.

Lemma max_next_ok e st st' :
  max_ok st → max_next e st = Some st' → max_ok st' ∧ newest (var st) ≤ newest (var st').
Proof.
  intros [Ho Hne Hs] Hn. destruct e as [t s|t c]; simpl in Hn.
  - assert (st' = mkMax (var st) (<[t := MLoad s]> (threads st))) as ->
      by (destruct (threads st !! t) as [[]|]; simplify_eq; done).
    split; [|done]. split; try done. simpl. intros t' m.
    rewrite lookup_insert_Some. intros [[_ <-]|[_ Hm]]; [done|by eapply Hs].
  - apply bind_Some in Hn as (m&Hm&Hn). apply bind_Some in Hn as ([m' a]&Hstep&[= <-]).
    destruct (max_step_ok c m (var st) m' a Ho Hne (Hs _ _ Hm) Hstep) as (?&?&?&?&_).
    split; [|done]. split; try done. simpl. intros t' m0.
    rewrite lookup_insert_Some. intros [[_ <-]|[_ Hm0]]; [done|]. eapply seen_mono; [done|].
    by eapply Hs.
Qed.

Lemma max_run_ok es st st' :
  max_ok st → max_run es st = Some st' → max_ok st' ∧ newest (var st) ≤ newest (var st').
Proof.
  revert st. induction es as [|e es IH]; simpl; intros st Hok Hr; [by injection Hr as ->|].
  apply bind_Some in Hr as (st1&Hn&Hr). destruct (max_next_ok _ _ _ Hok Hn) as [Hok1 ?].
  destruct (IH _ Hok1 Hr). split; [done|lia].
Qed.

Lemma max_run_returned es st st' s :
  max_ok st → max_run es st = Some st' → s ∈ returned es st → s ≤ newest (var st').
Proof.
  revert st. induction es as [|e es IH]; intros st Hok Hrun Hin; simpl in *;
    [by apply elem_of_nil in Hin|].
  apply bind_Some in Hrun as (st1&Hn&Hrun). rewrite Hn in Hin.
  destruct (max_next_ok _ _ _ Hok Hn) as [Hok1 _].
  apply elem_of_app in Hin as [Hin|Hin]; [|by eapply IH].
  destruct e as [|t c]; [by apply elem_of_nil in Hin|].
  destruct (threads st1 !! t) as [[]|] eqn:E; try by apply elem_of_nil in Hin.
  apply list_elem_of_singleton in Hin as ->. pose proof (mx_seen _ Hok1 _ _ E) as Hs. simpl in Hs.
  etransitivity; [exact Hs|]. by apply (max_run_ok es).
Qed.

(** Where the values come from. *)
Definition from (P : Z → Prop) (st : MaxState) : Prop :=
  (∀ x, x ∈ var st → P x) ∧ ∀ t m, threads st !! t = Some m → P (value_of m).

Lemma max_step_from (P : Z → Prop) c m a m' a' :
  (∀ x, x ∈ a → P x) → P (value_of m) → max_step c m a = Some (m', a') →
  (∀ x, x ∈ a' → P x) ∧ P (value_of m').
Proof.
  intros Ha Hm Hstep. destruct m as [s|s cur|s]; simpl in Hstep; [| |done].
  - by apply bind_Some in Hstep as (cur&_&[= <- <-]).
  - destruct (_ <? _); [|by injection Hstep as <- <-].
    destruct (_ && _); [|by apply bind_Some in Hstep as (cur'&_&[= <- <-])].
    injection Hstep as <- <-. split; [|done]. intros x [->|Hx]%elem_of_cons; auto.
Qed.

Lemma max_run_from (P : Z → Prop) es st st' :
  from P st → (∀ s, s ∈ started es → P s) → max_run es st = Some st' → from P st'.
Proof.
  revert st. induction es as [|e es IH]; intros st Hf Hst Hrun; simpl in Hrun;
    [by injection Hrun as <-|].
  apply bind_Some in Hrun as (st1&Hn&Hrun). eapply IH; [| |exact Hrun].
  2: { intros s Hs. apply Hst. unfold started in *. apply list_elem_of_omap in Hs as (x&?&?).
       apply list_elem_of_omap. exists x. split; [by right|done]. }
  destruct Hf as [Hv Ht]. destruct e as [t s|t c]; simpl in Hn.
  - assert (P s) by (apply Hst; by left).
    assert (st1 = mkMax (var st) (<[t := MLoad s]> (threads st))) as ->
      by (destruct (threads st !! t) as [[]|]; simplify_eq; done).
    split; [done|]. simpl. intros t' m. rewrite lookup_insert_Some.
    intros [[_ <-]|[_ Hm]]; [done|by eapply Ht].
  - apply bind_Some in Hn as (m&Hm&Hn). apply bind_Some in Hn as ([m' a]&Hstep&[= <-]).
    destruct (max_step_from P c m (var st) m' a Hv (Ht _ _ Hm) Hstep) as [Hv' Hm'].
    split; [done|]. simpl. intros t' m0. rewrite lookup_insert_Some.
    intros [[_ <-]|[_ Hm0]]; [done|by eapply Ht].
Qed.

Lemma max_init_ok : max_ok max_init.
Proof. split; [constructor; constructor|done|done]. Qed.

(** The maximum of the reported sizes. *)
Definition maximum (l : list Z) : Z := foldr Z.max 0 l.

Lemma maximum_le l b : 0 ≤ b → (∀ x, x ∈ l → x ≤ b) → maximum l ≤ b.
Proof.
  intros Hb. unfold maximum. induction l as [|x l IH]; simpl; intros Hl; [done|].
  apply Z.max_lub; [apply Hl; by left|]. apply IH. intros y Hy. apply Hl. by right.
Qed.

Lemma le_maximum l x : x ∈ l → x ≤ maximum l.
Proof.
  unfold maximum. induction 1 as [|x y l _ IH]; simpl; lia.
Qed.

Lemma maximum_nonneg l : 0 ≤ maximum l.
Proof. unfold maximum. induction l; simpl; lia. Qed.

(** Concurrent maxima are exact: whatever the interleaving of the threads, the
    stale values their loads see and the spurious failures of the exchanges,
    once every call has returned the variable holds the maximum of the
    reported sizes. *)
Theorem shared_maximum_exact es st :
  max_run es max_init = Some st → (∀ s, s ∈ started es → s ∈ returned es max_init) →
  newest (var st) = maximum (started es).
Proof.
  intros Hrun Hall. destruct (max_run_ok es _ _ max_init_ok Hrun) as [[_ Hne _] Hpos].
  apply Z.le_antisymm.
  - destruct (max_run_from (λ x, x = 0 ∨ x ∈ started es) es max_init st) as [Hv _].
    + split; [intros x ->%list_elem_of_singleton; by left|done].
    + intros s Hs. by right.
    + done.
    + destruct (var st) as [|x a]; [done|].
      destruct (Hv x) as [->|Hx]; [by left|apply maximum_nonneg|by apply le_maximum].
  - apply maximum_le; [exact Hpos|].
    intros x Hx. eapply max_run_returned; [apply max_init_ok|done|by apply Hall].
Qed.

(** Three threads report 30, 10 and 20; the second loads before the first
    stores and its exchange fails. *)
Definition fresh : choice := mkChoice 0 false.
Definition sample_schedule : list max_event :=
  [MStart 1 30; MStart 2 10; MStep 2 fresh; MStart 3 20; MStep 1 fresh; MStep 3 fresh;
   MStep 3 (mkChoice 0 true); MStep 1 fresh; MStep 2 fresh; MStep 2 fresh;
   MStep 3 (mkChoice 1 false); MStep 3 fresh; MStep 3 fresh].

Lemma shared_maximum_exact_witness :
  ∃ st, max_run sample_schedule max_init = Some st ∧ newest (var st) = maximum [30; 10; 20].
Proof.
  assert (∃ st, max_run sample_schedule max_init = Some st) as [st Hst]
    by (eexists; vm_compute; reflexivity).
  exists st. split; [exact Hst|].
  apply (shared_maximum_exact sample_schedule st Hst).
  change (started sample_schedule) with [30; 10; 20].
  intros s Hs. assert (returned sample_schedule max_init = [30; 10; 20]) as -> by reflexivity.
  exact Hs.
Defined.

(** ** The memory tracker *)

Inductive Category := kMallocator | kQueryBuffer.

#[global] Instance Category_eq_dec : EqDecision Category.
Proof. solve_decision. Defined.

Record Tracker := mkTracker { counter0 : atomic; counter1 : atomic; peak_ : atomic }.

Definition counter (C : Category) (t : Tracker) : atomic :=
  match C with kMallocator => counter0 t | kQueryBuffer => counter1 t end.
Definition upd_counter (f : atomic → atomic) (C : Category) (t : Tracker) : Tracker :=
  match C with
  | kMallocator => mkTracker (f (counter0 t)) (counter1 t) (peak_ t)
  | kQueryBuffer => mkTracker (counter0 t) (f (counter1 t)) (peak_ t)
  end.

(** A thread inside [Allocate<C>(n)]. *)
Inductive allocating :=
  | AAdd (C : Category) (n : Z)
  | ALoad0
  | ALoad1 (c0 : Z)
  | APeak (m : maxer).

Definition alloc_step (c : choice) (p : allocating) (t : Tracker)
    : option (allocating * Tracker) :=
  match p with
  | AAdd C n => Some (ALoad0, upd_counter (fetch_add n) C t)
  | ALoad0 => c0 ← load (sees c) (counter0 t); Some (ALoad1 c0, t)
  | ALoad1 c0 => c1 ← load (sees c) (counter1 t); Some (APeak (MLoad (u64 (c0 + c1))), t)
  | APeak m =>
      '(m, a) ← max_step c m (peak_ t);
      Some (APeak m, mkTracker (counter0 t) (counter1 t) a)
  end.

Definition Deallocate (C : Category) (n : Z) (t : Tracker) : Tracker :=
  upd_counter (fetch_sub n) C t.

(** [GetAllocated<kAll>], [GetAllocated<C>] and [GetPeakAllocated], with loads
    that see the newest values. *)
Definition GetAllocatedAll (t : Tracker) : Z := u64 (newest (counter0 t) + newest (counter1 t)).
Definition GetAllocated (C : Category) (t : Tracker) : Z := newest (counter C t).
Definition GetPeakAllocated (t : Tracker) : Z := newest (peak_ t).

Definition new_Tracker : Tracker := mkTracker [0] [0] [0].

(** Threads that share the tracker. *)
Record TrackState := mkTrack { tracker : Tracker; callers : gmap nat allocating }.

Inductive track_event :=
  | TAllocate (t : nat) (C : Category) (n : Z)
  | TStep (t : nat) (c : choice)
  | TDeallocate (C : Category) (n : Z).

Definition track_next (e : track_event) (st : TrackState) : option TrackState :=
  match e with
  | TAllocate t C n =>
      match callers st !! t with
      | None | Some (APeak (MDone _)) =>
          Some (mkTrack (tracker st) (<[t := AAdd C n]> (callers st)))
      | _ => None
      end
  | TStep t c =>
      p ← callers st !! t;
      '(p, k) ← alloc_step c p (tracker st);
      Some (mkTrack k (<[t := p]> (callers st)))
  | TDeallocate C n => Some (mkTrack (Deallocate C n (tracker st)) (callers st))
  end.

Fixpoint track_run (es : list track_event) (st : TrackState) : option TrackState :=
  match es with
  | [] => Some st
  | e :: es => st ← track_next e st; track_run es st
  end.

Definition track_init : TrackState := mkTrack new_Tracker ∅.

(** What is still to be added by the calls in progress. *)
Definition to_add (C : Category) (p : allocating) : Z :=
  match p, C with
  | AAdd kMallocator n, kMallocator | AAdd kQueryBuffer n, kQueryBuffer => n
  | _, _ => 0
  end.
Definition net (C : Category) (e : track_event) : Z :=
  match e, C with
  | TAllocate _ kMallocator n, kMallocator | TAllocate _ kQueryBuffer n, kQueryBuffer => n
  | TDeallocate kMallocator n, kMallocator | TDeallocate kQueryBuffer n, kQueryBuffer => - n
  | _, _ => 0
  end.
Definition total (C : Category) (es : list track_event) : Z :=
  foldr (λ e acc, net C e + acc) 0 es.

(** The sum a thread compares with the peak is one of values the two counters
    had; a peak is 0 or such a sum. *)
Definition observed (k : Tracker) (x : Z) : Prop :=
  x = 0 ∨ ∃ a b, a ∈ counter0 k ∧ b ∈ counter1 k ∧ x = u64 (a + b).

Record track_ok (st : TrackState) : Prop := {
  tk_order : increasing (peak_ (tracker st));
  tk_some : peak_ (tracker st) ≠ [];
  tk_peak : ∀ x, x ∈ peak_ (tracker st) → observed (tracker st) x;
  tk_calls : ∀ t p, callers st !! t = Some p →
    match p with
    | AAdd _ _ | ALoad0 => True
    | ALoad1 c0 => c0 ∈ counter0 (tracker st)
    | APeak m => seen m (peak_ (tracker st)) ∧ observed (tracker st) (value_of m)
    end }.

Lemma observed_grow k k' x :
  (∀ a, a ∈ counter0 k → a ∈ counter0 k') → (∀ b, b ∈ counter1 k → b ∈ counter1 k') →
  observed k x → observed k' x.
Proof. intros H0 H1 [->|(a&b&?&?&->)]; [by left|]. right. exists a, b. auto. Qed.

Lemma upd_counter_grow f C k :
  (∀ a x, x ∈ a → x ∈ f a) →
  (∀ a, a ∈ counter0 k → a ∈ counter0 (upd_counter f C k)) ∧
  (∀ b, b ∈ counter1 k → b ∈ counter1 (upd_counter f C k)) ∧
  peak_ (upd_counter f C k) = peak_ k.
Proof. intros Hf. destruct C; simpl; auto. Qed.

(** The invariant survives a change of the counters. *)
Lemma track_ok_counters st C f :
  (∀ a x, x ∈ a → x ∈ f a) → track_ok st →
  track_ok (mkTrack (upd_counter f C (tracker st)) (callers st)).
Proof.
  intros Hf [Ho Hne Hp Hc]. destruct (upd_counter_grow f C (tracker st) Hf) as (G0&G1&Gp).
  split; simpl; rewrite ?Gp; try done.
  - intros x Hx. eapply observed_grow; [done..|by apply Hp].
  - intros t p Ht. specialize (Hc t p Ht). destruct p; try done; [by apply G0|].
    destruct Hc. split; [done|]. by eapply observed_grow.
Qed.

(** One thread's move. *)
Lemma track_ok_put st k t p :
  track_ok (mkTrack k (callers st)) →
  match p with
  | AAdd _ _ | ALoad0 => True
  | ALoad1 c0 => c0 ∈ counter0 k
  | APeak m => seen m (peak_ k) ∧ observed k (value_of m)
  end → track_ok (mkTrack k (<[t := p]> (callers st))).
Proof.
  intros [Ho Hne Hp Hc] Hnew. split; try done. simpl in *. intros t' p'.
  rewrite lookup_insert_Some. intros [[_ <-]|[_ Ht]]; [done|by apply (Hc t')].
Qed.

Lemma load_elem n a x : load n a = Some x → x ∈ a.
Proof. apply list_elem_of_lookup_2. Qed.

Lemma track_next_ok e st st' :
  track_ok st → track_next e st = Some st' →
  track_ok st' ∧ newest (peak_ (tracker st)) ≤ newest (peak_ (tracker st')).
Proof.
  intros Hok Hn. destruct e as [t C n|t c|C n]; simpl in Hn.
  - assert (st' = mkTrack (tracker st) (<[t := AAdd C n]> (callers st))) as ->
      by (destruct (callers st !! t) as [[| | |[]]|]; simplify_eq; done).
    split; [|done]. apply track_ok_put; [by destruct st|done].
  - apply bind_Some in Hn as (p&Hp&Hn). apply bind_Some in Hn as ([p' k]&Hstep&[= <-]).
    pose proof (tk_calls _ Hok t p Hp) as Hc. destruct p as [C n| |c0|m]; simpl in Hstep.
    + injection Hstep as <- <-. split.
      * apply track_ok_put; [|done]. apply track_ok_counters; [|done]. intros a x ?. by right.
      * simpl. by destruct C.
    + apply bind_Some in Hstep as (c0&Hl&[= <- <-]). split; [|done].
      apply track_ok_put; [by destruct st|]. by eapply load_elem.
    + apply bind_Some in Hstep as (c1&Hl&[= <- <-]). split; [|done].
      apply track_ok_put; [by destruct st|]. split; [done|]. right. exists c0, c1.
      split_and!; [done|by eapply load_elem|done].
    + apply bind_Some in Hstep as ([m' a]&Hm&[= <- <-]). destruct Hc as [Hs Hob].
      destruct Hok as [Ho Hne Hpk Hcs].
      destruct (max_step_ok c m _ m' a Ho Hne Hs Hm) as (Ho'&Hne'&Hs'&Hle&_).
      destruct (max_step_from (observed (tracker st)) c m _ m' a Hpk Hob Hm) as [Hpk' Hob'].
      split; [|done]. apply track_ok_put; [|done]. split; try done. simpl. intros t' p' Ht'.
      specialize (Hcs t' p' Ht'). destruct p'; try done. destruct Hcs as [Hs1 Hob1].
      split; [by eapply seen_mono|done].
  - injection Hn as <-. split; [|by destruct C].
    apply track_ok_counters; [|done]. intros a x ?. by right.
Qed.

Lemma track_init_ok : track_ok track_init.
Proof.
  split; simpl; try done.
  - constructor; constructor.
  - intros x ->%list_elem_of_singleton. by left.
Qed.

Lemma track_run_ok es st st' :
  track_ok st → track_run es st = Some st' →
  track_ok st' ∧ newest (peak_ (tracker st)) ≤ newest (peak_ (tracker st')).
Proof.
  revert st. induction es as [|e es IH]; simpl; intros st Hok Hr; [by injection Hr as ->|].
  apply bind_Some in Hr as (st1&Hn&Hr). destruct (track_next_ok _ _ _ Hok Hn) as [Hok1 ?].
  destruct (IH _ Hok1 Hr). split; [done|lia].
Qed.

(** *** The counters are exact *)

Definition pending_adds (C : Category) (m : gmap nat allocating) : Z :=
  map_fold (λ _ p acc, to_add C p + acc) 0 m.

Lemma pending_adds_insert C t p m :
  pending_adds C (<[t := p]> m) = to_add C p - from_option (to_add C) 0 (m !! t) + pending_adds C m.
Proof.
  unfold pending_adds. rewrite <- insert_delete_eq.
  rewrite map_fold_insert_L by first [intros; lia|apply lookup_delete_eq].
  destruct (m !! t) as [q|] eqn:E; simpl.
  - rewrite (map_fold_delete_L _ _ t q m) by first [intros; lia|done]. lia.
  - rewrite delete_id by done. lia.
Qed.

Lemma newest_counter_upd f C C' k :
  newest (counter C' (upd_counter f C k))
  = if decide (C = C') then newest (f (counter C' k)) else newest (counter C' k).
Proof. by destruct C, C'. Qed.

Definition balance (C : Category) (st : TrackState) : Z :=
  u64 (newest (counter C (tracker st)) + pending_adds C (callers st)).

Lemma u64_congr a b c : u64 a = u64 b → u64 (a + c) = u64 (b + c).
Proof. unfold u64. intros H. by rewrite <- Zplus_mod_idemp_l, H, Zplus_mod_idemp_l. Qed.

Lemma track_next_balance C e st st' :
  track_next e st = Some st' → balance C st' = u64 (balance C st + net C e).
Proof.
  unfold balance. intros Hn.
  assert (∀ a b, u64 (u64 a + b) = u64 (a + b)) as Hmod
    by (intros; unfold u64; by rewrite Zplus_mod_idemp_l).
  destruct e as [t C' n|t c|C' n]; simpl in Hn.
  - assert (st' = mkTrack (tracker st) (<[t := AAdd C' n]> (callers st)) ∧
            from_option (to_add C) 0 (callers st !! t) = 0) as [-> H0]
      by (destruct (callers st !! t) as [[| | |[]]|]; simplify_eq; by destruct C).
    simpl. rewrite pending_adds_insert, H0, Hmod. f_equal. destruct C, C'; simpl; lia.
  - apply bind_Some in Hn as (p&Hp&Hn). apply bind_Some in Hn as ([p' k]&Hstep&[= <-]). simpl.
    rewrite pending_adds_insert, Hp. simpl.
    rewrite Hmod. destruct p as [C' n| |c0|m]; simpl in Hstep.
    + injection Hstep as <- <-. rewrite newest_counter_upd.
      destruct (decide (C' = C)) as [->|Hne].
      * unfold fetch_add. cbn [newest head default from_option id]. rewrite Hmod. f_equal.
        destruct C; simpl; lia.
      * f_equal. destruct C, C'; simpl; try done; lia.
    + apply bind_Some in Hstep as (c0&_&[= <- <-]). f_equal. destruct C; simpl; lia.
    + apply bind_Some in Hstep as (c1&_&[= <- <-]). f_equal. destruct C; simpl; lia.
    + apply bind_Some in Hstep as ([m' a]&_&[= <- <-]). f_equal. destruct C; simpl; lia.
  - injection Hn as <-. simpl. unfold Deallocate. rewrite newest_counter_upd, Hmod.
    destruct (decide (C' = C)) as [->|Hne].
    + unfold fetch_sub. cbn [newest head default from_option id]. rewrite Hmod. f_equal.
      destruct C; simpl; lia.
    + f_equal. destruct C, C'; simpl; try done; lia.
Qed.

Lemma track_run_balance C es st st' :
  track_run es st = Some st' → balance C st' = u64 (balance C st + total C es).
Proof.
  revert st. induction es as [|e es IH]; simpl; intros st Hr.
  - injection Hr as <-. rewrite Z.add_0_r. unfold balance, u64. by rewrite Z.mod_mod.
  - apply bind_Some in Hr as (st1&Hn&Hr). rewrite (IH _ Hr), (track_next_balance C _ _ _ Hn).
    unfold u64. rewrite Zplus_mod_idemp_l. f_equal. lia.
Qed.

(** C29: Whatever the interleaving of allocations, deallocations, stale loads and
    spurious failures: the counters hold the net number of bytes (as 64-bit
    numbers) once no call is about to add its part; the peak never decreases,
    is at least every sum a finished call has computed, and is itself a sum of
    values the counters had. *)
Theorem tracker_counts_and_peak es st C :
  track_run es track_init = Some st → (∀ t p, callers st !! t = Some p → to_add C p = 0) →
  u64 (GetAllocated C (tracker st)) = u64 (total C es) ∧
  observed (tracker st) (GetPeakAllocated (tracker st)) ∧ 0 ≤ GetPeakAllocated (tracker st) ∧
  ∀ t s, callers st !! t = Some (APeak (MDone s)) → s ≤ GetPeakAllocated (tracker st).
Proof.
  intros Hrun Hdone. destruct (track_run_ok es _ _ track_init_ok Hrun) as [Hok Hle].
  split_and!; [|  |done|].
  - pose proof (track_run_balance C es _ _ Hrun) as Hb. unfold balance in Hb.
    assert (pending_adds C (callers st) = 0) as H0.
    { unfold pending_adds. revert Hdone. generalize (callers st). clear. intros m.
      induction m as [|t p m Hm IH] using map_ind; intros Hd; [by rewrite map_fold_empty|].
      rewrite map_fold_insert_L by first [intros; lia|done].
      rewrite (Hd t p) by by rewrite lookup_insert_eq. rewrite IH; [done|].
      intros t' p' Ht'. apply (Hd t'). rewrite lookup_insert_ne; [done|]. congruence. }
    rewrite H0, Z.add_0_r in Hb. unfold GetAllocated. rewrite Hb. by destruct C.
  - apply Hok. destruct (peak_ (tracker st)) eqn:E; [by apply (tk_some _ Hok) in E|].
    unfold GetPeakAllocated. rewrite E. by left.
  - intros t s Ht. by destruct (tk_calls _ Hok t _ Ht).
Qed.

(** *** Alone, a call is the sequential one *)

(** [Allocate<C>(n)] when no other thread interferes. *)
Definition Allocate (C : Category) (n : Z) (k : Tracker) : Tracker :=
  let k := upd_counter (fetch_add n) C k in
  let sum := GetAllocatedAll k in
  if newest (peak_ k) <? sum then mkTracker (counter0 k) (counter1 k) (sum :: peak_ k) else k.

(** The steps of a thread that runs alone, its loads seeing the newest
    values. *)
Fixpoint run_alone (fuel : nat) (p : allocating) (k : Tracker) : option Tracker :=
  match p with
  | APeak (MDone _) => Some k
  | _ => match fuel with
         | O => None
         | S fuel => '(p, k) ← alloc_step fresh p k; run_alone fuel p k
         end
  end.



(** Two threads allocate at once, a third block is freed in between. *)
Definition sample_tracking : list track_event :=
  [TAllocate 1 kMallocator 100; TAllocate 2 kQueryBuffer 40; TStep 1 fresh; TStep 1 fresh;
   TStep 2 fresh; TStep 2 fresh; TDeallocate kMallocator 60; TStep 1 (mkChoice 1 false);
   TStep 1 fresh; TStep 2 fresh; TStep 2 fresh; TStep 2 fresh; TStep 1 (mkChoice 0 true);
   TStep 1 fresh].

Lemma tracker_counts_and_peak_witness :
  ∃ st, track_run sample_tracking track_init = Some st ∧
  u64 (GetAllocated kMallocator (tracker st)) = u64 (total kMallocator sample_tracking) ∧
  observed (tracker st) (GetPeakAllocated (tracker st)) ∧ 0 ≤ GetPeakAllocated (tracker st) ∧
  ∀ t s, callers st !! t = Some (APeak (MDone s)) → s ≤ GetPeakAllocated (tracker st).
Proof.
  assert (∃ st, track_run sample_tracking track_init = Some st ∧
                ∀ t p, callers st !! t = Some p → to_add kMallocator p = 0) as (st&Hst&Hd).
  { eexists. split; [vm_compute; reflexivity|]. intros t p Hp.
    assert (map_Forall (λ _ q, to_add kMallocator q = 0)
      (callers (default track_init (track_run sample_tracking track_init)))) as Hall
      by (apply map_Forall_to_list; vm_compute; repeat constructor).
    apply (Hall t p). exact Hp. }
  exists st. split; [exact Hst|]. apply (tracker_counts_and_peak sample_tracking st kMallocator Hst Hd).
Defined.

(** ** The allocator of tracked strings *)

Definition size_max : Z := 2 ^ 64 - 1.

(** [Mallocator<T>::allocate(n)]: [malloc] answers an address or null. *)
Definition allocate (sizeT n : Z) (malloc : Z → option Z) (k : Tracker) : Outcome (Z * Tracker) :=
  if size_max / sizeT <? n then Fault Thrown
  else
    match malloc (u64 (n * sizeT)) with
    | Some p => Ok (p, Allocate kMallocator (u64 (sizeT * n)) k)
    | None => Fault Thrown
    end.

Definition deallocate (sizeT n : Z) (k : Tracker) : Tracker :=
  Deallocate kMallocator (u64 (sizeT * n)) k.

Lemma newest_Allocate n k : newest (counter0 (Allocate kMallocator n k)) = u64 (newest (counter0 k) + n).
Proof. unfold Allocate. simpl. by destruct (_ <? _). Qed.

(** An allocation asks for and reports exactly [n * sizeof(T)] bytes, without
    wrap-around, or throws; the deallocation of as many elements undoes the
    report. *)
Theorem mallocator_reports_exact_bytes sizeT n malloc k :
  0 < sizeT → 0 ≤ n → 0 ≤ GetAllocated kMallocator k < 2 ^ 64 →
  match allocate sizeT n malloc k with
  | Ok (p, k') => n * sizeT < 2 ^ 64 ∧ malloc (n * sizeT) = Some p ∧
      GetAllocated kMallocator k' = u64 (GetAllocated kMallocator k + n * sizeT) ∧
      GetAllocated kMallocator (deallocate sizeT n k') = GetAllocated kMallocator k
  | Fault f => f = Thrown ∧ (2 ^ 64 ≤ n * sizeT ∨ malloc (n * sizeT) = None)
  | Diverge => False
  end.
Proof.
  intros Hs Hn Hk. unfold allocate. destruct (Z.ltb_spec (size_max / sizeT) n) as [Hlt|Hle].
  { split; [done|]. left. unfold size_max in Hlt.
    pose proof (Z.mul_div_le (2 ^ 64 - 1) sizeT Hs).
    pose proof (Z.mod_pos_bound (2 ^ 64 - 1) sizeT Hs).
    pose proof (Z.div_mod (2 ^ 64 - 1) sizeT ltac:(lia)). nia. }
  assert (n * sizeT < 2 ^ 64) as Hb.
  { unfold size_max in Hle. pose proof (Z.mul_div_le (2 ^ 64 - 1) sizeT Hs). nia. }
  rewrite (Z.mul_comm sizeT n), (u64_small (n * sizeT)) by nia.
  destruct (malloc (n * sizeT)) as [p|] eqn:E; [|by split; [|right]].
  unfold GetAllocated, deallocate, Deallocate in *. simpl in *.
  rewrite newest_Allocate, (Z.mul_comm sizeT n), (u64_small (n * sizeT)) by nia.
  split_and!; try done. unfold fetch_sub. cbn [newest head default from_option id].
  fold (newest (counter0 (Allocate kMallocator (n * sizeT) k))). rewrite newest_Allocate.
  unfold u64. rewrite Zminus_mod_idemp_l.
  replace (newest (counter0 k) + n * sizeT - n * sizeT) with (newest (counter0 k)) by lia.
  by apply Z.mod_small.
Qed.

Lemma mallocator_reports_exact_bytes_witness :
  match allocate 8 100 (λ b, Some (4096 + b)) new_Tracker with
  | Ok (p, k') => 100 * 8 < 2 ^ 64 ∧ Some (4096 + 100 * 8) = Some p ∧
      GetAllocated kMallocator k' = u64 (GetAllocated kMallocator new_Tracker + 100 * 8) ∧
      GetAllocated kMallocator (deallocate 8 100 k') = GetAllocated kMallocator new_Tracker
  | Fault f => f = Thrown ∧ (2 ^ 64 ≤ 100 * 8 ∨ Some (4096 + 100 * 8) = None)
  | Diverge => False
  end.
Proof.
  apply (mallocator_reports_exact_bytes 8 100 (λ b, Some (4096 + b)) new_Tracker).
  - lia.
  - lia.
  - vm_compute. split; congruence.
Defined.
