(* ===== verification/ClientManager.v ===== *)
(** * The table of clients

    Model of [ClientManager] (src/src/client_manager.h, client_manager.cc): a
    vector of client pointers indexed by the connection's file descriptor less
    one, and the number of active clients; and of the part of
    [Server::Shutdown] (src/src/server.cc) that closes them.

    [RemoveClient] holds the mutex throughout.  [AddClient] holds it only while
    the vector grows, so its steps are also given one by one: executed in one
    thread they are the sequential function, executed by two threads they may
    shrink the vector under each other. *)

From S2P Require Import Prelude.

(** The longest [std::vector] of pointers, of [PTRDIFF_MAX] bytes. *)
Definition vector_max_size : Z := 2 ^ 60 - 1.

Section manager.
Context `{!BuildMode} {A : Type}.

Record ClientManager := mkManager {
  clients_ : list (option A);
  active_clients_ : Z }.
Implicit Types (m : ClientManager) (v : list (option A)) (fd : Z).

Definition new_ClientManager : ClientManager := mkManager [] 0.

Definition ConnectionToIndex fd : Z := u64 (u64 fd - 1).

Definition resize_clients (n : Z) v : Outcome (list (option A)) :=
  if vector_max_size <? n then Fault Thrown
  else Ok (take (Z.to_nat n) v ++ replicate (Z.to_nat n - length v) None).

Definition is_null (p : option A) : bool := match p with None => true | Some _ => false end.

(** [assert(clients_\[index\] == nullptr)]: nothing is read in a release build. *)
Definition assert_free (index : Z) v : Outcome unit :=
  if ndebug then Ok tt else p ← vec_get v index; cassert (is_null p).

(** [assert(clients_.size() > index && clients_\[index\] != nullptr)]. *)
Definition assert_taken (index : Z) v : Outcome unit :=
  if ndebug then Ok tt
  else if index <? Z.of_nat (length v) then p ← vec_get v index; cassert (negb (is_null p))
  else cassert false.

Definition install (index : Z) (client : A) m : Outcome ClientManager :=
  _ ← assert_free index (clients_ m);
  v ← vec_set (clients_ m) index (Some client);
  Ok (mkManager v (u64 (active_clients_ m + 1))).

Definition AddClient fd (client : A) m : Outcome ClientManager :=
  let index := ConnectionToIndex fd in
  v ← (if Z.of_nat (length (clients_ m)) <=? index
       then resize_clients (u64 (2 * index)) (clients_ m) else Ok (clients_ m));
  install index client (mkManager v (active_clients_ m)).

Definition RemoveClient fd m : Outcome ClientManager :=
  let index := ConnectionToIndex fd in
  _ ← assert_taken index (clients_ m);
  v ← vec_set (clients_ m) index None;
  Ok (mkManager v (u64 (active_clients_ m - 1))).

Definition ActiveClients m : Z := active_clients_ m.

(** ** [AddClient] step by step

    Before the test of the size, before the locked resize, before the
    installation, and returned. *)

Inductive adder := AddTest (fd : Z) (client : A) | AddResize (fd : Z) (client : A)
  | AddInstall (fd : Z) (client : A) | AddReturned.

Definition add_step (a : adder) m : Outcome (adder * ClientManager) :=
  match a with
  | AddTest fd client =>
      Ok (if Z.of_nat (length (clients_ m)) <=? ConnectionToIndex fd
          then AddResize fd client else AddInstall fd client, m)
  | AddResize fd client =>
      v ← resize_clients (u64 (2 * ConnectionToIndex fd)) (clients_ m);
      Ok (AddInstall fd client, mkManager v (active_clients_ m))
  | AddInstall fd client => m ← install (ConnectionToIndex fd) client m; Ok (AddReturned, m)
  | AddReturned => Ok (AddReturned, m)
  end.

(** Several threads: [sched] says which one makes the next step. *)
Fixpoint add_run (sched : list nat) (ts : list adder) m : Outcome (list adder * ClientManager) :=
  match sched with
  | [] => Ok (ts, m)
  | t :: sched =>
      match ts !! t with
      | Some a => '(a, m) ← add_step a m; add_run sched (<[t:=a]> ts) m
      | None => add_run sched ts m
      end
  end.

(** ** Shutdown

    The loop of [Server::Shutdown] over a copy of the vector: [Client::Close]
    removes the client of its own connection. *)

Context (fd_of : A → Z).

Fixpoint close_clients (clients : list (option A)) m : Outcome ClientManager :=
  match clients with
  | [] => Ok m
  | None :: clients => close_clients clients m
  | Some c :: clients => m ← RemoveClient (fd_of c) m; close_clients clients m
  end.

Definition CloseAll m : Outcome ClientManager :=
  m ← close_clients (clients_ m) m;
  _ ← cassert (ActiveClients m =? 0);
  Ok m.

(** ** The abstract table: clients by file descriptor *)

Inductive table_op := TAdd (fd : Z) (client : A) | TRemove (fd : Z).

Definition table_step (o : table_op) m : Outcome ClientManager :=
  match o with TAdd fd c => AddClient fd c m | TRemove fd => RemoveClient fd m end.

Fixpoint table_run (os : list table_op) m : Outcome ClientManager :=
  match os with [] => Ok m | o :: os => m ← table_step o m; table_run os m end.

Definition atable_step (o : table_op) (t : gmap Z A) : gmap Z A :=
  match o with TAdd fd c => <[fd:=c]> t | TRemove fd => delete fd t end.

(** A descriptor of an accepted socket: positive, an [int], not the one the
    table has no slot for, and not that of a connection still open. *)
Definition op_ok (o : table_op) (t : gmap Z A) : Prop :=
  match o with
  | TAdd fd c => 2 ≤ fd < 2 ^ 31 ∧ t !! fd = None ∧ fd_of c = fd
  | TRemove fd => is_Some (t !! fd)
  end.

Fixpoint ops_ok (os : list table_op) (t : gmap Z A) : Prop :=
  match os with [] => True | o :: os => op_ok o t ∧ ops_ok os (atable_step o t) end.

Definition atable_run (os : list table_op) (t : gmap Z A) : gmap Z A :=
  foldl (flip atable_step) t os.

Record represents m (t : gmap Z A) : Prop := {
  rep_slot i c : clients_ m !! i = Some (Some c) ↔ t !! (Z.of_nat i + 1) = Some c;
  rep_fd fd c : t !! fd = Some c → 2 ≤ fd < 2 ^ 31 ∧ fd_of c = fd;
  rep_active : active_clients_ m = Z.of_nat (size t) }.

Lemma represents_new : represents new_ClientManager ∅.
Proof. split; [intros [|] ? | intros ?? | ]; by rewrite ?lookup_empty. Qed.

Lemma index_small fd : 2 ≤ fd < 2 ^ 31 → ConnectionToIndex fd = fd - 1.
Proof. intros. unfold ConnectionToIndex. by rewrite (u64_small fd), u64_small by lia. Qed.

(** Fewer clients than descriptors: the counter does not wrap. *)
Lemma represents_size m t : represents m t → Z.of_nat (size t) < 2 ^ 31.
Proof.
  intros [_ Hfd _]. rewrite <- (size_dom (D := gset Z)).
  assert (dom t ⊆ (list_to_set (seqZ 2 (2 ^ 31 - 2)) : gset Z)) as Hle%subseteq_size.
  { intros fd [c Hc]%elem_of_dom. apply elem_of_list_to_set, elem_of_seqZ.
    apply Hfd in Hc as [? _]. lia. }
  rewrite size_list_to_set, length_seqZ in Hle by apply NoDup_seqZ. lia.
Qed.

Lemma vec_set_spec {B} (v : list B) (i : Z) (b : B) :
  0 ≤ i < Z.of_nat (length v) → vec_set v i b = Ok (<[Z.to_nat i := b]> v).
Proof. intros. rewrite <- (Z2Nat.id i) at 1 by lia. apply vec_set_nat. lia. Qed.

(** Growing keeps every slot and adds null ones. *)
Lemma resize_clients_grow v n :
  Z.of_nat (length v) ≤ n ≤ vector_max_size →
  resize_clients n v = Ok (v ++ replicate (Z.to_nat n - length v) None).
Proof.
  intros [Hn Hm]. unfold resize_clients. rewrite Zltb_f by lia.
  by rewrite take_ge by lia.
Qed.

Lemma lookup_pad v k i c : (v ++ replicate k None) !! i = Some (Some c) ↔ v !! i = Some (Some c).
Proof.
  rewrite lookup_app. destruct (v !! i) eqn:E; [done|].
  rewrite lookup_replicate. naive_solver.
Qed.

Lemma slot_of m t fd :
  represents m t → 2 ≤ fd < 2 ^ 31 → (Z.to_nat (fd - 1) < length (clients_ m))%nat →
  clients_ m !! Z.to_nat (fd - 1) = Some (t !! fd).
Proof.
  intros [Hs _ _] Hfd Hlt. destruct (lookup_lt_is_Some_2 _ _ Hlt) as [[c|] Hc]; rewrite Hc.
  - apply Hs in Hc. rewrite <- Hc. do 2 f_equal. lia.
  - destruct (t !! fd) as [c|] eqn:E; [|done].
    replace fd with (Z.of_nat (Z.to_nat (fd - 1)) + 1) in E by lia. apply Hs in E. congruence.
Qed.

(** Storing in the slot of [fd] is updating the table at [fd]. *)
Lemma represents_update m t fd (x : option A) a :
  represents m t → 2 ≤ fd < 2 ^ 31 → (Z.to_nat (fd - 1) < length (clients_ m))%nat →
  (∀ c, x = Some c → fd_of c = fd) →
  a = Z.of_nat (size (partial_alter (λ _, x) fd t)) →
  represents (mkManager (<[Z.to_nat (fd - 1) := x]> (clients_ m)) a)
    (partial_alter (λ _, x) fd t).
Proof.
  intros [Hs Hfd _] Hr Hlt Hx ->. split; [intros i c|intros fd' c|done]; simpl.
  - destruct (decide (i = Z.to_nat (fd - 1))) as [->|Hne].
    + rewrite list_lookup_insert_eq by done.
      replace (Z.of_nat (Z.to_nat (fd - 1)) + 1) with fd by lia.
      rewrite lookup_partial_alter_eq. naive_solver.
    + rewrite list_lookup_insert_ne by done. rewrite Hs. by rewrite lookup_partial_alter_ne by lia.
  - destruct (decide (fd' = fd)) as [->|Hne].
    + rewrite lookup_partial_alter_eq. eauto.
    + rewrite lookup_partial_alter_ne by done. apply Hfd.
Qed.

Lemma install_blank m index c :
  0 ≤ index → clients_ m !! Z.to_nat index = Some None →
  install index c m
  = Ok (mkManager (<[Z.to_nat index := Some c]> (clients_ m)) (u64 (active_clients_ m + 1))).
Proof.
  intros Hi Hl. pose proof (lookup_lt_Some _ _ _ Hl).
  assert (assert_free index (clients_ m) = Ok tt) as Ha.
  { unfold assert_free. destruct ndebug; [done|].
    rewrite (vec_get_Ok _ _ None) by done. by apply cassert_true. }
  unfold install. step Ha. by step (vec_set_spec (clients_ m) index (Some c) ltac:(lia)).
Qed.

Lemma install_represents m t fd c :
  represents m t → 2 ≤ fd < 2 ^ 31 → (Z.to_nat (fd - 1) < length (clients_ m))%nat →
  t !! fd = None → fd_of c = fd →
  ∃ m', install (fd - 1) c m = Ok m' ∧ represents m' (<[fd:=c]> t) ∧
        length (clients_ m') = length (clients_ m).
Proof.
  intros Hrep Hr Hlt Hnone Hc. pose proof (represents_size _ _ Hrep).
  rewrite install_blank by (lia || by rewrite (slot_of m t), Hnone).
  eexists; split_and!; [done| |by simpl; rewrite length_insert].
  apply (represents_update m t fd (Some c)); [done..|naive_solver|].
  change (partial_alter (λ _, Some c) fd t) with (<[fd:=c]> t).
  rewrite map_size_insert_None, (rep_active _ _ Hrep) by done. rewrite u64_small; lia.
Qed.

Lemma represents_pad m t k :
  represents m t → represents (mkManager (clients_ m ++ replicate k None) (active_clients_ m)) t.
Proof. intros [Hs Hf Ha]. split; simpl; [|done..]. intros i c. by rewrite lookup_pad. Qed.

Lemma AddClient_represents m t fd c :
  represents m t → op_ok (TAdd fd c) t →
  ∃ m', AddClient fd c m = Ok m' ∧ represents m' (<[fd:=c]> t).
Proof.
  intros Hrep (Hr & Hn & Hc). unfold AddClient. rewrite (index_small fd) by done.
  destruct (Z.leb_spec (Z.of_nat (length (clients_ m))) (fd - 1)) as [Hle|Hlt]; cbn beta iota.
  - rewrite u64_small by lia.
    step (resize_clients_grow (clients_ m) (2 * (fd - 1))
            ltac:(unfold vector_max_size; lia)).
    match goal with |- context [install _ _ ?m] =>
      destruct (install_represents m t fd c) as (m' & ? & ? & _);
        [by apply represents_pad|done| |done..|eauto] end.
    simpl. rewrite length_app, length_replicate. lia.
  - destruct (install_represents (mkManager (clients_ m) (active_clients_ m)) t fd c)
      as (m' & ? & ? & _); [by destruct m|done|simpl; lia|done..|eauto].
Qed.

Lemma RemoveClient_represents m t fd :
  represents m t → is_Some (t !! fd) →
  ∃ m', RemoveClient fd m = Ok m' ∧ represents m' (delete fd t).
Proof.
  intros Hrep [c Hc]. destruct (rep_fd _ _ Hrep _ _ Hc) as [Hr Hfd].
  pose proof (represents_size _ _ Hrep).
  assert (clients_ m !! Z.to_nat (fd - 1) = Some (Some c)) as Hl.
  { apply (rep_slot _ _ Hrep). by replace (Z.of_nat (Z.to_nat (fd - 1)) + 1) with fd by lia. }
  pose proof (lookup_lt_Some _ _ _ Hl) as Hlt.
  assert (assert_taken (fd - 1) (clients_ m) = Ok tt) as Ha.
  { unfold assert_taken. destruct ndebug; [done|].
    rewrite Zltb_t by lia. rewrite (vec_get_Ok _ _ (Some c)) by (lia || done). by apply cassert_true. }
  unfold RemoveClient. rewrite index_small by done. step Ha.
  step (vec_set_spec (clients_ m) (fd - 1) None ltac:(lia)).
  eexists; split; [done|]. apply (represents_update m t fd None); [done..|].
  change (partial_alter (λ _, None) fd t) with (delete fd t).
  assert (size t ≠ 0)%nat by (intros ->%map_size_empty_inv; by rewrite lookup_empty in Hc).
  rewrite map_size_delete_Some, (rep_active _ _ Hrep) by eauto. rewrite u64_small; lia.
Qed.

Lemma table_step_represents o m t :
  represents m t → op_ok o t →
  ∃ m', table_step o m = Ok m' ∧ represents m' (atable_step o t).
Proof.
  destruct o; intros; [by apply AddClient_represents | by apply RemoveClient_represents].
Qed.

Lemma table_run_represents os m t :
  represents m t → ops_ok os t →
  ∃ m', table_run os m = Ok m' ∧ represents m' (atable_run os t).
Proof.
  revert m t. induction os as [|o os IH]; intros m t Hrep; simpl; [eauto|intros [Ho Hos]].
  destruct (table_step_represents o m t) as (m' & Hm & Hrep'); [done..|]. step Hm.
  by apply IH.
Qed.

(** The loop has closed the first [k] slots and has [l] to go. *)
Lemma close_clients_empties l k m t :
  represents m t →
  (∀ i c, l !! i = Some (Some c) ↔ t !! (Z.of_nat (k + i) + 1) = Some c) →
  (∀ fd c, t !! fd = Some c → Z.of_nat k < fd) →
  ∃ m', close_clients l m = Ok m' ∧ represents m' ∅.
Proof.
  revert k m t. induction l as [|[c|] l IH]; intros k m t Hrep Hl Hk; simpl.
  - exists m. split; [done|]. replace ∅ with t; [done|]. apply map_empty. intros fd.
    destruct (t !! fd) as [c|] eqn:E; [|done]. exfalso. pose proof (Hk _ _ E).
    assert ([] !! (Z.to_nat fd - 1 - k)%nat = Some (Some c)); [|done]. apply Hl.
    by replace (Z.of_nat (k + (Z.to_nat fd - 1 - k)) + 1) with fd by lia.
  - assert (t !! (Z.of_nat k + 1) = Some c) as Hc
      by (rewrite <- (Nat.add_0_r k); by apply (Hl 0%nat)).
    destruct (rep_fd _ _ Hrep _ _ Hc) as [_ Hfd].
    destruct (RemoveClient_represents m t (fd_of c)) as (m' & Hm & Hrep');
      [done|by rewrite Hfd|]. step Hm.
    rewrite Hfd in Hrep'. apply (IH (S k) m' _ Hrep').
    + intros i d. replace (S k + i)%nat with (k + S i)%nat by lia.
      rewrite lookup_delete_ne by lia. apply (Hl (S i)).
    + intros fd d [Hne Hd]%lookup_delete_Some. pose proof (Hk _ _ Hd). lia.
  - apply (IH (S k) m t Hrep).
    + intros i d. replace (S k + i)%nat with (k + S i)%nat by lia. apply (Hl (S i)).
    + intros fd d Hd. pose proof (Hk _ _ Hd). destruct (decide (fd = Z.of_nat k + 1)) as [->|];
        [|lia]. rewrite <- (Nat.add_0_r k) in Hd. by apply (Hl 0%nat) in Hd.
Qed.

Lemma CloseAll_spec m t : represents m t → ∃ m', CloseAll m = Ok m' ∧ represents m' ∅.
Proof.
  intros Hrep. destruct (close_clients_empties (clients_ m) 0 m t) as (m' & Hm & Hrep'); [done|..].
  - apply (rep_slot _ _ Hrep).
  - intros fd c Hc. pose proof (rep_fd _ _ Hrep _ _ Hc). lia.
  - exists m'. split; [|done]. unfold CloseAll. step Hm.
    assert (ActiveClients m' = 0) as ->
      by (unfold ActiveClients; by rewrite (rep_active _ _ Hrep'), map_size_empty).
    by rewrite cassert_true.
Qed.

(** C16: The table of clients is a finite map from file descriptors to clients:
    from the empty table, any sequence of [AddClient] and [RemoveClient] calls
    that adds descriptors not in use, above 1, and removes those in use runs
    without a fault (no assertion, no index outside the vector, no exception),
    ends in the map updated accordingly, counts its clients exactly, and
    [Server::Shutdown] then removes every one of them and leaves the count 0. *)
Theorem client_table_refines_map (os : list table_op) :
  ops_ok os ∅ →
  ∃ m m', table_run os new_ClientManager = Ok m ∧
    (∀ i c, clients_ m !! i = Some (Some c) ↔ atable_run os ∅ !! (Z.of_nat i + 1) = Some c) ∧
    ActiveClients m = Z.of_nat (size (atable_run os ∅)) ∧
    CloseAll m = Ok m' ∧ (∀ i c, clients_ m' !! i ≠ Some (Some c)) ∧ ActiveClients m' = 0.
Proof.
  intros Hos. destruct (table_run_represents os _ _ represents_new Hos) as (m & Hm & Hrep).
  destruct (CloseAll_spec m _ Hrep) as (m' & Hm' & Hrep'). exists m, m'. split_and!; [done| | |done| |].
  - apply (rep_slot _ _ Hrep).
  - apply (rep_active _ _ Hrep).
  - intros i c Hc%(rep_slot _ _ Hrep'). by rewrite lookup_empty in Hc.
  - unfold ActiveClients. by rewrite (rep_active _ _ Hrep'), map_size_empty.
Qed.

(** Executed by one thread, the steps of [AddClient] are the sequential
    function: three steps suffice, with the same outcome, a fault included. *)
Theorem add_alone_is_sequential fd c m :
  add_run [0; 0; 0]%nat [AddTest fd c] m = (m ← AddClient fd c m; Ok ([AddReturned], m)).
Proof.
  destruct m as [v n]. unfold AddClient. simpl.
  destruct (Z.of_nat (length v) <=? ConnectionToIndex fd); simpl.
  - destruct (resize_clients _ v) as [v'| |]; simpl; [|done..]. by destruct (install _ _ _).
  - by destruct (install _ _ _).
Qed.

(** C39: Two executors adding clients at once can lose one: if both see a vector
    too short for their descriptors and the one with the larger descriptor
    grows the vector and installs its client first, the other's resize to twice
    its own index shrinks the vector again when that is at most the first's
    index; the first client is then in no slot while it is counted, and its
    removal is an access outside the vector (a failed assertion in a debug
    build). *)
Theorem concurrent_add_loses_client fd1 fd2 (c1 c2 : A) :
  2 < fd1 → 2 * (fd1 - 1) ≤ fd2 - 1 → fd2 < 2 ^ 31 →
  ∃ m, add_run [0; 1; 1; 1; 0; 0]%nat [AddTest fd1 c1; AddTest fd2 c2] new_ClientManager
         = Ok ([AddReturned; AddReturned], m) ∧
       ActiveClients m = 2 ∧ clients_ m !! Z.to_nat (fd2 - 1) = None ∧
       RemoveClient fd2 m = Fault (if ndebug then OutOfRange else AssertFailed).
Proof.
  intros H1 H12 H2. unfold new_ClientManager.
  assert (∀ fd, 2 < fd < 2 ^ 31 → (0 <=? ConnectionToIndex fd) = true) as Hge.
  { intros. rewrite index_small by lia. apply Zleb_t. lia. }
  assert (∀ fd v, 2 < fd < 2 ^ 31 → resize_clients (u64 (2 * ConnectionToIndex fd)) v =
    Ok (take (Z.to_nat (2 * (fd - 1))) v
        ++ replicate (Z.to_nat (2 * (fd - 1)) - length v) None)) as Hres.
  { intros. unfold resize_clients. rewrite index_small, u64_small by lia.
    by rewrite Zltb_f by (unfold vector_max_size; lia). }
  simpl. rewrite !Hge by lia. simpl. rewrite Hres by lia. simpl.
  rewrite (index_small fd2), install_blank by
    (lia || (simpl; rewrite take_nil; apply lookup_replicate; split; [done|simpl; lia])).
  simpl. rewrite Hres by lia. simpl. rewrite (index_small fd1) by lia.
  rewrite take_nil, app_nil_l, length_insert, length_replicate.
  rewrite take_insert_ge, take_replicate by lia.
  rewrite <- replicate_add. replace (_ + _)%nat with (Z.to_nat (2 * (fd1 - 1))) by lia.
  rewrite install_blank by (lia || (simpl; apply lookup_replicate; split; [done|lia])).
  eexists; split_and!; [done|done| |]; simpl.
  - apply lookup_ge_None. rewrite length_insert, length_replicate. lia.
  - unfold RemoveClient, assert_taken, cassert, vec_set. simpl. rewrite index_small by lia.
    rewrite length_insert, length_replicate.
    rewrite (Zltb_f (fd2 - 1)) by lia. rewrite andb_false_r. by destruct ndebug.
Qed.
End manager.

(** ** Witnesses *)

Definition sample_ops : list (@table_op Z) :=
  [TAdd 7 7; TAdd 9 9; TRemove 7; TAdd 30 30; TAdd 7 7].

Lemma client_table_refines_map_witness :
  ∃ m m', @table_run false _ sample_ops new_ClientManager = Ok m ∧
    (∀ i c, clients_ m !! i = Some (Some c)
            ↔ atable_run sample_ops ∅ !! (Z.of_nat i + 1) = Some c) ∧
    ActiveClients m = Z.of_nat (size (atable_run sample_ops ∅)) ∧
    @CloseAll false _ id m = Ok m' ∧ (∀ i c, clients_ m' !! i ≠ Some (Some c)) ∧
    ActiveClients m' = 0.
Proof.
  apply (@client_table_refines_map false Z id). cbn [ops_ok sample_ops op_ok].
  split_and!; first [lia | vm_compute; reflexivity | vm_compute; by eexists | done].
Defined.

Lemma concurrent_add_loses_client_witness :
  ∃ m, @add_run false Z [0; 1; 1; 1; 0; 0]%nat [AddTest 5 50; AddTest 9 90] new_ClientManager
         = Ok ([AddReturned; AddReturned], m) ∧
       ActiveClients m = 2 ∧ clients_ m !! Z.to_nat (9 - 1) = None ∧
       @RemoveClient false Z 9 m = Fault AssertFailed.
Proof. apply (@concurrent_add_loses_client false Z 5 9 50 90); lia. Defined.
