(* ===== verification/HashTable.v ===== *)
(** * The incrementally rehashed chained hash table

    Model of [HashTableKey], [HashTableEntry] and [HashTable]
    (src/src/data_structure/hash_table.h), at the level of pointers: entries
    live in a heap indexed by locations, a bucket is the head pointer of a
    chain linked through [next], [Destroy] removes the entry from the heap and
    any later access to it is the fault [UseAfterFree].  Both instances of the
    template in the program ([MTSHashTable] and [ExpireHashTable]) are this
    model at two value types.  The theorems are in HashTableSpec. *)

From S2P Require Import Prelude Bits.

(** ** Data *)

Abbreviation loc := positive.

(** [std::shared_ptr<HashTableKey>]: the identity of the key object and its
    [data_], which is [const].  A key object is created by exactly one entry,
    so the table that owns the entry and the entry's location identify it.
    The mutable [lru_] of the object is kept by its users, indexed by this
    identity (module Service). *)
Record KeyPtr := mkKeyPtr { k_owner : nat; k_id : loc; k_data : bytes }.

#[global] Instance KeyPtr_eq_dec : EqDecision KeyPtr.
Proof. solve_decision. Defined.

Definition key_same_object (a b : KeyPtr) : bool :=
  bool_decide (k_owner a = k_owner b ∧ k_id a = k_id b).

(** [HashTableKey::Equals]. *)
Definition KeyEquals (k : KeyPtr) (rhs : bytes) : bool := bool_decide (k_data k = rhs).

(** [HashTableEntry]. *)
Record Entry (V : Type) := mkEntry {
  e_key : option KeyPtr;
  e_value : V;
  e_next : option loc }.
Arguments mkEntry {V} _ _ _.
Arguments e_key {V} _.
Arguments e_value {V} _.
Arguments e_next {V} _.

(** [HashTable]: the two bucket vectors, the entry count and the rehash
    cursor.  [ht_id] names the table object and [next_loc] is the allocator's
    next unused address. *)
Record HashTable (V : Type) := mkHT {
  ht_id : nat;
  heap : gmap loc (Entry V);
  next_loc : loc;
  buckets0 : list (option loc);
  buckets1 : list (option loc);
  entries_ : Z;
  rehash_index_ : Z }.
Arguments mkHT {V} _ _ _ _ _ _ _.
Arguments ht_id {V} _.
Arguments heap {V} _.
Arguments next_loc {V} _.
Arguments buckets0 {V} _.
Arguments buckets1 {V} _.
Arguments entries_ {V} _.
Arguments rehash_index_ {V} _.

Definition new_table {V} (id : nat) : HashTable V := mkHT id ∅ 1%positive [] [] 0 (-1).

(** A bucket iterator: which of [buckets_\[0\]] and [buckets_\[1\]], and the
    offset from [begin()]. *)
Inductive which := B0 | B1.
Abbreviation iter := (which * Z)%type.

(** [EntryPointer* prev_next]: a bucket slot or the [next] field of an entry. *)
Inductive slot := SlotBucket (it : iter) | SlotNext (l : loc).

Inductive ExpandResult := kNoExpand | kRehashing | kExpandDone.

#[global] Instance which_eq_dec : EqDecision which.
Proof. solve_decision. Defined.
#[global] Instance ExpandResult_eq_dec : EqDecision ExpandResult.
Proof. solve_decision. Defined.

(** [XXH64] of the xxhash library with seed 0. *)
Class HashFn := XXH64 : bytes → Z.

Definition Hash `{HashFn} (key : bytes) : Z := u64 (XXH64 key).

(** ** Field updates *)

Section fields.
Context {V : Type}.
Implicit Types t : HashTable V.

Definition set_heap (h : gmap loc (Entry V)) t : HashTable V :=
  mkHT (ht_id t) h (next_loc t) (buckets0 t) (buckets1 t) (entries_ t) (rehash_index_ t).
Definition set_buckets0 (b : list (option loc)) t : HashTable V :=
  mkHT (ht_id t) (heap t) (next_loc t) b (buckets1 t) (entries_ t) (rehash_index_ t).
Definition set_buckets1 (b : list (option loc)) t : HashTable V :=
  mkHT (ht_id t) (heap t) (next_loc t) (buckets0 t) b (entries_ t) (rehash_index_ t).
Definition set_entries (n : Z) t : HashTable V :=
  mkHT (ht_id t) (heap t) (next_loc t) (buckets0 t) (buckets1 t) n (rehash_index_ t).
Definition set_rehash_index (i : Z) t : HashTable V :=
  mkHT (ht_id t) (heap t) (next_loc t) (buckets0 t) (buckets1 t) (entries_ t) i.

Definition size0 t : Z := Z.of_nat (length (buckets0 t)).
Definition size1 t : Z := Z.of_nat (length (buckets1 t)).

(** [*it] and [*it = p]. *)
Definition bucket_get (it : iter) t : Outcome (option loc) :=
  match it.1 with
  | B0 => vec_get (buckets0 t) it.2
  | B1 => vec_get (buckets1 t) it.2
  end.
Definition bucket_set (it : iter) (p : option loc) t : Outcome (HashTable V) :=
  match it.1 with
  | B0 => b ← vec_set (buckets0 t) it.2 p; Ok (set_buckets0 b t)
  | B1 => b ← vec_set (buckets1 t) it.2 p; Ok (set_buckets1 b t)
  end.

(** Access through an [EntryPointer]. *)
Definition entry_get (l : loc) t : Outcome (Entry V) :=
  match heap t !! l with Some e => Ok e | None => Fault UseAfterFree end.
Definition entry_put (l : loc) (e : Entry V) t : Outcome (HashTable V) :=
  match heap t !! l with
  | Some _ => Ok (set_heap (<[l := e]> (heap t)) t)
  | None => Fault UseAfterFree
  end.

(** [entry->GetKey()], dereferenced by every caller. *)
Definition GetKey (e : Entry V) : Outcome KeyPtr := deref (e_key e).

Definition with_next (p : option loc) (e : Entry V) : Entry V :=
  mkEntry (e_key e) (e_value e) p.
Definition with_value (v : V) (e : Entry V) : Entry V :=
  mkEntry (e_key e) v (e_next e).
Definition with_key (k : KeyPtr) (e : Entry V) : Entry V :=
  mkEntry (Some k) (e_value e) (e_next e).

(** [entry->value = v], [entry->key = k] and reads of the two fields. *)
Definition set_value (l : loc) (v : V) t : Outcome (HashTable V) :=
  e ← entry_get l t; entry_put l (with_value v e) t.
Definition set_key (l : loc) (k : KeyPtr) t : Outcome (HashTable V) :=
  e ← entry_get l t; entry_put l (with_key k e) t.
Definition get_value (l : loc) t : Outcome V :=
  e ← entry_get l t; Ok (e_value e).
(** [entry->CopyKey()]: a copy of the (non-null) shared pointer. *)
Definition CopyKey (l : loc) t : Outcome KeyPtr :=
  e ← entry_get l t; GetKey e.

Definition slot_set (s : slot) (p : option loc) t : Outcome (HashTable V) :=
  match s with
  | SlotBucket it => bucket_set it p t
  | SlotNext l => e ← entry_get l t; entry_put l (with_next p e) t
  end.

(** [EntryType::Destroy]. *)
Definition Destroy (l : loc) t : Outcome (HashTable V) :=
  _ ← entry_get l t; Ok (set_heap (delete l (heap t)) t).

Definition IsRehashing t : bool := 0 <=? rehash_index_ t.
Definition Count t : Z := entries_ t.
Definition BucketCount t : Z := size0 t.
End fields.

(** ** Operations *)

Section operations.
Context {V : Type} `{!Inhabited V} `{!BuildMode} `{!HashFn}.
Implicit Types t : HashTable V.

(** [EntryType::Create]: a new entry, default-initialised; with
    [create_shared_key] it gets a new key object ([SetKey]). *)
Definition Create (key : option bytes) t : loc * HashTable V :=
  let l := next_loc t in
  let e := mkEntry ((λ k, mkKeyPtr (ht_id t) l k) <$> key) inhabitant None in
  (l, mkHT (ht_id t) (<[l := e]> (heap t)) (Pos.succ l) (buckets0 t) (buckets1 t)
        (entries_ t) (rehash_index_ t)).

Definition CreateEntryInBucket (bucket : iter) (key : bytes) (create_shared_key : bool) t
    : Outcome (loc * HashTable V) :=
  let '(l, t) := Create (if create_shared_key then Some key else None) t in
  head ← bucket_get bucket t;
  e ← entry_get l t;
  t ← entry_put l (with_next head e) t;
  t ← bucket_set bucket (Some l) t;
  Ok (l, t).

(** The [while (entry)] loop of [RehashBucket]. *)
Fixpoint rehash_chain (fuel : nat) (entry : option loc) (num : Z) t
    : Outcome (Z * HashTable V) :=
  match entry with
  | None => Ok (num, t)
  | Some l =>
      match fuel with
      | O => Diverge
      | S fuel =>
          e ← entry_get l t;
          k ← GetKey e;
          idx ← umod (Hash (k_data k)) (size1 t);
          let target := (B1, i32 idx) in
          head ← bucket_get target t;
          t ← entry_put l (with_next head e) t;
          t ← bucket_set target (Some l) t;
          rehash_chain fuel (e_next e) (u64 (num + 1)) t
      end
  end.

Definition RehashBucket (bucket : iter) t : Outcome (Z * HashTable V) :=
  head ← bucket_get bucket t;
  match head with
  | None => Ok (0, t)
  | Some _ =>
      '(num, t) ← rehash_chain (size (heap t)) head 0 t;
      t ← bucket_set bucket None t;
      Ok (num, t)
  end.

(** The [while (true)] loop of [RehashSome]; each turn advances
    [rehash_index_], so the size of [buckets_\[0\]] bounds the turns. *)
Fixpoint rehash_loop (fuel : nat) (buckets_to_rehash empty_allowed : Z) t
    : Outcome (bool * HashTable V) :=
  match fuel with
  | O => Diverge
  | S fuel =>
      '(moved, t) ← RehashBucket (B0, rehash_index_ t) t;
      let t := set_rehash_index (i32 (rehash_index_ t + 1)) t in
      if rehash_index_ t =? i32 (size0 t) then
        let t := set_rehash_index (-1) t in
        Ok (true, set_buckets1 [] (set_buckets0 (buckets1 t) t))
      else if moved =? 0 then
        let empty_allowed := u64 (empty_allowed - 1) in
        if empty_allowed =? 0 then Ok (false, t)
        else rehash_loop fuel buckets_to_rehash empty_allowed t
      else
        let buckets_to_rehash := u64 (buckets_to_rehash - 1) in
        if buckets_to_rehash =? 0 then Ok (false, t)
        else rehash_loop fuel buckets_to_rehash empty_allowed t
  end.

Definition RehashSome (buckets_to_rehash : Z) t : Outcome (bool * HashTable V) :=
  _ ← cassert (IsRehashing t);
  _ ← cassert (negb (rehash_index_ t =? i32 (size0 t)));
  _ ← cassert (negb (buckets_to_rehash =? 0));
  rehash_loop (length (buckets0 t)) buckets_to_rehash (u64 (buckets_to_rehash * 10)) t.

Definition FindBucket (key : bytes) t : Outcome (iter * HashTable V) :=
  t ← (if IsRehashing t then '(_, t) ← RehashSome 1 t; Ok t else Ok t);
  let hash := Hash key in
  idx ← umod hash (size0 t);
  let index := i32 idx in
  if rehash_index_ t <=? index then Ok ((B0, index), t)
  else
    _ ← cassert (index <? i32 (size1 t));
    idx1 ← umod hash (size1 t);
    Ok ((B1, i32 idx1), t).

(** The [while] loop of [FindEntryInBucket]. *)
Fixpoint find_in_chain (fuel : nat) (l : loc) (key : bytes) t : Outcome (option loc) :=
  match fuel with
  | O => Diverge
  | S fuel =>
      e ← entry_get l t;
      k ← GetKey e;
      if KeyEquals k key then Ok (Some l)
      else match e_next e with
           | None => Ok None
           | Some next => find_in_chain fuel next key t
           end
  end.

Definition FindEntryInBucket (bucket : iter) (key : bytes) t : Outcome (option loc) :=
  head ← bucket_get bucket t;
  match head with
  | None => Ok None
  | Some l => find_in_chain (size (heap t)) l key t
  end.

(** The [while] loop of [EraseEntryInBucket]: the slot that points to the
    entry to unlink, and the entry. *)
Fixpoint erase_search (fuel : nat) (prev_next : slot) (l : loc) (key : bytes) t
    : Outcome (option (slot * loc)) :=
  match fuel with
  | O => Diverge
  | S fuel =>
      e ← entry_get l t;
      k ← GetKey e;
      if KeyEquals k key then Ok (Some (prev_next, l))
      else match e_next e with
           | None => Ok None
           | Some next => erase_search fuel (SlotNext l) next key t
           end
  end.

Definition EraseEntryInBucket (bucket : iter) (key : bytes) t : Outcome (bool * HashTable V) :=
  head ← bucket_get bucket t;
  match head with
  | None => Ok (false, t)
  | Some l =>
      found ← erase_search (size (heap t)) (SlotBucket bucket) l key t;
      match found with
      | None => Ok (false, t)
      | Some (prev_next, l) =>
          e ← entry_get l t;
          t ← slot_set prev_next (e_next e) t;
          t ← Destroy l t;
          Ok (true, t)
      end
  end.

Definition NeedsToExpand t : bool * HashTable V :=
  if bool_decide (buckets0 t = []) then (false, set_buckets0 (replicate 4 None) t)
  else (size0 t <=? entries_ t, t).

Definition StartRehashing t : Outcome (HashTable V) :=
  _ ← cassert (negb (IsRehashing t));
  _ ← cassert (negb (bool_decide (buckets1 t = [])));
  '(_, t) ← RehashSome 1 (set_rehash_index 0 t);
  Ok t.

Definition Expand t : Outcome (ExpandResult * HashTable V) :=
  if IsRehashing t then Ok (kRehashing, t)
  else
    let '(needed, t) := NeedsToExpand t in
    if negb needed then Ok (kNoExpand, t)
    else
      _ ← cassert (bool_decide (buckets1 t = []));
      t ← StartRehashing
            (set_buckets1 (take (2 * length (buckets0 t))
                             (buckets1 t ++ replicate (2 * length (buckets0 t)) None)) t);
      Ok (if IsRehashing t then kRehashing else kExpandDone, t).

Definition FindOrCreate (key : bytes) (create_on_missing create_shared_key : bool) t
    : Outcome ((option loc * bool) * HashTable V) :=
  if bool_decide (buckets0 t = []) && negb create_on_missing then Ok ((None, false), t)
  else
    t ← (if bool_decide (buckets0 t = []) then '(_, t) ← Expand t; Ok t else Ok t);
    '(bucket, t) ← FindBucket key t;
    entry ← FindEntryInBucket bucket key t;
    match entry with
    | Some l => Ok ((Some l, true), t)
    | None =>
        if create_on_missing then
          '(res, t) ← Expand t;
          '(bucket, t) ← (if bool_decide (res = kNoExpand) then Ok (bucket, t)
                          else FindBucket key t);
          '(l, t) ← CreateEntryInBucket bucket key create_shared_key t;
          Ok ((Some l, false), set_entries (u64 (entries_ t + 1)) t)
        else Ok ((None, false), t)
    end.

Definition Insert (key : bytes) (value : V) t : Outcome ((option loc * bool) * HashTable V) :=
  '((entry, exists_), t) ← FindOrCreate key true true t;
  t ← (if (exists_ : bool) then Ok t else l ← deref entry; set_value l value t);
  Ok ((entry, negb exists_), t).

Definition Upsert (key : bytes) (value : V) t : Outcome ((option loc * bool) * HashTable V) :=
  '((entry, exists_), t) ← FindOrCreate key true true t;
  l ← deref entry;
  t ← set_value l value t;
  Ok ((entry, exists_), t).

(** The overload of [Upsert] that takes an existing key object. *)
Definition UpsertKeyPtr (key_ptr : KeyPtr) (value : V) t
    : Outcome ((option loc * bool) * HashTable V) :=
  '((entry, exists_), t) ← FindOrCreate (k_data key_ptr) true false t;
  l ← deref entry;
  t ← (if (exists_ : bool) then
         e ← entry_get l t;
         _ ← cassert (bool_decide (key_same_object key_ptr <$> e_key e = Some true));
         Ok t
       else set_key l key_ptr t);
  t ← set_value l value t;
  Ok ((entry, exists_), t).

Definition Find (key : bytes) t : Outcome (option loc * HashTable V) :=
  '((entry, _), t) ← FindOrCreate key false true t;
  Ok (entry, t).

Definition Erase (key : bytes) t : Outcome (bool * HashTable V) :=
  if bool_decide (buckets0 t = []) then Ok (false, t)
  else
    '(bucket, t) ← FindBucket key t;
    '(erased, t) ← EraseEntryInBucket bucket key t;
    Ok (erased, if (erased : bool) then set_entries (u64 (entries_ t - 1)) t else t).

(** [std::rand] as a sequence of draws: each call consumes the head. *)
Definition draw (rands : list Z) : Outcome (Z * list Z) :=
  match rands with [] => Diverge | r :: rands => Ok (r, rands) end.

(** The two loops of [GetRandomEntryInBucket]: the length of the chain from
    [l], and the entry [n] links after [l]. *)
Fixpoint chain_length (fuel : nat) (l : loc) t : Outcome Z :=
  match fuel with
  | O => Diverge
  | S fuel =>
      e ← entry_get l t;
      match e_next e with
      | None => Ok 1
      | Some next => n ← chain_length fuel next t; Ok (u64 (n + 1))
      end
  end.

Fixpoint chain_nth (n : nat) (l : loc) t : Outcome loc :=
  match n with
  | O => Ok l
  | S n => e ← entry_get l t; next ← deref (e_next e); chain_nth n next t
  end.

Definition GetRandomEntryInBucket (bucket : loc) (rands : list Z) t
    : Outcome (loc * list Z) :=
  bucket_length ← chain_length (size (heap t)) bucket t;
  '(r, rands) ← draw rands;
  target ← umod (u64 r) bucket_length;
  l ← chain_nth (Z.to_nat target) bucket t;
  Ok (l, rands).

(** The [while (bucket == nullptr)] loop: one draw per turn, so it is
    structural on the draws. *)
Fixpoint random_bucket (rands : list Z) t : Outcome (loc * list Z) :=
  match rands with
  | [] => Diverge
  | r :: rands =>
      let rand := u64 r in
      bucket_index ← umod rand (size0 t);
      bucket ← (if rehash_index_ t <=? i32 bucket_index then bucket_get (B0, bucket_index) t
                else
                  _ ← cassert (IsRehashing t);
                  idx ← umod rand (size1 t);
                  bucket_get (B1, idx) t);
      match bucket with
      | Some l => Ok (l, rands)
      | None => random_bucket rands t
      end
  end.

Definition GetRandomEntry (rands : list Z) t : Outcome (option loc * list Z) :=
  if bool_decide (buckets0 t = []) then Ok (None, rands)
  else
    '(bucket, rands) ← random_bucket rands t;
    '(l, rands) ← GetRandomEntryInBucket bucket rands t;
    Ok (Some l, rands).

(** [Clear]: destroys the entries of every chain. *)
Fixpoint clear_chain (fuel : nat) (entry : option loc) t : Outcome (HashTable V) :=
  match entry with
  | None => Ok t
  | Some l =>
      match fuel with
      | O => Diverge
      | S fuel => e ← entry_get l t; t ← Destroy l t; clear_chain fuel (e_next e) t
      end
  end.

Fixpoint clear_buckets (bs : list (option loc)) t : Outcome (HashTable V) :=
  match bs with
  | [] => Ok t
  | b :: bs => t ← clear_chain (size (heap t)) b t; clear_buckets bs t
  end.

Definition Clear t : Outcome (HashTable V) :=
  t ← clear_buckets (buckets0 t ++ buckets1 t) t;
  Ok (set_rehash_index (-1) t).

(** [TraverseBucket]: [func] may change the table it walks (and more), so the
    walk runs in a world [W] from which the table is read again at each
    step. *)
Section traverse.
Context {W : Type} (table : W → HashTable V) (func : loc → W → Outcome W).

Fixpoint traverse_chain (fuel : nat) (entry : option loc) (w : W) : Outcome W :=
  match entry with
  | None => Ok w
  | Some l =>
      match fuel with
      | O => Diverge
      | S fuel =>
          w ← func l w;
          e ← entry_get l (table w);
          traverse_chain fuel (e_next e) w
      end
  end.

Definition TraverseBucket (bucket_index : Z) (w : W) : Outcome (Z * W) :=
  if IsRehashing (table w) then Ok (0, w)
  else
    _ ← cassert (bucket_index <? size0 (table w));
    entry ← bucket_get (B0, bucket_index) (table w);
    bucket_index ← NextIndex bucket_index (size0 (table w));
    w ← traverse_chain (S (size (heap (table w)))) entry w;
    Ok (bucket_index, w).
End traverse.
End operations.
