(* ===== verification/HashTableInv.v ===== *)
(** * The invariant of the hash table and incremental rehashing

    Chains of entries, the abstract view [tview] of a table as a finite map,
    the invariant [wf], and the proof that moving buckets between the two
    vectors keeps both: [RehashSome] terminates, preserves [wf] and the
    contents of the table, and always advances the cursor. *)

From S2P Require Import Prelude Bits HashTable.

(** ** Chains *)

Section chains.
Context {V : Type}.
Implicit Types (h : gmap loc (Entry V)) (ls : list loc).

(** The entries reached from [p] through [next] are [ls], in this order. *)
Fixpoint chain h (p : option loc) ls : Prop :=
  match ls with
  | [] => p = None
  | l :: ls => p = Some l ∧ ∃ e, h !! l = Some e ∧ chain h (e_next e) ls
  end.

Lemma chain_frame h h' p ls :
  chain h p ls → (∀ l, l ∈ ls → h' !! l = h !! l) → chain h' p ls.
Proof.
  revert p. induction ls as [|l ls IH]; intros p; simpl; [done|].
  intros (->&e&He&Hc) Hf. split; [done|]. exists e. split.
  - rewrite Hf; [done|]. set_solver.
  - apply IH; [done|]. intros. apply Hf. set_solver.
Qed.

Lemma chain_insert_fresh h p ls l e :
  chain h p ls → l ∉ ls → chain (<[l:=e]> h) p ls.
Proof.
  intros Hc Hl. apply (chain_frame h); [done|]. intros l' Hl'.
  rewrite lookup_insert_ne; [done|]. set_solver.
Qed.

Lemma chain_lookup h p ls l : chain h p ls → l ∈ ls → is_Some (h !! l).
Proof.
  revert p. induction ls as [|l' ls IH]; intros p; simpl; [by intros _ ?%not_elem_of_nil|].
  intros (_&e&He&Hc) [->|Hl]%elem_of_cons; [by eauto|]. by eapply IH.
Qed.

Lemma chains_lookup h b cs i p c :
  Forall2 (chain h) b cs → b !! i = Some p → cs !! i = Some c → chain h p c.
Proof. intros. by eapply Forall2_lookup_lr. Qed.

Lemma chains_frame h h' b cs :
  Forall2 (chain h) b cs → (∀ l, l ∈ concat cs → h' !! l = h !! l) →
  Forall2 (chain h') b cs.
Proof.
  induction 1 as [|p c b cs Hc Hb IH]; intros Hf; constructor.
  - eapply chain_frame; [done|]. intros. apply Hf. simpl. set_solver.
  - apply IH. intros. apply Hf. simpl. set_solver.
Qed.
End chains.

(** ** Contents and abstract view *)

Section view.
Context {V : Type}.
Implicit Types (t : HashTable V) (m : gmap loc (option KeyPtr * V)).

(** The key object and the value of every entry: what is left of the heap
    when the links are forgotten. *)
Definition content (e : Entry V) : option KeyPtr * V := (e_key e, e_value e).
Definition contents t : gmap loc (option KeyPtr * V) := content <$> heap t.

Definition view_of m : gmap bytes (loc * KeyPtr * V) :=
  list_to_map (omap (λ '(l, (ko, v)), (λ kp, (k_data kp, (l, kp, v))) <$> ko) (map_to_list m)).

Definition tview t : gmap bytes (loc * KeyPtr * V) := view_of (contents t).

(** The finite map a table stands for. *)
Definition abs t : gmap bytes V := snd <$> tview t.

(** Every entry has a key object, no two entries have the same key, and the
    addresses in use are below the allocator's. *)
Record keys_ok m (nl : loc) : Prop := {
  ko_some : ∀ l x, m !! l = Some x → is_Some x.1;
  ko_inj : ∀ l1 l2 k1 k2 v1 v2, m !! l1 = Some (Some k1, v1) → m !! l2 = Some (Some k2, v2) →
    k_data k1 = k_data k2 → l1 = l2;
  ko_fresh : ∀ l x, m !! l = Some x → (l < nl)%positive }.

Lemma view_of_lookup m nl k l kp v :
  keys_ok m nl →
  view_of m !! k = Some (l, kp, v) ↔ m !! l = Some (Some kp, v) ∧ k_data kp = k.
Proof.
  intros Hm. unfold view_of. rewrite <- elem_of_list_to_map'.
  - rewrite list_elem_of_omap. split.
    + intros ([l' [ko v']] & Hin & Heq). apply elem_of_map_to_list in Hin.
      destruct ko; simplify_eq/=. done.
    + intros [Hl Hk]. exists (l, (Some kp, v)). rewrite elem_of_map_to_list.
      split; [done|]. simpl. by rewrite Hk.
  - intros [[l' kp'] v']. rewrite !list_elem_of_omap.
    intros ([l1 [k1 v1]] & H1%elem_of_map_to_list & E1) ([l2 [k2 v2]] & H2%elem_of_map_to_list & E2).
    destruct k1, k2; simplify_eq/=.
    assert (l = l') as -> by (eapply ko_inj; [exact Hm|exact H1|exact H2|congruence]).
    by simplify_eq.
Qed.

Lemma view_of_None m nl k :
  keys_ok m nl →
  view_of m !! k = None ↔ ∀ l kp v, m !! l = Some (Some kp, v) → k_data kp ≠ k.
Proof.
  intros Hm. split.
  - intros Hn l kp v Hl Hk. assert (view_of m !! k = Some (l, kp, v)) as Hs
      by (by eapply view_of_lookup). congruence.
  - intros Hall. destruct (view_of m !! k) as [[[l kp] v]|] eqn:E; [|done].
    eapply view_of_lookup in E as [Hl Hk]; [|done]. by destruct (Hall _ _ _ Hl).
Qed.

Lemma contents_lookup t l e : heap t !! l = Some e → contents t !! l = Some (e_key e, e_value e).
Proof. intros He. unfold contents. by rewrite lookup_fmap, He. Qed.

Lemma contents_lookup_key t l e kp :
  heap t !! l = Some e → e_key e = Some kp → contents t !! l = Some (Some kp, e_value e).
Proof. intros He <-. by apply contents_lookup. Qed.

Lemma contents_lookup_inv t l x :
  contents t !! l = Some x → ∃ e, heap t !! l = Some e ∧ x = (e_key e, e_value e).
Proof. unfold contents. rewrite lookup_fmap. destruct (heap t !! l); naive_solver. Qed.

(** Rewriting a link does not change the contents. *)
Lemma content_with_next (h : gmap loc (Entry V)) l e p :
  h !! l = Some e → content <$> <[l := with_next p e]> h = content <$> h.
Proof.
  intros He. rewrite fmap_insert. apply insert_id. by rewrite lookup_fmap, He.
Qed.

(** The views are maps of the same size as the heap. *)
Lemma view_of_insert_new m nl l kp v :
  keys_ok m nl → (nl ≤ l)%positive → view_of m !! k_data kp = None →
  keys_ok (<[l := (Some kp, v)]> m) (Pos.succ l) ∧
  view_of (<[l := (Some kp, v)]> m) = <[k_data kp := (l, kp, v)]> (view_of m).
Proof.
  intros Hm Hnl Hnone. pose proof (proj1 (view_of_None _ _ _ Hm) Hnone) as Hall.
  assert (m !! l = None) as Hl.
  { destruct (m !! l) as [x|] eqn:E; [|done]. pose proof (ko_fresh _ _ Hm _ _ E). lia. }
  assert (keys_ok (<[l := (Some kp, v)]> m) (Pos.succ l)) as Hok.
  { split.
    - intros l' x Hx. destruct (decide (l = l')) as [->|]; simplify_map_eq; [by eauto|].
      by apply (ko_some _ _ Hm) in Hx.
    - intros l1 l2 k1 k2 v1 v2 H1 H2 Hk12.
      destruct (decide (l1 = l)), (decide (l2 = l)); subst; simplify_map_eq.
      + done.
      + exfalso; eapply Hall; [eassumption|congruence].
      + exfalso; eapply Hall; [eassumption|congruence].
      + by eapply (ko_inj _ _ Hm).
    - intros l' x Hx. destruct (decide (l = l')) as [->|]; simplify_map_eq; [lia|].
      pose proof (ko_fresh _ _ Hm _ _ Hx). lia. }
  split; [done|]. apply map_eq. intros k. apply option_eq. intros [[l' kp'] v'].
  rewrite (view_of_lookup _ _ _ _ _ _ Hok).
  destruct (decide (k = k_data kp)) as [->|].
  - rewrite lookup_insert_eq. split.
    + intros [Hl' Hk]. destruct (decide (l' = l)); subst; simplify_map_eq; [done|].
      exfalso; eapply Hall; [eassumption|congruence].
    + intros [= -> -> ->]. by simplify_map_eq.
  - rewrite (lookup_insert_ne (view_of m)) by congruence. rewrite (view_of_lookup _ _ _ _ _ _ Hm).
    destruct (decide (l' = l)); subst; simplify_map_eq; naive_solver.
Qed.

Lemma view_of_insert m nl l kp v :
  keys_ok (<[l := (Some kp, v)]> m) nl → m !! l = None →
  keys_ok m nl ∧ view_of m !! k_data kp = None ∧
  view_of (<[l := (Some kp, v)]> m) = <[k_data kp := (l, kp, v)]> (view_of m).
Proof.
  intros Hm Hl.
  assert (∀ l' x, m !! l' = Some x → <[l := (Some kp, v)]> m !! l' = Some x) as Hsub.
  { intros l' x Hx. rewrite lookup_insert_ne; [done|]. by intros ->; simplify_eq. }
  assert (keys_ok m nl) as Hok.
  { split; intros; [eapply (ko_some _ _ Hm)|eapply (ko_inj _ _ Hm)|eapply (ko_fresh _ _ Hm)]; eauto. }
  assert (view_of m !! k_data kp = None) as Hn.
  { eapply view_of_None; [done|]. intros l' kp' v' Hl' Hk.
    assert (l' = l) as ->; [|congruence].
    eapply (ko_inj _ _ Hm); [by apply Hsub|by rewrite lookup_insert_eq|done]. }
  split; [done|]. split; [done|]. apply map_eq. intros k. apply option_eq. intros [[l' kp'] v'].
  rewrite (view_of_lookup _ _ _ _ _ _ Hm), lookup_insert_Some, lookup_insert_Some.
  rewrite (view_of_lookup _ _ _ _ _ _ Hok).
  pose proof (proj1 (view_of_None _ _ _ Hok) Hn) as Hall. split.
  { intros [[[<- [= <- <-]]|[Hne Hl']] Hk]; [by left|right]. split; [|done].
    intros Hkk. apply (Hall _ _ _ Hl'). congruence. }
  intros [[<- [= -> -> ->]]|[Hne [Hl' <-]]]; [tauto|]. split; [|done]. right. split; [|done].
  intros ->. congruence.
Qed.

Lemma view_of_size m nl : keys_ok m nl → size (view_of m) = size m.
Proof.
  revert nl. induction m as [|l [ko v] m Hl IH] using map_ind; intros nl Hm.
  - unfold view_of. by rewrite map_to_list_empty.
  - destruct (ko_some _ _ Hm l (ko, v)) as [kp Hkp]; [by rewrite lookup_insert_eq|].
    simpl in Hkp. subst ko. destruct (view_of_insert _ _ _ _ _ Hm Hl) as (Hok&Hn&->).
    rewrite !map_size_insert_None by done. f_equal. by eapply IH.
Qed.

Lemma view_of_update m nl k l kp v w :
  keys_ok m nl → view_of m !! k = Some (l, kp, v) →
  keys_ok (<[l := (Some kp, w)]> m) nl ∧
  view_of (<[l := (Some kp, w)]> m) = <[k := (l, kp, w)]> (view_of m).
Proof.
  intros Hm Hk. pose proof (proj1 (view_of_lookup _ _ _ _ _ _ Hm) Hk) as [Hl Hkd].
  assert (keys_ok (<[l := (Some kp, w)]> m) nl) as Hok.
  { split.
    - intros l' x Hx. destruct (decide (l = l')) as [->|]; simplify_map_eq; [by eauto|].
      by apply (ko_some _ _ Hm) in Hx.
    - intros l1 l2 k1 k2 v1 v2 H1 H2 Hk12.
      destruct (decide (l1 = l)), (decide (l2 = l)); subst; simplify_map_eq;
        try done; by eapply (ko_inj _ _ Hm).
    - intros l' x Hx. destruct (decide (l = l')) as [->|]; simplify_map_eq;
        by eapply (ko_fresh _ _ Hm). }
  split; [done|]. apply map_eq. intros k'. apply option_eq. intros [[l' kp'] v'].
  rewrite (view_of_lookup _ _ _ _ _ _ Hok).
  destruct (decide (k = k')) as [->|].
  - rewrite lookup_insert_eq. split.
    + intros [Hl' Hk']. destruct (decide (l' = l)); subst; simplify_map_eq; [done|].
      assert (l = l') by (eapply (ko_inj _ _ Hm); [exact Hl|exact Hl'|congruence]). done.
    + intros [= -> -> ->]. by simplify_map_eq.
  - rewrite (lookup_insert_ne (view_of m)) by congruence. rewrite (view_of_lookup _ _ _ _ _ _ Hm).
    destruct (decide (l' = l)); subst; simplify_map_eq; naive_solver.
Qed.

Lemma view_of_delete m nl k l kp v :
  keys_ok m nl → view_of m !! k = Some (l, kp, v) →
  keys_ok (delete l m) nl ∧ view_of (delete l m) = delete k (view_of m).
Proof.
  intros Hm Hk. pose proof (proj1 (view_of_lookup _ _ _ _ _ _ Hm) Hk) as [Hl Hkd].
  assert (keys_ok (delete l m) nl) as Hok.
  { split; intros *; rewrite ?lookup_delete_Some; intros; destruct_and?;
      [by eapply (ko_some _ _ Hm)|by eapply (ko_inj _ _ Hm)|by eapply (ko_fresh _ _ Hm)]. }
  split; [done|]. apply map_eq. intros k'. apply option_eq. intros [[l' kp'] v'].
  rewrite (view_of_lookup _ _ _ _ _ _ Hok), lookup_delete_Some, lookup_delete_Some,
    (view_of_lookup _ _ _ _ _ _ Hm).
  split.
  - intros [[Hne Hl'] Hk']. split; [|done]. intros <-. apply Hne.
    eapply (ko_inj _ _ Hm); [exact Hl|exact Hl'|congruence].
  - intros [Hne [Hl' Hk']]. split; [split; [|done]|done]. intros <-. simplify_eq.
Qed.
End view.

(** ** Layout: how the heap is linked into buckets *)

Section layout.
Context {V : Type} `{!HashFn}.
Implicit Types (h : gmap loc (Entry V)) (b : list (option loc)) (cs : list (list loc)).
Implicit Types (m : gmap loc (option KeyPtr * V)).

(** The bucket of a key in a vector of [n] buckets. *)
Definition bidx (n : nat) (k : bytes) : nat := Z.to_nat (Hash k mod Z.of_nat n).

Lemma bidx_lt n k : (0 < n)%nat → (bidx n k < n)%nat.
Proof. intros. unfold bidx. pose proof (Z.mod_pos_bound (Hash k) (Z.of_nat n)). lia. Qed.

Lemma bidx_Z n k : (0 < n)%nat → Hash k mod Z.of_nat n = Z.of_nat (bidx n k).
Proof. intros. unfold bidx. pose proof (Z.mod_pos_bound (Hash k) (Z.of_nat n)). lia. Qed.

Lemma bidx_i32 n k :
  (0 < n)%nat → Z.of_nat n ≤ 2 ^ 31 → i32 (Hash k mod Z.of_nat n) = Z.of_nat (bidx n k).
Proof.
  intros. rewrite bidx_Z by done. pose proof (bidx_lt n k). apply i32_small. lia.
Qed.

(** Chains for both bucket vectors, disjoint, that hold exactly the live
    entries; [fl] are the entries held by a local variable while a bucket is
    being moved. *)
Record rep h b0 b1 (fl : list loc) cs0 cs1 : Prop := {
  rep_b0 : Forall2 (chain h) b0 cs0;
  rep_b1 : Forall2 (chain h) b1 cs1;
  rep_nodup : NoDup (fl ++ concat cs0 ++ concat cs1);
  rep_dom : ∀ l, is_Some (h !! l) ↔ l ∈ fl ++ concat cs0 ++ concat cs1 }.

(** Each entry of [cs] is in the bucket of its key. *)
Definition place (n : nat) cs m : Prop :=
  ∀ i c l kp v, cs !! i = Some c → l ∈ c → m !! l = Some (Some kp, v) →
    bidx n (k_data kp) = i.

Lemma NoDup_dom_length h ls :
  NoDup ls → (∀ l, l ∈ ls → is_Some (h !! l)) → (length ls ≤ size h)%nat.
Proof.
  intros Hnd Hin. rewrite <- (size_list_to_set (C := gset loc)) by done.
  rewrite <- size_dom. apply subseteq_size. intros l. rewrite elem_of_list_to_set, elem_of_dom.
  apply Hin.
Qed.

Lemma rep_size h b0 b1 cs0 cs1 :
  rep h b0 b1 [] cs0 cs1 → size h = length (concat cs0 ++ concat cs1).
Proof.
  intros Hr. rewrite <- (size_list_to_set (C := gset loc)) by apply (rep_nodup _ _ _ _ _ _ Hr).
  rewrite <- size_dom. f_equal. apply set_eq. intros l.
  rewrite elem_of_list_to_set, elem_of_dom. apply (rep_dom _ _ _ _ _ _ Hr).
Qed.

(** Lengths of bucket vectors and chain lists agree. *)
Lemma rep_len0 h b0 b1 fl cs0 cs1 : rep h b0 b1 fl cs0 cs1 → length b0 = length cs0.
Proof. intros Hr. eapply Forall2_length, (rep_b0 _ _ _ _ _ _ Hr). Qed.
Lemma rep_len1 h b0 b1 fl cs0 cs1 : rep h b0 b1 fl cs0 cs1 → length b1 = length cs1.
Proof. intros Hr. eapply Forall2_length, (rep_b1 _ _ _ _ _ _ Hr). Qed.

(** A bucket chain is short enough for the fuel of the loops. *)
Lemma rep_chain_fuel0 h b0 b1 fl cs0 cs1 i c :
  rep h b0 b1 fl cs0 cs1 → cs0 !! i = Some c → NoDup c ∧ (length c ≤ size h)%nat.
Proof.
  intros Hr Hc.
  assert (NoDup c) as Hnd.
  { pose proof (rep_nodup _ _ _ _ _ _ Hr) as Hn. rewrite !NoDup_app in Hn.
    destruct Hn as (_&_&Hn&_&_). rewrite (concat_insert_perm_rem cs0 i c [] c) in Hn by
      (done || by rewrite app_nil_r). by apply NoDup_app in Hn as [??]. }
  split; [done|]. apply NoDup_dom_length; [done|]. intros l Hl.
  apply (rep_dom _ _ _ _ _ _ Hr). rewrite !elem_of_app. right; left.
  apply elem_of_concat_lookup. by eauto.
Qed.

Lemma rep_sym h b0 b1 fl cs0 cs1 : rep h b0 b1 fl cs0 cs1 → rep h b1 b0 fl cs1 cs0.
Proof.
  intros [Hb0 Hb1 Hnd Hdom]. split; [done|done| |].
  - by rewrite (Permutation_app_comm (concat cs1)).
  - intros l. rewrite Hdom. by rewrite (Permutation_app_comm (concat cs1)).
Qed.

(** Taking the chain of bucket [i] out of the first vector. *)
Lemma rep_take0 h b0 b1 fl cs0 cs1 i p c :
  rep h b0 b1 fl cs0 cs1 → b0 !! i = Some p → cs0 !! i = Some c →
  rep h (<[i:=None]> b0) b1 (c ++ fl) (<[i:=[]]> cs0) cs1 ∧ chain h p c.
Proof.
  intros [Hb0 Hb1 Hnd Hdom] Hp Hc. split; [|by eauto using chains_lookup].
  assert (c ++ fl ++ concat (<[i:=[]]> cs0) ++ concat cs1 ≡ₚ fl ++ concat cs0 ++ concat cs1) as Hperm.
  { rewrite (concat_insert_perm_rem cs0 i c [] c) by (done || by rewrite app_nil_r).
    rewrite !app_assoc. by rewrite (Permutation_app_comm fl c). }
  split; [by apply Forall2_insert|done| |].
  - by rewrite <- app_assoc, Hperm.
  - intros l. by rewrite <- app_assoc, Hperm.
Qed.

(** Linking an entry held by a local at the head of bucket [j] of the second
    vector. *)
Lemma rep_push1 h b0 b1 fl cs0 cs1 l e j p c :
  rep h b0 b1 (l :: fl) cs0 cs1 → h !! l = Some e → b1 !! j = Some p → cs1 !! j = Some c →
  rep (<[l := with_next p e]> h) b0 (<[j := Some l]> b1) fl cs0 (<[j := l :: c]> cs1).
Proof.
  intros [Hb0 Hb1 Hnd Hdom] Hl Hp Hc.
  assert (fl ++ concat cs0 ++ concat (<[j:=l :: c]> cs1)
          ≡ₚ (l :: fl) ++ concat cs0 ++ concat cs1) as Hperm.
  { rewrite (concat_insert_perm cs1 j c (l :: c) [l]) by done. simpl. by solve_Permutation. }
  pose proof Hnd as Hnd'. simpl in Hnd'. apply NoDup_cons in Hnd' as [Hlf _].
  rewrite !elem_of_app in Hlf.
  assert (∀ l' (ls : list loc), l' ∈ ls → l ∉ ls → <[l:=with_next p e]> h !! l' = h !! l') as Hfr.
  { intros l' ls Hin Hnin. rewrite lookup_insert_ne; [done|]. by intros ->. }
  split.
  - eapply chains_frame; [done|]. intros. eapply Hfr; [done|]. tauto.
  - apply Forall2_insert.
    + eapply chains_frame; [done|]. intros. eapply Hfr; [done|]. tauto.
    + simpl. split; [done|]. exists (with_next p e). rewrite lookup_insert_eq. split; [done|].
      apply chain_insert_fresh; [by eauto using chains_lookup|].
      intros Hin. apply Hlf. right; right. apply elem_of_concat_lookup. by eauto.
  - by rewrite Hperm.
  - intros l'. rewrite Hperm, <- Hdom.
    destruct (decide (l' = l)) as [->|].
    + rewrite lookup_insert_eq. by rewrite Hl.
    + by rewrite lookup_insert_ne.
Qed.
End layout.

(** ** The invariant *)

Section invariant.
Context {V : Type} `{!HashFn}.
Implicit Types t : HashTable V.

(** Not rehashing: one vector, at most one entry per bucket on average.
    Rehashing: the buckets below the cursor have been moved to a vector of
    twice the size, and the entries added since the rehash began are paid
    for by the cursor. *)
Definition rehash_state t (cs0 cs1 : list (list loc)) : Prop :=
  (rehash_index_ t = -1 ∧ buckets1 t = [] ∧ entries_ t ≤ size0 t) ∨
  (0 ≤ rehash_index_ t < size0 t ∧ length (buckets1 t) = (2 * length (buckets0 t))%nat ∧
   size1 t ≤ 2 ^ 30 ∧
   (∀ i, Z.of_nat i < rehash_index_ t → cs0 !! i = Some []) ∧
   (∀ l kp v, l ∈ concat cs1 → contents t !! l = Some (Some kp, v) →
      Z.of_nat (bidx (length (buckets0 t)) (k_data kp)) < rehash_index_ t) ∧
   2 * (entries_ t - size0 t) ≤ rehash_index_ t).

Record lay t (cs0 cs1 : list (list loc)) : Prop := {
  lay_rep : rep (heap t) (buckets0 t) (buckets1 t) [] cs0 cs1;
  lay_keys : keys_ok (contents t) (next_loc t);
  lay_place0 : place (length (buckets0 t)) cs0 (contents t);
  lay_place1 : place (length (buckets1 t)) cs1 (contents t);
  lay_count : entries_ t = Z.of_nat (size (heap t));
  lay_pow : size0 t = 0 ∨ ∃ k, 2 ≤ k ≤ 30 ∧ size0 t = 2 ^ k;
  lay_rehash : rehash_state t cs0 cs1 }.

Definition wf t : Prop := ∃ cs0 cs1, lay t cs0 cs1.

Lemma new_table_wf id : wf (new_table id).
Proof.
  exists [], []. split; cbn.
  - split; [constructor|constructor|constructor|].
    intros l. rewrite lookup_empty, elem_of_nil. split; [by intros []|done].
  - split; intros *; rewrite lookup_fmap, lookup_empty; done.
  - by intros [].
  - by intros [].
  - done.
  - by left.
  - left. cbn. done.
Qed.

Lemma wf_keys t : wf t → keys_ok (contents t) (next_loc t).
Proof. by intros (?&?&[]). Qed.

(** The view in terms of the heap. *)
Lemma tview_lookup t k l kp v :
  wf t → tview t !! k = Some (l, kp, v) ↔
    ∃ e, heap t !! l = Some e ∧ e_key e = Some kp ∧ e_value e = v ∧ k_data kp = k.
Proof.
  intros Hwf. unfold tview. rewrite (view_of_lookup _ _ _ _ _ _ (wf_keys _ Hwf)).
  split.
  - intros [(e&He&Hx)%contents_lookup_inv Hk]. exists e. naive_solver.
  - intros (e&He&<-&<-&<-). split; [|done]. by apply contents_lookup.
Qed.

Lemma wf_size_bound t : wf t → size0 t ≤ 2 ^ 30.
Proof.
  intros (cs0&cs1&[? ? ? ? ? [->|(k&?&->)] ?]); [lia|]. apply Z.pow_le_mono_r; lia.
Qed.

Lemma wf_entries_bound t : wf t → 0 ≤ entries_ t ≤ 2 ^ 32.
Proof.
  intros Hwf. pose proof (wf_size_bound _ Hwf). destruct Hwf as (cs0&cs1&[? ? ? ? Hc ? Hr]).
  destruct Hr as [(?&?&?)|(?&?&?&?&?&?)]; unfold size0, size1 in *; lia.
Qed.

(** [Count] is the number of keys. *)
Lemma wf_count t : wf t → Count t = Z.of_nat (size (tview t)).
Proof.
  intros Hwf. unfold tview. rewrite (view_of_size _ _ (wf_keys _ Hwf)).
  unfold contents. rewrite map_size_fmap. by destruct Hwf as (?&?&[]).
Qed.

(** At a non-empty bucket vector. *)
Lemma wf_size0_pos t : buckets0 t ≠ [] → (0 < length (buckets0 t))%nat.
Proof. destruct (buckets0 t); [done|]. simpl. lia. Qed.
End invariant.

(** ** Moving buckets *)

Section rehash.
Context {V : Type} `{!Inhabited V} `{!BuildMode} `{!HashFn}.
Implicit Types t : HashTable V.

Lemma bind_cassert {B} c (k : unit → Outcome B) :
  c = true → (cassert c ≫= k) = k tt.
Proof. intros. by rewrite (bind_Ok _ _ tt) by by apply cassert_true. Qed.

Lemma entry_get_Ok t l e : heap t !! l = Some e → entry_get l t = Ok e.
Proof. unfold entry_get. by intros ->. Qed.
Lemma entry_put_Ok t l e e' :
  heap t !! l = Some e → entry_put l e' t = Ok (set_heap (<[l:=e']> (heap t)) t).
Proof. unfold entry_put. by intros ->. Qed.

Lemma bucket_get0 t i p : buckets0 t !! i = Some p → bucket_get (B0, Z.of_nat i) t = Ok p.
Proof. apply vec_get_nat. Qed.
Lemma bucket_get1 t i p : buckets1 t !! i = Some p → bucket_get (B1, Z.of_nat i) t = Ok p.
Proof. apply vec_get_nat. Qed.
Lemma bucket_set0 t i p : (i < length (buckets0 t))%nat →
  bucket_set (B0, Z.of_nat i) p t = Ok (set_buckets0 (<[i:=p]> (buckets0 t)) t).
Proof. intros. unfold bucket_set. simpl. by rewrite vec_set_nat. Qed.
Lemma bucket_set1 t i p : (i < length (buckets1 t))%nat →
  bucket_set (B1, Z.of_nat i) p t = Ok (set_buckets1 (<[i:=p]> (buckets1 t)) t).
Proof. intros. unfold bucket_set. simpl. by rewrite vec_set_nat. Qed.

Lemma place_insert n cs m i c l kp v :
  place n cs m → cs !! i = Some c → m !! l = Some (Some kp, v) → bidx n (k_data kp) = i →
  place n (<[i := l :: c]> cs) (m : gmap loc (option KeyPtr * V)).
Proof.
  intros Hp Hi Hl Hb i' c' l' kp' v' Hi' Hl' Hm'.
  apply list_lookup_insert_Some in Hi' as [(<-&<-&_)|[? ?]]; [|by eapply Hp].
  apply elem_of_cons in Hl' as [->|?]; [|by eapply Hp]. by simplify_eq.
Qed.

Lemma rehash_chain_cons fuel l num t e kp hd :
  heap t !! l = Some e → e_key e = Some kp → (0 < length (buckets1 t))%nat → size1 t ≤ 2 ^ 31 →
  let j := bidx (length (buckets1 t)) (k_data kp) in
  buckets1 t !! j = Some hd →
  rehash_chain (S fuel) (Some l) num t =
  rehash_chain fuel (e_next e) (u64 (num + 1))
    (set_buckets1 (<[j:=Some l]> (buckets1 t)) (set_heap (<[l:=with_next hd e]> (heap t)) t)).
Proof.
  intros He Hkp Hpos Hsz j Hhd. simpl. rewrite (bind_Ok _ _ _ (entry_get_Ok _ _ _ He)).
  rewrite (bind_Ok _ _ kp) by (unfold GetKey; by rewrite Hkp).
  rewrite (bind_Ok _ _ _ (umod_Ok _ (size1 t) ltac:(unfold size1; lia))).
  unfold size1. rewrite !bidx_i32 by done. fold j.
  rewrite (bind_Ok _ _ _ (bucket_get1 _ _ _ Hhd)).
  rewrite (bind_Ok _ _ _ (entry_put_Ok _ _ _ _ He)).
  by rewrite (bind_Ok _ _ _ (bucket_set1 (set_heap (<[l:=with_next hd e]> (heap t)) t) j (Some l)
    (bidx_lt _ _ Hpos))).
Qed.

Lemma rehash_chain_spec rest fuel p num t cs0 cs1 b0 :
  rep (heap t) b0 (buckets1 t) rest cs0 cs1 → chain (heap t) p rest →
  (length rest ≤ fuel)%nat → (0 < length (buckets1 t))%nat → size1 t ≤ 2 ^ 31 →
  keys_ok (contents t) (next_loc t) → place (length (buckets1 t)) cs1 (contents t) →
  0 ≤ num → num + Z.of_nat (length rest) < 2 ^ 64 →
  ∃ h' b1' cs1',
    rehash_chain fuel p num t
      = Ok (num + Z.of_nat (length rest), set_buckets1 b1' (set_heap h' t)) ∧
    rep h' b0 b1' [] cs0 cs1' ∧ content <$> h' = contents t ∧
    place (length b1') cs1' (contents t) ∧ length b1' = length (buckets1 t) ∧
    (∀ l, l ∈ concat cs1' → l ∈ rest ∨ l ∈ concat cs1).
Proof.
  revert fuel p num t cs1. induction rest as [|l rest IH];
    intros fuel p num t cs1 Hrep Hch Hfuel Hpos Hsz Hkeys Hplace Hnum Hbound.
  - simpl in Hch. subst p. exists (heap t), (buckets1 t), cs1.
    destruct fuel, t; simpl; rewrite Z.add_0_r; naive_solver.
  - destruct fuel as [|fuel]; [simpl in Hfuel; lia|].
    destruct Hch as (->&e&He&Hch).
    destruct (ko_some _ _ Hkeys _ _ (contents_lookup _ _ _ He)) as [kp Hkp]. simpl in Hkp.
    set (j := bidx (length (buckets1 t)) (k_data kp)).
    assert (j < length (buckets1 t))%nat as Hj by by apply bidx_lt.
    destruct (lookup_lt_is_Some_2 (buckets1 t) j Hj) as [hd Hhd].
    destruct (lookup_lt_is_Some_2 cs1 j) as [c Hc];
      [by rewrite <- (rep_len1 _ _ _ _ _ _ Hrep)|].
    pose proof (rep_push1 _ _ _ _ _ _ _ _ _ _ _ Hrep He Hhd Hc) as Hrep'.
    set (t' := set_buckets1 (<[j:=Some l]> (buckets1 t))
                 (set_heap (<[l:=with_next hd e]> (heap t)) t)).
    assert (contents t' = contents t) as Hcont by by apply content_with_next.
    rewrite (rehash_chain_cons fuel l num t e kp hd) by done. fold j. fold t'.
    assert (place (length (buckets1 t')) (<[j:=l :: c]> cs1) (contents t')) as Hplace'.
    { rewrite Hcont. simpl. rewrite length_insert.
      by eapply place_insert; [done|done|by apply contents_lookup_key|]. }
    simpl in Hbound.
    destruct (IH fuel (e_next e) (num + 1) t' (<[j:=l :: c]> cs1))
      as (h'&b1'&cs1'&Heq&Hr'&Hc'&Hp'&Hl'&Hin'); try done.
    { simpl. apply chain_insert_fresh; [done|].
      pose proof (rep_nodup _ _ _ _ _ _ Hrep) as Hn. simpl in Hn.
      apply NoDup_cons in Hn as [Hn _]. set_solver. }
    { simpl in Hfuel. lia. }
    { simpl. by rewrite length_insert. }
    { unfold size1 in *. simpl. by rewrite length_insert. }
    { by rewrite Hcont. }
    { lia. }
    { lia. }
    exists h', b1', cs1'. split_and!.
    + rewrite u64_small by lia. rewrite Heq. simpl. do 2 f_equal. lia.
    + done.
    + by rewrite Hc', Hcont.
    + by rewrite <- Hcont.
    + rewrite Hl'. simpl. by rewrite length_insert.
    + intros l' [Hl''|Hl'']%Hin'; [set_solver|].
      rewrite (concat_insert_perm cs1 j c (l :: c) [l]) in Hl'' by done. set_solver.
Qed.

(** [t'] holds the entries of [t] under other links. *)
Definition relinked t t' : Prop :=
  ht_id t' = ht_id t ∧ next_loc t' = next_loc t ∧ contents t' = contents t ∧
  entries_ t' = entries_ t.

#[export] Instance relinked_preorder : PreOrder relinked.
Proof. split; [by intros t|]. unfold relinked. intros t1 t2 t3. intuition congruence. Qed.

Lemma relinked_tview t t' : relinked t t' → tview t' = tview t.
Proof. intros (_&_&E&_). unfold tview. by rewrite E. Qed.

Lemma set_id t i :
  buckets0 t !! i = Some None → set_buckets0 (<[i:=None]> (buckets0 t))
    (set_buckets1 (buckets1 t) (set_heap (heap t) t)) = t.
Proof. intros Hi. rewrite list_insert_id by done. by destruct t. Qed.

Lemma RehashBucket_spec t cs0 cs1 i :
  rep (heap t) (buckets0 t) (buckets1 t) [] cs0 cs1 → keys_ok (contents t) (next_loc t) →
  place (length (buckets1 t)) cs1 (contents t) → (i < length (buckets0 t))%nat →
  (0 < length (buckets1 t))%nat → size1 t ≤ 2 ^ 31 → Z.of_nat (size (heap t)) < 2 ^ 64 →
  ∃ c h' b1' cs1',
    cs0 !! i = Some c ∧
    RehashBucket (B0, Z.of_nat i) t
      = Ok (Z.of_nat (length c),
            set_buckets0 (<[i:=None]> (buckets0 t)) (set_buckets1 b1' (set_heap h' t))) ∧
    rep h' (<[i:=None]> (buckets0 t)) b1' [] (<[i:=[]]> cs0) cs1' ∧
    content <$> h' = contents t ∧ place (length b1') cs1' (contents t) ∧
    length b1' = length (buckets1 t) ∧ (∀ l, l ∈ concat cs1' → l ∈ c ∨ l ∈ concat cs1).
Proof.
  intros Hrep Hkeys Hplace Hi Hpos Hsz Hheap.
  destruct (lookup_lt_is_Some_2 (buckets0 t) i Hi) as [p Hp].
  destruct (lookup_lt_is_Some_2 cs0 i) as [c Hc]; [by rewrite <- (rep_len0 _ _ _ _ _ _ Hrep)|].
  destruct (rep_take0 _ _ _ _ _ _ _ _ _ Hrep Hp Hc) as [Hrep' Hch]. rewrite app_nil_r in Hrep'.
  destruct (rep_chain_fuel0 _ _ _ _ _ _ _ _ Hrep Hc) as [_ Hfuel].
  unfold RehashBucket. rewrite (bind_Ok _ _ _ (bucket_get0 _ _ _ Hp)).
  destruct p as [l|].
  - destruct (rehash_chain_spec c (size (heap t)) (Some l) 0 t _ _ _ Hrep' Hch)
      as (h'&b1'&cs1'&Heq&Hr'&Hc'&Hp'&Hl'&Hin'); try done; [lia|].
    rewrite (bind_Ok _ _ _ Heq). cbn beta iota.
    rewrite (bind_Ok _ _ _ (bucket_set0 (set_buckets1 b1' (set_heap h' t)) i None Hi)).
    rewrite Z.add_0_l. exists c, h', b1', cs1'. done.
  - assert (c = []) as ->. { destruct c; [done|]. by destruct Hch. }
    exists [], (heap t), (buckets1 t), cs1. rewrite set_id by done.
    split_and!; try done. by right.
Qed.

(** The state after the last bucket has been moved. *)
Definition finish t : HashTable V :=
  set_buckets1 [] (set_buckets0 (buckets1 t) (set_rehash_index (-1) t)).

Lemma rep_finish h b0 b1 cs0 cs1 :
  rep (V := V) h b0 b1 [] cs0 cs1 → (∀ i c, cs0 !! i = Some c → c = []) →
  rep h b1 [] [] cs1 [].
Proof.
  intros [Hb0 Hb1 Hnd Hdom] Hall. rewrite (concat_all_nil cs0 Hall) in *.
  split; [done|constructor| |]; simpl in *; by rewrite app_nil_r.
Qed.

(** The cursor state that the invariant gives while rehashing. *)
Lemma rehashing_inv t cs0 cs1 :
  lay t cs0 cs1 → IsRehashing t = true →
  0 ≤ rehash_index_ t < size0 t ∧ length (buckets1 t) = (2 * length (buckets0 t))%nat ∧
  size1 t ≤ 2 ^ 30 ∧
  (∀ i, Z.of_nat i < rehash_index_ t → cs0 !! i = Some []) ∧
  (∀ l kp v, l ∈ concat cs1 → contents t !! l = Some (Some kp, v) →
     Z.of_nat (bidx (length (buckets0 t)) (k_data kp)) < rehash_index_ t) ∧
  2 * (entries_ t - size0 t) ≤ rehash_index_ t.
Proof.
  intros Hlay Hre. apply Z.leb_le in Hre.
  destruct (lay_rehash _ _ _ Hlay) as [(?&?&?)|?]; [lia|done].
Qed.

Lemma cs_prefix_insert (cs : list (list loc)) (r : Z) i :
  (∀ j, Z.of_nat j < r → cs !! j = Some []) → r = Z.of_nat i → (i < length cs)%nat →
  ∀ j, Z.of_nat j < r + 1 → <[i:=[]]> cs !! j = Some [].
Proof.
  intros Hpre -> Hi j Hj. destruct (decide (i = j)) as [->|].
  - by apply list_lookup_insert_eq.
  - rewrite list_lookup_insert_ne by done. apply Hpre. lia.
Qed.

(** The links after bucket [i] has been moved. *)
Record moved t cs0 cs1 (i : nat) c h' b1' cs1' : Prop := {
  mv_bucket : cs0 !! i = Some c;
  mv_rep : rep h' (<[i:=None]> (buckets0 t)) b1' [] (<[i:=[]]> cs0) cs1';
  mv_content : content <$> h' = contents t;
  mv_place : place (length b1') cs1' (contents t);
  mv_len : length b1' = length (buckets1 t);
  mv_in : ∀ l, l ∈ concat cs1' → l ∈ c ∨ l ∈ concat cs1 }.

Definition moved_to t (i : nat) h' b1' : HashTable V :=
  set_buckets0 (<[i:=None]> (buckets0 t)) (set_buckets1 b1' (set_heap h' t)).

Lemma size_content (h h' : gmap loc (Entry V)) : content <$> h = content <$> h' → size h = size h'.
Proof. intros E. by rewrite <- (map_size_fmap content h), E, map_size_fmap. Qed.

Lemma moved_below t cs0 cs1 i c h' b1' cs1' l kp v :
  lay t cs0 cs1 → IsRehashing t = true → rehash_index_ t = Z.of_nat i →
  moved t cs0 cs1 i c h' b1' cs1' → l ∈ concat cs1' → contents t !! l = Some (Some kp, v) →
  Z.of_nat (bidx (length (buckets0 t)) (k_data kp)) < rehash_index_ t + 1.
Proof.
  intros Hlay Hre Hi Hmv Hl Hk. destruct (rehashing_inv _ _ _ Hlay Hre) as (_&_&_&_&Hbelow&_).
  destruct (mv_in _ _ _ _ _ _ _ _ Hmv l Hl) as [Hlc|Hlc].
  - rewrite (lay_place0 _ _ _ Hlay i c l kp v); [lia|by apply Hmv|done|done].
  - pose proof (Hbelow l kp v Hlc Hk). lia.
Qed.

Lemma moved_continue t cs0 cs1 i c h' b1' cs1' :
  lay t cs0 cs1 → IsRehashing t = true → rehash_index_ t = Z.of_nat i →
  moved t cs0 cs1 i c h' b1' cs1' → rehash_index_ t + 1 < size0 t →
  wf (set_rehash_index (rehash_index_ t + 1) (moved_to t i h' b1')).
Proof.
  intros Hlay Hre Hi Hmv Hlt.
  destruct (rehashing_inv _ _ _ Hlay Hre) as (Hri&Hlen&Hsz&Hpre&Hbelow&Hload).
  pose proof (λ l kp v, moved_below t cs0 cs1 i c h' b1' cs1' l kp v Hlay Hre Hi Hmv) as Hbelow'.
  destruct Hlay as [Hrep Hkeys Hp0 Hp1 Hcnt Hpow _], Hmv as [Hc Hrep' Hcont Hplace Hlb Hin].
  exists (<[i:=[]]> cs0), cs1'. unfold size0, size1 in *.
  split; cbn; unfold contents, rehash_state, size0, size1; cbn; rewrite ?length_insert, ?Hcont;
    try done.
  - intros j cj l kp v Hj Hlj Hm.
    apply list_lookup_insert_Some in Hj as [(<-&<-&_)|[? ?]]; [by apply not_elem_of_nil in Hlj|].
    by eapply Hp0.
  - rewrite Hcnt. f_equal. symmetry. by apply size_content.
  - right. rewrite Hlb. split_and!; try lia.
    + apply cs_prefix_insert; [done|done|]. by eapply lookup_lt_Some.
    + done.
Qed.

Lemma moved_finish t cs0 cs1 i c h' b1' cs1' :
  lay t cs0 cs1 → IsRehashing t = true → rehash_index_ t = Z.of_nat i →
  moved t cs0 cs1 i c h' b1' cs1' → rehash_index_ t + 1 = size0 t →
  wf (finish (moved_to t i h' b1')).
Proof.
  intros Hlay Hre Hi Hmv Hlt.
  destruct (rehashing_inv _ _ _ Hlay Hre) as (Hri&Hlen&Hsz&Hpre&Hbelow&Hload).
  destruct Hlay as [Hrep Hkeys Hp0 Hp1 Hcnt Hpow _], Hmv as [Hc Hrep' Hcont Hplace Hlb Hin].
  exists cs1', []. unfold size0, size1 in *.
  split; cbn; unfold contents, rehash_state, size0, size1; cbn; rewrite ?Hcont; try done.
  - eapply rep_finish; [done|]. intros j cj Hj.
    pose proof (cs_prefix_insert cs0 _ i Hpre Hi ltac:(by eapply lookup_lt_Some) j) as Hz.
    rewrite Hz in Hj; [by simplify_eq|]. apply lookup_lt_Some in Hj. rewrite length_insert in Hj.
    rewrite <- (rep_len0 _ _ _ _ _ _ Hrep) in Hj. lia.
  - rewrite Hcnt. f_equal. symmetry. by apply size_content.
  - right. destruct Hpow as [?|(k&Hk&Hpow)]; [lia|]. exists (k + 1).
    assert (2 ^ (k + 1) = 2 * 2 ^ k) as Hp2 by (rewrite Z.pow_add_r by lia; lia).
    split; [|lia]. split; [lia|]. assert (k + 1 < 31); [|lia].
    apply (Z.pow_lt_mono_r_iff 2); lia.
  - left. split_and!; [done|done|]. lia.
Qed.

(** One turn of [RehashSome]: a bucket is moved and the cursor advances; at
    the end of the vector the two vectors are swapped. *)
Lemma rehash_advance t :
  wf t → IsRehashing t = true →
  ∃ n t1,
    RehashBucket (B0, rehash_index_ t) t = Ok (n, t1) ∧ 0 ≤ n ∧
    rehash_index_ t1 = rehash_index_ t ∧ length (buckets0 t1) = length (buckets0 t) ∧
    length (buckets1 t1) = length (buckets1 t) ∧ relinked t t1 ∧
    (rehash_index_ t + 1 < size0 t → wf (set_rehash_index (rehash_index_ t + 1) t1)) ∧
    (rehash_index_ t + 1 = size0 t → wf (finish t1)).
Proof.
  intros Hwf Hre. pose proof (wf_entries_bound t Hwf) as Hent. destruct Hwf as (cs0&cs1&Hlay).
  destruct (rehashing_inv _ _ _ Hlay Hre) as (Hri&Hlen&Hsz&_).
  set (i := Z.to_nat (rehash_index_ t)). unfold size0 in Hri.
  assert (rehash_index_ t = Z.of_nat i) as Hi by lia.
  pose proof (lay_count _ _ _ Hlay).
  destruct (RehashBucket_spec t cs0 cs1 i) as (c&h'&b1'&cs1'&Hc&Heq&Hrep'&Hcont&Hplace&Hlb&Hin);
    try apply Hlay; try lia.
  assert (moved t cs0 cs1 i c h' b1' cs1') as Hmv by done.
  exists (Z.of_nat (length c)), (moved_to t i h' b1'). rewrite Hi at 1.
  split; [done|]. split; [lia|]. split; [done|].
  split; [cbn; by rewrite length_insert|]. split; [done|]. split; [done|].
  eauto using moved_continue, moved_finish.
Qed.

(** How far a rehashing step has come: [true] when it completed. *)
Definition progress (b : bool) t t' : Prop :=
  if b then IsRehashing t' = false ∧ length (buckets0 t') = length (buckets1 t)
  else IsRehashing t' = true ∧ length (buckets0 t') = length (buckets0 t) ∧
       length (buckets1 t') = length (buckets1 t) ∧ rehash_index_ t < rehash_index_ t'.

Lemma progress_trans b t t1 t' :
  progress false t t1 → progress b t1 t' → progress b t t'.
Proof. unfold progress. intros (?&?&?&?). destruct b; intuition (congruence || lia). Qed.

Lemma rehash_loop_spec fuel n e t :
  wf t → IsRehashing t = true → size0 t - rehash_index_ t ≤ Z.of_nat fuel →
  0 < n < 2 ^ 64 → 0 < e < 2 ^ 64 →
  ∃ b t', rehash_loop fuel n e t = Ok (b, t') ∧ wf t' ∧ relinked t t' ∧ progress b t t'.
Proof.
  revert n e t. induction fuel as [|fuel IH]; intros n e t Hwf Hre Hfuel Hn He.
  { destruct Hwf as (cs0&cs1&Hlay). destruct (rehashing_inv _ _ _ Hlay Hre) as (?&_). lia. }
  destruct (rehash_advance t Hwf Hre) as (m&t1&Heq&Hm&Hri1&Hl0&Hl1&Hrel&Hcont&Hfin).
  assert (0 ≤ rehash_index_ t < size0 t ∧ size0 t ≤ 2 ^ 29) as [Hri Hs].
  { destruct Hwf as (cs0&cs1&Hlay). destruct (rehashing_inv _ _ _ Hlay Hre) as (?&?&?&_).
    unfold size0, size1 in *. lia. }
  simpl. rewrite (bind_Ok _ _ _ Heq). cbn beta iota. rewrite Hri1.
  cbn [rehash_index_ set_rehash_index]. rewrite i32_small by lia.
  assert (size0 (set_rehash_index (rehash_index_ t + 1) t1) = size0 t) as ->
    by (unfold size0; cbn; by rewrite Hl0).
  rewrite (i32_small (size0 t)) by lia.
  destruct (Z.eqb_spec (rehash_index_ t + 1) (size0 t)) as [Hend|Hend].
  - exists true, (finish t1). split; [done|]. split; [by apply Hfin|]. split; [by destruct Hrel|].
    done.
  - set (t2 := set_rehash_index (rehash_index_ t + 1) t1).
    assert (wf t2) as Hwf2 by (apply Hcont; lia).
    assert (relinked t t2) as Hrel2 by done.
    assert (progress false t t2) as Hpr2.
    { split_and!; cbn; try done; [|lia]. apply Z.leb_le. cbn. lia. }
    assert (∀ n e, 0 < n < 2 ^ 64 → 0 < e < 2 ^ 64 → ∃ b t', rehash_loop fuel n e t2 = Ok (b, t') ∧
      wf t' ∧ relinked t t' ∧ progress b t t') as Hrec.
    { intros n' e' Hn' He'. destruct (IH n' e' t2) as (b&t'&?&?&?&?); try done.
      - by apply Hpr2.
      - unfold size0 in *. cbn. rewrite Hl0. lia.
      - exists b, t'. split_and!; try done; [by etrans|]. by eapply progress_trans. }
    bcase; rewrite u64_small by lia; bcase; try (by exists false, t2); apply Hrec; lia.
Qed.

Lemma RehashSome_spec n t :
  wf t → IsRehashing t = true → 0 < n → n * 10 < 2 ^ 64 →
  ∃ b t', RehashSome n t = Ok (b, t') ∧ wf t' ∧ relinked t t' ∧ progress b t t'.
Proof.
  intros Hwf Hre Hn Hn'. pose proof Hwf as (cs0&cs1&Hlay).
  destruct (rehashing_inv _ _ _ Hlay Hre) as (?&?&?&_).
  unfold RehashSome. rewrite !bind_cassert; [|by apply negb_true_iff, Zeqb_f; lia| |done].
  - apply rehash_loop_spec; try done; unfold size0 in *; rewrite ?u64_small; lia.
  - apply negb_true_iff, Zeqb_f. unfold size0, size1 in *. rewrite i32_small; lia.
Qed.

(** The bucket a lookup of [key] must search. *)
Definition bucket_for (key : bytes) t (it : iter) : Prop :=
  let i0 := bidx (length (buckets0 t)) key in
  (it = (B0, Z.of_nat i0) ∧ rehash_index_ t ≤ Z.of_nat i0) ∨
  (it = (B1, Z.of_nat (bidx (length (buckets1 t)) key)) ∧ Z.of_nat i0 < rehash_index_ t).

(** A table operation that keeps the contents and advances a rehash, if one
    is running. *)
Definition quiet t t' : Prop :=
  wf t' ∧ relinked t t' ∧
  (t' = t ∧ IsRehashing t = false ∨ IsRehashing t = true ∧ ∃ b, progress b t t').

Lemma FindBucket_spec key t :
  wf t → buckets0 t ≠ [] →
  ∃ it t', FindBucket key t = Ok (it, t') ∧ quiet t t' ∧ bucket_for key t' it ∧
           buckets0 t' ≠ [].
Proof.
  intros Hwf Hne.
  assert (∃ t', (if IsRehashing t then '(_, t0) ← RehashSome 1 t; Ok t0 else Ok t) = Ok t' ∧
    quiet t t' ∧ buckets0 t' ≠ []) as (t'&Hpre&Hq&Hne').
  { destruct (IsRehashing t) eqn:Hre; [|exists t; split; [done|]; split; [|done]; unfold quiet; by intuition].
    destruct (RehashSome_spec 1 t Hwf Hre) as (b&t'&Heq&Hwf'&Hrel&Hpr); [lia|lia|].
    exists t'. rewrite Heq. split; [done|]. split; [unfold quiet; by eauto 7|].
    pose proof Hwf as (cs0&cs1&Hlay). destruct (rehashing_inv _ _ _ Hlay Hre) as (?&?&?&_).
    intros Hnil. apply wf_size0_pos in Hne. unfold progress in Hpr. rewrite Hnil in Hpr.
    destruct b; cbn in Hpr; destruct_and!; lia. }
  unfold FindBucket. rewrite (bind_Ok _ _ _ Hpre). pose proof (wf_size0_pos _ Hne') as Hpos.
  pose proof (proj1 Hq) as Hwf'. pose proof (wf_size_bound _ Hwf') as Hsz.
  rewrite (bind_Ok _ _ _ (umod_Ok _ (size0 t') ltac:(unfold size0; lia))).
  unfold size0 in *. rewrite bidx_i32 by lia.
  destruct (Z.leb_spec (rehash_index_ t') (Z.of_nat (bidx (length (buckets0 t')) key)));
    [eexists _, t'; split; [reflexivity|]; split; [done|]; split; [by left|done]|].
  pose proof Hwf' as (cs0&cs1&Hlay).
  destruct (rehashing_inv _ _ _ Hlay) as (?&?&?&_); [apply Z.leb_le; lia|].
  pose proof (bidx_lt _ key Hpos). unfold size0, size1 in *.
  rewrite bind_cassert by (apply Zltb_t; rewrite i32_small; lia).
  rewrite (bind_Ok _ _ _ (umod_Ok _ (Z.of_nat (length (buckets1 t'))) ltac:(lia))), bidx_i32 by lia.
  eexists _, t'. split; [reflexivity|]. split; [done|]. split; [|done]. by right.
Qed.
End rehash.
