(* ===== verification/HashTableSpec.v ===== *)
(** * The hash table implements a finite map

    Functional specification and refinement of HashTable.  Every operation
    succeeds from a state that satisfies [wf], preserves [wf], and acts on the
    view of the table as the corresponding operation on finite maps, whatever
    the state of the incremental rehash. *)

From S2P Require Import Prelude Bits HashTable HashTableInv.

(** ** Searching a bucket *)

Section search.
Context {V : Type} `{!Inhabited V} `{!BuildMode} `{!HashFn}.
Implicit Types t : HashTable V.

(** The entry at [l] holds [key]. *)
Definition holds t (key : bytes) (l : loc) : Prop :=
  ∃ e kp, heap t !! l = Some e ∧ e_key e = Some kp ∧ k_data kp = key.

Lemma holds_tview t key l :
  wf t → holds t key l ↔ ∃ kp v, tview t !! key = Some (l, kp, v).
Proof.
  intros Hwf. split.
  - intros (e&kp&He&Hk&Hd). exists kp, (e_value e). apply tview_lookup; [done|]. by exists e.
  - intros (kp&v&Ht). apply tview_lookup in Ht as (e&?&?&?&?); [|done]. by exists e, kp.
Qed.

Lemma wf_entry_key t l e : wf t → heap t !! l = Some e → ∃ kp, e_key e = Some kp.
Proof.
  intros Hwf He. destruct (ko_some _ _ (wf_keys _ Hwf) _ _ (contents_lookup _ _ _ He)); eauto.
Qed.

(** The chain of the bucket of [key] holds every entry with that key. *)
Record bucket_chain t (key : bytes) (it : iter) p c : Prop := {
  bc_get : bucket_get it t = Ok p;
  bc_chain : chain (heap t) p c;
  bc_nodup : NoDup c;
  bc_fuel : (length c ≤ size (heap t))%nat;
  bc_all : ∀ l, holds t key l → l ∈ c }.

Lemma bucket_for_chain t cs0 cs1 key it :
  lay t cs0 cs1 → buckets0 t ≠ [] → bucket_for key t it →
  ∃ w (i : nat) p c, it = (w, Z.of_nat i) ∧ bucket_chain t key it p c ∧
    match w with
    | B0 => buckets0 t !! i = Some p ∧ cs0 !! i = Some c ∧ rehash_index_ t ≤ Z.of_nat i ∧
            i = bidx (length (buckets0 t)) key
    | B1 => buckets1 t !! i = Some p ∧ cs1 !! i = Some c ∧ IsRehashing t = true ∧
            i = bidx (length (buckets1 t)) key ∧
            Z.of_nat (bidx (length (buckets0 t)) key) < rehash_index_ t
    end.
Proof.
  intros Hlay Hne Hit. pose proof (lay_rep _ _ _ Hlay) as Hrep.
  apply wf_size0_pos in Hne as Hpos. set (i0 := bidx (length (buckets0 t)) key).
  assert (i0 < length (buckets0 t))%nat as Hi0 by by apply bidx_lt.
  assert (∀ l e, heap t !! l = Some e → l ∈ concat cs0 ∨ l ∈ concat cs1) as Hdom.
  { intros l e He. apply elem_of_app, (rep_dom _ _ _ _ _ _ Hrep). by rewrite He. }
  destruct Hit as [[-> Hge]|[-> Hlt]].
  - destruct (lookup_lt_is_Some_2 (buckets0 t) i0 Hi0) as [p Hp].
    destruct (lookup_lt_is_Some_2 cs0 i0) as [c Hc]; [by rewrite <- (rep_len0 _ _ _ _ _ _ Hrep)|].
    destruct (rep_chain_fuel0 _ _ _ _ _ _ _ _ Hrep Hc) as [Hnd Hfuel].
    exists B0, i0, p, c. split; [done|]. split; [|done]. split; try done.
    + by apply bucket_get0.
    + eauto using chains_lookup, rep_b0.
    + intros l (e&kp&He&Hk&Hd).
      pose proof (contents_lookup_key _ _ _ _ He Hk) as Hcl.
      destruct (Hdom l e He) as [(j&cj&Hj&Hl)%elem_of_concat_lookup|Hl].
      * assert (bidx (length (buckets0 t)) (k_data kp) = j) as Hb
          by by eapply (lay_place0 _ _ _ Hlay).
        rewrite Hd in Hb. fold i0 in Hb. by simplify_eq.
      * destruct (lay_rehash _ _ _ Hlay) as [(_&Hnil&_)|(_&_&_&_&Hbelow&_)].
        -- apply rep_len1 in Hrep. rewrite Hnil in Hrep. destruct cs1; [|done].
           by apply not_elem_of_nil in Hl.
        -- specialize (Hbelow l kp (e_value e) Hl Hcl). rewrite Hd in Hbelow. fold i0 in Hbelow. lia.
  - assert (IsRehashing t = true) as Hre by (apply Z.leb_le; lia).
    destruct (rehashing_inv _ _ _ Hlay Hre) as (Hri&Hlen&Hsz&Hpre&Hbelow&Hload).
    set (i1 := bidx (length (buckets1 t)) key).
    assert (i1 < length (buckets1 t))%nat as Hi1 by (apply bidx_lt; lia).
    destruct (lookup_lt_is_Some_2 (buckets1 t) i1 Hi1) as [p Hp].
    destruct (lookup_lt_is_Some_2 cs1 i1) as [c Hc]; [by rewrite <- (rep_len1 _ _ _ _ _ _ Hrep)|].
    destruct (rep_chain_fuel0 _ _ _ _ _ _ _ _ (rep_sym _ _ _ _ _ _ Hrep) Hc) as [Hnd Hfuel].
    exists B1, i1, p, c. split; [done|]. split; [|done]. split; try done.
    + by apply bucket_get1.
    + eauto using chains_lookup, rep_b1.
    + intros l (e&kp&He&Hk&Hd).
      pose proof (contents_lookup_key _ _ _ _ He Hk) as Hcl.
      destruct (Hdom l e He) as [(j&cj&Hj&Hl)%elem_of_concat_lookup|
                                 (j&cj&Hj&Hl)%elem_of_concat_lookup].
      * assert (bidx (length (buckets0 t)) (k_data kp) = j) as Hb
          by by eapply (lay_place0 _ _ _ Hlay).
        rewrite Hd in Hb. fold i0 in Hb. subst j. rewrite Hpre in Hj by done. simplify_eq.
        by apply not_elem_of_nil in Hl.
      * assert (bidx (length (buckets1 t)) (k_data kp) = j) as Hb
          by by eapply (lay_place1 _ _ _ Hlay).
        rewrite Hd in Hb. fold i1 in Hb. by simplify_eq.
Qed.

Lemma KeyEquals_spec kp key : KeyEquals kp key = bool_decide (k_data kp = key).
Proof. done. Qed.

(** The search returns the first entry of the chain that holds the key. *)
Lemma find_in_chain_spec t key c l fuel :
  wf t → chain (heap t) (Some l) c → (length c ≤ fuel)%nat →
  ∃ r, find_in_chain fuel l key t = Ok r ∧
    match r with
    | Some l' => l' ∈ c ∧ holds t key l'
    | None => ∀ l', l' ∈ c → ¬ holds t key l'
    end.
Proof.
  intros Hwf. revert l fuel. induction c as [|l0 c IH]; intros l fuel Hch Hfuel; [done|].
  destruct Hch as ([= ->]&e&He&Hch). destruct fuel as [|fuel]; [simpl in Hfuel; lia|].
  destruct (wf_entry_key t l0 e Hwf He) as [kp Hk]. simpl.
  rewrite (bind_Ok _ _ _ (entry_get_Ok _ _ _ He)).
  rewrite (bind_Ok _ _ kp) by (unfold GetKey; by rewrite Hk).
  unfold KeyEquals. case_bool_decide as Hd.
  { exists (Some l0). split; [done|]. split; [set_solver|]. by exists e, kp. }
  assert (¬ holds t key l0) as Hn by (intros (e'&kp'&?&?&?); naive_solver).
  destruct (e_next e) as [next|] eqn:Hnext.
  - destruct (IH next fuel) as (r&Hr&Hspec); [done|simpl in Hfuel; lia|].
    exists r. split; [done|]. destruct r; [set_solver|].
    intros l' [->|?]%elem_of_cons; [done|by apply Hspec].
  - exists None. split; [done|]. destruct c; [|by destruct Hch].
    intros l' Hl'. by assert (l' = l0) as -> by set_solver.
Qed.

Lemma FindEntryInBucket_spec t key it :
  wf t → buckets0 t ≠ [] → bucket_for key t it →
  FindEntryInBucket it key t = Ok (fst ∘ fst <$> tview t !! key).
Proof.
  intros Hwf Hne Hit. pose proof Hwf as (cs0&cs1&Hlay).
  destruct (bucket_for_chain _ _ _ _ _ Hlay Hne Hit) as (w&i&p&c&->&[Hget Hch Hnd Hfuel Hall]&_).
  assert (∀ l, holds t key l → fst ∘ fst <$> tview t !! key = Some l) as Hsome.
  { intros l (kp&v&Ht)%holds_tview; [|done]. by rewrite Ht. }
  assert ((∀ l, l ∈ c → ¬ holds t key l) → fst ∘ fst <$> tview t !! key = None) as Hnone.
  { intros Hno. destruct (tview t !! key) as [[[l kp] v]|] eqn:E; [|done].
    assert (holds t key l) as Hl by (apply holds_tview; eauto).
    destruct (Hno l); [by apply Hall|done]. }
  unfold FindEntryInBucket. rewrite (bind_Ok _ _ _ Hget). destruct p as [l|].
  - destruct (find_in_chain_spec t key c l (size (heap t)) Hwf Hch Hfuel) as (r&->&Hr).
    f_equal. destruct r as [l0|]; symmetry; [apply Hsome, Hr|by apply Hnone].
  - f_equal. symmetry. apply Hnone. destruct c; [|by destruct Hch]. intros l. set_solver.
Qed.

(** The search of [EraseEntryInBucket] splits the chain at the entry. *)
Lemma erase_search_spec t key c l fuel s :
  wf t → chain (heap t) (Some l) c → (length c ≤ fuel)%nat →
  ∃ r, erase_search fuel s l key t = Ok r ∧
    match r with
    | Some (s', l') => holds t key l' ∧ ∃ c1 c2, c = c1 ++ l' :: c2 ∧
        s' = match last c1 with None => s | Some l0 => SlotNext l0 end
    | None => ∀ l', l' ∈ c → ¬ holds t key l'
    end.
Proof.
  intros Hwf. revert l fuel s. induction c as [|l0 c IH]; intros l fuel s Hch Hfuel; [done|].
  destruct Hch as ([= ->]&e&He&Hch). destruct fuel as [|fuel]; [simpl in Hfuel; lia|].
  destruct (wf_entry_key t l0 e Hwf He) as [kp Hk]. simpl.
  rewrite (bind_Ok _ _ _ (entry_get_Ok _ _ _ He)).
  rewrite (bind_Ok _ _ kp) by (unfold GetKey; by rewrite Hk).
  unfold KeyEquals. case_bool_decide as Hd.
  { exists (Some (s, l0)). split; [done|]. split; [by exists e, kp|]. by exists [], c. }
  assert (¬ holds t key l0) as Hn by (intros (e'&kp'&?&?&?); naive_solver).
  destruct (e_next e) as [next|] eqn:Hnext.
  - destruct (IH next fuel (SlotNext l0)) as (r&Hr&Hspec); [done|simpl in Hfuel; lia|].
    exists r. split; [done|]. destruct r as [[s' l']|].
    + destruct Hspec as (Hh&c1&c2&->&Hs). split; [done|]. exists (l0 :: c1), c2.
      split; [done|]. rewrite Hs. rewrite last_cons. by destruct (last c1).
    + intros l' [->|?]%elem_of_cons; [done|by apply Hspec].
  - exists None. split; [done|]. destruct c; [|by destruct Hch].
    intros l' Hl'. by assert (l' = l0) as -> by set_solver.
Qed.
End search.

(** ** Unlinking an entry *)

Section unlink.
Context {V : Type} `{!Inhabited V} `{!BuildMode} `{!HashFn}.
Implicit Types (t : HashTable V) (h : gmap loc (Entry V)).

Lemma chain_app h p c1 l c2 :
  chain h p (c1 ++ l :: c2) → ∃ e, h !! l = Some e ∧ chain h (e_next e) c2.
Proof.
  revert p. induction c1 as [|l1 c1 IH]; intros p; simpl.
  - intros (_&e&?&?). by exists e.
  - intros (_&e&_&Hc). by eapply IH.
Qed.

(** Redirecting the link before [l] around it. *)
Lemma chain_bypass h p c1 l0 l c2 e0 e :
  chain h p (c1 ++ l0 :: l :: c2) → NoDup (c1 ++ l0 :: l :: c2) →
  h !! l0 = Some e0 → h !! l = Some e →
  chain (<[l0 := with_next (e_next e) e0]> h) p (c1 ++ l0 :: c2).
Proof.
  revert p. induction c1 as [|l1 c1 IH]; intros p Hc Hnd Hl0 Hl; simpl in *.
  - destruct Hc as (->&e0'&He0'&_&e'&He'&Hc). simplify_eq. split; [done|].
    eexists. rewrite lookup_insert_eq. split; [done|]. simpl.
    apply chain_insert_fresh; [done|]. apply NoDup_cons in Hnd as [? _]. set_solver.
  - destruct Hc as (->&e1&He1&Hc). apply NoDup_cons in Hnd as [Hn Hnd]. split; [done|].
    exists e1. rewrite lookup_insert_ne by set_solver. split; [done|]. by apply IH.
Qed.

(** Replacing the chain of bucket [i] of the first vector by one without [l]. *)
Lemma rep_remove0 h h' b0 b1 cs0 cs1 i p' c c' l :
  rep h b0 b1 [] cs0 cs1 → cs0 !! i = Some c → c ≡ₚ l :: c' → chain h' p' c' →
  h' !! l = None → (∀ l', l' ∉ c → h' !! l' = h !! l') →
  rep h' (<[i:=p']> b0) b1 [] (<[i:=c']> cs0) cs1.
Proof.
  intros [Hb0 Hb1 Hnd Hdom] Hc Hperm Hch Hl Hfr.
  assert (concat cs0 ++ concat cs1 ≡ₚ l :: concat (<[i:=c']> cs0) ++ concat cs1) as Hp.
  { rewrite (concat_insert_perm_rem cs0 i c c' [l]) at 1 by (done || by rewrite Hperm). done. }
  assert (concat cs0 ++ concat cs1 ≡ₚ c ++ (concat (<[i:=[]]> cs0) ++ concat cs1)) as Hp2.
  { rewrite (concat_insert_perm_rem cs0 i c [] c) at 1 by (done || by rewrite app_nil_r).
    by rewrite app_assoc. }
  simpl in Hnd. pose proof Hnd as Hnd2. rewrite Hp2 in Hnd2. apply NoDup_app in Hnd2 as (Hndc&Hdis&_).
  assert (∀ l', l' ∈ concat (<[i:=[]]> cs0) ++ concat cs1 → l' ∉ c) as Hout by set_solver.
  split.
  - rewrite <- (list_insert_insert_eq cs0 i c' []), <- (list_insert_insert_eq b0 i p' None).
    apply Forall2_insert; [|done]. eapply chains_frame.
    + by apply (Forall2_insert _ _ _ None [] i Hb0).
    + intros l' Hl'. apply Hfr, Hout. set_solver.
  - eapply chains_frame; [done|]. intros l' Hl'. apply Hfr, Hout. set_solver.
  - rewrite Hp in Hnd. by apply NoDup_cons in Hnd as [_ ?].
  - intros l'. simpl. split.
    + intros Hs. destruct (decide (l' = l)) as [->|Hne]; [rewrite Hl in Hs; by destruct Hs|].
      destruct (decide (l' ∈ c)) as [Hin|Hin].
      * rewrite Hperm in Hin. apply elem_of_cons in Hin as [?|?]; [done|].
        rewrite elem_of_app. left. apply elem_of_concat_lookup. exists i, c'.
        split; [|done]. apply list_lookup_insert_eq. by eapply lookup_lt_Some.
      * rewrite Hfr in Hs by done. apply Hdom in Hs. simpl in Hs. rewrite Hp in Hs. set_solver.
    + intros Hin. assert (l' ∈ l :: concat (<[i:=c']> cs0) ++ concat cs1) as Hin' by set_solver.
      rewrite <- Hp, Hp2 in Hin'. apply elem_of_app in Hin' as [Hlc|Hout'].
      * rewrite Hperm in Hlc. apply elem_of_cons in Hlc as [->|Hlc]; [|by eapply chain_lookup].
        rewrite Hp in Hnd. apply NoDup_cons in Hnd as [? _]. done.
      * rewrite Hfr by by apply Hout. apply Hdom. simpl. rewrite Hp2. set_solver.
Qed.

(** Heap and slot content after [l], which follows [c1], is unlinked and
    destroyed. *)
Definition unlink_heap h c1 l (e : Entry V) : gmap loc (Entry V) :=
  delete l (match last c1 with
            | None => h
            | Some l0 => match h !! l0 with
                         | Some e0 => <[l0 := with_next (e_next e) e0]> h
                         | None => h
                         end
            end).
Definition unlink_head (p : option loc) (c1 : list loc) (e : Entry V) : option loc :=
  match last c1 with None => e_next e | Some _ => p end.

Lemma unlink_spec h p c1 l c2 e :
  chain h p (c1 ++ l :: c2) → NoDup (c1 ++ l :: c2) → h !! l = Some e →
  chain (unlink_heap h c1 l e) (unlink_head p c1 e) (c1 ++ c2) ∧
  unlink_heap h c1 l e !! l = None ∧
  (∀ l', l' ∉ c1 ++ l :: c2 → unlink_heap h c1 l e !! l' = h !! l') ∧
  content <$> unlink_heap h c1 l e = delete l (content <$> h).
Proof.
  intros Hc Hnd Hl. unfold unlink_heap, unlink_head. rewrite lookup_delete_eq.
  assert (l ∉ c1 ++ c2) as Hnl.
  { apply NoDup_app in Hnd as (_&Hd&Hnd). apply NoDup_cons in Hnd as [? _].
    rewrite elem_of_app. intros [?|?]; [|done]. by apply (Hd l); [|left]. }
  destruct (last c1) as [l0|] eqn:Hlast.
  - apply last_Some in Hlast as [c1' ->]. rewrite <- app_assoc in *. simpl in *.
    destruct (chain_app _ _ _ _ _ Hc) as (e0&He0&_). rewrite He0.
    assert (l ≠ l0) by set_solver. split_and!.
    + eapply chain_frame; [by apply (chain_bypass h p c1' l0 l c2 e0 e)|].
      intros l' Hl'. rewrite lookup_delete_ne; [done|]. set_solver.
    + done.
    + intros l' Hl'. rewrite lookup_delete_ne, lookup_insert_ne by set_solver. done.
    + by rewrite fmap_delete, content_with_next.
  - apply last_None in Hlast as ->. simpl in *. destruct Hc as (_&e'&?&Hc). simplify_eq.
    split_and!.
    + eapply chain_frame; [done|]. intros l' Hl'. rewrite lookup_delete_ne; [done|]. set_solver.
    + done.
    + intros l' Hl'. rewrite lookup_delete_ne by set_solver. done.
    + by rewrite fmap_delete.
Qed.

Definition bucket_upd (w : which) (i : nat) (p : option loc) t : HashTable V :=
  match w with
  | B0 => set_buckets0 (<[i:=p]> (buckets0 t)) t
  | B1 => set_buckets1 (<[i:=p]> (buckets1 t)) t
  end.

Definition bucket_at (w : which) (i : nat) t : option (option loc) :=
  match w with B0 => buckets0 t !! i | B1 => buckets1 t !! i end.

Lemma bucket_set_upd w i p t :
  is_Some (bucket_at w i t) → bucket_set (w, Z.of_nat i) p t = Ok (bucket_upd w i p t).
Proof.
  intros [q Hq]. destruct w; [apply bucket_set0|apply bucket_set1]; by eapply lookup_lt_Some.
Qed.

(** The memory effect of a successful erase. *)
Lemma EraseEntryInBucket_found t key w i p c l e :
  wf t → bucket_chain t key (w, Z.of_nat i) p c → bucket_at w i t = Some p →
  holds t key l → heap t !! l = Some e →
  ∃ c1 c2, c = c1 ++ l :: c2 ∧
  EraseEntryInBucket (w, Z.of_nat i) key t
    = Ok (true, set_heap (unlink_heap (heap t) c1 l e) (bucket_upd w i (unlink_head p c1 e) t)).
Proof.
  intros Hwf [Hget Hch Hnd Hfuel Hall] Hat Hl He. unfold EraseEntryInBucket.
  rewrite (bind_Ok _ _ _ Hget). pose proof (Hall l Hl) as Hlc.
  destruct p as [l0|]; [|destruct c; [by apply not_elem_of_nil in Hlc|by destruct Hch]].
  destruct (erase_search_spec t key _ l0 (size (heap t)) (SlotBucket (w, Z.of_nat i)) Hwf Hch Hfuel)
    as (r&Hr&Hspec).
  destruct r as [[s' l']|]; [|by destruct (Hspec l)].
  destruct Hspec as (Hl'&c1&c2&->&Hs').
  assert (l' = l) as ->.
  { apply holds_tview in Hl as (?&?&H1), Hl' as (?&?&H2); [|done..]. by simplify_eq. }
  exists c1, c2. split; [done|]. rewrite (bind_Ok _ _ _ Hr). cbn beta iota.
  rewrite (bind_Ok _ _ _ (entry_get_Ok _ _ _ He)). unfold unlink_heap, unlink_head. subst s'.
  destruct (last c1) as [l1|] eqn:Hlast.
  - apply last_Some in Hlast as [c1' ->]. rewrite <- app_assoc in *. simpl in *.
    destruct (chain_app _ _ _ _ _ Hch) as (e1&He1&_). rewrite He1.
    rewrite (bind_Ok _ _ _ (entry_get_Ok _ _ _ He1)), (bind_Ok _ _ _ (entry_put_Ok _ _ _ _ He1)).
    assert (l ≠ l1). { apply NoDup_app in Hnd as (_&_&[Hnd _]%NoDup_cons). set_solver. }
    unfold Destroy, entry_get. cbn. rewrite lookup_insert_ne, He by done. simpl. do 2 f_equal.
    destruct t, w; unfold bucket_upd, set_heap, set_buckets0, set_buckets1; simpl in *;
      by rewrite list_insert_id.
  - unfold slot_set. rewrite bucket_set_upd by by rewrite Hat.
    unfold Destroy, entry_get. destruct w; cbn; by rewrite He.
Qed.

Lemma EraseEntryInBucket_missing t key w i p c :
  wf t → bucket_chain t key (w, Z.of_nat i) p c → (∀ l, ¬ holds t key l) →
  EraseEntryInBucket (w, Z.of_nat i) key t = Ok (false, t).
Proof.
  intros Hwf [Hget Hch Hnd Hfuel Hall] Hno. unfold EraseEntryInBucket.
  rewrite (bind_Ok _ _ _ Hget). destruct p as [l0|]; [|done].
  destruct (erase_search_spec t key _ l0 (size (heap t)) (SlotBucket (w, Z.of_nat i)) Hwf Hch Hfuel)
    as (r&Hr&Hspec).
  rewrite (bind_Ok _ _ _ Hr). destruct r as [[s' l']|]; [|done]. by destruct (Hno l'), Hspec.
Qed.
End unlink.

(** ** Erase *)

Section erase.
Context {V : Type} `{!Inhabited V} `{!BuildMode} `{!HashFn}.
Implicit Types (t : HashTable V).

Lemma place_shrink n cs i c c' (m m' : gmap loc (option KeyPtr * V)) :
  place n cs m → cs !! i = Some c → (∀ l, l ∈ c' → l ∈ c) →
  (∀ l x, m' !! l = Some x → m !! l = Some x) → place n (<[i:=c']> cs) m'.
Proof.
  intros Hp Hc Hsub Hm j cj l kp v Hj Hl Hk.
  apply list_lookup_insert_Some in Hj as [(<-&<-&_)|[? Hj]]; [eapply (Hp i c)|eapply (Hp j cj)]; eauto.
Qed.

Lemma place_mono n cs (m m' : gmap loc (option KeyPtr * V)) :
  place n cs m → (∀ l x, m' !! l = Some x → m !! l = Some x) → place n cs m'.
Proof. intros Hp Hm i c l kp v Hi Hl Hk. eapply Hp; eauto. Qed.

(** The table after a successful erase satisfies the invariant. *)
Lemma erase_wf t cs0 cs1 key w i p c1 l c2 e :
  lay t cs0 cs1 → bucket_chain t key (w, Z.of_nat i) p (c1 ++ l :: c2) → heap t !! l = Some e →
  holds t key l →
  match w with
  | B0 => cs0 !! i = Some (c1 ++ l :: c2) ∧ rehash_index_ t ≤ Z.of_nat i
  | B1 => cs1 !! i = Some (c1 ++ l :: c2) ∧ IsRehashing t = true
  end →
  wf (set_entries (entries_ t - 1)
       (set_heap (unlink_heap (heap t) c1 l e) (bucket_upd w i (unlink_head p c1 e) t))).
Proof.
  intros Hlay [Hget Hch Hnd Hfuel Hall] He Hl Hw.
  destruct (unlink_spec _ _ _ _ _ _ Hch Hnd He) as (Hch'&Hnone&Hfr&Hcont).
  set (h' := unlink_heap (heap t) c1 l e) in *. set (p' := unlink_head p c1 e) in *.
  assert (c1 ++ l :: c2 ≡ₚ l :: c1 ++ c2) as Hperm by by rewrite Permutation_middle.
  assert (keys_ok (content <$> h') (next_loc t)) as Hkeys'.
  { pose proof (ex_intro _ _ (ex_intro _ _ Hlay) : wf t) as Hwf.
    apply holds_tview in Hl as (kp&v&Hl); [|done].
    rewrite Hcont. by apply (view_of_delete _ _ _ _ _ _ (wf_keys _ Hwf) Hl). }
  assert (∀ l x, (content <$> h') !! l = Some x → contents t !! l = Some x) as Hsub.
  { intros l' x. rewrite Hcont. by intros [_ ?]%lookup_delete_Some. }
  assert (Z.of_nat (size h') = entries_ t - 1) as Hsize.
  { rewrite (lay_count _ _ _ Hlay), <- (map_size_fmap content h'), Hcont.
    rewrite map_size_delete_Some by (rewrite lookup_fmap, He; by eexists).
    rewrite map_size_fmap. assert (size (heap t) ≠ 0)%nat; [|lia].
    intros E%map_size_empty_inv. rewrite E in He. done. }
  destruct Hlay as [Hrep Hkeys Hp0 Hp1 Hcnt Hpow Hre].
  destruct w; destruct Hw as [Hc Hri].
  - exists (<[i:=c1 ++ c2]> cs0), cs1.
    assert (rep h' (<[i:=p']> (buckets0 t)) (buckets1 t) [] (<[i:=c1 ++ c2]> cs0) cs1) as Hrep'
      by by eapply rep_remove0.
    split; cbn; unfold contents, size0; cbn; rewrite ?length_insert; try done.
    + eapply place_shrink; [done|done|set_solver|done].
    + by eapply place_mono.
    + unfold rehash_state, size0, size1, contents in *. cbn. rewrite !length_insert.
      destruct Hre as [(?&?&?)|(?&?&?&Hpre&?&?)]; [left; split_and!; [done|done|lia]|right].
      split_and!; [lia|lia|done|done| | |lia].
      * intros j Hj. rewrite list_lookup_insert_ne by lia. by apply Hpre.
      * eauto.
  - exists cs0, (<[i:=c1 ++ c2]> cs1).
    assert (rep h' (buckets0 t) (<[i:=p']> (buckets1 t)) [] cs0 (<[i:=c1 ++ c2]> cs1)) as Hrep'.
    { apply rep_sym. eapply rep_remove0; [by apply rep_sym|done..]. }
    split; cbn; unfold contents, size0; cbn; rewrite ?length_insert; try done.
    + by eapply place_mono.
    + eapply place_shrink; [done|done|set_solver|done].
    + apply Z.leb_le in Hri. unfold rehash_state, size0, size1, contents in *. cbn.
      rewrite !length_insert.
      destruct Hre as [(?&?&?)|(?&?&?&Hpre&Hbelow&?)]; [lia|right].
      split_and!; [lia|lia|done|done|done| |lia].
      intros l' kp v Hl' Hk. eapply Hbelow; [|by eauto].
      rewrite (concat_insert_perm_rem cs1 i (c1 ++ l :: c2) (c1 ++ c2) [l]) by done. set_solver.
Qed.

Lemma wf_no_buckets t : wf t → buckets0 t = [] → heap t = ∅ ∧ IsRehashing t = false ∧ buckets1 t = [].
Proof.
  intros (cs0&cs1&[Hrep _ _ _ _ _ Hre]) Hb. unfold rehash_state, size0 in Hre. rewrite Hb in *.
  destruct Hre as [(Hri&H1&_)|(?&_)]; [|simpl in *; lia]. rewrite H1 in *.
  split; [|split; [unfold IsRehashing; by rewrite Hri|done]].
  pose proof (rep_len0 _ _ _ _ _ _ Hrep) as L0. pose proof (rep_len1 _ _ _ _ _ _ Hrep) as L1.
  destruct cs0, cs1; try done. apply map_eq. intros l. rewrite lookup_empty.
  destruct (heap t !! l) eqn:E; [|done].
  assert (l ∈ ([] : list loc)) as Hin by (apply (rep_dom _ _ _ _ _ _ Hrep); by rewrite E).
  by apply not_elem_of_nil in Hin.
Qed.

Lemma tview_no_buckets t : wf t → buckets0 t = [] → tview t = ∅.
Proof.
  intros Hwf Hb. destruct (wf_no_buckets t Hwf Hb) as (Hh&_). unfold tview, contents. by rewrite Hh.
Qed.

Lemma wf_entries_pos t l e : wf t → heap t !! l = Some e → 1 ≤ entries_ t < 2 ^ 64.
Proof.
  intros Hwf He. pose proof (wf_entries_bound t Hwf). destruct Hwf as (cs0&cs1&Hlay).
  pose proof (lay_count _ _ _ Hlay). assert (size (heap t) ≠ 0)%nat; [|lia].
  intros E%map_size_empty_inv. rewrite E in He. done.
Qed.

(** [Erase] removes the key from the map and reports whether it was there. *)
Lemma Erase_tview key t :
  wf t →
  ∃ t', Erase key t = Ok (bool_decide (is_Some (tview t !! key)), t') ∧ wf t' ∧
    tview t' = delete key (tview t) ∧ next_loc t' = next_loc t ∧ ht_id t' = ht_id t.
Proof.
  intros Hwf. unfold Erase. case_bool_decide as Hb.
  { exists t. rewrite tview_no_buckets by done. rewrite lookup_empty, delete_empty. done. }
  destruct (FindBucket_spec key t Hwf Hb) as (it&t1&Hfb&(Hwf1&Hrel&_)&Hit&Hne1).
  rewrite (bind_Ok _ _ _ Hfb). cbn beta iota.
  rewrite <- (relinked_tview _ _ Hrel). destruct Hrel as (Hid&Hnl&Hcon&Hent).
  pose proof Hwf1 as (cs0&cs1&Hlay).
  destruct (bucket_for_chain _ _ _ _ _ Hlay Hne1 Hit) as (w&i&p&c&->&Hbc&Hw).
  destruct (tview t1 !! key) as [[[l kp] v]|] eqn:Hk.
  - assert (holds t1 key l) as Hh by (apply holds_tview; eauto).
    pose proof Hk as (e&He&_)%tview_lookup; [|done].
    destruct (EraseEntryInBucket_found t1 key w i p c l e) as (c1&c2&->&Heq); try done.
    { destruct w; simpl; by destruct_and!. }
    rewrite (bind_Ok _ _ _ Heq). cbn beta iota.
    rewrite bool_decide_eq_true_2 by by eexists. eexists. split; [reflexivity|].
    pose proof (wf_entries_pos _ _ _ Hwf1 He).
    assert (∀ u, entries_ (set_heap u (bucket_upd w i (unlink_head p c1 e) t1)) = entries_ t1) as ->
      by by destruct w.
    rewrite u64_small by lia.
    split; [eapply erase_wf; try done; destruct w; tauto|].
    destruct Hbc as [Hget Hch Hnd _ _].
    destruct (unlink_spec _ _ _ _ _ _ Hch Hnd He) as (_&_&_&Hcont).
    split; [|destruct w; cbn; by rewrite Hid, Hnl]. unfold tview, contents. cbn. rewrite Hcont.
    by apply (view_of_delete _ _ _ _ _ _ (wf_keys _ Hwf1) Hk).
  - rewrite (EraseEntryInBucket_missing t1 key w i p c); [|done|done|].
    2:{ intros l Hh. apply holds_tview in Hh as (?&?&?); [|done]. congruence. }
    cbn. rewrite delete_id by done. exists t1. done.
Qed.
End erase.

(** ** Linking a new entry *)

Section create.
Context {V : Type} `{!Inhabited V} `{!BuildMode} `{!HashFn}.
Implicit Types (t : HashTable V) (h : gmap loc (Entry V)).

(** A newly allocated entry is held by a local variable. *)
Lemma rep_alloc h b0 b1 cs0 cs1 l e :
  rep h b0 b1 [] cs0 cs1 → h !! l = None → rep (<[l:=e]> h) b0 b1 [l] cs0 cs1.
Proof.
  intros [Hb0 Hb1 Hnd Hdom] Hl. simpl in *.
  assert (l ∉ concat cs0 ++ concat cs1) as Hn.
  { intros Hin. apply Hdom in Hin as [? ?]. congruence. }
  assert (∀ l' (ls : list loc), l' ∈ ls → l ∉ ls → <[l:=e]> h !! l' = h !! l') as Hfr.
  { intros l' ls Hin Hnin. rewrite lookup_insert_ne; [done|]. by intros ->. }
  split.
  - eapply chains_frame; [done|]. intros. eapply Hfr; [done|]. set_solver.
  - eapply chains_frame; [done|]. intros. eapply Hfr; [done|]. set_solver.
  - simpl. by apply NoDup_cons.
  - intros l'. simpl. rewrite elem_of_cons, <- Hdom, lookup_insert.
    case_decide; naive_solver.
Qed.

Definition linked (w : which) (i : nat) (ko : option KeyPtr) (p : option loc) t : HashTable V :=
  bucket_upd w i (Some (next_loc t))
    (mkHT (ht_id t) (<[next_loc t := mkEntry ko inhabitant p]> (heap t)) (Pos.succ (next_loc t))
      (buckets0 t) (buckets1 t) (entries_ t) (rehash_index_ t)).

Lemma CreateEntryInBucket_eq t w i p key b :
  bucket_at w i t = Some p →
  CreateEntryInBucket (w, Z.of_nat i) key b t
    = Ok (next_loc t,
          linked w i (if b then Some (mkKeyPtr (ht_id t) (next_loc t) key) else None) p t).
Proof.
  intros Hat. unfold CreateEntryInBucket. simpl.
  set (t1 := mkHT _ _ _ _ _ _ _).
  rewrite (bind_Ok _ _ p) by (destruct w; [apply (bucket_get0 t1)|apply (bucket_get1 t1)]; done).
  unfold entry_get. cbn [heap t1]. rewrite lookup_insert_eq. cbn [mbind outcome_bind].
  unfold entry_put. cbn [heap t1]. rewrite lookup_insert_eq. cbn [mbind outcome_bind].
  rewrite bucket_set_upd by (destruct w; simpl in *; by rewrite Hat). cbn.
  unfold linked, t1, set_heap. cbn. rewrite insert_insert_eq. by destruct b, w.
Qed.

(** There is a free share of the current vector for one more entry. *)
Definition room t : Prop :=
  if IsRehashing t then 2 * (entries_ t + 1 - size0 t) ≤ rehash_index_ t
  else entries_ t < size0 t.

Lemma fresh_None t : wf t → heap t !! next_loc t = None.
Proof.
  intros Hwf. destruct (heap t !! next_loc t) as [e|] eqn:E; [|done].
  pose proof (ko_fresh _ _ (wf_keys _ Hwf) _ _ (contents_lookup _ _ _ E)). lia.
Qed.

Lemma link_rep h b0 b1 cs0 cs1 l ko v w i p c :
  rep h b0 b1 [] cs0 cs1 → h !! l = None →
  match w with
  | B0 => b0 !! i = Some p ∧ cs0 !! i = Some c
  | B1 => b1 !! i = Some p ∧ cs1 !! i = Some c
  end →
  match w with
  | B0 => rep (<[l := mkEntry ko v p]> h) (<[i:=Some l]> b0) b1 [] (<[i:=l :: c]> cs0) cs1
  | B1 => rep (<[l := mkEntry ko v p]> h) b0 (<[i:=Some l]> b1) [] cs0 (<[i:=l :: c]> cs1)
  end.
Proof.
  intros Hrep Hl Hw. set (e := mkEntry ko v None).
  assert (<[l := mkEntry ko v p]> h = <[l := with_next p e]> (<[l := e]> h)) as ->
    by by rewrite insert_insert_eq.
  pose proof (rep_alloc _ _ _ _ _ l e Hrep Hl) as Ha.
  destruct w; destruct Hw as [Hp Hc].
  - apply rep_sym. eapply rep_push1; [by apply rep_sym|by rewrite lookup_insert_eq|done|done].
  - eapply rep_push1; [done|by rewrite lookup_insert_eq|done|done].
Qed.

Lemma place_new n cs (m : gmap loc (option KeyPtr * V)) i c l kp v :
  place n cs m → cs !! i = Some c → (∀ j cj, cs !! j = Some cj → l ∉ cj) →
  bidx n (k_data kp) = i → place n (<[i:=l :: c]> cs) (<[l:=(Some kp, v)]> m).
Proof.
  intros Hp Hc Hf Hb. eapply place_insert; [|done|by rewrite lookup_insert_eq|done].
  intros j cj l' kp' v' Hj Hl' Hk. rewrite lookup_insert_ne in Hk; [by eapply Hp|].
  intros ->. by eapply Hf.
Qed.

Lemma place_other n cs (m : gmap loc (option KeyPtr * V)) l x :
  place n cs m → (∀ j cj, cs !! j = Some cj → l ∉ cj) → place n cs (<[l:=x]> m).
Proof.
  intros Hp Hf j cj l' kp' v' Hj Hl' Hk. rewrite lookup_insert_ne in Hk; [by eapply Hp|].
  intros ->. by eapply Hf.
Qed.

Lemma link_wf t cs0 cs1 key kp w i p c :
  lay t cs0 cs1 → room t → tview t !! key = None → k_data kp = key →
  match w with
  | B0 => buckets0 t !! i = Some p ∧ cs0 !! i = Some c ∧ rehash_index_ t ≤ Z.of_nat i ∧
          i = bidx (length (buckets0 t)) key
  | B1 => buckets1 t !! i = Some p ∧ cs1 !! i = Some c ∧ IsRehashing t = true ∧
          i = bidx (length (buckets1 t)) key ∧
          Z.of_nat (bidx (length (buckets0 t)) key) < rehash_index_ t
  end →
  let t' := set_entries (entries_ t + 1) (linked w i (Some kp) p t) in
  wf t' ∧ tview t' = <[key := (next_loc t, kp, inhabitant)]> (tview t).
Proof.
  intros Hlay Hroom Hnone <- Hw t'.
  pose proof (ex_intro _ _ (ex_intro _ _ Hlay) : wf t) as Hwf.
  pose proof (fresh_None t Hwf) as Hfresh. set (l := next_loc t) in *.
  destruct (view_of_insert_new _ _ l kp inhabitant (wf_keys _ Hwf) ltac:(lia) Hnone) as [Hkeys' Hview'].
  assert (contents t' = <[l := (Some kp, inhabitant)]> (contents t)) as Hcont.
  { unfold contents, t', linked. destruct w; cbn; by rewrite fmap_insert. }
  split; [|unfold tview; by rewrite Hcont, Hview'].
  destruct Hlay as [Hrep Hkeys Hp0 Hp1 Hcnt Hpow Hre].
  assert (∀ l', l' ∈ concat cs0 ++ concat cs1 → l' ≠ l) as Hnl.
  { intros l' Hin ->. apply (rep_dom _ _ _ _ _ _ Hrep) in Hin as [? ?]. congruence. }
  assert (∀ j cj, cs0 !! j = Some cj → l ∉ cj) as Hf0.
  { intros j cj Hj Hin. apply (Hnl l); [|done]. apply elem_of_app. left.
    apply elem_of_concat_lookup. eauto. }
  assert (∀ j cj, cs1 !! j = Some cj → l ∉ cj) as Hf1.
  { intros j cj Hj Hin. apply (Hnl l); [|done]. apply elem_of_app. right.
    apply elem_of_concat_lookup. eauto. }
  assert (Z.of_nat (size (<[l := mkEntry (Some kp) inhabitant p]> (heap t))) = entries_ t + 1) as Hsize.
  { rewrite map_size_insert_None by done. lia. }
  pose proof (link_rep _ _ _ _ _ l (Some kp) inhabitant w i p c Hrep Hfresh) as Hlr.
  unfold room, IsRehashing in Hroom.
  destruct w; destruct_and!.
  - exists (<[i:=l :: c]> cs0), cs1. split; rewrite ?Hcont; cbn; unfold size0; cbn;
      rewrite ?length_insert; try done.
    + by apply Hlr.
    + by apply place_new.
    + by apply place_other.
    + unfold rehash_state, size0, size1 in *. rewrite Hcont. cbn. rewrite !length_insert.
      destruct Hre as [(Hri&?&?)|(?&?&?&Hpre&Hbelow&?)].
      * rewrite Hri in *. left. split_and!; [done|done|]. cbn in Hroom. lia.
      * rewrite Zleb_t in Hroom by lia. right. split_and!; [lia|lia|done|done| | |lia].
        -- intros j Hj. rewrite list_lookup_insert_ne by lia. by apply Hpre.
        -- intros l' kp' v' Hl'. rewrite lookup_insert_ne; [by apply Hbelow|].
           apply not_eq_sym, Hnl. set_solver.
  - exists cs0, (<[i:=l :: c]> cs1). split; rewrite ?Hcont; cbn; unfold size0; cbn;
      rewrite ?length_insert; try done.
    + by apply Hlr.
    + by apply place_other.
    + by apply place_new.
    + unfold rehash_state, size0, size1, IsRehashing in *. rewrite Hcont. cbn. rewrite !length_insert.
      destruct Hre as [(Hri&?&?)|(?&?&?&Hpre&Hbelow&?)]; [rewrite Hri in *; done|].
      rewrite Zleb_t in Hroom by lia. right. split_and!; [lia|lia|done|done|done| |lia].
      intros l' kp' v' Hl' Hk. rewrite (concat_insert_perm cs1 i c (l :: c) [l]) in Hl' by done.
      apply elem_of_cons in Hl' as [->|Hl'].
      * rewrite lookup_insert_eq in Hk. by simplify_eq.
      * rewrite lookup_insert_ne in Hk; [by eapply Hbelow|]. apply not_eq_sym, Hnl. set_solver.
Qed.
End create.

(** ** Writing through an entry pointer *)

Section write.
Context {V : Type} `{!Inhabited V} `{!BuildMode} `{!HashFn}.
Implicit Types (t : HashTable V) (h : gmap loc (Entry V)).

Lemma chain_same_next h p c l e e' :
  chain h p c → h !! l = Some e → e_next e' = e_next e → chain (<[l:=e']> h) p c.
Proof.
  intros Hc Hl He. revert p Hc. induction c as [|l0 c IH]; intros p; simpl; [done|].
  intros (->&e0&He0&Hc). split; [done|]. destruct (decide (l = l0)) as [->|].
  - exists e'. rewrite lookup_insert_eq, He. simplify_eq. auto.
  - exists e0. rewrite lookup_insert_ne by done. auto.
Qed.

Lemma rep_same_next h b0 b1 cs0 cs1 l e e' :
  rep h b0 b1 [] cs0 cs1 → h !! l = Some e → e_next e' = e_next e →
  rep (<[l:=e']> h) b0 b1 [] cs0 cs1.
Proof.
  intros [Hb0 Hb1 Hnd Hdom] Hl He. split; [| |done|].
  - eapply Forall2_impl; [done|]. intros. by eapply chain_same_next.
  - eapply Forall2_impl; [done|]. intros. by eapply chain_same_next.
  - intros l'. rewrite <- Hdom, lookup_insert. case_decide; [subst|done].
    rewrite Hl. split; by eexists.
Qed.

Lemma set_value_tview t key l kp v w :
  wf t → tview t !! key = Some (l, kp, v) →
  ∃ t', set_value l w t = Ok t' ∧ wf t' ∧ tview t' = <[key := (l, kp, w)]> (tview t) ∧
    next_loc t' = next_loc t ∧ ht_id t' = ht_id t ∧ entries_ t' = entries_ t.
Proof.
  intros Hwf Hk. pose proof Hk as (e&He&Hkp&_&Hd)%tview_lookup; [|done].
  unfold set_value. rewrite (bind_Ok _ _ _ (entry_get_Ok _ _ _ He)), (entry_put_Ok _ _ _ _ He).
  eexists. split; [done|].
  destruct (view_of_update _ _ _ _ _ _ w (wf_keys _ Hwf) Hk) as [Hkeys' Hview'].
  set (t' := set_heap _ t).
  assert (contents t' = <[l := (Some kp, w)]> (contents t)) as Hcont.
  { unfold contents, t'. cbn. rewrite fmap_insert. unfold content at 1. cbn. by rewrite Hkp. }
  split; [|split; [unfold tview; by rewrite Hcont|done]].
  destruct Hwf as (cs0&cs1&[Hrep Hkeys Hp0 Hp1 Hcnt Hpow Hre]). exists cs0, cs1.
  assert (∀ l' kp' v', contents t' !! l' = Some (Some kp', v') →
    ∃ v'', contents t !! l' = Some (Some kp', v'')) as Hback.
  { intros l' kp' v'. rewrite Hcont, lookup_insert. case_decide; [|by eauto].
    intros [= <- <-]. subst. exists (e_value e). by apply contents_lookup_key. }
  split; try done.
  - by eapply rep_same_next.
  - by rewrite Hcont.
  - intros i c l' kp' v' Hi Hl' (v''&Hk'')%Hback. by eapply Hp0.
  - intros i c l' kp' v' Hi Hl' (v''&Hk'')%Hback. by eapply Hp1.
  - cbn. rewrite map_size_insert_Some; [done|by eexists].
  - destruct Hre as [?|(?&?&?&?&Hbelow&?)]; [by left|right].
    split; [done|]. split; [done|]. split; [done|]. split; [done|]. split; [|done].
    intros l' kp' v' Hl' (v''&Hk'')%Hback. by eapply Hbelow.
Qed.

Lemma get_value_tview t key l kp v :
  wf t → tview t !! key = Some (l, kp, v) → get_value l t = Ok v.
Proof.
  intros Hwf (e&He&_&<-&_)%tview_lookup; [|done]. unfold get_value.
  by rewrite (bind_Ok _ _ _ (entry_get_Ok _ _ _ He)).
Qed.

Lemma CopyKey_tview t key l kp v :
  wf t → tview t !! key = Some (l, kp, v) → CopyKey l t = Ok kp.
Proof.
  intros Hwf (e&He&Hkp&_&_)%tview_lookup; [|done]. unfold CopyKey.
  rewrite (bind_Ok _ _ _ (entry_get_Ok _ _ _ He)). unfold GetKey. by rewrite Hkp.
Qed.

Lemma tview_key_data t key l kp v : wf t → tview t !! key = Some (l, kp, v) → k_data kp = key.
Proof. by intros Hwf (e&_&_&_&?)%tview_lookup. Qed.

(** Completing an entry created without a key object. *)
Lemma set_key_linked t w i kp p n :
  set_key (next_loc t) kp (set_entries n (linked w i None p t))
    = Ok (set_entries n (linked w i (Some kp) p t)).
Proof.
  unfold set_key, entry_get, entry_put, linked, set_heap, set_entries.
  destruct w; cbn; rewrite lookup_insert_eq; cbn; rewrite ?lookup_insert_eq;
    cbn; by rewrite insert_insert_eq.
Qed.
End write.

(** ** Growing the table *)

Section grow.
Context {V : Type} `{!Inhabited V} `{!BuildMode} `{!HashFn}.
Implicit Types (t : HashTable V).

Lemma rep_replicate (h : gmap loc (Entry V)) n : Forall2 (chain h) (replicate n None) (replicate n []).
Proof. induction n; simpl; by constructor. Qed.

Lemma concat_replicate_nil {A} n : concat (replicate n ([] : list A)) = [].
Proof. by induction n. Qed.

Lemma place_empty n k (m : gmap loc (option KeyPtr * V)) : place n (replicate k []) m.
Proof.
  intros i c l kp v Hi Hl. apply lookup_replicate in Hi as [-> _]. by apply not_elem_of_nil in Hl.
Qed.

(** The first [Expand] allocates four buckets. *)
Lemma Expand_init t :
  wf t → buckets0 t = [] →
  ∃ t', Expand t = Ok (kNoExpand, t') ∧ wf t' ∧ relinked t t' ∧ buckets0 t' ≠ [].
Proof.
  intros Hwf Hb. destruct (wf_no_buckets t Hwf Hb) as (Hh&Hre&H1).
  unfold Expand, NeedsToExpand. rewrite Hre, bool_decide_eq_true_2 by done. simpl.
  eexists. split; [done|]. split; [|done].
  destruct Hwf as (cs0&cs1&[Hrep Hkeys Hp0 Hp1 Hcnt Hpow Hrs]). exists (replicate 4 []), [].
  apply Z.leb_gt in Hre. split; cbn; rewrite ?H1; try done.
  - rewrite Hh. split; [apply (rep_replicate ∅ 4)|constructor|constructor|].
    intros l. rewrite lookup_empty. split; [by intros []|].
    simpl. by intros ?%not_elem_of_nil.
  - apply (place_empty 4 4).
  - right. exists 2. unfold size0. cbn. lia.
  - rewrite Hh, map_size_empty in Hcnt. left. unfold size0. cbn. rewrite H1, Hcnt.
    destruct Hrs as [(->&_)|(?&_)]; [done|lia].
Qed.

(** Starting a rehash: the state handed to [RehashSome]. *)
Lemma start_rehash_wf t :
  wf t → IsRehashing t = false → size0 t = entries_ t → entries_ t < 2 ^ 30 → buckets0 t ≠ [] →
  wf (set_rehash_index 0 (set_buckets1 (replicate (2 * length (buckets0 t)) None) t)).
Proof.
  intros (cs0&cs1&[Hrep Hkeys Hp0 Hp1 Hcnt Hpow Hrs]) Hre Hfull Hsmall Hne.
  apply Z.leb_gt in Hre. apply wf_size0_pos in Hne.
  destruct Hrs as [(Hri&H1&Hload)|(?&_)]; [|lia].
  assert (2 * size0 t ≤ 2 ^ 30) as Hsz.
  { destruct Hpow as [Hz|(k&Hk&Hpow)]; [unfold size0 in *; lia|].
    assert (k < 30) as Hk30; [apply (Z.pow_lt_mono_r_iff 2); lia|]. rewrite Hpow.
    rewrite <- (Z.pow_succ_r 2 k) by lia. apply Z.pow_le_mono_r; lia. }
  rewrite H1 in Hrep, Hp1. pose proof (rep_len1 _ _ _ _ _ _ Hrep) as L1. destruct cs1; [|done].
  exists cs0, (replicate (2 * length (buckets0 t)) []).
  split; cbn -[replicate Nat.mul]; try done.
  - destruct Hrep as [Hb0 _ Hnd Hdom]. rewrite app_nil_r in *.
    split; [done|apply rep_replicate| |]; by rewrite concat_replicate_nil, app_nil_r.
  - apply place_empty.
  - right. unfold size0, size1 in *. cbn -[replicate Nat.mul]. rewrite length_replicate.
    split; [lia|]. split; [done|]. split; [lia|]. split; [lia|]. split; [|lia].
    intros l kp v Hl. rewrite concat_replicate_nil in Hl. by apply not_elem_of_nil in Hl.
Qed.

(** What a call of [Expand] on a table with buckets leaves. *)
Definition expanded t (r : ExpandResult) t' : Prop :=
  wf t' ∧ relinked t t' ∧ buckets0 t' ≠ [] ∧
  ((r = kNoExpand ∧ t' = t ∧ IsRehashing t = false ∧ entries_ t < size0 t) ∨
   (r = kRehashing ∧ t' = t ∧ IsRehashing t = true) ∨
   (r ≠ kNoExpand ∧ IsRehashing t = false ∧
    if IsRehashing t' then entries_ t' = size0 t' ∧ 1 ≤ rehash_index_ t'
    else entries_ t' < size0 t')).

Lemma Expand_spec t :
  wf t → buckets0 t ≠ [] → entries_ t < 2 ^ 30 →
  ∃ r t', Expand t = Ok (r, t') ∧ expanded t r t'.
Proof.
  intros Hwf Hne Hsmall. unfold Expand. destruct (IsRehashing t) eqn:Hre.
  { exists kRehashing, t. unfold expanded. naive_solver. }
  unfold NeedsToExpand. rewrite bool_decide_eq_false_2 by done.
  destruct (Z.leb_spec (size0 t) (entries_ t)) as [Hfull|Hfull]; cbn [negb].
  2:{ exists kNoExpand, t. split; [done|]. unfold expanded. naive_solver. }
  pose proof Hwf as (cs0&cs1&Hlay). apply wf_size0_pos in Hne as Hpos.
  destruct (lay_rehash _ _ _ Hlay) as [(Hri&H1&Hload)|(Hri&_)];
    [|by apply Z.leb_gt in Hre; lia].
  rewrite bind_cassert by by apply bool_decide_eq_true_2. rewrite H1. cbn [app].
  rewrite take_ge by by rewrite length_replicate.
  assert (entries_ t = size0 t) as Hent by lia.
  pose proof (start_rehash_wf t Hwf Hre (eq_sym Hent) Hsmall Hne) as Hwf0.
  set (t1 := set_buckets1 _ t) in *. unfold StartRehashing.
  rewrite bind_cassert by by apply negb_true_iff.
  rewrite bind_cassert.
  2:{ apply negb_true_iff, bool_decide_eq_false_2. unfold t1. cbn -[replicate Nat.mul].
      destruct (2 * length (buckets0 t))%nat eqn:E; [lia|done]. }
  destruct (RehashSome_spec 1 (set_rehash_index 0 t1) Hwf0 eq_refl) as (b&t2&Heq&Hwf2&Hrel&Hpr);
    [lia|lia|].
  rewrite Heq. cbn. do 2 eexists. split; [done|].
  assert (relinked t t2) as Hrel' by done.
  assert (entries_ t2 = entries_ t) as Hent2 by by apply Hrel.
  unfold size0 in *. destruct b; destruct Hpr as (Hre2&Hpr); rewrite Hre2.
  - cbn -[replicate Nat.mul] in Hpr. rewrite length_replicate in Hpr.
    split; [done|]. split; [done|]. split; [intros E; rewrite E in Hpr; simpl in Hpr; lia|].
    right; right. rewrite Hre2. split; [done|]. split; [done|]. unfold size0. lia.
  - destruct Hpr as (Hl0&_&Hlt). cbn in Hl0, Hlt.
    split; [done|]. split; [done|]. split; [intros E; rewrite E in Hl0; simpl in Hl0; lia|].
    right; right. rewrite Hre2. split; [done|]. split; [done|]. unfold size0. lia.
Qed.

(** After a lookup that advances a running rehash, and provided the cursor is
    two steps ahead of the load, there is room for one entry. *)
Lemma quiet_room t t' :
  wf t → quiet t t' →
  (if IsRehashing t then 2 * (entries_ t - size0 t) + 1 ≤ rehash_index_ t
   else entries_ t < size0 t) → room t'.
Proof.
  intros Hwf (Hwf'&(_&_&_&Hent)&Hq) Hpre. unfold room.
  destruct Hq as [[-> Hre]|[Hre [b Hpr]]]; rewrite Hre in *; [done|].
  destruct Hwf as (cs0&cs1&Hlay). destruct (rehashing_inv _ _ _ Hlay Hre) as (Hri&Hlen&_&_&_&Hload).
  unfold size0 in *. destruct b; destruct Hpr as [Hre' Hpr]; rewrite Hre', Hent; [lia|].
  destruct Hpr as (->&_&?). lia.
Qed.

Lemma make_room key t t1 it1 :
  wf t → quiet t t1 → bucket_for key t1 it1 → buckets0 t1 ≠ [] → entries_ t < 2 ^ 30 →
  ∃ r t2 it' t',
    Expand t1 = Ok (r, t2) ∧
    (if bool_decide (r = kNoExpand) then Ok (it1, t2) else FindBucket key t2) = Ok (it', t') ∧
    wf t' ∧ relinked t t' ∧ buckets0 t' ≠ [] ∧ bucket_for key t' it' ∧ room t'.
Proof.
  intros Hwf Hq Hit Hne1 Hsmall. pose proof Hq as (Hwf1&Hrel1&Hq1).
  assert (entries_ t1 = entries_ t) as Hent1 by apply Hrel1.
  destruct (Expand_spec t1 Hwf1 Hne1) as (r&t2&Hex&Hwf2&Hrel2&Hne2&Hcases); [lia|].
  exists r, t2. destruct (decide (r = kNoExpand)) as [->|Hr].
  - destruct Hcases as [(_&->&Hre&Hroom)|[(?&_)|(?&_)]]; [|done|done].
    exists it1, t1. split; [done|]. split; [done|]. unfold room. by rewrite Hre.
  - rewrite bool_decide_eq_false_2 by done.
    destruct (FindBucket_spec key t2 Hwf2 Hne2) as (it'&t'&Hfb&Hq'&Hit'&Hne').
    exists it', t'. split; [done|]. split; [done|]. split; [by apply Hq'|].
    split; [etrans; [done|]; etrans; [done|]; apply Hq'|]. split; [done|]. split; [done|].
    eapply (quiet_room t2); [done|done|].
    destruct Hcases as [(->&_)|[(_&->&Hre)|(_&_&Hcase)]]; [done| |].
    + rewrite Hre. destruct Hq1 as [[-> Hre0]|[Hre0 [b Hpr]]]; [congruence|].
      destruct Hwf as (cs0&cs1&Hlay). destruct (rehashing_inv _ _ _ Hlay Hre0) as (?&_&_&_&_&?).
      destruct b; destruct Hpr as [Hre' Hpr]; [congruence|]. destruct Hpr as (Hl0&_&?).
      unfold size0 in *. rewrite Hl0, Hent1. lia.
    + destruct (IsRehashing t2); lia.
Qed.
End grow.

(** ** The operations as operations on finite maps *)

Section specs.
Context {V : Type} `{!Inhabited V} `{!BuildMode} `{!HashFn}.
Implicit Types (t : HashTable V).

(** The first step of [FindOrCreate]: the entry of [key], if any. *)
Lemma lookup_step key t :
  wf t → buckets0 t ≠ [] →
  ∃ it t1, FindBucket key t = Ok (it, t1) ∧ quiet t t1 ∧ bucket_for key t1 it ∧ buckets0 t1 ≠ [] ∧
    FindEntryInBucket it key t1 = Ok (fst ∘ fst <$> tview t !! key).
Proof.
  intros Hwf Hne. destruct (FindBucket_spec key t Hwf Hne) as (it&t1&Hfb&Hq&Hit&Hne1).
  exists it, t1. split; [done|]. split; [done|]. split; [done|]. split; [done|].
  rewrite <- (relinked_tview t t1) by apply Hq. apply FindEntryInBucket_spec; [apply Hq|done|done].
Qed.

(** Lookup without creation. *)
Lemma FindOrCreate_find key b t :
  wf t →
  ∃ t', FindOrCreate key false b t
          = Ok ((fst ∘ fst <$> tview t !! key, bool_decide (is_Some (tview t !! key))), t') ∧
    wf t' ∧ relinked t t'.
Proof.
  intros Hwf. unfold FindOrCreate. case_bool_decide as Hb; cbn [andb negb].
  { exists t. by rewrite tview_no_buckets, lookup_empty. }
  destruct (lookup_step key t Hwf Hb) as (it&t1&Hfb&Hq&_&_&Hfe). exists t1.
  cbn [mbind outcome_bind]. rewrite (bind_Ok _ _ _ Hfb), (bind_Ok _ _ _ Hfe).
  destruct Hq as (?&?&_). by destruct (tview t !! key).
Qed.

(** [FindOrCreate] with creation, from any well-formed table: the entry
    found, or the memory state before the new entry gets its key. *)
Lemma FindOrCreate_create key b t :
  wf t → entries_ t < 2 ^ 30 →
  match tview t !! key with
  | Some (l, kp, v) =>
      ∃ t', FindOrCreate key true b t = Ok ((Some l, true), t') ∧ wf t' ∧ relinked t t'
  | None =>
      ∃ t1 w i p, relinked t t1 ∧ wf t1 ∧
        (∀ kp, k_data kp = key →
           let t' := set_entries (entries_ t1 + 1) (linked w i (Some kp) p t1) in
           wf t' ∧ tview t' = <[key := (next_loc t, kp, inhabitant)]> (tview t)) ∧
        FindOrCreate key true b t
          = Ok ((Some (next_loc t), false),
                set_entries (entries_ t1 + 1)
                  (linked w i (if b then Some (mkKeyPtr (ht_id t) (next_loc t) key) else None) p t1))
  end.
Proof.
  intros Hwf Hsmall. unfold FindOrCreate. rewrite andb_false_r.
  assert (∃ t0, (if bool_decide (buckets0 t = []) then '(_, u) ← Expand t; Ok u else Ok t) = Ok t0 ∧
    wf t0 ∧ relinked t t0 ∧ buckets0 t0 ≠ []) as (t0&Hpre&Hwf0&Hrel0&Hne0).
  { case_bool_decide as Hb; [|by exists t].
    destruct (Expand_init t Hwf Hb) as (t0&->&?&?&?). by exists t0. }
  rewrite (bind_Ok _ _ _ Hpre). rewrite <- (relinked_tview _ _ Hrel0).
  assert (entries_ t0 = entries_ t) as Hent0 by apply Hrel0.
  destruct (lookup_step key t0 Hwf0 Hne0) as (it&t1&Hfb&Hq&Hit&Hne1&Hfe).
  rewrite (bind_Ok _ _ _ Hfb). cbn beta iota. rewrite (bind_Ok _ _ _ Hfe).
  destruct (tview t0 !! key) as [[[l kp] v]|] eqn:Hk; cbn [fmap option_fmap option_map].
  { exists t1. split; [done|]. split; [apply Hq|]. etrans; [done|apply Hq]. }
  destruct (make_room key t0 t1 it Hwf0 Hq Hit Hne1) as (r&t2&it'&t'&Hex&Hfb'&Hwf'&Hrel'&Hne'&Hit'&Hroom);
    [lia|].
  pose proof Hwf' as (cs0&cs1&Hlay).
  destruct (bucket_for_chain _ _ _ _ _ Hlay Hne' Hit') as (w&i&p&c&->&Hbc&Hw).
  assert (relinked t t') as Hrel by (by etrans).
  assert (tview t' !! key = None) as Hnone by by rewrite (relinked_tview _ _ Hrel').
  pose proof Hrel as (Hid&Hnl&_&Hent).
  assert (bucket_at w i t' = Some p) as Hat by (destruct w; simpl; tauto).
  exists t', w, i, p. split; [done|]. split; [done|]. split.
  - intros kp Hkp. rewrite <- (relinked_tview _ _ Hrel'), <- Hnl. by eapply link_wf.
  - rewrite (bind_Ok _ _ _ Hex). cbn beta iota. rewrite (bind_Ok _ _ _ Hfb'). cbn beta iota.
    rewrite (bind_Ok _ _ _ (CreateEntryInBucket_eq _ _ _ _ key b Hat)). cbn beta iota.
    rewrite Hid, Hnl. pose proof (wf_entries_bound _ Hwf').
    assert (∀ ko, entries_ (linked w i ko p t') = entries_ t') as -> by by destruct w.
    by rewrite u64_small by lia.
Qed.
End specs.

(** ** Specifications in terms of the view *)

Section view_specs.
Context {V : Type} `{!Inhabited V} `{!BuildMode} `{!HashFn}.
Implicit Types (t : HashTable V).

Definition loc_of (x : option (loc * KeyPtr * V)) : option loc := fst ∘ fst <$> x.

Lemma Find_tview key t :
  wf t →
  ∃ t', Find key t = Ok (loc_of (tview t !! key), t') ∧ wf t' ∧ tview t' = tview t ∧
        ht_id t' = ht_id t.
Proof.
  intros Hwf. destruct (FindOrCreate_find key true t Hwf) as (t'&Heq&Hwf'&Hrel).
  exists t'. unfold Find. rewrite (bind_Ok _ _ _ Heq). split; [done|]. split; [done|].
  split; [by apply relinked_tview|apply Hrel].
Qed.

(** The state of the view after [FindOrCreate(key, true)], the location of
    the entry and whether it existed. *)
Definition find_or_create_post key t (l : loc) (ex : bool) t' : Prop :=
  wf t' ∧ ht_id t' = ht_id t ∧
  match tview t !! key with
  | Some (l0, kp, v) => l = l0 ∧ ex = true ∧ tview t' = tview t
  | None => l = next_loc t ∧ ex = false ∧
      tview t' = <[key := (l, mkKeyPtr (ht_id t) l key, inhabitant)]> (tview t)
  end.

Lemma FindOrCreate_tview key t :
  wf t → Count t < 2 ^ 30 →
  ∃ l ex t', FindOrCreate key true true t = Ok ((Some l, ex), t') ∧
    find_or_create_post key t l ex t'.
Proof.
  intros Hwf Hsmall. pose proof (FindOrCreate_create key true t Hwf Hsmall) as Hc.
  unfold find_or_create_post. destruct (tview t !! key) as [[[l kp] v]|].
  - destruct Hc as (t'&Heq&Hwf'&Hrel). exists l, true, t'. split; [done|]. split; [done|].
    split; [apply Hrel|]. split; [done|]. split; [done|]. by apply relinked_tview.
  - destruct Hc as (t1&w&i&p&Hrel&Hwf1&Hk&Heq). do 3 eexists. split; [exact Heq|].
    destruct (Hk (mkKeyPtr (ht_id t) (next_loc t) key) eq_refl) as [Hwf' Htv].
    split; [done|]. split; [|done]. destruct w; cbn; apply Hrel.
Qed.

Lemma find_or_create_lookup key t l ex t' :
  find_or_create_post key t l ex t' → ∃ kp v, tview t' !! key = Some (l, kp, v).
Proof.
  intros (_&_&Hpost). destruct (tview t !! key) as [[[l0 kp] v]|] eqn:E.
  - destruct Hpost as (->&_&->). eauto.
  - destruct Hpost as (_&_&->). rewrite lookup_insert_eq. eauto.
Qed.

(** The key object the entry of [key] has after an upsert by [key]. *)
Definition key_after key t (l : loc) : KeyPtr :=
  match tview t !! key with Some (_, kp, _) => kp | None => mkKeyPtr (ht_id t) l key end.

Definition loc_after key t : loc :=
  match tview t !! key with Some (l, _, _) => l | None => next_loc t end.

Lemma Upsert_tview key v t :
  wf t → Count t < 2 ^ 30 →
  ∃ t', Upsert key v t
          = Ok ((Some (loc_after key t), bool_decide (is_Some (tview t !! key))), t') ∧ wf t' ∧
    ht_id t' = ht_id t ∧
    tview t' = <[key := (loc_after key t, key_after key t (loc_after key t), v)]> (tview t).
Proof.
  intros Hwf Hsmall. destruct (FindOrCreate_tview key t Hwf Hsmall) as (l&ex&t1&Heq&Hpost).
  destruct (find_or_create_lookup _ _ _ _ _ Hpost) as (kp&v0&Hl). destruct Hpost as (Hwf1&Hid&Hpost).
  destruct (set_value_tview t1 key l kp v0 v Hwf1 Hl) as (t'&Hset&Hwf'&Htv&Hnl&Hid'&_).
  exists t'. unfold Upsert. rewrite (bind_Ok _ _ _ Heq). cbn beta iota. cbn [deref].
  rewrite (bind_Ok _ _ _ eq_refl), (bind_Ok _ _ _ Hset), Htv, Hid', Hid.
  unfold loc_after, key_after. destruct (tview t !! key) as [[[l0 kp0] v1]|] eqn:E.
  - destruct Hpost as (->&->&Ht1). rewrite Ht1 in *. by simplify_eq.
  - destruct Hpost as (->&->&Ht1). rewrite Ht1 in *. rewrite lookup_insert_eq in Hl. simplify_eq.
    by rewrite insert_insert_eq.
Qed.

Lemma Insert_tview key v t :
  wf t → Count t < 2 ^ 30 →
  ∃ t', Insert key v t
          = Ok ((Some (loc_after key t), bool_decide (tview t !! key = None)), t') ∧ wf t' ∧
    ht_id t' = ht_id t ∧
    tview t' = match tview t !! key with
               | Some _ => tview t
               | None => <[key := (next_loc t, mkKeyPtr (ht_id t) (next_loc t) key, v)]> (tview t)
               end.
Proof.
  intros Hwf Hsmall. destruct (FindOrCreate_tview key t Hwf Hsmall) as (l&ex&t1&Heq&Hpost).
  destruct (find_or_create_lookup _ _ _ _ _ Hpost) as (kp&v0&Hl). destruct Hpost as (Hwf1&Hid&Hpost).
  destruct (set_value_tview t1 key l kp v0 v Hwf1 Hl) as (t'&Hset&Hwf'&Htv&Hnl&Hid'&_).
  unfold Insert. rewrite (bind_Ok _ _ _ Heq). cbn beta iota. unfold loc_after.
  destruct (tview t !! key) as [[[l0 kp0] v1]|] eqn:E.
  - destruct Hpost as (->&->&Ht1). exists t1. done.
  - destruct Hpost as (->&->&Ht1). exists t'. cbn [deref]. rewrite (bind_Ok _ _ t' Hset).
    rewrite Ht1, lookup_insert_eq in Hl. simplify_eq. rewrite Ht1, insert_insert_eq in Htv.
    split; [done|]. split; [done|]. split; [congruence|done].
Qed.

(** The overload with a key object: [release] builds, or an entry that
    already has this key object, or none at all. *)
Lemma UpsertKeyPtr_tview kp v t :
  wf t → Count t < 2 ^ 30 →
  (ndebug = true ∨ ∀ l kp0 v0, tview t !! k_data kp = Some (l, kp0, v0) → key_same_object kp kp0 = true) →
  ∃ t', UpsertKeyPtr kp v t
          = Ok ((Some (loc_after (k_data kp) t),
                 bool_decide (is_Some (tview t !! k_data kp))), t') ∧ wf t' ∧
    ht_id t' = ht_id t ∧
    tview t' = <[k_data kp := (loc_after (k_data kp) t,
                   match tview t !! k_data kp with Some (_, kp0, _) => kp0 | None => kp end, v)]>
                 (tview t).
Proof.
  intros Hwf Hsmall Hassert. pose proof (FindOrCreate_create (k_data kp) false t Hwf Hsmall) as Hc.
  unfold UpsertKeyPtr, loc_after. destruct (tview t !! k_data kp) as [[[l kp0] v0]|] eqn:E.
  - destruct Hc as (t1&Heq&Hwf1&Hrel). rewrite (bind_Ok _ _ _ Heq). cbn beta iota. cbn [deref].
    rewrite <- (relinked_tview _ _ Hrel) in E |- *.
    destruct (set_value_tview t1 _ l kp0 v0 v Hwf1 E) as (t'&Hset&Hwf'&Htv&_&Hid'&_).
    pose proof E as (e&He&Hk&_)%tview_lookup; [|done].
    rewrite (bind_Ok _ _ _ eq_refl), (bind_Ok _ _ t1).
    2:{ rewrite (bind_Ok _ _ _ (entry_get_Ok _ _ _ He)), (bind_Ok _ _ tt); [done|].
        unfold cassert. destruct ndebug eqn:Hnd; [done|]. rewrite Hk. cbn.
        destruct Hassert as [?|Ha]; [done|]. by rewrite (Ha _ _ _ eq_refl). }
    exists t'. rewrite (bind_Ok _ _ _ Hset). split; [done|]. split; [done|].
    split; [rewrite Hid'; apply Hrel|done].
  - destruct Hc as (t1&w&i&p&Hrel&Hwf1&Hk&Heq). rewrite (bind_Ok _ _ _ Heq). cbn beta iota. cbn [deref].
    destruct (Hk kp eq_refl) as [Hwf2 Htv2]. set (t2 := set_entries _ _) in Hwf2, Htv2.
    destruct (set_value_tview t2 (k_data kp) (next_loc t) kp inhabitant v) as (t'&Hset&Hwf'&Htv&_&Hid'&_);
      [done|by rewrite Htv2, lookup_insert_eq|].
    rewrite (bind_Ok _ _ _ eq_refl), (bind_Ok _ _ t2).
    2:{ pose proof Hrel as (_&<-&_). apply set_key_linked. }
    exists t'. rewrite (bind_Ok _ _ _ Hset). split; [done|]. split; [done|].
    split; [rewrite Hid'; destruct w; apply Hrel|]. by rewrite Htv, Htv2, insert_insert_eq.
Qed.
End view_specs.
