(* ===== verification/HashTableGrow.v ===== *)
(** * The bucket vector never shrinks

    No operation of the hash table reduces the number of buckets, so a cursor
    into the table (the one of the expiry cycle) stays in range. *)

From S2P Require Import Prelude Bits HashTable HashTableInv HashTableSpec.

Section grow.
Context {V : Type} `{!Inhabited V} `{!BuildMode} `{!HashFn}.
Implicit Types t : HashTable V.

(** Steps that keep the size of both vectors and the rehash cursor. *)
Definition same_sizes t t' : Prop :=
  length (buckets0 t') = length (buckets0 t) ∧ length (buckets1 t') = length (buckets1 t) ∧
  rehash_index_ t' = rehash_index_ t.

#[global] Instance same_sizes_preorder : PreOrder same_sizes.
Proof. unfold same_sizes. split; [done|]. intros t1 t2 t3 ??. intuition congruence. Qed.

Lemma entry_put_sizes l e t t' : entry_put l e t = Ok t' → same_sizes t t'.
Proof. unfold entry_put. destruct (heap t !! l); [|done]. by intros [= <-]. Qed.

Lemma bucket_set_sizes it p t t' : bucket_set it p t = Ok t' → same_sizes t t'.
Proof.
  unfold bucket_set, vec_set. intros. destruct (it.1); inv_ok; case_match; inv_ok;
    unfold same_sizes; cbn; by rewrite length_insert.
Qed.

Lemma slot_set_sizes sl p t t' : slot_set sl p t = Ok t' → same_sizes t t'.
Proof.
  destruct sl; simpl; [apply bucket_set_sizes|]. intros. inv_ok. by eapply entry_put_sizes.
Qed.

Lemma Destroy_sizes l t t' : Destroy l t = Ok t' → same_sizes t t'.
Proof. unfold Destroy. intros. by inv_ok. Qed.

Lemma set_value_sizes l v t t' : set_value l v t = Ok t' → same_sizes t t'.
Proof. unfold set_value. intros. inv_ok. by eapply entry_put_sizes. Qed.

Lemma set_key_sizes l k t t' : set_key l k t = Ok t' → same_sizes t t'.
Proof. unfold set_key. intros. inv_ok. by eapply entry_put_sizes. Qed.

Lemma Create_sizes it k b l t t' : CreateEntryInBucket it k b t = Ok (l, t') → same_sizes t t'.
Proof.
  unfold CreateEntryInBucket. simpl. intros. inv_ok.
  etransitivity; [|by eapply bucket_set_sizes]. etransitivity; [|by eapply entry_put_sizes]. done.
Qed.

Lemma rehash_chain_sizes fuel p n m t t' : rehash_chain fuel p n t = Ok (m, t') → same_sizes t t'.
Proof.
  revert p n t. induction fuel as [|fuel IH]; intros [l|] n t Heq; simpl in Heq; inv_ok; try done.
  etransitivity; [by eapply entry_put_sizes|]. etransitivity; [by eapply bucket_set_sizes|].
  by eapply IH.
Qed.

Lemma RehashBucket_sizes it m t t' : RehashBucket it t = Ok (m, t') → same_sizes t t'.
Proof.
  unfold RehashBucket. intros. inv_ok. case_match; inv_ok; [|done].
  etransitivity; [by eapply rehash_chain_sizes|]. by eapply bucket_set_sizes.
Qed.

Lemma EraseEntryInBucket_sizes it k b t t' :
  EraseEntryInBucket it k t = Ok (b, t') → same_sizes t t'.
Proof.
  unfold EraseEntryInBucket. intros. inv_ok. case_match; inv_ok; [|done].
  case_match; [|by inv_ok]. inv_ok.
  etransitivity; [by eapply slot_set_sizes|]. by eapply Destroy_sizes.
Qed.

(** ** Growth *)

(** While rehashing the new vector is at least as large as the old one. *)
Definition shaped t : Prop := IsRehashing t = true → (length (buckets0 t) ≤ length (buckets1 t))%nat.
Definition grows t t' : Prop :=
  shaped t → shaped t' ∧ (length (buckets0 t) ≤ length (buckets0 t'))%nat.

#[global] Instance grows_preorder : PreOrder grows.
Proof.
  unfold grows. split; [done|]. intros t1 t2 t3 E1 E2 Hs. destruct (E1 Hs) as [Hs2 ?].
  destruct (E2 Hs2). split; [done|lia].
Qed.

Lemma same_sizes_grows t t' : same_sizes t t' → grows t t'.
Proof. intros (E0&E1&Hr) Hs. unfold shaped, IsRehashing in *. rewrite E0, E1, Hr. auto. Qed.

Lemma wf_shaped t : wf t → shaped t.
Proof. intros (cs0&cs1&Hlay) Hre. destruct (rehashing_inv _ _ _ Hlay Hre) as (_&?&_). lia. Qed.

Lemma rehash_loop_grows fuel n e b t t' :
  (length (buckets0 t) ≤ length (buckets1 t))%nat → rehash_loop fuel n e t = Ok (b, t') →
  shaped t' ∧ (length (buckets0 t) ≤ length (buckets0 t'))%nat.
Proof.
  revert n e t. induction fuel as [|fuel IH]; intros n e t Hle Heq; simpl in Heq; [done|].
  apply bind_Ok_inv in Heq as ([m t1]&Hb&Heq). apply RehashBucket_sizes in Hb as (E0&E1&_).
  cbv zeta in Heq. rewrite <- E0.
  destruct (_ =? i32 _); [injection Heq as <- <-; split; [done|simpl; lia]|].
  assert (∀ n' e', rehash_loop fuel n' e' (set_rehash_index (i32 (rehash_index_ t1 + 1)) t1)
    = Ok (b, t') → shaped t' ∧ (length (buckets0 t1) ≤ length (buckets0 t'))%nat) as Hrec.
  { intros n' e' Hr. by apply IH in Hr; [|simpl; lia]. }
  repeat case_match; eauto; injection Heq as <- <-; (split; [intros _; simpl|simpl]; lia).
Qed.

Lemma RehashSome_grows n b t t' :
  (length (buckets0 t) ≤ length (buckets1 t))%nat → RehashSome n t = Ok (b, t') →
  shaped t' ∧ (length (buckets0 t) ≤ length (buckets0 t'))%nat.
Proof. unfold RehashSome. intros Hle Heq. inv_ok. by eapply rehash_loop_grows. Qed.

Lemma FindBucket_grows k it t t' : FindBucket k t = Ok (it, t') → grows t t'.
Proof.
  unfold FindBucket. intros Heq Hs. apply bind_Ok_inv in Heq as (t1&Hpre&Heq).
  assert (shaped t1 ∧ (length (buckets0 t) ≤ length (buckets0 t1))%nat) as H1'.
  { destruct (IsRehashing t) eqn:Hre; inv_ok; [|done].
    eapply RehashSome_grows; [by apply Hs|done]. }
  inv_ok. case_match; inv_ok; done.
Qed.

Lemma Expand_grows r t t' : Expand t = Ok (r, t') → grows t t'.
Proof.
  unfold Expand, NeedsToExpand. intros Heq Hs. destruct (IsRehashing t) eqn:Hre; [by inv_ok|].
  case_bool_decide as Hb.
  { injection Heq as <- <-. rewrite Hb. split; [|simpl; lia]. intros Hre'.
    unfold IsRehashing in *. simpl in *. congruence. }
  destruct (negb _); [by inv_ok|]. inv_ok. unfold StartRehashing in *. inv_ok.
  match goal with E : RehashSome _ _ = Ok _ |- _ => apply RehashSome_grows in E end; [done|].
  cbn. rewrite length_take, length_app, length_replicate. lia.
Qed.

Lemma FindOrCreate_grows k c sh r t t' : FindOrCreate k c sh t = Ok (r, t') → grows t t'.
Proof.
  unfold FindOrCreate. intros Heq. destruct (_ && _); [by inv_ok|].
  apply bind_Ok_inv in Heq as (t1&Hpre&Heq).
  transitivity t1.
  { case_bool_decide; inv_ok; [by eapply Expand_grows|done]. }
  clear Hpre. apply bind_Ok_inv in Heq as ([it t2]&Hf&Heq). transitivity t2; [by eapply FindBucket_grows|].
  apply bind_Ok_inv in Heq as (en&_&Heq). destruct en; [by inv_ok|]. destruct c; [|by inv_ok].
  apply bind_Ok_inv in Heq as ([res t3]&He&Heq). transitivity t3; [by eapply Expand_grows|].
  apply bind_Ok_inv in Heq as ([it' t4]&Hb&Heq). transitivity t4.
  { case_bool_decide; [by inv_ok|by eapply FindBucket_grows]. }
  apply bind_Ok_inv in Heq as ([l t5]&Hc&Heq). injection Heq as <- <-.
  transitivity t5; [by eapply same_sizes_grows, Create_sizes|]. by apply same_sizes_grows.
Qed.

Lemma Find_grows k r t t' : Find k t = Ok (r, t') → grows t t'.
Proof. unfold Find. intros. inv_ok. by eapply FindOrCreate_grows. Qed.

Lemma Insert_grows k v r t t' : Insert k v t = Ok (r, t') → grows t t'.
Proof.
  unfold Insert. intros. inv_ok. etransitivity; [by eapply FindOrCreate_grows|].
  case_match; inv_ok; [done|]. by eapply same_sizes_grows, set_value_sizes.
Qed.

Lemma Upsert_grows k v r t t' : Upsert k v t = Ok (r, t') → grows t t'.
Proof.
  unfold Upsert. intros. inv_ok. etransitivity; [by eapply FindOrCreate_grows|].
  by eapply same_sizes_grows, set_value_sizes.
Qed.

Lemma UpsertKeyPtr_grows kp v r t t' : UpsertKeyPtr kp v t = Ok (r, t') → grows t t'.
Proof.
  unfold UpsertKeyPtr. intros. inv_ok. etransitivity; [by eapply FindOrCreate_grows|].
  etransitivity; [|by eapply same_sizes_grows, set_value_sizes].
  case_match; inv_ok; [done|]. by eapply same_sizes_grows, set_key_sizes.
Qed.

Lemma Erase_grows k b t t' : Erase k t = Ok (b, t') → grows t t'.
Proof.
  unfold Erase. intros. case_bool_decide; inv_ok; [done|].
  etransitivity; [by eapply FindBucket_grows|].
  etransitivity; [by eapply same_sizes_grows, EraseEntryInBucket_sizes|].
  case_match; [by apply same_sizes_grows|done].
Qed.

(** A lower bound of the size is kept along. *)
Lemma grows_bound (b : Z) t t' : wf t → grows t t' → b ≤ size0 t → b ≤ size0 t'.
Proof. intros Hwf Hg Hb. destruct (Hg (wf_shaped _ Hwf)). unfold size0 in *. lia. Qed.
End grow.
