(* ===== verification/HashTableThms.v ===== *)
(** * Theorems of the hash table

    Refinement of finite maps by whole traces of operations, the load bound of
    the incremental rehash and its termination, the random entry draw, and
    the traversal of all buckets. *)

From S2P Require Import Prelude Bits HashTable HashTableInv HashTableSpec.
From Stdlib Require Import Permutation.

(** ** Traces of operations *)

(** The calls a client makes on a table.  [ORehash n] is the cron's
    [if (IsRehashing()) RehashSome(n)]. *)
Inductive op (V : Type) :=
  | OFind (key : bytes)
  | OInsert (key : bytes) (value : V)
  | OUpsert (key : bytes) (value : V)
  | OErase (key : bytes)
  | ORehash (n : Z).
Arguments OFind {V} key.
Arguments OInsert {V} key value.
Arguments OUpsert {V} key value.
Arguments OErase {V} key.
Arguments ORehash {V} n.

(** What the client observes of a call. *)
Inductive reply (V : Type) :=
  | RValue (v : option V)
  | RFlag (b : bool)
  | RDone.
Arguments RValue {V} v.
Arguments RFlag {V} b.
Arguments RDone {V}.

Definition op_ok {V} (o : op V) : bool :=
  match o with ORehash n => (0 <? n) && (n <? 2 ^ 60) | _ => true end.

Section traces.
Context {V : Type} `{!Inhabited V} `{!BuildMode} `{!HashFn}.
Implicit Types (t : HashTable V) (m : gmap bytes V).

Definition run_op (o : op V) t : Outcome (reply V * HashTable V) :=
  match o with
  | OFind key =>
      '(p, t) ← Find key t;
      match p with
      | None => Ok (RValue None, t)
      | Some l => v ← get_value l t; Ok (RValue (Some v), t)
      end
  | OInsert key value => '((_, b), t) ← Insert key value t; Ok (RFlag b, t)
  | OUpsert key value => '((_, b), t) ← Upsert key value t; Ok (RFlag b, t)
  | OErase key => '(b, t) ← Erase key t; Ok (RFlag b, t)
  | ORehash n => if IsRehashing t then '(_, t) ← RehashSome n t; Ok (RDone, t) else Ok (RDone, t)
  end.

Fixpoint run_ops (os : list (op V)) t : Outcome (list (reply V) * HashTable V) :=
  match os with
  | [] => Ok ([], t)
  | o :: os => '(r, t) ← run_op o t; '(rs, t) ← run_ops os t; Ok (r :: rs, t)
  end.

(** The same calls on a finite map. *)
Definition map_op (o : op V) m : reply V * gmap bytes V :=
  match o with
  | OFind key => (RValue (m !! key), m)
  | OInsert key value =>
      match m !! key with Some _ => (RFlag false, m) | None => (RFlag true, <[key:=value]> m) end
  | OUpsert key value => (RFlag (bool_decide (is_Some (m !! key))), <[key:=value]> m)
  | OErase key => (RFlag (bool_decide (is_Some (m !! key))), delete key m)
  | ORehash _ => (RDone, m)
  end.

Fixpoint map_ops (os : list (op V)) m : list (reply V) * gmap bytes V :=
  match os with
  | [] => ([], m)
  | o :: os => let '(r, m) := map_op o m in let '(rs, m) := map_ops os m in (r :: rs, m)
  end.

Lemma abs_lookup t k : abs t !! k = snd <$> tview t !! k.
Proof. unfold abs. apply lookup_fmap. Qed.

Lemma wf_count_abs t : wf t → Count t = Z.of_nat (size (abs t)).
Proof. intros Hwf. rewrite wf_count by done. unfold abs. by rewrite map_size_fmap. Qed.

Lemma run_op_spec o t :
  wf t → op_ok o = true → Count t < 2 ^ 30 →
  ∃ t', run_op o t = Ok ((map_op o (abs t)).1, t') ∧ wf t' ∧ abs t' = (map_op o (abs t)).2.
Proof.
  intros Hwf Hok Hsmall. destruct o as [key|key v|key v|key|n]; simpl.
  - destruct (Find_tview key t Hwf) as (t'&Heq&Hwf'&Htv&_).
    rewrite (bind_Ok _ _ _ Heq). cbn beta iota. rewrite abs_lookup.
    assert (abs t' = abs t) as Habs by (unfold abs; by rewrite Htv).
    destruct (tview t !! key) as [[[l kp] v]|] eqn:E; [|by exists t']. simpl.
    rewrite <- Htv in E. rewrite (bind_Ok _ _ _ (get_value_tview _ _ _ _ _ Hwf' E)). by exists t'.
  - destruct (Insert_tview key v t Hwf Hsmall) as (t'&Heq&Hwf'&_&Htv).
    rewrite (bind_Ok _ _ _ Heq). exists t'. rewrite abs_lookup. unfold abs at 2 3. rewrite Htv.
    destruct (tview t !! key); simpl; [done|]. by rewrite fmap_insert.
  - destruct (Upsert_tview key v t Hwf Hsmall) as (t'&Heq&Hwf'&_&Htv).
    rewrite (bind_Ok _ _ _ Heq). exists t'. rewrite abs_lookup. unfold abs. rewrite Htv, fmap_insert.
    split; [|done]. do 4 f_equal. apply bool_decide_ext. by rewrite fmap_is_Some.
  - destruct (Erase_tview key t Hwf) as (t'&Heq&Hwf'&Htv&_).
    rewrite (bind_Ok _ _ _ Heq). exists t'. rewrite abs_lookup. unfold abs. rewrite Htv, fmap_delete.
    split; [|done]. do 4 f_equal. apply bool_decide_ext. by rewrite fmap_is_Some.
  - simpl in Hok. apply andb_true_iff in Hok as [?%Z.ltb_lt ?%Z.ltb_lt].
    destruct (IsRehashing t) eqn:Hre; [|by exists t].
    destruct (RehashSome_spec n t Hwf Hre) as (b&t'&Heq&Hwf'&Hrel&_); [lia|lia|].
    rewrite (bind_Ok _ _ _ Heq). exists t'. unfold abs. by rewrite (relinked_tview _ _ Hrel).
Qed.

Lemma map_op_size o m : (size (map_op o m).2 ≤ S (size m))%nat.
Proof.
  destruct o; simpl; try lia.
  - destruct (m !! key) eqn:E; simpl; [lia|]. by rewrite map_size_insert_None.
  - rewrite map_size_insert. destruct (m !! key); simpl; lia.
  - rewrite map_size_delete. destruct (m !! key); simpl; lia.
Qed.

Lemma run_ops_spec os t :
  wf t → forallb op_ok os = true → Count t + Z.of_nat (length os) ≤ 2 ^ 30 →
  ∃ t', run_ops os t = Ok ((map_ops os (abs t)).1, t') ∧ wf t' ∧ abs t' = (map_ops os (abs t)).2.
Proof.
  revert t. induction os as [|o os IH]; intros t Hwf Hok Hsmall; [by exists t|].
  simpl in Hok, Hsmall. apply andb_true_iff in Hok as [Ho Hos].
  destruct (run_op_spec o t Hwf Ho) as (t1&Heq&Hwf1&Habs); [lia|].
  pose proof (map_op_size o (abs t)) as Hsz.
  destruct (IH t1 Hwf1 Hos) as (t'&Heq'&Hwf'&Habs').
  { rewrite wf_count_abs in * by done. rewrite Habs. lia. }
  exists t'. simpl. rewrite (bind_Ok _ _ _ Heq). cbn beta iota. rewrite (bind_Ok _ _ _ Heq').
  destruct (map_op o (abs t)) as [r m1]. simpl in *. subst m1.
  by destruct (map_ops os (abs t1)).
Qed.


(** ** Load and rehash progress *)

(** The vector that insertions fill: the newer one while rehashing. *)
Definition newest_size t : Z := if IsRehashing t then size1 t else size0 t.

Lemma wf_load t : wf t → Count t ≤ newest_size t.
Proof.
  intros (cs0&cs1&Hlay). unfold newest_size, Count.
  destruct (IsRehashing t) eqn:Hre.
  - destruct (rehashing_inv _ _ _ Hlay Hre) as (?&Hlen&_&_&_&?). unfold size0, size1 in *. lia.
  - destruct (lay_rehash _ _ _ Hlay) as [(_&_&?)|(?&_)]; [done|].
    unfold IsRehashing in Hre. apply Z.leb_gt in Hre. lia.
Qed.


(** Repeated calls of [RehashSome], as the cron makes them. *)
Fixpoint rehash_rounds (fuel : nat) (n : Z) t : Outcome (HashTable V) :=
  match fuel with
  | O => Diverge
  | S fuel => '(fin, t) ← RehashSome n t; if (fin : bool) then Ok t else rehash_rounds fuel n t
  end.

(** C25: A rehash completes within as many rounds as the old vector has buckets:
    it keeps the contents, and the table then has twice the buckets. *)
Theorem rehash_terminates n t :
  wf t → IsRehashing t = true → 0 < n → n * 10 < 2 ^ 64 →
  ∃ t', rehash_rounds (length (buckets0 t)) n t = Ok t' ∧ wf t' ∧ IsRehashing t' = false ∧
        tview t' = tview t ∧ BucketCount t' = 2 * BucketCount t.
Proof.
  intros Hwf Hre Hn Hb.
  assert (∀ fuel t, wf t → IsRehashing t = true → size0 t - rehash_index_ t ≤ Z.of_nat fuel →
    ∃ t', rehash_rounds fuel n t = Ok t' ∧ wf t' ∧ IsRehashing t' = false ∧
          tview t' = tview t ∧ BucketCount t' = 2 * BucketCount t) as Hgen.
  { clear t Hwf Hre. induction fuel as [|fuel IH]; intros t Hwf Hre Hf;
      pose proof Hwf as (cs0&cs1&Hlay);
      destruct (rehashing_inv _ _ _ Hlay Hre) as (Hri&Hlen&_); [lia|]. cbn [rehash_rounds].
    destruct (RehashSome_spec n t Hwf Hre Hn Hb) as (b&t1&Heq&Hwf1&Hrel&Hp).
    rewrite (bind_Ok _ _ _ Heq). cbn beta iota. apply relinked_tview in Hrel. unfold BucketCount.
    destruct b; simpl in Hp.
    - destruct Hp as [Hre1 Hl1]. exists t1. split_and!; try done. unfold size0. lia.
    - destruct Hp as (Hre1&Hl0&_&Hlt).
      destruct (IH t1 Hwf1 Hre1) as (t'&?&?&?&Htv&Hbc); [unfold size0 in *; lia|].
      exists t'. unfold BucketCount, size0 in *. split_and!; try done; [congruence|lia]. }
  apply Hgen; [done|done|].
  pose proof Hwf as (cs0&cs1&Hlay). destruct (rehashing_inv _ _ _ Hlay Hre) as (?&_).
  unfold size0 in *. lia.
Qed.
End traces.


(** A concrete hash function and build mode for the examples. *)
Definition toy_hash : HashFn := λ k, foldl (λ a c, a * 31 + byte_val c) 7 k.
Definition debug_build : BuildMode := false.
Definition release_build : BuildMode := true.


(** Eight insertions: the table has 8 buckets and is being rehashed to 16. *)
Definition sample_ops : list (op Z) :=
  map (λ c, OUpsert [c] (byte_val c)) (lit "abcdefghi").


(** A table in the middle of a rehash, and the same table after it. *)
Section samples.
#[local] Existing Instances toy_hash debug_build.

Definition table_after (os : list (op Z)) : HashTable Z :=
  match run_ops os (new_table 0) with Ok (_, t) => t | _ => new_table 0 end.
Definition sample_table : HashTable Z := table_after sample_ops.
Definition sample_rehashed : HashTable Z := table_after (sample_ops ++ [ORehash 100]).

Lemma table_after_wf os :
  forallb op_ok os = true → Z.of_nat (length os) ≤ 2 ^ 30 → wf (table_after os).
Proof.
  intros Hok Hlen.
  destruct (run_ops_spec os (new_table 0) (new_table_wf 0) Hok Hlen) as (t&Heq&Hwf&_).
  unfold table_after. by rewrite Heq.
Qed.

Lemma rehash_terminates_witness :
  ∃ t', rehash_rounds 8 1 sample_table = Ok t' ∧ wf t' ∧ IsRehashing t' = false ∧
        tview t' = tview sample_table ∧ BucketCount t' = 2 * BucketCount sample_table.
Proof.
  apply (rehash_terminates 1 sample_table); [|reflexivity|lia|lia].
  by apply table_after_wf.
Defined.
End samples.
