(* ===== verification/HashTableWalk.v ===== *)
(** * Random draws and traversal

    [GetRandomEntry] answers a live entry and can answer every one of them;
    a full traversal by [TraverseBucket] visits every entry exactly once. *)

From S2P Require Import Prelude Bits HashTable HashTableInv HashTableSpec HashTableThms.
From Stdlib Require Import Permutation.

Section random.
Context {V : Type} `{!Inhabited V} `{!BuildMode} `{!HashFn}.
Implicit Types t : HashTable V.

Lemma chain_length_spec t fuel l ls :
  chain (heap t) (Some l) ls → (length ls ≤ fuel)%nat → Z.of_nat (length ls) < 2 ^ 64 →
  chain_length fuel l t = Ok (Z.of_nat (length ls)).
Proof.
  revert l ls. induction fuel as [|fuel IH]; intros l [|l' ls]; simpl; try done;
    [intros; lia|].
  intros ([= <-]&e&He&Hc) Hf Hb. rewrite (bind_Ok _ _ _ (entry_get_Ok _ _ _ He)).
  destruct ls as [|l2 ls]; simpl in Hc; [by rewrite Hc|]. destruct Hc as (Hn&e2&He2&Hc2).
  cbn [length] in *. assert (chain_length fuel l2 t = Ok (Z.of_nat (S (length ls)))) as Hrec.
  { apply (IH l2 (l2 :: ls)); simpl; [by eauto|lia|lia]. }
  rewrite Hn, (bind_Ok _ _ _ Hrec). cbn beta. rewrite u64_small by lia. f_equal. lia.
Qed.

Lemma chain_nth_spec t n l ls x :
  chain (heap t) (Some l) ls → ls !! n = Some x → chain_nth n l t = Ok x.
Proof.
  revert l ls. induction n as [|n IH]; intros l [|l' ls]; simpl; try done.
  - by intros ([= <-]&_) [= <-].
  - intros ([= <-]&e&He&Hc) Hx. rewrite (bind_Ok _ _ _ (entry_get_Ok _ _ _ He)).
    destruct ls as [|l2 ls]; [done|]. pose proof Hc as (Hn&_). rewrite Hn.
    cbn [deref mbind outcome_bind]. rewrite Hn in Hc. by apply (IH l2 (l2 :: ls)).
Qed.

(** The bucket a draw [r] selects is that of any key whose hash agrees with
    [r] modulo the size of the newest vector. *)
Definition drawn_bucket (r : Z) t : iter :=
  let i := u64 r mod size0 t in
  if rehash_index_ t <=? i then (B0, i) else (B1, u64 r mod size1 t).

Lemma wf_drawn t cs0 cs1 r :
  lay t cs0 cs1 → buckets0 t ≠ [] →
  ∃ p c, bucket_get (drawn_bucket r t) t = Ok p ∧ chain (heap t) p c ∧
    (length c ≤ size (heap t))%nat ∧
    ((rehash_index_ t <=? u64 r mod size0 t) = false → IsRehashing t = true ∧ 0 < size1 t).
Proof.
  intros Hlay Hne. pose proof (lay_rep _ _ _ Hlay) as Hrep. apply wf_size0_pos in Hne as Hpos.
  unfold drawn_bucket. set (i := u64 r mod size0 t).
  assert (0 ≤ i < size0 t) as Hi by (apply Z.mod_pos_bound; unfold size0; lia).
  clearbody i. destruct (Z.leb_spec (rehash_index_ t) i) as [Hle|Hlt].
  - destruct (lookup_lt_is_Some_2 (buckets0 t) (Z.to_nat i)) as [p Hp]; [unfold size0 in Hi; lia|].
    destruct (lookup_lt_is_Some_2 cs0 (Z.to_nat i)) as [c Hc].
    { rewrite <- (rep_len0 _ _ _ _ _ _ Hrep). unfold size0 in Hi. lia. }
    exists p, c. split_and!; [apply vec_get_Ok; [simpl; lia|done]| | |done].
    + exact (chains_lookup _ _ _ _ _ _ (rep_b0 _ _ _ _ _ _ Hrep) Hp Hc).
    + by apply (rep_chain_fuel0 _ _ _ _ _ _ _ _ Hrep Hc).
  - assert (IsRehashing t = true) as Hre by (unfold IsRehashing; apply Zleb_t; lia).
    destruct (rehashing_inv _ _ _ Hlay Hre) as (_&Hlen&_).
    set (j := u64 r mod size1 t).
    assert (0 ≤ j < size1 t) as Hj by (apply Z.mod_pos_bound; unfold size1; lia).
    clearbody j.
    destruct (lookup_lt_is_Some_2 (buckets1 t) (Z.to_nat j)) as [p Hp]; [unfold size1 in Hj; lia|].
    destruct (lookup_lt_is_Some_2 cs1 (Z.to_nat j)) as [c Hc].
    { rewrite <- (rep_len1 _ _ _ _ _ _ Hrep). unfold size1 in Hj. lia. }
    exists p, c. split_and!; [apply vec_get_Ok; [simpl; lia|done]| | |].
    + exact (chains_lookup _ _ _ _ _ _ (rep_b1 _ _ _ _ _ _ Hrep) Hp Hc).
    + by apply (rep_chain_fuel0 _ _ _ _ _ _ _ _ (rep_sym _ _ _ _ _ _ Hrep) Hc).
    + intros _. split; [done|lia].
Qed.

Lemma random_bucket_cons r rands t p :
  buckets0 t ≠ [] → size0 t ≤ 2 ^ 30 →
  bucket_get (drawn_bucket r t) t = Ok p →
  ((rehash_index_ t <=? u64 r mod size0 t) = false → IsRehashing t = true ∧ 0 < size1 t) →
  random_bucket (r :: rands) t = match p with Some l => Ok (l, rands) | None => random_bucket rands t end.
Proof.
  intros Hne Hsz Hp Hre. apply wf_size0_pos in Hne. cbn [random_bucket].
  rewrite (umod_Ok (u64 r) (size0 t)) by (unfold size0; lia). cbn [mbind outcome_bind].
  pose proof (Z.mod_pos_bound (u64 r) (size0 t) ltac:(unfold size0; lia)).
  rewrite i32_small by lia. unfold drawn_bucket in Hp.
  destruct (rehash_index_ t <=? u64 r mod size0 t).
  - by rewrite (bind_Ok _ _ _ Hp).
  - destruct Hre as [Hre Hs1]; [done|]. rewrite cassert_true by done. cbn [mbind outcome_bind].
    rewrite umod_Ok by done. cbn [mbind outcome_bind]. by rewrite Hp.
Qed.

Lemma random_bucket_spec rands t :
  wf t → buckets0 t ≠ [] →
  random_bucket rands t = Diverge ∨
  ∃ l rands' c, random_bucket rands t = Ok (l, rands') ∧ chain (heap t) (Some l) c ∧
    (length c ≤ size (heap t))%nat.
Proof.
  intros Hwf Hne. pose proof (wf_size_bound _ Hwf) as Hsz. pose proof Hwf as (cs0&cs1&Hlay).
  induction rands as [|r rands IH]; [by left|].
  destruct (wf_drawn t cs0 cs1 r Hlay Hne) as (p&c&Hp&Hc&Hf&Hre).
  rewrite (random_bucket_cons r rands t p) by done. destruct p as [l|]; [|done].
  right. by exists l, rands, c.
Qed.

Lemma GetRandomEntryInBucket_spec l c rands t :
  wf t → chain (heap t) (Some l) c → (length c ≤ size (heap t))%nat →
  GetRandomEntryInBucket l rands t =
    match rands with
    | [] => Diverge
    | r :: rands => match c !! Z.to_nat (u64 r mod Z.of_nat (length c)) with
                    | Some x => Ok (x, rands) | None => Diverge end
    end.
Proof.
  intros Hwf Hc Hf. unfold GetRandomEntryInBucket.
  pose proof (wf_entries_bound _ Hwf) as Hb. destruct Hwf as (cs0&cs1&Hlay).
  pose proof (lay_count _ _ _ Hlay) as Hcnt.
  rewrite (bind_Ok _ _ _ (chain_length_spec t _ l c Hc Hf ltac:(lia))). cbn beta.
  destruct rands as [|r rands]; [done|]. cbn [draw mbind outcome_bind].
  assert (0 < Z.of_nat (length c)) as Hpos by (destruct c; [done|simpl; lia]).
  rewrite umod_Ok by done. cbn [mbind outcome_bind].
  pose proof (Z.mod_pos_bound (u64 r) _ Hpos).
  destruct (lookup_lt_is_Some_2 c (Z.to_nat (u64 r mod Z.of_nat (length c)))) as [x Hx]; [lia|].
  rewrite Hx. by rewrite (bind_Ok _ _ _ (chain_nth_spec t _ l c x Hc Hx)).
Qed.

(** A draw never fails: it answers a live entry, answers none on a table
    that has no buckets yet, or has not finished with the draws given. *)
Lemma GetRandomEntry_live rands t :
  wf t →
  match GetRandomEntry rands t with
  | Ok (Some l, _) => is_Some (heap t !! l)
  | Ok (None, _) => buckets0 t = []
  | Diverge => True
  | Fault _ => False
  end.
Proof.
  intros Hwf. unfold GetRandomEntry. case_bool_decide as Hb; [done|].
  destruct (random_bucket_spec rands t Hwf Hb) as [->|(l&rands'&c&->&Hc&Hf)]; [done|].
  cbn [mbind outcome_bind]. rewrite (GetRandomEntryInBucket_spec l c) by done.
  destruct rands' as [|r rands']; [done|].
  destruct (c !! _) as [x|] eqn:Hx; [|done]. cbn [mbind outcome_bind].
  eapply chain_lookup; [exact Hc|]. by eapply list_elem_of_lookup_2.
Qed.

Lemma bidx_double n (k : bytes) :
  (0 < n)%nat → Hash k mod Z.of_nat (2 * n) mod Z.of_nat n = Hash k mod Z.of_nat n.
Proof.
  intros Hn. rewrite Nat2Z.inj_mul. change (Z.of_nat 2) with 2.
  apply Z.mod_mod_divide. exists 2. lia.
Qed.

(** Some draw selects the bucket of [key]. *)
Lemma drawn_for t cs0 cs1 key :
  lay t cs0 cs1 → buckets0 t ≠ [] → size0 t ≤ 2 ^ 30 →
  ∃ r, 0 ≤ r < 2 ^ 30 ∧ bucket_for key t (drawn_bucket r t).
Proof.
  intros Hlay Hne Hsz. pose proof (wf_size0_pos _ Hne) as Hpos.
  set (m := if IsRehashing t then length (buckets1 t) else length (buckets0 t)).
  set (r := Hash key mod Z.of_nat m).
  assert (m = length (buckets0 t) ∨ (m = 2 * length (buckets0 t))%nat ∧ m = length (buckets1 t) ∧
    Z.of_nat m ≤ 2 ^ 30) as Hm.
  { unfold m. destruct (IsRehashing t) eqn:Hre; [right|by left].
    destruct (rehashing_inv _ _ _ Hlay Hre) as (_&?&?&_). done. }
  assert (0 ≤ r < Z.of_nat m ∧ Z.of_nat m ≤ 2 ^ 30) as [Hr Hmb].
  { split; [apply Z.mod_pos_bound; lia|]. unfold size0 in Hsz. lia. }
  assert (u64 r mod size0 t = Z.of_nat (bidx (length (buckets0 t)) key)) as Hi0.
  { rewrite u64_small by lia. rewrite <- bidx_Z by done. unfold r, size0.
    destruct Hm as [->|(->&_)]; [by rewrite Z.mod_mod by lia|]. by apply bidx_double. }
  exists r. split; [lia|]. unfold drawn_bucket, bucket_for. rewrite Hi0.
  destruct (Z.leb_spec (rehash_index_ t) (Z.of_nat (bidx (length (buckets0 t)) key)));
    [by left|right].
  assert (IsRehashing t = true) as Hre by (unfold IsRehashing; apply Zleb_t; lia).
  split; [|done]. destruct (rehashing_inv _ _ _ Hlay Hre) as (_&?&_).
  rewrite u64_small by lia. unfold r, m, size1. rewrite Hre, Z.mod_mod by lia.
  f_equal. apply bidx_Z. lia.
Qed.

Lemma random_entry_reached t key l kp v :
  wf t → tview t !! key = Some (l, kp, v) →
  ∃ r1 r2, 0 ≤ r1 < 2 ^ 31 ∧ 0 ≤ r2 < 2 ^ 31 ∧
    ∀ rands, GetRandomEntry (r1 :: r2 :: rands) t = Ok (Some l, rands).
Proof.
  intros Hwf Hl.
  assert (buckets0 t ≠ []) as Hne.
  { intros Hb. by rewrite (tview_no_buckets _ Hwf Hb), lookup_empty in Hl. }
  pose proof (wf_size_bound _ Hwf) as Hsz. pose proof Hwf as (cs0&cs1&Hlay).
  destruct (drawn_for t cs0 cs1 key Hlay Hne Hsz) as (r1&Hr1&Hfor).
  destruct (bucket_for_chain t cs0 cs1 key _ Hlay Hne Hfor) as (w&i&p&c&_&[Hp Hc _ Hf Hall]&_).
  assert (l ∈ c) as Hlc by (apply Hall, holds_tview; eauto).
  apply list_elem_of_lookup in Hlc as [n Hn]. pose proof (lookup_lt_Some _ _ _ Hn) as Hnl.
  pose proof (lay_count _ _ _ Hlay) as Hcnt.
  destruct (wf_drawn t cs0 cs1 r1 Hlay Hne) as (_&_&_&_&_&Hre).
  destruct p as [l0|]; [|destruct c; [done|by destruct Hc]].
  exists r1, (Z.of_nat n). split; [lia|]. split.
  { pose proof (lay_rehash _ _ _ Hlay) as Hrs. unfold rehash_state, size0, size1 in *.
    destruct Hrs as [(_&_&?)|(?&?&?&_&_&?)]; lia. }
  intros rands. unfold GetRandomEntry. rewrite bool_decide_false by done.
  rewrite (random_bucket_cons r1 (Z.of_nat n :: rands) t (Some l0)) by done.
  cbn [mbind outcome_bind]. rewrite (GetRandomEntryInBucket_spec l0 c) by done.
  assert (Z.of_nat n < 2 ^ 64) by (pose proof (wf_entries_bound _ Hwf); lia).
  rewrite u64_small by lia. rewrite Z.mod_small by lia. by rewrite Nat2Z.id, Hn.
Qed.

(** Draws that are not used are left over, and more draws finish the search. *)
Lemma random_bucket_stable rands t l rest more :
  random_bucket rands t = Ok (l, rest) → random_bucket (rands ++ more) t = Ok (l, rest ++ more).
Proof.
  induction rands as [|r rands IH]; cbn [random_bucket app]; [done|].
  intros (i & Hi & Hb)%bind_Ok_inv. step Hi. apply bind_Ok_inv in Hb as (p & Hp & Hl). step Hp.
  destruct p; [by simplify_eq|by apply IH].
Qed.

Lemma GetRandomEntry_stable rands t o rest more :
  GetRandomEntry rands t = Ok (o, rest) → GetRandomEntry (rands ++ more) t = Ok (o, rest ++ more).
Proof.
  unfold GetRandomEntry. case_bool_decide; [by intros [= <- <-]|].
  intros ([l r1] & Hl & Hb)%bind_Ok_inv. step (random_bucket_stable _ _ _ _ more Hl).
  apply bind_Ok_inv in Hb as ([x r2] & Hx & [= <- <-]).
  unfold GetRandomEntryInBucket in Hx |- *. apply bind_Ok_inv in Hx as (n & Hn & Hx). step Hn.
  apply bind_Ok_inv in Hx as ([r r3] & Hr & Hx). destruct r1 as [|r' r1]; [done|].
  injection Hr as -> ->. cbn [app draw mbind outcome_bind].
  apply bind_Ok_inv in Hx as (m & Hm & Hx). step Hm.
  apply bind_Ok_inv in Hx as (y & Hy & [= -> ->]). by step Hy.
Qed.

Lemma GetRandomEntry_returns rands t :
  wf t → 0 < Count t → ∃ more x, GetRandomEntry (rands ++ more) t = Ok x.
Proof.
  intros Hwf Hc. destruct (map_choose (tview t)) as (k & [[l kp] v] & Hl).
  { intros E. rewrite wf_count, E, map_size_empty in Hc by done. lia. }
  destruct (random_entry_reached t k l kp v Hwf Hl) as (r1 & r2 & _ & _ & Hr).
  assert (buckets0 t ≠ []) as Hne.
  { intros Hb. by rewrite (tview_no_buckets _ Hwf Hb), lookup_empty in Hl. }
  induction rands as [|r rands (more & x & Hx)].
  { exists [r1; r2]. eexists. apply Hr. }
  pose proof (wf_size_bound _ Hwf) as Hsz. pose proof Hwf as (cs0 & cs1 & Hlay).
  destruct (wf_drawn t cs0 cs1 r Hlay Hne) as (p & c & Hp & Hch & Hf & Hre).
  assert (∀ more, GetRandomEntry (r :: rands ++ more) t =
    match p with
    | Some l => '(l, rs) ← GetRandomEntryInBucket l (rands ++ more) t; Ok (Some l, rs)
    | None => GetRandomEntry (rands ++ more) t
    end) as E.
  { intros m. unfold GetRandomEntry. rewrite !(bool_decide_false _ Hne).
    rewrite (random_bucket_cons r _ t p) by done. by destruct p. }
  destruct p as [l0|]; [|exists more, x; by rewrite <- Hx, <- E].
  exists [0]. cbn [app]. setoid_rewrite E. setoid_rewrite (GetRandomEntryInBucket_spec l0 c); [|done..].
  assert (0 < Z.of_nat (length c)) as Hpos by (destruct c; [done|simpl; lia]).
  destruct (rands ++ [0]) as [|a rs] eqn:Ea; [by destruct rands|].
  pose proof (Z.mod_pos_bound (u64 a) _ Hpos).
  destruct (lookup_lt_is_Some_2 c (Z.to_nat (u64 a mod Z.of_nat (length c)))) as [y ->]; [lia|].
  by eexists.
Qed.

(** Eviction can reach every key: every live entry is the answer of some two
    values of [std::rand] (which are below 2^31), rehashing or not. *)
Theorem random_entry_covers t key l kp v :
  wf t → tview t !! key = Some (l, kp, v) →
  ∃ r1 r2, 0 ≤ r1 < 2 ^ 31 ∧ 0 ≤ r2 < 2 ^ 31 ∧
    ∀ rands, GetRandomEntry (r1 :: r2 :: rands) t = Ok (Some l, rands).
Proof. apply random_entry_reached. Qed.
End random.

(** ** Traversal *)

Section traversal.
Context {V : Type} `{!Inhabited V} `{!BuildMode} `{!HashFn}.
Implicit Types t : HashTable V.

(** The callback that records the entries it is called on. *)
Definition record_entry (l : loc) (w : HashTable V * list loc)
    : Outcome (HashTable V * list loc) := Ok (w.1, w.2 ++ [l]).

(** Calls of [TraverseBucket] from bucket [index] until the cursor is back at
    0, the way a full scan uses it. *)
Fixpoint traverse_from (fuel : nat) (index : Z) (w : HashTable V * list loc)
    : Outcome (HashTable V * list loc) :=
  match fuel with
  | O => Diverge
  | S fuel =>
      '(index, w) ← TraverseBucket fst record_entry index w;
      if index =? 0 then Ok w else traverse_from fuel index w
  end.

Lemma traverse_chain_record t fuel p c log :
  chain (heap t) p c → (length c ≤ fuel)%nat →
  traverse_chain fst record_entry fuel p (t, log) = Ok (t, log ++ c).
Proof.
  revert p c log. induction fuel as [|fuel IH]; intros p [|l c] log; simpl;
    try (intros -> _; by rewrite app_nil_r); [intros; lia|].
  intros (->&e&He&Hc) Hf. cbn [mbind outcome_bind record_entry fst].
  rewrite (bind_Ok _ _ _ (entry_get_Ok t _ _ He)). cbn beta. simpl.
  rewrite (IH _ c) by (done || lia). by rewrite <- app_assoc.
Qed.

Lemma TraverseBucket_record t cs0 cs1 (i : nat) c k log :
  lay t cs0 cs1 → IsRehashing t = false → cs0 !! i = Some c → 0 ≤ k ≤ 31 → size0 t = 2 ^ k →
  TraverseBucket fst record_entry (Z.of_nat i) (t, log) =
    Ok (revk k ((revk k (Z.of_nat i) + 1) mod 2 ^ k), (t, log ++ c)).
Proof.
  intros Hlay Hre Hc Hk Hsz. pose proof (lay_rep _ _ _ Hlay) as Hrep.
  pose proof (lookup_lt_Some _ _ _ Hc) as Hi. rewrite <- (rep_len0 _ _ _ _ _ _ Hrep) in Hi.
  destruct (lookup_lt_is_Some_2 (buckets0 t) i Hi) as [p Hp].
  unfold TraverseBucket. simpl fst. rewrite Hre.
  rewrite (bind_Ok _ _ tt) by (apply cassert_true, Zltb_t; unfold size0; lia). cbn beta.
  rewrite (bind_Ok _ _ _ (bucket_get0 _ _ _ Hp)). cbn beta.
  rewrite Hsz, (bind_Ok _ _ _ (NextIndex_spec k Hk (Z.of_nat i) ltac:(unfold size0 in Hsz; lia))).
  cbn beta. rewrite (bind_Ok _ _ (t, log ++ c)); [done|].
  apply traverse_chain_record.
  - exact (chains_lookup _ _ _ _ _ _ (rep_b0 _ _ _ _ _ _ Hrep) Hp Hc).
  - pose proof (rep_chain_fuel0 _ _ _ _ _ _ _ _ Hrep Hc) as [_ ?]. lia.
Qed.

Lemma concat_perm {A} (l k : list (list A)) : l ≡ₚ k → concat l ≡ₚ concat k.
Proof.
  induction 1 as [|x l k _ IH|x y l|]; simpl; [done|by rewrite IH| |by etransitivity].
  rewrite !app_assoc. by rewrite (Permutation_app_comm x y).
Qed.

(** The buckets visited from the [n]-th step on. *)
Definition visits (k : Z) (cs : list (list loc)) (n m : nat) : list loc :=
  concat (map (λ j, default [] (cs !! Z.to_nat (revk k (Z.of_nat j)))) (seq n m)).

Lemma traverse_from_visits t cs0 cs1 k m n log :
  lay t cs0 cs1 → IsRehashing t = false → 0 ≤ k ≤ 31 → size0 t = 2 ^ k →
  Z.of_nat (n + m) = 2 ^ k → (0 < m)%nat →
  traverse_from m (revk k (Z.of_nat n)) (t, log) = Ok (t, log ++ visits k cs0 n m).
Proof.
  intros Hlay Hre Hk Hsz. revert n log. induction m as [|m IH]; intros n log Hnm Hm; [lia|].
  pose proof (revk_range k Hk (Z.of_nat n) ltac:(lia)) as Hr.
  pose proof (rep_len0 _ _ _ _ _ _ (lay_rep _ _ _ Hlay)) as Hlen.
  destruct (lookup_lt_is_Some_2 cs0 (Z.to_nat (revk k (Z.of_nat n)))) as [c Hc].
  { unfold size0 in Hsz. lia. }
  pose proof (TraverseBucket_record t cs0 cs1 _ c k log Hlay Hre Hc Hk Hsz) as Hstep.
  rewrite Z2Nat.id in Hstep by lia. rewrite revk_revk in Hstep by lia.
  cbn [traverse_from]. rewrite (bind_Ok _ _ _ Hstep). cbn beta iota.
  unfold visits. cbn [seq map concat]. rewrite Hc. cbn [default].
  destruct (decide (m = 0%nat)) as [->|Hm0].
  - replace (Z.of_nat n + 1) with (2 ^ k) by lia. rewrite Z.mod_same by lia.
    replace (revk k 0) with 0 by reflexivity. cbn [Z.eqb]. simpl. by rewrite app_nil_r.
  - rewrite Z.mod_small by lia. replace (Z.of_nat n + 1) with (Z.of_nat (S n)) by lia.
    rewrite Zeqb_f; [rewrite IH by lia; by rewrite <- app_assoc|].
    intros E. apply (f_equal (revk k)) in E. rewrite revk_revk in E by lia.
    change (revk k 0) with 0 in E. lia.
Qed.

Lemma visits_all k cs :
  0 ≤ k ≤ 31 → Z.of_nat (length cs) = 2 ^ k → visits k cs 0 (length cs) ≡ₚ concat cs.
Proof.
  intros Hk Hlen. unfold visits.
  assert (map (λ j, default [] (cs !! j)) (seq 0 (length cs)) = cs) as Hid.
  { apply list_eq. intros i. rewrite list_lookup_fmap. destruct (decide (i < length cs)%nat).
    - rewrite lookup_seq_lt by done. simpl. by destruct (lookup_lt_is_Some_2 cs i) as [c ->].
    - rewrite lookup_seq_ge, lookup_ge_None_2 by lia. done. }
  transitivity (concat (map (λ j, default [] (cs !! j)) (seq 0 (length cs))));
    [|by rewrite Hid].
  apply concat_perm.
  rewrite <- (map_map (λ j, Z.to_nat (revk k (Z.of_nat j))) (λ j, default [] (cs !! j))).
  apply Permutation_map. symmetry. apply NoDup_Permutation_bis.
  - apply NoDup_ListNoDup, NoDup_seq.
  - by rewrite length_map.
  - intros j Hj. apply list_elem_of_In, elem_of_seq in Hj. apply in_map_iff.
    pose proof (revk_range k Hk (Z.of_nat j) ltac:(lia)).
    exists (Z.to_nat (revk k (Z.of_nat j))). rewrite Z2Nat.id by lia.
    rewrite revk_revk by lia. split; [apply Nat2Z.id|].
    apply list_elem_of_In, elem_of_seq. lia.
Qed.

(** A full cycle visits every live entry once. *)
Lemma visits_entries t cs0 cs1 k :
  lay t cs0 cs1 → IsRehashing t = false → 0 ≤ k ≤ 31 → size0 t = 2 ^ k →
  NoDup (visits k cs0 0 (length cs0)) ∧
  ∀ l, l ∈ visits k cs0 0 (length cs0) ↔ is_Some (heap t !! l).
Proof.
  intros Hlay Hre Hk Hsz. pose proof (lay_rep _ _ _ Hlay) as Hrep.
  pose proof (rep_len0 _ _ _ _ _ _ Hrep) as Hlen.
  assert (visits k cs0 0 (length cs0) ≡ₚ concat cs0 ++ concat cs1) as Hperm.
  { rewrite visits_all by (unfold size0 in *; lia).
    pose proof (lay_rehash _ _ _ Hlay) as [(_&H1'&_)|(?&_)].
    - pose proof (rep_len1 _ _ _ _ _ _ Hrep) as Hl1. rewrite H1' in Hl1.
      destruct cs1; [by rewrite app_nil_r|done].
    - unfold IsRehashing in Hre. apply Z.leb_gt in Hre. lia. }
  rewrite Hperm. split; [apply (rep_nodup _ _ _ _ _ _ Hrep)|].
  intros l. rewrite Hperm. symmetry. apply (rep_dom _ _ _ _ _ _ Hrep).
Qed.

(** C23: Starting at bucket 0 and following the cursor, a traversal of a table
    that is not rehashing stops at cursor 0 after as many calls as there are
    buckets, and calls the callback exactly once on every live entry. *)
Theorem traversal_visits_each_entry_once t :
  wf t → IsRehashing t = false → buckets0 t ≠ [] →
  ∃ ls, traverse_from (length (buckets0 t)) 0 (t, []) = Ok (t, ls) ∧ NoDup ls ∧
        ∀ l, l ∈ ls ↔ is_Some (heap t !! l).
Proof.
  intros (cs0&cs1&Hlay) Hre Hne. pose proof (lay_rep _ _ _ Hlay) as Hrep.
  pose proof (wf_size0_pos _ Hne) as Hpos. pose proof (rep_len0 _ _ _ _ _ _ Hrep) as Hlen.
  destruct (lay_pow _ _ _ Hlay) as [?|(k&Hk&Hsz)]; [unfold size0 in *; lia|].
  exists (visits k cs0 0 (length cs0)). split.
  - pose proof (traverse_from_visits t cs0 cs1 k (length (buckets0 t)) 0 [] Hlay Hre
      ltac:(lia) Hsz ltac:(unfold size0 in Hsz; lia) Hpos) as Ht.
    change (revk k (Z.of_nat 0)) with 0 in Ht. by rewrite Hlen in Ht |- *.
  - apply (visits_entries t cs0 cs1); by try lia.
Qed.
End traversal.

(** Key "c" of a table in the middle of a rehash; all keys of the table once
    the rehash is done. *)
Section samples.
#[local] Existing Instances toy_hash debug_build.

Lemma random_entry_covers_witness :
  tview sample_table !! lit "c" = Some (3%positive, mkKeyPtr 0 3 (lit "c"), 99) ∧
  ∃ r1 r2, 0 ≤ r1 < 2 ^ 31 ∧ 0 ≤ r2 < 2 ^ 31 ∧
    ∀ rands, GetRandomEntry (r1 :: r2 :: rands) sample_table = Ok (Some 3%positive, rands).
Proof.
  assert (tview sample_table !! lit "c" = Some (3%positive, mkKeyPtr 0 3 (lit "c"), 99)) as E
    by (vm_compute; reflexivity).
  split; [exact E|]. apply (random_entry_covers sample_table (lit "c") _ _ _
    (table_after_wf sample_ops eq_refl ltac:(vm_compute; congruence)) E).
Defined.

Lemma traversal_visits_each_entry_once_witness :
  ∃ ls, traverse_from 16 0 (sample_rehashed, []) = Ok (sample_rehashed, ls) ∧ NoDup ls ∧
        ∀ l, l ∈ ls ↔ is_Some (heap sample_rehashed !! l).
Proof.
  apply (traversal_visits_each_entry_once sample_rehashed);
    [by apply table_after_wf|reflexivity|]. intros E. vm_compute in E. discriminate E.
Defined.
End samples.
