(* ===== verification/Chars.v ===== *)
(** * Character-level library functions

    The parts of the C++ standard library on characters that the program
    uses: [std::from_chars] and [std::to_chars] on integers (decimal),
    [std::isspace] in the "C" locale, and [std::string_view::find] of CRLF,
    with their round trip. *)

From S2P Require Import Prelude.

(** ** Definitions *)

Definition isdigit (c : ascii) : bool := (48 <=? byte_val c) && (byte_val c <=? 57).

(** [std::isspace]: space and the characters HT, LF, VT, FF, CR. *)
Definition isspace (c : ascii) : bool :=
  (byte_val c =? 32) || ((9 <=? byte_val c) && (byte_val c <=? 13)).

Fixpoint scan_digits (s : bytes) : bytes * bytes :=
  match s with
  | c :: s' => if isdigit c then let '(d, r) := scan_digits s' in (c :: d, r) else ([], s)
  | [] => ([], [])
  end.

Definition digits_val (acc : Z) (ds : bytes) : Z :=
  foldl (λ a c, a * 10 + (byte_val c - 48)) acc ds.

(** The result of [std::from_chars]: the value and the unread characters, or
    [ec] (in which case the output argument is left unmodified). *)
Inductive from_chars_result :=
  | FcOk (value : Z) (rest : bytes)
  | FcInvalid
  | FcOutOfRange.

(** [std::from_chars] for a signed integer type with range [lo..hi]. *)
Definition from_chars (lo hi : Z) (s : bytes) : from_chars_result :=
  let '(sign, s) := match s with
                    | c :: s' => if bool_decide (c = "-"%char) then (-1, s') else (1, s)
                    | [] => (1, s)
                    end in
  let '(ds, rest) := scan_digits s in
  if bool_decide (ds = []) then FcInvalid
  else let v := sign * digits_val 0 ds in
       if (lo <=? v) && (v <=? hi) then FcOk v rest else FcOutOfRange.

Definition from_chars_i32 : bytes → from_chars_result := from_chars (- 2 ^ 31) (2 ^ 31 - 1).
Definition from_chars_i64 : bytes → from_chars_result := from_chars i64_min i64_max.

(** [std::from_chars] for an unsigned type: no sign is read. *)
Definition from_chars_u32 (s : bytes) : from_chars_result :=
  let '(ds, rest) := scan_digits s in
  if bool_decide (ds = []) then FcInvalid
  else let v := digits_val 0 ds in
       if v <=? 2 ^ 32 - 1 then FcOk v rest else FcOutOfRange.

Definition digit (d : Z) : ascii := ascii_of_N (Z.to_N (48 + d)).

Fixpoint dec_digits (fuel : nat) (z : Z) (acc : bytes) : bytes :=
  match fuel with
  | O => acc
  | S fuel =>
      let acc := digit (z mod 10) :: acc in
      if z / 10 =? 0 then acc else dec_digits fuel (z / 10) acc
  end.

(** [std::to_chars] of an integer of at most 64 bits: at most 20 digits. *)
Definition to_chars (z : Z) : bytes :=
  if z <? 0 then "-"%char :: dec_digits 20 (- z) [] else dec_digits 20 z [].

(** [find("\r\n")]. *)
Fixpoint find_crlf (s : bytes) : option nat :=
  match s with
  | [] => None
  | c :: s' =>
      if bool_decide (c = CR ∧ head s' = Some LF) then Some 0%nat else S <$> find_crlf s'
  end.

(** [find("\r\n", pos)]. *)
Definition find_crlf_from (s : bytes) (pos : nat) : option nat :=
  Nat.add pos <$> find_crlf (drop pos s).

(** The RESP encoding of a string: [$<length>\r\n<bytes>\r\n]. *)
Definition encode_bulk (x : bytes) : bytes :=
  "$"%char :: to_chars (Z.of_nat (length x)) ++ CRLF ++ x ++ CRLF.

(** ** Lemmas *)

Lemma digit_val d : 0 ≤ d < 10 → byte_val (digit d) = 48 + d.
Proof.
  intros Hd. assert (d = 0 ∨ d = 1 ∨ d = 2 ∨ d = 3 ∨ d = 4 ∨ d = 5 ∨ d = 6 ∨ d = 7 ∨ d = 8 ∨ d = 9)
    as Hc by lia. repeat destruct Hc as [->|Hc]; subst; reflexivity.
Qed.

Lemma digit_isdigit d : 0 ≤ d < 10 → isdigit (digit d) = true.
Proof. intros Hd. unfold isdigit. rewrite digit_val by done. repeat bcase; simpl; lia. Qed.

Lemma dec_digits_spec fuel z acc :
  0 ≤ z < 10 ^ Z.of_nat fuel → fuel ≠ 0%nat →
  ∃ ds, dec_digits fuel z acc = ds ++ acc ∧ Forall (λ c, isdigit c = true) ds ∧
        ds ≠ [] ∧ (length ds ≤ fuel)%nat ∧
        (∀ a, digits_val a ds = a * 10 ^ Z.of_nat (length ds) + z).
Proof.
  revert z acc. induction fuel as [|fuel IH]; intros z acc Hz Hf; [done|]. cbn [dec_digits].
  assert (0 ≤ z mod 10 < 10) as Hm by (apply Z.mod_pos_bound; lia).
  assert (z = 10 * (z / 10) + z mod 10) as Hdm by (apply Z.div_mod; lia).
  rewrite Nat2Z.inj_succ, Z.pow_succ_r in Hz by lia.
  destruct (Z.eqb_spec (z / 10) 0) as [E|E].
  - exists [digit (z mod 10)]. split_and!; [done| |done|simpl; lia|].
    + constructor; [by apply digit_isdigit|done].
    + intros a. cbn [digits_val foldl length]. rewrite digit_val by done.
      change (10 ^ Z.of_nat 1) with 10. lia.
  - destruct (IH (z / 10) (digit (z mod 10) :: acc)) as (ds&Heq&Hd&Hne&Hlen&Hv).
    { split; [apply Z.div_pos; lia|]. apply Z.div_lt_upper_bound; lia. }
    { intros ->. change (10 ^ Z.of_nat 0) with 1 in Hz.
      apply E, Z.div_small. lia. }
    exists (ds ++ [digit (z mod 10)]). split_and!.
    + rewrite Heq, <- app_assoc. done.
    + apply Forall_app. split; [done|]. constructor; [by apply digit_isdigit|done].
    + by destruct ds.
    + rewrite length_app. simpl. lia.
    + intros a. unfold digits_val in *. rewrite foldl_app, Hv. cbn [foldl].
      rewrite digit_val by done. rewrite length_app. cbn [length].
      rewrite Nat2Z.inj_add, Z.pow_add_r by lia. change (10 ^ Z.of_nat 1) with 10. lia.
Qed.

Lemma dec_digits_fuel f1 f2 z acc :
  0 ≤ z < 10 ^ Z.of_nat f1 → f1 ≠ 0%nat → (f1 ≤ f2)%nat → dec_digits f2 z acc = dec_digits f1 z acc.
Proof.
  revert f2 z acc. induction f1 as [|f1 IH]; intros [|f2] z acc Hz Hf Hle; [done|done|lia|].
  cbn [dec_digits]. rewrite Nat2Z.inj_succ, Z.pow_succ_r in Hz by lia.
  destruct (Z.eqb_spec (z / 10) 0) as [E|E]; [done|].
  apply IH; [|intros ->|lia].
  - split; [apply Z.div_pos; lia|]. apply Z.div_lt_upper_bound; lia.
  - change (10 ^ Z.of_nat 0) with 1 in Hz. apply E, Z.div_small. lia.
Qed.

(** The characters [to_chars] writes: a digit string of at most [n] digits
    for a value below [10 ^ n], after the sign. *)
Lemma to_chars_nonneg n z :
  0 ≤ z < 10 ^ Z.of_nat n → n ≠ 0%nat → (n ≤ 20)%nat →
  Forall (λ c, isdigit c = true) (to_chars z) ∧ to_chars z ≠ [] ∧ (length (to_chars z) ≤ n)%nat ∧
  digits_val 0 (to_chars z) = z.
Proof.
  intros Hz Hn Hle. unfold to_chars. rewrite Zltb_f by lia.
  rewrite (dec_digits_fuel n 20) by done.
  destruct (dec_digits_spec n z [] Hz Hn) as (ds&->&Hd&Hne&Hlen&Hv).
  rewrite app_nil_r. split_and!; [done|done|done|]. rewrite Hv. lia.
Qed.

Lemma to_chars_length n z :
  - 10 ^ Z.of_nat n < z < 10 ^ Z.of_nat n → n ≠ 0%nat → (n ≤ 20)%nat →
  (length (to_chars z) ≤ S n)%nat.
Proof.
  intros Hz Hn Hle. destruct (Z.ltb_spec z 0) as [Hneg|Hpos].
  - destruct (to_chars_nonneg n (- z)) as (_&_&Hlen&_); [lia|done|done|].
    unfold to_chars in *. rewrite Zltb_f in Hlen by lia. rewrite Zltb_t by lia. simpl in *. lia.
  - destruct (to_chars_nonneg n z) as (_&_&Hlen&_); [lia|done|done|]. lia.
Qed.

Lemma scan_digits_all ds rest :
  Forall (λ c, isdigit c = true) ds → match rest with c :: _ => isdigit c = false | [] => True end →
  scan_digits (ds ++ rest) = (ds, rest).
Proof.
  induction 1 as [|c ds Hc Hds IH]; intros Hr; simpl.
  - destruct rest as [|c rest]; simpl; [done|]. by rewrite Hr.
  - rewrite Hc, IH by done. done.
Qed.

Lemma digits_not_minus c : isdigit c = true → c ≠ "-"%char.
Proof. by intros Hc ->. Qed.

(** Reading back what [to_chars] wrote. *)
Lemma from_chars_to_chars lo hi z rest :
  lo ≤ z ≤ hi → - 10 ^ 20 < z < 10 ^ 20 →
  match rest with c :: _ => isdigit c = false | [] => True end →
  from_chars lo hi (to_chars z ++ rest) = FcOk z rest.
Proof.
  intros Hr Hz Hrest. unfold from_chars.
  destruct (Z.ltb_spec z 0) as [Hneg|Hpos].
  - destruct (to_chars_nonneg 20 (- z)) as (Hd&Hne&_&Hv); [lia|done|done|].
    unfold to_chars in *. rewrite Zltb_f in * by lia. rewrite Zltb_t by lia. cbn [app].
    rewrite (bool_decide_true ("-"%char = "-"%char)) by done.
    rewrite scan_digits_all by done. rewrite bool_decide_false by done. rewrite Hv.
    rewrite Zleb_t, Zleb_t by lia. simpl. f_equal. lia.
  - destruct (to_chars_nonneg 20 z) as (Hd&Hne&_&Hv); [lia|done|done|].
    destruct (to_chars z) as [|c ds] eqn:E; [done|]. cbn [app].
    pose proof (Forall_inv Hd) as Hc. simpl in Hc.
    rewrite bool_decide_false by (by apply digits_not_minus).
    change (c :: ds ++ rest) with ((c :: ds) ++ rest).
    rewrite scan_digits_all by done. rewrite bool_decide_false by done. rewrite Hv.
    rewrite Zleb_t, Zleb_t by lia. simpl. f_equal. lia.
Qed.

Lemma to_chars_no_CR z : - 10 ^ 20 < z < 10 ^ 20 → CR ∉ to_chars z.
Proof.
  intros Hz Hin. destruct (Z.ltb_spec z 0) as [Hneg|Hpos].
  - destruct (to_chars_nonneg 20 (- z)) as (Hd&_&_&_); [lia|done|done|].
    unfold to_chars in *. rewrite Zltb_f in Hd by lia. rewrite Zltb_t in Hin by lia.
    apply elem_of_cons in Hin as [Hin|Hin]; [by vm_compute in Hin|].
    by apply (proj1 (Forall_forall _ _) Hd) in Hin.
  - destruct (to_chars_nonneg 20 z) as (Hd&_&_&_); [lia|done|done|].
    by apply (proj1 (Forall_forall _ _) Hd) in Hin.
Qed.

Lemma find_crlf_here t : find_crlf (CR :: LF :: t) = Some 0%nat.
Proof. cbn [find_crlf]. by rewrite bool_decide_true. Qed.

Lemma find_crlf_app s t i : find_crlf s = Some i → find_crlf (s ++ t) = Some i.
Proof.
  revert i. induction s as [|c s IH]; intros i Hf; cbn [find_crlf app] in *; [done|].
  destruct (bool_decide_reflect (c = CR ∧ head s = Some LF)) as [[-> Hh]|Hn].
  - simplify_eq. destruct s as [|c' s]; [done|]. injection Hh as ->. cbn [app]. by rewrite bool_decide_true.
  - apply fmap_Some in Hf as (j&Hj&->). destruct s as [|c' s]; [done|].
    cbn [app] in *. rewrite bool_decide_false by done. by rewrite (IH j Hj).
Qed.

Lemma find_crlf_no_CR s t : CR ∉ s → find_crlf (s ++ CR :: LF :: t) = Some (length s).
Proof.
  induction s as [|c s IH]; intros Hn; [apply find_crlf_here|]. cbn [find_crlf app].
  apply not_elem_of_cons in Hn as [Hc Hs].
  rewrite bool_decide_false by naive_solver. by rewrite IH.
Qed.

Lemma find_crlf_Some s i :
  find_crlf s = Some i → s = take i s ++ CR :: LF :: drop (2 + i) s ∧ (2 + i ≤ length s)%nat.
Proof.
  revert i. induction s as [|c s IH]; intros i Hf; cbn [find_crlf app] in *; [done|].
  destruct (bool_decide_reflect (c = CR ∧ head s = Some LF)) as [[-> Hh]|Hn].
  - simplify_eq. destruct s as [|c' s]; simplify_eq/=. rewrite drop_0. split; [done|lia].
  - apply fmap_Some in Hf as (j&Hj&->). destruct (IH j Hj) as [Heq Hlen]. simpl.
    split; [|lia]. f_equal. exact Heq.
Qed.
