(* ===== verification/Config.v ===== *)
(** * Configuration

    Model of [Config] (src/src/base/config.h, config.cc): its fields with
    their defaults, the names of the eviction policies, the range check and
    the printed form.  [Ini] models reading it from a file. *)

From S2P Require Import Prelude Chars.

Inductive MaxmemoryPolicy := kNoEviction | kAllKeysRandom | kAllKeysLru.

#[global] Instance MaxmemoryPolicy_eq_dec : EqDecision MaxmemoryPolicy.
Proof. solve_decision. Defined.

Record Config := mkConfig {
  port : Z;
  hz : Z;
  maxclients : Z;
  maxmemory : Z;
  maxmemory_policy : MaxmemoryPolicy;
  maxmemory_samples : Z;
  active_expire_cycle_time_percent : Z;
  active_expire_acceptable_stale_percent : Z;
  active_expire_keys_per_loop : Z;
  client_executors : Z;
  sqpoll : bool;
  max_direct_fds_per_exr : Z;
  use_ring_buffer : bool;
  submit_batch_size : Z;
  wait_batch_size : Z }.

(** The default member initializers. *)
Definition default_config : Config :=
  mkConfig 6379 10 10000 0 kNoEviction 5 25 10 20 2 false 4096 true 32 1.

Definition MaxmemoryPolicyStrToEnum (str : bytes) : Outcome MaxmemoryPolicy :=
  if bool_decide (str = lit "noeviction") then Ok kNoEviction
  else if bool_decide (str = lit "allkeys-random") then Ok kAllKeysRandom
  else if bool_decide (str = lit "allkeys-lru") then Ok kAllKeysLru
  else Fault LogFatal.

Definition MaxmemoryPolicyEnumToStr (policy : MaxmemoryPolicy) : bytes :=
  match policy with
  | kNoEviction => lit "noeviction"
  | kAllKeysRandom => lit "allkeys-random"
  | kAllKeysLru => lit "allkeys-lru"
  end.

Definition SanityCheck (c : Config) : Outcome unit :=
  if (active_expire_cycle_time_percent c =? 0) || (40 <? active_expire_cycle_time_percent c)
  then Fault LogFatal
  else if 100 <? active_expire_acceptable_stale_percent c then Fault LogFatal
  else Ok tt.

(** [stream << b] of a [bool]. *)
Definition show_bool (b : bool) : bytes := if b then lit "1" else lit "0".

Definition ToString (c : Config) : bytes :=
  lit "Configs: [" ++
  lit "port:" ++ to_chars (port c) ++ lit ", " ++
  lit "hz:" ++ to_chars (hz c) ++ lit ", " ++
  lit "maxclients:" ++ to_chars (maxclients c) ++ lit ", " ++
  lit "maxmemory:" ++ to_chars (maxmemory c) ++ lit ", " ++
  lit "maxmemory-policy:" ++ MaxmemoryPolicyEnumToStr (maxmemory_policy c) ++ lit ", " ++
  lit "maxmemory-samples:" ++ to_chars (maxmemory_samples c) ++ lit ", " ++
  lit "active_expire_cycle_time_percent:" ++ to_chars (active_expire_cycle_time_percent c) ++
  lit ", " ++
  lit "active_expire_acceptable_stale_percent:" ++
  to_chars (active_expire_acceptable_stale_percent c) ++ lit ", " ++
  lit "active_expire_keys_per_loop:" ++ to_chars (active_expire_keys_per_loop c) ++ lit "," ++
  lit "client_executors:" ++ to_chars (client_executors c) ++ lit ", " ++
  lit "sqpoll:" ++ show_bool (sqpoll c) ++ lit ", " ++
  lit "max_direct_fds_per_exr:" ++ to_chars (max_direct_fds_per_exr c) ++ lit ", " ++
  lit "use_ring_buffer:" ++ show_bool (use_ring_buffer c) ++ lit ", " ++
  lit "submit_batch_size:" ++ to_chars (submit_batch_size c) ++ lit ", " ++
  lit "wait_batch_size:" ++ to_chars (wait_batch_size c) ++
  lit "].".

Definition DisableSqpoll (src : Config) : Config :=
  mkConfig (port src) (hz src) (maxclients src) (maxmemory src) (maxmemory_policy src)
    (maxmemory_samples src) (active_expire_cycle_time_percent src)
    (active_expire_acceptable_stale_percent src) (active_expire_keys_per_loop src)
    (client_executors src) false (max_direct_fds_per_exr src) (use_ring_buffer src)
    (submit_batch_size src) (wait_batch_size src).

(** The names of the policies are read back. *)
Lemma policy_str_enum p : MaxmemoryPolicyStrToEnum (MaxmemoryPolicyEnumToStr p) = Ok p.
Proof. by destruct p. Qed.
