(* ===== verification/Ini.v ===== *)
(** * The configuration file

    Model of the INI reader the server uses (src/src/external/tortellini.hh:
    [operator>>], the look-ups of sections and values, and the conversions
    [value | fallback]) and of [Config::ReadFromFile]
    (src/src/base/config.cc).  The maps of the reader compare their keys without
    regard to case, so here they are finite maps keyed by the lower-case name;
    the reader works on any store of values ([IniStore]), and [IniFile] runs it
    on the ordered maps the library has, with the writer. *)

From S2P Require Import Prelude Chars Config.

(** ** Characters *)

(** [std::tolower] in the "C" locale. *)
Definition tolower (c : ascii) : ascii :=
  if (65 <=? byte_val c) && (byte_val c <=? 90)
  then ascii_of_N (Z.to_N (byte_val c + 32)) else c.
Definition lower (s : bytes) : bytes := map tolower s.

(** [case_insensitive::compare]. *)
Definition ci_equal (l r : bytes) : bool := bool_decide (lower l = lower r).

Fixpoint ltrim (s : bytes) : bytes :=
  match s with c :: s' => if isspace c then ltrim s' else s | [] => [] end.
Definition rtrim (s : bytes) : bytes := reverse (ltrim (reverse s)).
Definition trim (s : bytes) : bytes := rtrim (ltrim s).

(** [find_first_of] of one character. *)
Fixpoint find_first_of (x : ascii) (s : bytes) : option nat :=
  match s with
  | [] => None
  | c :: s => if bool_decide (c = x) then Some 0%nat else S <$> find_first_of x s
  end.

(** The lines [std::getline] gives; the last one need not end. *)
Fixpoint getlines (cur s : bytes) : list bytes :=
  match s with
  | [] => if bool_decide (cur = []) then [] else [cur]
  | c :: s => if bool_decide (c = LF) then cur :: getlines [] s else getlines (cur ++ [c]) s
  end.

(** ** Reading *)

Definition Section_ := gmap bytes bytes.
Definition Ini := gmap bytes Section_.

(** [ini\[section_name\]\[key\] = value]. *)
Definition ini_set (section_name key value : bytes) (ini : Ini) : Ini :=
  <[lower section_name := <[lower key := value]> (default ∅ (ini !! lower section_name))]> ini.

Definition BOM : bytes := ["239"%char; "187"%char; "191"%char].

Definition strip_BOM (line : bytes) : bytes :=
  if bool_decide (take 3 line = BOM) then drop 3 line else line.

(** What the reader needs of the object it fills: [ini\[section\]\[key\] = value]. *)
Class IniStore (I : Type) := {
  empty_ini : I;
  store : bytes → bytes → bytes → I → I }.
#[global] Instance map_store : IniStore Ini := {| empty_ini := ∅; store := ini_set |}.

Section read.
Context {I : Type} `{!IniStore I}.

(** A turn of the loop for a trimmed line: the section and what it sets. *)
Definition read_line (line section_name : bytes) (ini : I) : bytes * I :=
  match line with
  | [] => (section_name, ini)
  | c :: _ =>
      if bool_decide (c = "["%char) then
        match find_first_of "]"%char line with
        | None => (section_name, ini)
        | Some idx => (trim (take (idx - 1) (drop 1 line)), ini)
        end
      else
        match find_first_of "="%char line with
        | None => (section_name, ini)
        | Some idx =>
            let key := trim (take idx line) in
            if bool_decide (key = []) then (section_name, ini)
            else
              let value := trim (drop (idx + 1) line) in
              if bool_decide (value = []) then (section_name, ini)
              else (section_name, store section_name key value ini)
        end
  end.

Fixpoint read_lines (lines : list bytes) (section_name : bytes) (ini : I) : I :=
  match lines with
  | [] => ini
  | line :: lines =>
      let '(section_name, ini) := read_line (trim line) section_name ini in
      read_lines lines section_name ini
  end.

(** [stream >> ini] for the contents of the stream; a file that cannot be
    opened has none. *)
Definition read_ini (text : bytes) : I :=
  match getlines [] text with
  | [] => empty_ini
  | line :: lines => read_lines (strip_BOM line :: lines) [] empty_ini
  end.
End read.

(** [ini\[section\]\[key\]]: the empty string when it is not there. *)
Definition ini_get (section_name key : bytes) (ini : Ini) : bytes :=
  default [] (default ∅ (ini !! lower section_name) !! lower key).

Lemma ini_get_set s k v s' k' ini :
  ini_get s' k' (ini_set s k v ini)
  = if decide (lower s' = lower s ∧ lower k' = lower k) then v else ini_get s' k' ini.
Proof.
  unfold ini_get, ini_set, Ini, Section_ in *. destruct (decide (lower s' = lower s)) as [->|Hs].
  - rewrite lookup_insert_eq. cbn [from_option id].
    destruct (decide (lower k' = lower k)) as [->|Hk].
    + by rewrite lookup_insert_eq, decide_True.
    + rewrite lookup_insert_ne, decide_False by naive_solver. done.
  - rewrite lookup_insert_ne, decide_False by naive_solver. done.
Qed.

(** ** Conversions *)

(** The value of a digit in any base. *)
Definition digit_value (c : ascii) : Z :=
  let v := byte_val c in
  if (48 <=? v) && (v <=? 57) then v - 48
  else if (97 <=? v) && (v <=? 122) then v - 87
  else if (65 <=? v) && (v <=? 90) then v - 55
  else 99.

Fixpoint scan_base (base acc : Z) (s : bytes) : Z * bytes :=
  match s with
  | c :: s' => if digit_value c <? base then scan_base base (acc * base + digit_value c) s'
               else (acc, s)
  | [] => (acc, [])
  end.

Definition is_hex (o : option ascii) : bool :=
  match o with Some c => digit_value c <? 16 | None => false end.

(** The digits of a number in base 0: the base from the prefix, then the value
    and the rest; [None] when there is no digit. *)
Definition scan_number (s : bytes) : option (Z * bytes) :=
  match s with
  | [] => None
  | c :: s' =>
      if bool_decide (c = "0"%char) then
        match s' with
        | x :: s'' =>
            if (bool_decide (x = "x"%char) || bool_decide (x = "X"%char)) && is_hex (head s'')
            then Some (scan_base 16 0 s'') else Some (scan_base 8 0 s)
        | [] => Some (0, [])
        end
      else if digit_value c <? 10 then Some (scan_base 10 0 s) else None
  end.

(** An optional sign after spaces, then a number. *)
Definition strip_sign (s : bytes) : Z * bytes :=
  match s with
  | c :: s' =>
      if bool_decide (c = "-"%char) then (-1, s')
      else if bool_decide (c = "+"%char) then (1, s') else (1, s)
  | [] => (1, s)
  end.
Definition strto (s : bytes) : option (Z * Z * bytes) :=
  let '(sign, s) := strip_sign (ltrim s) in
  '(v, rest) ← scan_number s; Some (sign, v, rest).

(** [std::stoul(s, &idx, 0)]: the value and the unread characters, or the
    exception. *)
Definition stoul (s : bytes) : from_chars_result :=
  match strto s with
  | None => FcInvalid
  | Some (sign, v, rest) => if 2 ^ 64 - 1 <? v then FcOutOfRange else FcOk (u64 (sign * v)) rest
  end.

(** [value | fallback] for [unsigned int]: what follows the number is not
    looked at. *)
Definition as_uint (value : bytes) (fallback : Z) : Z :=
  match stoul value with
  | FcOk ul _ => if 2 ^ 32 - 1 <? ul then fallback else ul
  | _ => fallback
  end.

(** [strparse]: the number must be all of the string, or be followed by a NUL. *)
Definition strparse (Fn : bytes → from_chars_result) (s : bytes) (fallback : Z) : Z :=
  if bool_decide (s = []) then fallback
  else
    match Fn s with
    | FcOk v [] => v
    | FcOk v (c :: _) => if bool_decide (c = NUL) then v else fallback
    | _ => fallback
    end.

Definition as_ulong : bytes → Z → Z := strparse stoul.

Definition as_bool (value : bytes) (fallback : bool) : bool :=
  if bool_decide (value = []) then fallback
  else ci_equal value (lit "1") || ci_equal value (lit "true") || ci_equal value (lit "yes").

Definition as_string (value fallback : bytes) : bytes :=
  if bool_decide (value = []) then fallback else value.

(** ** [Config::ReadFromFile] *)

Definition ReadFromFile (text : bytes) (c : Config) : Outcome Config :=
  let ini := read_ini text in
  let redis_section key := ini_get (lit "redis") (lit key) ini in
  let rdss_section key := ini_get (lit "rdss") (lit key) ini in
  let port := as_uint (redis_section "port"%string) 6379 mod 2 ^ 16 in
  let hz := as_uint (redis_section "hz"%string) 10 in
  let maxclients := as_uint (redis_section "maxclients"%string) 10000 in
  let maxclients := if maxclients =? 0 then 10000 else maxclients in
  let maxmemory := as_ulong (redis_section "maxmemory"%string) (maxmemory c) in
  let maxmemory_policy_str :=
    as_string (redis_section "maxmemory-policy"%string) (lit "noeviction") in
  maxmemory_policy ← MaxmemoryPolicyStrToEnum maxmemory_policy_str;
  let maxmemory_samples := as_uint (redis_section "maxmemory-samples"%string) 5 in
  let cycle_time := as_uint (redis_section "active_expire_cycle_time_percent"%string) 25 in
  let stale := as_uint (redis_section "active_expire_acceptable_stale_percent"%string) 10 in
  let keys_per_loop := as_uint (redis_section "active_expire_keys_per_loop"%string) 20 in
  let client_executors := as_uint (rdss_section "client_executors"%string) 2 in
  let sqpoll := as_bool (rdss_section "sqpoll"%string) false in
  let max_direct_fds_per_exr := as_uint (rdss_section "max_direct_fds_per_exr"%string) 4096 in
  let use_ring_buffer := as_bool (rdss_section "use_ring_buffer"%string) true in
  let wait_batch_size := as_uint (rdss_section "wait_batch_size"%string) 1 in
  let submit_batch_size := as_uint (rdss_section "submit_batch_size"%string) 32 in
  Ok (mkConfig port hz maxclients maxmemory maxmemory_policy maxmemory_samples cycle_time stale
        keys_per_loop client_executors sqpoll max_direct_fds_per_exr use_ring_buffer
        submit_batch_size wait_batch_size).

(** ** Lines *)

Definition no_space_ends (s : bytes) : Prop :=
  (∀ c, head s = Some c → isspace c = false) ∧ (∀ c, last s = Some c → isspace c = false).

Lemma ltrim_id s : (∀ c, head s = Some c → isspace c = false) → ltrim s = s.
Proof. destruct s as [|c s]; [done|]. simpl. intros H. by rewrite (H c). Qed.

Lemma trim_id s : no_space_ends s → trim s = s.
Proof.
  intros [Hh Hl]. unfold trim, rtrim. rewrite (ltrim_id s) by done.
  rewrite ltrim_id; [apply reverse_involutive|]. intros c Hc. apply Hl. by rewrite head_reverse in Hc.
Qed.

Lemma ltrim_space s : ltrim (" "%char :: s) = ltrim s.
Proof. done. Qed.

Lemma trim_space_l s : trim (" "%char :: s) = trim s.
Proof. unfold trim. by rewrite ltrim_space. Qed.

Lemma trim_space_r s : no_space_ends s → s ≠ [] → trim (s ++ [" "%char]) = s.
Proof.
  intros Hs Hne. unfold trim, rtrim.
  assert (ltrim (s ++ [" "%char]) = s ++ [" "%char]) as ->.
  { destruct s as [|c s]; [done|]. simpl. by rewrite (proj1 Hs c eq_refl). }
  rewrite reverse_snoc, ltrim_space. rewrite ltrim_id; [apply reverse_involutive|].
  intros c Hc. apply (proj2 Hs). by rewrite head_reverse in Hc.
Qed.

Lemma find_first_of_app x s t : x ∉ s → find_first_of x (s ++ x :: t) = Some (length s).
Proof.
  induction s as [|c s IH]; intros Hx; cbn [app find_first_of].
  - by rewrite bool_decide_true.
  - apply not_elem_of_cons in Hx as [Hne Hx].
    rewrite bool_decide_false by congruence. by rewrite IH.
Qed.

(** The lines of a text. *)
Lemma getlines_line cur l s :
  LF ∉ l → getlines cur (l ++ LF :: s) = (cur ++ l) :: getlines [] s.
Proof.
  revert cur. induction l as [|c l IH]; intros cur Hl; cbn [app getlines].
  - by rewrite bool_decide_true, app_nil_r.
  - apply not_elem_of_cons in Hl as [Hne Hl]. rewrite bool_decide_false by congruence.
    rewrite IH by done. by rewrite <- app_assoc.
Qed.

Lemma getlines_lines ls :
  Forall (λ l, LF ∉ l) ls → getlines [] (concat (map (λ l, l ++ [LF]) ls)) = ls.
Proof.
  induction 1 as [|l ls Hl _ IH]; [done|]. cbn [map concat]. rewrite <- app_assoc. simpl.
  rewrite getlines_line by done. by rewrite IH.
Qed.

(** [key = value]. *)
Definition setting (key value : bytes) : bytes := key ++ lit " = " ++ value.

(** A name or value as a file may have it. *)
Definition plain (s : bytes) : Prop := no_space_ends s ∧ s ≠ [] ∧ LF ∉ s.

Lemma setting_ends key value : plain key → plain value → no_space_ends (setting key value).
Proof.
  intros [[Hk _] [Hkn _]] [[_ Hv] [Hvn _]]. unfold setting. split.
  - destruct key; [done|]. intros c. apply Hk.
  - rewrite !last_app. destruct (last value) as [x|] eqn:E; [|by apply last_None in E].
    intros c [= <-]. by apply Hv.
Qed.

Lemma read_line_setting {I} `{!IniStore I} key value section (ini : I) :
  plain key → plain value → "="%char ∉ key → head key ≠ Some "["%char →
  read_line (trim (setting key value)) section ini = (section, store section key value ini).
Proof.
  intros Hk Hv Heq Hh. rewrite trim_id by (by apply setting_ends).
  assert (find_first_of "="%char (setting key value) = Some (S (length key))) as Hf.
  { unfold setting. change (lit " = " ++ value) with ([" "%char] ++ "="%char :: " "%char :: value).
    rewrite app_assoc, find_first_of_app; [rewrite length_app; f_equal; simpl; lia|].
    intros [?|?%list_elem_of_singleton]%elem_of_app; done. }
  unfold read_line. destruct (setting key value) as [|c s] eqn:E.
  { destruct key; [by destruct Hk as (_ & ? & _)|done]. }
  rewrite bool_decide_false.
  2: { intros ->. apply Hh. destruct key; [by destruct Hk as (_ & ? & _)|]. by injection E as -> _. }
  rewrite Hf. rewrite <- E.
  assert (take (S (length key)) (setting key value) = key ++ [" "%char]) as ->.
  { unfold setting. rewrite take_app_ge by lia.
    by replace (S (length key) - length key)%nat with 1%nat by lia. }
  assert (drop (S (length key) + 1) (setting key value) = " "%char :: value) as ->.
  { unfold setting. rewrite drop_app_ge by lia.
    by replace (S (length key) + 1 - length key)%nat with 2%nat by lia. }
  rewrite trim_space_r by apply Hk. rewrite trim_space_l, trim_id by apply Hv.
  rewrite !bool_decide_false by (apply Hk || apply Hv). done.
Qed.

(** ** Numbers *)

Lemma dec_digits_head fuel z acc :
  0 < z < 10 ^ Z.of_nat fuel →
  ∃ c rest, dec_digits fuel z acc = c :: rest ∧ c ≠ "0"%char ∧ isdigit c = true.
Proof.
  revert z acc. induction fuel as [|fuel IH]; intros z acc Hz.
  { change (10 ^ Z.of_nat 0) with 1 in Hz. lia. }
  cbn [dec_digits]. rewrite Nat2Z.inj_succ, Z.pow_succ_r in Hz by lia.
  pose proof (Z.div_mod z 10). pose proof (Z.mod_pos_bound z 10).
  destruct (Z.eqb_spec (z / 10) 0) as [E|E].
  - eexists _, _. split; [done|]. assert (byte_val (digit (z mod 10)) = 48 + z mod 10) as Hb
      by (apply digit_val; lia).
    split; [intros E'; rewrite E' in Hb; change (byte_val "0"%char) with 48 in Hb; lia
           |apply digit_isdigit; lia].
  - apply IH. split; [|apply Z.div_lt_upper_bound; lia].
    assert (0 ≤ z / 10) by (apply Z.div_pos; lia). lia.
Qed.

Lemma digit_value_digit c : isdigit c = true → digit_value c = byte_val c - 48.
Proof. unfold isdigit, digit_value. by intros ->. Qed.

Lemma digit_range c : isdigit c = true → 48 ≤ byte_val c ≤ 57.
Proof. unfold isdigit. intros [H1%Z.leb_le H2%Z.leb_le]%andb_prop. lia. Qed.

Lemma scan_base_digits acc ds :
  Forall (λ c, isdigit c = true) ds → scan_base 10 acc ds = (digits_val acc ds, []).
Proof.
  intros Hd. revert acc. induction Hd as [|c ds Hc _ IH]; intros acc; [done|]. cbn [scan_base].
  rewrite digit_value_digit by done. pose proof (digit_range c Hc). rewrite Zltb_t by lia.
  by rewrite IH.
Qed.

Lemma digit_not_space c : isdigit c = true → isspace c = false.
Proof.
  intros Hc%digit_range. unfold isspace. rewrite Zeqb_f by lia. simpl.
  rewrite (Zleb_f (byte_val c)) by lia. by rewrite andb_false_r.
Qed.

Lemma digits_plain s : Forall (λ c, isdigit c = true) s → s ≠ [] → plain s.
Proof.
  intros Hd Hne. rewrite Forall_forall in Hd. split_and!; [split; intros c Hc|done|].
  - apply digit_not_space, Hd. destruct s; [done|]. injection Hc as <-. left.
  - apply digit_not_space, Hd. by apply last_Some_elem_of.
  - intros Hin. apply Hd in Hin. done.
Qed.

Lemma to_chars_plain z : 0 ≤ z < 2 ^ 64 → plain (to_chars z).
Proof. intros Hz. apply digits_plain; apply (to_chars_nonneg 20); (done || lia). Qed.

Lemma scan_number_to_chars z : 0 ≤ z < 2 ^ 64 → scan_number (to_chars z) = Some (z, []).
Proof.
  intros Hz. destruct (to_chars_nonneg 20 z) as (Hd & Hne & _ & Hv); [lia|done|done|].
  destruct (decide (z = 0)) as [->|Hnz]; [reflexivity|].
  destruct (dec_digits_head 20 z []) as (c & rest & E & Hc0 & Hc); [lia|].
  unfold to_chars in *. rewrite Zltb_f in * by lia. rewrite E in *.
  pose proof (digit_range c Hc) as Hr. unfold scan_number.
  rewrite bool_decide_false, digit_value_digit by done. rewrite Zltb_t by lia.
  by rewrite scan_base_digits, Hv by done.
Qed.

Lemma strto_to_chars z : 0 ≤ z < 2 ^ 64 → strto (to_chars z) = Some (1, z, []).
Proof.
  intros Hz. pose proof (to_chars_plain z Hz) as [[Hh _] [Hne _]].
  destruct (to_chars_nonneg 20 z) as (Hd & _); [lia|done|done|].
  unfold strto. rewrite ltrim_id by done.
  replace (strip_sign (to_chars z)) with (1, to_chars z); [by rewrite scan_number_to_chars|].
  destruct (to_chars z) as [|c s]; [done|]. apply Forall_cons in Hd as [Hc%digit_range _].
  unfold strip_sign. rewrite !bool_decide_false; [done|intros ->..];
    vm_compute in Hc; destruct Hc as [Hc _]; by apply Hc.
Qed.

Lemma stoul_to_chars z : 0 ≤ z < 2 ^ 64 → stoul (to_chars z) = FcOk z [].
Proof.
  intros Hz. unfold stoul. rewrite strto_to_chars by done. rewrite Zltb_f by lia.
  by rewrite Z.mul_1_l, u64_small.
Qed.

Lemma as_uint_to_chars z d : 0 ≤ z < 2 ^ 32 → as_uint (to_chars z) d = z.
Proof. intros Hz. unfold as_uint. rewrite stoul_to_chars by lia. by rewrite Zltb_f by lia. Qed.

Lemma as_ulong_to_chars z d : 0 ≤ z < 2 ^ 64 → as_ulong (to_chars z) d = z.
Proof.
  intros Hz. unfold as_ulong, strparse. rewrite stoul_to_chars by done.
  rewrite bool_decide_false; [done|]. apply (to_chars_plain z Hz).
Qed.

(** ** A file for every configuration *)

Definition show_yes (b : bool) : bytes := if b then lit "yes" else lit "no".

Definition redis_values (v1 v2 v3 v4 v5 v6 v7 v8 v9 : bytes) : list (bytes * bytes) :=
  [(lit "port", v1); (lit "hz", v2); (lit "maxclients", v3); (lit "maxmemory", v4);
   (lit "maxmemory-policy", v5); (lit "maxmemory-samples", v6);
   (lit "active_expire_cycle_time_percent", v7);
   (lit "active_expire_acceptable_stale_percent", v8); (lit "active_expire_keys_per_loop", v9)].

Definition rdss_values (w1 w2 w3 w4 w5 w6 : bytes) : list (bytes * bytes) :=
  [(lit "client_executors", w1); (lit "sqpoll", w2); (lit "max_direct_fds_per_exr", w3);
   (lit "use_ring_buffer", w4); (lit "submit_batch_size", w5); (lit "wait_batch_size", w6)].

Definition redis_settings (c : Config) : list (bytes * bytes) :=
  redis_values (to_chars (port c)) (to_chars (hz c)) (to_chars (maxclients c))
    (to_chars (maxmemory c)) (MaxmemoryPolicyEnumToStr (maxmemory_policy c))
    (to_chars (maxmemory_samples c)) (to_chars (active_expire_cycle_time_percent c))
    (to_chars (active_expire_acceptable_stale_percent c))
    (to_chars (active_expire_keys_per_loop c)).

Definition rdss_settings (c : Config) : list (bytes * bytes) :=
  rdss_values (to_chars (client_executors c)) (show_yes (sqpoll c))
    (to_chars (max_direct_fds_per_exr c)) (show_yes (use_ring_buffer c))
    (to_chars (submit_batch_size c)) (to_chars (wait_batch_size c)).

Definition config_lines (c : Config) : list bytes :=
  lit "[redis]" :: map (λ p, setting p.1 p.2) (redis_settings c)
  ++ lit "[rdss]" :: map (λ p, setting p.1 p.2) (rdss_settings c).

Definition config_text (c : Config) : bytes := concat (map (λ l, l ++ [LF]) (config_lines c)).

(** The values the fields can hold; [maxclients] is never 0 after reading. *)
Record config_ok (c : Config) : Prop := {
  ck_port : 0 ≤ port c < 2 ^ 16;
  ck_maxclients : 0 < maxclients c < 2 ^ 32;
  ck_maxmemory : 0 ≤ maxmemory c < 2 ^ 64;
  ck_u32 : Forall (λ z, 0 ≤ z < 2 ^ 32)
    [hz c; maxmemory_samples c; active_expire_cycle_time_percent c;
     active_expire_acceptable_stale_percent c; active_expire_keys_per_loop c;
     client_executors c; max_direct_fds_per_exr c; submit_batch_size c; wait_batch_size c] }.

Definition setting_ok (p : bytes * bytes) : Prop :=
  plain p.1 ∧ plain p.2 ∧ ("="%char ∉ p.1) ∧ head p.1 ≠ Some "["%char.

Lemma read_settings {I} `{!IniStore I} l section (ini : I) lines :
  Forall setting_ok l →
  read_lines (map (λ p, setting p.1 p.2) l ++ lines) section ini
  = read_lines lines section (foldl (λ i p, store section p.1 p.2 i) ini l).
Proof.
  intros Hl. revert ini. induction Hl as [|[k v] l (Hk & Hv & Heq & Hh) _ IH]; intros ini; [done|].
  cbn [map app read_lines foldl fst snd]. rewrite read_line_setting by done. apply IH.
Qed.

Lemma setting_no_LF k v : plain k → plain v → LF ∉ setting k v.
Proof.
  intros (_ & _ & Hk) (_ & _ & Hv). unfold setting.
  intros [?|[Hin|?]%elem_of_app]%elem_of_app; [done| |done].
  by repeat (apply elem_of_cons in Hin as [Hin|Hin]; [done|]); apply not_elem_of_nil in Hin.
Qed.

Definition plainb (s : bytes) : bool :=
  match head s, last s with
  | Some a, Some z => negb (isspace a) && negb (isspace z) && bool_decide (LF ∉ s)
  | _, _ => false
  end.

Lemma plainb_plain s : plainb s = true → plain s.
Proof.
  unfold plainb. destruct (head s) as [a|] eqn:Ha; [|done]. destruct (last s) as [z|] eqn:Hz; [|done].
  intros [[H1%negb_true_iff H2%negb_true_iff]%andb_prop H3%bool_decide_eq_true]%andb_prop.
  split_and!; [split; congruence|by intros ->|done].
Qed.

(** A literal key with a plain value. *)
Lemma setting_lit_ok k v :
  plainb k && (bool_decide (("="%char) ∉ k)) && (bool_decide (head k ≠ Some ("["%char))) = true →
  plain v → setting_ok (k, v).
Proof.
  intros [[H1%plainb_plain H2%bool_decide_eq_true]%andb_prop H3%bool_decide_eq_true]%andb_prop Hv.
  done.
Qed.

Lemma policy_plain p : plain (MaxmemoryPolicyEnumToStr p).
Proof. apply plainb_plain. by destruct p. Qed.
Lemma show_yes_plain b : plain (show_yes b).
Proof. apply plainb_plain. by destruct b. Qed.

Lemma settings_ok c :
  config_ok c → Forall setting_ok (redis_settings c) ∧ Forall setting_ok (rdss_settings c).
Proof.
  intros [Hp Hc Hm Hu]. repeat (apply Forall_cons in Hu as [? Hu]).
  unfold redis_settings, rdss_settings, redis_values, rdss_values.
  split; repeat (apply Forall_cons; split); try apply Forall_nil_2;
    (apply setting_lit_ok; [vm_compute; reflexivity|]);
    match goal with
    | |- plain (to_chars _) => apply to_chars_plain; lia
    | |- plain (show_yes _) => apply show_yes_plain
    | |- plain _ => apply policy_plain
    end.
Qed.

Lemma config_lines_no_LF c : config_ok c → Forall (λ l, LF ∉ l) (config_lines c).
Proof.
  intros [Hr Hs]%settings_ok. unfold config_lines.
  assert (∀ l, Forall setting_ok l → Forall (λ l, LF ∉ l) (map (λ p, setting p.1 p.2) l)) as Hl.
  { intros l H. apply Forall_map. eapply Forall_impl; [exact H|].
    intros p (Hk & Hv & _). by apply setting_no_LF. }
  apply Forall_cons. split; [by apply (bool_decide_unpack _)|]. apply Forall_app. split; [auto|].
  apply Forall_cons. split; [by apply (bool_decide_unpack _)|auto].
Qed.

(** What the reader holds after a file with these settings. *)
Definition settings_ini (c : Config) : Ini :=
  foldl (λ i p, ini_set (lit "rdss") p.1 p.2 i)
    (foldl (λ i p, ini_set (lit "redis") p.1 p.2 i) ∅ (redis_settings c)) (rdss_settings c).

Lemma read_config_text c : config_ok c → read_ini (config_text c) = settings_ini c.
Proof.
  intros Hc. destruct (settings_ok c Hc) as [Hr Hs]. unfold read_ini, config_text.
  rewrite getlines_lines by (by apply config_lines_no_LF). unfold config_lines.
  change (strip_BOM (lit "[redis]")) with (lit "[redis]"). cbn [read_lines].
  change (read_line (trim (lit "[redis]")) [] empty_ini) with (lit "redis", (∅ : Ini)). cbn iota beta.
  rewrite read_settings by done. cbn [read_lines].
  change (read_line (trim (lit "[rdss]")) (lit "redis") ?i) with (lit "rdss", i). cbn iota beta.
  rewrite <- (app_nil_r (map _ (rdss_settings c))). by rewrite read_settings.
Qed.

(** Every setting is found, whatever the values. *)
Definition get_all (ini : Ini) : list bytes :=
  map (λ p, ini_get (lit p.1) (lit p.2) ini)
    (map (pair "redis"%string)
       ["port"; "hz"; "maxclients"; "maxmemory"; "maxmemory-policy"; "maxmemory-samples";
        "active_expire_cycle_time_percent"; "active_expire_acceptable_stale_percent";
        "active_expire_keys_per_loop"]%string
     ++ map (pair "rdss"%string)
       ["client_executors"; "sqpoll"; "max_direct_fds_per_exr"; "use_ring_buffer";
        "submit_batch_size"; "wait_batch_size"]%string).

Lemma get_all_values v1 v2 v3 v4 v5 v6 v7 v8 v9 w1 w2 w3 w4 w5 w6 :
  get_all (foldl (λ i p, ini_set (lit "rdss") p.1 p.2 i)
             (foldl (λ i p, ini_set (lit "redis") p.1 p.2 i) ∅
                (redis_values v1 v2 v3 v4 v5 v6 v7 v8 v9)) (rdss_values w1 w2 w3 w4 w5 w6))
  = [v1; v2; v3; v4; v5; v6; v7; v8; v9; w1; w2; w3; w4; w5; w6].
Proof. vm_compute. reflexivity. Qed.

(** C21: Every configuration can be written as a file and is read back from it:
    for every value of the settings within their types (with at least one
    client allowed), [ReadFromFile] of the file that sets them, whatever the
    configuration was before, gives exactly that configuration; every setting
    has its effect and none disturbs another. *)
Theorem config_file_round_trip c before :
  config_ok c → ReadFromFile (config_text c) before = Ok c.
Proof.
  intros Hc. unfold ReadFromFile. rewrite read_config_text by done.
  unfold settings_ini, redis_settings, rdss_settings.
  match goal with |- context [foldl ?f (foldl ?g ∅ (redis_values ?a1 ?a2 ?a3 ?a4 ?a5 ?a6 ?a7 ?a8 ?a9))
    (rdss_values ?b1 ?b2 ?b3 ?b4 ?b5 ?b6)] =>
    pose proof (get_all_values a1 a2 a3 a4 a5 a6 a7 a8 a9 b1 b2 b3 b4 b5 b6) as Hv;
    generalize dependent (foldl f (foldl g ∅ (redis_values a1 a2 a3 a4 a5 a6 a7 a8 a9))
      (rdss_values b1 b2 b3 b4 b5 b6)); intros ini Hv
  end.
  unfold get_all in Hv. cbn [map app fst snd] in Hv.
  injection Hv as E1 E2 E3 E4 E5 E6 E7 E8 E9 F1 F2 F3 F4 F5 F6.
  cbv zeta. cbn [lit String.list_ascii_of_string] in *. rewrite E1, E2, E3, E4, E5, E6, E7, E8, E9, F1, F2, F3, F4, F5, F6.
  destruct Hc as [Hp Hm Hmm Hu]. repeat (apply Forall_cons in Hu as [? Hu]).
  rewrite !as_uint_to_chars by lia. rewrite as_ulong_to_chars by lia.
  rewrite Zeqb_f by lia. rewrite Z.mod_small by lia.
  replace (as_string _ _) with (MaxmemoryPolicyEnumToStr (maxmemory_policy c))
    by (by destruct (maxmemory_policy c)).
  rewrite policy_str_enum. cbn [mbind outcome_bind].
  replace (as_bool (show_yes (sqpoll c)) false) with (sqpoll c) by by destruct (sqpoll c).
  replace (as_bool (show_yes (use_ring_buffer c)) true) with (use_ring_buffer c)
    by by destruct (use_ring_buffer c).
  by destruct c.
Qed.

(** ** Any file *)

Lemma stoul_range s v rest : stoul s = FcOk v rest → 0 ≤ v < 2 ^ 64.
Proof.
  unfold stoul. destruct (strto s) as [[[sign n] r]|]; [|done]. destruct (_ <? _); [done|].
  intros [= <- _]. apply u64_range.
Qed.

Lemma as_uint_range s d : 0 ≤ d < 2 ^ 32 → 0 ≤ as_uint s d < 2 ^ 32.
Proof.
  intros Hd. unfold as_uint. destruct (stoul s) as [v r| |] eqn:E; [|done..].
  apply stoul_range in E. destruct (Z.ltb_spec (2 ^ 32 - 1) v); lia.
Qed.

Lemma as_ulong_range s d : 0 ≤ d < 2 ^ 64 → 0 ≤ as_ulong s d < 2 ^ 64.
Proof.
  intros Hd. unfold as_ulong, strparse. destruct (bool_decide _); [done|].
  destruct (stoul s) as [v [|c r]| |] eqn:E; [|destruct (bool_decide _)|..]; try done;
    by apply stoul_range in E.
Qed.

Lemma policy_unknown s f :
  MaxmemoryPolicyStrToEnum s = Fault f → f = LogFatal ∧ ∀ p, s ≠ MaxmemoryPolicyEnumToStr p.
Proof.
  unfold MaxmemoryPolicyStrToEnum. repeat case_bool_decide; try done. intros [= <-].
  split; [done|]. by intros [].
Qed.
Lemma policy_total s : MaxmemoryPolicyStrToEnum s ≠ Diverge.
Proof. unfold MaxmemoryPolicyStrToEnum. by repeat case_bool_decide. Qed.

(** C37: Whatever the bytes of the configuration file, reading it either yields
    a configuration whose fields are within their types, with at least one
    client allowed, or stops at an unknown eviction policy, the only fatal
    error of the reader. *)
Theorem config_file_total text before :
  0 ≤ maxmemory before < 2 ^ 64 →
  (∃ c, ReadFromFile text before = Ok c ∧ config_ok c) ∨
  ReadFromFile text before = Fault LogFatal ∧
  ∀ p, as_string (ini_get (lit "redis") (lit "maxmemory-policy") (read_ini text))
         (lit "noeviction") ≠ MaxmemoryPolicyEnumToStr p.
Proof.
  intros Hm. unfold ReadFromFile. cbv zeta.
  set (policy := as_string _ _). destruct (MaxmemoryPolicyStrToEnum policy) as [p|f|] eqn:E;
    cbn [mbind outcome_bind].
  - left. eexists. split; [reflexivity|].
    split; cbn [port maxclients maxmemory hz maxmemory_samples active_expire_cycle_time_percent
      active_expire_acceptable_stale_percent active_expire_keys_per_loop client_executors
      max_direct_fds_per_exr submit_batch_size wait_batch_size].
    + apply Z.mod_pos_bound. lia.
    + match goal with |- context [as_uint ?s ?d] =>
        pose proof (as_uint_range s d ltac:(lia)) end. bcase; lia.
    + by apply as_ulong_range.
    + repeat (apply Forall_cons; split); try apply Forall_nil_2; apply as_uint_range; lia.
  - right. apply policy_unknown in E as [-> Hp]. by split.
  - by apply policy_total in E.
Qed.

Lemma config_file_round_trip_witness :
  let c := mkConfig 7000 100 50 1048576 kAllKeysLru 8 30 5 40 4 true 1024 false 16 2 in
  ReadFromFile (config_text c) default_config = Ok c.
Proof.
  intros c. apply (config_file_round_trip c default_config).
  split; [vm_compute; split; congruence..|].
  repeat (apply Forall_cons; split); try apply Forall_nil_2; vm_compute; split; congruence.
Defined.

Lemma config_file_total_witness :
  let text := lit "[REDIS]" ++ [LF] ++ lit "Port = 0x1F90 ; hex" ++ [LF] ++ lit "hz=junk" in
  (∃ c, ReadFromFile text default_config = Ok c ∧ config_ok c) ∨
  ReadFromFile text default_config = Fault LogFatal ∧
  ∀ p, as_string (ini_get (lit "redis") (lit "maxmemory-policy") (read_ini text))
         (lit "noeviction") ≠ MaxmemoryPolicyEnumToStr p.
Proof.
  intros text. apply (config_file_total text default_config). vm_compute. split; congruence.
Defined.
