(* ===== verification/IniFile.v ===== *)
(** * The INI library: its ordered maps, and writing files

    The rest of src/src/external/tortellini.hh: the maps with their
    case-insensitive order ([std::map] keeps its entries sorted and the first
    spelling of a key), [operator<<], the assignment of values and the
    conversions of signed numbers.

    The ordered maps implement the finite maps of [Ini]
    ([read_file_refines]); a file that was read, written and read again gives the
    same object ([rewritten_file_same]), and a value assigned under a name is
    what the object answers after it was saved and loaded
    ([saved_value_loaded]). *)

From Stdlib Require Import Sorted.
From S2P Require Import Prelude Chars Config Ini.

(** ** [std::map] with [case_insensitive] *)

(** [std::lexicographical_compare] of the lower-case characters. *)
Fixpoint ci_less (l r : bytes) : bool :=
  match l, r with
  | _, [] => false
  | [], _ :: _ => true
  | a :: l, b :: r =>
      if byte_val (tolower a) <? byte_val (tolower b) then true
      else if byte_val (tolower b) <? byte_val (tolower a) then false
      else ci_less l r
  end.

Section smap.
Context {V : Type}.

Abbreviation smap := (list (bytes * V)).

(** [map\[key\]], a reference to which [f] is applied: a missing key is
    inserted before the first larger one, a present one keeps its spelling. *)
Fixpoint smap_at (d : V) (key : bytes) (f : V → V) (m : smap) : smap :=
  match m with
  | [] => [(key, f d)]
  | (k, v) :: m' =>
      if ci_less k key then (k, v) :: smap_at d key f m'
      else if ci_less key k then (key, f d) :: m else (k, f v) :: m'
  end.

(** [map.find(key)]. *)
Fixpoint smap_find (key : bytes) (m : smap) : option V :=
  match m with
  | [] => None
  | (k, v) :: m' =>
      if ci_less k key then smap_find key m'
      else if ci_less key k then None else Some v
  end.
End smap.

(** ** The object *)

Definition IniFile := list (bytes * list (bytes * bytes)).

(** [ini\[section\]\[key\]] as a reference: what is missing is inserted. *)
Definition file_at (section_name key : bytes) (f : bytes → bytes) (ini : IniFile) : IniFile :=
  smap_at [] section_name (smap_at [] key f) ini.

Definition file_set (section_name key value : bytes) : IniFile → IniFile :=
  file_at section_name key (λ _, value).
#[global] Instance file_store : IniStore IniFile := {| empty_ini := []; store := file_set |}.

Definition read_file (text : bytes) : IniFile := read_ini text.

(** A look-up; it leaves an empty value where there was none. *)
Definition file_get (section_name key : bytes) (ini : IniFile) : bytes * IniFile :=
  let ini := file_at section_name key id ini in
  (default [] (smap_find section_name ini ≫= smap_find key), ini).

(** ** [operator<<] *)

Definition emit (kv : bytes * bytes) : bytes := setting kv.1 kv.2 ++ [LF].
Definition skipped (kv : bytes * bytes) : bool :=
  bool_decide (kv.1 = []) || bool_decide (kv.2 = []).

(** The values without a section. *)
Fixpoint write_unnamed (kvs : list (bytes * bytes)) (stream : bytes) (has_sections : bool)
  : bytes * bool :=
  match kvs with
  | [] => (stream, has_sections)
  | kv :: kvs =>
      if skipped kv then write_unnamed kvs stream has_sections
      else write_unnamed kvs (stream ++ emit kv) true
  end.

(** The values of a section, its name before the first. *)
Fixpoint write_section (name : bytes) (kvs : list (bytes * bytes)) (has_emitted : bool)
    (stream : bytes) (has_sections : bool) : bytes * bool :=
  match kvs with
  | [] => (stream, has_sections)
  | kv :: kvs =>
      if skipped kv then write_section name kvs has_emitted stream has_sections
      else
        let stream :=
          if has_emitted then stream
          else (if has_sections then stream ++ [LF] else stream) ++ ["["%char] ++ name ++ ["]"%char; LF] in
        write_section name kvs true (stream ++ emit kv) (if has_emitted then has_sections else true)
  end.

Fixpoint write_sections (ini : IniFile) (stream : bytes) (has_sections : bool) : bytes :=
  match ini with
  | [] => stream
  | (name, kvs) :: ini =>
      if bool_decide (name = []) then write_sections ini stream has_sections
      else
        let '(stream, has_sections) := write_section name kvs false stream has_sections in
        write_sections ini stream has_sections
  end.

Definition write_ini (ini : IniFile) : bytes :=
  let '(stream, has_sections) :=
    match smap_find [] ini with
    | Some kvs => write_unnamed kvs [] false
    | None => ([], false)
    end in
  write_sections ini stream has_sections.

(** ** Assigning and converting values *)

(** What a value may be; [to_string]. *)
Inductive Value :=
  | VBool (b : bool)
  | VUint (z : Z)
  | VUlong (z : Z)
  | VInt (z : Z)
  | VLong (z : Z)
  | VString (s : bytes).

Definition to_string (v : Value) : bytes :=
  match v with
  | VBool b => if b then lit "yes" else lit "no"
  | VUint z | VUlong z | VInt z | VLong z => to_chars z
  | VString s => s
  end.

Definition stol (s : bytes) : from_chars_result :=
  match strto s with
  | None => FcInvalid
  | Some (sign, v, rest) =>
      if (i64_min <=? sign * v) && (sign * v <=? i64_max) then FcOk (sign * v) rest
      else FcOutOfRange
  end.
Definition stoi (s : bytes) : from_chars_result :=
  match stol s with
  | FcOk v rest => if (- 2 ^ 31 <=? v) && (v <=? 2 ^ 31 - 1) then FcOk v rest else FcOutOfRange
  | r => r
  end.

(** [value | fallback], the fallback's type choosing the conversion. *)
Definition value_or (value : bytes) (fallback : Value) : Value :=
  match fallback with
  | VBool b => VBool (as_bool value b)
  | VUint z => VUint (as_uint value z)
  | VUlong z => VUlong (as_ulong value z)
  | VInt z => VInt (strparse stoi value z)
  | VLong z => VLong (strparse stol value z)
  | VString s => VString (as_string value s)
  end.

(** ** The order of keys *)

Lemma byte_val_inj a b : byte_val a = byte_val b → a = b.
Proof.
  unfold byte_val. intros E%N2Z.inj. rewrite <- (ascii_N_embedding a), <- (ascii_N_embedding b).
  by rewrite E.
Qed.

Lemma ci_less_false l r : ci_less l r = false → ci_less r l = false → lower l = lower r.
Proof.
  revert r. induction l as [|a l IH]; intros [|b r]; cbn [ci_less]; try done.
  destruct (Z.ltb_spec (byte_val (tolower a)) (byte_val (tolower b))); [done|].
  destruct (Z.ltb_spec (byte_val (tolower b)) (byte_val (tolower a))); [done|].
  intros H1 H2. cbn [lower map]. f_equal; [apply byte_val_inj; lia|by apply IH].
Qed.

Lemma ci_less_same l r : lower l = lower r → ci_less l r = false.
Proof.
  revert r. induction l as [|a l IH]; intros [|b r]; cbn [ci_less lower map]; try done.
  intros [= E1 E2]. rewrite E1, Z.ltb_irrefl. by apply IH.
Qed.

Lemma ci_less_trans l m r : ci_less l m = true → ci_less m r = true → ci_less l r = true.
Proof.
  revert m r. induction l as [|a l IH]; intros [|b m] [|c r]; cbn [ci_less]; try done.
  repeat match goal with |- context [?x <? ?y] => destruct (Z.ltb_spec x y) end;
    try done; try lia. apply IH.
Qed.

Lemma ci_less_ne l r : ci_less l r = true → lower l ≠ lower r.
Proof. intros H1 E. by rewrite (ci_less_same _ _ E) in H1. Qed.

Lemma ci_less_asym l r : ci_less l r = true → ci_less r l = false.
Proof.
  intros H1. destruct (ci_less r l) eqn:H2; [|done].
  by pose proof (ci_less_ne _ _ (ci_less_trans _ _ _ H1 H2)).
Qed.

Lemma ci_less_le_trans n k q : ci_less n k = false → ci_less n q = true → ci_less k q = true.
Proof.
  intros E1 Hm. destruct (ci_less k n) eqn:E2; [by eapply ci_less_trans|].
  destruct (ci_less k q) eqn:E3; [done|]. exfalso. destruct (ci_less q k) eqn:E4.
  - pose proof (ci_less_trans _ _ _ Hm E4). congruence.
  - apply (ci_less_ne _ _ Hm). rewrite (ci_less_false _ _ E1 E2). by apply ci_less_false.
Qed.

Lemma ci_less_empty k : k ≠ [] → ci_less [] k = true ∧ ci_less k [] = false.
Proof. by destruct k. Qed.

(** ** The ordered maps are finite maps *)

Section smap_props.
Context {V : Type}.
Abbreviation smap := (list (bytes * V)).
Implicit Types m : smap.

Definition sorted m : Prop := StronglySorted (λ p q, ci_less p.1 q.1 = true) m.
Definition smap_map m : gmap bytes V := list_to_map (prod_map lower id <$> m).
Definition below key m : Prop := Forall (λ p, ci_less p.1 key = true) m.

Lemma sorted_cons p m :
  sorted (p :: m) ↔ Forall (λ q, ci_less p.1 q.1 = true) m ∧ sorted m.
Proof. split; [by intros [? ?]%StronglySorted_inv|intros [? ?]; by constructor]. Qed.

Lemma smap_map_cons k v m : smap_map ((k, v) :: m) = <[lower k := v]> (smap_map m).
Proof. done. Qed.

Lemma above_not_in key m :
  Forall (λ q, ci_less key q.1 = true) m → smap_map m !! lower key = None.
Proof.
  intros Hm. apply not_elem_of_list_to_map_1. intros Hin.
  apply list_elem_of_fmap in Hin as (p & E & Hp). apply list_elem_of_fmap in Hp as (q & -> & Hq).
  rewrite Forall_forall in Hm. by apply (ci_less_ne _ _ (Hm _ Hq)).
Qed.

Lemma smap_find_map key m : sorted m → smap_find key m = smap_map m !! lower key.
Proof.
  induction m as [|[k v] m IH]; [done|]. intros [Hm Hs]%sorted_cons. cbn [smap_find].
  destruct (ci_less k key) eqn:E1.
  - rewrite smap_map_cons, lookup_insert_ne by (by apply ci_less_ne). by apply IH.
  - destruct (ci_less key k) eqn:E2.
    + symmetry. apply (above_not_in key ((k, v) :: m)). apply Forall_cons. split; [done|].
      eapply Forall_impl; [done|]. simpl. intros q. by apply ci_less_trans.
    + by rewrite smap_map_cons, (ci_less_false _ _ E1 E2), lookup_insert_eq.
Qed.

Lemma smap_at_map d key f m :
  sorted m →
  smap_map (smap_at d key f m) = <[lower key := f (default d (smap_map m !! lower key))]> (smap_map m).
Proof.
  induction m as [|[k v] m IH]; [done|]. intros Hc. pose proof Hc as [Hm Hs]%sorted_cons.
  cbn [smap_at]. destruct (ci_less k key) eqn:E1.
  - pose proof (ci_less_ne _ _ E1). rewrite !smap_map_cons, IH by done.
    rewrite lookup_insert_ne by done. by rewrite insert_insert_ne.
  - destruct (ci_less key k) eqn:E2.
    + rewrite <- (smap_find_map key) by done. cbn [smap_find]. by rewrite E1, E2.
    + pose proof (ci_less_false _ _ E1 E2) as E.
      by rewrite !smap_map_cons, E, lookup_insert_eq, insert_insert_eq.
Qed.

Lemma smap_at_forall (P : bytes * V → Prop) d key f m :
  Forall P m → P (key, f d) → (∀ k v, lower k = lower key → P (k, v) → P (k, f v)) →
  Forall P (smap_at d key f m).
Proof.
  intros Hm Hk Hf. induction Hm as [|[k v] m Hv Hm IH]; cbn [smap_at]; [by repeat constructor|].
  destruct (ci_less k key) eqn:E1; [by constructor|].
  destruct (ci_less key k) eqn:E2; repeat constructor; try done.
  apply Hf; [by apply ci_less_false|done].
Qed.

Lemma smap_at_nonempty d key f m : smap_at d key f m ≠ [].
Proof. destruct m as [|[k v] m]; [done|]. cbn [smap_at]. by repeat destruct (ci_less _ _). Qed.

Lemma smap_at_sorted d key f m : sorted m → sorted (smap_at d key f m).
Proof.
  induction m as [|[k v] m IH]; [by repeat constructor|]. intros Hc.
  pose proof Hc as [Hm Hs]%sorted_cons. cbn [smap_at]. destruct (ci_less k key) eqn:E1.
  - apply sorted_cons. split; [by apply smap_at_forall|by apply IH].
  - destruct (ci_less key k) eqn:E2.
    + apply sorted_cons. split; [|done]. constructor; [done|].
      eapply Forall_impl; [done|]. simpl. intros q. by apply ci_less_trans.
    + by apply sorted_cons.
Qed.

(** At the end of a map. *)
Lemma smap_at_below d key f m m' :
  below key m → smap_at d key f (m ++ m') = m ++ smap_at d key f m'.
Proof. induction 1 as [|[k v] m E _ IH]; [done|]. cbn [app smap_at]. simpl in E. by rewrite E, IH. Qed.

Lemma sorted_app m m' :
  sorted (m ++ m') → sorted m ∧ sorted m' ∧ Forall (λ q, below q.1 m) m'.
Proof.
  induction m as [|p m IH]; cbn [app].
  - intros H. split_and!; [constructor|done|]. apply Forall_true. intros. constructor.
  - intros [[Hm Hm']%Forall_app Hs]%sorted_cons. destruct (IH Hs) as (H1 & H2 & H3).
    split_and!; [by apply sorted_cons|done|]. rewrite Forall_forall in *.
    intros q Hq. constructor; [by apply Hm'|by apply H3].
Qed.

Lemma sorted_filter (P : bytes * V → Prop) `{!∀ x, Decision (P x)} m : sorted m → sorted (filter P m).
Proof.
  induction m as [|p m IH]; [done|]. intros [Hm Hs]%sorted_cons. rewrite filter_cons.
  case_decide; [|by apply IH]. apply sorted_cons. split; [|by apply IH].
  rewrite Forall_forall in *. intros q [_ Hq]%list_elem_of_filter. by apply Hm.
Qed.
End smap_props.

(** ** What a reader stores *)

Definition section_ok (s : bytes) : Prop := no_space_ends s ∧ ("]"%char ∉ s) ∧ LF ∉ s.

Lemma ltrim_suffix s : ∃ p, s = p ++ ltrim s.
Proof.
  induction s as [|c s [p IH]]; [by exists []|]. cbn [ltrim]. destruct (isspace c).
  - exists (c :: p). by rewrite IH at 1.
  - by exists [].
Qed.

Lemma ltrim_head s c : head (ltrim s) = Some c → isspace c = false.
Proof.
  induction s as [|x s IH]; [done|]. cbn [ltrim]. destruct (isspace x) eqn:E; [done|].
  by intros [= <-].
Qed.

Lemma rtrim_prefix s : ∃ p, s = rtrim s ++ p.
Proof.
  destruct (ltrim_suffix (reverse s)) as [p E]. exists (reverse p). unfold rtrim.
  rewrite <- reverse_app, <- E. by rewrite reverse_involutive.
Qed.

Lemma trim_ends s : no_space_ends (trim s).
Proof.
  unfold trim. split.
  - intros c Hc. destruct (rtrim_prefix (ltrim s)) as [p E]. apply (ltrim_head s). rewrite E.
    by destruct (rtrim (ltrim s)).
  - intros c. unfold rtrim. rewrite last_reverse. apply ltrim_head.
Qed.

Lemma trim_elem s x : x ∈ trim s → x ∈ s.
Proof.
  unfold trim. intros Hx. destruct (ltrim_suffix s) as [p ->], (rtrim_prefix (ltrim s)) as [q E].
  apply elem_of_app. right. rewrite E. apply elem_of_app. by left.
Qed.

(** The first character of a trimmed prefix of a trimmed line is the line's. *)
Lemma trim_take_head line n c :
  no_space_ends line → head (trim (take n line)) = Some c → head line = Some c.
Proof.
  intros [Hh _]. destruct line as [|x line], n as [|n]; try done. intros H.
  unfold trim in H. rewrite (ltrim_id (take (S n) (x :: line))) in H.
  - destruct (rtrim_prefix (take (S n) (x :: line))) as [p E].
    destruct (rtrim (take (S n) (x :: line))); [done|]. injection H as ->. by injection E as ->.
  - intros c' [= <-]. by apply Hh.
Qed.

Lemma find_first_of_take x s n : find_first_of x s = Some n → x ∉ take n s.
Proof.
  revert n. induction s as [|c s IH]; intros n; [done|]. cbn [find_first_of].
  case_bool_decide as E; [by intros [= <-] ?%elem_of_nil|].
  destruct (find_first_of x s) as [k|]; [|done]. intros [= <-]. cbn [take].
  intros [?|?]%elem_of_cons; [congruence|]. by apply (IH k).
Qed.

Lemma take_elem {A} n (l : list A) x : x ∈ take n l → x ∈ l.
Proof. intros Hx. rewrite <- (take_drop n l). apply elem_of_app. by left. Qed.
Lemma drop_elem {A} n (l : list A) x : x ∈ drop n l → x ∈ l.
Proof. intros Hx. rewrite <- (take_drop n l). apply elem_of_app. by right. Qed.
#[local] Hint Resolve trim_elem take_elem drop_elem trim_ends : core.

(** A line, on any store: it may open a section or set one value. *)
Lemma read_line_spec line s :
  LF ∉ line → section_ok s →
  ∃ s' (o : option (bytes * bytes)),
    section_ok s' ∧ (∀ kv, o = Some kv → setting_ok kv) ∧
    ∀ I (H : IniStore I) (ini : I),
      read_line (trim line) s ini = (s', match o with Some kv => store s kv.1 kv.2 ini | None => ini end).
Proof.
  intros HLF Hs. pose proof (trim_ends line) as He. assert (LF ∉ trim line) as Hl by eauto.
  unfold read_line. generalize dependent (trim line). clear line HLF. intros line He Hl.
  destruct line as [|c line]; [by exists s, None|]. case_bool_decide as Ec.
  - subst c. destruct (find_first_of "]"%char _) as [idx|] eqn:Ef; [|by exists s, None].
    eexists _, None. split; [|done]. split_and!; [done| |].
    2: { intros Hin%trim_elem%take_elem%drop_elem. by apply Hl. }
    intros Hin%trim_elem. apply (find_first_of_take _ _ _ Ef). destruct idx as [|idx].
    { by apply elem_of_nil in Hin. }
    cbn [take]. right. replace (S idx - 1)%nat with idx in Hin by lia. done.
  - destruct (find_first_of "="%char _) as [idx|] eqn:Ef; [|by exists s, None].
    set (key := trim (take idx (c :: line))). set (value := trim (drop (idx + 1) (c :: line))).
    destruct (decide (key = [])) as [Ek|Hk].
    { exists s, None. split_and!; [done..|]. intros. by rewrite bool_decide_true. }
    destruct (decide (value = [])) as [Ev|Hv].
    { exists s, None. split_and!; [done..|]. intros. cbv zeta.
      by rewrite bool_decide_false, bool_decide_true. }
    exists s, (Some (key, value)). split_and!; [done| |].
    + intros kv [= <-]. split_and!; cbn [fst snd].
      * split; [apply trim_ends|]. by split; [|eauto].
      * split; [apply trim_ends|]. by split; [|eauto].
      * intros Hin%trim_elem. by apply (find_first_of_take _ _ _ Ef).
      * intros Hh%trim_take_head; [|done]. by injection Hh.
    + intros. cbv zeta. by rewrite !bool_decide_false.
Qed.

(** Two stores filled from the same lines. *)
Lemma read_lines_related {I J} `{!IniStore I, !IniStore J} (P : I → J → Prop) lines s i j :
  (∀ s k v i j, section_ok s → setting_ok (k, v) → P i j → P (store s k v i) (store s k v j)) →
  Forall (λ l, LF ∉ l) lines → section_ok s → P i j → P (read_lines lines s i) (read_lines lines s j).
Proof.
  intros Hst Hl. revert s i j. induction Hl as [|line lines HLF _ IH]; intros s i j Hs HP; [done|].
  destruct (read_line_spec line s HLF Hs) as (s' & o & Hs' & Ho & Hr). cbn [read_lines]. rewrite !Hr.
  apply IH; [done|]. destruct o as [[k v]|]; [|done]. apply Hst; try done. by apply Ho.
Qed.

Lemma getlines_no_LF cur s : LF ∉ cur → Forall (λ l, LF ∉ l) (getlines cur s).
Proof.
  revert cur. induction s as [|c s IH]; intros cur Hc; cbn [getlines]; case_bool_decide; try by constructor.
  - constructor; [done|]. apply IH. set_solver.
  - apply IH. set_solver.
Qed.

Lemma read_related {I J} `{!IniStore I, !IniStore J} (P : I → J → Prop) text :
  P empty_ini empty_ini →
  (∀ s k v i j, section_ok s → setting_ok (k, v) → P i j → P (store s k v i) (store s k v j)) →
  P (read_ini text) (read_ini text).
Proof.
  intros He Hst. unfold read_ini. pose proof (getlines_no_LF [] text ltac:(set_solver)) as Hl.
  destruct (getlines [] text) as [|line lines]; [done|]. apply Forall_cons in Hl as [Hl Hls].
  apply read_lines_related; try done.
  - constructor; [|done]. unfold strip_BOM. case_bool_decide; eauto.
  - split_and!; [split; by intros|set_solver..].
Qed.

(** ** The object refines the finite maps of the reader *)

Definition file_ok (ini : IniFile) : Prop := sorted ini ∧ Forall (λ p, sorted p.2) ini.
Definition file_map (ini : IniFile) : Ini := smap_map (prod_map id smap_map <$> ini).

Lemma smap_at_fmap {V W} (g : V → W) (P : V → Prop) d key f f' (m : list (bytes * V)) :
  Forall (λ p, P p.2) m → P d → (∀ v, P v → g (f v) = f' (g v)) →
  prod_map id g <$> smap_at d key f m = smap_at (g d) key f' (prod_map id g <$> m).
Proof.
  intros Hm Hd Hf. induction Hm as [|[k v] m Hv _ IH]; cbn [smap_at fmap list_fmap prod_map id fst snd].
  - by rewrite Hf.
  - destruct (ci_less k key); cbn [fmap list_fmap prod_map id fst snd]; [by rewrite IH|].
    destruct (ci_less key k); cbn [fmap list_fmap prod_map id fst snd]; by rewrite Hf.
Qed.

Lemma sorted_fmap {V W} (g : V → W) (m : list (bytes * V)) : sorted m → sorted (prod_map id g <$> m).
Proof.
  induction m as [|p m IH]; [by constructor|]. intros [Hm Hs]%sorted_cons.
  apply sorted_cons. split; [|by apply IH]. by apply Forall_fmap.
Qed.

Lemma file_at_ok s k f ini : file_ok ini → file_ok (file_at s k f ini).
Proof.
  intros [Hs Hv]. split; [by apply smap_at_sorted|].
  apply smap_at_forall; [done|apply smap_at_sorted; constructor|intros; by apply smap_at_sorted].
Qed.

Lemma file_at_map s k f ini :
  file_ok ini →
  file_map (file_at s k f ini) = ini_set s k (f (ini_get s k (file_map ini))) (file_map ini).
Proof.
  intros [Hs Hv]. unfold file_map, file_at.
  rewrite (smap_at_fmap smap_map sorted _ _ _
    (λ m, <[lower k := f (default [] (m !! lower k))]> m)); [|done|constructor|].
  - by rewrite smap_at_map by (by apply sorted_fmap).
  - intros m Hm. by rewrite smap_at_map.
Qed.

(** Reading fills the ordered maps as it fills the finite maps of [Ini]: the
    look-ups that [Config::ReadFromFile] makes do not depend on the order or the
    spelling of names. *)
Lemma read_file_refines text : file_ok (read_file text) ∧ file_map (read_file text) = read_ini text.
Proof.
  apply (read_related (λ (i : IniFile) (j : Ini), file_ok i ∧ file_map i = j)).
  - split; [split; constructor|done].
  - intros s k v i j _ _ [Hi <-]. split; [by apply file_at_ok|by apply file_at_map].
Qed.

Lemma file_find_map s k ini :
  file_ok ini → default [] (smap_find s ini ≫= smap_find k) = ini_get s k (file_map ini).
Proof.
  intros [Hs Hv]. unfold ini_get, file_map.
  transitivity (default [] (default ∅ (smap_find s (prod_map id smap_map <$> ini)) !! lower k)).
  2: { by rewrite smap_find_map by (by apply sorted_fmap). }
  assert (smap_find s (prod_map id smap_map <$> ini) = smap_map <$> smap_find s ini) as ->.
  { clear. induction ini as [|[n vs] ini IH]; [done|]. cbn [smap_find fmap list_fmap prod_map id fst snd].
    destruct (ci_less n s); [done|]. by destruct (ci_less s n). }
  destruct (smap_find s ini) as [vs|] eqn:E; [|done]. cbn [fmap option_fmap option_map default mbind option_bind].
  rewrite (smap_find_map k); [done|].
  clear Hs. induction Hv as [|[n ws] ini Hw _ IH]; [done|]. cbn [smap_find] in E.
  destruct (ci_less n s); [by apply IH|]. destruct (ci_less s n); [done|]. by injection E as <-.
Qed.

(** ** The lines of a written file *)

(** What is written: values that are not empty, sections that have some. *)
Definition prune_values (kvs : list (bytes * bytes)) : list (bytes * bytes) :=
  filter (λ kv, skipped kv = false) kvs.
Definition prune (ini : IniFile) : list (bytes * list (bytes * bytes)) :=
  filter (λ p, p.2 ≠ []) (prod_map id prune_values <$> ini).

Definition unlines (ls : list bytes) : bytes := concat (map (λ l, l ++ [LF]) ls).
Definition settings (kvs : list (bytes * bytes)) : list bytes := map (λ p, setting p.1 p.2) kvs.
Definition header (name : bytes) : bytes := ["["%char] ++ name ++ ["]"%char].

Fixpoint section_lines (has_sections : bool) (ini : IniFile) : list bytes :=
  match ini with
  | [] => []
  | (name, kvs) :: ini =>
      (if has_sections then [[]] else []) ++ header name :: settings kvs ++ section_lines true ini
  end.

Lemma unlines_app l l' : unlines (l ++ l') = unlines l ++ unlines l'.
Proof. unfold unlines. by rewrite map_app, concat_app. Qed.

Lemma emit_line kv l : emit kv ++ unlines l = unlines (setting kv.1 kv.2 :: l).
Proof. done. Qed.

Lemma write_unnamed_spec kvs stream has :
  write_unnamed kvs stream has
  = (stream ++ unlines (settings (prune_values kvs)), has || bool_decide (prune_values kvs ≠ [])).
Proof.
  revert stream has. induction kvs as [|kv kvs IH]; intros stream has; cbn [write_unnamed].
  - rewrite app_nil_r, bool_decide_false, orb_false_r; [done|]. by intros [].
  - unfold prune_values. rewrite filter_cons. destruct (skipped kv).
    + rewrite decide_False by done. apply IH.
    + rewrite decide_True by done. rewrite IH, <- app_assoc. cbn [settings map]. rewrite emit_line.
      by rewrite (bool_decide_eq_true_2 (kv :: _ ≠ [])), orb_true_r by done.
Qed.

Lemma write_section_rest name kvs stream has :
  write_section name kvs true stream has = (stream ++ unlines (settings (prune_values kvs)), has).
Proof.
  revert stream has. induction kvs as [|kv kvs IH]; intros stream has; cbn [write_section].
  - by rewrite app_nil_r.
  - unfold prune_values. rewrite filter_cons. destruct (skipped kv).
    + rewrite decide_False by done. apply IH.
    + rewrite decide_True by done. by rewrite IH, <- app_assoc.
Qed.

Lemma write_section_spec name kvs stream has :
  write_section name kvs false stream has
  = if bool_decide (prune_values kvs = []) then (stream, has)
    else (stream ++ unlines ((if has then [[]] else []) ++ header name :: settings (prune_values kvs)), true).
Proof.
  revert stream has. induction kvs as [|kv kvs IH]; intros stream has; cbn [write_section]; [done|].
  unfold prune_values. rewrite filter_cons. destruct (skipped kv).
  - rewrite decide_False by done. apply IH.
  - rewrite decide_True by done. rewrite bool_decide_false by done. cbv zeta.
    rewrite write_section_rest, unlines_app. f_equal.
    change (unlines (?h :: settings (?kv :: ?l))) with ((h ++ [LF]) ++ emit kv ++ unlines (settings l)).
    unfold header. destruct has; rewrite <- !app_assoc; done.
Qed.

Lemma write_sections_spec ini stream has :
  write_sections ini stream has
  = stream ++ unlines (section_lines has (filter (λ p, p.1 ≠ []) (prune ini))).
Proof.
  revert stream has. induction ini as [|[name kvs] ini IH]; intros stream has; cbn [write_sections].
  { by rewrite app_nil_r. }
  unfold prune. cbn [fmap list_fmap prod_map id fst snd]. rewrite filter_cons. cbn [snd].
  case_bool_decide as En.
  - rewrite IH. case_decide; [|done]. by rewrite filter_cons_False by (cbn [fst]; congruence).
  - rewrite write_section_spec. case_bool_decide as Ek.
    + rewrite decide_False by (intros ?; done). apply IH.
    + rewrite decide_True by done. rewrite filter_cons_True by done. rewrite IH.
      cbn [section_lines]. rewrite <- app_assoc. f_equal.
      by rewrite <- unlines_app, <- app_assoc.
Qed.

(** The unnamed section comes first, as in the map. *)
Definition file_lines (l : list (bytes * list (bytes * bytes))) : list bytes :=
  match l with
  | ([], kvs) :: l => settings kvs ++ section_lines true l
  | _ => section_lines false l
  end.

Lemma prune_cons name kvs ini :
  prune ((name, kvs) :: ini)
  = if bool_decide (prune_values kvs = []) then prune ini else (name, prune_values kvs) :: prune ini.
Proof.
  unfold prune. cbn [fmap list_fmap prod_map id fst snd]. rewrite filter_cons. cbn [snd].
  case_bool_decide; [by rewrite decide_False by (intros ?; done)|by rewrite decide_True].
Qed.

Lemma prune_ok ini : file_ok ini → sorted (prune ini) ∧ Forall (λ p, sorted p.2 ∧ p.2 ≠ []) (prune ini).
Proof.
  intros [Hs Hv]. split; [by apply sorted_filter, sorted_fmap|].
  induction Hv as [|[name kvs] ini Hk _ IH]; [constructor|]. apply sorted_cons in Hs as [_ Hs].
  rewrite prune_cons. case_bool_decide; [by apply IH|]. constructor; [|by apply IH].
  split; [by apply sorted_filter|done].
Qed.

Lemma named_filter (l : list (bytes * list (bytes * bytes))) name :
  Forall (λ q, ci_less name q.1 = true) l → filter (λ p, p.1 ≠ []) l = l.
Proof.
  induction 1 as [|[n kvs] l Hn _ IH]; [done|]. rewrite filter_cons_True, IH; [done|].
  simpl in *. intros ->. by destruct name.
Qed.

Lemma named_lines l : filter (λ p, p.1 ≠ []) l = l → file_lines l = section_lines false l.
Proof.
  destruct l as [|[[|x n] v] l]; try done. intros Hf.
  assert (([], v) ∈ filter (λ p, p.1 ≠ []) (([], v) :: l)) as [? _]%list_elem_of_filter
    by (rewrite Hf; left). done.
Qed.

Lemma write_ini_lines ini : file_ok ini → write_ini ini = unlines (file_lines (prune ini)).
Proof.
  intros Hok. pose proof (prune_ok _ Hok) as [Hps _]. destruct Hok as [Hs _]. unfold write_ini.
  destruct ini as [|[name kvs] ini]; [done|]. apply sorted_cons in Hs as [Hn Hs]. simpl in Hn.
  assert (filter (λ p, p.1 ≠ []) (prune ini) = prune ini) as Hf.
  { apply (named_filter _ name). unfold prune. apply Forall_forall. rewrite Forall_forall in Hn.
    intros q [_ Hq]%list_elem_of_filter. apply list_elem_of_fmap in Hq as (q' & -> & Hq). exact (Hn _ Hq). }
  cbn [smap_find]. destruct name as [|c name].
  - cbn [ci_less]. rewrite write_unnamed_spec, write_sections_spec, prune_cons. cbn [orb app].
    case_bool_decide as E1; case_bool_decide as E2; try done.
    + rewrite filter_cons_False by (by intros ?). rewrite Hf. cbn [file_lines]. by rewrite unlines_app.
    + by rewrite named_lines, Hf, E2 by done.
  - cbn [ci_less]. rewrite write_sections_spec, prune_cons. cbn [app]. case_bool_decide as E.
    + by rewrite named_lines, Hf by done.
    + by rewrite filter_cons_True, Hf.
Qed.

(** ** Reading a written file *)

Definition writable (l : list (bytes * list (bytes * bytes))) : Prop :=
  Forall (λ p, section_ok p.1 ∧ Forall setting_ok p.2) l.

Lemma read_header {I} `{!IniStore I} name s (ini : I) :
  section_ok name → read_line (trim (header name)) s ini = (name, ini).
Proof.
  intros (Hn & Hb & HLF). rewrite trim_id.
  2: { split; [by intros c [= <-]|]. unfold header. rewrite app_assoc, last_snoc. by intros c [= <-]. }
  unfold header, read_line. cbn [app]. rewrite bool_decide_true by done.
  change ("["%char :: name ++ ["]"%char]) with (("["%char :: name) ++ ["]"%char]).
  rewrite find_first_of_app by (apply not_elem_of_cons; done). cbn [length app skipn].
  replace (S (length name) - 1)%nat with (length name) by lia.
  by rewrite drop_0, take_app_length, trim_id.
Qed.

(** The values of the last section, in order. *)
Lemma fold_values name kvs ini vs :
  below name ini → sorted (vs ++ kvs) →
  foldl (λ i p, file_set name p.1 p.2 i) (ini ++ [(name, vs)]) kvs = ini ++ [(name, vs ++ kvs)].
Proof.
  intros Hb. revert vs. induction kvs as [|[k v] kvs IH]; intros vs Hs; cbn [foldl fst snd].
  { by rewrite app_nil_r. }
  pose proof (sorted_app _ _ Hs) as (_ & _ & Hbl). apply Forall_cons in Hbl as [Hbl _]. simpl in Hbl.
  unfold file_set at 2, file_at. rewrite smap_at_below by done. cbn [smap_at]. rewrite ci_less_same by done.
  rewrite <- (app_nil_r vs) at 1. rewrite smap_at_below by done. cbn [smap_at].
  rewrite IH by (by rewrite <- app_assoc). by rewrite <- app_assoc.
Qed.

Lemma fold_section name kvs ini :
  below name ini → sorted kvs → kvs ≠ [] →
  foldl (λ i p, file_set name p.1 p.2 i) ini kvs = ini ++ [(name, kvs)].
Proof.
  intros Hb Hs Hne. destruct kvs as [|[k v] kvs]; [done|]. cbn [foldl fst snd].
  unfold file_set at 2, file_at. rewrite <- (app_nil_r ini) at 1. rewrite smap_at_below by done. cbn [smap_at].
  by rewrite fold_values.
Qed.

Lemma read_sections has l s (ini : IniFile) :
  sorted (ini ++ l) → Forall (λ p, sorted p.2 ∧ p.2 ≠ []) l → writable l →
  read_lines (section_lines has l) s ini = ini ++ l.
Proof.
  intros Hs Hl Hw. revert has s ini Hs Hw. induction Hl as [|[name kvs] l [Hk Hne] _ IH];
    intros has s ini Hs Hw; [by rewrite app_nil_r|]. apply Forall_cons in Hw as [[Hn Hkv] Hw].
  cbn [fst snd] in *. pose proof (sorted_app _ _ Hs) as (_ & _ & [Hb _]%Forall_cons). simpl in Hb.
  assert (∀ s, read_lines (header name :: settings kvs ++ section_lines true l) s ini
            = ini ++ (name, kvs) :: l) as Hgo.
  { intros s'. cbn [read_lines]. rewrite read_header by done. cbn iota beta. unfold settings.
    rewrite read_settings by done.
    change (foldl _ ini kvs) with (foldl (λ i p, file_set name p.1 p.2 i) ini kvs).
    rewrite fold_section by done. rewrite IH; [by rewrite <- app_assoc|by rewrite <- app_assoc|done]. }
  destruct has; exact (Hgo s).
Qed.

Lemma read_file_lines l :
  sorted l → Forall (λ p, sorted p.2 ∧ p.2 ≠ []) l → writable l →
  read_lines (file_lines l) [] [] = (l : IniFile).
Proof.
  intros Hs Hl Hw. destruct l as [|[[|c name] kvs] l]; [done| |by apply read_sections].
  apply Forall_cons in Hl as [[Hk Hne] Hl]. apply Forall_cons in Hw as [[_ Hkv] Hw].
  cbn [file_lines fst snd] in *. unfold settings. rewrite read_settings by done.
  change (foldl _ [] kvs) with (foldl (λ i p, file_set [] p.1 p.2 i) [] kvs).
  rewrite fold_section by (done || constructor). by apply read_sections.
Qed.

Lemma section_lines_no_LF has l : writable l → Forall (λ x, LF ∉ x) (section_lines has l).
Proof.
  intros Hw. revert has. induction Hw as [|[name kvs] l [(_ & _ & Hn) Hk] _ IH]; intros has; [constructor|].
  cbn [section_lines fst snd] in *. apply Forall_app. split; [destruct has; repeat constructor; set_solver|].
  constructor; [unfold header; set_solver|]. apply Forall_app. split; [|done].
  apply Forall_map. eapply Forall_impl; [exact Hk|]. intros p (Hp & Hv & _). by apply setting_no_LF.
Qed.

Lemma file_lines_no_LF l : writable l → Forall (λ x, LF ∉ x) (file_lines l).
Proof.
  intros Hw. destruct l as [|[[|c name] kvs] l]; [constructor| |by apply section_lines_no_LF].
  pose proof (section_lines_no_LF false _ Hw) as Hl. cbn [section_lines] in Hl.
  apply Forall_cons in Hl as [_ Hl]. exact Hl.
Qed.

(** A file that was written is read back, without the empty values: the names
    and values have to be such that a file can hold them, and the first line
    must not look like a byte order mark. *)
Lemma written_file_read ini :
  file_ok ini → writable (prune ini) → take 3 (write_ini ini) ≠ BOM →
  read_file (write_ini ini) = prune ini.
Proof.
  intros Hok Hw HBOM. destruct (prune_ok _ Hok) as [Hs Hl]. rewrite write_ini_lines in * by done.
  unfold read_file, read_ini, unlines in *. rewrite getlines_lines by (by apply file_lines_no_LF).
  etransitivity; [|exact (read_file_lines _ Hs Hl Hw)]. destruct (file_lines (prune ini)) as [|line lines]; [done|].
  replace (strip_BOM line) with line; [done|]. unfold strip_BOM. rewrite bool_decide_false; [done|].
  intros E. apply HBOM. cbn [map concat]. rewrite <- app_assoc. rewrite <- E.
  assert (length (take 3 line) = 3%nat) as Hlen by by rewrite E. rewrite length_take in Hlen.
  apply take_app_le. lia.
Qed.

(** ** Files that were read *)

(** What a reader has stored: names and values a file can hold, no empty ones. *)
Definition stored (ini : IniFile) : Prop :=
  file_ok ini ∧ writable ini ∧ Forall (λ p, p.2 ≠ []) ini.

Lemma setting_ok_live kv : setting_ok kv → skipped kv = false.
Proof.
  intros ((_ & Hk & _) & (_ & Hv & _) & _). unfold skipped. by rewrite !bool_decide_false.
Qed.

Lemma prune_values_id kvs : Forall setting_ok kvs → prune_values kvs = kvs.
Proof.
  induction 1 as [|kv kvs Hk _ IH]; [done|]. unfold prune_values in *.
  by rewrite filter_cons_True, IH by (by apply setting_ok_live).
Qed.

Lemma prune_id ini : writable ini → Forall (λ p, p.2 ≠ []) ini → prune ini = ini.
Proof.
  intros Hw. induction Hw as [|[name kvs] ini [_ Hk] _ IH]; [done|]. intros [Hne Hl]%Forall_cons.
  cbn [fst snd] in *. rewrite prune_cons, prune_values_id, bool_decide_false by done. by rewrite IH.
Qed.

Lemma file_set_writable s k v ini :
  section_ok s → setting_ok (k, v) → writable ini → writable (file_set s k v ini).
Proof.
  intros Hs Hkv Hw. unfold writable, file_set, file_at. apply smap_at_forall; [done| |].
  { split; [done|]. by apply (Forall_singleton setting_ok (k, v)). }
  intros n kvs _ [Hn Hk]. split; [done|]. apply smap_at_forall; [done..|].
  intros k' v' _ (Hk' & _ & ? & ?). destruct Hkv as (_ & Hv & _). done.
Qed.

Lemma read_file_stored text : stored (read_file text).
Proof.
  apply (read_related (λ (i _ : IniFile), stored i)).
  - by repeat constructor.
  - intros s k v i _ Hs Hkv (Hok & Hw & Hne). split_and!; [by apply file_at_ok|by apply file_set_writable|].
    apply smap_at_forall; [done|done|]. intros. apply smap_at_nonempty.
Qed.

(** C22: Saving loses nothing: whatever the bytes of a file, writing what was read
    from it and reading that again gives the same object, with the same sections,
    names (their spelling and order included) and values; provided that the
    written file does not begin with the three bytes of a byte order mark, which
    the reader would drop. *)
Theorem rewritten_file_same text :
  let ini := read_file text in
  take 3 (write_ini ini) ≠ BOM → read_file (write_ini ini) = ini.
Proof.
  intros ini HBOM. destruct (read_file_stored text) as (Hok & Hw & Hne). fold ini in Hok, Hw, Hne.
  assert (prune ini = ini) as E by (by apply prune_id).
  etransitivity; [|exact E]. apply written_file_read; [done|by rewrite E|done].
Qed.

(** ** Values that were assigned *)

Lemma smap_find_above {V} key (m : list (bytes * V)) :
  Forall (λ q, ci_less key q.1 = true) m → smap_find key m = None.
Proof.
  intros [|[k v] m' Hk _]; [done|]. cbn [smap_find]. simpl in Hk.
  by rewrite (ci_less_asym _ _ Hk), Hk.
Qed.

Lemma find_prune_values k kvs :
  sorted kvs → k ≠ [] → default [] (smap_find k (prune_values kvs)) = default [] (smap_find k kvs).
Proof.
  intros Hs Hk. induction kvs as [|[n v] kvs IH]; [done|]. apply sorted_cons in Hs as [Hm Hs].
  specialize (IH Hs). unfold prune_values in *. rewrite filter_cons. cbn [smap_find].
  case_decide as Hl; [cbn [smap_find]; by repeat destruct (ci_less _ _)|].
  destruct (ci_less n k) eqn:E1; [done|]. rewrite smap_find_above.
  - destruct (ci_less k n) eqn:E2; [done|]. unfold skipped in Hl. cbn [fst snd] in Hl.
    repeat case_bool_decide; subst; try done. by destruct k.
  - rewrite Forall_forall in *. intros q [_ Hq]%list_elem_of_filter. specialize (Hm _ Hq). simpl in Hm.
    by eapply ci_less_le_trans.
Qed.

Lemma prune_get s k ini :
  file_ok ini → k ≠ [] → ini_get s k (file_map (prune ini)) = ini_get s k (file_map ini).
Proof.
  intros Hok Hk. pose proof (prune_ok _ Hok) as [Hps Hpl].
  rewrite <- !file_find_map; [|done|split; [done|by eapply Forall_impl; [done|intros ? [? _]]]].
  clear Hps Hpl. destruct Hok as [Hs Hv].
  induction Hv as [|[name kvs] ini Hkv _ IH]; [done|]. apply sorted_cons in Hs as [Hm Hs].
  specialize (IH Hs). cbn [fst snd] in *. rewrite prune_cons. cbn [smap_find].
  pose proof (find_prune_values k kvs Hkv Hk) as Hf.
  case_bool_decide as E; [|cbn [smap_find]; by repeat destruct (ci_less _ _)].
  destruct (ci_less name s) eqn:E1; [done|]. rewrite smap_find_above.
  - destruct (ci_less s name); [done|]. cbn [mbind option_bind]. by rewrite <- Hf, E.
  - unfold prune. rewrite Forall_forall in *. intros q [_ Hq]%list_elem_of_filter.
    apply list_elem_of_fmap in Hq as (q' & -> & Hq). eapply ci_less_le_trans; [done|]. exact (Hm _ Hq).
Qed.

Lemma file_get_value s k ini : file_ok ini → (file_get s k ini).1 = ini_get s k (file_map ini).
Proof.
  intros Hok. cbn [file_get fst]. rewrite file_find_map by (by apply file_at_ok).
  by rewrite file_at_map, ini_get_set, decide_True by done.
Qed.

(** Objects a file can hold: of empty values, which are not written, nothing is
    asked. *)
Definition savable (ini : IniFile) : Prop :=
  Forall (λ p, Forall (λ kv, skipped kv = false → section_ok p.1 ∧ setting_ok kv) p.2) ini.

(** What is asked of names does not depend on their case. *)
Lemma lower_elem c s : tolower c = c → (∀ x, tolower x = c → x = c) → c ∈ lower s ↔ c ∈ s.
Proof.
  intros Hc Hx. unfold lower. rewrite list_elem_of_fmap. split; [|by exists c].
  intros (x & E & Hin). by rewrite <- (Hx x).
Qed.

Ltac each_char := intros [[] [] [] [] [] [] [] []]; (reflexivity || discriminate || done).
Lemma tolower_space c : isspace (tolower c) = isspace c.
Proof. revert c. each_char. Qed.
Lemma tolower_LF x : tolower x = LF → x = LF.
Proof. revert x. each_char. Qed.
Lemma tolower_close x : tolower x = "]"%char → x = "]"%char.
Proof. revert x. each_char. Qed.
Lemma tolower_open x : tolower x = "["%char → x = "["%char.
Proof. revert x. each_char. Qed.
Lemma tolower_equals x : tolower x = "="%char → x = "="%char.
Proof. revert x. each_char. Qed.

Lemma lower_ends s t : lower s = lower t → no_space_ends s → no_space_ends t.
Proof.
  intros E [Hh Hl]. split; intros c Hc.
  - assert (head (lower t) = Some (tolower c)) as Ht by (unfold lower; destruct t; [done|by injection Hc as ->]).
    rewrite <- E in Ht. destruct s as [|x s]; [done|]. injection Ht as Ht.
    rewrite <- tolower_space, <- Ht, tolower_space. by apply Hh.
  - assert (last (lower t) = Some (tolower c)) as Ht by (unfold lower; by rewrite fmap_last, Hc).
    rewrite <- E in Ht. unfold lower in Ht. rewrite fmap_last in Ht.
    destruct (last s) as [x|] eqn:Es; [|done]. injection Ht as Ht.
    rewrite <- tolower_space, <- Ht, tolower_space. by apply Hl.
Qed.

Lemma lower_section s t : lower s = lower t → section_ok s → section_ok t.
Proof.
  intros E (He & Hb & HLF). split_and!; [by eapply lower_ends|..].
  - rewrite <- lower_elem, <- E, lower_elem by (done || apply tolower_close). done.
  - rewrite <- lower_elem, <- E, lower_elem by (done || apply tolower_LF). done.
Qed.

Lemma lower_setting k k' v v' :
  lower k = lower k' → setting_ok (k, v) → plain v' → setting_ok (k', v').
Proof.
  intros E ((He & Hne & HLF) & _ & Heq & Hh) Hv. cbn [fst snd] in *. split_and!; cbn [fst snd].
  - split_and!; [by eapply lower_ends|by intros ->; destruct k|].
    rewrite <- lower_elem, <- E, lower_elem by (done || apply tolower_LF). done.
  - done.
  - rewrite <- lower_elem, <- E, lower_elem by (done || apply tolower_equals). done.
  - destruct k' as [|c k'], k as [|x k]; try done. injection E as E _. intros [= ->]. apply Hh.
    by rewrite (tolower_open x).
Qed.

Lemma file_set_savable s k v ini :
  section_ok s → setting_ok (k, v) → savable ini → savable (file_set s k v ini).
Proof.
  intros Hs Hkv Hw. apply smap_at_forall; [done|by apply Forall_singleton|].
  intros n kvs En Hk. apply smap_at_forall; [done|by intros _; split; [eapply lower_section|]|].
  intros k' v' Ek _ _. split; [by eapply lower_section|]. eapply lower_setting; [done|done|apply Hkv].
Qed.

Lemma savable_prune ini : savable ini → writable (prune ini).
Proof.
  induction 1 as [|[name kvs] ini Hk _ IH]; [constructor|]. rewrite prune_cons. cbn [fst snd] in Hk.
  case_bool_decide as E; [done|]. constructor; [|done]. cbn [fst snd]. rewrite Forall_forall in Hk.
  assert (∀ kv, kv ∈ prune_values kvs → section_ok name ∧ setting_ok kv) as Hl
    by (intros kv [? ?]%list_elem_of_filter; by apply Hk).
  destruct (prune_values kvs) as [|kv l] eqn:El; [done|].
  split; [exact (proj1 (Hl kv ltac:(left)))|]. apply Forall_forall. intros. by apply Hl.
Qed.

(** The values of each type. *)
Definition value_ok (v : Value) : Prop :=
  match v with
  | VBool _ => True
  | VUint z => 0 ≤ z < 2 ^ 32
  | VUlong z => 0 ≤ z < 2 ^ 64
  | VInt z => - 2 ^ 31 ≤ z < 2 ^ 31
  | VLong z => - 2 ^ 63 ≤ z < 2 ^ 63
  | VString s => plain s
  end.
Definition same_type (v w : Value) : bool :=
  match v, w with
  | VBool _, VBool _ | VUint _, VUint _ | VUlong _, VUlong _ | VInt _, VInt _ | VLong _, VLong _
  | VString _, VString _ => true
  | _, _ => false
  end.

Lemma to_chars_neg z : z < 0 → to_chars z = "-"%char :: to_chars (- z).
Proof. intros Hz. unfold to_chars. by rewrite Zltb_t, Zltb_f by lia. Qed.

Lemma to_chars_plain_signed z : - 2 ^ 63 ≤ z < 2 ^ 64 → plain (to_chars z).
Proof.
  intros Hz. destruct (Z.ltb_spec z 0); [|apply to_chars_plain; lia]. rewrite to_chars_neg by lia.
  destruct (to_chars_plain (- z)) as ([Hh Hl] & Hne & HLF); [lia|].
  split_and!; [split; [by intros c [= <-]|]|done|set_solver].
  intros c. rewrite last_cons. destruct (last (to_chars (- z))) eqn:E; [intros [= <-]; by apply Hl|].
  by apply last_None in E.
Qed.

Lemma stol_to_chars z : - 2 ^ 63 ≤ z < 2 ^ 63 → stol (to_chars z) = FcOk z [].
Proof.
  intros Hz. unfold stol, i64_min, i64_max. destruct (Z.ltb_spec z 0).
  - rewrite to_chars_neg by lia. unfold strto. cbn [ltrim].
    change (isspace "-"%char) with false. cbn [strip_sign]. rewrite bool_decide_true by done.
    rewrite scan_number_to_chars by lia. cbn [mbind option_bind]. rewrite !Zleb_t by lia. simpl. f_equal. lia.
  - rewrite strto_to_chars by lia. by rewrite Z.mul_1_l, !Zleb_t by lia.
Qed.

Lemma to_string_plain v : value_ok v → plain (to_string v).
Proof.
  destruct v as [[]| | | | |]; cbn [value_ok to_string]; intros Hv; try done;
    try (apply to_chars_plain_signed; lia); by apply plainb_plain.
Qed.

Lemma value_or_to_string v fallback :
  value_ok v → same_type v fallback = true → value_or (to_string v) fallback = v.
Proof.
  intros Hv Ht. pose proof (to_string_plain v Hv) as (_ & Hne & _).
  destruct v as [b|z|z|z|z|s], fallback; try done; cbn [value_ok to_string value_or] in *; f_equal.
  - by destruct b.
  - by apply as_uint_to_chars.
  - by apply as_ulong_to_chars.
  - unfold strparse, stoi. rewrite bool_decide_false, stol_to_chars by (done || lia).
    by rewrite !Zleb_t by lia.
  - unfold strparse. by rewrite bool_decide_false, stol_to_chars by (done || lia).
  - unfold as_string. by rewrite bool_decide_false.
Qed.

(** A value that is assigned, saved and loaded is there again: after
    [ini\[section\]\[key\] = v], writing the object and reading the file,
    [ini\[section'\]\[key'\] | fallback] is [v] for every spelling of the names
    in upper or lower case, whatever the type of [v], and every other name has
    the value it had before. *)
Theorem saved_value_loaded section key v fallback ini :
  file_ok ini → savable ini → section_ok section → setting_ok (key, to_string v) →
  value_ok v → same_type v fallback = true →
  let ini' := file_set section key (to_string v) ini in
  take 3 (write_ini ini') ≠ BOM →
  let loaded := read_file (write_ini ini') in
  ∀ section' key', key' ≠ [] →
    if decide (lower section' = lower section ∧ lower key' = lower key)
    then value_or (file_get section' key' loaded).1 fallback = v
    else (file_get section' key' loaded).1 = (file_get section' key' ini).1.
Proof.
  intros Hok Hw Hs Hkv Hv Ht ini' HBOM loaded section' key' Hk'.
  assert (file_ok ini') as Hok' by (by apply file_at_ok).
  assert (loaded = prune ini') as Hl.
  { apply written_file_read; [done| |done]. by apply savable_prune, file_set_savable. }
  assert ((file_get section' key' loaded).1 = ini_get section' key' (file_map ini')) as ->.
  { rewrite file_get_value by (by apply read_file_refines). rewrite Hl. by apply prune_get. }
  unfold ini', file_set. rewrite file_at_map, ini_get_set, (file_get_value section' key') by done.
  case_decide; [by apply value_or_to_string|done].
Qed.

(** A file with a byte order mark, values before the first section, a section
    in two parts with different spellings, and lines that are dropped. *)
Definition sample_text : bytes :=
  BOM ++ lit "Name =  srv 1 " ++ [LF] ++ lit "[rdss]" ++ [LF] ++ lit "sqpoll=YES" ++ [CR; LF] ++
  lit "junk" ++ [LF] ++ lit "[ Redis ]" ++ [LF] ++ lit "port=7000" ++ [LF] ++ lit "empty=" ++ [LF] ++
  lit "[RDSS]" ++ [LF] ++ lit "SqPoll = no" ++ [LF] ++ lit "a=b=c".

Lemma rewritten_file_same_witness :
  let ini := read_file sample_text in
  write_ini ini = unlines
    [lit "Name = srv 1"; []; lit "[rdss]"; lit "a = b=c"; lit "sqpoll = no"; [];
     lit "[Redis]"; lit "port = 7000"] ∧
  take 3 (write_ini ini) ≠ BOM ∧ read_file (write_ini ini) = ini.
Proof.
  split; [vm_compute; reflexivity|]. assert (take 3 (write_ini (read_file sample_text)) ≠ BOM) as H
    by (vm_compute; discriminate).
  split; [exact H|]. exact (rewritten_file_same sample_text H).
Defined.

Lemma saved_value_loaded_witness :
  let ini := read_file sample_text in
  let ini' := file_set (lit "redis") (lit "Offset") (to_string (VInt (-5))) ini in
  let loaded := read_file (write_ini ini') in
  value_or (file_get (lit "REDIS") (lit "offset") loaded).1 (VInt 7) = VInt (-5).
Proof.
  intros ini ini' loaded.
  assert (savable ini) as Hsav.
  { destruct (read_file_stored sample_text) as (_ & Hw & _). eapply Forall_impl; [exact Hw|].
    intros p [Hs Hk]. eapply Forall_impl; [exact Hk|]. by intros kv Hkv _. }
  refine (saved_value_loaded (lit "redis") (lit "Offset") (VInt (-5)) (VInt 7) ini
    (proj1 (read_file_refines sample_text)) Hsav _ _ _ eq_refl _ (lit "REDIS") (lit "offset") _).
  - split_and!; [|by apply (bool_decide_unpack _)..]. split; intros c [= <-]; reflexivity.
  - split_and!; [by apply plainb_plain..|by apply (bool_decide_unpack _)|done].
  - cbn [value_ok]. lia.
  - vm_compute. discriminate.
  - discriminate.
Defined.
