(* ===== verification/Buffer.v ===== *)
(** * Query and output buffers

    Model of [Buffer] (src/src/base/buffer.h, buffer.cc): a byte vector with a
    read and a write index, or (for a connection that uses the ring's provided
    buffers) a view over memory the ring owns.  The theorem is that a buffer
    is a FIFO queue of bytes whatever the resizes between its operations.

    Offsets into a buffer are [nat]: a vector is shorter than 2^63, so the
    [size_t] sums of the code do not wrap. *)

From S2P Require Import Prelude.

(** ** Data *)

Record Buffer := mkBuffer {
  virtual_view_ : bool;
  data_ : bytes;
  data_start : Z;      (* data_.data() *)
  data_capacity : nat; (* data_.capacity() *)
  read_index_ : nat;
  write_index_ : nat;
  view_start : Z;      (* view_.data() *)
  view_ : bytes }.

(** [std::string_view]: address and length; and a view together with the
    bytes it shows. *)
Record StringView := mkSV { sv_data : Z; sv_size : nat }.
Record Source_ := mkSrc { src_data : Z; src_bytes : bytes }.

#[global] Instance StringView_eq_dec : EqDecision StringView.
Proof. solve_decision. Defined.

(** What the allocator answers when a vector grows: the new block. *)
Record Block := mkBlock { blk_addr : Z; blk_capacity : nat }.

(** ** Operations *)

Definition slice (off len : nat) (s : bytes) : bytes := take len (drop off s).

Definition kResizeThreshold : nat := 1024 * 1024.
Definition kIOGenericBufferSize : nat := 1024 * 16.
Definition kOutputBufferSize : nat := 1024.

(** The constructor [Buffer(capacity)], with the bytes it reports to the
    memory tracker. *)
Definition new_Buffer (capacity : nat) (blk : Block) : Z * Buffer :=
  if (capacity =? 0)%nat then (0, mkBuffer true [] 0 0 0 0 0 [])
  else (Z.of_nat (blk_capacity blk),
        mkBuffer false (replicate capacity NUL) (blk_addr blk) (blk_capacity blk) 0 0 0 []).

(** [~Buffer]: the bytes it returns to the memory tracker. *)
Definition delete_Buffer (b : Buffer) : Z := Z.of_nat (data_capacity b).

Definition MakeRoomFor (expected_size : nat) (greedy : bool) : nat :=
  if negb greedy then expected_size
  else if (expected_size <? kResizeThreshold)%nat then expected_size * 2
  else expected_size + kResizeThreshold.

Definition Capacity (b : Buffer) : nat := length (data_ b).
Definition Available (b : Buffer) : nat := length (data_ b) - write_index_ b.
Definition NumWritten (b : Buffer) : nat := write_index_ b - read_index_ b.

Definition set_indices (r w : nat) (b : Buffer) : Buffer :=
  mkBuffer (virtual_view_ b) (data_ b) (data_start b) (data_capacity b) r w
    (view_start b) (view_ b).
Definition set_data (d : bytes) (b : Buffer) : Buffer :=
  mkBuffer (virtual_view_ b) d (data_start b) (data_capacity b) (read_index_ b) (write_index_ b)
    (view_start b) (view_ b).

(** [data_.resize(n)] for a growing vector: the contents move to a new block
    when the capacity is exceeded. *)
Definition resize (n : nat) (blk : Block) (b : Buffer) : Buffer :=
  let d := data_ b ++ replicate (n - length (data_ b)) NUL in
  if (n <=? data_capacity b)%nat then set_data d b
  else mkBuffer (virtual_view_ b) d (blk_addr blk) (blk_capacity blk)
         (read_index_ b) (write_index_ b) (view_start b) (view_ b).

(** The returned pointer (0 is [nullptr]), the bytes reported to the memory
    tracker, and the buffer. *)
Definition EnsureAvailable `{BuildMode} (n : nat) (greedy : bool) (blk : Block) (b : Buffer)
    : Outcome (Z * Z * Buffer) :=
  let needed_size := (n + write_index_ b)%nat in
  if (needed_size <=? length (data_ b))%nat then Ok (0, 0, b)
  else
    let original_start := data_start b in
    let new_size := MakeRoomFor needed_size greedy in
    _ ← cassert (needed_size <=? new_size)%nat;
    let allocated := Z.of_nat (new_size - length (data_ b)) in
    Ok (original_start, allocated, resize new_size blk b).

(** [Sink()]: the writable region, as its offset in [data_] and its size. *)
Definition Sink `{BuildMode} (b : Buffer) : Outcome (nat * nat) :=
  _ ← cassert (negb (virtual_view_ b));
  if (write_index_ b <=? length (data_ b))%nat then Ok (write_index_ b, Available b)
  else Fault OutOfRange.

(** A write of [s] through a pointer at offset [off] of [data_]. *)
Definition write_at (off : nat) (s : bytes) (b : Buffer) : Outcome Buffer :=
  if (off + length s <=? length (data_ b))%nat
  then Ok (set_data (take off (data_ b) ++ s ++ drop (off + length s) (data_ b)) b)
  else Fault OutOfRange.

Definition Produce `{BuildMode} (n : nat) (b : Buffer) : Outcome Buffer :=
  _ ← cassert (negb (virtual_view_ b));
  _ ← cassert (write_index_ b + n <=? length (data_ b))%nat;
  Ok (set_indices (read_index_ b) (write_index_ b + n) b).

(** The overload of [Produce] for virtual buffers. *)
Definition ProduceView `{BuildMode} (view : Source_) (b : Buffer) : Outcome Buffer :=
  _ ← cassert (virtual_view_ b);
  _ ← cassert (bool_decide (view_ b = []));
  Ok (mkBuffer (virtual_view_ b) (data_ b) (data_start b) (data_capacity b) (read_index_ b)
        (length (src_bytes view)) (src_data view) (src_bytes view)).

Definition Source (b : Buffer) : Outcome Source_ :=
  if (write_index_ b =? read_index_ b)%nat then Ok (mkSrc 0 [])
  else if negb (virtual_view_ b) then
    if ((read_index_ b <=? write_index_ b) && (write_index_ b <=? length (data_ b)))%nat
    then Ok (mkSrc (data_start b + Z.of_nat (read_index_ b))
                   (slice (read_index_ b) (write_index_ b - read_index_ b) (data_ b)))
    else Fault OutOfRange
  else if (read_index_ b <=? length (view_ b))%nat
    then Ok (mkSrc (view_start b + Z.of_nat (read_index_ b)) (drop (read_index_ b) (view_ b)))
    else Fault OutOfRange.

Definition Consume `{BuildMode} (n : nat) (b : Buffer) : Outcome Buffer :=
  _ ← cassert (read_index_ b + n <=? write_index_ b)%nat;
  Ok (set_indices (read_index_ b + n) (write_index_ b) b).

Definition Reset (b : Buffer) : Buffer :=
  if virtual_view_ b
  then mkBuffer true (data_ b) (data_start b) (data_capacity b) 0 0 0 []
  else set_indices 0 0 b.

(** [recv] into the sink: the kernel writes [chunk] (at most the sink's size),
    and the connection calls [Produce]. *)
Definition recv `{BuildMode} (chunk : bytes) (b : Buffer) : Outcome Buffer :=
  '(off, room) ← Sink b;
  if (length chunk <=? room)%nat then
    b ← write_at off chunk b; Produce (length chunk) b
  else Fault OutOfRange.

(** The bytes a view shows, read through its address. *)
Definition read_view (b : Buffer) (v : StringView) : Outcome bytes :=
  let '(start, mem) := if virtual_view_ b then (view_start b, view_ b)
                       else (data_start b, data_ b) in
  let off := sv_data v - start in
  if (0 <=? off) && (off + Z.of_nat (sv_size v) <=? Z.of_nat (length mem))
  then Ok (slice (Z.to_nat off) (sv_size v) mem)
  else Fault UseAfterFree.

(** ** Invariant and contents *)

Definition buf_ok (b : Buffer) : Prop :=
  virtual_view_ b = false ∧ (read_index_ b ≤ write_index_ b ≤ length (data_ b))%nat ∧
  (length (data_ b) ≤ data_capacity b)%nat.

(** The unread bytes. *)
Definition pending (b : Buffer) : bytes :=
  slice (read_index_ b) (write_index_ b - read_index_ b) (data_ b).

Lemma length_slice off len s :
  (off + len ≤ length s)%nat → length (slice off len s) = len.
Proof. intros. unfold slice. rewrite length_take, length_drop. lia. Qed.

Lemma slice_app_l off len s t :
  (off + len ≤ length s)%nat → slice off len (s ++ t) = slice off len s.
Proof.
  intros. unfold slice. rewrite drop_app_le by lia. rewrite take_app_le; [done|].
  rewrite length_drop. lia.
Qed.

Lemma slice_slice o1 l1 o2 l2 s :
  (o2 + l2 ≤ l1)%nat → slice o2 l2 (slice o1 l1 s) = slice (o1 + o2) l2 s.
Proof.
  intros. unfold slice. rewrite skipn_firstn_comm, drop_drop, take_take. f_equal. lia.
Qed.

Ltac solve_buf_ok :=
  unfold buf_ok; simpl; split_and!; rewrite ?length_app, ?length_replicate; (done || lia).

Section buffer.
Context `{!BuildMode}.
Implicit Types b : Buffer.

Lemma length_pending b : buf_ok b → length (pending b) = (write_index_ b - read_index_ b)%nat.
Proof. intros (_&?&_). unfold pending. rewrite length_slice; lia. Qed.

(** What [Source] shows is the unread bytes, at their address. *)
Lemma Source_spec b :
  buf_ok b →
  Source b = Ok (if bool_decide (pending b = []) then mkSrc 0 []
                 else mkSrc (data_start b + Z.of_nat (read_index_ b)) (pending b)).
Proof.
  intros Hok. pose proof (length_pending b Hok) as Hl. destruct Hok as (Hv&Hi&_).
  unfold Source. rewrite Hv. simpl.
  destruct (Nat.eqb_spec (write_index_ b) (read_index_ b)) as [E|E].
  - rewrite bool_decide_true; [done|]. apply nil_length_inv. lia.
  - rewrite bool_decide_false by (intros Hn; rewrite Hn in Hl; simpl in Hl; lia).
    rewrite (proj2 (Nat.leb_le _ _)), (proj2 (Nat.leb_le _ _)) by lia. done.
Qed.

Lemma Source_bytes b : buf_ok b → ∃ src, Source b = Ok src ∧ src_bytes src = pending b ∧
  (pending b ≠ [] → src_data src = data_start b + Z.of_nat (read_index_ b)).
Proof.
  intros Hok. rewrite Source_spec by done. eexists. split; [done|].
  case_bool_decide as E; simpl; [by rewrite E|done].
Qed.

Lemma Consume_spec n b :
  buf_ok b → (n ≤ length (pending b))%nat →
  ∃ b', Consume n b = Ok b' ∧ buf_ok b' ∧ pending b' = drop n (pending b) ∧
        data_start b' = data_start b ∧ data_ b' = data_ b ∧
        read_index_ b' = (read_index_ b + n)%nat ∧ write_index_ b' = write_index_ b.
Proof.
  intros Hok Hn. rewrite length_pending in Hn by done. destruct Hok as (Hv&Hi&Hc).
  unfold Consume. rewrite cassert_true by (apply Nat.leb_le; lia).
  eexists. split; [reflexivity|]. split_and!; simpl; try done; try lia; [solve_buf_ok|].
  unfold pending, slice. simpl. rewrite skipn_firstn_comm, drop_drop. f_equal. lia.
Qed.

Lemma MakeRoomFor_ge n g : (n ≤ MakeRoomFor n g)%nat.
Proof.
  unfold MakeRoomFor. destruct g; simpl; [|lia].
  destruct (_ <? _)%nat; unfold kResizeThreshold; lia.
Qed.

(** [EnsureAvailable] makes the room it is asked for, keeps the unread bytes
    and the indices, and answers the old address exactly when it resized. *)
Lemma EnsureAvailable_spec n g blk b :
  buf_ok b → (MakeRoomFor (n + write_index_ b) g ≤ blk_capacity blk)%nat →
  ∃ p z b', EnsureAvailable n g blk b = Ok (p, z, b') ∧ buf_ok b' ∧ pending b' = pending b ∧
    (n ≤ Available b')%nat ∧ read_index_ b' = read_index_ b ∧ write_index_ b' = write_index_ b ∧
    (∃ x, data_ b' = data_ b ++ x) ∧ z = Z.of_nat (length (data_ b') - length (data_ b)) ∧
    (p = data_start b ∨ p = 0 ∧ b' = b).
Proof.
  intros (Hv&Hi&Hc) Hblk. unfold EnsureAvailable, Available.
  destruct (Nat.leb_spec (n + write_index_ b) (length (data_ b))) as [Hle|Hgt].
  - exists 0, 0, b. split_and!; try done; [lia|exists []; by rewrite app_nil_r|lia|by right].
  - pose proof (MakeRoomFor_ge (n + write_index_ b) g) as Hge.
    rewrite cassert_true by (by apply Nat.leb_le). eexists _, _, _. split; [reflexivity|].
    set (sz := MakeRoomFor (n + write_index_ b) g) in *.
    assert (∀ x, pending (set_data (data_ b ++ x) b) = pending b) as Hp.
    { intros x. unfold pending. simpl. by rewrite slice_app_l by lia. }
    unfold resize. destruct (Nat.leb_spec sz (data_capacity b)); simpl;
      rewrite !length_app, !length_replicate.
    all: split_and!; try done; simpl; rewrite ?length_app, ?length_replicate; try lia;
      first [solve_buf_ok | apply Hp | by eexists | by left].
Qed.

Lemma recv_spec chunk b :
  buf_ok b → (length chunk ≤ Available b)%nat →
  ∃ b', recv chunk b = Ok b' ∧ buf_ok b' ∧ pending b' = pending b ++ chunk ∧
    data_start b' = data_start b ∧ read_index_ b' = read_index_ b ∧
    (∀ off len, (off + len ≤ write_index_ b)%nat →
                slice off len (data_ b') = slice off len (data_ b)) ∧
    length (data_ b') = length (data_ b).
Proof.
  intros (Hv&Hi&Hc) Hroom. unfold recv, Sink, write_at, Produce.
  rewrite Hv. rewrite (cassert_true (negb false)) by done. cbn [mbind outcome_bind].
  unfold Available in *.
  rewrite (proj2 (Nat.leb_le (write_index_ b) _)) by lia. cbn [mbind outcome_bind].
  rewrite (proj2 (Nat.leb_le (length chunk) _)) by lia.
  rewrite (proj2 (Nat.leb_le (write_index_ b + length chunk) _)) by lia. cbn [mbind outcome_bind].
  cbn [set_data virtual_view_ write_index_ data_ read_index_]. rewrite Hv.
  rewrite (cassert_true (negb false)) by done. cbn [mbind outcome_bind].
  assert (length (take (write_index_ b) (data_ b) ++ chunk ++
    drop (write_index_ b + length chunk) (data_ b)) = length (data_ b)) as Hlen.
  { rewrite !length_app, length_take, length_drop. lia. }
  rewrite cassert_true by (rewrite Hlen; apply Nat.leb_le; lia).
  eexists. split; [reflexivity|].
  assert (∀ off len, (off + len ≤ write_index_ b)%nat →
    slice off len (take (write_index_ b) (data_ b) ++ chunk ++
      drop (write_index_ b + length chunk) (data_ b)) = slice off len (data_ b)) as Hsl.
  { intros off len Hle. rewrite slice_app_l by (rewrite length_take; lia).
    unfold slice. rewrite skipn_firstn_comm, take_take. f_equal. lia. }
  unfold set_indices, set_data; cbn. split_and!; try done; cbn; rewrite ?Hlen; try lia;
    [unfold buf_ok; cbn; rewrite Hlen; split_and!; (done || lia)|].
  unfold pending; cbn.
  replace (write_index_ b + length chunk - read_index_ b)%nat with
    ((write_index_ b - read_index_ b) + length chunk)%nat by lia.
  unfold slice. rewrite <- take_take_drop.
  change (take ?n (drop ?o ?l)) with (slice o n l). f_equal.
  - rewrite Hsl by lia. done.
  - unfold slice. rewrite drop_drop.
    replace (read_index_ b + (write_index_ b - read_index_ b))%nat with (write_index_ b) by lia.
    rewrite drop_app_length' by (rewrite length_take; lia). by rewrite take_app_length.
Qed.

Lemma Reset_spec b : buf_ok b → buf_ok (Reset b) ∧ pending (Reset b) = [] ∧
  Available (Reset b) = length (data_ b).
Proof.
  intros (Hv&Hi&Hc). unfold Reset, buf_ok, pending, Available. rewrite Hv. simpl.
  split_and!; (done || lia).
Qed.

(** ** The FIFO contract *)

Inductive buf_op :=
  | BEnsure (n : nat) (greedy : bool)
  | BRecv (chunk : bytes)
  | BConsume (n : nat)
  | BReset.

(** The allocator's block for a resize: at some address, of exactly the
    size asked for. *)
Definition run_buf_op (o : buf_op) (addr : Z) b : Outcome Buffer :=
  match o with
  | BEnsure n g =>
      '(_, _, b') ← EnsureAvailable n g (mkBlock addr (MakeRoomFor (n + write_index_ b) g)) b;
      Ok b'
  | BRecv chunk => recv chunk b
  | BConsume n => Consume n b
  | BReset => Ok (Reset b)
  end.

Fixpoint run_buf_ops (os : list (buf_op * Z)) b : Outcome Buffer :=
  match os with
  | [] => Ok b
  | (o, addr) :: os => b ← run_buf_op o addr b; run_buf_ops os b
  end.

(** The contract: a queue of unread bytes with the room promised so far.  A
    call outside the contract (a recv larger than the room, a read of more
    than there is) has no answer. *)
Definition queue_op (o : buf_op) (qr : bytes * nat) : option (bytes * nat) :=
  let '(q, room) := qr in
  match o with
  | BEnsure n _ => Some (q, Nat.max n room)
  | BRecv chunk =>
      if (length chunk <=? room)%nat then Some (q ++ chunk, (room - length chunk)%nat) else None
  | BConsume n => if (n <=? length q)%nat then Some (drop n q, room) else None
  | BReset => Some ([], room)
  end.

Fixpoint queue_ops (os : list (buf_op * Z)) (qr : bytes * nat) : option (bytes * nat) :=
  match os with
  | [] => Some qr
  | (o, _) :: os => qr ← queue_op o qr; queue_ops os qr
  end.

Definition buf_is (b : Buffer) (qr : bytes * nat) : Prop :=
  buf_ok b ∧ pending b = qr.1 ∧ (qr.2 ≤ Available b)%nat.

Lemma run_buf_op_spec o addr b qr qr' :
  buf_is b qr → queue_op o qr = Some qr' →
  ∃ b', run_buf_op o addr b = Ok b' ∧ buf_is b' qr'.
Proof.
  destruct qr as [q room]. intros (Hok&Hp&Hr) Hq. simpl in Hp, Hr. subst q.
  destruct o as [n g|chunk|n|]; simpl in *.
  - simplify_eq.
    destruct (EnsureAvailable_spec n g (mkBlock addr (MakeRoomFor (n + write_index_ b) g)) b Hok)
      as (p&z&b'&Heq&Hok'&Hp'&Hav&Hri&Hwi&[x Hx]&_); [done|].
    rewrite (bind_Ok _ _ _ Heq). exists b'. split; [done|]. split_and!; [done|done|].
    simpl. unfold Available in *. rewrite Hx, length_app in *. lia.
  - destruct (Nat.leb_spec (length chunk) room); simplify_eq.
    destruct (recv_spec chunk b Hok) as (b'&Heq&Hok'&Hp'&_&Hri&_&Hlen); [lia|].
    exists b'. split; [done|]. split_and!; [done|done|]. simpl.
    pose proof (length_pending b Hok) as H1. pose proof (length_pending b' Hok') as H2.
    rewrite Hp', length_app in H2. destruct Hok as (_&?&_), Hok' as (_&?&_).
    unfold Available in *. lia.
  - destruct (Nat.leb_spec n (length (pending b))); simplify_eq.
    destruct (Consume_spec n b Hok) as (b'&Heq&Hok'&Hp'&_&Hd&_&Hw); [done|].
    exists b'. split; [done|]. split_and!; [done|done|]. simpl. unfold Available.
    rewrite Hd, Hw. done.
  - simplify_eq. destruct (Reset_spec b Hok) as (?&?&Hav). exists (Reset b).
    split; [done|]. split_and!; [done|done|]. simpl. unfold Available in *. lia.
Qed.

(** C19: Refinement: from any well-formed buffer, a sequence of calls within the
    contract never fails an assertion nor leaves the vector, and the bytes
    [Source] then shows are those of the queue, whatever blocks the resizes
    moved the data to. *)
Theorem buffer_refines_queue os b qr q room :
  buf_is b qr → queue_ops os qr = Some (q, room) →
  ∃ b' src, run_buf_ops os b = Ok b' ∧ Source b' = Ok src ∧ src_bytes src = q ∧
            buf_ok b' ∧ (room ≤ Available b')%nat.
Proof.
  revert b qr. induction os as [|[o addr] os IH]; intros b qr Hb Hq; simpl in *.
  - simplify_eq. destruct Hb as (Hok&Hp&Hr).
    destruct (Source_bytes b Hok) as (src&?&Hs&_). exists b, src. by rewrite Hs.
  - apply bind_Some in Hq as (qr1&Hq1&Hq).
    destruct (run_buf_op_spec o addr b qr qr1 Hb Hq1) as (b1&Heq&Hb1).
    rewrite (bind_Ok _ _ _ Heq). by apply (IH b1 qr1).
Qed.
End buffer.

Lemma buffer_refines_queue_witness :
  let B : BuildMode := false in
  ∃ b' src,
    run_buf_ops [(BEnsure 4 true, 64); (BRecv (lit "abcd"), 0); (BConsume 1, 0);
                 (BEnsure 16 true, 128); (BRecv (lit "efg"), 0); (BConsume 2, 0)]
      (new_Buffer 2 (mkBlock 32 2)).2 = Ok b' ∧
    Source b' = Ok src ∧ src_bytes src = lit "defg" ∧ buf_ok b' ∧ (13 ≤ Available b')%nat.
Proof.
  intros B. apply (buffer_refines_queue _ _ ([], 0%nat) (lit "defg") 13).
  - split_and!; [split_and!; simpl; (done || lia)|reflexivity|simpl; lia].
  - reflexivity.
Defined.
