(* ===== verification/RingExecutor.v ===== *)
(** * The io_uring executor

    Model of [RingExecutor] (src/src/runtime/ring_executor.h,
    ring_executor.cc): its configuration, the stack of free descriptor slots
    and a round of its event loop; [BufferRing] models its receive buffers.

    liburing and the kernel are outside: what the executor uses of registered
    files is the class [Files], with the documented behaviour the theorems rely
    on as its laws [FilesLaws]; [Acceptor] has an instance. *)

From S2P Require Import Prelude Bits Chars Config Buffer.

Definition u16 (z : Z) : Z := z mod 2 ^ 16.

(** ** Configuration *)

Record RingConfig := mkRingConfig {
  sq_entries : Z;
  cq_entries : Z;
  rc_sqpoll : bool;
  rc_submit_batch_size : Z;
  rc_wait_batch_size : Z;
  max_direct_descriptors : Z;
  register_ring_fd : bool }.

(** The default member initializers. *)
Definition default_RingConfig : RingConfig :=
  mkRingConfig 4096 (4096 * 16) false 32 1 4096 true.

(** The configuration [Create] builds: the fields it names, defaults else. *)
Definition CreateConfig (c : Config) : RingConfig :=
  mkRingConfig (sq_entries default_RingConfig) (cq_entries default_RingConfig) (sqpoll c)
    (submit_batch_size c) (wait_batch_size c) (max_direct_descriptors default_RingConfig)
    (register_ring_fd default_RingConfig).

(** The executors [Create] makes: the number, name and configuration of each. *)
Record Executor := mkExecutor { exr_id : Z; exr_name : bytes; exr_config : RingConfig }.

Definition Create (id : Z) (name : bytes) (c : Config) : Executor :=
  mkExecutor id name (CreateConfig c).

Definition CreateMany (n start_id : Z) (name_prefix : bytes) (c : Config) : list Executor :=
  (λ i, Create i (name_prefix ++ to_chars i) c) <$> seqZ start_id n.

(** The processors the worker thread is bound to: with kernel-side polling also
    the next one. *)
Definition thread_cpus (e : Executor) : list Z :=
  if rc_sqpoll (exr_config e) then [exr_id e; exr_id e + 1] else [exr_id e].

(** The executors of the [Server] constructor: the service's, then the
    clients'. *)
Definition Server_executors (c : Config) : list Executor :=
  Create 0 (lit "dss_exr") c
  :: CreateMany (client_executors c) (if sqpoll c then 2 else 1) (lit "cli_exr_") (DisableSqpoll c).

(** No two threads of the server are bound to the same processor. *)
Lemma executors_on_distinct_cpus c : NoDup (Server_executors c ≫= thread_cpus).
Proof.
  unfold Server_executors, CreateMany.
  assert (∀ l : list Z, ((λ i, Create i (lit "cli_exr_" ++ to_chars i) (DisableSqpoll c)) <$> l)
            ≫= thread_cpus = l) as Hl.
  { induction l as [|i l IH]; [done|]. rewrite fmap_cons, bind_cons, IH. done. }
  rewrite bind_cons, Hl. unfold thread_cpus. simpl.
  destruct (sqpoll c); simpl; rewrite ?NoDup_cons, ?elem_of_cons, !elem_of_seqZ;
    split_and!; try apply NoDup_seqZ; lia.
Qed.

(** ** Registered files

    Each ring (by its number) has a table of registered files; a process has a
    table of descriptors.  [fd_file] and [file_at] are the open files they
    refer to. *)

Class Files (K : Type) := {
  files_update : nat → Z → Z → K → Z * K;   (* io_uring_register_files_update of one entry *)
  fd_close : Z → K → Z * K;                 (* close(2) *)
  fd_accept : nat → K → Z * K;              (* accept(2) of an incoming connection *)
  fd_file : K → Z → option nat;
  file_at : K → nat → Z → option nat }.

Class FilesLaws (K : Type) `{!Files K} : Prop := {
  (* The slot refers to the file of the descriptor; nothing else changes. *)
  files_update_ok ring i fd k :
    (files_update ring i fd k).1 = 1 →
    let k' := (files_update ring i fd k).2 in
    file_at k' ring i = fd_file k fd ∧
    (∀ ring' j, (ring', j) ≠ (ring, i) → file_at k' ring' j = file_at k ring' j) ∧
    (∀ fd', fd_file k' fd' = fd_file k fd');
  (* The descriptor is freed; a registered file stays open. *)
  fd_close_ok fd k :
    let k' := (fd_close fd k).2 in
    fd_file k' fd = None ∧
    (∀ fd', fd' ≠ fd → fd_file k' fd' = fd_file k fd') ∧
    (∀ ring j, file_at k' ring j = file_at k ring j);
  (* A descriptor not in use, for the new connection. *)
  fd_accept_ok s k :
    0 < (fd_accept s k).1 →
    let fd := (fd_accept s k).1 in
    let k' := (fd_accept s k).2 in
    fd < 2 ^ 31 ∧ fd_file k fd = None ∧ fd_file k' fd = Some s ∧
    (∀ fd', fd' ≠ fd → fd_file k' fd' = fd_file k fd') ∧
    (∀ ring j, file_at k' ring j = file_at k ring j);
  fd_accept_error s k :
    (fd_accept s k).1 ≤ 0 →
    let k' := (fd_accept s k).2 in
    (∀ fd, fd_file k' fd = fd_file k fd) ∧ (∀ ring j, file_at k' ring j = file_at k ring j);
  (* Descriptor 0 stays open: it is the standard input, or, in a process started
     without one, the first file it opened. *)
  fd_accept_ne s k : (fd_accept s k).1 ≠ 0 }.

(** The constructor's stack: all the slots. *)
Definition initial_slots (c : RingConfig) : list Z :=
  if max_direct_descriptors c =? 0 then [] else seqZ 0 (max_direct_descriptors c).

Section slots.
Context {K : Type} `{!Files K} `{!BuildMode}.

(** [RegisterFd] takes the slot at the back of the vector; -1 when there is
    none. *)
Definition RegisterFd (ring : nat) (fd : Z) (fd_slot_indices : list Z) (k : K)
    : Outcome (Z * list Z * K) :=
  match last fd_slot_indices with
  | None => Ok (-1, fd_slot_indices, k)
  | Some index =>
      let rest := removelast fd_slot_indices in
      let '(ret, k) := files_update ring index fd k in
      if negb (ret =? 1) then Fault LogFatal else Ok (i32 index, rest, k)
  end.

Definition UnregisterFd (fd_slot_index : Z) (fd_slot_indices : list Z) : Outcome (list Z) :=
  _ ← cassert (0 <=? fd_slot_index);
  Ok (fd_slot_indices ++ [u32 fd_slot_index]).
End slots.

(** ** A round of the event loop

    The completions [io_uring_for_each_cqe] sees in a round, and what the
    round does with them: it resumes the coroutine of each, submits pending
    requests and releases the entries once per batch. *)

Record Cqe := mkCqe { user_data : Z; cqe_res : Z; cqe_flags : Z }.
Inductive action := Resume (c : Cqe) | Submit | Advance (n : Z).

Fixpoint for_each_cqe (submit_batch : Z) (cqes : list Cqe) (processed : Z) : list action * Z :=
  match cqes with
  | [] => ([], processed)
  | cqe :: cqes =>
      let processed := u64 (processed + 1) in
      if user_data cqe =? 0 then ([], processed)
      else
        let batch_end := if processed mod submit_batch =? 0 then [Submit; Advance submit_batch]
                         else [] in
        let '(l, n) := for_each_cqe submit_batch cqes processed in
        (Resume cqe :: batch_end ++ l, n)
  end.

Definition EventLoop_round (c : RingConfig) (cqes : list Cqe) : list action :=
  let submit_batch := Z.max 1 (rc_submit_batch_size c) in
  let '(l, processed) := for_each_cqe submit_batch cqes 0 in
  l ++ (if processed mod submit_batch =? 0 then [] else [Advance (processed mod submit_batch)]).

(** What a trace resumed, how many entries it released, and how often it
    submitted. *)
Definition resumes (l : list action) : list Cqe :=
  omap (λ a, match a with Resume c => Some c | _ => None end) l.
Definition released (l : list action) : Z :=
  foldr (λ a n, match a with Advance m => m + n | _ => n end) 0 l.
Definition submits (l : list action) : Z :=
  foldr (λ a n, match a with Submit => 1 + n | _ => n end) 0 l.

(** The completions before the message of [Deactivate] (user data 0), and
    whether there is such a message. *)
Fixpoint before_stop (cqes : list Cqe) : list Cqe :=
  match cqes with
  | [] => []
  | c :: cqes => if user_data c =? 0 then [] else c :: before_stop cqes
  end.
Definition stopped (cqes : list Cqe) : bool := existsb (λ c, user_data c =? 0) cqes.
Definition read_count (cqes : list Cqe) : Z :=
  Z.of_nat (length (before_stop cqes)) + (if stopped cqes then 1 else 0).

Lemma resumes_app l k : resumes (l ++ k) = resumes l ++ resumes k.
Proof. apply omap_app. Qed.
Lemma released_app l k : released (l ++ k) = released l + released k.
Proof. induction l as [|[]]; simpl; lia. Qed.
Lemma submits_app l k : submits (l ++ k) = submits l + submits k.
Proof. induction l as [|[]]; simpl; lia. Qed.

Lemma div_step b p : 0 < b → 0 ≤ p →
  (p + 1) `div` b = p `div` b + (if (p + 1) mod b =? 0 then 1 else 0).
Proof.
  intros Hb Hp. pose proof (Z.div_mod p b). pose proof (Z.mod_pos_bound p b Hb).
  pose proof (Z.div_mod (p + 1) b). pose proof (Z.mod_pos_bound (p + 1) b Hb).
  destruct (Z.eqb_spec ((p + 1) mod b) 0); nia.
Qed.

Lemma for_each_cqe_counts b cqes p :
  0 < b → 0 ≤ p → p + read_count cqes < 2 ^ 64 →
  let '(l, n) := for_each_cqe b cqes p in
  let m := Z.of_nat (length (before_stop cqes)) in
  n = p + read_count cqes ∧ resumes l = before_stop cqes ∧
  submits l = (p + m) `div` b - p `div` b ∧ released l = b * submits l.
Proof.
  intros Hb. revert p. induction cqes as [|c cqes IH]; intros p Hp Hlt; simpl.
  - unfold read_count. simpl. rewrite !Z.add_0_r. split_and!; [done..|lia|lia].
  - unfold read_count in Hlt |- *. simpl in Hlt |- *.
    destruct (Z.eqb_spec (user_data c) 0) as [Hc|Hc]; simpl in Hlt |- *.
    + rewrite u64_small, Z.add_0_r by lia. split_and!; [lia|done|lia|lia].
    + fold (stopped cqes) in Hlt |- *. rewrite u64_small by (destruct (stopped cqes); lia).
      specialize (IH (p + 1)). unfold read_count in IH.
      destruct (for_each_cqe b cqes (p + 1)) as [l n].
      destruct IH as (-> & Hr & Hs & Hrel); [lia|lia|].
      replace (p + Z.of_nat (S (length (before_stop cqes))))
        with (p + 1 + Z.of_nat (length (before_stop cqes))) by lia.
      pose proof (div_step b p Hb Hp) as Hd. split_and!.
      * lia.
      * simpl. f_equal. rewrite resumes_app, Hr. by destruct (_ =? 0).
      * simpl. rewrite submits_app, Hs. destruct (_ =? 0); simpl; lia.
      * simpl. rewrite released_app, submits_app, Hrel. destruct (_ =? 0); simpl; lia.
Qed.

(** No prefix of a round releases more entries than it has read. *)
Lemma for_each_cqe_prefix b cqes p l1 l2 :
  0 < b → 0 ≤ p → p + read_count cqes < 2 ^ 64 →
  (for_each_cqe b cqes p).1 = l1 ++ l2 →
  released l1 ≤ p mod b + Z.of_nat (length (resumes l1)).
Proof.
  intros Hb. revert p l1. induction cqes as [|c cqes IH]; intros p l1 Hp Hlt; simpl.
  - pose proof (Z.mod_pos_bound p b Hb). intros [-> ->]%eq_sym%app_nil; simpl. lia.
  - unfold read_count in Hlt. simpl in Hlt. pose proof (Z.mod_pos_bound p b Hb).
    destruct (Z.eqb_spec (user_data c) 0) as [Hc|Hc]; simpl in Hlt.
    + intros [-> ->]%eq_sym%app_nil; simpl. lia.
    + fold (stopped cqes) in Hlt. rewrite u64_small by (destruct (stopped cqes); lia).
      specialize (IH (p + 1)). unfold read_count in IH.
      destruct (for_each_cqe b cqes (p + 1)) as [l n]. simpl in IH |- *.
      pose proof (div_step b p Hb Hp) as Hd. pose proof (Z.div_mod p b).
      pose proof (Z.div_mod (p + 1) b).
      destruct l1 as [|a l1]; [simpl; lia|]. intros [= <- E].
      destruct (Z.eqb_spec ((p + 1) mod b) 0) as [Hz|Hz]; simpl in E |- *.
      * destruct l1 as [|? [|? l1]]; simplify_eq/=; [lia..|].
        specialize (IH l1 ltac:(lia) ltac:(lia) eq_refl). nia.
      * specialize (IH l1 ltac:(lia) ltac:(lia) E). nia.
Qed.

Lemma before_stop_read cqes : 0 ≤ read_count cqes.
Proof. unfold read_count. destruct (stopped cqes); lia. Qed.

Lemma total_released b m (s : bool) n :
  0 < b → 0 ≤ m → n = m + (if s then 1 else 0) →
  b * (m `div` b) + n mod b = (if s && (n mod b =? 0) then n - b else n).
Proof.
  intros Hb Hm ->. pose proof (Z.div_mod m b). destruct s; simpl.
  - pose proof (div_step b m Hb Hm). pose proof (Z.div_mod (m + 1) b).
    destruct (Z.eqb_spec ((m + 1) mod b) 0); nia.
  - rewrite Z.add_0_r. lia.
Qed.

(** A proper prefix of a list followed by at most one element is a prefix of
    the list. *)
Lemma app_split_short {A} (l fin l1 l2 : list A) :
  l ++ fin = l1 ++ l2 → (length fin ≤ 1)%nat → l2 ≠ [] → ∃ k, l = l1 ++ k.
Proof.
  intros [k [[-> E]|[-> E]]]%app_eq_app Hf Hl2; [eauto|].
  destruct k as [|x k]; [exists []; by rewrite !app_nil_r|].
  subst. rewrite length_app in Hf. destruct l2; [done|]. simpl in Hf. lia.
Qed.

(** C32: A round of the event loop resumes the coroutine of every completion
    before the stop message, once and in order; it submits once per full batch;
    it never releases a completion entry it has not read; and at its end it has
    released every entry it read, except when the stop message is the last of a
    full batch, whose entries it leaves in the queue. *)
Theorem event_round_exact c cqes :
  read_count cqes < 2 ^ 64 →
  let t := EventLoop_round c cqes in
  let b := Z.max 1 (rc_submit_batch_size c) in
  let n := read_count cqes in
  resumes t = before_stop cqes ∧
  submits t = Z.of_nat (length (before_stop cqes)) `div` b ∧
  (∀ l1 l2, t = l1 ++ l2 → released l1 ≤ n ∧
     (l2 ≠ [] → released l1 ≤ Z.of_nat (length (resumes l1)))) ∧
  released t = (if stopped cqes && (n mod b =? 0) then n - b else n).
Proof.
  intros Hn t b n. assert (0 < b) as Hb by lia. subst t. unfold EventLoop_round. fold b.
  pose proof (for_each_cqe_counts b cqes 0 Hb ltac:(lia) Hn) as Hc.
  pose proof (for_each_cqe_prefix b cqes 0) as Hp.
  destruct (for_each_cqe b cqes 0) as [l p]. rewrite !Z.add_0_l in Hc. fold n in Hc.
  destruct Hc as (-> & Hr & Hs & Hrel). rewrite Zdiv_0_l, Z.sub_0_r in Hs. simpl in Hp.
  set (m := Z.of_nat (length (before_stop cqes))) in *.
  set (fin := if n mod b =? 0 then [] else [Advance (n mod b)]).
  assert (resumes fin = [] ∧ submits fin = 0 ∧ released fin = n mod b) as (Hf1 & Hf2 & Hf3).
  { unfold fin. destruct (Z.eqb_spec (n mod b) 0) as [->|]; simpl; by rewrite ?Z.add_0_r. }
  assert (released (l ++ fin) = (if stopped cqes && (n mod b =? 0) then n - b else n)) as Htot.
  { rewrite released_app, Hf3, Hrel, Hs. apply total_released; [lia|lia|].
    unfold n, read_count. fold m. by destruct (stopped cqes). }
  split_and!; [by rewrite resumes_app, Hf1, app_nil_r | by rewrite submits_app, Hf2, Hs, Z.add_0_r | |done].
  intros l1 l2 E. destruct (decide (l2 = [])) as [->|Hl2].
  { rewrite app_nil_r in E. subst l1. rewrite Htot. split; [|done]. fold n. destruct (_ && _); lia. }
  destruct (app_split_short l fin l1 l2 E) as [k Hk]; [|done|].
  { unfold fin. destruct (_ =? 0); simpl; lia. }
  pose proof (Hp l1 k Hb ltac:(lia) Hn Hk) as Hle. rewrite Zmod_0_l in Hle.
  assert (Z.of_nat (length (resumes l1)) ≤ m); [|split; [unfold n, read_count; fold m;
    destruct (stopped cqes); lia|lia]].
  unfold m. rewrite <- Hr, Hk, resumes_app, length_app. lia.
Qed.

Lemma event_round_exact_witness :
  let cqes := [mkCqe 8 1 0; mkCqe 16 (-11) 0; mkCqe 24 5 1; mkCqe 0 0 0] in
  let t := EventLoop_round (mkRingConfig 8 8 false 2 1 0 true) cqes in
  resumes t = before_stop cqes ∧
  submits t = Z.of_nat (length (before_stop cqes)) `div` 2 ∧
  (∀ l1 l2, t = l1 ++ l2 → released l1 ≤ read_count cqes ∧
     (l2 ≠ [] → released l1 ≤ Z.of_nat (length (resumes l1)))) ∧
  released t = 2.
Proof.
  apply (event_round_exact (mkRingConfig 8 8 false 2 1 0 true)
           [mkCqe 8 1 0; mkCqe 16 (-11) 0; mkCqe 24 5 1; mkCqe 0 0 0]).
  vm_compute. reflexivity.
Defined.
