(* ===== verification/Startup.v ===== *)
(** * Starting the server

    Model of what happens before the event loops: [SetNofileLimit],
    [CreateListeningSocket] and [SetThreadAffinity] (src/src/sys/util.cc),
    [Listener::Create] (src/src/io/listener.cc), the constructor of
    [RingExecutor] (src/src/runtime/ring_executor.cc), the constructor and
    [Setup] of [Server] (src/src/server.cc) and [main] (src/src/main.cc).

    The operating system is outside: the calls are the class [Os], with their
    documented behaviour as its laws [OsLaws].  Each executor's constructor waits
    for its thread to be set up, so the calls happen one after the other. *)

From S2P Require Import Prelude Chars Config Ini RingExecutor.

(** ** The operating system *)

(** A socket: the port it is bound to and the backlog it listens with. *)
Record Sock := mkSock { s_port : option Z; s_backlog : option Z }.

Class Os (K : Type) := {
  os_getrlimit : K → option (Z * Z);         (* RLIMIT_NOFILE: soft, hard; None: failure *)
  os_setrlimit : Z * Z → K → bool * K;
  os_socket : K → Z * K;
  os_reuseaddr : Z → K → Z * K;              (* setsockopt SO_REUSEADDR *)
  os_bind : Z → Z → K → Z * K;               (* to INADDR_ANY and a port *)
  os_listen : Z → Z → K → Z * K;
  os_setaffinity : list Z → K → Z * K;       (* pthread_setaffinity_np *)
  os_setname : bytes → K → Z * K;            (* pthread_setname_np *)
  os_ring_init : Z → Z → bool → K → Z * K;   (* queues, completions, polling *)
  os_register_files : Z → K → Z * K;         (* io_uring_register_files_sparse *)
  os_register_ring_fd : K → Z * K;
  sockets : K → gmap Z Sock;                 (* by descriptor *)
  nofile : K → Z * Z;                        (* the limits in force *)
  processors : K → list Z }.

(** What the calls that are not about sockets leave alone. *)
Definition frame {K} `{!Os K} (k k' : K) : Prop :=
  sockets k' = sockets k ∧ nofile k' = nofile k ∧ processors k' = processors k.
Definition other {K} `{!Os K} (k k' : K) : Prop :=
  nofile k' = nofile k ∧ processors k' = processors k.

Class OsLaws (K : Type) `{!Os K} : Prop := {
  getrlimit_ok k l : os_getrlimit k = Some l → l = nofile k;
  setrlimit_ok l k k' : os_setrlimit l k = (true, k') →
    nofile k' = l ∧ sockets k' = sockets k ∧ processors k' = processors k;
  setrlimit_error l k k' : os_setrlimit l k = (false, k') → frame k k';
  (* A new descriptor, or -1. *)
  socket_ok k fd k' : os_socket k = (fd, k') → fd ≠ -1 →
    0 ≤ fd ∧ sockets k !! fd = None ∧ sockets k' = <[fd := mkSock None None]> (sockets k) ∧ other k k';
  socket_error k k' : os_socket k = (-1, k') → frame k k';
  reuseaddr_frame fd k : frame k (os_reuseaddr fd k).2;
  bind_ok fd port k r k' : os_bind fd port k = (r, k') → 0 ≤ r →
    other k k' ∧
    ∃ s, sockets k !! fd = Some s ∧ sockets k' = <[fd := mkSock (Some port) (s_backlog s)]> (sockets k);
  bind_error fd port k r k' : os_bind fd port k = (r, k') → r < 0 → frame k k';
  listen_ok fd n k r k' : os_listen fd n k = (r, k') → 0 ≤ r →
    other k k' ∧
    ∃ s, sockets k !! fd = Some s ∧ sockets k' = <[fd := mkSock (s_port s) (Some n)]> (sockets k);
  listen_error fd n k r k' : os_listen fd n k = (r, k') → r < 0 → frame k k';
  (* EINVAL when no processor of the mask exists; ERANGE for long names. *)
  setaffinity_ok mask k :
    frame k (os_setaffinity mask k).2 ∧
    ((os_setaffinity mask k).1 = 0 ↔ ∃ cpu, cpu ∈ mask ∧ cpu ∈ processors k);
  setname_ok name k :
    frame k (os_setname name k).2 ∧ ((os_setname name k).1 = 0 ↔ (length name ≤ 15)%nat);
  ring_init_frame n cq b k : frame k (os_ring_init n cq b k).2;
  register_files_frame n k : frame k (os_register_files n k).2;
  register_ring_fd_frame k : frame k (os_register_ring_fd k).2 }.

(** ** sys/util.cc and the listener *)

Section startup.
Context {K : Type} `{!Os K}.
Implicit Types k : K.

Definition SetNofileLimit (limit : Z) k : bool * K :=
  match os_getrlimit k with
  | None => (false, k)
  | Some (_, rlim_max) =>
      let '(ok, k) := os_setrlimit (limit, Z.max rlim_max limit) k in
      if negb ok then (false, k)
      else
        match os_getrlimit k with
        | None => (false, k)
        | Some (rlim_cur, rlim_max) => ((rlim_cur =? limit) && (rlim_max =? limit), k)
        end
  end.

(** 0 stands for failure. *)
Definition CreateListeningSocket (port : Z) k : Z * K :=
  let '(sock, k) := os_socket k in
  if sock =? -1 then (0, k)
  else
    let '(r, k) := os_reuseaddr sock k in
    if r <? 0 then (0, k)
    else
      let '(r, k) := os_bind sock (u16 port) k in
      if r <? 0 then (0, k)
      else
        let '(r, k) := os_listen sock 1000 k in
        if r <? 0 then (0, k) else (sock, k).

(** [LOG(FATAL)] unless a condition holds. *)
Definition must (c : bool) : Outcome unit := if c then Ok tt else Fault LogFatal.

(** [CPU_SET] ignores processors beyond the size of the set. *)
Definition kCpuSetSize : Z := 1024.

Definition SetThreadAffinity (cpus : list Z) k : Outcome K :=
  let '(rc, k) := os_setaffinity (filter (λ cpu, cpu < kCpuSetSize) cpus) k in
  _ ← must (rc =? 0); Ok k.

Definition Listener_Create (port : Z) k : Outcome (Z * K) :=
  let '(fd, k) := CreateListeningSocket (u16 port) k in
  _ ← must (negb (fd =? 0)); Ok (fd, k).

(** ** The executors *)

(** The constructor of [RingExecutor], with the work of its thread up to
    [promise.set_value]. *)
Definition RingExecutor_start (e : Executor) k : Outcome K :=
  let rc := exr_config e in
  k ← SetThreadAffinity (thread_cpus e) k;
  let '(ret, k) := os_setname (exr_name e) k in
  _ ← must (ret =? 0);
  let '(ret, k) := os_ring_init (sq_entries rc) (cq_entries rc) (rc_sqpoll rc) k in
  _ ← must (ret =? 0);
  k ← (if max_direct_descriptors rc =? 0 then Ok k
       else let '(ret, k) := os_register_files (max_direct_descriptors rc) k in
            _ ← must (ret =? 0); Ok k);
  if register_ring_fd rc
  then let '(ret, k) := os_register_ring_fd k in _ ← must (ret =? 1); Ok k
  else Ok k.

Fixpoint start_all (es : list Executor) k : Outcome K :=
  match es with
  | [] => Ok k
  | e :: es => k ← RingExecutor_start e k; start_all es k
  end.

(** ** The server *)

(** The constructor: the executors, then the listener on the first of the
    clients'. *)
Definition Server_construct (c : Config) k : Outcome (Z * K) :=
  k ← start_all (Server_executors c) k;
  _ ← vec_get (tail (Server_executors c)) 0;
  Listener_Create (port c) k.

(** [Setup], the calls of the operating system. *)
Definition Server_Setup k : Outcome K :=
  let '(_, k) := SetNofileLimit (2 ^ 16 - 1) k in
  let '(ret, k) := os_ring_init 16 0 false k in
  _ ← must (ret =? 0); Ok k.

(** [main] up to [Run], with the contents of the file it is given. *)
Definition main_start (file : option bytes) k : Outcome (Config * Z * K) :=
  c ← match file with Some text => ReadFromFile text default_config | None => Ok default_config end;
  '(fd, k) ← Server_construct c k;
  k ← Server_Setup k;
  Ok (c, fd, k).

(** ** What the calls do *)

Context `{!OsLaws K}.

Lemma frame_trans k1 k2 k3 : frame k1 k2 → frame k2 k3 → frame k1 k3.
Proof. unfold frame. intros (-> & -> & ->) (? & ? & ?). done. Qed.

(** After a failure: the sockets that were open are as before, and the one that
    could not be set up may be left behind. *)
Definition left_behind k k' : Prop :=
  other k k' ∧ (sockets k' = sockets k ∨
    ∃ fd s, sockets k !! fd = None ∧ sockets k' = <[fd := s]> (sockets k)).

(** A socket being set up. *)
Definition new_socket (fd : Z) (s : Sock) k k' : Prop :=
  other k k' ∧ sockets k !! fd = None ∧ sockets k' = <[fd := s]> (sockets k).

Lemma new_socket_left fd s k k' : new_socket fd s k k' → left_behind k k'.
Proof. intros (? & ? & ?). split; [done|]. right. by exists fd, s. Qed.

Lemma new_socket_frame fd s k k1 k2 : new_socket fd s k k1 → frame k1 k2 → new_socket fd s k k2.
Proof. intros ((? & ?) & ? & ?) (? & ? & ?). split_and!; unfold other; [split|..]; congruence. Qed.

Lemma new_socket_step fd s s' k k1 k2 :
  new_socket fd s k k1 → other k1 k2 →
  sockets k2 = <[fd := s']> (sockets k1) → new_socket fd s' k k2.
Proof.
  intros ((? & ?) & ? & Hs) (? & ?) E. split_and!; unfold other; [split; congruence|done|].
  by rewrite E, Hs, insert_insert_eq.
Qed.

Lemma new_socket_lookup fd s k k' : new_socket fd s k k' → sockets k' !! fd = Some s.
Proof. intros (_ & _ & ->). apply lookup_insert_eq. Qed.

Lemma create_socket_spec port k fd k' :
  CreateListeningSocket port k = (fd, k') →
  fd = 0 ∧ left_behind k k' ∨
  0 < fd ∧ new_socket fd (mkSock (Some (u16 port)) (Some 1000)) k k'.
Proof.
  unfold CreateListeningSocket. destruct (os_socket k) as [sock k1] eqn:E1.
  destruct (Z.eqb_spec sock (-1)) as [->|Hne].
  { intros [= <- <-]. left. apply socket_error in E1 as (? & ? & ?). by repeat split; [..|left]. }
  destruct (socket_ok _ _ _ E1 Hne) as (H0 & Hn & Hs1 & Ho1).
  assert (new_socket sock (mkSock None None) k k1) as Hk by done.
  apply (fun H => new_socket_frame _ _ _ _ _ H (reuseaddr_frame sock k1)) in Hk.
  destruct (os_reuseaddr sock k1) as [r2 k2]. cbn [snd] in Hk.
  destruct (r2 <? 0). { intros [= <- <-]. left. by eapply new_socket_left in Hk. }
  destruct (os_bind sock (u16 port) k2) as [r3 k3] eqn:E3. destruct (Z.ltb_spec r3 0) as [Hr3|Hr3].
  { intros [= <- <-]. left. split; [done|]. eapply new_socket_left, new_socket_frame; [done|].
    by eapply bind_error. }
  destruct (bind_ok _ _ _ _ _ E3 Hr3) as (Ho3 & s3 & Hl3 & Hs3).
  rewrite (new_socket_lookup _ _ _ _ Hk) in Hl3. injection Hl3 as <-.
  eapply new_socket_step in Hk; [|done..].
  destruct (os_listen sock 1000 k3) as [r4 k4] eqn:E4. destruct (Z.ltb_spec r4 0) as [Hr4|Hr4].
  { intros [= <- <-]. left. split; [done|]. eapply new_socket_left, new_socket_frame; [done|].
    by eapply listen_error. }
  destruct (listen_ok _ _ _ _ _ E4 Hr4) as (Ho4 & s4 & Hl4 & Hs4).
  rewrite (new_socket_lookup _ _ _ _ Hk) in Hl4. injection Hl4 as <-.
  eapply new_socket_step in Hk; [|done..]. intros [= <- <-].
  destruct (decide (sock = 0)) as [->|Hnz]; [left|right; split; [lia|done]].
  by eapply new_socket_left in Hk.
Qed.

(** The limit: the soft one is what was asked for after a success, and the
    hard one is never lowered. *)
Lemma nofile_spec limit k b k' :
  SetNofileLimit limit k = (b, k') →
  sockets k' = sockets k ∧ processors k' = processors k ∧
  (nofile k' = nofile k ∨ nofile k' = (limit, Z.max (nofile k).2 limit)) ∧
  (b = true ↔ os_getrlimit k ≠ None ∧ (os_setrlimit (limit, Z.max (nofile k).2 limit) k).1 = true ∧
     os_getrlimit k' ≠ None ∧ (nofile k).2 ≤ limit).
Proof.
  unfold SetNofileLimit. destruct (os_getrlimit k) as [[cur hard]|] eqn:E1.
  2: { intros [= <- <-]. split_and!; [done..|by left|]. split; [done|]. by intros []. }
  apply getrlimit_ok in E1 as E. rewrite <- E. cbn [snd].
  destruct (os_setrlimit _ k) as [ok k1] eqn:E2. destruct ok; cbn [negb].
  2: { intros [= <- <-]. destruct (setrlimit_error _ _ _ E2) as (? & ? & ?).
       split_and!; [done..|left; congruence|]. split; [done|]. by intros (_ & ? & _). }
  destruct (setrlimit_ok _ _ _ E2) as (Hl & Hs & Hp).
  destruct (os_getrlimit k1) as [[cur1 hard1]|] eqn:E3; intros [= <- <-].
  - apply getrlimit_ok in E3 as E4. rewrite Hl in E4. injection E4 as -> ->.
    split_and!; [done..|by right|]. rewrite Z.eqb_refl. cbn [andb]. rewrite Z.eqb_eq, E3. cbn [fst].
    split; [intros ?; split_and!; [done..|lia]|intros (_ & _ & _ & ?); lia].
  - split_and!; [done..|by right|]. split; [done|]. by intros (_ & _ & [] & _).
Qed.

(** ** Starting executors *)

(** An executor can run: one of its processors exists and its name fits. *)
Definition can_run k (e : Executor) : Prop :=
  (∃ cpu, cpu ∈ thread_cpus e ∧ cpu < kCpuSetSize ∧ cpu ∈ processors k) ∧
  (length (exr_name e) ≤ 15)%nat.

Lemma can_run_frame k k' e : frame k k' → can_run k e → can_run k' e.
Proof. intros (_ & _ & Hp). unfold can_run. by rewrite Hp. Qed.

Lemma must_ok (b : bool) u : must b = Ok u → b = true.
Proof. by destruct b. Qed.

(** The kernel gives rings and sockets when it is asked. *)
Record willing : Prop := {
  w_ring n cq b k : (os_ring_init n cq b k).1 = 0;
  w_files n k : (os_register_files n k).1 = 0;
  w_ring_fd k : (os_register_ring_fd k).1 = 1;
  w_socket k : 0 < (os_socket k).1;
  w_reuse fd k : is_Some (sockets k !! fd) → 0 ≤ (os_reuseaddr fd k).1;
  w_bind fd p k : is_Some (sockets k !! fd) → 0 ≤ (os_bind fd p k).1;
  w_listen fd n k : is_Some (sockets k !! fd) → 0 ≤ (os_listen fd n k).1 }.

Lemma affinity_step cpus k :
  ∃ k', frame k k' ∧
    ((∃ cpu, cpu ∈ cpus ∧ cpu < kCpuSetSize ∧ cpu ∈ processors k) → SetThreadAffinity cpus k = Ok k') ∧
    (∀ k2, SetThreadAffinity cpus k = Ok k2 →
       k2 = k' ∧ ∃ cpu, cpu ∈ cpus ∧ cpu < kCpuSetSize ∧ cpu ∈ processors k).
Proof.
  unfold SetThreadAffinity. set (mask := filter _ cpus).
  destruct (setaffinity_ok mask k) as [Hf Ha]. destruct (os_setaffinity mask k) as [rc k'].
  cbn [fst snd] in *. exists k'. split; [done|].
  assert ((∃ cpu, cpu ∈ cpus ∧ cpu < kCpuSetSize ∧ cpu ∈ processors k) ↔ rc = 0) as Hm.
  { rewrite Ha. unfold mask. setoid_rewrite list_elem_of_filter. naive_solver. }
  split; [by intros ->%Hm|]. intros k2 H. inv_ok.
  repeat match goal with H : must _ = Ok _ |- _ => apply must_ok in H end.
  split; [done|]. by apply Hm, Z.eqb_eq.
Qed.

Lemma executor_started e k k' : RingExecutor_start e k = Ok k' → frame k k' ∧ can_run k e.
Proof.
  unfold RingExecutor_start. intros H. apply bind_Ok_inv in H as (k1 & H1 & H).
  destruct (affinity_step (thread_cpus e) k) as (k1' & Hf1 & _ & Ha). destruct (Ha _ H1) as [-> Hcpu].
  destruct (setname_ok (exr_name e) k1') as [Hf2 Hn]. destruct (os_setname _ _) as [r2 k2].
  apply bind_Ok_inv in H as (u2 & Hr2%must_ok%Z.eqb_eq & H). cbn [fst snd] in *.
  pose proof (ring_init_frame (sq_entries (exr_config e)) (cq_entries (exr_config e))
    (rc_sqpoll (exr_config e)) k2) as Hf3. destruct (os_ring_init _ _ _ _) as [r3 k3].
  apply bind_Ok_inv in H as (u3 & _ & H). apply bind_Ok_inv in H as (k4 & H4 & H). cbn [snd] in *.
  assert (frame k3 k4) as Hf4.
  { destruct (_ =? 0); [by injection H4 as <-|].
    pose proof (register_files_frame (max_direct_descriptors (exr_config e)) k3) as Hf.
    destruct (os_register_files _ _). inv_ok. by subst. }
  assert (frame k4 k') as Hf5.
  { destruct (register_ring_fd _); [|by injection H as <-].
    pose proof (register_ring_fd_frame k4) as Hf. destruct (os_register_ring_fd k4). inv_ok. by subst. }
  split; [|split; [done|by apply Hn]]. by repeat (eapply frame_trans; [|done]).
Qed.

Lemma executor_starts e k : willing → can_run k e → ∃ k', RingExecutor_start e k = Ok k'.
Proof.
  intros [Hr Hfi Hfd _ _ _ _] [Hcpu Hname]. unfold RingExecutor_start.
  destruct (affinity_step (thread_cpus e) k) as (k1 & _ & Ha & _). step (Ha Hcpu).
  destruct (setname_ok (exr_name e) k1) as [_ Hn]. destruct (os_setname _ _) as [r2 k2].
  cbn [fst] in Hn. rewrite (proj2 Hn Hname). cbn [must Z.eqb mbind outcome_bind].
  pose proof (Hr (sq_entries (exr_config e)) (cq_entries (exr_config e)) (rc_sqpoll (exr_config e)) k2) as E3.
  destruct (os_ring_init _ _ _ _) as [r3 k3]. cbn [fst] in E3. subst r3.
  cbn [must Z.eqb mbind outcome_bind].
  assert (∀ k, ∃ k', (if register_ring_fd (exr_config e)
    then let '(ret, k) := os_register_ring_fd k in _ ← must (ret =? 1); Ok k else Ok k) = Ok k') as Hlast.
  { intros k4. destruct (register_ring_fd _); [|by eexists]. pose proof (Hfd k4) as E.
    destruct (os_register_ring_fd k4). cbn [fst] in E. subst. by eexists. }
  destruct (_ =? 0); [apply Hlast|]. pose proof (Hfi (max_direct_descriptors (exr_config e)) k3) as E4.
  destruct (os_register_files _ _) as [r4 k4]. cbn [fst] in E4. subst r4. apply Hlast.
Qed.

Lemma all_started es k k' : start_all es k = Ok k' → frame k k' ∧ Forall (can_run k) es.
Proof.
  revert k. induction es as [|e es IH]; intros k; cbn [start_all].
  - intros [= ->]. by repeat split.
  - intros (k1 & H1%executor_started & H2%IH)%bind_Ok_inv. destruct H1 as [Hf1 Hr], H2 as [Hf2 Hrs].
    split; [by eapply frame_trans|]. constructor; [done|]. eapply Forall_impl; [exact Hrs|].
    intros e'. apply can_run_frame. destruct Hf1 as (? & ? & ?). by repeat split.
Qed.

Lemma all_start es k : willing → Forall (can_run k) es → ∃ k', start_all es k = Ok k'.
Proof.
  intros Hw Hes. revert k Hes. induction es as [|e es IH]; intros k Hes; cbn [start_all]; [by eexists|].
  apply Forall_cons in Hes as [He Hes]. destruct (executor_starts e k Hw He) as [k1 H1]. step H1.
  apply IH. eapply Forall_impl; [exact Hes|]. intros e'. apply can_run_frame.
  by apply executor_started in H1 as [? _].
Qed.

(** The processor of the first client executor. *)
Definition first_cpu (c : Config) : Z := if sqpoll c then 2 else 1.

Lemma server_can_run c k N :
  processors k = seqZ 0 N → 0 < client_executors c →
  Forall (can_run k) (Server_executors c) ↔
  first_cpu c + client_executors c ≤ Z.min N kCpuSetSize.
Proof.
  intros Hp Hn. unfold Server_executors, CreateMany. fold (first_cpu c). split.
  - intros [_ Hc]%Forall_cons. rewrite Forall_fmap, Forall_forall in Hc.
    destruct (Hc (first_cpu c + client_executors c - 1)) as [(cpu & Hcpu & Hlt & Hin) _].
    { apply elem_of_seqZ. lia. }
    cbn in Hcpu. apply list_elem_of_singleton in Hcpu as ->. rewrite Hp in Hin.
    apply elem_of_seqZ in Hin. lia.
  - intros Hle. assert (1 ≤ first_cpu c) by (unfold first_cpu; destruct (sqpoll c); lia).
    unfold kCpuSetSize in *. constructor.
    + split; [|cbn; lia]. exists 0. rewrite Hp, elem_of_seqZ. split_and!; [|done|lia..].
      unfold thread_cpus. cbn. destruct (sqpoll c); by left.
    + rewrite Forall_fmap, Forall_forall. intros i Hi%elem_of_seqZ. split.
      * exists i. rewrite Hp, elem_of_seqZ. split_and!; [by left|unfold kCpuSetSize; lia..].
      * cbn [exr_name Create compose]. rewrite length_app.
        pose proof (to_chars_length 4 i ltac:(lia) ltac:(lia) ltac:(lia)). cbn. lia.
Qed.

Lemma listener_created port k fd k' :
  Listener_Create port k = Ok (fd, k') →
  0 < fd ∧ new_socket fd (mkSock (Some (u16 port)) (Some 1000)) k k'.
Proof.
  unfold Listener_Create. destruct (CreateListeningSocket (u16 port) k) as [fd' k1] eqn:E. intros H.
  apply bind_Ok_inv in H as (u & Hm%must_ok%negb_true_iff%Z.eqb_neq & [= <- <-]).
  apply create_socket_spec in E as [[-> _]|[Hfd Hn]]; [done|]. split; [done|].
  unfold u16 in *. by rewrite Z.mod_mod in Hn.
Qed.

Lemma listener_creates port k : willing → ∃ r, Listener_Create port k = Ok r.
Proof.
  intros [_ _ _ Hs Hr Hb Hl]. unfold Listener_Create, CreateListeningSocket.
  pose proof (Hs k) as Hfd. destruct (os_socket k) as [fd k1] eqn:E1. cbn [fst] in Hfd.
  destruct (socket_ok _ _ _ E1 ltac:(lia)) as (_ & _ & Hs1 & _).
  assert (is_Some (sockets k1 !! fd)) as Hk1 by (rewrite Hs1, lookup_insert_eq; by eexists).
  rewrite Zeqb_f by lia. pose proof (Hr fd k1 Hk1). pose proof (reuseaddr_frame fd k1) as (Hs2 & _).
  destruct (os_reuseaddr fd k1) as [r2 k2]. cbn [fst snd] in *. rewrite Zltb_f by lia.
  rewrite <- Hs2 in Hk1. pose proof (Hb fd (u16 (u16 port)) k2 Hk1) as Hr3.
  destruct (os_bind fd _ k2) as [r3 k3] eqn:E3. cbn [fst] in Hr3. rewrite Zltb_f by lia.
  destruct (bind_ok _ _ _ _ _ E3 Hr3) as (_ & s3 & _ & Hs3).
  assert (is_Some (sockets k3 !! fd)) as Hk3 by (rewrite Hs3, lookup_insert_eq; by eexists).
  pose proof (Hl fd 1000 k3 Hk3) as Hr4. destruct (os_listen fd 1000 k3) as [r4 k4]. cbn [fst] in Hr4.
  rewrite Zltb_f by lia. rewrite Zeqb_f by lia. by eexists.
Qed.


Lemma read_port_range text before c : ReadFromFile text before = Ok c → 0 ≤ port c < 2 ^ 16.
Proof.
  unfold ReadFromFile. cbv zeta. intros (p & _ & [= <-])%bind_Ok_inv. apply Z.mod_pos_bound. lia.
Qed.

End startup.

(** ** A sample operating system *)

Record Machine := mkMachine { m_sockets : gmap Z Sock; m_limits : Z * Z; m_cpus : Z }.

Definition set_socket (fd : Z) (f : Sock → Sock) (m : Machine) : Z * Machine :=
  match m_sockets m !! fd with
  | Some s => (0, mkMachine (<[fd := f s]> (m_sockets m)) (m_limits m) (m_cpus m))
  | None => (-1, m)
  end.

(** Descriptors are the least not in use from 3; every call succeeds unless its
    arguments are wrong. *)
Definition next_fd (m : Machine) : Z := foldr Z.max 2 (map_to_list (m_sockets m)).*1 + 1.

#[local] Instance machine_os : Os Machine := {|
  os_getrlimit m := Some (m_limits m);
  os_setrlimit l m := (true, mkMachine (m_sockets m) l (m_cpus m));
  os_socket m := (next_fd m, mkMachine (<[next_fd m := mkSock None None]> (m_sockets m)) (m_limits m) (m_cpus m));
  os_reuseaddr fd m := (if bool_decide (is_Some (m_sockets m !! fd)) then 0 else -1, m);
  os_bind fd p := set_socket fd (λ s, mkSock (Some p) (s_backlog s));
  os_listen fd n := set_socket fd (λ s, mkSock (s_port s) (Some n));
  os_setaffinity mask m :=
    (if bool_decide (Exists (λ cpu, 0 ≤ cpu < m_cpus m) mask) then 0 else 22, m);
  os_setname name m := (if bool_decide (length name ≤ 15)%nat then 0 else 34, m);
  os_ring_init _ _ _ m := (0, m);
  os_register_files _ m := (0, m);
  os_register_ring_fd m := (1, m);
  sockets := m_sockets;
  nofile := m_limits;
  processors m := seqZ 0 (m_cpus m) |}.

Lemma next_fd_free m : 3 ≤ next_fd m ∧ m_sockets m !! next_fd m = None.
Proof.
  unfold next_fd. assert (∀ l, 2 ≤ foldr Z.max 2 l ∧ Forall (λ x, x ≤ foldr Z.max 2 l) l) as Hmax.
  { induction l as [|x l [IH1 IH2]]; [by split|]. simpl. split; [lia|]. constructor; [lia|].
    eapply Forall_impl; [exact IH2|]. simpl. intros; lia. }
  destruct (Hmax (map_to_list (m_sockets m)).*1) as [H1 H2]. split; [lia|].
  destruct (m_sockets m !! _) as [s|] eqn:E; [|done]. apply elem_of_map_to_list in E.
  rewrite Forall_forall in H2. specialize (H2 _ (list_elem_of_fmap_2 fst _ _ E)). simpl in H2. lia.
Qed.

Lemma machine_laws : OsLaws Machine.
Proof.
  assert (∀ fd f m r m', set_socket fd f m = (r, m') →
    (r < 0 → frame m m') ∧ (0 ≤ r → other m m' ∧ ∃ s, m_sockets m !! fd = Some s ∧
       m_sockets m' = <[fd := f s]> (m_sockets m))) as Hset.
  { intros fd f m r m'. unfold set_socket. destruct (m_sockets m !! fd) as [s|] eqn:E; intros [= <- <-].
    - split; [lia|]. intros _. split; [done|]. by exists s.
    - split; [done|lia]. }
  split; simpl; try done.
  - by intros k l [= <-].
  - by intros l k k' [= <-].
  - intros k fd k' [= <- <-] _. destruct (next_fd_free k). by split_and!; [lia|..].
  - intros k k' [= E _]. destruct (next_fd_free k). lia.
  - intros fd p k r k' E Hr. by apply (Hset _ _ _ _ _ E).
  - intros fd p k r k' E Hr. by apply (Hset _ _ _ _ _ E).
  - intros fd n k r k' E Hr. by apply (Hset _ _ _ _ _ E).
  - intros fd n k r k' E Hr. by apply (Hset _ _ _ _ _ E).
  - intros mask k. split; [done|]. setoid_rewrite elem_of_seqZ. rewrite Z.add_0_l.
    case_bool_decide as E; [split; [intros _; by apply Exists_exists|done]|].
    split; [done|]. intros H. by destruct E; apply Exists_exists.
  - intros name k. split; [done|]. by case_bool_decide.
Qed.
#[local] Existing Instance machine_laws.

Definition four_cpus : Machine := mkMachine ∅ (1024, 4096) 4.

Lemma machine_willing : @willing Machine machine_os.
Proof.
  split; simpl; try done.
  - intros k. destruct (next_fd_free k). lia.
  - intros fd k Hk. by rewrite bool_decide_true.
  - intros fd p k [s E]. unfold set_socket. by rewrite E.
  - intros fd n k [s E]. unfold set_socket. by rewrite E.
Qed.


(** The hard limit stays at 100000, which [SetNofileLimit] takes for a failure
    although the soft limit was set. *)
Theorem nofile_reports_failure :
  SetNofileLimit 65535 (mkMachine ∅ (1024, 100000) 4) = (false, mkMachine ∅ (65535, 100000) 4).
Proof. reflexivity. Qed.

(** A configuration file may ask for no client executor; the constructor then
    reads the first of an empty vector. *)
Theorem no_client_executor_faults :
  main_start (Some (lit "[rdss]" ++ [LF] ++ lit "client_executors = 0")) four_cpus = Fault OutOfRange.
Proof. vm_compute. reflexivity. Qed.

