(* ===== verification/BufferRing.v ===== *)
(** * The ring of receive buffers

    Model of the provided-buffer part of [RingExecutor]
    (src/src/runtime/ring_executor.h, ring_executor.cc): [InitBufRing],
    [GetBufferView] and [PutBufferView].  A block of memory is cut into entries
    of 4096 bytes that are handed to the kernel through a buffer ring; a
    completed receive names the first entry it filled, the executor makes a
    view of the bytes and later hands the entries back.

    The buffer ring of liburing is the class [BufRing]; its laws are the
    documented behaviour, and [queue_ring] is an instance. *)

From S2P Require Import Prelude Bits Config Buffer RingExecutor.

Definition buf_entry_size : Z := 2048 * 2.

(** ** liburing's buffer rings *)

Record BufDesc := mkDesc { bd_addr : Z; bd_len : Z; bd_id : Z }.

Class BufRing (R : Type) := {
  br_setup : Z → option R;               (* io_uring_setup_buf_ring *)
  br_add : BufDesc → Z → Z → R → R;      (* io_uring_buf_ring_add, with mask and offset *)
  br_advance : Z → R → R;                (* io_uring_buf_ring_advance *)
  br_take : R → option (BufDesc * R);    (* the kernel selects a buffer *)
  br_size : R → Z;
  provided : R → list BufDesc            (* the buffers the kernel may select, in order *) }.

(** Consecutive additions at increasing offsets. *)
Fixpoint br_adds {R} `{!BufRing R} (ds : list BufDesc) (mask offset : Z) (r : R) : R :=
  match ds with
  | [] => r
  | d :: ds => br_adds ds mask (offset + 1) (br_add d mask offset r)
  end.

Class BufRingLaws (R : Type) `{!BufRing R} : Prop := {
  br_setup_ok n r :
    br_setup n = Some r → provided r = [] ∧ br_size r = n ∧ ∃ k, 0 ≤ k ≤ 15 ∧ n = 2 ^ k;
  br_provide ds r :
    Z.of_nat (length (provided r) + length ds) ≤ br_size r →
    let r' := br_advance (Z.of_nat (length ds)) (br_adds ds (br_size r - 1) 0 r) in
    provided r' = provided r ++ ds ∧ br_size r' = br_size r;
  br_take_head d ds r :
    provided r = d :: ds →
    ∃ r', br_take r = Some (d, r') ∧ provided r' = ds ∧ br_size r' = br_size r;
  br_take_none r : provided r = [] → br_take r = None }.

(** ** The executor's buffers *)

Record Buffers (R : Type) := mkBuffers {
  buf_start : Z;          (* buf_ *)
  buf_mem : bytes;        (* the block behind it *)
  buf_entries_ : Z;
  buf_ring_ : R;
  concat_start : Z;       (* concat_str_.data() *)
  concat_str_ : bytes }.
Arguments mkBuffers {R}.
Arguments buf_start {R}.
Arguments buf_mem {R}.
Arguments buf_entries_ {R}.
Arguments buf_ring_ {R}.
Arguments concat_start {R}.
Arguments concat_str_ {R}.

Record BufferView := mkView { view : StringView; separated_entry_id : option Z }.

(** Pass an assertion that holds. *)
Ltac pass_assert tac :=
  match goal with
  | |- context [cassert ?c ≫= ?k] =>
      rewrite (bind_Ok (cassert c) k tt) by (apply cassert_true; tac); cbn beta
  end.

Section buffers.
Context {R : Type} `{!BufRing R} `{!BuildMode}.
Implicit Types B : Buffers R.

Definition set_ring (r : R) B : Buffers R :=
  mkBuffers (buf_start B) (buf_mem B) (buf_entries_ B) r (concat_start B) (concat_str_ B).
Definition set_concat (start : Z) (s : bytes) B : Buffers R :=
  mkBuffers (buf_start B) (buf_mem B) (buf_entries_ B) (buf_ring_ B) start s.

(** The address of an entry. *)
Definition entry_addr (start id : Z) : Z := start + u32 (id * buf_entry_size).

(** The loop of [InitBufRing]: [i] entries are added, [fuel] are to go. *)
Fixpoint init_loop (fuel : nat) (i ptr mask : Z) (r : R) : R :=
  match fuel with
  | O => r
  | S fuel =>
      init_loop fuel (i + 1) (ptr + buf_entry_size) mask
        (br_add (mkDesc ptr buf_entry_size (u16 i)) mask (i32 i) r)
  end.

Definition InitBufRing_size (c : RingConfig) : Z :=
  u32 ((if max_direct_descriptors c =? 0 then 1024 else max_direct_descriptors c)
       * Z.of_nat kIOGenericBufferSize).

(** [memory] is what [posix_memalign] gives, [None] for an error. *)
Definition InitBufRing (c : RingConfig) (page_size : Z) (memory : option Z)
    : Outcome (Buffers R) :=
  let buf_size := InitBufRing_size c in
  _ ← cassert (buf_size mod buf_entry_size =? 0);
  let entries := u32 (buf_size / buf_entry_size) in
  _ ← cassert (entries <=? Z.shiftl 1 15);
  if page_size <? 0 then Fault LogFatal
  else
    match memory with
    | None => Fault LogFatal
    | Some addr =>
        match br_setup entries with
        | None => Fault LogFatal
        | Some r =>
            let r := init_loop (Z.to_nat entries) 0 addr (i32 entries - 1) r in
            Ok (mkBuffers addr (replicate (Z.to_nat buf_size) NUL) entries
                  (br_advance (i32 entries) r) 0 [])
        end
    end.

(** [memcpy] out of the block. *)
Definition copy_out (off len : Z) B : Outcome bytes :=
  if (0 <=? off) && (0 <=? len) && (off + len <=? Z.of_nat (length (buf_mem B)))
  then Ok (slice (Z.to_nat off) (Z.to_nat len) (buf_mem B)) else Fault OutOfRange.

Definition num_entries (length : Z) : Z :=
  length / buf_entry_size + (if length mod buf_entry_size =? 0 then 0 else 1).

(** [new_start] is where [concat_str_] is after it is resized. *)
Definition GetBufferView (entry_id length new_start : Z) B : Outcome (BufferView * Buffers R) :=
  _ ← cassert (entry_id <? buf_entries_ B);
  if u64 (num_entries length + entry_id) <=? buf_entries_ B then
    Ok (mkView (mkSV (entry_addr (buf_start B) entry_id) (Z.to_nat length)) None, B)
  else
    _ ← cassert (bool_decide (concat_str_ B = []));
    let first_part_length := u32 (u32 (buf_entries_ B - entry_id) * buf_entry_size) in
    _ ← cassert (first_part_length <? length);
    if length <? first_part_length then Fault OutOfRange
    else
      s1 ← copy_out (u32 (entry_id * buf_entry_size)) first_part_length B;
      s2 ← copy_out 0 (length - first_part_length) B;
      Ok (mkView (mkSV new_start (Z.to_nat length)) (Some entry_id),
          set_concat new_start (s1 ++ s2) B).

(** The loop of [PutBufferView], with the number of entries added. *)
Fixpoint put_loop (fuel : nat) (remaining entry_id offset mask : Z) B (r : R) : Outcome (Z * R) :=
  if remaining =? 0 then Ok (offset, r)
  else
    match fuel with
    | O => Diverge
    | S fuel =>
        let r := br_add (mkDesc (entry_addr (buf_start B) entry_id) buf_entry_size entry_id)
                   mask offset r in
        let remaining :=
          remaining - (if remaining <? buf_entry_size then remaining else buf_entry_size) in
        put_loop fuel remaining
          (u16 (Z.land (entry_id + 1) (u32 (buf_entries_ B - 1)))) (offset + 1) mask B r
    end.

Definition PutBufferView (v : BufferView) B : Outcome (Buffers R) :=
  start_entry_id ←
    match separated_entry_id v with
    | Some id => Ok id
    | None =>
        _ ← cassert (buf_start B <=? sv_data (view v));
        let offset := sv_data (view v) - buf_start B in
        _ ← cassert (Z.rem offset buf_entry_size =? 0);
        Ok (u32 offset / buf_entry_size)
    end;
  let remaining := Z.of_nat (sv_size (view v)) in
  '(offset, r) ← put_loop (Z.to_nat (num_entries remaining)) remaining (u16 start_entry_id) 0
                   (i32 (buf_entries_ B) - 1) B (buf_ring_ B);
  let B := set_ring (br_advance offset r) B in
  Ok (match separated_entry_id v with
      | Some _ => set_concat (concat_start B) [] B
      | None => B
      end).

(** The bytes a view shows. *)
Definition view_bytes B (v : BufferView) : bytes :=
  match separated_entry_id v with
  | Some _ => slice (Z.to_nat (sv_data (view v) - concat_start B)) (sv_size (view v))
                (concat_str_ B)
  | None => slice (Z.to_nat (sv_data (view v) - buf_start B)) (sv_size (view v)) (buf_mem B)
  end.

(** ** Well-formed buffers *)

Definition entry_desc B (id : Z) : BufDesc :=
  mkDesc (buf_start B + id * buf_entry_size) buf_entry_size id.

Record buffers_ok B : Prop := {
  bo_entries : ∃ k, 0 ≤ k ≤ 15 ∧ buf_entries_ B = 2 ^ k;
  bo_mem : Z.of_nat (length (buf_mem B)) = buf_entries_ B * buf_entry_size;
  bo_size : br_size (buf_ring_ B) = buf_entries_ B }.

(** [n] entries from [id] on, around the ring. *)
Definition wrap_ids (entries id n : Z) : list Z :=
  (λ i, (id + i) mod entries) <$> seqZ 0 n.

Lemma wrap_ids_length entries id n : length (wrap_ids entries id n) = Z.to_nat n.
Proof. unfold wrap_ids. by rewrite length_fmap, length_seqZ. Qed.

Lemma wrap_ids_cons entries id n :
  0 < n → wrap_ids entries id n = id mod entries :: wrap_ids entries (id + 1) (n - 1).
Proof.
  intros. unfold wrap_ids. rewrite seqZ_cons by lia. simpl. rewrite Z.add_0_r. f_equal.
  replace (Z.pred n) with (n - 1) by lia. replace (Z.succ 0) with (1 + 0) by lia.
  rewrite <- fmap_add_seqZ, <- list_fmap_compose.
  apply list_fmap_ext. intros i x _. simpl. f_equal. lia.
Qed.

Lemma wrap_ids_mod entries id n : wrap_ids entries (id mod entries) n = wrap_ids entries id n.
Proof. apply list_fmap_ext. intros i x _. by rewrite Zplus_mod_idemp_l. Qed.

Lemma entries_bound B : buffers_ok B → 0 < buf_entries_ B ≤ 2 ^ 15.
Proof.
  intros [(k & Hk & ->) _ _]. split; [apply Z.pow_pos_nonneg; lia|].
  apply Z.pow_le_mono_r; lia.
Qed.

Lemma entry_addr_desc B id :
  buffers_ok B → 0 ≤ id < buf_entries_ B →
  mkDesc (entry_addr (buf_start B) id) buf_entry_size id = entry_desc B id.
Proof.
  intros HB Hid. pose proof (entries_bound B HB). unfold entry_addr, entry_desc.
  by rewrite u32_small by (unfold buf_entry_size; lia).
Qed.

(** The mask of a power of two is the remainder. *)
Lemma land_entries B x :
  buffers_ok B → u16 (Z.land x (u32 (buf_entries_ B - 1))) = x mod buf_entries_ B.
Proof.
  intros HB. pose proof (entries_bound B HB). destruct (bo_entries B HB) as (k & Hk & E).
  rewrite u32_small by lia. replace (buf_entries_ B - 1) with (Z.ones k) by (rewrite E, Z.ones_equiv; lia).
  rewrite Z.land_ones, <- E by lia.
  unfold u16. apply Z.mod_small. pose proof (Z.mod_pos_bound x (buf_entries_ B)). lia.
Qed.

Lemma num_entries_bounds len :
  0 ≤ len → (num_entries len - 1) * buf_entry_size < len ≤ num_entries len * buf_entry_size
            ∨ len = 0 ∧ num_entries len = 0.
Proof.
  intros. unfold num_entries. change buf_entry_size with 4096. pose proof (Z.div_mod len 4096).
  pose proof (Z.mod_pos_bound len 4096). destruct (Z.eqb_spec (len mod 4096) 0); lia.
Qed.

Lemma num_entries_step len :
  0 < len →
  num_entries (len - (if len <? buf_entry_size then len else buf_entry_size))
  = num_entries len - 1.
Proof.
  intros. pose proof (num_entries_bounds len ltac:(lia)).
  destruct (Z.ltb_spec len buf_entry_size);
    [replace (len - len) with 0 by lia; pose proof (num_entries_bounds 0 ltac:(lia))
    |pose proof (num_entries_bounds (len - buf_entry_size) ltac:(lia))];
    change buf_entry_size with 4096 in *; nia.
Qed.

(** The loop of [PutBufferView] adds the entries the bytes lie in. *)
Lemma put_loop_adds B n len id offset mask r :
  buffers_ok B → n = num_entries len → 0 ≤ len → 0 ≤ id < buf_entries_ B →
  put_loop (Z.to_nat n) len id offset mask B r
  = Ok (offset + n,
        br_adds (entry_desc B <$> wrap_ids (buf_entries_ B) id n) mask offset r).
Proof.
  intros HB -> Hlen. remember (Z.to_nat (num_entries len)) as fuel eqn:Hf.
  revert len id offset r Hf Hlen.
  induction fuel as [|fuel IH]; intros len id offset r Hf Hlen Hid; simpl;
    pose proof (num_entries_bounds len Hlen) as Hn; change buf_entry_size with 4096 in Hn.
  - destruct (Z.eqb_spec len 0) as [->|]; [|lia]. change (num_entries 0) with 0.
    by rewrite Z.add_0_r.
  - destruct (Z.eqb_spec len 0) as [->|Hne]; [lia|].
    rewrite entry_addr_desc, land_entries by done.
    pose proof (num_entries_step len ltac:(lia)) as Hs.
    pose proof (entries_bound B HB). rewrite IH; first last.
    + apply Z.mod_pos_bound. lia.
    + bcase; lia.
    + rewrite Hs. lia.
    + rewrite Hs, wrap_ids_mod. rewrite (wrap_ids_cons _ id) by lia.
      rewrite (Z.mod_small id) by lia. simpl. do 2 f_equal. lia.
Qed.

Context `{!BufRingLaws R}.

(** Handing back entries extends what the kernel may select. *)
Lemma provide_spec B ds :
  buffers_ok B → Z.of_nat (length (provided (buf_ring_ B)) + length ds) ≤ buf_entries_ B →
  let r := br_advance (Z.of_nat (length ds))
             (br_adds ds (i32 (buf_entries_ B) - 1) 0 (buf_ring_ B)) in
  provided r = provided (buf_ring_ B) ++ ds ∧ br_size r = buf_entries_ B.
Proof.
  intros HB Hle. pose proof (entries_bound B HB). rewrite i32_small by lia.
  rewrite <- (bo_size B HB) in Hle |- *. by apply br_provide.
Qed.

(** The bytes from entry [id] on, around the ring. *)
Definition ring_bytes B (id len : Z) : bytes :=
  take (Z.to_nat len) (rotate (Z.to_nat (id * buf_entry_size)) (buf_mem B)).

Definition view_of B (id len new_start : Z) : BufferView :=
  if num_entries len + id <=? buf_entries_ B
  then mkView (mkSV (buf_start B + id * buf_entry_size) (Z.to_nat len)) None
  else mkView (mkSV new_start (Z.to_nat len)) (Some id).

Definition after_get B (id len new_start : Z) : Buffers R :=
  if num_entries len + id <=? buf_entries_ B then B
  else set_concat new_start (ring_bytes B id len) B.

Lemma rotate_split B (n : nat) :
  (n < length (buf_mem B))%nat →
  rotate n (buf_mem B) = drop n (buf_mem B) ++ take n (buf_mem B).
Proof. intros. unfold rotate. by rewrite Nat.mod_small. Qed.

Lemma GetBufferView_spec B id len new_start :
  buffers_ok B → 0 ≤ id < buf_entries_ B → 0 < len ≤ buf_entries_ B * buf_entry_size →
  (buf_entries_ B < num_entries len + id → concat_str_ B = []) →
  GetBufferView id len new_start B = Ok (view_of B id len new_start, after_get B id len new_start).
Proof.
  intros HB Hid Hlen Hc. pose proof (entries_bound B HB). pose proof (bo_mem B HB) as Hm.
  pose proof (num_entries_bounds len ltac:(lia)). change buf_entry_size with 4096 in *.
  unfold GetBufferView, view_of, after_get. pass_assert ltac:(apply Zltb_t; lia).
  rewrite u64_small by lia. destruct (Z.leb_spec (num_entries len + id) (buf_entries_ B)).
  { unfold entry_addr. change buf_entry_size with 4096. by rewrite u32_small by lia. }
  pass_assert ltac:(apply bool_decide_eq_true; auto).
  change buf_entry_size with 4096. rewrite (u32_small (buf_entries_ B - id)) by lia.
  rewrite !u32_small by lia. pass_assert ltac:(apply Zltb_t; lia).
  rewrite Zltb_f by lia. unfold copy_out. rewrite !Zleb_t by lia. cbn.
  do 3 f_equal. unfold ring_bytes, slice. change buf_entry_size with 4096.
  rewrite rotate_split by lia. rewrite take_app, length_drop, drop_0, take_take.
  rewrite !(take_ge (drop _ _)) by (rewrite length_drop; lia).
  do 2 f_equal. lia.
Qed.

Lemma view_bytes_get B id len new_start :
  buffers_ok B → 0 ≤ id < buf_entries_ B → 0 < len ≤ buf_entries_ B * buf_entry_size →
  view_bytes (after_get B id len new_start) (view_of B id len new_start) = ring_bytes B id len.
Proof.
  intros HB Hid Hlen. pose proof (bo_mem B HB) as Hm. pose proof (entries_bound B HB).
  pose proof (num_entries_bounds len ltac:(lia)). change buf_entry_size with 4096 in *.
  unfold view_bytes, view_of, after_get, ring_bytes, slice. change buf_entry_size with 4096.
  rewrite rotate_split by lia. bcase; simpl.
  - replace (buf_start B + id * 4096 - buf_start B) with (id * 4096) by lia.
    rewrite take_app_le by (rewrite length_drop; lia). done.
  - by rewrite Z.sub_diag, drop_0, take_take, Nat.min_id.
Qed.

(** [PutBufferView] of a view hands back the entries it lies in. *)
Lemma PutBufferView_spec B id len new_start :
  buffers_ok B → 0 ≤ id < buf_entries_ B → 0 < len →
  Z.of_nat (length (provided (buf_ring_ B))) + num_entries len ≤ buf_entries_ B →
  ∃ r, PutBufferView (view_of B id len new_start) B
       = Ok (set_ring r (if num_entries len + id <=? buf_entries_ B then B
                         else set_concat (concat_start B) [] B)) ∧
       provided r = provided (buf_ring_ B)
                    ++ (entry_desc B <$> wrap_ids (buf_entries_ B) id (num_entries len)) ∧
       br_size r = buf_entries_ B.
Proof.
  intros HB Hid Hlen Hfit. pose proof (entries_bound B HB).
  pose proof (num_entries_bounds len ltac:(lia)) as Hb. change buf_entry_size with 4096 in *.
  set (ds := entry_desc B <$> wrap_ids (buf_entries_ B) id (num_entries len)).
  assert (Z.of_nat (length ds) = num_entries len) as Hds
    by (unfold ds; rewrite length_fmap, wrap_ids_length; lia).
  destruct (provide_spec B ds HB ltac:(lia)) as [Hp Hs].
  assert (put_loop (Z.to_nat (num_entries len)) len (u16 id) 0 (i32 (buf_entries_ B) - 1) B
            (buf_ring_ B)
          = Ok (Z.of_nat (length ds), br_adds ds (i32 (buf_entries_ B) - 1) 0 (buf_ring_ B)))
    as Hloop.
  { unfold u16. rewrite (Z.mod_small id) by lia. rewrite put_loop_adds by (done || lia).
    by rewrite Hds. }
  eexists; split; [|by split; [exact Hp|exact Hs]].
  unfold PutBufferView, view_of. destruct (Z.leb_spec (num_entries len + id) (buf_entries_ B)); simpl.
  - replace (buf_start B + id * buf_entry_size - buf_start B) with (id * buf_entry_size) by lia.
    do 2 (pass_assert ltac:(first [by apply Zeqb_t, Z.rem_mul 
      | apply Zleb_t; change buf_entry_size with 4096; lia]); simpl).
    rewrite u32_small by (change buf_entry_size with 4096; lia).
    rewrite Z.div_mul, Z2Nat.id, Hloop by (done || lia). done.
  - rewrite Z2Nat.id, Hloop by lia. done.
Qed.

(** A receive of [len] bytes that starts at entry [id] is shown exactly as
    the bytes lie in the entries, around the end of the block if need be
    (copied together in that case), and handing the view back gives the kernel
    exactly the entries it was made of, each once, in order and with its own
    address, and nothing else changes. *)
Theorem buffer_view_round_trip B id len new_start :
  buffers_ok B → 0 ≤ id < buf_entries_ B → 0 < len ≤ buf_entries_ B * buf_entry_size →
  (buf_entries_ B < num_entries len + id → concat_str_ B = []) →
  Z.of_nat (length (provided (buf_ring_ B))) + num_entries len ≤ buf_entries_ B →
  ∃ v B1 B2,
    GetBufferView id len new_start B = Ok (v, B1) ∧ view_bytes B1 v = ring_bytes B id len ∧
    PutBufferView v B1 = Ok B2 ∧ buffers_ok B2 ∧
    provided (buf_ring_ B2) = provided (buf_ring_ B)
      ++ (entry_desc B <$> wrap_ids (buf_entries_ B) id (num_entries len)) ∧
    buf_start B2 = buf_start B ∧ buf_mem B2 = buf_mem B ∧
    buf_entries_ B2 = buf_entries_ B ∧ concat_str_ B2 = concat_str_ B.
Proof.
  intros HB Hid Hlen Hc Hfit.
  pose proof (GetBufferView_spec B id len new_start HB Hid Hlen Hc) as Hget.
  pose proof (view_bytes_get B id len new_start HB Hid Hlen) as Hbytes.
  set (B1 := after_get B id len new_start) in *.
  assert (B1 = mkBuffers (buf_start B) (buf_mem B) (buf_entries_ B) (buf_ring_ B)
                 (concat_start B1) (concat_str_ B1)) as HB1
    by (destruct B; unfold B1, after_get; by destruct (_ <=? _)).
  assert (buffers_ok B1) as Hok by (rewrite HB1; destruct HB; by split).
  destruct (PutBufferView_spec B1 id len new_start) as (r & Hput & Hp & Hs);
    [done|by rewrite HB1|lia|by rewrite HB1|].
  assert (view_of B1 id len new_start = view_of B id len new_start) as Hv
    by (unfold view_of; by rewrite HB1).
  rewrite Hv in Hput. eexists _, _, _. split_and!; [exact Hget|exact Hbytes|exact Hput|..].
  all: rewrite HB1 in *; simpl in *; destruct (_ <=? _) eqn:E; simpl; try done.
  all: try by destruct HB; split.
  - unfold B1, after_get. by rewrite E.
  - symmetry. by apply Hc, Z.leb_gt.
Qed.

(** ** The life of the buffers

    The kernel completes a receive: it takes the first provided buffer and
    writes at most its length; [None] when there is no buffer (ENOBUFS). *)
Definition write_mem (off : Z) (s : bytes) B : Buffers R :=
  mkBuffers (buf_start B)
    (take (Z.to_nat off) (buf_mem B) ++ s ++ drop (Z.to_nat off + length s) (buf_mem B))
    (buf_entries_ B) (buf_ring_ B) (concat_start B) (concat_str_ B).

Definition kernel_recv (chunk : bytes) B : option (Z * Buffers R) :=
  '(d, r) ← br_take (buf_ring_ B);
  if Z.of_nat (length chunk) <=? bd_len d
  then Some (bd_id d, write_mem (bd_addr d - buf_start B) chunk (set_ring r B)) else None.

(** Receives and returned views in any order; a view is kept with the bytes it
    showed when it was made. *)
Inductive ring_op := RecvChunk (chunk : bytes) | PutView (i : nat).

Definition ring_step (o : ring_op) (st : Buffers R * list (BufferView * bytes))
    : Outcome (Buffers R * list (BufferView * bytes)) :=
  let '(B, held) := st in
  match o with
  | RecvChunk chunk =>
      match kernel_recv chunk B with
      | None => Ok (B, held)
      | Some (id, B) =>
          '(v, B) ← GetBufferView id (Z.of_nat (length chunk)) 0 B;
          Ok (B, held ++ [(v, chunk)])
      end
  | PutView i =>
      match held !! i with
      | None => Ok (B, held)
      | Some (v, _) => B ← PutBufferView v B; Ok (B, delete i held)
      end
  end.

Fixpoint ring_run (os : list ring_op) st : Outcome (Buffers R * list (BufferView * bytes)) :=
  match os with [] => Ok st | o :: os => st ← ring_step o st; ring_run os st end.

(** The entry a view of one entry lies in. *)
Definition view_entry B (v : BufferView) : Z := (sv_data (view v) - buf_start B) / buf_entry_size.

Definition held_ok B (p : BufferView * bytes) : Prop :=
  ∃ id, 0 ≤ id < buf_entries_ B ∧ 0 < Z.of_nat (length p.2) ≤ buf_entry_size ∧
    p.1 = mkView (mkSV (buf_start B + id * buf_entry_size) (length p.2)) None ∧
    slice (Z.to_nat (id * buf_entry_size)) (length p.2) (buf_mem B) = p.2.

Record ring_inv (st : Buffers R * list (BufferView * bytes)) : Prop := {
  ri_ok : buffers_ok st.1;
  ri_free : ∃ free, provided (buf_ring_ st.1) = entry_desc st.1 <$> free ∧
              free ++ (view_entry st.1 <$> st.2.*1) ≡ₚ seqZ 0 (buf_entries_ st.1);
  ri_held : Forall (held_ok st.1) st.2 }.

Lemma num_entries_one len : 0 < len ≤ buf_entry_size → num_entries len = 1.
Proof.
  intros. pose proof (num_entries_bounds len ltac:(lia)).
  change buf_entry_size with 4096 in *. nia.
Qed.

Lemma view_entry_of B id n sep :
  view_entry B (mkView (mkSV (buf_start B + id * buf_entry_size) n) sep) = id.
Proof.
  unfold view_entry. simpl. replace (_ - _) with (id * buf_entry_size) by lia.
  by rewrite Z.div_mul.
Qed.

(** Writing into one entry leaves the others as they were. *)
Lemma slice_write_other off (s m : bytes) o n :
  (off + length s ≤ length m)%nat → (o + n ≤ off)%nat ∨ (off + length s ≤ o)%nat →
  slice o n (take off m ++ s ++ drop (off + length s) m) = slice o n m.
Proof.
  intros Hm Hd. apply list_eq. intros i. unfold slice.
  destruct (decide (i < n)%nat); [|by rewrite !lookup_take_ge by lia].
  rewrite !lookup_take_lt, !lookup_drop by done.
  destruct Hd.
  - rewrite lookup_app_l by (rewrite length_take; lia). by rewrite lookup_take_lt by lia.
  - rewrite lookup_app_r by (rewrite length_take; lia).
    rewrite lookup_app_r by (rewrite length_take; lia).
    rewrite lookup_drop, length_take. f_equal. lia.
Qed.

Lemma slice_write_same off (s m : bytes) :
  (off + length s ≤ length m)%nat →
  slice off (length s) (take off m ++ s ++ drop (off + length s) m) = s.
Proof.
  intros. unfold slice. rewrite drop_app_length' by (rewrite length_take; lia).
  by rewrite take_app_length.
Qed.

Lemma held_not_free B (held : list (BufferView * bytes)) free p :
  p ∈ held → free ++ (view_entry B <$> held.*1) ≡ₚ seqZ 0 (buf_entries_ B) →
  view_entry B p.1 ∉ free.
Proof.
  intros Hp Hperm Hin. pose proof (NoDup_seqZ 0 (buf_entries_ B)) as Hnd.
  rewrite <- Hperm in Hnd. apply NoDup_app in Hnd as (_ & Hd & _). apply (Hd _ Hin).
  apply list_elem_of_fmap_2, list_elem_of_fmap_2; done.
Qed.

Lemma held_ok_write B r id chunk p :
  buffers_ok B → 0 ≤ id < buf_entries_ B → Z.of_nat (length chunk) ≤ buf_entry_size →
  held_ok B p → view_entry B p.1 ≠ id →
  held_ok (write_mem (id * buf_entry_size) chunk (set_ring r B)) p.
Proof.
  intros HB Hid Hc (j & Hj & Hl & Hv & Hs) Hne. pose proof (bo_mem B HB) as Hm.
  rewrite Hv, view_entry_of in Hne. exists j. do 3 (split; [done|]). simpl.
  rewrite slice_write_other; [done| |]; change buf_entry_size with 4096 in *; lia.
Qed.

Lemma ring_step_recv B held chunk :
  ring_inv (B, held) → chunk ≠ [] →
  ∃ st, ring_step (RecvChunk chunk) (B, held) = Ok st ∧ ring_inv st ∧
        buf_start st.1 = buf_start B ∧ buf_entries_ st.1 = buf_entries_ B.
Proof.
  intros Hinv Hch. destruct (Hinv) as [HB (free & Hfree & Hperm) Hheld]. simpl in *.
  unfold kernel_recv. destruct free as [|id free].
  { rewrite br_take_none by done. simpl. by exists (B, held). }
  destruct (br_take_head _ _ _ Hfree) as (r & Htake & Hr & Hsz).
  rewrite Htake. simpl. change (bd_len (entry_desc B id)) with buf_entry_size.
  destruct (Z.leb_spec (Z.of_nat (length chunk)) buf_entry_size) as [Hle|]; [|by exists (B, held)].
  replace (buf_start B + id * buf_entry_size - buf_start B) with (id * buf_entry_size) by lia.
  set (B1 := write_mem (id * buf_entry_size) chunk (set_ring r B)).
  assert (0 ≤ id < buf_entries_ B) as Hid.
  { assert (id ∈ seqZ 0 (buf_entries_ B)) as Hin by (rewrite <- Hperm; left).
    apply elem_of_seqZ in Hin. lia. }
  assert (0 < Z.of_nat (length chunk)) by (destruct chunk; simpl; [done|lia]).
  pose proof (bo_mem B HB) as Hm. pose proof (entries_bound B HB).
  assert (length (buf_mem B1) = length (buf_mem B)) as Hlen.
  { simpl. rewrite !length_app, length_take, length_drop.
    change buf_entry_size with 4096 in *. lia. }
  assert (buffers_ok B1) as HB1.
  { destruct HB. split; [done|by rewrite Hlen|simpl; congruence]. }
  pose proof (num_entries_one (Z.of_nat (length chunk)) ltac:(lia)) as Hone.
  rewrite GetBufferView_spec; [|done|done|change buf_entry_size with 4096 in *; simpl; lia|
    rewrite Hone; simpl; lia].
  simpl. unfold view_of, after_get. rewrite Hone, Zleb_t by (simpl; lia). rewrite Nat2Z.id.
  eexists; split_and!; [done| |done|done]. split; simpl; [done| |].
  - exists free. split; [done|]. rewrite !fmap_app. simpl.
    change (buf_start B1) with (buf_start B). change (view_entry B1) with (view_entry B).
    rewrite <- Hperm. rewrite (Permutation_app_comm (_ <$> _)), app_assoc. simpl.
    rewrite view_entry_of. by rewrite <- Permutation_middle, app_nil_r.
  - apply Forall_app; split.
    + rewrite Forall_forall in Hheld |- *. intros p Hp. apply held_ok_write; auto.
      intros He. apply (held_not_free B held _ p Hp Hperm). rewrite He. left.
    + apply Forall_singleton. exists id. do 3 (split; [done|]). simpl.
      apply slice_write_same. change buf_entry_size with 4096 in *. lia.
Qed.

Lemma ring_step_put B held i :
  ring_inv (B, held) →
  ∃ st, ring_step (PutView i) (B, held) = Ok st ∧ ring_inv st ∧
        buf_start st.1 = buf_start B ∧ buf_entries_ st.1 = buf_entries_ B.
Proof.
  intros Hinv. destruct (Hinv) as [HB (free & Hfree & Hperm) Hheld]. simpl in *.
  destruct (held !! i) as [[v s]|] eqn:Hi; [|by exists (B, held)].
  pose proof (delete_Permutation _ _ _ Hi) as Hdel.
  pose proof (Hheld) as Hheld'. rewrite Hdel in Hheld'.
  apply Forall_cons in Hheld' as [(id & Hid & Hl & Hv & Hs) Hrest]. simpl in *.
  pose proof (num_entries_one (Z.of_nat (length s)) ltac:(lia)) as Hone.
  assert (v = view_of B id (Z.of_nat (length s)) 0) as Hview.
  { unfold view_of. rewrite Hone, Zleb_t by lia. by rewrite Nat2Z.id. }
  assert (length free + length held = Z.to_nat (buf_entries_ B))%nat as Hcount.
  { pose proof (Permutation_length Hperm) as E.
    by rewrite length_app, !length_fmap, length_seqZ in E. }
  assert (0 < length held)%nat by (rewrite Hdel; simpl; lia).
  destruct (PutBufferView_spec B id (Z.of_nat (length s)) 0) as (r & Hput & Hp & Hsz);
    [done|done|lia|rewrite Hfree, length_fmap, Hone; lia|].
  rewrite Hone, Zleb_t in Hput by lia. rewrite <- Hview in Hput. rewrite Hput. simpl.
  eexists; split_and!; [done| |done|done]. split; simpl.
  - destruct HB. by split.
  - exists (free ++ [id]). split.
    + rewrite Hp, Hfree, Hone, wrap_ids_cons, fmap_app by lia.
      rewrite Z.mod_small by lia. done.
    + rewrite <- Hperm. rewrite (Permutation_app_comm free), <- (app_assoc [id]). simpl.
      rewrite Hdel at 2. simpl. rewrite Hv.
      change (view_entry (set_ring r B)) with (view_entry B). rewrite view_entry_of.
      by rewrite Permutation_middle.
  - by apply Hrest.
Qed.

(** The invariant is kept by every sequence of receives of data and returned
    views. *)
Definition op_data (o : ring_op) : Prop :=
  match o with RecvChunk chunk => chunk ≠ [] | PutView _ => True end.

Lemma ring_run_inv os st :
  ring_inv st → Forall op_data os →
  ∃ st', ring_run os st = Ok st' ∧ ring_inv st' ∧ buf_entries_ st'.1 = buf_entries_ st.1.
Proof.
  revert st. induction os as [|o os IH]; intros [B held] Hinv Hos; [by eexists|].
  apply Forall_cons in Hos as [Ho Hos].
  assert (∃ st, ring_step o (B, held) = Ok st ∧ ring_inv st ∧
                buf_start st.1 = buf_start B ∧ buf_entries_ st.1 = buf_entries_ B)
    as (st & Hst & Hinv' & _ & He)
    by (destruct o; [by apply ring_step_recv | by apply ring_step_put]).
  destruct (IH st Hinv' Hos) as (st' & Hrun & ? & He'). exists st'.
  change (ring_run (o :: os) (B, held)) with (ring_step o (B, held) ≫= ring_run os).
  rewrite Hst. split_and!; [done|done|simpl; congruence].
Qed.

(** The loop of [InitBufRing] adds every entry. *)
Lemma init_loop_adds fuel i start mask r :
  0 ≤ i → i + Z.of_nat fuel ≤ 2 ^ 15 →
  init_loop fuel i (start + i * buf_entry_size) mask r
  = br_adds ((λ j, mkDesc (start + j * buf_entry_size) buf_entry_size j)
               <$> seqZ i (Z.of_nat fuel)) mask i r.
Proof.
  revert i r. induction fuel as [|fuel IH]; intros i r Hi Hle; [done|].
  rewrite seqZ_cons by lia. replace (Z.pred (Z.of_nat (S fuel))) with (Z.of_nat fuel) by lia.
  simpl. unfold u16. rewrite Z.mod_small, i32_small by lia.
  replace (start + i * buf_entry_size + buf_entry_size)
    with (start + (i + 1) * buf_entry_size) by lia.
  rewrite IH by lia.
  by replace (Z.succ i) with (i + 1) by lia.
Qed.

Lemma InitBufRing_size_entries c :
  InitBufRing_size c = u32 (InitBufRing_size c / buf_entry_size) * buf_entry_size.
Proof.
  assert (InitBufRing_size c mod buf_entry_size = 0) as Hm.
  { unfold InitBufRing_size, u32. change (2 ^ 32) with (4096 * 1048576).
    change buf_entry_size with 4096. rewrite Z.mod_mod_divide by by exists 1048576.
    change (Z.of_nat kIOGenericBufferSize) with (4 * 4096).
    rewrite Z.mul_assoc. apply Z_mod_mult. }
  assert (0 ≤ InitBufRing_size c < 2 ^ 32) by (apply Z.mod_pos_bound; lia).
  rewrite u32_small.
  - rewrite Z.mul_comm. by apply Z_div_exact_full_2.
  - split; [apply Z.div_pos; [lia|done]|]. apply Z.div_lt_upper_bound; [done|].
    change buf_entry_size with 4096. lia.
Qed.

Lemma InitBufRing_inv c page memory B :
  InitBufRing c page memory = Ok B → ring_inv (B, []).
Proof.
  unfold InitBufRing. intros (_ & _ & H1)%bind_Ok_inv.
  apply bind_Ok_inv in H1 as (_ & _ & H1). destruct (page <? 0); [done|].
  destruct memory as [addr|]; [|done].
  set (entries := u32 (InitBufRing_size c / buf_entry_size)) in *.
  destruct (br_setup entries) as [r|] eqn:Hset; [|done].
  destruct (br_setup_ok _ _ Hset) as (Hp & Hs & k & Hk & He).
  assert (0 < entries ≤ 2 ^ 15) as Hb.
  { rewrite He. split; [apply Z.pow_pos_nonneg; lia|apply Z.pow_le_mono_r; lia]. }
  pose proof (InitBufRing_size_entries c) as Hsize. fold entries in Hsize.
  injection H1 as <-.
  set (ds := (λ j, mkDesc (addr + j * buf_entry_size) buf_entry_size j) <$> seqZ 0 entries).
  assert (init_loop (Z.to_nat entries) 0 addr (i32 entries - 1) r
          = br_adds ds (br_size r - 1) 0 r) as ->.
  { replace addr with (addr + 0 * buf_entry_size) at 1 by lia.
    rewrite init_loop_adds, Z2Nat.id by lia. by rewrite Hs, i32_small by lia. }
  assert (Z.of_nat (length ds) = entries) as Hds
    by (unfold ds; rewrite length_fmap, length_seqZ; lia).
  destruct (br_provide ds r) as [Hprov Hsz]; [rewrite Hp, Hs; simpl; lia|].
  rewrite Hds in *. rewrite i32_small by lia. split; simpl; [split; simpl|..].
  - eauto.
  - rewrite length_replicate, Hsize. change buf_entry_size with 4096. lia.
  - congruence.
  - exists (seqZ 0 entries). rewrite Hprov, Hp, app_nil_r. done.
  - done.
Qed.

Lemma held_view_bytes B p : held_ok B p → view_bytes B p.1 = p.2.
Proof.
  intros (id & _ & _ & Hv & Hs). rewrite Hv. unfold view_bytes. simpl.
  by replace (buf_start B + id * buf_entry_size - buf_start B) with (id * buf_entry_size) by lia.
Qed.

Lemma ring_inv_perm B held held' : held ≡ₚ held' → ring_inv (B, held) → ring_inv (B, held').
Proof.
  intros E [HB (free & Hf & Hp) Hh]. split; [done| |by rewrite <- E].
  exists free. simpl in *. by rewrite <- E.
Qed.

(** Handing a view back leaves the memory alone. *)
Lemma PutBufferView_mem v B B' :
  PutBufferView v B = Ok B' → buf_start B' = buf_start B ∧ buf_mem B' = buf_mem B.
Proof.
  unfold PutBufferView. intros (id & _ & ([n r] & _ & [= <-])%bind_Ok_inv)%bind_Ok_inv.
  by destruct (separated_entry_id v).
Qed.

(** C17: The ring never loses or shares a buffer: after a successful
    [InitBufRing], whatever the order in which receives complete and views are
    handed back, no call faults, every view not handed back still shows the
    bytes it was made for, and the entries the kernel may select together with
    those of the views still held are all the entries, each exactly once. *)
Theorem ring_buffers_conserved c page memory B0 os :
  InitBufRing c page memory = Ok B0 → Forall op_data os →
  ∃ B held, ring_run os (B0, []) = Ok (B, held) ∧
    (∀ v s, (v, s) ∈ held → view_bytes B v = s) ∧
    (bd_id <$> provided (buf_ring_ B)) ++ (view_entry B <$> held.*1)
      ≡ₚ seqZ 0 (buf_entries_ B0).
Proof.
  intros HB0%InitBufRing_inv Hos.
  destruct (ring_run_inv os _ HB0 Hos) as ([B held] & Hrun & [HB (free & Hf & Hp) Hh] & He).
  simpl in *. exists B, held. split_and!; [done| |].
  - intros v s Hin. rewrite Forall_forall in Hh. exact (held_view_bytes B (v, s) (Hh _ Hin)).
  - rewrite Hf, <- list_fmap_compose, <- He. simpl.
    rewrite (list_fmap_ext (bd_id ∘ entry_desc B) id free) by done. by rewrite list_fmap_id.
Qed.
End buffers.

(** ** An instance of liburing's buffer rings

    The provided buffers as a queue, and the additions not yet published by
    their offsets. *)
Record queue_ring := mkQueueRing {
  qr_published : list BufDesc;
  qr_pending : gmap Z BufDesc;
  qr_entries : Z }.

Definition queue_setup (n : Z) : option queue_ring :=
  if (1 <=? n) && (Z.log2 n <=? 15) && (n =? 2 ^ Z.log2 n)
  then Some (mkQueueRing [] ∅ n) else None.

#[global] Instance queue_ring_ops : BufRing queue_ring := {|
  br_setup := queue_setup;
  br_add d mask offset r :=
    mkQueueRing (qr_published r) (<[offset:=d]> (qr_pending r)) (qr_entries r);
  br_advance n r :=
    mkQueueRing (qr_published r ++ omap (λ i, qr_pending r !! i) (seqZ 0 n)) ∅ (qr_entries r);
  br_take r :=
    match qr_published r with
    | [] => None
    | d :: ds => Some (d, mkQueueRing ds (qr_pending r) (qr_entries r))
    end;
  br_size := qr_entries;
  provided := qr_published |}.

Lemma queue_adds ds mask off r :
  let r' := br_adds ds mask off r in
  qr_published r' = qr_published r ∧ qr_entries r' = qr_entries r ∧
  (∀ j, j < off → qr_pending r' !! j = qr_pending r !! j) ∧
  omap (λ i, qr_pending r' !! i) (seqZ off (Z.of_nat (length ds))) = ds.
Proof.
  revert off r. induction ds as [|d ds IH]; intros off r; [done|].
  destruct (IH (off + 1) (br_add d mask off r)) as (H1 & H2 & H3 & H4).
  split_and!; [done|done| |].
  - intros j Hj. cbn -[br_add]. rewrite H3 by lia. simpl. by rewrite lookup_insert_ne by lia.
  - rewrite seqZ_cons by (simpl; lia).
    replace (Z.pred (Z.of_nat (length (d :: ds)))) with (Z.of_nat (length ds)) by (simpl; lia).
    replace (Z.succ off) with (off + 1) by lia. cbn -[br_add seqZ]. rewrite H3 by lia. simpl.
    rewrite lookup_insert_eq. by f_equal.
Qed.

#[global] Instance queue_ring_laws : BufRingLaws queue_ring.
Proof.
  split.
  - intros n r Hs. unfold br_setup in Hs. simpl in Hs. unfold queue_setup in Hs.
    destruct (_ && _) eqn:E; [|done]. injection Hs as <-.
    apply andb_prop in E as [[E1 E2]%andb_prop E3]. split_and!; [done|done|].
    exists (Z.log2 n). pose proof (Z.log2_nonneg n). lia.
  - intros ds r _. destruct (queue_adds ds (br_size r - 1) 0 r) as (H1 & H2 & _ & H4).
    simpl in *. by rewrite H1, H2, H4.
  - intros d ds r Hp. simpl in *. rewrite Hp. by eexists.
  - intros r Hp. simpl in *. by rewrite Hp.
Qed.

(** ** Witnesses *)

(** One descriptor: four entries. *)
Definition small_ring : RingConfig := mkRingConfig 4096 65536 false 32 1 1 true.
Definition small_buffers : Outcome (Buffers queue_ring) :=
  @InitBufRing _ _ false small_ring 4096 (Some 1000).
Definition sample_chunk (n : nat) : bytes := replicate n "x"%char.

Lemma ring_buffers_conserved_witness :
  ∃ B0, small_buffers = Ok B0 ∧
    ∃ B held,
      @ring_run _ _ false [RecvChunk (sample_chunk 10); RecvChunk (sample_chunk 4096); PutView 0;
                           RecvChunk (sample_chunk 3)] (B0, []) = Ok (B, held) ∧
      (∀ v s, (v, s) ∈ held → view_bytes B v = s) ∧
      (bd_id <$> provided (buf_ring_ B)) ++ (view_entry B <$> held.*1)
        ≡ₚ seqZ 0 (buf_entries_ B0).
Proof.
  eexists. split; [vm_compute; reflexivity|].
  eapply (@ring_buffers_conserved queue_ring _ false _ small_ring 4096 (Some 1000)).
  - vm_compute. reflexivity.
  - repeat constructor; done.
Defined.

(** A receive of 5000 bytes in the last entry and the first. *)
Definition taken_buffers : Buffers queue_ring :=
  mkBuffers 1000 (replicate (Z.to_nat 16384) "y"%char) 4 (mkQueueRing [] ∅ 4) 0 [].

Lemma taken_buffers_ok : buffers_ok taken_buffers.
Proof. split; [by exists 2|vm_compute; reflexivity|done]. Qed.

Lemma buffer_view_round_trip_witness :
  num_entries 5000 = 2 ∧ ∃ v B1 B2,
    @GetBufferView _ false 3 5000 77 taken_buffers = Ok (v, B1) ∧
    view_bytes B1 v = ring_bytes taken_buffers 3 5000 ∧
    @PutBufferView _ _ false v B1 = Ok B2 ∧ buffers_ok B2 ∧
    provided (buf_ring_ B2) = provided (buf_ring_ taken_buffers)
      ++ (entry_desc taken_buffers
            <$> wrap_ids (buf_entries_ taken_buffers) 3 (num_entries 5000)) ∧
    buf_start B2 = buf_start taken_buffers ∧ buf_mem B2 = buf_mem taken_buffers ∧
    buf_entries_ B2 = buf_entries_ taken_buffers ∧ concat_str_ B2 = concat_str_ taken_buffers.
Proof.
  split; [done|]. apply (@buffer_view_round_trip _ _ false _ taken_buffers 3 5000 77).
  - apply taken_buffers_ok.
  - simpl. lia.
  - change buf_entry_size with 4096. simpl. lia.
  - done.
  - vm_compute. discriminate.
Defined.

(** The size the server's executors use: 64 MiB in 16384 entries. *)
Lemma default_ring_entries :
  InitBufRing_size default_RingConfig / buf_entry_size = 16384 ∧
  is_Some (queue_setup (InitBufRing_size default_RingConfig / buf_entry_size)).
Proof. split; [reflexivity|by eexists]. Qed.
