(* ===== verification/Connection.v ===== *)
(** * Connections

    Model of [Connection] (src/src/io/connection.h) and of the requests it
    makes (with [RingOperation], src/src/runtime/ring_operation.h): a socket
    served by one executor, with a slot among the executor's registered files
    when one is free, receiving into the client's buffer or into the ring's.
    A request names a file by descriptor or by slot; the theorems of
    [Acceptor] show which file that is. *)

From S2P Require Import Prelude Bits Config Buffer RingExecutor BufferRing.

Record Connection := mkConnection {
  active_ : bool;
  fd_ : Z;
  executor_ : option nat;     (* not initialised before [Setup] *)
  descripor_index_ : Z;
  use_ring_buf_ : bool;
  buffer_group_ : option Z }.

Definition new_Connection (fd : Z) : Connection := mkConnection true fd None (-1) false None.

Definition UsingDirectDescriptor (c : Connection) : bool := 0 <=? descripor_index_ c.

Definition SetUseRingBuf (use : bool) (c : Connection) : Connection :=
  mkConnection (active_ c) (fd_ c) (executor_ c) (descripor_index_ c) use
    (if use then Some 0 else None).

Definition set_executor (e : nat) (c : Connection) : Connection :=
  mkConnection (active_ c) (fd_ c) (Some e) (descripor_index_ c) (use_ring_buf_ c)
    (buffer_group_ c).

Section connection.
Context {K : Type} `{!Files K} `{!BuildMode}.
Implicit Types (c : Connection) (k : K).

(** The free slots of the connection's executor are passed along. *)
Definition TryRegisterFD (slots : list Z) k c : Outcome (Connection * list Z * K) :=
  _ ← cassert (negb (UsingDirectDescriptor c));
  e ← deref (executor_ c);
  '(index, slots, k) ← RegisterFd e (fd_ c) slots k;
  Ok (mkConnection (active_ c) (fd_ c) (executor_ c) index (use_ring_buf_ c) (buffer_group_ c),
      slots, k).

Definition Setup (executor : nat) (use_ring_buffer : bool) (slots : list Z) k c
    : Outcome (Connection * list Z * K) :=
  let c := SetUseRingBuf use_ring_buffer (set_executor executor c) in
  if negb (UsingDirectDescriptor c) then TryRegisterFD slots k c else Ok (c, slots, k).

(** A failing [close] is only logged. *)
Definition Close k c : Connection * K :=
  if negb (active_ c) then (c, k)
  else (mkConnection false (fd_ c) (executor_ c) (descripor_index_ c) (use_ring_buf_ c)
          (buffer_group_ c), (fd_close (fd_ c) k).2).

(** [~Connection]. *)
Definition delete_Connection (slots : list Z) k c : Outcome (list Z * K) :=
  let '(c, k) := Close k c in
  if 0 <=? descripor_index_ c then slots ← UnregisterFd (descripor_index_ c) slots; Ok (slots, k)
  else Ok (slots, k).
End connection.

(** ** Requests

    What [Prepare] puts into a submission entry: the operation, the file, by
    descriptor or by slot (IOSQE_FIXED_FILE, set by [RingOperation::Prepare]),
    and the buffer group when the kernel is to select the buffer. *)

Inductive opcode := OpRecv (room : nat) | OpRecvSelect (group : Z) | OpSend (len : nat)
  | OpWritev (iovecs : nat).

Record Request := mkRequest { rq_op : opcode; rq_fd : Z; rq_fixed : bool }.

(** [detail::Recv], as [Connection::Recv] constructs it for a buffer. *)
Definition Recv_request `{BuildMode} (buffer : Buffer) (c : Connection) : Outcome Request :=
  let use_direct_fd := negb (descripor_index_ c =? -1) in
  let fd := if descripor_index_ c =? -1 then fd_ c else descripor_index_ c in
  match buffer_group_ c with
  | None => '(_, room) ← Sink buffer; Ok (mkRequest (OpRecv room) fd use_direct_fd)
  | Some group => Ok (mkRequest (OpRecvSelect group) fd use_direct_fd)
  end.

Definition direct_request (op : opcode) (c : Connection) : Request :=
  if 0 <=? descripor_index_ c then mkRequest op (descripor_index_ c) true
  else mkRequest op (fd_ c) false.

Definition Send_request (data : bytes) (c : Connection) : Request :=
  direct_request (OpSend (length data)) c.
Definition Writev_request (iovecs : list bytes) (c : Connection) : Request :=
  direct_request (OpWritev (length iovecs)) c.

(** The overloads without a [Buffer]: into a given span, or from the buffer
    group of the ring. *)
Definition RecvInto_request (room : nat) (c : Connection) : Request := direct_request (OpRecv room) c.
Definition BufRecv_request (buf_group_id : Z) (c : Connection) : Request :=
  direct_request (OpRecvSelect buf_group_id) c.

(** The open file a request acts on, when its ring is that of [executor]. *)
Definition target {K} `{!Files K} (k : K) (executor : nat) (r : Request) : option nat :=
  if rq_fixed r then file_at k executor (rq_fd r) else fd_file k (rq_fd r).

(** ** Results

    An error is its positive number, as [ErrnoToErrorCode] makes it. *)

(** [RingIO::await_resume]. *)
Definition io_result (result : Z) : option Z * Z :=
  if 0 <=? result then (None, result) else (Some (- result), 0).

(** [RingAccept::await_resume]: an error code and a pointer; the result 0 gives
    neither. *)
Definition Accept_resume (result : Z) : Z * option Connection :=
  if 0 <? result then (0, Some (new_Connection result)) else (- result, None).

Definition IORING_CQE_BUFFER_SHIFT : Z := 16.

(** [detail::Recv::await_resume]: with ring buffers, [flags] names the entry
    and the view is shown by the client's virtual buffer; without, the bytes
    are already in the buffer's sink. *)
Definition Recv_resume {R} `{!BuildMode} (result flags new_start : Z) (c : Connection)
    (buffer : Buffer) (B : Buffers R)
    : Outcome (option Z * option BufferView * Buffer * Buffers R) :=
  if result =? 0 then Ok (None, None, buffer, B)
  else if result <? 0 then Ok (Some (- result), None, buffer, B)
  else
    match buffer_group_ c with
    | Some _ =>
        let entry_id := Z.shiftr flags IORING_CQE_BUFFER_SHIFT in
        '(v, B) ← GetBufferView entry_id result new_start B;
        buffer ← ProduceView (mkSrc (sv_data (view v)) (view_bytes B v)) buffer;
        Ok (None, Some v, buffer, B)
    | None =>
        buffer ← Produce (Z.to_nat result) buffer;
        output ← Source buffer;
        Ok (None, Some (mkView (mkSV (src_data output) (length (src_bytes output))) None), buffer, B)
    end.

(** [BufRecv]'s [await_resume]: an empty view unless a buffer was selected. *)
Definition IORING_CQE_F_BUFFER : Z := 1.
Definition BufRecv_resume {R} `{!BuildMode} (result flags new_start : Z) (B : Buffers R)
    : Outcome (option BufferView * Buffers R) :=
  if Z.land flags IORING_CQE_F_BUFFER =? 0 then Ok (None, B)
  else
    '(v, B) ← GetBufferView (Z.shiftr flags IORING_CQE_BUFFER_SHIFT) (u64 result) new_start B;
    Ok (Some v, B).

(** [Connection::PutBufferView]. *)
Definition conn_PutBufferView {R} `{!BufRing R} `{!BuildMode} (v : BufferView) (c : Connection)
    (B : Buffers R) : Outcome (Buffers R) :=
  if use_ring_buf_ c then PutBufferView v B else Ok B.

(** The overloads make the requests [Recv] makes, and a completion shows the same
    bytes through either. *)
Lemma recv_overloads_agree `{!BuildMode} (c : Connection) (b : Buffer) :
  -1 ≤ descripor_index_ c →
  (∀ g, buffer_group_ c = Some g → Recv_request b c = Ok (BufRecv_request g c)) ∧
  (∀ p room, buffer_group_ c = None → Sink b = Ok (p, room) →
     Recv_request b c = Ok (RecvInto_request room c)).
Proof.
  intros Hd. unfold Recv_request, BufRecv_request, RecvInto_request, direct_request.
  destruct (Z.eqb_spec (descripor_index_ c) (-1)) as [E|E].
  - rewrite Zleb_f by lia. split; [by intros g ->|]. intros p room -> Hs. by step Hs.
  - rewrite Zleb_t by lia. split; [by intros g ->|]. intros p room -> Hs. by step Hs.
Qed.

Lemma buf_recv_view {R} `{!BuildMode} (result flags new_start : Z) c b (B : Buffers R) e v b' B' g :
  buffer_group_ c = Some g → 0 < result < 2 ^ 31 → Z.land flags IORING_CQE_F_BUFFER ≠ 0 →
  Recv_resume result flags new_start c b B = Ok (e, v, b', B') →
  BufRecv_resume result flags new_start B = Ok (v, B').
Proof.
  intros Hg Hr Hf. unfold Recv_resume, BufRecv_resume.
  rewrite (Zeqb_f result) by lia. rewrite (Zltb_f result) by lia. rewrite Hg.
  rewrite (Zeqb_f (Z.land _ _)) by done. rewrite u64_small by lia. cbv zeta.
  intros ([w B1] & -> & (b1 & _ & [= <- <- _ <-])%bind_Ok_inv)%bind_Ok_inv. done.
Qed.
