(* ===== verification/Acceptor.v ===== *)
(** * Accepting connections

    Model of the accept loop and of the life of a connection: [Listener::Accept]
    (src/src/io/listener.h), [Server::AcceptLoop] (src/src/server.cc),
    [RingExecutor::Schedule] (src/src/runtime/ring_executor.h), the set-up of a
    connection on its executor and the end of [Client::Process]
    (src/src/client.cc).  The loop runs on the first client executor: a
    connection for that executor is set up at once, one for another executor is
    a task in that executor's queue.

    A task and the end of a client are single steps, so the calls of
    [AddClient] do not overlap here; what they do when they overlap is in
    [ClientManager]. *)

From S2P Require Import Prelude Bits Config Buffer RingExecutor BufferRing Connection ClientManager.

Section acceptor.
Context {K : Type} `{!Files K} `{!BuildMode}.
Implicit Types k : K.

Record Front := mkFront {
  kernel : K;
  slots : list (list Z);               (* fd_slot_indices_ of each client executor *)
  queues : list (list Connection);     (* tasks each client executor has yet to run *)
  manager : @ClientManager Connection;
  ce_index : Z;
  connections_received : Z;
  rejected_connections : Z }.
Implicit Types f : Front.

(** The task scheduled for a connection, up to the first suspension of
    [Client::Process]. *)
Definition start_client (c : Config) (e : nat) (conn : Connection) f : Outcome Front :=
  free ← vec_get (slots f) (Z.of_nat e);
  '(conn, free, k) ← Setup e (use_ring_buffer c) free (kernel f) conn;
  m ← AddClient (fd_ conn) conn (manager f);
  Ok (mkFront k (<[e:=free]> (slots f)) (queues f) m (ce_index f) (connections_received f)
        (rejected_connections f)).

Definition set_queue (e : nat) (q : list Connection) f : Front :=
  mkFront (kernel f) (slots f) (<[e:=q]> (queues f)) (manager f) (ce_index f)
    (connections_received f) (rejected_connections f).

(** [Schedule] called on executor [src]: inline on the same executor, a message
    to the ring of another. *)
Definition Schedule (c : Config) (src e : nat) (conn : Connection) f : Outcome Front :=
  if (src =? e)%nat then start_client c e conn f
  else q ← vec_get (queues f) (Z.of_nat e); Ok (set_queue e (q ++ [conn]) f).

(** A turn of the accept loop for an incoming connection [s], with the executor
    the connection is given to. *)
Definition Accept_turn (c : Config) (s : nat) f : Outcome (option nat * Front) :=
  let '(result, k) := fd_accept s (kernel f) in
  let f := mkFront k (slots f) (queues f) (manager f) (ce_index f) (connections_received f)
             (rejected_connections f) in
  let '(error, conn) := Accept_resume result in
  if error =? 0 then
    let f := mkFront k (slots f) (queues f) (manager f) (ce_index f)
               (u64 (connections_received f + 1)) (rejected_connections f) in
    if ActiveClients (manager f) =? maxclients c then
      conn ← deref conn;
      let '(conn, k) := Close k conn in
      '(_, k) ← delete_Connection [] k conn;
      Ok (None, mkFront k (slots f) (queues f) (manager f) (ce_index f)
                  (connections_received f) (u64 (rejected_connections f + 1)))
    else
      _ ← vec_get (slots f) (ce_index f);
      let e := Z.to_nat (ce_index f) in
      next ← umod (ce_index f + 1) (Z.of_nat (length (slots f)));
      let f := mkFront (kernel f) (slots f) (queues f) (manager f) next
                 (connections_received f) (rejected_connections f) in
      conn ← deref conn;   (* the first thing the executor does with it *)
      f ← Schedule c 0 e conn f;
      Ok (Some e, f)
  else Ok (None, f).

(** An executor runs the first task of its queue. *)
Definition Run_task (c : Config) (e : nat) f : Outcome Front :=
  match queues f !! e with
  | Some (conn :: q) => start_client c e conn (set_queue e q f)
  | _ => Ok f
  end.

(** The end of [Client::Process]: the client is removed, the connection closed
    and, with the client, deleted. *)
Definition End_client (fd : Z) f : Outcome Front :=
  match clients_ (manager f) !! Z.to_nat (fd - 1) with
  | Some (Some conn) =>
      m ← RemoveClient (fd_ conn) (manager f);
      let '(conn, k) := Close (kernel f) conn in
      e ← deref (executor_ conn);
      free ← vec_get (slots f) (Z.of_nat e);
      '(free, k) ← delete_Connection free k conn;
      Ok (mkFront k (<[e:=free]> (slots f)) (queues f) m (ce_index f) (connections_received f)
            (rejected_connections f))
  | _ => Ok f
  end.

Inductive front_event := FAccept (s : nat) | FRun (e : nat) | FEnd (fd : Z).

Definition front_step (c : Config) (ev : front_event) f : Outcome (option nat * Front) :=
  match ev with
  | FAccept s => Accept_turn c s f
  | FRun e => f ← Run_task c e f; Ok (None, f)
  | FEnd fd => f ← End_client fd f; Ok (None, f)
  end.

(** A sequence of events, with the executors the connections were given to. *)
Fixpoint front_run (c : Config) (evs : list front_event) f : Outcome (list nat * Front) :=
  match evs with
  | [] => Ok ([], f)
  | ev :: evs =>
      '(e, f) ← front_step c ev f;
      '(es, f) ← front_run c evs f;
      Ok (option_list e ++ es, f)
  end.

(** The server when the loop starts. *)
Definition initial_front (c : Config) (k : K) : Front :=
  mkFront k (replicate (Z.to_nat (client_executors c)) (initial_slots (CreateConfig c)))
    (replicate (Z.to_nat (client_executors c)) []) new_ClientManager 0 0 0.

(** ** The invariant *)

Context `{!FilesLaws K}.
Implicit Types (conn : Connection) (t : gmap Z Connection) (pend : list Connection).

Definition kSlots : Z := max_direct_descriptors default_RingConfig.

(** The slot of executor [e] a connection uses. *)
Definition conn_slots (e : nat) conn : list Z :=
  if bool_decide (executor_ conn = Some e) && (0 <=? descripor_index_ conn)
  then [descripor_index_ conn] else [].

Definition used (e : nat) t : list Z := map_to_list t ≫= λ p, conn_slots e p.2.

(** A connection being served: its slot, if any, refers to its own socket. *)
Definition live_ok k (n : nat) conn : Prop :=
  active_ conn = true ∧ is_Some (fd_file k (fd_ conn)) ∧
  ∃ e, executor_ conn = Some e ∧ (e < n)%nat ∧
    (descripor_index_ conn = -1 ∨
     0 ≤ descripor_index_ conn < kSlots ∧
     file_at k e (descripor_index_ conn) = fd_file k (fd_ conn)).

(** A connection accepted and not set up. *)
Definition pending_ok k t conn : Prop :=
  conn = new_Connection (fd_ conn) ∧ 2 ≤ fd_ conn < 2 ^ 31 ∧ is_Some (fd_file k (fd_ conn)) ∧
  t !! fd_ conn = None.

Record front_inv t pend f : Prop := {
  fi_table : represents fd_ (manager f) t;
  fi_queues : length (queues f) = length (slots f);
  fi_live fd conn : t !! fd = Some conn → live_ok (kernel f) (length (slots f)) conn;
  fi_slots e free : slots f !! e = Some free → free ++ used e t ≡ₚ seqZ 0 kSlots;
  fi_nodup : NoDup (fd_ <$> pend);
  fi_pending : Forall (pending_ok (kernel f) t) pend;
  fi_stdout : is_Some (fd_file (kernel f) 1) }.

#[global] Instance used_perm e : Proper ((≡ₚ) ==> (≡ₚ)) (λ l : list (Z * Connection), l ≫= λ p, conn_slots e p.2).
Proof. intros l1 l2 Hl. by apply bind_Permutation. Qed.

Lemma used_insert e t fd conn :
  t !! fd = None → used e (<[fd:=conn]> t) ≡ₚ conn_slots e conn ++ used e t.
Proof. intros Hn. unfold used. by rewrite map_to_list_insert by done. Qed.

Lemma used_delete e t fd conn :
  t !! fd = Some conn → used e t ≡ₚ conn_slots e conn ++ used e (delete fd t).
Proof.
  intros Hs. rewrite <- used_insert by apply lookup_delete_eq. by rewrite insert_delete_id.
Qed.

Lemma used_elem e t fd conn :
  t !! fd = Some conn → executor_ conn = Some e → 0 ≤ descripor_index_ conn →
  descripor_index_ conn ∈ used e t.
Proof.
  intros Hs He Hd. rewrite used_delete by done. unfold conn_slots.
  rewrite bool_decide_eq_true_2, Zleb_t by done. left.
Qed.

(** What is known of a connection is kept while its descriptor and its slot
    refer to the same files. *)
Lemma live_ok_frame k k' n conn :
  live_ok k n conn → fd_file k' (fd_ conn) = fd_file k (fd_ conn) →
  (∀ e, executor_ conn = Some e → 0 ≤ descripor_index_ conn →
     file_at k' e (descripor_index_ conn) = file_at k e (descripor_index_ conn)) →
  live_ok k' n conn.
Proof.
  intros (Ha & Hf & e & He & Hn & Hd) E Hat. split_and!; [done|by rewrite E|].
  exists e. split_and!; [done|done|]. destruct Hd as [Hd|[Hd Hs]]; [by left|right].
  split; [done|]. by rewrite Hat, E by (done || lia).
Qed.

Lemma conn_slots_here e conn :
  executor_ conn = Some e → 0 ≤ descripor_index_ conn → conn_slots e conn = [descripor_index_ conn].
Proof. intros He Hd. unfold conn_slots. by rewrite bool_decide_eq_true_2, Zleb_t by done. Qed.
Lemma conn_slots_none e conn :
  executor_ conn ≠ Some e ∨ descripor_index_ conn = -1 → conn_slots e conn = [].
Proof.
  intros [He|Hd]; unfold conn_slots; [by rewrite bool_decide_eq_false_2|].
  by rewrite Hd, andb_false_r.
Qed.

(** A slot is not both free and used. *)
Lemma free_not_used t pend f e free i fd conn :
  front_inv t pend f → slots f !! e = Some free → i ∈ free →
  t !! fd = Some conn → executor_ conn = Some e → 0 ≤ descripor_index_ conn →
  descripor_index_ conn ≠ i.
Proof.
  intros Hinv Hs Hi Hc He Hd <-. pose proof (NoDup_seqZ 0 kSlots) as Hnd.
  rewrite <- (fi_slots _ _ _ Hinv e free Hs) in Hnd. apply NoDup_app in Hnd as (_ & Hx & _).
  apply (Hx _ Hi). by apply used_elem with fd.
Qed.

(** The result of a registration: none, or the last free slot, which now refers
    to the file of [fd]. *)
Definition registered (e : nat) (fd : Z) (free free' : list Z) (k k' : K) (index : Z) : Prop :=
  (index = -1 ∧ free' = free ∧ k' = k) ∨
  (free = free' ++ [index] ∧ 0 ≤ index < kSlots ∧ (files_update e index fd k).1 = 1 ∧
   k' = (files_update e index fd k).2).

Lemma RegisterFd_cases e fd free k :
  (∀ i, i ∈ free → 0 ≤ i < kSlots) →
  RegisterFd e fd free k = Fault LogFatal ∨
  ∃ index free' k', RegisterFd e fd free k = Ok (index, free', k') ∧
    registered e fd free free' k k' index.
Proof.
  intros Hfree. unfold RegisterFd. destruct free as [|i rest _] using rev_ind.
  { right. eexists _, _, _. split; [done|by left]. }
  rewrite last_snoc, removelast_last. destruct (files_update e i fd k) as [ret k'] eqn:E.
  assert (0 ≤ i < kSlots) as Hi by (apply Hfree; set_solver).
  destruct (Z.eqb_spec ret 1) as [->|]; simpl; [right|by left].
  rewrite i32_small by (unfold kSlots in Hi; simpl in Hi; lia).
  eexists _, _, _. split; [done|]. right. by rewrite E.
Qed.

Lemma registered_frame e fd free free' k k' index :
  registered e fd free free' k k' index →
  (∀ fd', fd_file k' fd' = fd_file k fd') ∧
  (∀ e' j, (e' = e → j ∉ free) → file_at k' e' j = file_at k e' j) ∧
  (index ≠ -1 → 0 ≤ index < kSlots ∧ file_at k' e index = fd_file k fd).
Proof.
  intros [(-> & -> & ->)|(-> & Hi & Hu & ->)]; [done|].
  destruct (files_update_ok e index fd k Hu) as (H1 & H2 & H3). split_and!; [done| |done].
  intros e' j Hj. apply H2. intros [= -> ->]. apply Hj; [done|]. set_solver.
Qed.

Lemma registered_slots e fd free free' k k' conn :
  registered e fd free free' k k' (descripor_index_ conn) → executor_ conn = Some e →
  free ≡ₚ conn_slots e conn ++ free'.
Proof.
  intros [(Hd & -> & _)|(-> & Hi & _)] He.
  - by rewrite conn_slots_none by auto.
  - rewrite conn_slots_here by (done || lia). by rewrite Permutation_app_comm.
Qed.

Lemma install_inv t pend f conn conn' k' e free free' m' :
  front_inv t (conn :: pend) f → slots f !! e = Some free →
  fd_ conn' = fd_ conn → active_ conn' = true → executor_ conn' = Some e →
  registered e (fd_ conn) free free' (kernel f) k' (descripor_index_ conn') →
  represents fd_ m' (<[fd_ conn:=conn']> t) →
  front_inv (<[fd_ conn:=conn']> t) pend
    (mkFront k' (<[e:=free']> (slots f)) (queues f) m' (ce_index f) (connections_received f)
       (rejected_connections f)).
Proof.
  intros Hinv Hs Hfd Ha He Hreg Hrep.
  pose proof (Hinv) as [_ Hq Hlive Hslots Hnd Hpend Hout].
  destruct (registered_frame _ _ _ _ _ _ _ Hreg) as (Hff & Hfa & Hown).
  apply Forall_cons in Hpend as [(_ & Hr & Hopen & Hnone) Hpend].
  apply NoDup_cons in Hnd as [Hni Hnd].
  split; simpl; rewrite ?length_insert; [done|done| | |done| |by rewrite Hff].
  - intros fd c0 [[<- <-]|[Hne Hc]]%lookup_insert_Some.
    + split_and!; [done|by rewrite Hff, Hfd|]. exists e. split_and!; [done|by eapply lookup_lt_Some|].
      destruct (decide (descripor_index_ conn' = -1)); [by left|right].
      by rewrite Hff, Hfd; apply Hown.
    + apply (live_ok_frame (kernel f)); [by eapply Hlive|done|].
      intros e' He' Hd'. apply Hfa. intros -> Hin.
      by eapply (free_not_used t (conn :: pend) f).
  - intros e' fr. rewrite used_insert by done. destruct (decide (e' = e)) as [->|Hne].
    + rewrite list_lookup_insert_eq by (by eapply lookup_lt_Some). intros [= <-].
      rewrite <- (Hslots e free Hs), (registered_slots _ _ _ _ _ _ _ Hreg He).
      by rewrite !app_assoc, (Permutation_app_comm free').
    + rewrite list_lookup_insert_ne by done. intros Hfr.
      rewrite conn_slots_none by (left; congruence). by apply Hslots.
  - rewrite Forall_forall in Hpend |- *. intros x Hx. destruct (Hpend x Hx) as (? & ? & ? & ?).
    split_and!; [done|lia|lia|by rewrite Hff|]. rewrite lookup_insert_ne; [done|].
    intros E. apply Hni. rewrite E. by apply list_elem_of_fmap_2.
Qed.

(** The counters and queues a step leaves alone. *)
Definition same_counters f f' : Prop :=
  length (slots f') = length (slots f) ∧ ce_index f' = ce_index f ∧
  connections_received f' = connections_received f ∧
  rejected_connections f' = rejected_connections f.

Lemma start_client_inv c e conn t pend f :
  front_inv t (conn :: pend) f → (e < length (slots f))%nat →
  start_client c e conn f = Fault LogFatal ∨
  ∃ conn' f', start_client c e conn f = Ok f' ∧ queues f' = queues f ∧ same_counters f f' ∧
    front_inv (<[fd_ conn:=conn']> t) pend f'.
Proof.
  intros Hinv He. destruct (lookup_lt_is_Some_2 _ _ He) as [free Hs].
  pose proof (fi_pending _ _ _ Hinv) as [(Hconn & Hr & Hopen & Hnone) _]%Forall_cons.
  unfold start_client. step (vec_get_nat _ _ _ Hs).
  assert (descripor_index_ conn = -1 ∧ active_ conn = true) as [Hd Ha] by by rewrite Hconn.
  unfold Setup, TryRegisterFD, UsingDirectDescriptor. simpl. rewrite Hd, cassert_true by done. simpl.
  assert (∀ i, i ∈ free → 0 ≤ i < kSlots) as Hfree.
  { intros i Hi. assert (i ∈ seqZ 0 kSlots) as Hin%elem_of_seqZ; [|lia].
    rewrite <- (fi_slots _ _ _ Hinv e free Hs). set_solver. }
  destruct (RegisterFd_cases e (fd_ conn) free (kernel f) Hfree)
    as [->|(index & free' & k' & -> & Hreg)]; [by left|right]. simpl.
  set (conn' := mkConnection _ _ _ _ _ _).
  destruct (AddClient_represents fd_ (manager f) t (fd_ conn) conn') as (m' & Hm & Hrep).
  { apply (fi_table _ _ _ Hinv). }
  { done. }
  rewrite Hm. exists conn'. eexists; split_and!; [done|done|split_and!; try done|].
  { simpl. apply length_insert. }
  eapply install_inv; [done..|by rewrite <- Ha|done|done|done].
Qed.

(** The descriptors the server has open. *)
Definition open_fds t pend : list Z := 1 :: (fd_ <$> pend) ++ (map_to_list t).*1.

Lemma live_open t pend fd conn : t !! fd = Some conn → fd ∈ open_fds t pend.
Proof.
  intros Hc%elem_of_map_to_list. unfold open_fds. right. apply elem_of_app. right.
  by apply (list_elem_of_fmap_2 fst _ (fd, conn)).
Qed.
Lemma pending_open t pend conn : conn ∈ pend → fd_ conn ∈ open_fds t pend.
Proof. intros Hc. unfold open_fds. right. apply elem_of_app. left. by apply list_elem_of_fmap_2. Qed.

(** A kernel that agrees on them, and new counters. *)
Lemma frame_inv t pend f k' ce rcv rej :
  front_inv t pend f →
  (∀ fd, fd ∈ open_fds t pend → fd_file k' fd = fd_file (kernel f) fd) →
  (∀ ring j, file_at k' ring j = file_at (kernel f) ring j) →
  front_inv t pend (mkFront k' (slots f) (queues f) (manager f) ce rcv rej).
Proof.
  intros [Ht Hq Hl Hs Hnd Hp Ho] Hfd Hat. split; simpl; try done.
  - intros fd conn Hc. apply (live_ok_frame (kernel f)); [by eapply Hl| |by auto].
    apply Hfd. destruct (rep_fd _ _ _ Ht _ _ Hc) as [_ <-]. by eapply live_open.
  - rewrite Forall_forall in Hp |- *. intros x Hx. destruct (Hp x Hx) as (? & ? & ? & ?).
    split_and!; [done|lia|lia| |done]. by rewrite Hfd by by apply pending_open.
  - rewrite Hfd by left. done.
Qed.

Lemma open_is_open t pend f fd :
  front_inv t pend f → fd ∈ open_fds t pend → is_Some (fd_file (kernel f) fd).
Proof.
  intros [Ht _ Hl _ _ Hp Ho] [->|[Hin|Hin]%elem_of_app]%elem_of_cons; [done| |].
  - apply list_elem_of_fmap_1 in Hin as (x & -> & Hx). rewrite Forall_forall in Hp.
    by destruct (Hp x Hx) as (_ & _ & ? & _).
  - apply list_elem_of_fmap_1 in Hin as ([fd' c] & -> & Hc%elem_of_map_to_list). simpl.
    destruct (Hl _ _ Hc) as (_ & Hf & _). by destruct (rep_fd _ _ _ Ht _ _ Hc) as [_ <-].
Qed.

(** A connection is accepted: a descriptor that was not open. *)
Lemma accept_inv s t pend f ce rcv rej :
  front_inv t pend f → 0 < (fd_accept s (kernel f)).1 →
  front_inv t (new_Connection (fd_accept s (kernel f)).1 :: pend)
    (mkFront (fd_accept s (kernel f)).2 (slots f) (queues f) (manager f) ce rcv rej).
Proof.
  intros Hinv Hpos. destruct (fd_accept_ok s (kernel f) Hpos) as (Hlt & Hnone & Hsome & Hfd & Hat).
  destruct (fd_accept s (kernel f)) as [fd k']. simpl in *.
  assert (fd ∉ open_fds t pend) as Hnew.
  { intros Hin. destruct (open_is_open _ _ _ _ Hinv Hin) as [? E]. congruence. }
  assert (front_inv t pend (mkFront k' (slots f) (queues f) (manager f) ce rcv rej)) as Hinv'.
  { apply frame_inv; [done| |done]. intros fd' Hin. apply Hfd. by intros ->. }
  destruct Hinv' as [Ht Hq Hl Hs Hnd Hp Ho]. split; simpl; try done.
  - apply NoDup_cons. split; [|done]. intros Hin. apply Hnew. right. apply elem_of_app. by left.
  - apply Forall_cons. split; [|done]. split_and!; simpl; [done| |done|by eexists|].
    + assert (fd ≠ 1) by (intros ->; apply Hnew; left). lia.
    + destruct (t !! fd) as [x|] eqn:E; [|done]. exfalso. by eapply Hnew, live_open.
Qed.

(** A connection not set up is closed. *)
Lemma reject_inv conn t pend f ce rcv rej :
  front_inv t (conn :: pend) f →
  front_inv t pend
    (mkFront (fd_close (fd_ conn) (kernel f)).2 (slots f) (queues f) (manager f) ce rcv rej).
Proof.
  intros [Ht Hq Hl Hs Hnd Hp Ho].
  apply NoDup_cons in Hnd as [Hni Hnd]. apply Forall_cons in Hp as [(Hc & Hr & _ & Hnone) Hp].
  destruct (fd_close_ok (fd_ conn) (kernel f)) as (_ & Hfd & Hat).
  apply frame_inv; [by split|intros fd Hin; apply Hfd; intros ->|done].
  apply elem_of_cons in Hin as [E|[Hin|Hin]%elem_of_app]; [lia|done|].
  apply list_elem_of_fmap_1 in Hin as ([fd' c] & E & Hc'%elem_of_map_to_list). simpl in E. congruence.
Qed.

Lemma front_inv_perm t p1 p2 f : p1 ≡ₚ p2 → front_inv t p1 f → front_inv t p2 f.
Proof.
  intros Hp [? ? ? ? Hnd Hpd ?]. split; try done.
  - by rewrite <- Hp.
  - by rewrite <- Hp.
Qed.

(** A connection leaves with its slot. *)
Lemma remove_inv t pend f fd conn m' e free free' :
  front_inv t pend f → t !! fd = Some conn → executor_ conn = Some e →
  slots f !! e = Some free → free' ≡ₚ free ++ conn_slots e conn →
  represents fd_ m' (delete fd t) →
  front_inv (delete fd t) pend
    (mkFront (fd_close fd (kernel f)).2 (<[e:=free']> (slots f)) (queues f) m' (ce_index f)
       (connections_received f) (rejected_connections f)).
Proof.
  intros [Ht Hq Hl Hs Hnd Hp Ho] Hc He Hfree Hfree' Hm.
  destruct (fd_close_ok fd (kernel f)) as (_ & Hfd & Hat).
  destruct (rep_fd _ _ _ Ht _ _ Hc) as [Hr _].
  split; simpl; rewrite ?length_insert; [done|done| | |done| |].
  - intros fd' c' [Hne Hc']%lookup_delete_Some. destruct (rep_fd _ _ _ Ht _ _ Hc') as [_ Hf'].
    apply (live_ok_frame (kernel f)); [by eapply Hl| |by auto]. apply Hfd. congruence.
  - intros e' fr. destruct (decide (e' = e)) as [->|Hne].
    + rewrite list_lookup_insert_eq by (by eapply lookup_lt_Some). intros [= <-].
      rewrite <- (Hs e free Hfree), (used_delete e t fd conn Hc), Hfree'. by rewrite app_assoc.
    + rewrite list_lookup_insert_ne by done. intros Hfr. rewrite <- (Hs e' fr Hfr).
      rewrite (used_delete e' t fd conn Hc). by rewrite conn_slots_none by (left; congruence).
  - rewrite Forall_forall in Hp |- *. intros x Hx. destruct (Hp x Hx) as (? & ? & ? & Hn).
    split_and!; [done|lia|lia| |by rewrite lookup_delete_None; right].
    rewrite Hfd; [done|]. intros E. congruence.
  - rewrite Hfd by lia. done.
Qed.

Lemma End_client_spec t pend f i conn e :
  front_inv t pend f → clients_ (manager f) !! i = Some (Some conn) → executor_ conn = Some e →
  ∃ m' free, slots f !! e = Some free ∧ fd_ conn = Z.of_nat i + 1 ∧
    represents fd_ m' (delete (fd_ conn) t) ∧
    End_client (Z.of_nat i + 1) f
    = Ok (mkFront (fd_close (fd_ conn) (kernel f)).2 (<[e:=free ++ conn_slots e conn]> (slots f))
            (queues f) m' (ce_index f) (connections_received f) (rejected_connections f)).
Proof.
  intros Hinv Hslot He. pose proof (fi_table _ _ _ Hinv) as Ht.
  pose proof (proj1 (rep_slot _ _ _ Ht _ _) Hslot) as Hc.
  destruct (rep_fd _ _ _ Ht _ _ Hc) as [Hr Hfd].
  destruct (fi_live _ _ _ Hinv _ _ Hc) as (Ha & _ & e' & He' & Hlt & Hd).
  replace e' with e in Hlt by congruence. destruct (lookup_lt_is_Some_2 _ _ Hlt) as [free Hs].
  destruct (RemoveClient_represents fd_ (manager f) t (fd_ conn)) as (m' & Hm & Hrep);
    [done|by rewrite Hfd|].
  exists m', free. split_and!; [done..|]. unfold End_client.
  replace (Z.to_nat (Z.of_nat i + 1 - 1)) with i by lia. rewrite Hslot. step Hm.
  unfold Close. rewrite Ha. simpl. rewrite He. simpl. step (vec_get_nat _ _ _ Hs).
  unfold delete_Connection. simpl. destruct Hd as [Hd|[Hd _]].
  - rewrite Hd. simpl. by rewrite conn_slots_none, app_nil_r by auto.
  - rewrite Zleb_t by lia. unfold UnregisterFd. rewrite cassert_true by (apply Zleb_t; lia).
    simpl. rewrite conn_slots_here by (done || lia).
    by rewrite u32_small by (unfold kSlots in Hd; simpl in Hd; lia).
Qed.

Lemma End_client_inv t pend f fd :
  front_inv t pend f →
  ∃ f' t', End_client fd f = Ok f' ∧ front_inv t' pend f' ∧ t' ⊆ t ∧
    queues f' = queues f ∧ same_counters f f'.
Proof.
  intros Hinv. destruct (clients_ (manager f) !! Z.to_nat (fd - 1)) as [[conn|]|] eqn:Hslot;
    [|by exists f, t; unfold End_client; rewrite Hslot..].
  pose proof (fi_table _ _ _ Hinv) as Ht.
  pose proof (proj1 (rep_slot _ _ _ Ht _ _) Hslot) as Hc.
  destruct (fi_live _ _ _ Hinv _ _ Hc) as (_ & _ & e & He & _ & _).
  destruct (End_client_spec t pend f _ conn e Hinv Hslot He) as (m' & free & Hs & Hfd & Hrep & Hend).
  assert (End_client fd f = End_client (Z.of_nat (Z.to_nat (fd - 1)) + 1) f) as ->.
  { unfold End_client. by replace (Z.to_nat (Z.of_nat _ + 1 - 1)) with (Z.to_nat (fd - 1)) by lia. }
  rewrite Hend. eexists _, (delete (fd_ conn) t). split; [done|]. split.
  { eapply remove_inv; [done|by rewrite Hfd|done..]. }
  split_and!; [apply delete_subseteq|done|]. split_and!; try done. apply length_insert.
Qed.

(** ** The accept loop *)

(** With a single client executor nothing is ever queued, and the number of
    clients is within the limit. *)
Record main_inv (c : Config) t f : Prop := {
  mi_front : front_inv t (concat (queues f)) f;
  mi_single : length (slots f) = 1%nat →
    concat (queues f) = [] ∧ Z.of_nat (size t) ≤ maxclients c }.

(** [N] connections were given to executors and [r] rejected. *)
Record counters (N r : Z) f : Prop := {
  co_scheduled : connections_received f = N + r;
  co_rejected : rejected_connections f = r;
  co_next : ce_index f = N mod Z.of_nat (length (slots f));
  co_range : 0 ≤ N ∧ 0 ≤ r }.

Lemma Schedule_inv c e conn t f :
  front_inv t (conn :: concat (queues f)) f → (e < length (slots f))%nat →
  (length (slots f) = 1%nat → concat (queues f) = [] ∧ Z.of_nat (size t) + 1 ≤ maxclients c) →
  Schedule c 0 e conn f = Fault LogFatal ∨
  ∃ t' f', Schedule c 0 e conn f = Ok f' ∧ main_inv c t' f' ∧ same_counters f f'.
Proof.
  intros Hinv He H1. unfold Schedule. destruct (Nat.eqb_spec 0 e) as [<-|Hne].
  - destruct (start_client_inv c 0 conn t _ f Hinv He) as [Hf|(conn' & f' & Hf & Hq & Hsame & Hinv')];
      [by left|right]. eexists _, f'. split_and!; [done|split|done].
    + by rewrite Hq.
    + destruct Hsame as [-> _]. rewrite Hq. intros [H2 H3]%H1. split; [done|].
      pose proof (fi_pending _ _ _ Hinv) as [(_ & _ & _ & Hn) _]%Forall_cons.
      rewrite map_size_insert_None by done. lia.
  - right. rewrite <- (fi_queues _ _ _ Hinv) in He.
    destruct (lookup_lt_is_Some_2 _ _ He) as [q Hq]. step (vec_get_nat _ _ _ Hq).
    exists t. eexists. split_and!; [done|split|done]; simpl.
    + destruct Hinv as [? ? ? ? Hnd Hp ?].
      assert (concat (<[e:=q ++ [conn]]> (queues f)) ≡ₚ conn :: concat (queues f)) as Hperm
        by (apply (concat_insert_perm _ _ q _ [conn]); [done|apply Permutation_app_comm]).
      split; simpl; rewrite ?length_insert, ?Hperm; try done.
    + intros Hl. rewrite (fi_queues _ _ _ Hinv) in He. lia.
Qed.

Lemma Accept_turn_inv c s t f N r :
  main_inv c t f → counters N r f → N + r + 1 < 2 ^ 64 → (0 < length (slots f))%nat →
  Accept_turn c s f = Fault LogFatal ∨
  ∃ oe t' f', Accept_turn c s f = Ok (oe, f') ∧ main_inv c t' f' ∧
    length (slots f') = length (slots f) ∧
    ∃ N' r', counters N' r' f' ∧ N' + r' ≤ N + r + 1 ∧
      match oe with
      | None => N' = N
      | Some e => Z.of_nat e = N mod Z.of_nat (length (slots f)) ∧ N' = N + 1
      end.
Proof.
  intros [Hinv H1] [Hrcv Hrej Hce Hrange] Hlt Hn. unfold Accept_turn.
  pose proof (accept_inv s t (concat (queues f)) f) as Hacc. pose proof (fd_accept_error s (kernel f)) as Herr.
  pose proof (fd_accept_ne s (kernel f)) as Hne.
  destruct (fd_accept s (kernel f)) as [fd k']. simpl in *. unfold Accept_resume.
  destruct (Z.ltb_spec 0 fd) as [Hpos|Hneg]; first last.
  { rewrite Zeqb_f by lia. right. destruct (Herr Hneg) as [Hfd Hat]. eexists None, t, _. split; [done|]. split_and!.
    - split; simpl; [by apply frame_inv|done].
    - done.
    - exists N, r. by repeat split; try lia. }
  assert (0 < Z.of_nat (length (slots f))) as Hn' by lia.
  pose proof (Z.mod_pos_bound N _ Hn') as Hmod.
  destruct (Z.eqb_spec (ActiveClients (manager f)) (maxclients c)) as [Hfull|Hroom].
  - right. unfold Close, delete_Connection. simpl.
    eexists None, t, _. split; [done|]. split_and!.
    + split; simpl; [|done].
      apply (reject_inv (new_Connection fd) t _ _ _ _ _ (Hacc (ce_index f) 0 0 Hinv Hpos)).
    + done.
    + exists N, (r + 1). split_and!; [|lia|done].
      split; simpl; rewrite ?Hrcv, ?Hrej, ?u64_small by lia; [lia|done|done|lia].
  - destruct (lookup_lt_is_Some_2 (slots f) (Z.to_nat (ce_index f))) as [fr Hfr];
      [rewrite Hce; lia|].
    rewrite (vec_get_Ok _ _ fr) by (done || lia). simpl. rewrite umod_Ok by done. simpl.
    match goal with |- context [Schedule c 0 ?e ?conn ?f1] =>
      destruct (Schedule_inv c e conn t f1) as [->|(t' & f' & -> & Hinv' & Hsame)] end;
      [by apply Hacc|simpl; lia| |by left|right].
    { simpl. intros [H2 H3]%H1. split; [done|]. unfold ActiveClients in Hroom.
      rewrite (rep_active _ _ _ (fi_table _ _ _ Hinv)) in Hroom. lia. }
    destruct Hsame as (Hl & Hc' & Hr' & Hj'). simpl in *.
    eexists _, t', f'. split_and!; [done|done|done|]. exists (N + 1), r. split_and!; [|lia|lia|done].
    split; [|congruence| |lia].
    + rewrite Hr', Hrcv, u64_small by lia. lia.
    + rewrite Hc', Hl, Hce. by rewrite Zplus_mod_idemp_l.
Qed.

Lemma Run_task_inv c e t f :
  main_inv c t f →
  Run_task c e f = Fault LogFatal ∨
  ∃ t' f', Run_task c e f = Ok f' ∧ main_inv c t' f' ∧ same_counters f f'.
Proof.
  intros [Hinv H1]. unfold Run_task.
  destruct (queues f !! e) as [[|conn q]|] eqn:Hq; [by right; exists t, f| |by right; exists t, f].
  assert (concat (queues f) ≡ₚ conn :: concat (<[e:=q]> (queues f))) as Hperm
    by (by apply (concat_insert_perm_rem _ _ (conn :: q) q [conn])).
  assert (e < length (slots f))%nat as He
    by (rewrite <- (fi_queues _ _ _ Hinv); by eapply lookup_lt_Some).
  destruct (start_client_inv c e conn t (concat (<[e:=q]> (queues f))) (set_queue e q f))
    as [->|(conn' & f' & -> & Hq' & Hsame & Hinv')]; [|done|by left|right].
  { apply (front_inv_perm _ _ _ _ Hperm) in Hinv. destruct Hinv.
    split; simpl; rewrite ?length_insert; done. }
  eexists _, f'. split_and!; [done|split|done].
  - by rewrite Hq'.
  - destruct Hsame as [-> _]. intros [H2 _]%H1. rewrite H2 in Hperm.
    by apply Permutation_nil_cons in Hperm.
Qed.

Lemma same_counters_keep N r f f' : counters N r f → same_counters f f' → counters N r f'.
Proof. intros [? ? ? ?] (E1 & E2 & E3 & E4). split; [..|done]; rewrite ?E1; congruence. Qed.

(** One event. *)
Lemma front_step_inv c ev t f N r :
  main_inv c t f → counters N r f → N + r + 1 < 2 ^ 64 → (0 < length (slots f))%nat →
  front_step c ev f = Fault LogFatal ∨
  ∃ oe t' f', front_step c ev f = Ok (oe, f') ∧ main_inv c t' f' ∧
    length (slots f') = length (slots f) ∧
    ∃ N' r', counters N' r' f' ∧ N' + r' ≤ N + r + 1 ∧
      match oe with
      | None => N' = N
      | Some e => Z.of_nat e = N mod Z.of_nat (length (slots f)) ∧ N' = N + 1
      end.
Proof.
  intros Hinv Hco Hlt Hn. destruct ev as [s|e|fd]; simpl.
  - by apply (Accept_turn_inv c s t f N r).
  - destruct (Run_task_inv c e t f Hinv) as [->|(t' & f' & -> & Hinv' & Hsame)]; [by left|right].
    pose proof (same_counters_keep _ _ _ _ Hco Hsame). destruct Hsame as (? & _).
    exists None, t', f'. split_and!; [done..|]. exists N, r. split_and!; [done|lia|done].
  - destruct Hinv as [Hinv H1].
    destruct (End_client_inv t _ f fd Hinv) as (f' & t' & -> & Hinv' & Hsub & Hq & Hsame).
    pose proof (same_counters_keep _ _ _ _ Hco Hsame). destruct Hsame as (Hl & _).
    right. exists None, t', f'. split_and!; [done|split|done|].
    + by rewrite Hq.
    + rewrite Hl, Hq. intros [H2 H3]%H1. split; [done|].
      apply map_subseteq_size in Hsub. lia.
    + exists N, r. split_and!; [done|lia|done].
Qed.

Definition round_robin (N n : Z) (count : nat) : list Z :=
  (λ i, i mod n) <$> seqZ N (Z.of_nat count).

Lemma front_run_inv c evs t f N r :
  main_inv c t f → counters N r f → N + r + Z.of_nat (length evs) < 2 ^ 64 →
  (0 < length (slots f))%nat →
  front_run c evs f = Fault LogFatal ∨
  ∃ es t' f', front_run c evs f = Ok (es, f') ∧ main_inv c t' f' ∧
    length (slots f') = length (slots f) ∧
    Z.of_nat <$> es = round_robin N (Z.of_nat (length (slots f))) (length es) ∧
    ∃ r', counters (N + Z.of_nat (length es)) r' f'.
Proof.
  revert t f N r. induction evs as [|ev evs IH]; intros t f N r Hinv Hco Hlt Hn; simpl.
  { right. exists [], t, f. split_and!; [done..|]. exists r. by rewrite Z.add_0_r. }
  simpl in Hlt.
  destruct (front_step_inv c ev t f N r) as [->|(oe & t1 & f1 & -> & Hinv1 & Hl & N1 & r1 & Hco1 & Hle & Ho)];
    [done|done|lia|done|by left|]. simpl.
  destruct (IH t1 f1 N1 r1) as [->|(es & t2 & f2 & -> & Hinv2 & Hl2 & Hes & r2 & Hco2)];
    [done|done|lia|lia|by left|right]. simpl.
  exists (option_list oe ++ es), t2, f2. split_and!; [done|done|congruence| |].
  - rewrite fmap_app, Hes, Hl. destruct oe as [e|]; simpl.
    + destruct Ho as [-> ->]. unfold round_robin. rewrite (seqZ_cons N) by lia. simpl.
      do 3 f_equal; lia.
    + by subst N1.
  - exists r2. destruct oe; simpl; [|by subst N1].
    replace (N + _) with (N1 + Z.of_nat (length es)); [done|]. destruct Ho. lia.
Qed.

Lemma initial_main_inv c k :
  is_Some (fd_file k 1) → 0 ≤ maxclients c → main_inv c ∅ (initial_front c k).
Proof.
  intros Hout Hm. assert (concat (replicate (Z.to_nat (client_executors c)) (@nil Connection)) = [])
    as Hq by (apply concat_all_nil; intros i l [-> _]%lookup_replicate; done).
  split; simpl; rewrite Hq; [split; simpl|done].
  - apply represents_new.
  - by rewrite !length_replicate.
  - intros fd conn. by rewrite lookup_empty.
  - intros e free [-> _]%lookup_replicate. unfold used. by rewrite map_to_list_empty, app_nil_r.
  - apply NoDup_nil_2.
  - done.
  - done.
Qed.

Lemma initial_counters c k : counters 0 0 (initial_front c k).
Proof. split; simpl; try done. Qed.

(** Any run from the start. *)
Lemma initial_run c k evs :
  1 ≤ client_executors c → 0 ≤ maxclients c → is_Some (fd_file k 1) →
  Z.of_nat (length evs) < 2 ^ 64 →
  front_run c evs (initial_front c k) = Fault LogFatal ∨
  ∃ es t f, front_run c evs (initial_front c k) = Ok (es, f) ∧ main_inv c t f ∧
    length (slots f) = Z.to_nat (client_executors c) ∧
    Z.of_nat <$> es = round_robin 0 (client_executors c) (length es) ∧
    connections_received f = Z.of_nat (length es) + rejected_connections f.
Proof.
  intros Hn Hm Hout Hlt.
  destruct (front_run_inv c evs ∅ (initial_front c k) 0 0) as
    [?|(es & t & f & Hrun & Hinv & Hl & Hes & r & [Hr Hj _ _])];
    [by apply initial_main_inv|apply initial_counters|lia|simpl; rewrite length_replicate; lia|by left|].
  simpl in Hl, Hes. rewrite length_replicate in Hl, Hes. rewrite Z2Nat.id in Hes by lia.
  right. exists es, t, f. split_and!; [done..|]. lia.
Qed.

Lemma live_targets t pend f i conn :
  front_inv t pend f → clients_ (manager f) !! i = Some (Some conn) →
  ∃ e sock, executor_ conn = Some e ∧ fd_file (kernel f) (fd_ conn) = Some sock ∧
    (∀ op, target (kernel f) e (direct_request op conn) = Some sock) ∧
    (∀ buffer r, Recv_request buffer conn = Ok r → target (kernel f) e r = Some sock).
Proof.
  intros Hinv Hc. apply (rep_slot _ _ _ (fi_table _ _ _ Hinv)) in Hc.
  destruct (fi_live _ _ _ Hinv _ _ Hc) as (_ & [sock Hf] & e & He & _ & Hd).
  exists e, sock. split_and!; [done|done| |].
  - intros op. unfold direct_request, target. destruct Hd as [->|[Hd Hs]]; [done|].
    rewrite Zleb_t by lia. simpl. congruence.
  - intros buffer r Hr. assert (rq_fixed r = negb (descripor_index_ conn =? -1) ∧
      rq_fd r = if descripor_index_ conn =? -1 then fd_ conn else descripor_index_ conn) as [H1 H2].
    { unfold Recv_request in Hr. by destruct (buffer_group_ conn); inv_ok. }
    unfold target. rewrite H1, H2. destruct Hd as [->|[Hd Hs]]; [done|].
    rewrite Zeqb_f by lia. simpl. congruence.
Qed.

Lemma slots_distinct t pend f i j c1 c2 e :
  front_inv t pend f → i ≠ j →
  clients_ (manager f) !! i = Some (Some c1) → clients_ (manager f) !! j = Some (Some c2) →
  executor_ c1 = Some e → executor_ c2 = Some e → 0 ≤ descripor_index_ c1 →
  descripor_index_ c1 ≠ descripor_index_ c2.
Proof.
  intros Hinv Hij H1 H2 He1 He2 Hd E. pose proof (fi_table _ _ _ Hinv) as Ht.
  apply (rep_slot _ _ _ Ht) in H1, H2.
  destruct (fi_live _ _ _ Hinv _ _ H1) as (_ & _ & e' & He' & Hlt & _).
  replace e' with e in Hlt by congruence.
  destruct (lookup_lt_is_Some_2 _ _ Hlt) as [free Hs].
  pose proof (NoDup_seqZ 0 kSlots) as Hnd. rewrite <- (fi_slots _ _ _ Hinv e free Hs) in Hnd.
  rewrite (used_delete e t _ _ H1), conn_slots_here in Hnd by done.
  apply NoDup_app in Hnd as (_ & _ & Hnd). simpl in Hnd. apply NoDup_cons in Hnd as [Hni _].
  apply Hni. rewrite E. apply used_elem with (Z.of_nat j + 1); [|done|lia].
  by rewrite lookup_delete_ne by lia.
Qed.

(** C33: The accept loop keeps its books: whatever the order of incoming
    connections, executor tasks and ends of clients, the only way it can stop
    is the fatal error of a kernel that refuses to register a file; the
    connections received are those rejected plus those given to executors, the
    [i]-th of which goes to executor [i mod client_executors]; and with one
    client executor there are never more than [maxclients] clients. *)
Theorem accept_loop_accounting c k evs :
  1 ≤ client_executors c → 0 ≤ maxclients c → is_Some (fd_file k 1) →
  Z.of_nat (length evs) < 2 ^ 64 →
  front_run c evs (initial_front c k) = Fault LogFatal ∨
  ∃ es f, front_run c evs (initial_front c k) = Ok (es, f) ∧
    connections_received f = Z.of_nat (length es) + rejected_connections f ∧
    Z.of_nat <$> es = round_robin 0 (client_executors c) (length es) ∧
    (client_executors c = 1 → ActiveClients (manager f) ≤ maxclients c).
Proof.
  intros Hn Hm Hout Hlt.
  destruct (initial_run c k evs) as [?|(es & t & f & Hrun & [Hinv H1] & Hl & Hes & Hr)];
    [done..|by left|right].
  exists es, f. split_and!; [done..|]. intros E. rewrite E in Hl.
  unfold ActiveClients. rewrite (rep_active _ _ _ (fi_table _ _ _ Hinv)). by apply H1.
Qed.

(** C14: Every request of every client acts on the client's own socket: after
    any run of the accept loop, for each client in the table, sends, gathered
    writes and receives, made by descriptor or through the executor's table of
    registered files, reach the open file of the client's own descriptor, and
    two clients of one executor never hold the same slot. *)
Theorem requests_reach_own_socket c k evs es f :
  1 ≤ client_executors c → 0 ≤ maxclients c → is_Some (fd_file k 1) →
  Z.of_nat (length evs) < 2 ^ 64 →
  front_run c evs (initial_front c k) = Ok (es, f) →
  (∀ i conn, clients_ (manager f) !! i = Some (Some conn) →
     ∃ e sock, executor_ conn = Some e ∧ fd_file (kernel f) (fd_ conn) = Some sock ∧
       (∀ data, target (kernel f) e (Send_request data conn) = Some sock) ∧
       (∀ iovecs, target (kernel f) e (Writev_request iovecs conn) = Some sock) ∧
       (∀ buffer r, Recv_request buffer conn = Ok r → target (kernel f) e r = Some sock)) ∧
  (∀ i j c1 c2 e, i ≠ j →
     clients_ (manager f) !! i = Some (Some c1) → clients_ (manager f) !! j = Some (Some c2) →
     executor_ c1 = Some e → executor_ c2 = Some e → 0 ≤ descripor_index_ c1 →
     descripor_index_ c1 ≠ descripor_index_ c2).
Proof.
  intros Hn Hm Hout Hlt Hrun.
  destruct (initial_run c k evs) as [E|(es' & t & f' & Hrun' & [Hinv _] & _)]; [done..|congruence|].
  assert (f' = f) as -> by congruence. split.
  - intros i conn Hc. destruct (live_targets _ _ _ _ _ Hinv Hc) as (e & sock & ? & ? & Hop & Hrecv).
    exists e, sock. split_and!; [done|done|by intros; apply Hop|by intros; apply Hop|done].
  - intros i j c1 c2 e. by apply slots_distinct with t (concat (queues f)).
Qed.

(** A closed connection stays open in the kernel: when a client that has a
    slot ends, its descriptor is closed and its slot is the next one to be
    taken, but the slot still refers to its socket, so that the connection
    lives on until another takes that slot. *)
Theorem closed_socket_stays_registered c k evs es f i conn e :
  1 ≤ client_executors c → 0 ≤ maxclients c → is_Some (fd_file k 1) →
  Z.of_nat (length evs) < 2 ^ 64 →
  front_run c evs (initial_front c k) = Ok (es, f) →
  clients_ (manager f) !! i = Some (Some conn) → executor_ conn = Some e →
  0 ≤ descripor_index_ conn →
  ∃ f' free sock, End_client (fd_ conn) f = Ok f' ∧
    fd_file (kernel f) (fd_ conn) = Some sock ∧ fd_file (kernel f') (fd_ conn) = None ∧
    slots f' !! e = Some (free ++ [descripor_index_ conn]) ∧
    file_at (kernel f') e (descripor_index_ conn) = Some sock.
Proof.
  intros Hn Hm Hout Hlt Hrun Hslot He Hd.
  destruct (initial_run c k evs) as [E|(es' & t & f' & Hrun' & [Hinv _] & _)]; [done..|congruence|].
  assert (f' = f) as -> by congruence.
  destruct (End_client_spec _ _ _ _ _ _ Hinv Hslot He) as (m' & free & Hs & Hfd & _ & Hend).
  pose proof (proj1 (rep_slot _ _ _ (fi_table _ _ _ Hinv) _ _) Hslot) as Hc.
  destruct (fi_live _ _ _ Hinv _ _ Hc) as (_ & [sock Hsock] & e' & He' & _ & Hat).
  destruct (fd_close_ok (fd_ conn) (kernel f)) as (Hnone & _ & Hfiles).
  destruct Hat as [?|[_ Hat]]; [lia|]. replace e' with e in Hat by congruence.
  rewrite <- Hfd in Hend. eexists _, free, sock. split_and!; [exact Hend|done|done| |].
  - simpl. rewrite list_lookup_insert_eq by (by eapply lookup_lt_Some).
    by rewrite conn_slots_here.
  - simpl. rewrite Hfiles. congruence.
Qed.
End acceptor.

(** ** An instance of the kernel's tables

    Descriptors are given out from 3, as the lowest that is free. *)
Record Tables := mkTables { tb_fds : gmap Z nat; tb_files : gmap (nat * Z) nat }.

Definition lowest_free (k : Tables) : Z :=
  default (-24) (head (filter (λ fd, tb_fds k !! fd = None)
                         (seqZ 3 (Z.of_nat (size (tb_fds k)) + 1)))).

#[global] Instance tables_files : Files Tables := {|
  files_update ring i fd k :=
    match tb_fds k !! fd with
    | Some s => (1, mkTables (tb_fds k) (<[(ring, i):=s]> (tb_files k)))
    | None => (-9, k)
    end;
  fd_close fd k := (0, mkTables (delete fd (tb_fds k)) (tb_files k));
  fd_accept s k :=
    let fd := lowest_free k in
    if (0 <? fd) && (fd <? 2 ^ 31) then (fd, mkTables (<[fd:=s]> (tb_fds k)) (tb_files k))
    else (-24, k);
  fd_file k fd := tb_fds k !! fd;
  file_at k ring i := tb_files k !! (ring, i) |}.

Lemma lowest_free_free k : 0 < lowest_free k → tb_fds k !! lowest_free k = None.
Proof.
  unfold lowest_free. destruct (head _) as [fd|] eqn:E; simpl; [|lia]. intros _.
  apply head_Some_elem_of in E. by apply list_elem_of_filter in E as [? _].
Qed.

#[global] Instance tables_laws : FilesLaws Tables.
Proof.
  split.
  - intros ring i fd k. simpl. destruct (tb_fds k !! fd) as [s|] eqn:E; [|done]. intros _. simpl.
    split_and!; [by rewrite lookup_insert_eq|intros ring' j Hne; by rewrite lookup_insert_ne|done].
  - intros fd k. simpl. split_and!; [apply lookup_delete_eq| |done].
    intros fd' Hne. by rewrite lookup_delete_ne.
  - intros s k. simpl. destruct ((0 <? lowest_free k) && (lowest_free k <? 2 ^ 31)) eqn:E; simpl; [|lia].
    apply andb_prop in E as [E1%Z.ltb_lt E2%Z.ltb_lt]. intros _.
    split_and!; [done|by apply lowest_free_free|by rewrite lookup_insert_eq| |done].
    intros fd' Hne. by rewrite lookup_insert_ne.
  - intros s k. simpl. destruct ((0 <? lowest_free k) && (lowest_free k <? 2 ^ 31)) eqn:E; simpl; [|done].
    apply andb_prop in E as [E1%Z.ltb_lt _]. lia.
  - intros s k. simpl. destruct ((0 <? lowest_free k) && (lowest_free k <? 2 ^ 31)) eqn:E; simpl; lia.
Qed.

(** ** Witnesses and the limit with two executors *)

Definition std_tables : Tables := mkTables {[ 0 := 0%nat; 1 := 1%nat; 2 := 2%nat ]} ∅.

Definition limit_config (clients executors : Z) : Config :=
  mkConfig 6379 10 clients 0 kNoEviction 5 25 10 20 executors false 4096 true 32 1.

(** The limit on the number of clients is checked when a connection is
    accepted and not when it is counted: with [maxclients] 2 and two client
    executors, a connection waiting in the queue of the second executor lets a
    third client in, and since the check is for equality no later connection
    is rejected while there are more. *)
Theorem client_limit_overshoot :
  ∃ es f, @front_run Tables _ false (limit_config 2 2)
            [FAccept 10; FAccept 11; FAccept 12; FRun 1; FAccept 13; FRun 1; FAccept 14]
            (initial_front (limit_config 2 2) std_tables) = Ok (es, f) ∧
    ActiveClients (manager f) = 5 ∧ rejected_connections f = 0.
Proof.
  match goal with |- ∃ es f, ?run = _ ∧ _ =>
    assert (match run with
            | Ok (_, f) => (ActiveClients (manager f) =? 5) && (rejected_connections f =? 0)
            | _ => false
            end = true) as E by (vm_compute; reflexivity);
    destruct run as [[es f]| |]; [|done..]
  end.
  apply andb_prop in E as [E1%Z.eqb_eq E2%Z.eqb_eq]. by exists es, f.
Qed.

Lemma accept_loop_accounting_witness :
  let c := limit_config 2 1 in
  let evs := [FAccept 10; FAccept 11; FAccept 12; FEnd 3; FAccept 13] in
  @front_run Tables _ false c evs (initial_front c std_tables) = Fault LogFatal ∨
  ∃ es f, @front_run Tables _ false c evs (initial_front c std_tables) = Ok (es, f) ∧
    connections_received f = Z.of_nat (length es) + rejected_connections f ∧
    Z.of_nat <$> es = round_robin 0 (client_executors c) (length es) ∧
    (client_executors c = 1 → ActiveClients (manager f) ≤ maxclients c).
Proof.
  intros c evs. apply (@accept_loop_accounting Tables _ false _ c std_tables evs).
  - vm_compute. discriminate.
  - vm_compute. discriminate.
  - vm_compute. by eexists.
  - vm_compute. reflexivity.
Defined.

Definition sample_front : Outcome (list nat * Front) :=
  @front_run Tables _ false (limit_config 4 2)
    [FAccept 10; FAccept 11; FAccept 12; FRun 1] (initial_front (limit_config 4 2) std_tables).

Lemma requests_reach_own_socket_witness :
  ∃ es f, sample_front = Ok (es, f) ∧
  (∀ i conn, clients_ (manager f) !! i = Some (Some conn) →
     ∃ e sock, executor_ conn = Some e ∧ fd_file (kernel f) (fd_ conn) = Some sock ∧
       (∀ data, target (kernel f) e (Send_request data conn) = Some sock) ∧
       (∀ iovecs, target (kernel f) e (Writev_request iovecs conn) = Some sock) ∧
       (∀ buffer r, @Recv_request false buffer conn = Ok r → target (kernel f) e r = Some sock)) ∧
  (∀ i j c1 c2 e, i ≠ j →
     clients_ (manager f) !! i = Some (Some c1) → clients_ (manager f) !! j = Some (Some c2) →
     executor_ c1 = Some e → executor_ c2 = Some e → 0 ≤ descripor_index_ c1 →
     descripor_index_ c1 ≠ descripor_index_ c2).
Proof.
  destruct sample_front as [[es f]| |] eqn:E; [|vm_compute in E; discriminate..].
  exists es, f. split; [done|].
  apply (@requests_reach_own_socket Tables _ false _ (limit_config 4 2) std_tables
           [FAccept 10; FAccept 11; FAccept 12; FRun 1] es f).
  - vm_compute. discriminate.
  - vm_compute. discriminate.
  - vm_compute. by eexists.
  - vm_compute. reflexivity.
  - exact E.
Defined.

(** The third descriptor, on the first executor, with the last slot but one. *)
Lemma sample_front_client :
  match sample_front with
  | Ok (_, f) =>
      match clients_ (manager f) !! 2%nat with
      | Some (Some conn) =>
          bool_decide (executor_ conn = Some 0%nat) && (0 <=? descripor_index_ conn)
      | _ => false
      end
  | _ => false
  end = true.
Proof. vm_compute. reflexivity. Qed.

Lemma closed_socket_stays_registered_witness :
  ∃ es f conn f' free sock, sample_front = Ok (es, f) ∧
    clients_ (manager f) !! 2%nat = Some (Some conn) ∧
    @End_client Tables _ false (fd_ conn) f = Ok f' ∧
    fd_file (kernel f) (fd_ conn) = Some sock ∧ fd_file (kernel f') (fd_ conn) = None ∧
    slots f' !! 0%nat = Some (free ++ [descripor_index_ conn]) ∧
    file_at (kernel f') 0 (descripor_index_ conn) = Some sock.
Proof.
  pose proof sample_front_client as Hs.
  destruct sample_front as [[es f]| |] eqn:E; [|discriminate..].
  destruct (clients_ (manager f) !! 2%nat) as [[conn|]|] eqn:Ec; [|discriminate..].
  apply andb_prop in Hs as [He%bool_decide_eq_true Hd%Z.leb_le].
  destruct (@closed_socket_stays_registered Tables _ false _ (limit_config 4 2) std_tables
           [FAccept 10; FAccept 11; FAccept 12; FRun 1] es f 2 conn 0) as (f' & free & sock & H).
  - vm_compute. discriminate.
  - vm_compute. discriminate.
  - vm_compute. by eexists.
  - vm_compute. reflexivity.
  - exact E.
  - exact Ec.
  - exact He.
  - exact Hd.
  - exists es, f, conn, f', free, sock. split; [reflexivity|]. split; [exact Ec|exact H].
Defined.

(** Were descriptor 0 free, [accept] could answer it: [RingAccept::await_resume]
    then gives neither an error nor a connection, and the null pointer is used. *)
Theorem accept_zero_faults {K : Type} `{!Files K} `{!BuildMode} c s (f : Front) k :
  fd_accept s (kernel f) = (0, k) → ActiveClients (manager f) = maxclients c →
  Accept_turn c s f = Fault NullDeref.
Proof. intros E Hm. unfold Accept_turn. rewrite E. simpl. by rewrite Hm, Z.eqb_refl. Qed.
