(* ===== verification/Echo.v ===== *)
(** * The echo server

    Model of the example program beside the server, on the same runtime
    (src/src/io/example/echo_server.cc): [Echo] and [RingBufferEcho], the
    coroutines of a connection, with and without the executor's receive buffers,
    [EchoServer::AcceptLoop], the constructor, [Run] and [main].

    A connection is served on one executor.  Between two suspension points its
    coroutine is a step: the completion of a receive or of a send.  In
    buffer-ring mode the bytes that are sent lie in the executor's ring memory,
    beside those of all other connections of the executor, until the view is
    handed back. *)

From S2P Require Import Prelude Bits Chars Config Buffer RingExecutor BufferRing Connection Ini Startup.

(** Where a coroutine is suspended. *)
Inductive phase :=
  | AwaitRecv
  | AwaitSend (n : nat)             (* the first bytes of its own buffer *)
  | AwaitSendView (v : BufferView). (* a view of the ring's memory *)

Record Peer := mkPeer {
  p_conn : Connection;
  p_exr : nat;
  p_buffer : bytes;                 (* std::array<char, 4096> *)
  p_phase : phase }.

Definition kEchoBuffer : nat := Z.to_nat 4096.

Inductive echo_event :=
  | EvAccept (s : nat)              (* a connection arrives *)
  | EvStart (e : nat)               (* executor [e] runs a coroutine sent to it *)
  | EvRecv (id : nat) (r : option bytes)
  | EvSend (id : nat) (result : Z).

(** What is seen at the sockets: bytes received, bytes sent and left over. *)
Inductive seen := SNothing | SReceived (id : nat) (chunk : bytes) | SSent (id : nat) (out left : bytes).

Section echo.
Context {K R : Type} `{!Files K} `{!BufRing R} `{!BuildMode}.
Implicit Types k : K.

Record Exr := mkExr {
  slots : list Z;
  bufs : option (Buffers R);
  queue : list (nat * Connection) }.

Record EchoServer := mkEcho {
  kernel : K;
  io_executors_ : list Exr;
  peers : gmap nat Peer;
  connections_ : Z;
  ce_index : Z;
  use_buf_recv_ : bool;
  accepted : nat }.
Implicit Types (w : EchoServer) (x : Exr) (p : Peer).

Definition set_exr (e : nat) x w : EchoServer :=
  mkEcho (kernel w) (<[e := x]> (io_executors_ w)) (peers w) (connections_ w) (ce_index w)
    (use_buf_recv_ w) (accepted w).
Definition set_peer (id : nat) (o : option Peer) w : EchoServer :=
  mkEcho (kernel w) (io_executors_ w) (partial_alter (λ _, o) id (peers w)) (connections_ w)
    (ce_index w) (use_buf_recv_ w) (accepted w).

(** From [ResumeOn(exr)] to the first receive. *)
Definition Echo_start (e id : nat) (conn : Connection) w : Outcome EchoServer :=
  x ← vec_get (io_executors_ w) (Z.of_nat e);
  '(conn, free, k) ← Setup e false (slots x) (kernel w) conn;
  Ok (mkEcho k (<[e := mkExr free (bufs x) (queue x)]> (io_executors_ w))
        (<[id := mkPeer conn e (replicate kEchoBuffer NUL) AwaitRecv]> (peers w))
        (connections_ w) (ce_index w) (use_buf_recv_ w) (accepted w)).

(** [ResumeOn] on executor [self]: at once on the same executor, a message to
    another. *)
Definition Echo_call (self e id : nat) (conn : Connection) w : Outcome EchoServer :=
  if (e =? self)%nat then Echo_start e id conn w
  else
    x ← vec_get (io_executors_ w) (Z.of_nat e);
    Ok (set_exr e (mkExr (slots x) (bufs x) (queue x ++ [(id, conn)])) w).

Definition kMaxConnections : Z := 10000.

(** A turn of [AcceptLoop], on executor 0. *)
Definition AcceptLoop_turn (s : nat) w : Outcome EchoServer :=
  let '(result, k) := fd_accept s (kernel w) in
  let w := mkEcho k (io_executors_ w) (peers w) (connections_ w) (ce_index w) (use_buf_recv_ w)
             (accepted w) in
  let '(error, conn) := Accept_resume result in
  if error =? 0 then
    if kMaxConnections <=? connections_ w then
      '(_, k) ← (match conn with Some conn => delete_Connection [] k conn | None => Ok ([], k) end);
      Ok (mkEcho k (io_executors_ w) (peers w) (connections_ w) (ce_index w) (use_buf_recv_ w)
            (accepted w))
    else
      _ ← vec_get (io_executors_ w) (ce_index w);
      let e := Z.to_nat (ce_index w) in
      next ← umod (ce_index w + 1) (Z.of_nat (length (io_executors_ w)));
      conn ← deref conn;   (* by [Setup], the first thing the coroutine does with it *)
      Echo_call 0 e (accepted w) conn
        (mkEcho k (io_executors_ w) (peers w) (u64 (connections_ w + 1)) next (use_buf_recv_ w)
           (S (accepted w)))
  else Ok w.

(** The end of the coroutine: the counter, then the destructor of [conn]. *)
Definition Echo_end (id : nat) p w : Outcome EchoServer :=
  x ← vec_get (io_executors_ w) (Z.of_nat (p_exr p));
  '(free, k) ← delete_Connection (slots x) (kernel w) (p_conn p);
  Ok (mkEcho k (<[p_exr p := mkExr free (bufs x) (queue x)]> (io_executors_ w)) (delete id (peers w))
        (u64 (connections_ w - 1)) (ce_index w) (use_buf_recv_ w) (accepted w)).

(** [Echo] after [Recv(buffer)]: the kernel has written at most 4096 bytes. *)
Definition Echo_received (id : nat) p (chunk : bytes) w : Outcome (seen * EchoServer) :=
  if bool_decide (chunk = []) then w ← Echo_end id p w; Ok (SNothing, w)
  else
    let buffer := chunk ++ drop (length chunk) (p_buffer p) in
    Ok (SReceived id chunk,
        set_peer id (Some (mkPeer (p_conn p) (p_exr p) buffer (AwaitSend (length chunk)))) w).

(** [RingBufferEcho] after [BufRecv(0)]: the kernel has selected a buffer, if
    there is data and a buffer. *)
Definition RingBufferEcho_received (id : nat) p (chunk : bytes) w : Outcome (seen * EchoServer) :=
  x ← vec_get (io_executors_ w) (Z.of_nat (p_exr p));
  B ← deref (bufs x);
  let '(result, flags, B) :=
    match (if bool_decide (chunk = []) then None else kernel_recv chunk B) with
    | Some (buf_id, B) => (Z.of_nat (length chunk), Z.lor (Z.shiftl buf_id IORING_CQE_BUFFER_SHIFT) IORING_CQE_F_BUFFER, B)
    | None => (0, 0, B)
    end in
  '(res, B) ← BufRecv_resume result flags 0 B;
  let w := set_exr (p_exr p) (mkExr (slots x) (Some B) (queue x)) w in
  match res with
  | None => w ← Echo_end id p w; Ok (SNothing, w)
  | Some v =>
      if (sv_size (view v) =? 0)%nat then w ← Echo_end id p w; Ok (SNothing, w)
      else Ok (SReceived id chunk, set_peer id (Some (mkPeer (p_conn p) (p_exr p) (p_buffer p) (AwaitSendView v))) w)
  end.

Definition recv_done (id : nat) (r : option bytes) w : Outcome (seen * EchoServer) :=
  match peers w !! id with
  | Some p =>
      match p_phase p with
      | AwaitRecv =>
          match r with
          | None => w ← Echo_end id p w; Ok (SNothing, w)
          | Some chunk =>
              let chunk := take kEchoBuffer chunk in
              if use_buf_recv_ w then RingBufferEcho_received id p chunk w
              else Echo_received id p chunk w
          end
      | _ => Ok (SNothing, w)
      end
  | None => Ok (SNothing, w)
  end.

(** The bytes a suspended send transmits. *)
Definition send_data p w : bytes :=
  match p_phase p with
  | AwaitRecv => []
  | AwaitSend n => take n (p_buffer p)
  | AwaitSendView v =>
      match io_executors_ w !! p_exr p ≫= bufs with Some B => view_bytes B v | None => [] end
  end.

(** After [Send]; only [RingBufferEcho] has a view to hand back, and only when
    the send succeeded. *)
Definition send_done (id : nat) (result : Z) w : Outcome (seen * EchoServer) :=
  match peers w !! id with
  | Some p =>
      let '(error, bytes_written) := io_result result in
      let data := send_data p w in
      let obs := SSent id (take (Z.to_nat bytes_written) data) (drop (Z.to_nat bytes_written) data) in
      let idle := mkPeer (p_conn p) (p_exr p) (p_buffer p) AwaitRecv in
      let stop := w ← Echo_end id p w; Ok (SNothing, w) in
      match p_phase p with
      | AwaitRecv => Ok (SNothing, w)
      | AwaitSend _ =>
          if bool_decide (is_Some error) || (bytes_written =? 0) then stop
          else Ok (obs, set_peer id (Some idle) w)
      | AwaitSendView v =>
          if bool_decide (is_Some error) || (bytes_written =? 0) then stop
          else
            x ← vec_get (io_executors_ w) (Z.of_nat (p_exr p));
            B ← deref (bufs x);
            B ← PutBufferView v B;
            Ok (obs, set_peer id (Some idle) (set_exr (p_exr p) (mkExr (slots x) (Some B) (queue x)) w))
      end
  | None => Ok (SNothing, w)
  end.

Definition start_queued (e : nat) w : Outcome EchoServer :=
  match io_executors_ w !! e with
  | Some (mkExr free b ((id, conn) :: q)) => Echo_start e id conn (set_exr e (mkExr free b q) w)
  | _ => Ok w
  end.

Definition echo_step (ev : echo_event) w : Outcome (seen * EchoServer) :=
  match ev with
  | EvAccept s => w ← AcceptLoop_turn s w; Ok (SNothing, w)
  | EvStart e => w ← start_queued e w; Ok (SNothing, w)
  | EvRecv id r => recv_done id r w
  | EvSend id result => send_done id result w
  end.

Fixpoint echo_run (evs : list echo_event) w : Outcome (list seen * EchoServer) :=
  match evs with
  | [] => Ok ([], w)
  | ev :: evs => '(o, w) ← echo_step ev w; '(obs, w) ← echo_run evs w; Ok (o :: obs, w)
  end.
End echo.
Arguments EchoServer : clear implicits.
Arguments Exr : clear implicits.

(** ** Starting the program *)

Section start.
Context {K : Type} `{!Os K}.
Implicit Types k : K.

(** The constructor: the executors, then the listener on the first. *)
Definition EchoServer_construct (port num_executors : Z) k : Outcome (Z * K) :=
  let io_executors := CreateMany num_executors 0 (lit "io_exr_") default_config in
  k ← start_all io_executors k;
  _ ← vec_get io_executors 0;
  Listener_Create port k.

(** [Run] up to the accept loop, the calls of the operating system. *)
Definition EchoServer_Run k : Outcome K :=
  let '(_, k) := SetNofileLimit (2 ^ 16 - 1) k in
  let '(ret, k) := os_ring_init 16 0 false k in
  _ ← must (ret =? 0); Ok k.

(** [std::atol] and [std::atoi]: the number at the start, 0 if there is none;
    beyond the type the behaviour is undefined. *)
Definition ato (min max : Z) (s : bytes) : Outcome Z :=
  let '(sign, s) := strip_sign (ltrim s) in
  let v := sign * digits_val 0 (scan_digits s).1 in
  if (min <=? v) && (v <=? max) then Ok v else Fault SignedOverflow.
Definition atol : bytes → Outcome Z := ato (- 2 ^ 63) (2 ^ 63 - 1).
Definition atoi : bytes → Outcome Z := ato (- 2 ^ 31) (2 ^ 31 - 1).

(** [main]: [None] after the usage message, else whether receive buffers are
    used, and the listening socket. *)
Definition echo_main (argv : list bytes) k : Outcome (option (bool * Z) * K) :=
  let argc := length argv in
  if (argc <? 2)%nat then Ok (None, k)
  else
    num_io_executors ←
      (if (argc =? 4)%nat then s ← vec_get argv 3; n ← atol s; Ok (u64 n) else Ok 1);
    s ← vec_get argv 1;
    port ← atoi s;
    '(fd, k) ← EchoServer_construct port num_io_executors k;
    let use_buf_recv := (3 <=? argc)%nat && bool_decide (argv !! 2%nat ≫= head = Some "1"%char) in
    k ← EchoServer_Run k;
    Ok (Some (use_buf_recv, fd), k).
End start.
