(* ===== verification/EchoThms.v ===== *)
(** * Correctness of the echo server

    The invariant of [Echo]: connections are counted and within the limit, and
    every view a connection is sending shows the bytes it received.  What a
    connection sends is what it has received ([echo_streams]). *)

From S2P Require Import Prelude Bits Chars Config Buffer RingExecutor BufferRing Connection Acceptor Ini Startup Echo.

Section echo.
Context {K R : Type} `{!Files K} `{!FilesLaws K} `{!BufRing R} `{!BufRingLaws R} `{!BuildMode}.
Implicit Types (k : K) (w : EchoServer K R) (x : Exr R) (p : Peer) (m : gmap nat Peer).

(** ** The invariant *)

Definition queued w : list (nat * Connection) := concat (queue <$> io_executors_ w).

Definition peer_views (e : nat) p : list BufferView :=
  match p_phase p with AwaitSendView v => if (p_exr p =? e)%nat then [v] else [] | _ => [] end.
Definition views (e : nat) m : list BufferView := map_to_list m ≫= λ q, peer_views e q.2.

Definition phase_ok (ring : bool) p : Prop :=
  match p_phase p with
  | AwaitRecv => True
  | AwaitSend n => ring = false ∧ (n ≤ length (p_buffer p))%nat
  | AwaitSendView _ => ring = true
  end.

(** The buffers of executor [e]: the views its connections are sending are held,
    beside those that were never handed back. *)
Definition bufs_ok (e : nat) m x : Prop :=
  ∃ B l lost, bufs x = Some B ∧ ring_inv (B, l) ∧ l.*1 ≡ₚ views e m ++ lost.

(** [extra] are connections accepted whose coroutine is about to start. *)
Record echo_inv (extra : list (nat * Connection)) w : Prop := {
  ei_count : connections_ w = Z.of_nat (size (peers w) + length (extra ++ queued w));
  ei_limit : connections_ w ≤ kMaxConnections;
  ei_index : 0 ≤ ce_index w < Z.of_nat (length (io_executors_ w));
  ei_peer id p : peers w !! id = Some p →
    (id < accepted w)%nat ∧ (p_exr p < length (io_executors_ w))%nat ∧ phase_ok (use_buf_recv_ w) p;
  ei_queued id conn : (id, conn) ∈ extra ++ queued w →
    (id < accepted w)%nat ∧ peers w !! id = None ∧ descripor_index_ conn = -1;
  ei_nodup : NoDup (extra ++ queued w).*1;
  ei_bufs e x : io_executors_ w !! e = Some x → use_buf_recv_ w = true → bufs_ok e (peers w) x }.

#[global] Instance views_perm e :
  Proper ((≡ₚ) ==> (≡ₚ)) (λ l : list (nat * Peer), l ≫= λ q, peer_views e q.2).
Proof. intros l1 l2 Hl. by apply bind_Permutation. Qed.

Lemma views_insert e m id p : m !! id = None → views e (<[id := p]> m) ≡ₚ peer_views e p ++ views e m.
Proof. intros Hn. unfold views. by rewrite map_to_list_insert. Qed.
Lemma views_delete e m id p : m !! id = Some p → views e m ≡ₚ peer_views e p ++ views e (delete id m).
Proof. intros Hp. rewrite <- views_insert by apply lookup_delete_eq. by rewrite insert_delete_id. Qed.
Lemma views_set e m id p q :
  m !! id = Some p → views e (<[id := q]> m) ≡ₚ peer_views e q ++ views e (delete id m).
Proof. intros Hp. rewrite <- insert_delete_eq. apply views_insert, lookup_delete_eq. Qed.

Lemma bufs_ok_lose e m x id p : m !! id = Some p → bufs_ok e m x → bufs_ok e (delete id m) x.
Proof.
  intros Hp (B & l & lost & Hx & Hinv & E). exists B, l, (peer_views e p ++ lost). split_and!; [done..|].
  by rewrite E, (views_delete e m id p Hp), app_assoc, (Permutation_app_comm (peer_views e p)).
Qed.

Lemma bufs_ok_views e m m' x : views e m' ≡ₚ views e m → bufs_ok e m x → bufs_ok e m' x.
Proof. intros E (B & l & lost & Hx & Hinv & E'). exists B, l, lost. by rewrite E. Qed.

(** ** What a connection has to send *)

Definition pend (id : nat) w : option bytes := (λ p, send_data p w) <$> peers w !! id.
Definition fresh (id : nat) w : Prop := (accepted w ≤ id)%nat ∨ id ∈ (queued w).*1.

Definition about (id : nat) (o : seen) : Prop :=
  match o with SNothing => False | SReceived i _ | SSent i _ _ => i = id end.

Record effect (o : seen) w w' : Prop := {
  ef_fresh id : fresh id w' → fresh id w;
  ef_other id : ¬ about id o →
    pend id w' = pend id w ∨ pend id w' = None ∨ (fresh id w ∧ pend id w' = Some []);
  ef_received id c : o = SReceived id c → pend id w = Some [] ∧ pend id w' = Some c;
  ef_sent id out left : o = SSent id out left → pend id w = Some (out ++ left) ∧ pend id w' = Some [] }.

(** What is pending depends on the connection and its executor's buffers. *)
Definition bufs_at (e : nat) w : option (Buffers R) := io_executors_ w !! e ≫= bufs.

Lemma pend_frame id w w' :
  peers w' !! id = peers w !! id →
  (∀ p v, peers w !! id = Some p → p_phase p = AwaitSendView v →
     (λ B, view_bytes B v) <$> bufs_at (p_exr p) w' = (λ B, view_bytes B v) <$> bufs_at (p_exr p) w) →
  pend id w' = pend id w.
Proof.
  intros E Hb. unfold pend. rewrite E. destruct (peers w !! id) as [p|] eqn:Hp; [|done]. simpl. f_equal.
  unfold send_data. specialize (Hb p). destruct (p_phase p) as [| |v]; [done..|].
  specialize (Hb v eq_refl eq_refl). unfold bufs_at in Hb.
  destruct (io_executors_ w' !! p_exr p ≫= bufs), (io_executors_ w !! p_exr p ≫= bufs); simpl in Hb;
    try done. by injection Hb.
Qed.

Lemma bufs_at_set e x x' w w' :
  io_executors_ w !! e = Some x → io_executors_ w' = <[e := x']> (io_executors_ w) → bufs x' = bufs x →
  ∀ e', bufs_at e' w' = bufs_at e' w.
Proof.
  intros Hx Hw Hb e'. unfold bufs_at. rewrite Hw. destruct (decide (e' = e)) as [->|Hne].
  - rewrite list_lookup_insert_eq by (by eapply lookup_lt_Some). by rewrite Hx.
  - by rewrite list_lookup_insert_ne.
Qed.

(** Executors that keep their queues. *)
Lemma queued_set e x x' w w' :
  io_executors_ w !! e = Some x → io_executors_ w' = <[e := x']> (io_executors_ w) → queue x' = queue x →
  queued w' = queued w.
Proof.
  intros Hx Hw Hq. unfold queued. rewrite Hw. f_equal. rewrite list_fmap_insert, Hq.
  apply list_insert_id. by rewrite list_lookup_fmap, Hx.
Qed.

(** ** The end of a connection *)

Lemma delete_conn free k (conn : Connection) : ∃ free' k', delete_Connection free k conn = Ok (free', k').
Proof.
  unfold delete_Connection. destruct (Close k conn) as [conn' k'].
  destruct (Z.leb_spec 0 (descripor_index_ conn')) as [Hd|]; [|by eexists _, _].
  unfold UnregisterFd. rewrite cassert_true by (by apply Z.leb_le). by eexists _, _.
Qed.

Lemma end_ok id p w :
  echo_inv [] w → peers w !! id = Some p →
  ∃ w', Echo_end id p w = Ok w' ∧ echo_inv [] w' ∧ effect SNothing w w'.
Proof.
  intros [Hc Hl Hi Hp Hq Hn Hb] Hid. destruct (Hp id p Hid) as (Hlt & He & _).
  destruct (lookup_lt_is_Some_2 _ _ He) as [x Hx]. unfold Echo_end. step (vec_get_nat _ _ _ Hx).
  destruct (delete_conn (slots x) (kernel w) (p_conn p)) as (free & k & Hd). step Hd.
  set (x' := mkExr free (bufs x) (queue x)). eexists. split; [done|].
  set (w' := mkEcho _ _ _ _ _ _ _).
  assert (queued w' = queued w) as Hqw by (by eapply (queued_set (p_exr p) x x')).
  assert (0 < size (peers w))%nat as Hsz.
  { destruct (size (peers w)) eqn:E; [|lia]. apply map_size_empty_inv in E. by rewrite E, lookup_empty in Hid. }
  split.
  - split; rewrite ?Hqw; simpl; rewrite ?length_insert; try done.
    + rewrite map_size_delete_Some by done. unfold kMaxConnections in *. simpl in Hc. rewrite u64_small; lia.
    + unfold kMaxConnections in *. simpl in Hc. rewrite u64_small; lia.
    + intros id' p' [_ Hp']%lookup_delete_Some. by apply Hp.
    + intros id' conn Hin. destruct (Hq id' conn Hin) as (? & Hno & ?). split_and!; [done| |done].
      apply lookup_delete_None. by right.
    + intros e y Hy Hring. destruct (decide (e = p_exr p)) as [->|Hne].
      * rewrite list_lookup_insert_eq in Hy by done. injection Hy as <-.
        exact (bufs_ok_lose _ _ _ _ _ Hid (Hb _ _ Hx Hring)).
      * rewrite list_lookup_insert_ne in Hy by done. exact (bufs_ok_lose _ _ _ _ _ Hid (Hb _ _ Hy Hring)).
  - split; try done.
    + intros id'. unfold fresh. rewrite Hqw. done.
    + intros id' _. destruct (decide (id' = id)) as [->|Hne].
      * right. left. unfold pend. simpl. by rewrite lookup_delete_eq.
      * left. apply pend_frame; [simpl; by rewrite lookup_delete_ne|]. intros q v _ _.
        by rewrite (bufs_at_set (p_exr p) x x' w w').
Qed.

(** ** The start of a connection *)

Lemma Setup_cases (e : nat) free k (conn : Connection) :
  descripor_index_ conn = -1 →
  Setup e false free k conn = Fault LogFatal ∨ ∃ conn' free' k', Setup e false free k conn = Ok (conn', free', k').
Proof.
  intros Hd. unfold Setup, TryRegisterFD, RegisterFd, UsingDirectDescriptor. simpl. rewrite Hd. simpl.
  rewrite cassert_true by done. cbn [mbind outcome_bind]. destruct (last free) as [i|].
  - destruct (files_update e i (fd_ conn) k) as [ret k']. destruct (negb (ret =? 1)); [by left|right].
    by eexists _, _, _.
  - right. by eexists _, _, _.
Qed.

Lemma echo_start_ok e id conn extra w :
  echo_inv ((id, conn) :: extra) w → (e < length (io_executors_ w))%nat →
  Echo_start e id conn w = Fault LogFatal ∨
  ∃ w', Echo_start e id conn w = Ok w' ∧ echo_inv extra w' ∧ queued w' = queued w ∧
    accepted w' = accepted w ∧ pend id w' = Some [] ∧ ∀ id', id' ≠ id → pend id' w' = pend id' w.
Proof.
  intros [Hc Hl Hi Hp Hq Hn Hb] He. destruct (lookup_lt_is_Some_2 _ _ He) as [x Hx].
  destruct (Hq id conn ltac:(by left)) as (Hlt & Hno & Hd).
  unfold Echo_start. step (vec_get_nat _ _ _ Hx).
  destruct (Setup_cases e (slots x) (kernel w) conn Hd) as [->|(conn' & free & k & Hs)]; [by left|right].
  step Hs. set (x' := mkExr free (bufs x) (queue x)). set (p := mkPeer conn' e _ AwaitRecv).
  eexists. split; [done|]. set (w' := mkEcho _ _ _ _ _ _ _).
  assert (queued w' = queued w) as Hqw by (by eapply (queued_set e x x')).
  assert (∀ e', views e' (<[id := p]> (peers w)) ≡ₚ views e' (peers w)) as Hv
    by (intros e'; by rewrite views_insert).
  simpl in Hn. apply NoDup_cons in Hn as [Hni Hn]. split_and!; try done.
  - split; rewrite ?Hqw; simpl; rewrite ?length_insert; try done.
    + rewrite map_size_insert_None by done. rewrite Hc. simpl. lia.
    + intros id' q [[<- <-]|[_ Hq']]%lookup_insert_Some; [done|by apply Hp].
    + intros id' c' Hin. destruct (Hq id' c' ltac:(by right)) as (? & ? & ?). split_and!; [done| |done].
      rewrite lookup_insert_ne; [done|]. intros ->. apply Hni. exact (list_elem_of_fmap_2 fst _ _ Hin).
    + intros e' y Hy Hring. destruct (decide (e' = e)) as [->|Hne].
      * rewrite list_lookup_insert_eq in Hy by done. injection Hy as <-.
        exact (bufs_ok_views _ _ _ _ (Hv e) (Hb _ _ Hx Hring)).
      * rewrite list_lookup_insert_ne in Hy by done. exact (bufs_ok_views _ _ _ _ (Hv e') (Hb _ _ Hy Hring)).
  - unfold pend. simpl. by rewrite lookup_insert_eq.
  - intros id' Hne. apply pend_frame; [simpl; by rewrite lookup_insert_ne|]. intros q v _ _.
    by rewrite (bufs_at_set e x x' w w').
Qed.

(** Changes of the queue of an executor. *)
Lemma queued_cons e x q w :
  io_executors_ w !! e = Some x → queued (set_exr e (mkExr (slots x) (bufs x) (queue x ++ [q])) w) ≡ₚ q :: queued w.
Proof.
  intros Hx. unfold queued. simpl. rewrite list_fmap_insert. simpl.
  rewrite (insert_take_drop _ e) by (rewrite length_fmap; by eapply lookup_lt_Some).
  rewrite <- (take_drop_middle (queue <$> io_executors_ w) e (queue x)) at 3
    by (by rewrite list_lookup_fmap, Hx).
  rewrite !concat_app. simpl. rewrite <- app_assoc. simpl. by rewrite !Permutation_middle.
Qed.

Lemma queued_uncons e x q l w :
  io_executors_ w !! e = Some x → queue x = q :: l →
  queued w ≡ₚ q :: queued (set_exr e (mkExr (slots x) (bufs x) l) w).
Proof.
  intros Hx Hl. unfold queued. simpl. rewrite list_fmap_insert. simpl.
  rewrite (insert_take_drop _ e) by (rewrite length_fmap; by eapply lookup_lt_Some).
  rewrite <- (take_drop_middle (queue <$> io_executors_ w) e (queue x)) at 1
    by (by rewrite list_lookup_fmap, Hx).
  rewrite !concat_app, Hl. simpl. symmetry. apply Permutation_middle.
Qed.

(** The same connections are accounted for, those to start in another order. *)
Lemma echo_inv_move extra extra' e x x' w :
  echo_inv extra w → io_executors_ w !! e = Some x → bufs x' = bufs x →
  extra' ++ queued (set_exr e x' w) ≡ₚ extra ++ queued w → echo_inv extra' (set_exr e x' w).
Proof.
  intros [Hc Hl Hi Hp Hq Hn Hb] Hx Hbx E. split; try done.
  - by rewrite E.
  - simpl. by rewrite length_insert.
  - simpl. by rewrite length_insert.
  - intros id conn. rewrite E. apply Hq.
  - by rewrite E.
  - simpl. intros e' y Hy Hring. destruct (decide (e' = e)) as [->|Hne].
    + rewrite list_lookup_insert_eq in Hy by (by eapply lookup_lt_Some). injection Hy as <-.
      destruct (Hb _ _ Hx Hring) as (B & l & lost & ? & ? & ?). exists B, l, lost. by rewrite Hbx.
    + rewrite list_lookup_insert_ne in Hy by done. by apply Hb.
Qed.

(** Nothing changes but what the kernel knows. *)
Lemma effect_same w w' :
  peers w' = peers w → io_executors_ w' = io_executors_ w → accepted w' = accepted w → effect SNothing w w'.
Proof.
  intros Hp He Ha. assert (queued w' = queued w) as Hq by (unfold queued; by rewrite He). split; try done.
  - intros id. unfold fresh. by rewrite Hq, Ha.
  - intros id _. left. apply pend_frame; [by rewrite Hp|]. intros. unfold bufs_at. by rewrite He.
Qed.

Lemma queue_effect e x x' w :
  io_executors_ w !! e = Some x → bufs x' = bufs x → ∀ id, pend id (set_exr e x' w) = pend id w.
Proof.
  intros Hx Hb id. apply pend_frame; [done|]. intros p v _ _. by rewrite (bufs_at_set e x x' w).
Qed.

Lemma started_effect id w w' :
  fresh id w → queued w' = queued w ∨ (∃ q, queued w ≡ₚ q :: queued w') →
  (accepted w ≤ accepted w')%nat → pend id w' = Some [] → (∀ id', id' ≠ id → pend id' w' = pend id' w) →
  effect SNothing w w'.
Proof.
  intros Hf Hq Ha Hid Ho. split; try done.
  - intros id' [Hlt|Hin]; [left; lia|right]. destruct Hq as [<-|(q & ->)]; [done|by right].
  - intros id' _. destruct (decide (id' = id)) as [->|Hne]; [right; right; by split|left; by apply Ho].
Qed.

Lemma accept_ok s w :
  echo_inv [] w →
  AcceptLoop_turn s w = Fault LogFatal ∨
  ∃ w', AcceptLoop_turn s w = Ok w' ∧ echo_inv [] w' ∧ effect SNothing w w'.
Proof.
  intros Hinv. unfold AcceptLoop_turn. pose proof (fd_accept_ne s (kernel w)) as Hne.
  destruct (fd_accept s (kernel w)) as [fd k]. simpl in Hne. unfold Accept_resume.
  pose proof Hinv as [Hc Hl Hi Hp Hq Hn Hb].
  cbn [kernel io_executors_ peers connections_ ce_index use_buf_recv_ accepted].
  assert (∀ k', echo_inv [] (mkEcho k' (io_executors_ w) (peers w) (connections_ w) (ce_index w)
    (use_buf_recv_ w) (accepted w))) as Hkern by (intros k'; by split).
  destruct (Z.ltb_spec 0 fd);
    [|right; rewrite Zeqb_f by lia; eexists; split; [done|]; by split; [|apply effect_same]].
  destruct (Z.leb_spec kMaxConnections (connections_ w)) as [Hmax|Hroom].
  { right. destruct (delete_conn [] k (new_Connection fd)) as (free & k' & Hd). step Hd.
    eexists; split; [done|]. by split; [|apply effect_same]. }
  set (e := Z.to_nat (ce_index w)). assert (e < length (io_executors_ w))%nat as He by lia.
  destruct (lookup_lt_is_Some_2 _ _ He) as [x Hx]. rewrite (vec_get_Ok _ _ x) by (done || lia).
  cbn [mbind outcome_bind]. rewrite umod_Ok by lia. cbn [mbind outcome_bind deref].
  set (w1 := mkEcho _ _ _ _ _ _ _). set (conn := new_Connection fd).
  assert (echo_inv [(accepted w, conn)] w1) as Hinv1.
  { change (queued w) with (queued w1) in *. split; simpl; try done.
    - unfold kMaxConnections in *. simpl in Hc. rewrite u64_small by lia. simpl. lia.
    - unfold kMaxConnections in *. rewrite u64_small by lia. lia.
    - apply Z.mod_pos_bound. lia.
    - intros id p Hip. destruct (Hp id p Hip) as (? & ? & ?). split_and!; [lia|done|done].
    - intros id c' [[= -> ->]|Hin]%elem_of_cons.
      + split_and!; [lia| |done]. destruct (peers w !! accepted w) as [p|] eqn:E; [|done].
        destruct (Hp _ _ E). lia.
      + destruct (Hq id c' Hin) as (? & ? & ?). split_and!; [lia|done|done].
    - apply NoDup_cons. split; [|done]. intros ([id c'] & Ei & Hin)%list_elem_of_fmap. simpl in Ei. subst id.
      destruct (Hq _ _ Hin). lia. }
  assert (∀ id, pend id w1 = pend id w) as Hpend by (intros id; by apply pend_frame).
  assert (fresh (accepted w) w) as Hfr by (left; lia).
  unfold Echo_call. destruct (Nat.eqb_spec e 0) as [He0|He0].
  - destruct (echo_start_ok e (accepted w) conn [] w1 Hinv1 He) as [->|(w' & -> & Hinv' & Hqw & Ha & Hid & Ho)];
      [by left|right]. exists w'. split_and!; [done|done|].
    apply (started_effect (accepted w)); try done; [by left|rewrite Ha; simpl; lia].
  - right. step (vec_get_nat _ _ _ Hx). eexists. split; [done|].
    assert (queued (set_exr e (mkExr (slots x) (bufs x) (queue x ++ [(accepted w, conn)])) w1)
            ≡ₚ (accepted w, conn) :: queued w) as Hqq by (apply (queued_cons e x _ w1); done).
    split; [by eapply (echo_inv_move [(accepted w, conn)])|]. split; try done.
    + intros id [Hlt|Hin]; [left; simpl in Hlt; lia|]. rewrite Hqq in Hin. simpl in Hin.
      apply elem_of_cons in Hin as [->|Hin]; [done|by right].
    + intros id _. left. by rewrite (queue_effect e x _ w1).
Qed.

Lemma queued_start_ok e w :
  echo_inv [] w →
  start_queued e w = Fault LogFatal ∨
  ∃ w', start_queued e w = Ok w' ∧ echo_inv [] w' ∧ effect SNothing w w'.
Proof.
  intros Hinv. unfold start_queued.
  destruct (io_executors_ w !! e) as [[free b [|[id conn] q]]|] eqn:Hx;
    [right; exists w; by split_and!; [..|apply effect_same]| |right; exists w; by split_and!; [..|apply effect_same]].
  set (w1 := set_exr e (mkExr free b q) w).
  pose proof (queued_uncons e _ (id, conn) q w Hx eq_refl) as Hq. simpl in Hq. fold w1 in Hq.
  assert (echo_inv [(id, conn)] w1) as Hinv1 by (by eapply (echo_inv_move []); [| | |rewrite Hq]).
  destruct (echo_start_ok e id conn [] w1 Hinv1) as [->|(w' & -> & Hinv' & Hqw & Ha & Hid & Ho)];
    [simpl; rewrite length_insert; by eapply lookup_lt_Some|by left|right].
  exists w'. split_and!; [done|done|]. apply (started_effect id); try done.
  - right. rewrite Hq. by left.
  - right. exists (id, conn). by rewrite Hqw.
  - by rewrite Ha.
  - intros id' Hne. rewrite Ho by done. exact (queue_effect e _ (mkExr free b q) w Hx eq_refl id').
Qed.

(** ** Receiving and sending *)

(** A connection goes on, with new buffers of its executor. *)
Lemma peer_inv id p p' x x' w :
  echo_inv [] w → peers w !! id = Some p → io_executors_ w !! p_exr p = Some x →
  p_exr p' = p_exr p → phase_ok (use_buf_recv_ w) p' → queue x' = queue x →
  (use_buf_recv_ w = true → bufs_ok (p_exr p) (<[id := p']> (peers w)) x') →
  echo_inv [] (set_peer id (Some p') (set_exr (p_exr p) x' w)).
Proof.
  intros [Hc Hl Hi Hp Hq Hn Hb] Hid Hx Hpe Hph Hqx Hbx.
  set (w1 := set_exr (p_exr p) x' w).
  assert (queued (set_peer id (Some p') w1) = queued w) as Hqw by (by eapply (queued_set (p_exr p) x x')).
  assert (peers (set_peer id (Some p') w1) = <[id := p']> (peers w)) as Hpw by done.
  assert (id < accepted w ∧ p_exr p < length (io_executors_ w))%nat as [Hlt He] by (by destruct (Hp _ _ Hid) as (? & ? & _)).
  split; rewrite ?Hqw, ?Hpw; simpl; rewrite ?length_insert; try done.
  - rewrite map_size_insert_Some by done. done.
  - intros id' q [[<- <-]|[_ Hq']]%lookup_insert_Some; [|by apply Hp]. rewrite Hpe. done.
  - intros id' c' Hin. destruct (Hq id' c' Hin) as (? & Hno & ?). split_and!; [done| |done].
    rewrite lookup_insert_ne; [done|]. congruence.
  - intros e y Hy Hring. destruct (decide (e = p_exr p)) as [->|Hne].
    + rewrite list_lookup_insert_eq in Hy by done. injection Hy as <-. by apply Hbx.
    + rewrite list_lookup_insert_ne in Hy by done. apply (bufs_ok_views e (peers w)); [|by apply Hb].
      rewrite (views_set e _ _ _ _ Hid), (views_delete e _ _ _ Hid). f_equiv. unfold peer_views. rewrite Hpe.
      rewrite (proj2 (Nat.eqb_neq (p_exr p) e)) by done. by repeat case_match.
Qed.

(** The views of an executor's connections show what they showed. *)
Lemma peer_effect id p p' x x' o w :
  echo_inv [] w → peers w !! id = Some p → io_executors_ w !! p_exr p = Some x → queue x' = queue x →
  (∀ v, v ∈ views (p_exr p) (delete id (peers w)) →
     (λ B, view_bytes B v) <$> bufs x' = (λ B, view_bytes B v) <$> bufs x) →
  (∀ i, about i o → i = id) →
  let w' := set_peer id (Some p') (set_exr (p_exr p) x' w) in
  (match o with
   | SNothing => False
   | SReceived _ c => pend id w = Some [] ∧ pend id w' = Some c
   | SSent _ out rest => pend id w = Some (out ++ rest) ∧ pend id w' = Some []
   end) → effect o w w'.
Proof.
  intros Hinv Hid Hx Hqx Hv Ho w' Hobs.
  assert (queued w' = queued w) as Hqw by (by eapply (queued_set (p_exr p) x x')).
  split.
  - intros id'. unfold fresh. by rewrite Hqw.
  - intros id' Hab. left. assert (id' ≠ id) as Hne.
    { intros ->. destruct o as [|i c|i out left]; [done|..]; by rewrite (Ho i eq_refl) in Hab. }
    apply pend_frame; [unfold w', set_peer; simpl; by rewrite lookup_partial_alter_ne|].
    intros q v Hq Hph. unfold bufs_at, w'. simpl.
    destruct (decide (p_exr q = p_exr p)) as [E|Hne'].
    + rewrite E, list_lookup_insert_eq by (by eapply lookup_lt_Some). rewrite Hx. simpl. apply Hv.
      rewrite (views_delete _ _ id' q) by (by rewrite lookup_delete_ne). apply elem_of_app. left.
      unfold peer_views. rewrite Hph, E, Nat.eqb_refl. by left.
    + by rewrite list_lookup_insert_ne.
  - intros i c ->. by rewrite (Ho i eq_refl).
  - intros i out left ->. by rewrite (Ho i eq_refl).
Qed.

Lemma set_peer_here id o e x w :
  io_executors_ w !! e = Some x → set_peer id o w = set_peer id o (set_exr e x w).
Proof. intros Hx. unfold set_peer, set_exr. simpl. by rewrite list_insert_id. Qed.

Lemma own_received_ok id p chunk w :
  echo_inv [] w → peers w !! id = Some p → p_phase p = AwaitRecv → use_buf_recv_ w = false →
  ∃ o w', Echo_received id p chunk w = Ok (o, w') ∧ echo_inv [] w' ∧ effect o w w'.
Proof.
  intros Hinv Hid Hph Hring. unfold Echo_received. case_bool_decide as Hne.
  { destruct (end_ok id p w Hinv Hid) as (w' & Hw & ? & ?). step Hw. by eexists _, _. }
  destruct (ei_peer _ _ Hinv id p Hid) as (_ & He & _). destruct (lookup_lt_is_Some_2 _ _ He) as [x Hx].
  eexists _, _. split; [done|]. rewrite (set_peer_here _ _ _ _ _ Hx). split.
  - apply (peer_inv id p _ x); try done.
    + split; [done|]. simpl. rewrite length_app. lia.
    + by rewrite Hring.
  - apply (peer_effect id p _ x); try done. split; unfold pend; simpl.
    + rewrite Hid. simpl. unfold send_data. by rewrite Hph.
    + rewrite lookup_partial_alter_eq. simpl. unfold send_data. simpl. by rewrite take_app_length.
Qed.

(** The flags of a completion name the entry. *)
Lemma buffer_flags id :
  let flags := Z.lor (Z.shiftl id IORING_CQE_BUFFER_SHIFT) IORING_CQE_F_BUFFER in
  Z.shiftr flags IORING_CQE_BUFFER_SHIFT = id ∧ Z.land flags IORING_CQE_F_BUFFER ≠ 0.
Proof.
  cbv zeta. unfold IORING_CQE_BUFFER_SHIFT, IORING_CQE_F_BUFFER. split.
  - rewrite Z.shiftr_lor, Z.shiftr_shiftl_l by lia. simpl. apply Z.lor_0_r.
  - intros E. assert (Z.testbit (Z.land (Z.lor (Z.shiftl id 16) 1) 1) 0 = true) as Ht
      by (rewrite Z.land_spec, Z.lor_spec; simpl; by rewrite orb_true_r).
    by rewrite E in Ht.
Qed.

Lemma held_view B l v : ring_inv (B, l) → v ∈ l.*1 → ∃ s, (v, s) ∈ l ∧ view_bytes B v = s.
Proof.
  intros [_ _ Hh] ([v' s] & -> & Hin)%list_elem_of_fmap. exists s. split; [done|].
  simpl in Hh. rewrite Forall_forall in Hh. exact (held_view_bytes B (v', s) (Hh _ Hin)).
Qed.

(** A receive into the ring's memory. *)
Lemma ring_received B l chunk buf_id B1 :
  ring_inv (B, l) → chunk ≠ [] → kernel_recv chunk B = Some (buf_id, B1) →
  ∃ v B2, GetBufferView buf_id (Z.of_nat (length chunk)) 0 B1 = Ok (v, B2) ∧
    ring_inv (B2, l ++ [(v, chunk)]) ∧ sv_size (view v) = length chunk.
Proof.
  intros Hinv Hne Hk. destruct (ring_step_recv B l chunk Hinv Hne) as (st & Hst & Hinv' & _).
  simpl in Hst. rewrite Hk in Hst. apply bind_Ok_inv in Hst as ([v B2] & Hg & [= <-]).
  exists v, B2. split_and!; [done..|]. pose proof (ri_held _ Hinv') as Hh. simpl in Hh.
  apply Forall_app in Hh as [_ [(id & _ & _ & Hv & _) _]%Forall_cons]. simpl in Hv. by rewrite Hv.
Qed.

Lemma ring_received_ok id p chunk w :
  echo_inv [] w → peers w !! id = Some p → p_phase p = AwaitRecv → use_buf_recv_ w = true →
  (length chunk ≤ kEchoBuffer)%nat →
  ∃ o w', RingBufferEcho_received id p chunk w = Ok (o, w') ∧ echo_inv [] w' ∧ effect o w w'.
Proof.
  intros Hinv Hid Hph Hring Hlen. unfold RingBufferEcho_received.
  destruct (ei_peer _ _ Hinv id p Hid) as (_ & He & _). destruct (lookup_lt_is_Some_2 _ _ He) as [x Hx].
  step (vec_get_nat _ _ _ Hx). destruct (ei_bufs _ _ Hinv _ _ Hx Hring) as (B & l & lost & Hb & Hri & E).
  rewrite Hb. cbn [deref mbind outcome_bind].
  destruct (if bool_decide (chunk = []) then None else kernel_recv chunk B) as [[buf_id B1]|] eqn:Hk.
  - case_bool_decide as Hne; [done|]. destruct (buffer_flags buf_id) as [Hs Hf]. cbv zeta in Hs, Hf.
    destruct (ring_received B l chunk buf_id B1 Hri Hne Hk) as (v & B2 & Hg & Hri' & Hsz).
    unfold BufRecv_resume. rewrite Zeqb_f by exact Hf. rewrite Hs, u64_small by (unfold kEchoBuffer in Hlen; lia).
    rewrite (bind_Ok _ _ _ Hg). cbn [mbind outcome_bind].
    assert ((sv_size (view v) =? 0)%nat = false) as -> 
      by (apply Nat.eqb_neq; rewrite Hsz; by destruct chunk).
    eexists _, _. split; [done|]. set (p' := mkPeer _ _ _ (AwaitSendView v)). split.
    + apply (peer_inv id p p' x); try done. intros _. exists B2, (l ++ [(v, chunk)]), lost.
      split_and!; [done|done|]. rewrite fmap_app, E, (views_set _ _ _ _ _ Hid), (views_delete _ _ _ _ Hid).
      unfold peer_views. rewrite Hph. simpl. rewrite Nat.eqb_refl. simpl. by rewrite <- Permutation_cons_append.
    + apply (peer_effect id p p' x); try done.
      * intros v' Hv'. rewrite Hb. simpl. f_equal.
        assert (v' ∈ l.*1) as Hin by (rewrite E, (views_delete _ _ _ _ Hid); set_solver).
        destruct (held_view B l v' Hri Hin) as (s & Hs' & ->). pose proof (ri_held _ Hri') as Hh.
        rewrite Forall_forall in Hh. apply (held_view_bytes B2 (v', s)), Hh. simpl. set_solver.
      * split; unfold pend; simpl.
        -- rewrite Hid. simpl. unfold send_data. by rewrite Hph.
        -- rewrite lookup_partial_alter_eq. simpl. unfold send_data. simpl.
           rewrite list_lookup_insert_eq by done. simpl. f_equal.
           pose proof (ri_held _ Hri') as Hh. rewrite Forall_forall in Hh.
           apply (held_view_bytes B2 (v, chunk)), Hh. simpl. set_solver.
  - rewrite (bind_Ok _ _ (None, B)) by done. cbv beta iota zeta.
    assert (set_exr (p_exr p) (mkExr (slots x) (Some B) (queue x)) w = w) as ->.
    { unfold set_exr. rewrite list_insert_id; [by destruct w|]. rewrite Hx. f_equal. destruct x; simpl in *. by subst. }
    destruct (end_ok id p w Hinv Hid) as (w' & Hw & ? & ?). step Hw. by eexists _, _.
Qed.

Lemma recv_ok id r w :
  echo_inv [] w → ∃ o w', recv_done id r w = Ok (o, w') ∧ echo_inv [] w' ∧ effect o w w'.
Proof.
  intros Hinv. unfold recv_done. assert (effect SNothing w w) as Hsame by (by apply effect_same).
  destruct (peers w !! id) as [p|] eqn:Hid; [|by exists SNothing, w].
  destruct (p_phase p) eqn:Hph; [|by exists SNothing, w..].
  destruct r as [chunk|].
  - destruct (use_buf_recv_ w) eqn:Hring.
    + apply ring_received_ok; try done. rewrite length_take. lia.
    + by apply own_received_ok.
  - destruct (end_ok id p w Hinv Hid) as (w' & Hw & ? & ?). step Hw. by eexists _, _.
Qed.

(** The view of a connection is handed back. *)
Lemma view_put B l v rest :
  ring_inv (B, l) → l.*1 ≡ₚ v :: rest →
  ∃ B' l', PutBufferView v B = Ok B' ∧ ring_inv (B', l') ∧ l'.*1 ≡ₚ rest ∧
    (∀ v', v' ∈ rest → view_bytes B' v' = view_bytes B v').
Proof.
  intros Hinv E. assert (v ∈ l.*1) as ([v0 s] & -> & Hin)%list_elem_of_fmap by (rewrite E; by left).
  apply list_elem_of_lookup in Hin as [i Hi]. destruct (ring_step_put B l i Hinv) as (st & Hst & Hinv' & _).
  simpl in Hst. rewrite Hi in Hst. apply bind_Ok_inv in Hst as (B' & Hput & [= <-]).
  exists B', (delete i l). split_and!; [done|done| |].
  - apply (Permutation_cons_inv (a := v0)). rewrite <- E.
    pose proof (fmap_Permutation fst _ _ (delete_Permutation _ _ _ Hi)) as Hd. by rewrite Hd.
  - intros v' Hv'. assert (v' ∈ l.*1) as ([v1 s1] & -> & H1)%list_elem_of_fmap by (rewrite E; by right).
    pose proof (ri_held _ Hinv) as Hh. simpl in Hh. rewrite Forall_forall in Hh.
    destruct (Hh _ H1) as (j & _ & _ & Hj & _). simpl in Hj. rewrite Hj. destruct (PutBufferView_mem _ _ _ Hput) as [E1 E2].
    unfold view_bytes. simpl. by rewrite E1, E2.
Qed.

Lemma send_ok id result w :
  echo_inv [] w → ∃ o w', send_done id result w = Ok (o, w') ∧ echo_inv [] w' ∧ effect o w w'.
Proof.
  intros Hinv. unfold send_done. assert (effect SNothing w w) as Hsame by (by apply effect_same).
  destruct (peers w !! id) as [p|] eqn:Hid; [|by exists SNothing, w].
  destruct (io_result result) as [error n].
  assert (∃ o w', (w ← Echo_end id p w; Ok (SNothing, w)) = Ok (o, w') ∧ echo_inv [] w' ∧ effect o w w') as Hend.
  { destruct (end_ok id p w Hinv Hid) as (w' & Hw & ? & ?). step Hw. by eexists _, _. }
  destruct (ei_peer _ _ Hinv id p Hid) as (_ & He & Hok). destruct (lookup_lt_is_Some_2 _ _ He) as [x Hx].
  assert (pend id w = Some (send_data p w)) as Hpend by (unfold pend; by rewrite Hid).
  destruct (p_phase p) as [|m|v] eqn:Hph; [by exists SNothing, w|..];
    (destruct (bool_decide (is_Some error) || (n =? 0)); [exact Hend|]).
  - eexists _, _. split; [done|]. rewrite (set_peer_here _ _ _ _ _ Hx). split.
    + apply (peer_inv id p _ x); try done. unfold phase_ok in Hok. rewrite Hph in Hok. by destruct Hok as [-> _].
    + apply (peer_effect id p _ x); try done. rewrite take_drop. split; [done|].
      unfold pend. simpl. by rewrite lookup_partial_alter_eq.
  - unfold phase_ok in Hok. rewrite Hph in Hok.
    destruct (ei_bufs _ _ Hinv _ _ Hx Hok) as (B & l & lost & Hb & Hri & E).
    rewrite (views_delete _ _ _ _ Hid) in E. unfold peer_views in E at 1. rewrite Hph, Nat.eqb_refl in E.
    destruct (view_put B l v _ Hri E) as (B' & l' & Hput & Hri' & E' & Hother).
    step (vec_get_nat _ _ _ Hx). rewrite Hb. cbn [deref mbind outcome_bind]. rewrite (bind_Ok _ _ _ Hput).
    eexists _, _. split; [done|]. split.
    + apply (peer_inv id p _ x); try done. intros _. exists B', l', lost. split_and!; [done|done|].
      by rewrite E', (views_set _ _ _ _ _ Hid).
    + apply (peer_effect id p _ x); try done.
      * intros v' Hv'. rewrite Hb. simpl. f_equal. apply Hother. apply elem_of_app. by left.
      * rewrite take_drop. split; [done|]. unfold pend. simpl. by rewrite lookup_partial_alter_eq.
Qed.

Lemma echo_step_ok ev w :
  echo_inv [] w →
  echo_step ev w = Fault LogFatal ∨
  ∃ o w', echo_step ev w = Ok (o, w') ∧ echo_inv [] w' ∧ effect o w w'.
Proof.
  intros Hinv. destruct ev as [s|e|id r|id n]; cbn [echo_step].
  - destruct (accept_ok s w Hinv) as [->|(w' & -> & ? & ?)]; [by left|right]. by eexists _, _.
  - destruct (queued_start_ok e w Hinv) as [->|(w' & -> & ? & ?)]; [by left|right]. by eexists _, _.
  - right. by apply recv_ok.
  - right. by apply send_ok.
Qed.

(** ** The streams of a connection *)

Definition recvd (id : nat) (obs : list seen) : bytes :=
  obs ≫= λ o, match o with SReceived i c => if (i =? id)%nat then c else [] | _ => [] end.
Definition sent (id : nat) (obs : list seen) : bytes :=
  obs ≫= λ o, match o with SSent i out _ => if (i =? id)%nat then out else [] | _ => [] end.
(** No send of the connection was cut short. *)
Definition whole_sends (id : nat) (obs : list seen) : Prop :=
  Forall (λ o, ∀ out rest, o = SSent id out rest → rest = []) obs.

Definition streams (obs : list seen) w : Prop :=
  ∀ id, whole_sends id obs → ∃ rest, recvd id obs = sent id obs ++ rest ∧
    (∀ d, pend id w = Some d → rest = d) ∧ (fresh id w → recvd id obs = []).

Lemma fresh_no_peer id w : echo_inv [] w → fresh id w → peers w !! id = None.
Proof.
  intros Hinv Hf. destruct (peers w !! id) as [p|] eqn:E; [|done].
  destruct (ei_peer _ _ Hinv id p E) as (Hlt & _). destruct Hf as [Hge|Hin]; [lia|].
  apply list_elem_of_fmap in Hin as ([id' conn] & -> & Hin).
  destruct (ei_queued _ _ Hinv _ _ Hin) as (_ & ? & _). simpl in *. congruence.
Qed.

Lemma streams_step obs o w w' :
  echo_inv [] w → effect o w w' → streams obs w → streams (obs ++ [o]) w'.
Proof.
  intros Hinv [Hf Ho Hr Hs] Hst id Hw. apply Forall_app in Hw as [Hw [Hwo _]%Forall_cons].
  destruct (Hst id Hw) as (rest & E & Hp & Hfr). unfold recvd, sent in *. rewrite !bind_app.
  assert (∀ d, pend id w = Some d → ¬ fresh id w) as Hlive.
  { intros d Hd Hfi. unfold pend in Hd. by rewrite (fresh_no_peer id w Hinv Hfi) in Hd. }
  assert (¬ about id o → ∃ rest, recvd id obs ++ [] = (sent id obs ++ []) ++ rest ∧
    (∀ d, pend id w' = Some d → rest = d) ∧ (fresh id w' → recvd id obs ++ [] = [])) as Hother.
  { intros Hab. rewrite !app_nil_r. destruct (Ho id Hab) as [Hsame|[Hnone|[Hfi Hnew]]].
    - exists rest. rewrite Hsame. split_and!; [done|done|]. intros ?%Hf. by apply Hfr.
    - exists rest. rewrite Hnone. split_and!; [done|done|]. intros ?%Hf. by apply Hfr.
    - exists rest. split_and!; [done| |by intros; apply Hfr]. rewrite Hnew. intros d [= <-].
      apply Hfr in Hfi. unfold recvd in *. rewrite Hfi in E. by symmetry in E; apply app_nil in E as [_ ->]. }
  destruct o as [|i c|i out left_]; simpl.
  - apply Hother. by intros [].
  - destruct (Nat.eqb_spec i id) as [->|Hne]; [|apply Hother; simpl; done]. destruct (Hr id c eq_refl) as [H1 H2].
    rewrite (Hp _ H1), app_nil_r in E. exists c. rewrite !app_nil_r, E. split_and!; [done| |].
    + intros d Hd. congruence.
    + intros Hfi%Hf. by destruct (Hlive _ H1).
  - destruct (Nat.eqb_spec i id) as [->|Hne]; [|apply Hother; simpl; done].
    destruct (Hs id out left_ eq_refl) as [H1 H2]. pose proof (Hwo out left_ eq_refl) as ->.
    rewrite app_nil_r in H1. rewrite (Hp _ H1) in E. exists []. rewrite !app_nil_r, E. split_and!; [done| |].
    + intros d Hd. congruence.
    + intros Hfi%Hf. by destruct (Hlive _ H1).
Qed.

Lemma echo_run_ok evs obs w :
  echo_inv [] w → streams obs w →
  echo_run evs w = Fault LogFatal ∨
  ∃ obs' w', echo_run evs w = Ok (obs', w') ∧ echo_inv [] w' ∧ streams (obs ++ obs') w'.
Proof.
  revert obs w. induction evs as [|ev evs IH]; intros obs w Hinv Hst; cbn [echo_run].
  { right. exists [], w. by rewrite app_nil_r. }
  destruct (echo_step_ok ev w Hinv) as [->|(o & w1 & -> & Hinv1 & Hef)]; [by left|]. cbn [mbind outcome_bind].
  destruct (IH (obs ++ [o]) w1 Hinv1 (streams_step _ _ _ _ Hinv Hef Hst)) as [->|(obs' & w' & -> & ? & ?)];
    [by left|right]. exists (o :: obs'), w'. rewrite <- app_assoc in *. by split_and!.
Qed.

(** The server before the first connection; with [use_buf_recv_] every executor
    has called [InitBufRing]. *)
Definition echo_booted (n : nat) (ring : bool) k (bs : list (Buffers R)) : EchoServer K R :=
  mkEcho k ((λ e, mkExr (initial_slots default_RingConfig) (if ring then bs !! e else None) []) <$> seq 0 n)
    ∅ 0 0 ring 0.

Lemma booted_inv n ring k bs :
  (0 < n)%nat → (ring = true → length bs = n ∧ Forall (λ B, ∃ c page mem, InitBufRing c page mem = Ok B) bs) →
  echo_inv [] (echo_booted n ring k bs) ∧ streams [] (echo_booted n ring k bs).
Proof.
  intros Hn Hbs. set (w := echo_booted n ring k bs).
  assert (queued w = []) as Hq.
  { unfold queued, w. simpl. rewrite <- list_fmap_compose. by induction (seq 0 n). }
  split.
  - split; rewrite ?Hq; simpl; rewrite ?length_fmap, ?length_seq; try done.
    + lia.
    + intros ? ? ?%elem_of_nil. done.
    + constructor.
    + intros e x Hx Hr. rewrite list_lookup_fmap in Hx. apply fmap_Some in Hx as (i & Hi & ->).
      apply lookup_seq in Hi as [-> Hlt]. destruct (Hbs Hr) as [Hl Hall]. rewrite Hr. simpl.
      destruct (lookup_lt_is_Some_2 bs e) as [B HB]; [lia|]. rewrite Forall_lookup in Hall.
      destruct (Hall e B HB) as (c & page & mem & Hinit). exists B, [], []. simpl.
      split_and!; [done|by eapply InitBufRing_inv|done].
  - intros id _. exists []. split_and!; [done| |done]. intros d Hd. unfold pend in Hd. simpl in Hd.
    by rewrite lookup_empty in Hd.
Qed.

(** C18: The echo server echoes: whatever the interleaving of accepted
    connections, receives and sends on all executors, with the executors' receive
    buffers or without, nothing faults (save the fatal error of a failing
    registration); the counter is the number of connections being served or about
    to be, and at most 10000; and if the socket takes what it is given, what a
    connection has sent is a prefix of what it has received, and all of it
    when the connection waits for more. *)
Theorem echo_streams n ring k bs evs :
  (0 < n)%nat → (ring = true → length bs = n ∧ Forall (λ B, ∃ c page mem, InitBufRing c page mem = Ok B) bs) →
  echo_run evs (echo_booted n ring k bs) = Fault LogFatal ∨
  ∃ obs w, echo_run evs (echo_booted n ring k bs) = Ok (obs, w) ∧
    connections_ w = Z.of_nat (size (peers w) + length (queued w)) ∧ connections_ w ≤ kMaxConnections ∧
    ∀ id, whole_sends id obs →
      sent id obs `prefix_of` recvd id obs ∧
      ∀ p, peers w !! id = Some p → p_phase p = AwaitRecv → sent id obs = recvd id obs.
Proof.
  intros Hn Hbs. destruct (booted_inv n ring k bs Hn Hbs) as [Hinv Hst].
  destruct (echo_run_ok evs [] _ Hinv Hst) as [->|(obs & w & -> & Hinv' & Hst')]; [by left|right].
  exists obs, w. split; [done|]. split; [apply (ei_count _ _ Hinv')|]. split; [apply (ei_limit _ _ Hinv')|].
  intros id Hw. destruct (Hst' id Hw) as (rest & E & Hp & _). simpl in E. rewrite E. split; [by exists rest|].
  intros p Hid Hph. rewrite (Hp []); [by rewrite app_nil_r|]. unfold pend. rewrite Hid. simpl.
  unfold send_data. by rewrite Hph.
Qed.
End echo.

(** ** Samples *)

(** Two executors with four receive buffers each. *)
Definition echo_buffers : list (Buffers queue_ring) :=
  match small_buffers with Ok B => [B; B] | _ => [] end.
#[local] Instance echo_debug : BuildMode := false.

Definition sample_echo (evs : list echo_event) : Outcome (list seen * EchoServer Tables queue_ring) :=
  echo_run evs (echo_booted 2 true std_tables echo_buffers).

(** The second connection is served on the second executor. *)
Definition two_echoes : list echo_event :=
  [EvAccept 10; EvAccept 11; EvStart 1; EvRecv 0 (Some (lit "hello")); EvRecv 1 (Some (lit "world"));
   EvSend 1 5; EvSend 0 5; EvRecv 0 (Some (lit "again")); EvSend 0 5].

Lemma echo_streams_witness :
  ∃ obs w, sample_echo two_echoes = Ok (obs, w) ∧ connections_ w = 2 ∧
    recvd 0 obs = lit "helloagain" ∧ sent 0 obs = recvd 0 obs.
Proof.
  destruct (echo_streams (K:=Tables) 2 true std_tables echo_buffers two_echoes) as [E|(obs & w & E & Hc & _ & Hs)].
  - lia.
  - intros _. split; [reflexivity|].
    assert (∃ B, small_buffers = Ok B) as [B HB] by (eexists; vm_compute; reflexivity).
    unfold echo_buffers. rewrite HB. repeat constructor; by exists small_ring, 4096, (Some 1000).
  - vm_compute in E. discriminate E.
  - exists obs, w. split; [exact E|].
    assert (whole_sends 0 obs ∧ recvd 0 obs = lit "helloagain" ∧
      ∃ p, peers w !! 0%nat = Some p ∧ p_phase p = AwaitRecv ∧ connections_ w = 2) as (Hw & Hr & p & Hp & Hph & Hn).
    { vm_compute in E. injection E as <- <-. split; [repeat constructor; by intros ?? [= <- <-]|].
      split; [reflexivity|]. eexists. split; [vm_compute; reflexivity|]. by split. }
    split; [done|]. split; [done|]. by apply (proj2 (Hs 0%nat Hw) p).
Defined.

(** A view is handed back only after a successful send: four clients whose
    sends fail use up the buffers of their executor, and the next client is
    dropped at its first message. *)
Definition failing_echo (id : nat) : list echo_event :=
  [EvAccept (10 + id); EvRecv id (Some (lit "x")); EvSend id (-32)].

Theorem failed_sends_use_up_buffers :
  match echo_run ((seq 0 4 ≫= failing_echo) ++ [EvAccept 20; EvRecv 4 (Some (lit "x"))])
          (echo_booted 1 true std_tables echo_buffers) with
  | Ok (obs, w) => recvd 3 obs = lit "x" ∧ recvd 4 obs = [] ∧ peers w = ∅ ∧ accepted w = 5%nat ∧
      connections_ w = 0
  | _ => False
  end.
Proof. vm_compute. split_and!; reflexivity. Qed.

(** The program asked for no executor reads the first of an empty vector. *)
Theorem echo_without_executor :
  @echo_main Machine machine_os [lit "echo_server"; lit "7000"; lit "1"; lit "0"] four_cpus
  = Fault OutOfRange.
Proof. vm_compute. reflexivity. Qed.
