(* ===== verification/RespParser.v ===== *)
(** * The query parsers

    Model of [ParseInline] and [MultiBulkParser] (src/src/resp/resp_parser.h,
    resp_parser.cc).  Arguments are views into the query buffer (address and
    length); the multi-bulk parser keeps its progress between calls, so a
    query may arrive in any number of pieces.  The theorems are in
    RespParserThms. *)

From S2P Require Import Prelude Chars Buffer.

Inductive ParserState := kInit | kError | kParsing | kDone.

#[global] Instance ParserState_eq_dec : EqDecision ParserState.
Proof. solve_decision. Defined.

Definition kMaxInlineBufferSize : nat := 1024 * 16.

(** [MultiBulkParser] without its pointer to the buffer, which every method
    takes as an argument. *)
Record MultiBulkParser := mkParser {
  state_ : ParserState;
  args_ : Z;
  cur_arg_idx_ : nat }.

Definition new_parser : MultiBulkParser := mkParser kInit 0 0.
Definition set_state (s : ParserState) (p : MultiBulkParser) : MultiBulkParser :=
  mkParser s (args_ p) (cur_arg_idx_ p).

(** What [Parse] returns: the state it answers, the arguments, and the buffer
    and parser it changes. *)
Abbreviation parse_ret := (ParserState * list StringView * Buffer * MultiBulkParser)%type.

Section parser.
Context `{!BuildMode}.

(** [src\[i\]]. *)
Definition char_at (src : Source_) (i : nat) : Outcome ascii :=
  match src_bytes src !! i with Some c => Ok c | None => Fault OutOfRange end.

(** [result.emplace_back(v)] when [arg_index] is the size, else
    [result\[arg_index\] = v]. *)
Definition put_arg (result : list StringView) (arg_index : nat) (v : StringView)
    : Outcome (list StringView) :=
  if (length result =? arg_index)%nat then Ok (result ++ [v])
  else vec_set result (Z.of_nat arg_index) v.

(** ** Inline queries *)

(** The inner loop: the end of the word that starts before [next_space]. *)
Fixpoint scan_word (fuel : nat) (src : Source_) (crlf next_space : nat) : Outcome nat :=
  if (next_space <? crlf)%nat then
    c ← char_at src next_space;
    if isspace c then Ok next_space
    else match fuel with
         | O => Diverge
         | S fuel => scan_word fuel src crlf (S next_space)
         end
  else Ok next_space.

(** The outer loop: fills [result] and answers the number of words. *)
Fixpoint inline_loop (fuel : nat) (src : Source_) (crlf i arg_index : nat)
    (result : list StringView) : Outcome (nat * list StringView) :=
  if (i <? crlf)%nat then
    match fuel with
    | O => Diverge
    | S fuel =>
        c ← char_at src i;
        if isspace c then inline_loop fuel src crlf (S i) arg_index result
        else
          next_space ← scan_word crlf src crlf (S i);
          result ← put_arg result arg_index
                     (mkSV (src_data src + Z.of_nat i) (next_space - i));
          inline_loop fuel src crlf next_space (S arg_index) result
    end
  else Ok (arg_index, result).

(** Answers the state, [result], [result_size] when it is set, and the
    buffer. *)
Definition ParseInline (result : list StringView) (b : Buffer)
    : Outcome (ParserState * list StringView * option nat * Buffer) :=
  src ← Source b;
  if bool_decide (src_bytes src = []) then Ok (kError, result, None, b)
  else
    match find_crlf (src_bytes src) with
    | None =>
        if (kMaxInlineBufferSize <=? length (src_bytes src))%nat
        then Ok (kError, result, None, b) else Ok (kParsing, result, None, b)
    | Some crlf =>
        '(arg_index, result) ← inline_loop (S crlf) src crlf 0 0 result;
        b ← Consume (crlf + 2) b;
        if (arg_index =? 0)%nat then Ok (kParsing, result, None, b)
        else Ok (kDone, result, Some arg_index, b)
    end.

(** ** Multi-bulk queries *)

Definition ResetParser (p : MultiBulkParser) : MultiBulkParser := mkParser kInit 0 0.

Definition InProgress (p : MultiBulkParser) : bool := bool_decide (state_ p = kParsing).

Definition ParseArgNum (src : Source_) (b : Buffer) (p : MultiBulkParser)
    : Outcome (nat * Buffer * MultiBulkParser) :=
  c ← char_at src 0;
  if negb (bool_decide (c = "*"%char)) then Ok (0%nat, b, set_state kError p)
  else
    match find_crlf_from (src_bytes src) 1 with
    | None => Ok (0%nat, b, p)
    | Some crlf =>
        match from_chars_i32 (slice 1 (crlf - 1) (src_bytes src)) with
        | FcOk parsed_args _ =>
            if parsed_args <? 0 then Ok (0%nat, b, set_state kError p)
            else
              let cursor := (crlf + 2)%nat in
              b ← Consume cursor b;
              Ok (cursor, b, mkParser kParsing parsed_args (cur_arg_idx_ p))
        | _ => Ok (0%nat, b, set_state kError p)
        end
    end.

(** One turn of the [while (cur_arg_idx_ < args_)] loop of [Parse]: [inl] is
    a [return] inside the loop, [inr] the state of the next turn. *)
Definition parse_bulk (src : Source_) (cursor : nat) (result : list StringView)
    (b : Buffer) (p : MultiBulkParser)
    : Outcome (parse_ret + nat * list StringView * Buffer * MultiBulkParser) :=
  let n := length (src_bytes src) in
  let error := inl (kError, result, b, set_state kError p) in
  if (cursor =? n)%nat then Ok (inl (state_ p, result, b, p))
  else
    c ← char_at src cursor;
    if negb (bool_decide (c = "$"%char)) then Ok error
    else
      match find_crlf_from (src_bytes src) cursor with
      | None => Ok (inl (state_ p, result, b, p))
      | Some crlf =>
          if (crlf =? cursor + 1)%nat then Ok error
          else
            match from_chars_i32 (slice (cursor + 1) (crlf - (cursor + 1)) (src_bytes src)) with
            | FcOk str_len _ =>
                if str_len <? 0 then Ok error
                else
                  let old_cursor := cursor in
                  let cursor := (crlf + 2)%nat in
                  let len := Z.to_nat str_len in
                  if (n <? cursor + len + 2)%nat then Ok (inl (state_ p, result, b, p))
                  else
                    c0 ← char_at src (cursor + len);
                    c1 ← char_at src (cursor + len + 1);
                    if negb (bool_decide (c0 = CR)) || negb (bool_decide (c1 = LF))
                    then Ok error
                    else
                      let v := mkSV (src_data src + Z.of_nat cursor) len in
                      result ← (if (length result <=? cur_arg_idx_ p)%nat then
                                  _ ← cassert (length result =? cur_arg_idx_ p)%nat;
                                  Ok (result ++ [v])
                                else Ok (<[cur_arg_idx_ p := v]> result));
                      let cursor := (cursor + len + 2)%nat in
                      b ← Consume (cursor - old_cursor) b;
                      Ok (inr (cursor, result, b,
                               mkParser (state_ p) (args_ p) (S (cur_arg_idx_ p))))
            | _ => Ok error
            end
      end.

Fixpoint bulk_loop (fuel : nat) (src : Source_) (cursor : nat) (result : list StringView)
    (b : Buffer) (p : MultiBulkParser) : Outcome parse_ret :=
  if Z.of_nat (cur_arg_idx_ p) <? args_ p then
    match fuel with
    | O => Diverge
    | S fuel =>
        turn ← parse_bulk src cursor result b p;
        match turn with
        | inl ret => Ok ret
        | inr (cursor, result, b, p) => bulk_loop fuel src cursor result b p
        end
    end
  else Ok (kDone, result, b, set_state kDone p).

(** [MultiBulkParser::Parse].  Each turn of the loop consumes a byte of
    [src], whose length bounds the turns. *)
Definition Parse (result : list StringView) (b : Buffer) (p : MultiBulkParser)
    : Outcome (ParserState * list StringView * Buffer * MultiBulkParser) :=
  let p := if bool_decide (state_ p = kError ∨ state_ p = kDone) then ResetParser p else p in
  src ← Source b;
  if bool_decide (src_bytes src = []) then Ok (state_ p, result, b, p)
  else if bool_decide (state_ p = kInit) then
    '(cursor, b, p) ← ParseArgNum src b p;
    if (cursor =? 0)%nat then Ok (state_ p, result, b, p)
    else bulk_loop (S (length (src_bytes src))) src cursor result b p
  else bulk_loop (S (length (src_bytes src))) src 0 result b p.

(** Views into the buffer's old block, moved to its new one. *)
Fixpoint move_views (n : nat) (original updated : Z) (result : list StringView)
    : Outcome (list StringView) :=
  match n, result with
  | O, _ => Ok result
  | S _, [] => Fault OutOfRange
  | S n, v :: result =>
      rest ← move_views n original updated result;
      Ok (mkSV (updated + (sv_data v - original)) (sv_size v) :: rest)
  end.

Definition BufferUpdate (original updated : Z) (result : list StringView) (p : MultiBulkParser)
    : Outcome (list StringView) :=
  move_views (cur_arg_idx_ p) original updated result.

Definition GetResultSize (p : MultiBulkParser) : Outcome Z :=
  _ ← cassert (bool_decide (state_ p = kDone));
  Ok (args_ p).
End parser.
