(* ===== verification/RespParserThms.v ===== *)
(** * Correctness of the query parsers

    A reference grammar of multi-bulk queries on byte strings ([header_of],
    [bulk_of], [query_of]), the refinement of the incremental parser to it,
    and the round trip with the RESP encoding of a query; for inline queries,
    the splitting into words. *)

From S2P Require Import Prelude Chars Buffer RespParser.

(** ** The reference grammar *)

(** Reading one item of a byte stream: it may be incomplete, ill-formed, or
    read with what follows it. *)
Inductive item (A : Type) := More | Bad | Got (x : A) (rest : bytes).
Arguments More {A}.
Arguments Bad {A}.
Arguments Got {A} x rest.

(** [*<n>\r\n]. *)
Definition header_of (s : bytes) : item Z :=
  match s with
  | [] => More
  | c :: s =>
      if negb (bool_decide (c = "*"%char)) then Bad
      else match find_crlf s with
           | None => More
           | Some i =>
               match from_chars_i32 (take i s) with
               | FcOk n _ => if n <? 0 then Bad else Got n (drop (i + 2) s)
               | _ => Bad
               end
           end
  end.

(** [$<n>\r\n<n bytes>\r\n]. *)
Definition bulk_of (s : bytes) : item bytes :=
  match s with
  | [] => More
  | c :: s =>
      if negb (bool_decide (c = "$"%char)) then Bad
      else match find_crlf s with
           | None => More
           | Some i =>
               if (i =? 0)%nat then Bad
               else match from_chars_i32 (take i s) with
                    | FcOk n _ =>
                        if n <? 0 then Bad
                        else let t := drop (i + 2) s in
                             let n := Z.to_nat n in
                             if (length t <? n + 2)%nat then More
                             else if bool_decide (slice n 2 t = CRLF)
                                  then Got (take n t) (drop (n + 2) t) else Bad
                    | _ => Bad
                    end
           end
  end.

Fixpoint bulks (fuel : nat) (todo : Z) (s : bytes) : ParserState * list bytes * bytes :=
  if 0 <? todo then
    match fuel with
    | O => (kParsing, [], s)
    | S fuel =>
        match bulk_of s with
        | More => (kParsing, [], s)
        | Bad => (kError, [], s)
        | Got x rest => let '(st, l, r) := bulks fuel (todo - 1) rest in (st, x :: l, r)
        end
    end
  else (kDone, [], s).

(** The arguments read, the verdict and the bytes left after them. *)
Definition bulks_of (todo : Z) (s : bytes) : ParserState * list bytes * bytes :=
  bulks (S (length s)) todo s.

Definition query_of (s : bytes) : ParserState * list bytes * bytes :=
  match header_of s with
  | More => (kInit, [], s)
  | Bad => (kError, [], s)
  | Got n body => bulks_of n body
  end.

(** ** The grammar on extended streams *)

Lemma header_of_Got_app s t n r : header_of s = Got n r → header_of (s ++ t) = Got n (r ++ t).
Proof.
  destruct s as [|c s]; [done|]. cbn [header_of app]. destruct (negb _); [done|].
  destruct (find_crlf s) as [i|] eqn:E; [|done]. rewrite (find_crlf_app s t i E).
  apply find_crlf_Some in E as [_ Hl]. rewrite take_app_le by lia.
  destruct (from_chars_i32 _) as [m ?| |]; try done. destruct (m <? 0); [done|].
  intros [= -> <-]. by rewrite drop_app_le by lia.
Qed.

Lemma header_of_Bad_app s t : header_of s = Bad → header_of (s ++ t) = Bad.
Proof.
  destruct s as [|c s]; [done|]. cbn [header_of app]. destruct (negb _); [done|].
  destruct (find_crlf s) as [i|] eqn:E; [|done]. rewrite (find_crlf_app s t i E).
  apply find_crlf_Some in E as [_ Hl]. rewrite take_app_le by lia.
  destruct (from_chars_i32 _) as [m ?| |]; try done. by destruct (m <? 0).
Qed.

Lemma bulk_of_Got_app s t x r : bulk_of s = Got x r → bulk_of (s ++ t) = Got x (r ++ t).
Proof.
  destruct s as [|c s]; [done|]. cbn [bulk_of app]. destruct (negb _); [done|].
  destruct (find_crlf s) as [i|] eqn:E; [|done]. rewrite (find_crlf_app s t i E).
  apply find_crlf_Some in E as [_ Hl]. destruct (i =? 0)%nat; [done|].
  rewrite take_app_le by lia. rewrite drop_app_le by lia.
  destruct (from_chars_i32 _) as [m ?| |]; try done. destruct (m <? 0); [done|].
  rewrite length_app. destruct (Nat.ltb_spec (length (drop (i + 2) s)) (Z.to_nat m + 2)); [done|].
  rewrite (proj2 (Nat.ltb_ge _ _)) by lia. rewrite slice_app_l by lia.
  case_bool_decide; [|done]. intros [= <- <-].
  by rewrite take_app_le, drop_app_le by lia.
Qed.

Lemma bulk_of_Bad_app s t : bulk_of s = Bad → bulk_of (s ++ t) = Bad.
Proof.
  destruct s as [|c s]; [done|]. cbn [bulk_of app]. destruct (negb _); [done|].
  destruct (find_crlf s) as [i|] eqn:E; [|done]. rewrite (find_crlf_app s t i E).
  apply find_crlf_Some in E as [_ Hl]. destruct (i =? 0)%nat; [done|].
  rewrite take_app_le by lia. rewrite drop_app_le by lia.
  destruct (from_chars_i32 _) as [m ?| |]; try done. destruct (m <? 0); [done|].
  rewrite length_app. destruct (Nat.ltb_spec (length (drop (i + 2) s)) (Z.to_nat m + 2)); [done|].
  rewrite (proj2 (Nat.ltb_ge _ _)) by lia. rewrite slice_app_l by lia. by case_bool_decide.
Qed.

Lemma bulk_of_shorter s x r : bulk_of s = Got x r → (length r < length s)%nat.
Proof.
  destruct s as [|c s]; [done|]. cbn [bulk_of]. destruct (negb _); [done|].
  destruct (find_crlf s) as [i|]; [|done]. destruct (i =? 0)%nat; [done|].
  destruct (from_chars_i32 _) as [m ?| |]; try done. destruct (m <? 0); [done|].
  destruct (_ <? _)%nat; [done|]. case_bool_decide; [|done]. intros [= _ <-].
  cbn [length]. rewrite !length_drop. lia.
Qed.

Lemma bulks_fuel f1 f2 todo s :
  (length s < f1)%nat → (length s < f2)%nat → bulks f1 todo s = bulks f2 todo s.
Proof.
  revert f2 todo s. induction f1 as [|f1 IH]; intros [|f2] todo s H1 H2; try lia. cbn [bulks].
  destruct (0 <? todo); [|done]. destruct (bulk_of s) as [| |x r] eqn:E; [done|done|].
  apply bulk_of_shorter in E. by rewrite (IH f2) by lia.
Qed.

(** The equation of [bulks_of], free of fuel. *)
Lemma bulks_of_eq todo s :
  bulks_of todo s =
    if 0 <? todo then
      match bulk_of s with
      | More => (kParsing, [], s)
      | Bad => (kError, [], s)
      | Got x rest => let '(st, l, r) := bulks_of (todo - 1) rest in (st, x :: l, r)
      end
    else (kDone, [], s).
Proof.
  unfold bulks_of at 1. cbn [bulks]. destruct (0 <? todo); [|done].
  destruct (bulk_of s) as [| |x r] eqn:E; [done|done|].
  apply bulk_of_shorter in E. by rewrite (bulks_fuel _ (S (length r))) by lia.
Qed.

(** Reading a stream in two steps. *)
Lemma bulks_of_app todo s t l r :
  bulks_of todo s = (kParsing, l, r) →
  bulks_of todo (s ++ t) =
    let '(st, l', r') := bulks_of (todo - Z.of_nat (length l)) (r ++ t) in (st, l ++ l', r').
Proof.
  remember (length s) as n eqn:Hn. revert todo s l Hn.
  induction (lt_wf n) as [n _ IH]. intros todo s l -> Heq. rewrite bulks_of_eq in Heq.
  destruct (Z.ltb_spec 0 todo) as [Ht|]; [|done].
  destruct (bulk_of s) as [| |x rest] eqn:E; [|done|].
  - injection Heq as <- <-. simpl. rewrite Z.sub_0_r. by destruct (bulks_of todo (s ++ t)) as [[??]?].
  - destruct (bulks_of (todo - 1) rest) as [[st l1] r1] eqn:E1. injection Heq as -> <- ->.
    pose proof (bulk_of_shorter _ _ _ E) as Hlt. apply (bulk_of_Got_app _ t) in E.
    rewrite bulks_of_eq, E. rewrite Zltb_t by done. rewrite (IH _ Hlt _ _ _ eq_refl E1).
    replace (todo - Z.of_nat (length (x :: l1))) with (todo - 1 - Z.of_nat (length l1))
      by (simpl; lia).
    by destruct (bulks_of (todo - 1 - _) _) as [[??]?].
Qed.

Lemma bulks_of_todo todo s st l r :
  bulks_of todo s = (st, l, r) → st ≠ kInit ∧ (st = kDone → Z.of_nat (length l) = Z.max 0 todo) ∧
  (st ≠ kDone → Z.of_nat (length l) < todo).
Proof.
  remember (length s) as n eqn:Hn. revert todo s l Hn.
  induction (lt_wf n) as [n _ IH]. intros todo s l -> Heq. rewrite bulks_of_eq in Heq.
  destruct (Z.ltb_spec 0 todo) as [Ht|Ht].
  - destruct (bulk_of s) as [| |x rest] eqn:E; simplify_eq; try (split_and!; [done|done|simpl; lia]).
    destruct (bulks_of (todo - 1) rest) as [[st1 l1] r1] eqn:E1. simplify_eq.
    destruct (IH _ (bulk_of_shorter _ _ _ E) _ _ _ eq_refl E1) as (?&Hd&Hn).
    split_and!; [done| |]; intros; simpl; [specialize (Hd ltac:(done))|specialize (Hn ltac:(done))]; lia.
  - simplify_eq. split_and!; [done| |done]. intros _. simpl. lia.
Qed.

(** ** Views *)

Definition view_ok (b : Buffer) (v : StringView) (s : bytes) : Prop :=
  ∃ off, sv_data v = data_start b + Z.of_nat off ∧ sv_size v = length s ∧
         (off + length s ≤ read_index_ b)%nat ∧ slice off (length s) (data_ b) = s.

(** The first [length l] views of [result] are related to the strings [l];
    in particular, they show these strings. *)
Definition views_by (P : StringView → bytes → Prop) (result : list StringView) (l : list bytes)
    : Prop :=
  (length l ≤ length result)%nat ∧ ∀ i v s, result !! i = Some v → l !! i = Some s → P v s.
Abbreviation views_ok b := (views_by (view_ok b)).

Lemma views_ok_nil P result : views_by P result [].
Proof. split; [simpl; lia|]. intros. done. Qed.

Lemma view_ok_read b v s : buf_ok b → view_ok b v s → read_view b v = Ok s.
Proof.
  intros (Hv&Hi&_) (off&Ha&Hs&Hle&Hsl). unfold read_view. rewrite Hv, Ha, Hs.
  replace (data_start b + Z.of_nat off - data_start b) with (Z.of_nat off) by lia.
  rewrite Zleb_t, Zleb_t by lia. simpl. by rewrite Nat2Z.id, Hsl.
Qed.

(** Views survive consumption and reception. *)
Lemma views_ok_mono b b' result l :
  views_ok b result l → data_start b' = data_start b → (read_index_ b ≤ read_index_ b')%nat →
  (∀ off len, (off + len ≤ read_index_ b)%nat → slice off len (data_ b') = slice off len (data_ b)) →
  views_ok b' result l.
Proof.
  intros [Hlen Hall] Hst Hri Hsl. split; [done|]. intros i v s Hv Hs.
  destruct (Hall i v s Hv Hs) as (off&Ha&?&?&?). exists off. rewrite Hst.
  split_and!; [done|done|lia|]. rewrite Hsl by lia. done.
Qed.

Lemma views_ok_snoc (P : StringView → bytes → Prop) result l v s :
  views_by P result l → P v s →
  views_by P (if (length result <=? length l)%nat then result ++ [v]
              else <[length l := v]> result) (l ++ [s]).
Proof.
  intros [Hlen Hall] Hv. destruct (Nat.leb_spec (length result) (length l)) as [Hle|Hgt].
  - assert (length result = length l) as Heq by lia. split.
    { rewrite !length_app. simpl. lia. }
    intros i w s' Hw Hs'. destruct (decide (i = length l)) as [->|Hne].
    + rewrite <- Heq in Hw at 1. rewrite list_lookup_middle in Hw by done.
      rewrite list_lookup_middle in Hs' by done. by simplify_eq.
    + pose proof (lookup_lt_Some _ _ _ Hs') as Hlt. rewrite length_app in Hlt. simpl in Hlt.
      rewrite lookup_app_l in Hw by lia. rewrite lookup_app_l in Hs' by lia. by apply (Hall i).
  - split. { rewrite length_insert, length_app. simpl. lia. }
    intros i w s' Hw Hs'. destruct (decide (i = length l)) as [->|Hne].
    + rewrite list_lookup_insert_eq in Hw by done.
      rewrite list_lookup_middle in Hs' by done. by simplify_eq.
    + pose proof (lookup_lt_Some _ _ _ Hs') as Hlt. rewrite length_app in Hlt. simpl in Hlt.
      rewrite list_lookup_insert_ne in Hw by done. rewrite lookup_app_l in Hs' by lia.
      by apply (Hall i).
Qed.

(** ** The loop of the multi-bulk parser *)

(** [src] was the source of the buffer [cursor] bytes ago. *)
Definition src_at (src : Source_) (cursor : nat) (b : Buffer) : Prop :=
  (cursor ≤ read_index_ b)%nat ∧
  src_data src = data_start b + Z.of_nat (read_index_ b - cursor) ∧
  src_bytes src = slice (read_index_ b - cursor) (write_index_ b - read_index_ b + cursor) (data_ b).

Lemma src_at_Source b src :
  buf_ok b → Source b = Ok src → src_bytes src ≠ [] → src_at src 0 b ∧ src_bytes src = pending b.
Proof.
  intros Hok Hsrc Hne. destruct (Source_bytes b Hok) as (src'&Heq&Hb&Ha).
  rewrite Heq in Hsrc. injection Hsrc as ->.
  rewrite Hb in Hne. split; [|done]. split_and!; [lia| |].
  - rewrite Ha by done. lia.
  - rewrite Hb. unfold pending. f_equal; lia.
Qed.

Lemma src_at_pending src cursor b :
  buf_ok b → src_at src cursor b →
  drop cursor (src_bytes src) = pending b ∧
  length (src_bytes src) = (cursor + length (pending b))%nat.
Proof.
  intros Hok (Hc&_&Hb). rewrite length_pending by done. destruct Hok as (_&Hi&_).
  rewrite Hb. split.
  - unfold slice, pending, slice. rewrite skipn_firstn_comm, drop_drop. f_equal; [lia|]. f_equal. lia.
  - rewrite length_slice; lia.
Qed.

Lemma src_at_sub src cursor b o n :
  buf_ok b → src_at src cursor b → (o + n ≤ length (pending b))%nat →
  slice (cursor + o) n (src_bytes src) = slice o n (pending b).
Proof.
  intros Hok Hs Ho. destruct (src_at_pending _ _ _ Hok Hs) as [<- Hl]. unfold slice.
  by rewrite drop_drop.
Qed.

Lemma src_at_char src cursor b o :
  buf_ok b → src_at src cursor b →
  char_at src (cursor + o) = match pending b !! o with Some c => Ok c | None => Fault OutOfRange end.
Proof.
  intros Hok Hs. destruct (src_at_pending _ _ _ Hok Hs) as [<- Hl]. unfold char_at.
  by rewrite lookup_drop.
Qed.

Lemma src_at_find src cursor b :
  buf_ok b → src_at src cursor b →
  find_crlf_from (src_bytes src) cursor = Nat.add cursor <$> find_crlf (pending b).
Proof.
  intros Hok Hs. destruct (src_at_pending _ _ _ Hok Hs) as [<- Hl]. done.
Qed.

Section refine.
Context `{!BuildMode}.

Lemma src_at_Consume src cursor b n :
  buf_ok b → src_at src cursor b → (n ≤ length (pending b))%nat →
  ∃ b', Consume n b = Ok b' ∧ buf_ok b' ∧ src_at src (cursor + n) b' ∧
    pending b' = drop n (pending b) ∧ read_index_ b' = (read_index_ b + n)%nat ∧
    data_start b' = data_start b ∧ data_ b' = data_ b ∧ write_index_ b' = write_index_ b.
Proof.
  intros Hok Hs Hn. rewrite length_pending in Hn by done.
  destruct (Consume_spec n b Hok) as (b'&Heq&Hok'&Hp&Hst&Hd&Hri&Hwi);
    [by rewrite length_pending|].
  exists b'. split_and!; try done. destruct Hs as (Hc&Ha&Hb). destruct Hok as (_&Hi&_).
  unfold src_at. rewrite Hri, Hwi, Hst, Hd.
  split_and!; [lia|rewrite Ha; do 2 f_equal; lia|rewrite Hb; f_equal; lia].
Qed.

(** A view of [n] bytes at offset [o] of the unread bytes, once they are
    consumed. *)
Lemma src_at_view src cursor b b' o n m :
  buf_ok b → src_at src cursor b → (o + n ≤ m)%nat → (m ≤ length (pending b))%nat →
  read_index_ b' = (read_index_ b + m)%nat → data_start b' = data_start b → data_ b' = data_ b →
  view_ok b' (mkSV (src_data src + Z.of_nat (cursor + o)) n) (slice o n (pending b)).
Proof.
  intros Hok (Hc&Ha&Hb) Hon Hm Hri Hst Hd. rewrite length_pending in Hm by done.
  destruct Hok as (_&Hi&_). unfold view_ok. simpl.
  assert (slice o n (pending b) = slice (read_index_ b + o) n (data_ b)) as Hsl.
  { unfold pending. rewrite slice_slice by lia. done. }
  exists (read_index_ b + o)%nat. rewrite Hsl, Hst, Hd, Hri, length_slice by lia.
  split_and!; [lia|done|lia|done].
Qed.

Lemma slice_CRLF s n :
  (n + 2 ≤ length s)%nat →
  ∃ c0 c1, s !! n = Some c0 ∧ s !! S n = Some c1 ∧ slice n 2 s = [c0; c1].
Proof.
  intros Hl. destruct (lookup_lt_is_Some_2 s n) as [c0 H0]; [lia|].
  destruct (lookup_lt_is_Some_2 s (S n)) as [c1 H1]; [lia|].
  exists c0, c1. split_and!; [done|done|]. unfold slice.
  rewrite (drop_S _ _ _ H0), (drop_S _ _ _ H1). done.
Qed.

(** What a turn of the loop does with the unread bytes, case by case of the
    grammar. *)
Definition turn_post (src : Source_) (cursor : nat) (b : Buffer) (result : list StringView)
    (p : MultiBulkParser) (l : list bytes) (it : item bytes)
    (turn : parse_ret + nat * list StringView * Buffer * MultiBulkParser) : Prop :=
  match it with
  | More => turn = inl (state_ p, result, b, p)
  | Bad => turn = inl (kError, result, b, set_state kError p)
  | Got x rest =>
      ∃ cursor' result' b',
        turn = inr (cursor', result', b', mkParser (state_ p) (args_ p) (S (cur_arg_idx_ p))) ∧
        buf_ok b' ∧ src_at src cursor' b' ∧ pending b' = rest ∧ views_ok b' result' (l ++ [x]) ∧
        data_start b' = data_start b ∧ data_ b' = data_ b ∧ write_index_ b' = write_index_ b
  end.

(** The last part of a turn: the argument of [n] bytes at offset [o] of the
    unread bytes is recorded and consumed with its CRLF. *)
Lemma take_arg src cursor b result p l o n :
  buf_ok b → src_at src cursor b → views_ok b result l → cur_arg_idx_ p = length l →
  (o + n + 2 ≤ length (pending b))%nat →
  ∃ turn,
    (let v := mkSV (src_data src + Z.of_nat (cursor + o)) n in
     result ← (if (length result <=? cur_arg_idx_ p)%nat then
                 _ ← cassert (length result =? cur_arg_idx_ p)%nat; Ok (result ++ [v])
               else Ok (<[cur_arg_idx_ p := v]> result));
     b ← Consume (cursor + o + n + 2 - cursor) b;
     Ok (inr ((cursor + o + n + 2)%nat, result, b,
              mkParser (state_ p) (args_ p) (S (cur_arg_idx_ p))))) = Ok turn ∧
    turn_post src cursor b result p l
      (Got (slice o n (pending b)) (drop (o + n + 2) (pending b))) turn.
Proof.
  intros Hok Hs Hvs Hcur Ho. rewrite Hcur.
  destruct (src_at_Consume src cursor b (o + n + 2) Hok Hs) as
    (b'&Heq&Hok'&Hs'&Hp'&Hri&Hst&Hd&Hwi); [lia|].
  assert (view_ok b' (mkSV (src_data src + Z.of_nat (cursor + o)) n)
            (slice o n (pending b))) as Hv.
  { apply (src_at_view src cursor b b' o n (o + n + 2)); try done; lia. }
  assert (views_ok b' result l) as Hvs'.
  { apply (views_ok_mono b); [done|done|lia|]. by rewrite Hd. }
  set (v := mkSV _ n) in *. cbv zeta.
  pose proof (views_ok_snoc _ result l v _ Hvs' Hv) as Hvs2.
  set (result2 := if (_ <=? _)%nat then _ else _) in Hvs2.
  assert ((if (length result <=? length l)%nat
           then _ ← cassert (length result =? length l)%nat; Ok (result ++ [v])
           else Ok (<[length l := v]> result)) = Ok result2) as Hres.
  { unfold result2. destruct (Nat.leb_spec (length result) (length l)) as [Hle|]; [|done].
    destruct Hvs as [Hle' _]. rewrite cassert_true by (apply Nat.eqb_eq; lia). done. }
  rewrite (bind_Ok _ _ _ Hres). cbn beta iota.
  replace (cursor + o + n + 2 - cursor)%nat with (o + n + 2)%nat by lia.
  rewrite (bind_Ok _ _ _ Heq). eexists. split; [reflexivity|].
  rewrite <- Hcur. replace (cursor + o + n + 2)%nat with (cursor + (o + n + 2))%nat by lia.
  eexists _, _, _. split; [reflexivity|]. done.
Qed.

Lemma parse_bulk_spec src cursor result b p l :
  buf_ok b → src_at src cursor b → views_ok b result l → cur_arg_idx_ p = length l →
  ∃ turn, parse_bulk src cursor result b p = Ok turn ∧
          turn_post src cursor b result p l (bulk_of (pending b)) turn.
Proof.
  intros Hok Hs Hvs Hcur. unfold parse_bulk.
  destruct (src_at_pending _ _ _ Hok Hs) as [_ Hlen]. rewrite Hlen.
  pose proof (src_at_char _ _ _ 0 Hok Hs) as Hc. rewrite Nat.add_0_r in Hc. rewrite Hc. clear Hc.
  rewrite (src_at_find _ _ _ Hok Hs).
  pose proof (λ o n, src_at_sub src cursor b o n Hok Hs) as Hsub.
  pose proof (λ o, src_at_char src cursor b o Hok Hs) as Hchar.
  pose proof (λ o n, take_arg src cursor b result p l o n Hok Hs Hvs Hcur) as Htake.
  destruct (pending b) as [|c s].
  { rewrite (proj2 (Nat.eqb_eq _ _)) by (simpl; lia). by eexists. }
  cbn [length] in *. rewrite (proj2 (Nat.eqb_neq _ _)) by lia.
  simpl ((c :: s) !! 0%nat). cbn [mbind outcome_bind bulk_of].
  destruct (bool_decide_reflect (c = "$"%char)) as [->|Hne]; simpl (negb _); cbv iota;
    [|by eexists].
  replace (find_crlf ("$"%char :: s)) with (S <$> find_crlf s) by done.
  destruct (find_crlf s) as [i|] eqn:Hfind; simpl (Nat.add cursor <$> _); cbv iota; [|by eexists].
  destruct (find_crlf_Some _ _ Hfind) as [_ Hil].
  destruct (Nat.eqb_spec i 0) as [->|Hi0].
  { rewrite (proj2 (Nat.eqb_eq _ _)) by lia. by eexists. }
  rewrite (proj2 (Nat.eqb_neq _ _)) by lia.
  replace (cursor + S i - (cursor + 1))%nat with i by lia.
  rewrite Hsub by lia. replace (slice 1 i ("$"%char :: s)) with (take i s) by done.
  destruct (from_chars_i32 (take i s)) as [m ?| |]; [|by eexists|by eexists].
  destruct (Z.ltb_spec m 0) as [Hm|Hm]; [by eexists|].
  set (n := Z.to_nat m) in *. cbv zeta. set (t := drop (i + 2) s).
  assert (length t = (length s - (i + 2))%nat) as Ht by apply length_drop.
  destruct (Nat.ltb_spec (length t) (n + 2)) as [Hshort|Hlong].
  { rewrite (proj2 (Nat.ltb_lt _ _)) by lia. by eexists. }
  rewrite (proj2 (Nat.ltb_ge _ _)) by lia.
  destruct (slice_CRLF t n Hlong) as (c0&c1&Hc0&Hc1&Hsl).
  assert (char_at src (cursor + S i + 2 + n) = Ok c0) as ->.
  { replace (cursor + S i + 2 + n)%nat with (cursor + S (i + 2 + n))%nat by lia.
    rewrite Hchar. simpl. rewrite <- (lookup_drop s (i + 2)). fold t. by rewrite Hc0. }
  assert (char_at src (cursor + S i + 2 + n + 1) = Ok c1) as ->.
  { replace (cursor + S i + 2 + n + 1)%nat with (cursor + S (i + 2 + S n))%nat by lia.
    rewrite Hchar. simpl. rewrite <- (lookup_drop s (i + 2)). fold t. by rewrite Hc1. }
  cbn [mbind outcome_bind].
  destruct (bool_decide_reflect (slice n 2 t = CRLF)) as [Hcr|Hcr]; rewrite Hsl in Hcr.
  2: { replace (negb (bool_decide (c0 = CR)) || negb (bool_decide (c1 = LF))) with true;
         [by eexists|].
       symmetry. unfold CRLF in Hcr. repeat case_bool_decide; simpl; congruence. }
  injection Hcr as -> ->. rewrite !bool_decide_true by done. simpl (negb true || negb true).
  cbv iota. specialize (Htake (S i + 2)%nat n). rewrite Nat.add_assoc in Htake.
  replace (slice (S i + 2) n ("$"%char :: s)) with (take n t) in Htake by done.
  replace (drop (S i + 2 + n + 2) ("$"%char :: s)) with (drop (n + 2) t) in Htake
    by (unfold t; rewrite drop_drop; simpl; f_equal; lia).
  apply Htake. lia.
Qed.

Definition loop_post (b : Buffer) (args : Z) (l : list bytes)
    (out : ParserState * list bytes * bytes) (res : Outcome parse_ret) : Prop :=
  let '(st, l', r) := out in
  ∃ result' b', res = Ok (st, result', b', mkParser st args (length (l ++ l'))) ∧ buf_ok b' ∧
    pending b' = r ∧ views_ok b' result' (l ++ l') ∧ data_start b' = data_start b ∧
    data_ b' = data_ b ∧ write_index_ b' = write_index_ b.

Lemma bulk_loop_spec fuel src cursor result b args l :
  buf_ok b → src_at src cursor b → (length (pending b) < fuel)%nat → views_ok b result l →
  loop_post b args l (bulks_of (args - Z.of_nat (length l)) (pending b))
    (bulk_loop fuel src cursor result b (mkParser kParsing args (length l))).
Proof.
  revert cursor result b l. induction fuel as [|fuel IH]; intros cursor result b l Hok Hs Hf Hvs;
    [lia|].
  rewrite bulks_of_eq. cbn [bulk_loop cur_arg_idx_ args_].
  destruct (Z.ltb_spec (Z.of_nat (length l)) args) as [Hlt|Hge].
  2: { rewrite Zltb_f by lia. exists result, b. by rewrite app_nil_r. }
  rewrite Zltb_t by lia.
  destruct (parse_bulk_spec src cursor result b (mkParser kParsing args (length l)) l)
    as (turn&Heq&Hturn); [done..|].
  rewrite (bind_Ok _ _ _ Heq). cbn beta iota.
  destruct (bulk_of (pending b)) as [| |x rest] eqn:Hb; simpl in Hturn.
  1,2: subst turn; exists result, b; by rewrite app_nil_r.
  destruct Hturn as (cursor'&result'&b'&->&Hok'&Hs'&Hp'&Hvs'&?&?&?).
  apply bulk_of_shorter in Hb.
  specialize (IH cursor' result' b' (l ++ [x]) Hok' Hs' ltac:(rewrite Hp'; lia) Hvs').
  rewrite length_app, Nat.add_1_r, Hp' in IH.
  replace (args - Z.of_nat (S (length l))) with (args - Z.of_nat (length l) - 1) in IH by lia.
  destruct (bulks_of (args - Z.of_nat (length l) - 1) rest) as [[st l'] r].
  destruct IH as (result''&b''&E&?&?&?&?&?&?). exists result'', b''.
  rewrite E. rewrite <- app_assoc in *. split_and!; try done; congruence.
Qed.

(** ** The parser and the stream it has received *)

Definition header_post (b : Buffer) (p : MultiBulkParser) (src : Source_) (it : item Z)
    (res : nat * Buffer * MultiBulkParser) : Prop :=
  match it with
  | More => res = (0%nat, b, p)
  | Bad => res = (0%nat, b, set_state kError p)
  | Got n rest =>
      ∃ cursor b', res = (S cursor, b', mkParser kParsing n (cur_arg_idx_ p)) ∧ buf_ok b' ∧
        src_at src (S cursor) b' ∧ pending b' = rest ∧ data_start b' = data_start b ∧
        data_ b' = data_ b ∧ write_index_ b' = write_index_ b
  end.

Lemma ParseArgNum_spec src b p :
  buf_ok b → src_at src 0 b → src_bytes src = pending b → pending b ≠ [] →
  ∃ res, ParseArgNum src b p = Ok res ∧ header_post b p src (header_of (pending b)) res.
Proof.
  intros Hok Hs Hsp Hne. unfold ParseArgNum, char_at, find_crlf_from.
  pose proof (λ n, src_at_Consume src 0 b n Hok Hs) as Hcons.
  rewrite Hsp. destruct (pending b) as [|c s]; [done|]. cbn [lookup list_lookup mbind outcome_bind].
  cbn [header_of]. destruct (bool_decide_reflect (c = "*"%char)) as [->|Hc]; simpl (negb _);
    cbv iota; [|by eexists].
  rewrite skipn_cons, drop_0. destruct (find_crlf s) as [i|] eqn:Hfind; [|by eexists].
  destruct (find_crlf_Some _ _ Hfind) as [_ Hil]. simpl (Nat.add 1 <$> Some i). cbv iota.
  replace (slice 1 (S i - 1) ("*"%char :: s)) with (take i s) by (simpl; by rewrite Nat.sub_0_r).
  destruct (from_chars_i32 (take i s)) as [n ?| |]; [|by eexists|by eexists].
  destruct (n <? 0); [by eexists|]. cbv zeta.
  destruct (Hcons (S i + 2)%nat) as (b'&Heq&Hok'&Hs'&Hp'&_&?&?&?); [simpl; lia|].
  rewrite (bind_Ok _ _ _ Heq). eexists. split; [reflexivity|].
  exists (i + 2)%nat, b'. done.
Qed.

(** What the parser has done with the bytes [stream] received so far, the
    last of which, [chunk], it has not looked at. *)
Definition fed (stream chunk : bytes) (b : Buffer) (p : MultiBulkParser)
    (result : list StringView) : Prop :=
  buf_ok b ∧
  match state_ p with
  | kInit => p = new_parser ∧ pending b = stream ++ chunk ∧ header_of stream = More
  | kParsing =>
      ∃ n body l r, header_of stream = Got n body ∧ bulks_of n body = (kParsing, l, r) ∧
        p = mkParser kParsing n (length l) ∧ pending b = r ++ chunk ∧ views_ok b result l
  | _ => False
  end.

(** What a call of [Parse] answers for the bytes received. *)
Definition parse_post (stream : bytes) (res : Outcome parse_ret) : Prop :=
  let '(st, args, rest) := query_of stream in
  ∃ result' b' p', res = Ok (st, result', b', p') ∧ buf_ok b' ∧ pending b' = rest ∧
    views_ok b' result' args ∧ state_ p' = st ∧
    (st = kDone → args_ p' = Z.of_nat (length args)) ∧
    (st = kInit ∨ st = kParsing → fed stream [] b' p' result').

Lemma loop_post_parse stream b n body l r res st l' rest :
  header_of stream = Got n body → 0 ≤ n →
  bulks_of n body = (st, l ++ l', rest) → r = rest →
  loop_post b n l (st, l', r) res → parse_post stream res.
Proof.
  intros Hh Hn Hb -> (result'&b'&->&Hok&Hp&Hvs&_). unfold parse_post, query_of.
  rewrite Hh, Hb. destruct (bulks_of_todo _ _ _ _ _ Hb) as (Hi&Hd&_).
  eexists _, _, _. split; [reflexivity|]. split_and!; try done.
  - intros Hst. simpl. rewrite Hd by done. lia.
  - intros [->| ->]; [done|]. split; [done|]. simpl.
    exists n, body, (l ++ l'), rest. split_and!; try done. by rewrite app_nil_r.
Qed.

Lemma header_of_nonneg s n r : header_of s = Got n r → 0 ≤ n.
Proof.
  destruct s as [|c s]; [done|]. cbn [header_of]. destruct (negb _); [done|].
  destruct (find_crlf s); [|done]. destruct (from_chars_i32 _) as [m ?| |]; try done.
  destruct (Z.ltb_spec m 0); [done|]. by intros [= -> <-].
Qed.

Lemma Parse_fed_init stream chunk b result :
  fed stream chunk b new_parser result →
  parse_post (stream ++ chunk) (Parse result b new_parser).
Proof.
  intros (Hok&_&Hp&Hmore). unfold Parse. rewrite bool_decide_false by (by intros [|]).
  destruct (Source_bytes b Hok) as (src&Hsrc&Hb&_). rewrite (bind_Ok _ _ _ Hsrc). cbn beta iota.
  destruct (bool_decide_reflect (src_bytes src = [])) as [Hnil|Hne].
  { rewrite Hb, Hp in Hnil. rewrite Hnil. exists result, b, new_parser.
    rewrite Hp, Hnil. split_and!; try done; [apply views_ok_nil|].
    intros _. split; [done|]. simpl. rewrite Hp, Hnil. done. }
  destruct (src_at_Source _ _ Hok Hsrc Hne) as [Hs Hsp].
  rewrite bool_decide_true by done. rewrite <- Hp.
  destruct (ParseArgNum_spec src b new_parser Hok Hs Hsp) as (res&Heq&Hpost);
    [by rewrite <- Hb|].
  rewrite (bind_Ok _ _ _ Heq). cbn beta iota.
  destruct (header_of (pending b)) as [| |n body] eqn:Hh; simpl in Hpost.
  1,2: subst res; simpl; unfold parse_post, query_of; rewrite Hh;
    eexists _, b, _; (split; [reflexivity|]); split_and!; try done; try apply views_ok_nil;
    simpl; intros [?|?]; try done; (split; [done|]); simpl; by rewrite app_nil_r.
  destruct Hpost as (cursor&b'&->&Hok'&Hs'&Hp'&_). simpl (S cursor =? 0)%nat. cbv iota.
  pose proof (bulk_loop_spec (S (length (src_bytes src))) src (S cursor) result b' n []
    Hok' Hs') as Hl. simpl (length []) in Hl. rewrite Z.sub_0_r in Hl.
  destruct (src_at_pending _ _ _ Hok' Hs') as [_ Hlen].
  specialize (Hl ltac:(lia) (views_ok_nil _ _)). rewrite Hp' in Hl.
  destruct (bulks_of n body) as [[st l'] r] eqn:Hbk.
  apply (loop_post_parse _ b' n body [] r _ st l' r Hh);
    [by eapply header_of_nonneg|done|done|done].
Qed.

Lemma Parse_fed_parsing stream chunk b p result :
  state_ p = kParsing → fed stream chunk b p result →
  parse_post (stream ++ chunk) (Parse result b p).
Proof.
  intros Hst (Hok&Hf). rewrite Hst in Hf.
  destruct Hf as (n&body&l&r&Hh&Hbk&->&Hp&Hvs). unfold Parse.
  rewrite bool_decide_false by (by intros [|]).
  destruct (Source_bytes b Hok) as (src&Hsrc&Hb&_). rewrite (bind_Ok _ _ _ Hsrc). cbn beta iota.
  pose proof (header_of_Got_app _ chunk _ _ Hh) as Hh'.
  destruct (bool_decide_reflect (src_bytes src = [])) as [Hnil|Hne].
  { rewrite Hb, Hp in Hnil. apply app_nil in Hnil as [-> ->]. rewrite app_nil_r in *.
    unfold parse_post, query_of. rewrite Hh, Hbk. eexists _, _, _. split; [reflexivity|].
    split_and!; try done. intros _. split; [done|]. simpl.
    exists n, body, l, []. done. }
  destruct (src_at_Source _ _ Hok Hsrc Hne) as [Hs Hsp].
  rewrite bool_decide_false by done.
  pose proof (bulk_loop_spec (S (length (src_bytes src))) src 0 result b n l Hok Hs
    ltac:(rewrite Hsp; lia) Hvs) as Hl.
  pose proof (bulks_of_app n body chunk l r Hbk) as Happ. rewrite <- Hp in Happ.
  destruct (bulks_of (n - Z.of_nat (length l)) (pending b)) as [[st l'] r'].
  eapply loop_post_parse; [exact Hh'|by eapply header_of_nonneg|exact Happ|reflexivity|exact Hl].
Qed.

(** [Parse] answers what the grammar says of all the bytes received. *)
Lemma Parse_fed stream chunk b p result :
  fed stream chunk b p result → parse_post (stream ++ chunk) (Parse result b p).
Proof.
  intros Hf. destruct (state_ p) eqn:Hst.
  - destruct Hf as (Hok&Hf). rewrite Hst in Hf. destruct Hf as (->&Hf).
    by apply Parse_fed_init.
  - destruct Hf as (_&Hf). by rewrite Hst in Hf.
  - by apply Parse_fed_parsing.
  - destruct Hf as (_&Hf). by rewrite Hst in Hf.
Qed.
End refine.

(** ** The encoding of a query *)

Definition encode_query (args : list bytes) : bytes :=
  "*"%char :: to_chars (Z.of_nat (length args)) ++ CRLF ++ concat (map encode_bulk args).

Definition arg_ok (x : bytes) : Prop := Z.of_nat (length x) < 2 ^ 31.

Lemma to_chars_find n t :
  - 10 ^ 20 < n < 10 ^ 20 → find_crlf (to_chars n ++ CRLF ++ t) = Some (length (to_chars n)).
Proof. intros Hn. apply (find_crlf_no_CR _ t). by apply to_chars_no_CR. Qed.

Lemma read_to_chars n t :
  0 ≤ n < 2 ^ 31 →
  take (length (to_chars n)) (to_chars n ++ CRLF ++ t) = to_chars n ∧
  from_chars_i32 (to_chars n) = FcOk n [] ∧
  drop (length (to_chars n) + 2) (to_chars n ++ CRLF ++ t) = t ∧ length (to_chars n) ≠ 0%nat.
Proof.
  intros Hn. split_and!.
  - by rewrite take_app_length.
  - unfold from_chars_i32. rewrite <- (app_nil_r (to_chars n)).
    rewrite from_chars_to_chars; [done|lia|lia|done].
  - rewrite <- drop_drop, drop_app_length. done.
  - destruct (to_chars_nonneg 20 n) as (_&Hne&_); [lia|done|done|]. by destruct (to_chars n).
Qed.

Lemma bulk_of_encode x t : arg_ok x → bulk_of (encode_bulk x ++ t) = Got x t.
Proof.
  intros Hx. unfold arg_ok in Hx. unfold encode_bulk. cbn [app]. unfold bulk_of.
  rewrite bool_decide_true by done. simpl (negb _). cbv iota. rewrite <- !app_assoc.
  rewrite to_chars_find by lia.
  destruct (read_to_chars (Z.of_nat (length x)) (x ++ CRLF ++ t)) as (->&->&->&Hne); [lia|].
  rewrite (proj2 (Nat.eqb_neq _ _)) by done. rewrite Zltb_f by lia. cbv zeta. rewrite Nat2Z.id.
  rewrite !length_app, (proj2 (Nat.ltb_ge _ _)) by (simpl; lia).
  unfold slice. rewrite drop_app_length. simpl (take 2 _). rewrite bool_decide_true by done.
  rewrite take_app_length, <- drop_drop, drop_app_length. done.
Qed.

Lemma header_of_encode n t :
  0 ≤ n < 2 ^ 31 → header_of ("*"%char :: to_chars n ++ CRLF ++ t) = Got n t.
Proof.
  intros Hn. unfold header_of. rewrite bool_decide_true by done. simpl (negb _). cbv iota.
  rewrite to_chars_find by lia. destruct (read_to_chars n t Hn) as (->&->&->&_).
  by rewrite Zltb_f by lia.
Qed.

Lemma bulks_of_encode args t :
  Forall arg_ok args →
  bulks_of (Z.of_nat (length args)) (concat (map encode_bulk args) ++ t) = (kDone, args, t).
Proof.
  induction 1 as [|x args Hx _ IH]; rewrite bulks_of_eq; [done|].
  rewrite Zltb_t by (simpl; lia). cbn [map concat]. rewrite <- app_assoc.
  rewrite bulk_of_encode by done.
  replace (Z.of_nat (length (x :: args)) - 1) with (Z.of_nat (length args)) by (simpl; lia).
  by rewrite IH.
Qed.

(** Reading the encoding of a query gives the query and what follows it. *)
Lemma query_of_encode args t :
  Forall arg_ok args → Z.of_nat (length args) < 2 ^ 31 →
  query_of (encode_query args ++ t) = (kDone, args, t).
Proof.
  intros Hargs Hn. unfold query_of, encode_query. cbn [app]. rewrite <- !app_assoc.
  rewrite header_of_encode by lia. by apply bulks_of_encode.
Qed.

(** A verdict on a stream is a verdict on every longer one. *)
Lemma bulks_of_final todo s t st l r :
  bulks_of todo s = (st, l, r) → st = kDone ∨ st = kError →
  ∃ r', bulks_of todo (s ++ t) = (st, l, r') ∧ (st = kDone → r' = r ++ t).
Proof.
  remember (length s) as n eqn:Hn. revert todo s l Hn.
  induction (lt_wf n) as [n _ IH]. intros todo s l -> Heq Hst.
  rewrite bulks_of_eq in Heq. rewrite bulks_of_eq. destruct (0 <? todo).
  2: { simplify_eq. eauto. }
  destruct (bulk_of s) as [| |x rest] eqn:E.
  - simplify_eq. destruct Hst; done.
  - simplify_eq. rewrite (bulk_of_Bad_app _ _ E). eexists. split; [reflexivity|done].
  - rewrite (bulk_of_Got_app _ t _ _ E).
    destruct (bulks_of (todo - 1) rest) as [[st1 l1] r1] eqn:E1. simplify_eq.
    destruct (IH _ (bulk_of_shorter _ _ _ E) _ _ _ eq_refl E1 Hst) as (r'&->&Hr').
    by exists r'.
Qed.

Lemma query_of_final s t st l r :
  query_of s = (st, l, r) → st = kDone ∨ st = kError →
  ∃ r', query_of (s ++ t) = (st, l, r') ∧ (st = kDone → r' = r ++ t).
Proof.
  unfold query_of. intros Hq Hst. destruct (header_of s) as [| |n body] eqn:Hh.
  - simplify_eq. destruct Hst; done.
  - simplify_eq. rewrite (header_of_Bad_app _ _ Hh). eexists. split; [reflexivity|done].
  - rewrite (header_of_Got_app _ t _ _ Hh). by apply bulks_of_final.
Qed.

Lemma query_of_prefix args s t :
  Forall arg_ok args → Z.of_nat (length args) < 2 ^ 31 → s ++ t = encode_query args → t ≠ [] →
  (query_of s).1.1 = kInit ∨ (query_of s).1.1 = kParsing.
Proof.
  intros Hargs Hn Hst Ht. pose proof (query_of_encode args [] Hargs Hn) as He.
  rewrite app_nil_r, <- Hst in He. destruct (query_of s) as [[st l] r] eqn:Hq.
  destruct st; simpl; [by left| |by right|].
  - destruct (query_of_final s t _ _ _ Hq) as (r'&Hq'&_); [by right|]. congruence.
  - destruct (query_of_final s t _ _ _ Hq) as (r'&Hq'&Hr'); [by left|].
    rewrite He in Hq'. injection Hq' as _ Hr. symmetry in Hr. rewrite Hr' in Hr by done.
    by apply app_nil in Hr as [_ ?].
Qed.

(** ** Inline queries *)

(** The words of a line: the reference for [ParseInline]. *)
Fixpoint words (w s : bytes) : list bytes :=
  match s with
  | [] => match w with [] => [] | _ => [w] end
  | c :: s =>
      if isspace c then match w with [] => words [] s | _ => w :: words [] s end
      else words (w ++ [c]) s
  end.

Lemma words_word w v s :
  Forall (λ c, isspace c = false) v → w ++ v ≠ [] →
  match s with [] => True | c :: _ => isspace c = true end →
  words w (v ++ s) = (w ++ v) :: words [] s.
Proof.
  intros Hv. revert w. induction Hv as [|c v Hc _ IH]; intros w Hne Hs; cbn [app words].
  - rewrite app_nil_r in *. destruct s as [|c s]; cbn [words]; [by destruct w|].
    rewrite Hs. by destruct w.
  - rewrite Hc. rewrite IH; rewrite <- ?app_assoc; done.
Qed.

Section inline.
Context `{!BuildMode}.

Lemma scan_word_spec fuel src crlf j :
  (crlf ≤ length (src_bytes src))%nat → (j ≤ crlf)%nat → (crlf - j ≤ fuel)%nat →
  ∃ k, scan_word fuel src crlf j = Ok k ∧ (j ≤ k ≤ crlf)%nat ∧
    Forall (λ c, isspace c = false) (slice j (k - j) (src_bytes src)) ∧
    match slice k (crlf - k) (src_bytes src) with [] => True | c :: _ => isspace c = true end.
Proof.
  intros Hl. revert j. induction fuel as [|fuel IH]; intros j Hj Hf; cbn [scan_word];
    (destruct (Nat.ltb_spec j crlf) as [Hlt|Hge];
     [|exists j; rewrite !Nat.sub_diag; replace (crlf - j)%nat with 0%nat by lia;
       split_and!; [done|lia|lia|constructor|done]]); [lia|].
  unfold char_at. destruct (lookup_lt_is_Some_2 (src_bytes src) j) as [c Hc]; [lia|].
  rewrite Hc. cbn [mbind outcome_bind]. destruct (isspace c) eqn:Hsp.
  - exists j. rewrite Nat.sub_diag. split_and!; [done|lia|lia|constructor|].
    unfold slice. rewrite (drop_S _ _ _ Hc). by destruct (crlf - j)%nat.
  - destruct (IH (S j)) as (k&->&Hk&Hall&Hend); [lia|lia|]. exists k.
    split_and!; [done|lia|lia| |done]. unfold slice in *. rewrite (drop_S _ _ _ Hc).
    replace (k - j)%nat with (S (k - S j)) by lia. by constructor.
Qed.

(** A view into [src] of the string [s] inside the line. *)
Definition view_src (src : Source_) (crlf : nat) (v : StringView) (s : bytes) : Prop :=
  ∃ o, sv_data v = src_data src + Z.of_nat o ∧ sv_size v = length s ∧
       (o + length s ≤ crlf)%nat ∧ slice o (length s) (src_bytes src) = s.

Lemma put_arg_spec P result l v s :
  views_by P result l → P v s →
  ∃ result', put_arg result (length l) v = Ok result' ∧ views_by P result' (l ++ [s]).
Proof.
  intros Hvs Hv. pose proof (views_ok_snoc P result l v s Hvs Hv) as Hvs'.
  eexists. split; [|exact Hvs']. destruct Hvs as [Hle _]. unfold put_arg.
  destruct (Nat.leb_spec (length result) (length l)).
  - by rewrite (proj2 (Nat.eqb_eq _ _)) by lia.
  - rewrite (proj2 (Nat.eqb_neq _ _)) by lia. by apply vec_set_nat.
Qed.

Lemma inline_loop_spec fuel src crlf i result l :
  (crlf ≤ length (src_bytes src))%nat → (i ≤ crlf)%nat → (crlf - i < fuel)%nat →
  views_by (view_src src crlf) result l →
  ∃ result', let ws := l ++ words [] (slice i (crlf - i) (src_bytes src)) in
    inline_loop fuel src crlf i (length l) result = Ok (length ws, result') ∧
    views_by (view_src src crlf) result' ws.
Proof.
  intros Hl. revert i result l. induction fuel as [|fuel IH]; intros i result l Hi Hf Hvs; [lia|].
  cbn [inline_loop]. destruct (Nat.ltb_spec i crlf) as [Hlt|Hge].
  2: { replace (crlf - i)%nat with 0%nat by lia. exists result. simpl. by rewrite app_nil_r. }
  unfold char_at. destruct (lookup_lt_is_Some_2 (src_bytes src) i) as [c Hc]; [lia|].
  rewrite Hc. cbn [mbind outcome_bind].
  assert (slice i (crlf - i) (src_bytes src) = c :: slice (S i) (crlf - S i) (src_bytes src)) as Hsl.
  { unfold slice. rewrite (drop_S _ _ _ Hc). by replace (crlf - i)%nat with (S (crlf - S i)) by lia. }
  destruct (isspace c) eqn:Hsp.
  - rewrite Hsl. cbn [words]. rewrite Hsp. apply IH; [lia|lia|done].
  - destruct (scan_word_spec crlf src crlf (S i)) as (k&Heq&Hk&Hall&Hend); [lia|lia|lia|].
    rewrite (bind_Ok _ _ _ Heq). cbn beta iota.
    set (w := slice i (k - i) (src_bytes src)).
    assert (length w = (k - i)%nat) as Hw by (apply length_slice; lia).
    destruct (put_arg_spec _ result l (mkSV (src_data src + Z.of_nat i) (k - i)) w Hvs)
      as (result2&Heq2&Hvs2).
    { exists i. rewrite Hw. split_and!; [done|done|lia|done]. }
    rewrite (bind_Ok _ _ _ Heq2). cbn beta iota.
    destruct (IH k result2 (l ++ [w])) as (result'&Heq'&Hvs'); [lia|lia|done|].
    exists result'. rewrite length_app, Nat.add_1_r in Heq'. rewrite <- app_assoc in *.
    replace (words [] (slice i (crlf - i) (src_bytes src)))
      with ([w] ++ words [] (slice k (crlf - k) (src_bytes src))); [done|].
    etransitivity; [symmetry; apply (words_word [] w); [..|done]|].
    3: f_equal; unfold w, slice; replace (crlf - i)%nat with ((k - i) + (crlf - k))%nat by lia;
      rewrite <- take_take_drop, drop_drop; do 3 f_equal; lia.
    + unfold w, slice in *. rewrite (drop_S _ _ _ Hc).
      replace (k - i)%nat with (S (k - S i)) by lia. by constructor.
    + simpl. intros Hnil. rewrite Hnil in Hw. simpl in Hw. lia.
Qed.

(** What [ParseInline] answers for the unread bytes [s]. *)
Definition inline_of (s : bytes) : ParserState * list bytes * bytes :=
  if bool_decide (s = []) then (kError, [], s)
  else match find_crlf s with
       | None => (if (kMaxInlineBufferSize <=? length s)%nat then kError else kParsing, [], s)
       | Some i =>
           let ws := words [] (take i s) in
           (if bool_decide (ws = []) then kParsing else kDone, ws, drop (i + 2) s)
       end.

Lemma ParseInline_spec result b :
  buf_ok b →
  let '(st, ws, rest) := inline_of (pending b) in
  ∃ result' n b', ParseInline result b = Ok (st, result', n, b') ∧ buf_ok b' ∧
    pending b' = rest ∧ views_ok b' result' ws ∧ (st = kDone → n = Some (length ws)).
Proof.
  intros Hok. unfold inline_of, ParseInline.
  destruct (Source_bytes b Hok) as (src&Hsrc&Hb&_). rewrite (bind_Ok _ _ _ Hsrc). cbn beta iota.
  rewrite Hb. destruct (bool_decide_reflect (pending b = [])) as [Hnil|Hne].
  { eexists _, _, _. split; [reflexivity|]. split_and!; [done|done|apply views_ok_nil|done]. }
  destruct (src_at_Source _ _ Hok Hsrc) as [Hs _]; [by rewrite Hb|].
  destruct (find_crlf (pending b)) as [i|] eqn:Hfind.
  2: { destruct (_ <=? _)%nat; eexists _, _, _; (split; [reflexivity|]);
       split_and!; try done; apply views_ok_nil. }
  destruct (find_crlf_Some _ _ Hfind) as [_ Hil]. cbv zeta.
  destruct (inline_loop_spec (S i) src i 0 result []) as (result'&Heq&Hvs);
    [rewrite Hb; lia|lia|lia|apply views_ok_nil|].
  rewrite Hb in Heq, Hvs. unfold slice in Heq, Hvs. rewrite drop_0, Nat.sub_0_r in Heq, Hvs.
  set (ws := words [] (take i (pending b))) in *. cbn [app length] in Heq, Hvs.
  rewrite (bind_Ok _ _ _ Heq). cbn beta iota.
  destruct (src_at_Consume src 0 b (i + 2) Hok Hs) as (b'&Heq'&Hok'&_&Hp'&Hri&Hst&Hd&_); [lia|].
  rewrite (bind_Ok _ _ _ Heq'). cbn beta iota.
  assert (views_ok b' result' ws) as Hvs'.
  { destruct Hvs as [Hlen Hall]. split; [done|]. intros j v s Hv Hsj.
    destruct (Hall j v s Hv Hsj) as (o&Ha&Hsz&Ho&Hsl).
    destruct v as [a n]. simpl in Ha, Hsz. subst a n. rewrite Hb in Hsl.
    rewrite <- Hsl at 2. apply (src_at_view src 0 b b' o (length s) (i + 2)); try done; lia. }
  destruct ws as [|w ws]; simpl (length _ =? 0)%nat; cbv iota.
  - rewrite bool_decide_true by done. by exists result', None, b'.
  - rewrite bool_decide_false by done. by exists result', (Some (S (length ws))), b'.
Qed.
End inline.
