(* ===== verification/Replier.v ===== *)
(** * Results and their RESP encoding

    Model of [Result] (src/src/resp/result.h, result.cc), [Error]
    (src/src/resp/error.h, error.cc) and of the functions that turn a result
    into the bytes of a reply (src/src/resp/replier.cc).  String values are
    shared objects: a result holds pointers into the string store, and the
    reply is gathered from the output buffer and the string objects when it is
    written to the socket. *)

From S2P Require Import Prelude Chars Buffer.

(** ** Data *)

(** [MTSPtr]: a shared pointer to a string object, possibly null; the objects
    are in a store. *)
Abbreviation sid := positive.
Abbreviation MTSPtr := (option sid).
Abbreviation StrStore := (gmap sid bytes).

Inductive Error :=
  | kProtocol
  | kUnknownCommand
  | kOOM
  | kWrongArgNum
  | kSyntaxError
  | kNotAnInt.

(** [Result::Type]. *)
Inductive RType := TOk | TError | TNil | TInt | TString | TStrings.

#[global] Instance Error_eq_dec : EqDecision Error.
Proof. solve_decision. Defined.
#[global] Instance RType_eq_dec : EqDecision RType.
Proof. solve_decision. Defined.

Record Result := mkResult {
  type : RType;
  error : Error;
  int_value : Z;
  string_ptr : MTSPtr;
  strings : list MTSPtr }.

#[global] Instance Result_eq_dec : EqDecision Result.
Proof. solve_decision. Defined.

Definition new_Result : Result := mkResult TOk kProtocol 0 None [].

(** ** Operations of [Result] *)

Definition SetOk (r : Result) : Result :=
  mkResult TOk (error r) (int_value r) (string_ptr r) (strings r).
Definition SetError (e : Error) (r : Result) : Result :=
  mkResult TError e (int_value r) (string_ptr r) (strings r).
Definition SetNil (r : Result) : Result :=
  mkResult TNil (error r) (int_value r) (string_ptr r) (strings r).
Definition SetString (str : MTSPtr) (r : Result) : Result :=
  mkResult TString (error r) (int_value r) str (strings r).
Definition SetInt (val : Z) (r : Result) : Result :=
  mkResult TInt (error r) val (string_ptr r) (strings r).
Definition AddString (str : MTSPtr) (r : Result) : Result :=
  mkResult TStrings (error r) (int_value r) (string_ptr r) (strings r ++ [str]).
Definition ResetResult (r : Result) : Result :=
  mkResult TOk (error r) (int_value r) None [].

(** [kErrorStr]. *)
Definition ErrorToStringView (e : Error) : bytes :=
  match e with
  | kProtocol => lit "-ERR Protocol error"
  | kUnknownCommand => lit "-ERR unknown command"
  | kOOM => lit "-OOM command not allowed when used memory > 'maxmemory'."
  | kWrongArgNum => lit "-ERR wrong number of arguments."
  | kSyntaxError => lit "-ERR syntax error"
  | kNotAnInt => lit "-ERR value is not an integer or out of range"
  end ++ CRLF.

(** ** The replier *)

Definition kOkStr : bytes := lit "+OK" ++ CRLF.
Definition kNilStr : bytes := lit "$-1" ++ CRLF.

(** An [iovec]: static text, a piece of the output buffer, or the characters
    of a string object. *)
Inductive iovec :=
  | IovStatic (s : bytes)
  | IovSink (off len : nat)
  | IovStr (s : sid).

Definition NeedsGather (r : Result) : bool :=
  bool_decide (type r = TString) || bool_decide (type r = TStrings).

Section replier.
Context `{!BuildMode}.

(** [sink] is the region of [room] bytes at offset [off] of the buffer. *)
Definition IntToChars (val : Z) (off room : nat) (b : Buffer) : Outcome (nat * Buffer) :=
  _ ← cassert (13 <=? room)%nat;
  let s := to_chars val in
  if (room <? length s)%nat then
    (* std::to_chars fails; the characters after the sink are overwritten *)
    _ ← cassert false; Fault OutOfRange
  else
    _ ← cassert (length s + 2 <=? room)%nat;
    b ← write_at off (s ++ CRLF) b;
    Ok ((length s + 2)%nat, b).

Definition StrToIovecs (strs : StrStore) (str : MTSPtr) (off room : nat) (b : Buffer)
    (iovecs : list iovec) : Outcome (nat * Buffer * list iovec) :=
  match str with
  | None => Ok (0%nat, b, iovecs ++ [IovStatic kNilStr])
  | Some s =>
      c ← deref (strs !! s);
      b ← write_at off ["$"%char] b;
      '(offset, b) ← IntToChars (i32 (Z.of_nat (length c))) (off + 1) (room - 1) b;
      let offset := S offset in
      Ok (offset, b,
          iovecs ++ [IovSink off offset; IovStr s; IovSink (off + offset - 2) 2])
  end.

Definition ResultToStringView (blk : Block) (r : Result) (b : Buffer)
    : Outcome (bytes * Buffer) :=
  match type r with
  | TOk => Ok (kOkStr, b)
  | TNil => Ok (kNilStr, b)
  | TError => Ok (ErrorToStringView (error r), b)
  | TInt =>
      '(_, _, b) ← EnsureAvailable 32 false blk b;
      '(off, room) ← Sink b;
      b ← write_at off [":"%char] b;
      '(offset, b) ← IntToChars (int_value r) (off + 1) (room - 1) b;
      b ← Produce (offset + 1) b;
      src ← Source b;
      Ok (src_bytes src, b)
  | _ => Fault LogFatal
  end.

(** The loop over [result.strings]. *)
Fixpoint strings_loop (strs : StrStore) (l : list MTSPtr) (off room cursor : nat) (b : Buffer)
    (iovecs : list iovec) : Outcome (Buffer * list iovec) :=
  match l with
  | [] => Ok (b, iovecs)
  | str :: l =>
      '(n, b, iovecs) ← StrToIovecs strs str (off + cursor) (room - cursor) b iovecs;
      strings_loop strs l off room (cursor + n) b iovecs
  end.

Definition ResultToIovecs (strs : StrStore) (blk : Block) (r : Result) (b : Buffer)
    (iovecs : list iovec) : Outcome (Buffer * list iovec) :=
  if bool_decide (type r = TString) then
    '(_, _, b) ← EnsureAvailable 64 false blk b;
    '(off, room) ← Sink b;
    '(_, b, iovecs) ← StrToIovecs strs (string_ptr r) off room b iovecs;
    Ok (b, iovecs)
  else
    '(_, _, b) ← EnsureAvailable (length (strings r) * 32) false blk b;
    '(off, room) ← Sink b;
    b ← write_at off ["*"%char] b;
    '(cursor, b) ← IntToChars (Z.of_nat (length (strings r))) (off + 1) (room - 1) b;
    let cursor := S cursor in
    strings_loop strs (strings r) off room cursor b (iovecs ++ [IovSink off cursor]).

(** [writev]: the bytes the kernel gathers. *)
Definition iov_bytes (strs : StrStore) (b : Buffer) (v : iovec) : Outcome bytes :=
  match v with
  | IovStatic s => Ok s
  | IovSink off len =>
      if (off + len <=? length (data_ b))%nat then Ok (slice off len (data_ b))
      else Fault OutOfRange
  | IovStr s => deref (strs !! s)
  end.

Fixpoint gather (strs : StrStore) (b : Buffer) (vs : list iovec) : Outcome bytes :=
  match vs with
  | [] => Ok []
  | v :: vs => x ← iov_bytes strs b v; y ← gather strs b vs; Ok (x ++ y)
  end.

(** The reply part of [Client::Process]: [Writev] of the gathered iovecs or
    [Send] of a view; the bytes handed to the socket. *)
Definition Reply (strs : StrStore) (blk : Block) (r : Result) (b : Buffer)
    : Outcome (bytes * Buffer) :=
  if NeedsGather r then
    '(b, iovecs) ← ResultToIovecs strs blk r b [];
    out ← gather strs b iovecs;
    Ok (out, b)
  else ResultToStringView blk r b.
End replier.

(** ** The RESP encoding of a result *)

Definition encode_ptr (strs : StrStore) (p : MTSPtr) : bytes :=
  match p with
  | None => kNilStr
  | Some s => encode_bulk (default [] (strs !! s))
  end.

Definition encode_result (strs : StrStore) (r : Result) : bytes :=
  match type r with
  | TOk => kOkStr
  | TNil => kNilStr
  | TError => ErrorToStringView (error r)
  | TInt => ":"%char :: to_chars (int_value r) ++ CRLF
  | TString => encode_ptr strs (string_ptr r)
  | TStrings => "*"%char :: to_chars (Z.of_nat (length (strings r))) ++ CRLF
                  ++ concat (map (encode_ptr strs) (strings r))
  end.

(** The string objects a result points to, and what the replier relies on: they
    exist, and their length fits an [int32_t]. *)
Definition ptr_ok (strs : StrStore) (p : MTSPtr) : Prop :=
  match p with
  | None => True
  | Some s => ∃ c, strs !! s = Some c ∧ Z.of_nat (length c) < 2 ^ 31
  end.

Definition result_ok (strs : StrStore) (r : Result) : Prop :=
  match type r with
  | TInt => - 2 ^ 63 ≤ int_value r < 2 ^ 63
  | TString => ptr_ok strs (string_ptr r)
  | TStrings => Forall (ptr_ok strs) (strings r) ∧ Z.of_nat (length (strings r)) < 2 ^ 32
  | _ => True
  end.

(** ** Writes into the output buffer *)

(** [b'] is [b] with the string [s] written at [off]. *)
Definition wrote (off : nat) (s : bytes) (b b' : Buffer) : Prop :=
  (off + length s ≤ length (data_ b))%nat ∧
  b' = set_data (take off (data_ b) ++ s ++ drop (off + length s) (data_ b)) b.

Lemma write_at_wrote off s b :
  (off + length s ≤ length (data_ b))%nat → ∃ b', write_at off s b = Ok b' ∧ wrote off s b b'.
Proof.
  intros Hle. unfold write_at. rewrite (proj2 (Nat.leb_le _ _)) by done. by eexists.
Qed.

Lemma wrote_nil off b : (off ≤ length (data_ b))%nat → wrote off [] b b.
Proof.
  intros Hle. split; [simpl; lia|]. simpl. rewrite Nat.add_0_r, take_drop. by destruct b.
Qed.

Lemma wrote_length off s b b' : wrote off s b b' → length (data_ b') = length (data_ b).
Proof. intros [Hle ->]. simpl. rewrite !length_app, length_take, length_drop. lia. Qed.

Lemma wrote_ok off s b b' : wrote off s b b' → buf_ok b → buf_ok b'.
Proof.
  intros Hw (?&?&?). pose proof (wrote_length _ _ _ _ Hw) as Hl. destruct Hw as [_ ->].
  simpl in *. unfold buf_ok. simpl. rewrite Hl. split_and!; (done || lia).
Qed.

Lemma wrote_slice off s b b' o n :
  wrote off s b b' → (off + o + n ≤ off + length s)%nat →
  slice (off + o) n (data_ b') = slice o n s.
Proof.
  intros [Hle ->] Hn. simpl. unfold slice. rewrite <- drop_drop.
  rewrite drop_app_length' by (rewrite length_take; lia).
  rewrite drop_app_le by lia. rewrite take_app_le; [done|]. rewrite length_drop. lia.
Qed.

Lemma wrote_below off s b b' o n :
  wrote off s b b' → (o + n ≤ off)%nat → slice o n (data_ b') = slice o n (data_ b).
Proof.
  intros [Hle ->] Hn. simpl. rewrite slice_app_l by (rewrite length_take; lia).
  unfold slice. rewrite skipn_firstn_comm, take_take. f_equal. lia.
Qed.

Lemma wrote_trans off s t b b1 b2 :
  wrote off s b b1 → wrote (off + length s) t b1 b2 → wrote off (s ++ t) b b2.
Proof.
  intros Hw [Hle ->]. pose proof (wrote_length _ _ _ _ Hw) as Hl. destruct Hw as [Hle1 ->].
  simpl in *. split; [rewrite length_app; lia|]. unfold set_data. simpl. f_equal.
  set (d := data_ b) in *. assert (length (take off d) = off) as Ht by (rewrite length_take; lia).
  replace (take (off + length s) (take off d ++ s ++ drop (off + length s) d))
    with (take off d ++ s).
  2: { rewrite app_assoc. symmetry. apply take_app_length'. rewrite length_app. lia. }
  rewrite <- !app_assoc. do 3 f_equal. rewrite length_app.
  rewrite app_assoc, drop_app_ge by (rewrite length_app; lia).
  rewrite drop_drop, length_app, Ht. f_equal. lia.
Qed.

(** ** The replier's functions *)

Section replier_spec.
Context `{!BuildMode} (strs : StrStore).

Lemma gather_app b vs ws x y :
  gather strs b vs = Ok x → gather strs b ws = Ok y → gather strs b (vs ++ ws) = Ok (x ++ y).
Proof.
  revert x. induction vs as [|v vs IH]; intros x Hx Hy; simpl in *; [by simplify_eq|].
  apply bind_Ok_inv in Hx as (x0&Hv&Hx). apply bind_Ok_inv in Hx as (x1&Hvs&[= <-]).
  rewrite (bind_Ok _ _ _ Hv), (IH _ Hvs Hy). simpl. by rewrite app_assoc.
Qed.

(** Pieces of the buffer below [lim]. *)
Definition iov_below (lim : nat) (v : iovec) : Prop :=
  match v with IovSink off len => (off + len ≤ lim)%nat | _ => True end.

Lemma gather_frame off s b b' vs :
  wrote off s b b' → Forall (iov_below off) vs → gather strs b' vs = gather strs b vs.
Proof.
  intros Hw. induction 1 as [|v vs Hv _ IH]; simpl; [done|]. rewrite IH.
  destruct v as [t|o n|t]; simpl in *; try done.
  by rewrite (wrote_length _ _ _ _ Hw), (wrote_below _ _ _ _ o n Hw Hv).
Qed.

Lemma IntToChars_spec val off room b :
  (length (to_chars val) + 2 ≤ room)%nat → (13 ≤ room)%nat →
  (off + room ≤ length (data_ b))%nat →
  ∃ b', IntToChars val off room b = Ok ((length (to_chars val) + 2)%nat, b') ∧
        wrote off (to_chars val ++ CRLF) b b'.
Proof.
  intros Hl H13 Hroom. unfold IntToChars.
  rewrite (cassert_true (13 <=? room)%nat) by (by apply Nat.leb_le).
  cbn [mbind outcome_bind]. rewrite (proj2 (Nat.ltb_ge _ _)) by lia. cbv iota.
  rewrite cassert_true by (by apply Nat.leb_le). cbn [mbind outcome_bind].
  destruct (write_at_wrote off (to_chars val ++ CRLF) b) as (b'&Heq&Hw).
  { rewrite length_app. simpl. lia. }
  rewrite (bind_Ok _ _ _ Heq). by exists b'.
Qed.

(** A tag character and a number: the start of every RESP item. *)
Lemma tagged_int c val off room b :
  (length (to_chars val) + 3 ≤ room)%nat → (14 ≤ room)%nat →
  (off + room ≤ length (data_ b))%nat →
  ∃ b1 b', write_at off [c] b = Ok b1 ∧
    IntToChars val (off + 1) (room - 1) b1 = Ok ((length (to_chars val) + 2)%nat, b') ∧
    wrote off (c :: to_chars val ++ CRLF) b b'.
Proof.
  intros Hl H14 Hroom. destruct (write_at_wrote off [c] b) as (b1&Heq&Hw); [simpl; lia|].
  pose proof (wrote_length _ _ _ _ Hw) as Hlen.
  destruct (IntToChars_spec val (off + 1) (room - 1) b1) as (b'&Heq'&Hw'); [lia|lia|lia|].
  exists b1, b'. split_and!; [done|done|]. by apply (wrote_trans off [c] _ b b1 b').
Qed.

Lemma small_length (c : bytes) :
  Z.of_nat (length c) < 2 ^ 31 →
  i32 (Z.of_nat (length c)) = Z.of_nat (length c) ∧
  (length (to_chars (Z.of_nat (length c))) ≤ 10)%nat.
Proof.
  intros Hc. split; [apply i32_small; lia|].
  destruct (to_chars_nonneg 10 (Z.of_nat (length c))) as (_&_&?&_); [lia|done|lia|done].
Qed.

Lemma StrToIovecs_spec str off room b iovecs :
  ptr_ok strs str → (14 ≤ room)%nat → (off + room = length (data_ b))%nat →
  ∃ h b' vs, StrToIovecs strs str off room b iovecs = Ok (length h, b', iovecs ++ vs) ∧
    wrote off h b b' ∧ (length h ≤ 13)%nat ∧ Forall (iov_below (off + length h)) vs ∧
    gather strs b' vs = Ok (encode_ptr strs str).
Proof.
  intros Hp Hroom Hlen. unfold StrToIovecs, encode_ptr. destruct str as [s|].
  2: { exists [], b, [IovStatic kNilStr]. simpl. split_and!; [done|apply wrote_nil; lia|lia| |done].
       by repeat constructor. }
  destruct Hp as (c&Hs&Hc). rewrite Hs. cbn [deref mbind outcome_bind default].
  destruct (small_length c Hc) as [-> Hd]. set (n := Z.of_nat (length c)) in *.
  destruct (tagged_int "$"%char n off room b) as (b1&b'&Heq1&Heq2&Hw); [lia|lia|lia|].
  rewrite (bind_Ok _ _ _ Heq1). cbn beta. rewrite (bind_Ok _ _ _ Heq2). cbn beta iota.
  set (h := "$"%char :: to_chars n ++ CRLF) in *.
  assert (length h = S (length (to_chars n) + 2)) as Hh by (unfold h; simpl; by rewrite length_app).
  exists h, b', [IovSink off (length h); IovStr s; IovSink (off + length h - 2) 2].
  rewrite <- Hh. split_and!; [done|done|lia| |].
  { constructor; [simpl; lia|]. constructor; [done|].
    constructor; [unfold iov_below; clearbody h; lia|done]. }
  pose proof (wrote_length _ _ _ _ Hw) as Hl'.
  cbn [gather iov_bytes]. rewrite !(proj2 (Nat.leb_le _ _)) by lia. rewrite Hs.
  cbn [deref mbind outcome_bind].
  pose proof (wrote_slice off h b b' 0 (length h) Hw) as H1. rewrite Nat.add_0_r in H1.
  rewrite H1 by lia. replace (off + length h - 2)%nat with (off + (length h - 2))%nat by lia.
  rewrite (wrote_slice off h b b' (length h - 2) 2 Hw) by lia.
  unfold slice at 1. rewrite drop_0, firstn_all.
  replace (slice (length h - 2) 2 h) with CRLF.
  - unfold encode_bulk, h. fold n. rewrite app_nil_r. simpl. by rewrite <- ?app_assoc.
  - rewrite Hh. replace (S (length (to_chars n) + 2) - 2)%nat
      with (length ("$"%char :: to_chars n)) by (simpl; lia).
    unfold slice, h. cbn [length]. by rewrite skipn_cons, drop_app_length.
Qed.

Lemma strings_loop_spec l off room cursor b iovecs :
  Forall (ptr_ok strs) l → (off + room = length (data_ b))%nat →
  (cursor + 13 * length l + 1 ≤ room)%nat →
  ∃ h b' vs, strings_loop strs l off room cursor b iovecs = Ok (b', iovecs ++ vs) ∧
    wrote (off + cursor) h b b' ∧
    gather strs b' vs = Ok (concat (map (encode_ptr strs) l)).
Proof.
  intros Hl. revert cursor b iovecs. induction Hl as [|str l Hs Hl IH];
    intros cursor b iovecs Hlen Hroom; cbn [strings_loop length] in *.
  { exists [], b, []. rewrite app_nil_r. split_and!; [done|apply wrote_nil; lia|done]. }
  destruct (StrToIovecs_spec str (off + cursor) (room - cursor) b iovecs Hs)
    as (h&b1&vs&Heq&Hw&Hh&Hbelow&Hg); [lia|lia|].
  rewrite (bind_Ok _ _ _ Heq). cbn beta iota.
  pose proof (wrote_length _ _ _ _ Hw) as Hl1.
  destruct (IH (cursor + length h)%nat b1 (iovecs ++ vs)) as (h'&b'&ws&Heq'&Hw'&Hg'); [lia|lia|].
  rewrite Nat.add_assoc in Hw'.
  exists (h ++ h'), b', (vs ++ ws). rewrite Heq', <- app_assoc. split_and!; [done|..].
  - by apply (wrote_trans _ _ _ b b1 b').
  - apply gather_app; [|done]. by rewrite (gather_frame _ _ _ _ _ Hw' Hbelow).
Qed.

(** The output buffer between two replies: empty, of at least its initial
    size; and the room the replier asks of the allocator. *)
Definition out_ok (b : Buffer) : Prop :=
  buf_ok b ∧ read_index_ b = 0%nat ∧ write_index_ b = 0%nat ∧
  (kOutputBufferSize ≤ length (data_ b))%nat.

Definition blk_ok (r : Result) (blk : Block) : Prop :=
  (64 + 32 * length (strings r) ≤ blk_capacity blk)%nat.

Lemma out_room n b blk :
  out_ok b → (n ≤ blk_capacity blk)%nat →
  ∃ p z b', EnsureAvailable n false blk b = Ok (p, z, b') ∧ out_ok b' ∧
    Sink b' = Ok (0%nat, length (data_ b')) ∧ (n ≤ length (data_ b'))%nat.
Proof.
  intros (Hok&Hr&Hw&Hsz) Hblk.
  destruct (EnsureAvailable_spec n false blk b Hok) as (p&z&b'&Heq&Hok'&_&Hav&Hri&Hwi&[x Hx]&_).
  { unfold MakeRoomFor. simpl. lia. }
  exists p, z, b'. unfold Available in Hav. unfold Sink, Available.
  rewrite Hwi, Hw in *. destruct Hok' as (Hv&?&?).
  rewrite Hv, cassert_true by done. cbn [mbind outcome_bind].
  rewrite (proj2 (Nat.leb_le 0 _)) by lia. rewrite Nat.sub_0_r. split_and!; try done.
  - unfold out_ok, buf_ok. rewrite Hri, Hwi, Hr, Hx, length_app in *. split_and!; (done || lia).
  - lia.
Qed.

Lemma reply_int val blk r b :
  type r = TInt → int_value r = val → - 2 ^ 63 ≤ val < 2 ^ 63 → out_ok b → blk_ok r blk →
  ∃ b', ResultToStringView blk r b = Ok (":"%char :: to_chars val ++ CRLF, b') ∧ buf_ok b' ∧
        (kOutputBufferSize ≤ length (data_ b'))%nat.
Proof.
  intros Ht Hi Hval Hout Hblk. unfold ResultToStringView. rewrite Ht, Hi.
  destruct (out_room 32 b blk Hout) as (p&z&b1&Heq&(Hok&Hr&Hw&Hsz)&Hsink&Hroom);
    [unfold blk_ok in Hblk; lia|].
  rewrite (bind_Ok _ _ _ Heq). cbn beta iota. rewrite (bind_Ok _ _ _ Hsink). cbn beta iota.
  assert (length (to_chars val) ≤ 20)%nat as Hl by (apply (to_chars_length 19); lia).
  unfold kOutputBufferSize in Hsz.
  destruct (tagged_int ":"%char val 0 (length (data_ b1)) b1) as (b2&b3&Heq1&Heq2&Hwr);
    [lia|lia|lia|].
  rewrite (bind_Ok _ _ _ Heq1). cbn beta. rewrite (bind_Ok _ _ _ Heq2). cbn beta iota.
  set (h := ":"%char :: to_chars val ++ CRLF) in *.
  assert (length h = (length (to_chars val) + 2 + 1)%nat) as Hh
    by (unfold h; simpl; rewrite length_app; simpl; lia).
  clearbody h. pose proof (wrote_length _ _ _ _ Hwr) as Hl3. pose proof (wrote_ok _ _ _ _ Hwr Hok) as Hok3.
  assert (read_index_ b3 = 0%nat ∧ write_index_ b3 = 0%nat) as [Hr3 Hw3].
  { destruct Hwr as [_ ->]. done. }
  unfold Produce. destruct Hok3 as (Hv3&?&?). rewrite Hv3, (cassert_true (negb false)) by done.
  cbn [mbind outcome_bind]. rewrite cassert_true by (apply Nat.leb_le; lia).
  cbn [mbind outcome_bind]. rewrite <- Hh, Hr3, Hw3.
  set (b4 := set_indices 0 (0 + length h) b3).
  assert (buf_ok b4) as Hok4 by (split_and!; simpl; (done || lia)).
  destruct (Source_bytes b4 Hok4) as (src&Hsrc&Hsb&_).
  rewrite (bind_Ok _ _ _ Hsrc). cbn beta. exists b4. rewrite Hsb.
  split_and!; [|done..|unfold kOutputBufferSize; simpl; lia].
  do 2 f_equal. unfold pending. simpl read_index_. simpl write_index_. rewrite Nat.sub_0_r.
  pose proof (wrote_slice 0 h b1 b3 0 (length h) Hwr) as Hs. simpl (0 + 0)%nat in Hs.
  simpl (data_ b4). rewrite Hs by lia. unfold slice. rewrite drop_0. apply firstn_all.
Qed.

Lemma reply_strings blk r b :
  type r = TStrings → result_ok strs r → out_ok b → blk_ok r blk →
  ∃ b' vs, ResultToIovecs strs blk r b [] = Ok (b', vs) ∧
    gather strs b' vs = Ok (encode_result strs r) ∧ buf_ok b' ∧
    (kOutputBufferSize ≤ length (data_ b'))%nat.
Proof.
  intros Ht Hr Hout Hblk. unfold result_ok in Hr. rewrite Ht in Hr. destruct Hr as [Hstr Hn].
  unfold ResultToIovecs, encode_result. rewrite Ht.
  rewrite bool_decide_false by done.
  destruct (out_room (length (strings r) * 32) b blk Hout) as (p&z&b1&Heq&(Hok&Hr&Hw&Hsz)&Hsink&Hroom);
    [unfold blk_ok in Hblk; lia|].
  rewrite (bind_Ok _ _ _ Heq). cbn beta iota. rewrite (bind_Ok _ _ _ Hsink). cbn beta iota.
  set (n := Z.of_nat (length (strings r))) in *.
  destruct (to_chars_nonneg 10 n) as (_&_&Hl&_); [lia|done|lia|].
  unfold kOutputBufferSize in Hsz.
  destruct (tagged_int "*"%char n 0 (length (data_ b1)) b1) as (b2&b3&Heq1&Heq2&Hwr);
    [lia|lia|lia|].
  rewrite (bind_Ok _ _ _ Heq1). cbn beta. rewrite (bind_Ok _ _ _ Heq2). cbn beta iota zeta.
  set (h := "*"%char :: to_chars n ++ CRLF) in *.
  assert (S (length (to_chars n) + 2) = length h) as Hh
    by (unfold h; simpl; rewrite length_app; simpl; lia).
  rewrite Hh. pose proof (wrote_length _ _ _ _ Hwr) as Hl3.
  destruct (strings_loop_spec (strings r) 0 (length (data_ b1)) (length h) b3
    ([] ++ [IovSink 0 (length h)])) as (h'&b'&vs&Heq'&Hwr'&Hg); [done|lia|lia|].
  exists b', (([] ++ [IovSink 0 (length h)]) ++ vs). split_and!; [done| |..].
  - assert (gather strs b3 [IovSink 0 (length h)] = Ok h) as Hg3.
    { cbn [gather iov_bytes]. rewrite (proj2 (Nat.leb_le _ _)) by lia.
      pose proof (wrote_slice 0 h b1 b3 0 (length h) Hwr) as Hs. simpl (0 + 0)%nat in Hs.
      rewrite Hs by lia. unfold slice. rewrite drop_0, firstn_all. simpl. by rewrite app_nil_r. }
    rewrite <- (gather_frame _ _ _ _ _ Hwr') in Hg3
      by (constructor; [simpl; lia|done]).
    change (([] ++ ?x) ++ vs) with (x ++ vs).
    rewrite (gather_app _ _ _ _ _ Hg3 Hg). unfold h. simpl. by rewrite <- app_assoc.
  - apply (wrote_ok _ _ _ _ Hwr'), (wrote_ok _ _ _ _ Hwr), Hok.
  - rewrite (wrote_length _ _ _ _ Hwr'), Hl3. unfold kOutputBufferSize. lia.
Qed.

Lemma Reply_spec blk r b :
  result_ok strs r → out_ok b → blk_ok r blk →
  ∃ b', Reply strs blk r b = Ok (encode_result strs r, b') ∧ out_ok (Reset b').
Proof.
  intros Hr Hout Hblk.
  assert (∀ b', buf_ok b' → (kOutputBufferSize ≤ length (data_ b'))%nat → out_ok (Reset b')) as Hreset.
  { intros b' Hok Hsz. destruct (Reset_spec b' Hok) as (?&_&_). destruct Hok as (Hv&_&_).
    unfold Reset, out_ok in *. rewrite Hv in *. simpl. split_and!; done. }
  pose proof Hout as (Hok&_&_&Hsz). unfold Reply, NeedsGather.
  destruct (type r) eqn:Ht.
  1-3: rewrite !bool_decide_false by done; simpl; unfold ResultToStringView, encode_result;
    rewrite Ht; eexists; split; [reflexivity|by apply Hreset].
  - rewrite !bool_decide_false by done. simpl. unfold result_ok in Hr. rewrite Ht in Hr.
    destruct (reply_int (int_value r) blk r b Ht eq_refl Hr Hout Hblk) as (b'&->&?&?).
    unfold encode_result. rewrite Ht. exists b'. split; [done|by apply Hreset].
  - rewrite bool_decide_true by done. simpl.
    assert (ptr_ok strs (string_ptr r)) as Hp by (unfold result_ok in Hr; by rewrite Ht in Hr).
    unfold ResultToIovecs, encode_result. rewrite Ht, bool_decide_true by done.
    destruct (out_room 64 b blk Hout) as (p&z&b1&Heq&(Hok1&_&_&Hsz1)&Hsink&Hroom);
      [unfold blk_ok in Hblk; lia|].
    rewrite (bind_Ok _ _ _ Heq). cbn beta iota. rewrite (bind_Ok _ _ _ Hsink). cbn beta iota.
    destruct (StrToIovecs_spec (string_ptr r) 0 (length (data_ b1)) b1 [] Hp)
      as (h&b2&vs&Heq2&Hw&_&_&Hg); [lia|lia|].
    rewrite (bind_Ok _ _ _ Heq2). cbn [mbind outcome_bind app]. rewrite Hg.
    exists b2. split; [done|]. apply Hreset; [by eapply wrote_ok|].
    by rewrite (wrote_length _ _ _ _ Hw).
  - rewrite bool_decide_false, bool_decide_true by done. simpl.
    destruct (reply_strings blk r b Ht Hr Hout Hblk) as (b'&vs&Heq&Hg&?&?).
    rewrite (bind_Ok _ _ _ Heq). cbn beta iota. rewrite (bind_Ok _ _ _ Hg).
    exists b'. split; [done|by apply Hreset].
Qed.

(** C12: Functional correctness of the replier: whatever the result, the bytes
    handed to the socket are its RESP encoding; no assertion fails and no
    write leaves the output buffer, which keeps at least its initial size. *)
Theorem reply_is_resp_encoding blk r b :
  result_ok strs r → out_ok b → blk_ok r blk →
  ∃ b', Reply strs blk r b = Ok (encode_result strs r, b') ∧ out_ok (Reset b').
Proof. apply Reply_spec. Qed.
End replier_spec.

Lemma reply_is_resp_encoding_witness :
  let B : BuildMode := false in
  let strs : StrStore := {[ 1%positive := lit "FOO"; 2%positive := [] ]} in
  let r := AddString (Some 2%positive) (AddString None (AddString (Some 1%positive) new_Result)) in
  let b := (new_Buffer kOutputBufferSize (mkBlock 4096 kOutputBufferSize)).2 in
  ∃ b', Reply strs (mkBlock 8192 1000) r b
        = Ok (lit "*3" ++ CRLF ++ lit "$3" ++ CRLF ++ lit "FOO" ++ CRLF ++ lit "$-1" ++ CRLF
              ++ lit "$0" ++ CRLF ++ CRLF, b') ∧ out_ok (Reset b').
Proof.
  intros B strs r b. apply (reply_is_resp_encoding strs (mkBlock 8192 1000) r b).
  - split; [|simpl; lia].
    constructor; [exists (lit "FOO"); split; [reflexivity|simpl; lia]|].
    constructor; [done|]. constructor; [|done]. exists []. split; [reflexivity|simpl; lia].
  - split_and!; [|done|done|]; [split_and!|]; rewrite ?length_replicate;
      unfold b, new_Buffer, kOutputBufferSize; cbn -[replicate]; rewrite ?length_replicate; (done || lia).
  - unfold blk_ok. simpl. lia.
Defined.
