(* ===== verification/Table.v ===== *)
(** * The table interface

    What the service relies on of its two tables: the operations of
    [HashTable] it calls (class [Table]) and their contract in terms of a
    finite map from keys to entries (class [TableLaws]).  The service and its
    theorems are written against these classes; the incrementally rehashed
    hash table is an instance. *)

From S2P Require Import Prelude Bits HashTable HashTableInv HashTableSpec HashTableGrow HashTableWalk.

Class Table (V T : Type) := {
  t_Find : bytes → T → Outcome (option loc * T);
  t_FindOrCreate : bytes → T → Outcome ((option loc * bool) * T); (* create_on_missing = true *)
  t_Insert : bytes → V → T → Outcome ((option loc * bool) * T);
  t_Upsert : bytes → V → T → Outcome ((option loc * bool) * T);
  t_UpsertKeyPtr : KeyPtr → V → T → Outcome ((option loc * bool) * T);
  t_Erase : bytes → T → Outcome (bool * T);
  t_value : loc → T → Outcome V;            (* entry->value *)
  t_assign : loc → V → T → Outcome T;       (* entry->value = v *)
  t_CopyKey : loc → T → Outcome KeyPtr;     (* entry->CopyKey(), *entry->GetKey() *)
  t_Count : T → Z;
  t_has_buckets : T → bool;                 (* !buckets_[0].empty() *)
  t_key_held : KeyPtr → T → bool;           (* some entry owns the key object *)
  t_IsRehashing : T → bool;
  t_RehashSome : Z → T → Outcome (bool * T);
  t_GetRandomEntry : list Z → T → Outcome (option loc * list Z) }.

(** The largest number of entries for which a table promises to create one
    more. *)
Definition table_limit : Z := 2 ^ 30.

(** What a table holds: the entry, key object and value of each key. *)
Class TableView (V T : Type) := t_view : T → gmap bytes (loc * KeyPtr * V).

Class TableLaws (V T : Type) `{!Table V T} `{!TableView V T} `{!Inhabited V} `{!BuildMode} := {
  t_ok : T → Prop;
  t_Count_ok t : t_ok t → t_Count t = Z.of_nat (size (t_view t));
  t_key_ok t k l kp v : t_ok t → t_view t !! k = Some (l, kp, v) → k_data kp = k;
  t_has_buckets_ok t : t_ok t → t_has_buckets t = false → t_view t = ∅;
  t_Find_ok k t :
    t_ok t → ∃ t', t_Find k t = Ok (fst ∘ fst <$> t_view t !! k, t') ∧ t_ok t' ∧
                   t_view t' = t_view t;
  t_Find_no_buckets k t : t_has_buckets t = false → t_Find k t = Ok (None, t);
  t_FindOrCreate_ok k t :
    t_ok t → t_Count t < table_limit →
    ∃ l kp v t', t_FindOrCreate k t = Ok ((Some l, bool_decide (is_Some (t_view t !! k))), t') ∧
      t_ok t' ∧ t_view t' = <[k := (l, kp, v)]> (t_view t) ∧
      match t_view t !! k with Some e => e = (l, kp, v) | None => v = inhabitant end;
  t_Insert_ok k v t :
    t_ok t → t_Count t < table_limit → t_view t !! k = None →
    ∃ l kp t', t_Insert k v t = Ok ((Some l, true), t') ∧ t_ok t' ∧
      t_view t' = <[k := (l, kp, v)]> (t_view t);
  t_Upsert_ok k v t :
    t_ok t → t_Count t < table_limit →
    ∃ l kp t', t_Upsert k v t = Ok ((Some l, bool_decide (is_Some (t_view t !! k))), t') ∧
      t_ok t' ∧ t_view t' = <[k := (l, kp, v)]> (t_view t) ∧
      match t_view t !! k with Some e => e.1 = (l, kp) | None => True end;
  t_UpsertKeyPtr_ok kp v t :
    t_ok t → t_Count t < table_limit →
    (ndebug = true ∨ ∀ l kp' v', t_view t !! k_data kp = Some (l, kp', v') →
                                 key_same_object kp kp' = true) →
    ∃ l kp' t', t_UpsertKeyPtr kp v t
                = Ok ((Some l, bool_decide (is_Some (t_view t !! k_data kp))), t') ∧
      t_ok t' ∧ t_view t' = <[k_data kp := (l, kp', v)]> (t_view t) ∧
      match t_view t !! k_data kp with Some e => e.1 = (l, kp') | None => kp' = kp end;
  t_Erase_ok k t :
    t_ok t → ∃ t', t_Erase k t = Ok (bool_decide (is_Some (t_view t !! k)), t') ∧ t_ok t' ∧
                   t_view t' = delete k (t_view t);
  t_value_ok t k l kp v : t_ok t → t_view t !! k = Some (l, kp, v) → t_value l t = Ok v;
  t_assign_ok t k l kp v w :
    t_ok t → t_view t !! k = Some (l, kp, v) →
    ∃ t', t_assign l w t = Ok t' ∧ t_ok t' ∧ t_view t' = <[k := (l, kp, w)]> (t_view t);
  t_CopyKey_ok t k l kp v : t_ok t → t_view t !! k = Some (l, kp, v) → t_CopyKey l t = Ok kp;
  t_key_held_ok t k l kp v :
    t_ok t → t_view t !! k = Some (l, kp, v) → t_key_held kp t = true;
  t_RehashSome_ok n t :
    t_ok t → t_IsRehashing t = true → 0 < n → n * 10 < 2 ^ 64 →
    ∃ b t', t_RehashSome n t = Ok (b, t') ∧ t_ok t' ∧ t_view t' = t_view t ∧
            (b = false → t_IsRehashing t' = true);
  t_GetRandomEntry_ok rands t :
    t_ok t → 0 < t_Count t →
    match t_GetRandomEntry rands t with
    | Ok (Some l, _) => ∃ k kp v, t_view t !! k = Some (l, kp, v)
    | Diverge => True
    | _ => False
    end;
  t_GetRandomEntry_reaches t k l kp v :
    t_ok t → t_view t !! k = Some (l, kp, v) →
    ∃ r1 r2, ∀ rands, t_GetRandomEntry (r1 :: r2 :: rands) t = Ok (Some l, rands);
  t_GetRandomEntry_stable rands t o rest more :
    t_GetRandomEntry rands t = Ok (o, rest) →
    t_GetRandomEntry (rands ++ more) t = Ok (o, rest ++ more);
  t_GetRandomEntry_returns rands t :
    t_ok t → 0 < t_Count t → ∃ more x, t_GetRandomEntry (rands ++ more) t = Ok x }.

(** ** The hash table implements the interface *)

Section instance.
Context {V : Type} `{!Inhabited V} `{!BuildMode} `{!HashFn}.
Implicit Types t : HashTable V.

Definition key_held (kp : KeyPtr) t : bool :=
  existsb (λ p, from_option (key_same_object kp) false (e_key p.2)) (map_to_list (heap t)).

#[global] Instance hash_table_Table : Table V (HashTable V) := {
  t_Find := Find;
  t_FindOrCreate k := FindOrCreate k true true;
  t_Insert := Insert;
  t_Upsert := Upsert;
  t_UpsertKeyPtr := UpsertKeyPtr;
  t_Erase := Erase;
  t_value := get_value;
  t_assign := set_value;
  t_CopyKey := CopyKey;
  t_Count := Count;
  t_has_buckets t := negb (bool_decide (buckets0 t = []));
  t_key_held := key_held;
  t_IsRehashing := IsRehashing;
  t_RehashSome := RehashSome;
  t_GetRandomEntry := GetRandomEntry }.

Lemma key_held_spec t k l kp v :
  wf t → tview t !! k = Some (l, kp, v) → key_held kp t = true.
Proof.
  intros Hwf (e&He&Hk&_)%tview_lookup; [|done]. apply existsb_exists.
  exists (l, e). split; [by apply list_elem_of_In, elem_of_map_to_list|]. simpl. rewrite Hk. simpl.
  apply bool_decide_eq_true. done.
Qed.

#[global] Instance hash_table_view : TableView V (HashTable V) := tview.

#[global] Instance hash_table_laws : TableLaws V (HashTable V).
Proof.
  refine {| t_ok := wf |}; unfold t_view, hash_table_view.
  - exact wf_count.
  - exact tview_key_data.
  - intros t Hwf Hb. apply tview_no_buckets; [done|]. simpl in Hb.
    by apply negb_false_iff, bool_decide_eq_true in Hb.
  - intros k t Hwf. destruct (Find_tview k t Hwf) as (t'&?&?&?&_). by exists t'.
  - intros k t Hb. simpl in *. apply negb_false_iff, bool_decide_eq_true in Hb.
    unfold Find, FindOrCreate. by rewrite bool_decide_true by done.
  - intros k t Hwf Hc. destruct (FindOrCreate_tview k t Hwf Hc) as (l&ex&t'&Heq&Hwf'&_&Hpost).
    simpl. rewrite Heq. destruct (tview t !! k) as [[[l0 kp] v]|] eqn:E.
    + destruct Hpost as (->&->&Htv). exists l0, kp, v, t'. rewrite Htv, insert_id by done.
      by rewrite bool_decide_true by eauto.
    + destruct Hpost as (->&->&Htv). eexists _, _, _, t'. rewrite Htv.
      by rewrite bool_decide_false by (by intros [? ?]).
  - intros k v t Hwf Hc Hn. destruct (Insert_tview k v t Hwf Hc) as (t'&Heq&?&_&Htv).
    simpl. rewrite Heq. rewrite Hn in Htv. unfold loc_after.
    rewrite Hn, bool_decide_true by done. by eexists _, _, t'.
  - intros k v t Hwf Hc. destruct (Upsert_tview k v t Hwf Hc) as (t'&Heq&?&_&Htv).
    simpl. rewrite Heq. eexists _, _, _. split; [reflexivity|]. split; [done|].
    split; [exact Htv|]. unfold loc_after, key_after. by destruct (tview t !! k) as [[[??]?]|].
  - intros kp v t Hwf Hc Hs. destruct (UpsertKeyPtr_tview kp v t Hwf Hc Hs) as (t'&Heq&?&_&Htv).
    simpl. rewrite Heq. eexists _, _, _. split; [reflexivity|]. split; [done|].
    split; [exact Htv|]. unfold loc_after. by destruct (tview t !! k_data kp) as [[[??]?]|].
  - intros k t Hwf. destruct (Erase_tview k t Hwf) as (t'&?&?&?&_). by exists t'.
  - exact get_value_tview.
  - intros t k l kp v w Hwf Hv.
    destruct (set_value_tview t k l kp v w Hwf Hv) as (t'&?&?&?&_). by exists t'.
  - exact CopyKey_tview.
  - exact key_held_spec.
  - intros n t Hwf Hre Hn Hb. destruct (RehashSome_spec n t Hwf Hre Hn Hb) as (b&t'&?&?&Hrel&Hp).
    exists b, t'. split_and!; [done|done|by apply relinked_tview|].
    intros ->. by destruct Hp.
  - intros rands t Hwf Hc. pose proof (GetRandomEntry_live rands t Hwf) as Hl. simpl in *.
    destruct (GetRandomEntry rands t) as [[[l|] ?]|?|]; try done.
    + destruct Hl as [e He]. destruct (wf_entry_key _ _ _ Hwf He) as [kp Hk].
      exists (k_data kp), kp, (e_value e). apply tview_lookup; [done|]. by exists e.
    + rewrite wf_count in Hc by done. rewrite (tview_no_buckets _ Hwf Hl) in Hc.
      rewrite map_size_empty in Hc. lia.
  - intros t k l kp v Hwf Hl. destruct (random_entry_reached t k l kp v Hwf Hl) as (r1&r2&_&_&Hr).
    by exists r1, r2.
  - exact GetRandomEntry_stable.
  - exact GetRandomEntry_returns.
Defined.

(** The same contract for the tables with at least [b] buckets: no operation
    leaves this set.  Every theorem proved against the interface thus also
    shows that the number of buckets does not fall below a bound. *)
Definition sized_laws (b : Z) : TableLaws V (HashTable V).
Proof.
  refine {| t_ok := λ t, wf t ∧ b ≤ size0 t |}; unfold t_view, hash_table_view.
  - intros t [Hwf _]. by apply wf_count.
  - intros t k l kp v [Hwf _]. by apply tview_key_data.
  - intros t [Hwf _]. by apply (t_has_buckets_ok (TableLaws:=hash_table_laws)).
  - intros k t [Hwf Hb]. destruct (t_Find_ok (TableLaws:=hash_table_laws) k t Hwf) as (t'&E&?&?).
    exists t'. split_and!; try done.
    eapply grows_bound; [done|eapply Find_grows; exact E|done].
  - exact (t_Find_no_buckets (TableLaws:=hash_table_laws)).
  - intros k t [Hwf Hb] Hc.
    destruct (t_FindOrCreate_ok (TableLaws:=hash_table_laws) k t Hwf Hc) as (l&kp&v&t'&E&?&?&?).
    exists l, kp, v, t'. split_and!; try done.
    eapply grows_bound; [done|eapply FindOrCreate_grows; exact E|done].
  - intros k v t [Hwf Hb] Hc Hn.
    destruct (t_Insert_ok (TableLaws:=hash_table_laws) k v t Hwf Hc Hn) as (l&kp&t'&E&?&?).
    exists l, kp, t'. split_and!; try done. eapply grows_bound; [done|eapply Insert_grows; exact E|done].
  - intros k v t [Hwf Hb] Hc.
    destruct (t_Upsert_ok (TableLaws:=hash_table_laws) k v t Hwf Hc) as (l&kp&t'&E&?&?&?).
    exists l, kp, t'. split_and!; try done. eapply grows_bound; [done|eapply Upsert_grows; exact E|done].
  - intros kp v t [Hwf Hb] Hc Hs.
    destruct (t_UpsertKeyPtr_ok (TableLaws:=hash_table_laws) kp v t Hwf Hc Hs)
      as (l&kp'&t'&E&?&?&?).
    exists l, kp', t'. split_and!; try done.
    eapply grows_bound; [done|eapply UpsertKeyPtr_grows; exact E|done].
  - intros k t [Hwf Hb]. destruct (t_Erase_ok (TableLaws:=hash_table_laws) k t Hwf) as (t'&E&?&?).
    exists t'. split_and!; try done. eapply grows_bound; [done|eapply Erase_grows; exact E|done].
  - intros t k l kp v [Hwf _]. by apply get_value_tview.
  - intros t k l kp v w [Hwf Hb] Hv.
    destruct (t_assign_ok (TableLaws:=hash_table_laws) t k l kp v w Hwf Hv) as (t'&E&?&?).
    exists t'. split_and!; try done.
    eapply grows_bound; [done|eapply same_sizes_grows, set_value_sizes; exact E|done].
  - intros t k l kp v [Hwf _]. by apply CopyKey_tview.
  - intros t k l kp v [Hwf _]. by apply key_held_spec.
  - intros n t [Hwf Hb] Hre Hn Hn'.
    destruct (t_RehashSome_ok (TableLaws:=hash_table_laws) n t Hwf Hre Hn Hn') as (r&t'&E&?&?&?).
    exists r, t'. split_and!; try done.
    destruct (RehashSome_grows n r t t' (wf_shaped _ Hwf Hre) E). unfold size0 in *. lia.
  - intros rands t [Hwf _]. by apply (t_GetRandomEntry_ok (TableLaws:=hash_table_laws)).
  - intros t k l kp v [Hwf _]. by apply (t_GetRandomEntry_reaches (TableLaws:=hash_table_laws)).
  - exact GetRandomEntry_stable.
  - intros rands t [Hwf _]. by apply GetRandomEntry_returns.
Defined.
End instance.
