(* ===== verification/Service.v ===== *)
(** * The data structure service

    Model of [DataStructureService] (src/src/service/data_structure_service.h,
    data_structure_service.cc): the data and expire tables, the string objects
    the values point to, the LRU time of the key objects, the state of the
    evictor and of the expirer, and the operations the commands are built
    from.  The tables are any two implementations of the interface [Table]. *)

From S2P Require Import Prelude Table Replier.
From S2P Require Import Config.
From S2P Require Import HashTable.

(** ** Data *)

Inductive SetMode := kRegular | kNX | kXX.
Inductive SetStatus := kNoOp | kInserted | kUpdated.

#[global] Instance SetMode_eq_dec : EqDecision SetMode.
Proof. solve_decision. Defined.
#[global] Instance SetStatus_eq_dec : EqDecision SetStatus.
Proof. solve_decision. Defined.

(** [EvictionStrategy].  The pool is a [std::set] ordered by LRU time: a list
    of pairs sorted by strictly increasing time. *)
Record EvictionStrategy := mkEvictor {
  maxmemory_policy_ : MaxmemoryPolicy;
  maxmemory_ : Z;
  maxmemory_samples_ : Z;
  lru_clock_ : Z;
  eviction_pool_ : list (Z * KeyPtr);
  evicted_keys_ : Z }.

(** [ExpireStrategy] and its [ExpireStats]. *)
Record ExpireStrategy := mkExpirer {
  bucket_index_ : Z;
  threshold_percentage_ : Z;
  keys_per_loop_ : Z;
  active_expired_keys : Z;
  expired_stale_perc : Z;
  expired_time_cap_reached_count : Z;
  elapsed_time : Z }.

(** [DataStructureService].  [strs_] is the store of string objects and
    [held_] lists the string objects that results of other clients still point
    to (one occurrence per [MTSPtr]); [key_lru_] is the [lru_] field of the key
    objects, 0 when never set.  Times are milliseconds. *)
Record Service (DT ET : Type) := mkService {
  config_ : Config;
  data_ht_ : DT;
  expire_ht_ : ET;
  strs_ : StrStore;
  next_str_ : sid;
  held_ : list sid;
  key_lru_ : gmap (nat * loc) Z;
  evictor_ : EvictionStrategy;
  expirer_ : ExpireStrategy;
  command_time_snapshot_ : Z;
  commands_processed : Z;
  active_ : bool }.
Arguments mkService {DT ET} _ _ _ _ _ _ _ _ _ _ _ _.
Arguments config_ {DT ET} _.
Arguments data_ht_ {DT ET} _.
Arguments expire_ht_ {DT ET} _.
Arguments strs_ {DT ET} _.
Arguments next_str_ {DT ET} _.
Arguments held_ {DT ET} _.
Arguments key_lru_ {DT ET} _.
Arguments evictor_ {DT ET} _.
Arguments expirer_ {DT ET} _.
Arguments command_time_snapshot_ {DT ET} _.
Arguments commands_processed {DT ET} _.
Arguments active_ {DT ET} _.

Section setters.
Context {DT ET : Type}.
Implicit Types s : Service DT ET.

Definition with_data (d : DT) s : Service DT ET :=
  mkService (config_ s) d (expire_ht_ s) (strs_ s) (next_str_ s) (held_ s) (key_lru_ s)
    (evictor_ s) (expirer_ s) (command_time_snapshot_ s) (commands_processed s) (active_ s).
Definition with_expire (e : ET) s : Service DT ET :=
  mkService (config_ s) (data_ht_ s) e (strs_ s) (next_str_ s) (held_ s) (key_lru_ s)
    (evictor_ s) (expirer_ s) (command_time_snapshot_ s) (commands_processed s) (active_ s).
Definition with_strs (m : StrStore) (n : sid) s : Service DT ET :=
  mkService (config_ s) (data_ht_ s) (expire_ht_ s) m n (held_ s) (key_lru_ s)
    (evictor_ s) (expirer_ s) (command_time_snapshot_ s) (commands_processed s) (active_ s).
Definition with_lru (m : gmap (nat * loc) Z) s : Service DT ET :=
  mkService (config_ s) (data_ht_ s) (expire_ht_ s) (strs_ s) (next_str_ s) (held_ s) m
    (evictor_ s) (expirer_ s) (command_time_snapshot_ s) (commands_processed s) (active_ s).
Definition with_evictor (v : EvictionStrategy) s : Service DT ET :=
  mkService (config_ s) (data_ht_ s) (expire_ht_ s) (strs_ s) (next_str_ s) (held_ s)
    (key_lru_ s) v (expirer_ s) (command_time_snapshot_ s) (commands_processed s) (active_ s).
Definition with_expirer (x : ExpireStrategy) s : Service DT ET :=
  mkService (config_ s) (data_ht_ s) (expire_ht_ s) (strs_ s) (next_str_ s) (held_ s)
    (key_lru_ s) (evictor_ s) x (command_time_snapshot_ s) (commands_processed s) (active_ s).
Definition with_time (t : Z) s : Service DT ET :=
  mkService (config_ s) (data_ht_ s) (expire_ht_ s) (strs_ s) (next_str_ s) (held_ s)
    (key_lru_ s) (evictor_ s) (expirer_ s) t (commands_processed s) (active_ s).
Definition with_processed (n : Z) s : Service DT ET :=
  mkService (config_ s) (data_ht_ s) (expire_ht_ s) (strs_ s) (next_str_ s) (held_ s)
    (key_lru_ s) (evictor_ s) (expirer_ s) (command_time_snapshot_ s) n (active_ s).
Definition with_active (b : bool) s : Service DT ET :=
  mkService (config_ s) (data_ht_ s) (expire_ht_ s) (strs_ s) (next_str_ s) (held_ s)
    (key_lru_ s) (evictor_ s) (expirer_ s) (command_time_snapshot_ s) (commands_processed s) b.
Definition with_held (h : list sid) s : Service DT ET :=
  mkService (config_ s) (data_ht_ s) (expire_ht_ s) (strs_ s) (next_str_ s) h
    (key_lru_ s) (evictor_ s) (expirer_ s) (command_time_snapshot_ s) (commands_processed s)
    (active_ s).
End setters.

(** The constructor, with the constructors of the eviction and expiry
    strategies; [lru] is the time of construction, [d] and [e] are empty
    tables. *)
Definition new_Service {DT ET} (config : Config) (d : DT) (e : ET) (lru : Z) : Service DT ET :=
  mkService config d e ∅ 1 [] ∅
    (mkEvictor (maxmemory_policy config) (maxmemory config) (maxmemory_samples config) (u32 lru)
       [] 0)
    (mkExpirer 0 (active_expire_acceptable_stale_percent config)
       (active_expire_keys_per_loop config) 0 0 0 0)
    0 0 true.

(** The bytes of a key are those of a query argument, or are read through a
    view of a key object, which must then be alive. *)
Inductive KeyView := KArg (key : bytes) | KObj (kp : KeyPtr).

(** ** Operations *)

Section service.
Context {DT ET : Type} `{!Table MTSPtr DT} `{!Table Z ET} `{!BuildMode}.
Implicit Types s : Service DT ET.

(** [CreateMTSPtr]: a new string object. *)
Definition CreateMTSPtr (sv : bytes) s : sid * Service DT ET :=
  (next_str_ s, with_strs (<[next_str_ s := sv]> (strs_ s)) (Pos.succ (next_str_ s)) s).

(** [*ptr] and an assignment to the string object. *)
Definition str_get (p : MTSPtr) s : Outcome bytes :=
  x ← deref p; deref (strs_ s !! x).
Definition str_set (p : MTSPtr) (c : bytes) s : Outcome (Service DT ET) :=
  x ← deref p; Ok (with_strs (<[x := c]> (strs_ s)) (next_str_ s) s).

(** [ptr.use_count()] of the pointer in a table entry: the entry itself and
    the results that still hold the object. *)
Definition use_count (p : MTSPtr) s : nat :=
  match p with
  | None => 0
  | Some x => S (length (filter (x =.) (held_ s)))
  end.

Definition GetCommandTimeSnapshot s : Z := command_time_snapshot_ s.
Definition UpdateCommandTime (now : Z) s : Service DT ET := with_time now s.
Definition GetLRUClock s : Z := lru_clock_ (evictor_ s).
(** [shutdown_promise_.set_value()] throws when the value is already set, that
    is when [active_] was cleared before. *)
Definition Shutdown s : Outcome (Service DT ET) :=
  if active_ s then Ok (with_active false s) else Fault Thrown.

Definition SetLRU (kp : KeyPtr) (lru : Z) s : Service DT ET :=
  with_lru (<[(k_owner kp, k_id kp) := lru]> (key_lru_ s)) s.
Definition GetLRU (kp : KeyPtr) s : Z := default 0 (key_lru_ s !! (k_owner kp, k_id kp)).

(** [entry->GetKey()->SetLRU(service.GetLRUClock())]. *)
Definition touch (l : loc) s : Outcome (Service DT ET) :=
  kp ← t_CopyKey l (data_ht_ s);
  Ok (SetLRU kp (GetLRUClock s) s).

Definition key_alive (kp : KeyPtr) s : bool :=
  t_key_held kp (data_ht_ s) || t_key_held kp (expire_ht_ s)
  || existsb (λ p, key_same_object kp p.2) (eviction_pool_ (evictor_ s)).

Definition read_key (v : KeyView) s : Outcome bytes :=
  match v with
  | KArg key => Ok key
  | KObj kp => if key_alive kp s then Ok (k_data kp) else Fault UseAfterFree
  end.

Definition FindOrExpire (key : bytes) s : Outcome (option loc * Service DT ET) :=
  '(entry, d) ← t_Find key (data_ht_ s);
  let s := with_data d s in
  match entry with
  | None => Ok (None, s)
  | Some l =>
      '(expire_entry, e) ← t_Find key (expire_ht_ s);
      let s := with_expire e s in
      valid ← match expire_entry with
              | None => Ok true
              | Some x => at_ ← t_value x (expire_ht_ s); Ok (GetCommandTimeSnapshot s <? at_)
              end;
      if (valid : bool) then Ok (Some l, s)
      else
        '(_, d) ← t_Erase key (data_ht_ s);
        let s := with_data d s in
        (* expire_found: a missing expire entry is valid *)
        '(_, e) ← t_Erase key (expire_ht_ s);
        Ok (None, with_expire e s)
  end.

(** [EraseKey]; the expire table reads the key only if it has buckets. *)
Definition EraseKey (key : KeyView) s : Outcome (Service DT ET) :=
  k ← read_key key s;
  '(erased, d) ← t_Erase k (data_ht_ s);
  let s := with_data d s in
  if negb (erased : bool) then Ok s
  else if t_has_buckets (expire_ht_ s) then
    k ← read_key key s;
    '(_, e) ← t_Erase k (expire_ht_ s);
    Ok (with_expire e s)
  else Ok s.

(** Whether the expire entry of [key] exists and its time, if it does. *)
Definition find_expire (key : bytes) s : Outcome (option Z * Service DT ET) :=
  '(entry, e) ← t_Find key (expire_ht_ s);
  let s := with_expire e s in
  match entry with
  | None => Ok (None, s)
  | Some x => at_ ← t_value x (expire_ht_ s); Ok (Some at_, s)
  end.

(** [expire_ht_.Erase(key)] and [data_ht_.Erase(key)], result ignored. *)
Definition erase_expire (key : bytes) s : Outcome (Service DT ET) :=
  '(_, e) ← t_Erase key (expire_ht_ s); Ok (with_expire e s).
Definition erase_data (key : bytes) s : Outcome (Service DT ET) :=
  '(_, d) ← t_Erase key (data_ht_ s); Ok (with_data d s).

(** [entry->value = CreateMTSPtr(value)]. *)
Definition assign_new (l : loc) (value : bytes) s : Outcome (Service DT ET) :=
  let '(x, s) := CreateMTSPtr value s in
  d ← t_assign l (Some x) (data_ht_ s);
  Ok (with_data d s).

Definition SetDataRegular (key value : bytes) (get : bool) s
    : Outcome (SetStatus * option loc * MTSPtr * Service DT ET) :=
  if negb get then
    let '(x, s) := CreateMTSPtr value s in
    '((set_entry, exists_), d) ← t_Upsert key (Some x) (data_ht_ s);
    Ok (if (exists_ : bool) then kUpdated else kInserted, set_entry, None, with_data d s)
  else
    '((entry, exists_inner), d) ← t_FindOrCreate key (data_ht_ s);
    let s := with_data d s in
    l ← deref entry;
    '(old_value, s) ←
      (if (exists_inner : bool) then
         '(at_, s) ← find_expire key s;
         if match at_ with None => true | Some e => GetCommandTimeSnapshot s <? e end then
           old ← t_value l (data_ht_ s);
           d ← t_assign l None (data_ht_ s);
           Ok (old, with_data d s)
         else Ok (None, s)
       else Ok (None, s));
    s ← assign_new l value s;
    (* the outer [exists], shadowed in this branch, is still false *)
    Ok (kInserted, Some l, old_value, s).

Definition SetDataNX (key value : bytes) s
    : Outcome (SetStatus * option loc * MTSPtr * Service DT ET) :=
  '(data_entry, d) ← t_Find key (data_ht_ s);
  let s := with_data d s in
  match data_entry with
  | Some l =>
      '(at_, s) ← find_expire key s;
      match at_ with
      | Some e =>
          if e <=? GetCommandTimeSnapshot s then
            s ← assign_new l value s;
            s ← erase_expire key s;
            Ok (kInserted, Some l, None, s)
          else Ok (kNoOp, None, None, s)
      | None => Ok (kNoOp, None, None, s)
      end
  | None =>
      let '(x, s) := CreateMTSPtr value s in
      '((entry, _), d) ← t_Insert key (Some x) (data_ht_ s);
      Ok (kInserted, entry, None, with_data d s)
  end.

Definition SetDataXX (key value : bytes) (get : bool) s
    : Outcome (SetStatus * option loc * MTSPtr * Service DT ET) :=
  '(data_entry, d) ← t_Find key (data_ht_ s);
  let s := with_data d s in
  match data_entry with
  | None => Ok (kNoOp, None, None, s)
  | Some l =>
      '(at_, s) ← find_expire key s;
      if match at_ with Some e => e <=? GetCommandTimeSnapshot s | None => false end then
        s ← erase_data key s;
        s ← erase_expire key s;
        Ok (kNoOp, None, None, s)
      else
        '(old_value, s) ←
          (if get then
             old ← t_value l (data_ht_ s);
             d ← t_assign l None (data_ht_ s);
             Ok (old, with_data d s)
           else Ok (None, s));
        s ← assign_new l value s;
        Ok (kUpdated, Some l, old_value, s)
  end.

Definition SetData (key value : bytes) (set_mode : SetMode) (get : bool) s
    : Outcome (SetStatus * option loc * MTSPtr * Service DT ET) :=
  '(set_status, set_entry, old_value, s) ←
    match set_mode with
    | kRegular => SetDataRegular key value get s
    | kNX => SetDataNX key value s
    | kXX => SetDataXX key value get s
    end;
  s ← match set_entry with Some l => touch l s | None => Ok s end;
  Ok (set_status, set_entry, old_value, s).

(** The [rehash] lambda of [IncrementalRehashing]: [ticks] are the answers
    of the clock test after each call. *)
Fixpoint rehash_table {V T} `{!Table V T} (ticks : list bool) (t : T) : Outcome T :=
  '(done, t) ← t_RehashSome 100 t;
  if (done : bool) then Ok t
  else match ticks with
       | true :: ticks => rehash_table ticks t
       | _ => Ok t
       end.

Definition IncrementalRehashing (ticks1 ticks2 : list bool) s : Outcome (Service DT ET) :=
  d ← (if t_IsRehashing (data_ht_ s) then rehash_table ticks1 (data_ht_ s)
       else Ok (data_ht_ s));
  e ← (if t_IsRehashing (expire_ht_ s) then rehash_table ticks2 (expire_ht_ s)
       else Ok (expire_ht_ s));
  Ok (with_expire e (with_data d s)).
End service.
