(* ===== verification/ServiceInv.v ===== *)
(** * The service and the database it stands for

    The abstract database (values and expiry times of keys), the invariant
    [svc_is] that relates a service state to it, and the specification of the
    service's operations, proved against the table interface. *)

From S2P Require Import Prelude Table Replier HashTable Service.

(** ** The abstract database *)

Record DB := mkDB { kv : gmap bytes bytes; ttl : gmap bytes Z }.

Definition expired (now : Z) (d : DB) (k : bytes) : bool :=
  match ttl d !! k with Some e => e <=? now | None => false end.

(** The value of a key, expired keys being absent. *)
Definition db_get (now : Z) (d : DB) (k : bytes) : option bytes :=
  if expired now d k then None else kv d !! k.

Definition db_erase (k : bytes) (d : DB) : DB := mkDB (delete k (kv d)) (delete k (ttl d)).
Definition db_set (k v : bytes) (d : DB) : DB := mkDB (<[k := v]> (kv d)) (ttl d).
Definition db_persist (k : bytes) (d : DB) : DB := mkDB (kv d) (delete k (ttl d)).
Definition db_expire (k : bytes) (e : Z) (d : DB) : DB := mkDB (kv d) (<[k := e]> (ttl d)).

(** Lazy expiry: the key is removed when it is looked up after its time. *)
Definition db_touch (now : Z) (k : bytes) (d : DB) : DB :=
  if expired now d k then db_erase k d else d.

(** [SetData] on the database: the status, the old value it returns, and the
    new database. *)
Definition db_SetData (now : Z) (k v : bytes) (mode : SetMode) (get : bool) (d : DB)
    : SetStatus * option bytes * DB :=
  match mode with
  | kRegular =>
      if get then (kInserted, db_get now d k, db_set k v d)
      else (if bool_decide (is_Some (kv d !! k)) then kUpdated else kInserted, None, db_set k v d)
  | kNX =>
      match kv d !! k with
      | None => (kInserted, None, db_set k v d)
      | Some _ => if expired now d k then (kInserted, None, db_persist k (db_set k v d))
                  else (kNoOp, None, d)
      end
  | kXX =>
      match kv d !! k with
      | None => (kNoOp, None, d)
      | Some c => if expired now d k then (kNoOp, None, db_erase k d)
                  else (kUpdated, if get then Some c else None, db_set k v d)
      end
  end.

(** ** The invariant *)

Section inv.
Context {DT ET : Type} `{!Table MTSPtr DT} `{!Table Z ET} `{!BuildMode}.
Context `{!TableView MTSPtr DT} `{!TableView Z ET} `{!TableLaws MTSPtr DT} `{!TableLaws Z ET}.
Implicit Types s : Service DT ET.

Record svc_is s (d : DB) : Prop := {
  is_data : t_ok (data_ht_ s);
  is_expire : t_ok (expire_ht_ s);
  is_kv : ∀ k, match t_view (data_ht_ s) !! k with
               | None => kv d !! k = None
               | Some (_, _, p) =>
                   ∃ x c, p = Some x ∧ strs_ s !! x = Some c ∧ kv d !! k = Some c
               end;
  is_inj : ∀ k1 k2 l1 kp1 l2 kp2 x,
    t_view (data_ht_ s) !! k1 = Some (l1, kp1, Some x) →
    t_view (data_ht_ s) !! k2 = Some (l2, kp2, Some x) → k1 = k2;
  is_fresh : ∀ x, is_Some (strs_ s !! x) → (x < next_str_ s)%positive;
  is_held : ∀ x, x ∈ held_ s → is_Some (strs_ s !! x);
  is_ttl : ttl d = snd <$> t_view (expire_ht_ s);
  is_sub : ∀ k, kv d !! k = None → ttl d !! k = None }.

(** What no command changes, and the string objects that results of other
    clients show. *)
Definition framed s s' : Prop :=
  config_ s' = config_ s ∧ held_ s' = held_ s ∧ evictor_ s' = evictor_ s ∧
  expirer_ s' = expirer_ s ∧ command_time_snapshot_ s' = command_time_snapshot_ s ∧
  commands_processed s' = commands_processed s ∧ active_ s' = active_ s.
Definition kept s s' : Prop :=
  framed s s' ∧ ∀ x, x ∈ held_ s → strs_ s' !! x = strs_ s !! x.

#[global] Instance kept_preorder : PreOrder kept.
Proof.
  split; [done|]. intros s1 s2 s3 [(?&E1&?&?&?&?&?) Hk1] [(?&E2&?&?&?&?&?) Hk2]. split.
  - unfold framed. split_and!; congruence.
  - intros x Hx. rewrite Hk2, Hk1; [done|done|]. by rewrite E1.
Qed.

Lemma kept_time s s' : kept s s' → command_time_snapshot_ s' = command_time_snapshot_ s.
Proof. by intros [(?&?&?&?&?&?) _]. Qed.

Lemma kept_same s s' : framed s s' → strs_ s' = strs_ s → kept s s'.
Proof. intros ? Hs. split; [done|]. by rewrite Hs. Qed.

(** ** Updates of the parts *)

Lemma svc_is_ext s s' d :
  svc_is s d → t_ok (data_ht_ s') → t_ok (expire_ht_ s') →
  t_view (data_ht_ s') = t_view (data_ht_ s) → t_view (expire_ht_ s') = t_view (expire_ht_ s) →
  strs_ s' = strs_ s → next_str_ s' = next_str_ s → held_ s' = held_ s → svc_is s' d.
Proof.
  intros [] ?? Hd He Hs Hn Hh. split; rewrite ?Hd, ?He, ?Hs, ?Hn, ?Hh; try done.
Qed.

(** The expire table changes; the keys that have a time keep a value. *)
Lemma svc_is_ttl s s' kvs ttls ttls' :
  svc_is s (mkDB kvs ttls) → data_ht_ s' = data_ht_ s → t_ok (expire_ht_ s') →
  ttls' = snd <$> t_view (expire_ht_ s') → (∀ k, kvs !! k = None → ttls' !! k = None) →
  strs_ s' = strs_ s → next_str_ s' = next_str_ s → held_ s' = held_ s →
  svc_is s' (mkDB kvs ttls').
Proof.
  intros [] Hd ? ? ? Hs Hn Hh. split; rewrite ?Hd, ?Hs, ?Hn, ?Hh; try done.
Qed.

(** The value of [k] becomes the new string object [x]. *)
Lemma svc_is_new s s' kvs ttls k l kp c :
  svc_is s (mkDB kvs ttls) → t_ok (data_ht_ s') →
  t_view (data_ht_ s') = <[k := (l, kp, Some (next_str_ s))]> (t_view (data_ht_ s)) →
  expire_ht_ s' = expire_ht_ s → strs_ s' = <[next_str_ s := c]> (strs_ s) →
  next_str_ s' = Pos.succ (next_str_ s) → held_ s' = held_ s →
  svc_is s' (mkDB (<[k := c]> kvs) ttls).
Proof.
  intros [Hd He Hkv Hinj Hfr Hheld Httl Hsub] Hok Hv Hx Hs Hn Hh. simpl in *.
  assert (∀ x, is_Some (strs_ s !! x) → x ≠ next_str_ s) as Hne.
  { intros x Hx' ->. apply Hfr in Hx'. lia. }
  split; simpl; rewrite ?Hv, ?Hx, ?Hs, ?Hn, ?Hh; try done.
  - intros k'. destruct (decide (k = k')) as [<-|Hk].
    + rewrite !lookup_insert_eq. exists (next_str_ s), c. by rewrite lookup_insert_eq.
    + rewrite !lookup_insert_ne by done. specialize (Hkv k').
      destruct (t_view (data_ht_ s) !! k') as [[[l' kp'] p]|]; [|done].
      destruct Hkv as (x&c'&->&Hxs&?). exists x, c'. rewrite lookup_insert_ne; [done|].
      intros <-. by apply (Hne (next_str_ s)).
  - assert (∀ k' l' kp', t_view (data_ht_ s) !! k' ≠ Some (l', kp', Some (next_str_ s))) as Hno.
    { intros k' l' kp' E. specialize (Hkv k'). rewrite E in Hkv.
      destruct Hkv as (x&c'&[= <-]&Hxs&_). by apply (Hne (next_str_ s)). }
    intros k1 k2 l1 kp1 l2 kp2 x. rewrite !lookup_insert_Some.
    intros [[<- [= <- <- <-]]|[Hk1 E1]] [[<- E2]|[Hk2 E2]]; simplify_eq; try done.
    + by apply Hno in E2.
    + by apply Hno in E1.
    + by eapply Hinj.
  - intros x. rewrite lookup_insert_is_Some'. intros [->|Hs']; [lia|]. apply Hfr in Hs'. lia.
  - intros x Hx'. apply Hheld in Hx'. rewrite lookup_insert_is_Some'. by right.
  - intros k'. destruct (decide (k = k')) as [<-|Hk]; [by rewrite lookup_insert_eq|].
    rewrite lookup_insert_ne by done. apply Hsub.
Qed.

(** The string object of [k] is changed in place. *)
Lemma svc_is_mutate s s' kvs ttls k l kp x c :
  svc_is s (mkDB kvs ttls) → t_view (data_ht_ s) !! k = Some (l, kp, Some x) →
  data_ht_ s' = data_ht_ s → expire_ht_ s' = expire_ht_ s → strs_ s' = <[x := c]> (strs_ s) →
  next_str_ s' = next_str_ s → held_ s' = held_ s →
  svc_is s' (mkDB (<[k := c]> kvs) ttls).
Proof.
  intros [Hd He Hkv Hinj Hfr Hheld Httl Hsub] Hk Hv Hx Hs Hn Hh. simpl in *.
  assert (is_Some (strs_ s !! x)) as Hxs.
  { specialize (Hkv k). rewrite Hk in Hkv. destruct Hkv as (?&?&[= <-]&?&_). eauto. }
  split; simpl; rewrite ?Hv, ?Hx, ?Hs, ?Hn, ?Hh; try done.
  - intros k'. destruct (decide (k = k')) as [<-|Hne].
    + rewrite Hk. exists x, c. by rewrite !lookup_insert_eq.
    + specialize (Hkv k'). rewrite lookup_insert_ne by done.
      destruct (t_view (data_ht_ s) !! k') as [[[l' kp'] p]|] eqn:E; [|done].
      destruct Hkv as (y&c'&->&Hys&?). exists y, c'. rewrite lookup_insert_ne; [done|].
      intros ->. apply Hne. by eapply Hinj.
  - intros y. rewrite lookup_insert_is_Some'. intros [->|?]; by apply Hfr.
  - intros y Hy. apply Hheld in Hy. rewrite lookup_insert_is_Some'. by right.
  - intros k'. destruct (decide (k = k')) as [<-|Hne]; [by rewrite lookup_insert_eq|].
    rewrite lookup_insert_ne by done. apply Hsub.
Qed.

(** The key is removed from both tables. *)
Lemma svc_is_erase s s' d k :
  svc_is s d → t_ok (data_ht_ s') → t_ok (expire_ht_ s') →
  t_view (data_ht_ s') = delete k (t_view (data_ht_ s)) →
  t_view (expire_ht_ s') = delete k (t_view (expire_ht_ s)) →
  strs_ s' = strs_ s → next_str_ s' = next_str_ s → held_ s' = held_ s →
  svc_is s' (db_erase k d).
Proof.
  intros [Hd He Hkv Hinj Hfr Hheld Httl Hsub] ?? Hv Hx Hs Hn Hh.
  split; simpl; rewrite ?Hv, ?Hx, ?Hs, ?Hn, ?Hh; try done.
  - intros k'. destruct (decide (k = k')) as [<-|Hne]; [by rewrite !lookup_delete_eq|].
    rewrite !lookup_delete_ne by done. apply Hkv.
  - intros k1 k2 l1 kp1 l2 kp2 x [_ E1]%lookup_delete_Some [_ E2]%lookup_delete_Some.
    by eapply Hinj.
  - by rewrite Httl, fmap_delete.
  - intros k'. destruct (decide (k = k')) as [<-|Hne]; [by rewrite !lookup_delete_eq|].
    rewrite !lookup_delete_ne by done. apply Hsub.
Qed.

Lemma svc_is_lookup s d k :
  svc_is s d →
  match kv d !! k with
  | None => t_view (data_ht_ s) !! k = None
  | Some c => ∃ l kp x, t_view (data_ht_ s) !! k = Some (l, kp, Some x) ∧ strs_ s !! x = Some c
  end.
Proof.
  intros []. specialize (is_kv0 k). destruct (t_view (data_ht_ s) !! k) as [[[l kp] p]|].
  - destruct is_kv0 as (x&c&->&?&->). by exists l, kp, x.
  - by rewrite is_kv0.
Qed.

Lemma svc_is_ttl_lookup s d k :
  svc_is s d →
  match ttl d !! k with
  | None => t_view (expire_ht_ s) !! k = None
  | Some e => ∃ l kp, t_view (expire_ht_ s) !! k = Some (l, kp, e)
  end.
Proof.
  intros []. rewrite is_ttl0, lookup_fmap.
  destruct (t_view (expire_ht_ s) !! k) as [[[l kp] e]|]; simpl; eauto.
Qed.

Lemma svc_is_size s d : svc_is s d → t_Count (data_ht_ s) = Z.of_nat (size (kv d)).
Proof.
  intros Hs. rewrite t_Count_ok by apply Hs. f_equal.
  rewrite <- !size_dom. f_equal. apply set_eq. intros k. rewrite !elem_of_dom.
  pose proof (svc_is_lookup s d k Hs) as Hk. destruct (kv d !! k).
  - destruct Hk as (?&?&?&->&_). split; eauto.
  - by rewrite Hk.
Qed.

Lemma svc_is_ttl_size s d : svc_is s d → t_Count (expire_ht_ s) ≤ Z.of_nat (size (kv d)).
Proof.
  intros Hs. rewrite t_Count_ok by apply Hs. apply Nat2Z.inj_le.
  rewrite <- (map_size_fmap snd), <- (is_ttl _ _ Hs), <- !size_dom. apply subseteq_size.
  intros k. rewrite !elem_of_dom. intros [e He]. destruct (kv d !! k) eqn:E; [by eexists|].
  by rewrite (is_sub _ _ Hs k E) in He.
Qed.
End inv.
