(* ===== verification/ServiceSpec.v ===== *)
(** * Specification of the service's operations

    Each operation of the service on the state that stands for a database
    returns, and leaves a state that stands for the database the abstract
    operation gives. *)

From S2P Require Import Prelude Table Replier HashTable Service ServiceInv.

Section specs.
Context {DT ET : Type} `{!Table MTSPtr DT} `{!Table Z ET} `{!BuildMode}.
Context `{!TableView MTSPtr DT} `{!TableView Z ET} `{!TableLaws MTSPtr DT} `{!TableLaws Z ET}.
Implicit Types s : Service DT ET.

(** The entry of [k] and its string object. *)
Definition entry_is s (k : bytes) (l : loc) (x : sid) : Prop :=
  ∃ kp, t_view (data_ht_ s) !! k = Some (l, kp, Some x).

(** A pointer and the string it stands for. *)
Definition ptr_is (m : StrStore) (p : MTSPtr) (o : option bytes) : Prop :=
  match p, o with
  | None, None => True
  | Some x, Some c => m !! x = Some c
  | _, _ => False
  end.

(** States that differ only by the layout of the tables. *)
Definition relaid s s' : Prop :=
  t_view (data_ht_ s') = t_view (data_ht_ s) ∧ t_view (expire_ht_ s') = t_view (expire_ht_ s) ∧
  strs_ s' = strs_ s ∧ next_str_ s' = next_str_ s ∧ framed s s'.

#[global] Instance relaid_preorder : PreOrder relaid.
Proof.
  split; [done|]. intros s1 s2 s3 (?&?&?&?&Hf1) (?&?&?&?&Hf2).
  unfold relaid, framed in *. destruct_and!. split_and!; congruence.
Qed.

Lemma relaid_kept s s' : relaid s s' → kept s s'.
Proof. intros (_&_&?&_&?). by apply kept_same. Qed.

Lemma relaid_is s s' d :
  svc_is s d → relaid s s' → t_ok (data_ht_ s') → t_ok (expire_ht_ s') → svc_is s' d.
Proof.
  intros Hs (?&?&?&?&(_&?&_)) ??. by apply (svc_is_ext s).
Qed.

Lemma find_data k s d :
  svc_is s d →
  ∃ e dt, t_Find k (data_ht_ s) = Ok (e, dt) ∧ svc_is (with_data dt s) d ∧
    relaid s (with_data dt s) ∧
    match kv d !! k with
    | None => e = None
    | Some c => ∃ l x, e = Some l ∧ entry_is (with_data dt s) k l x ∧ strs_ s !! x = Some c
    end.
Proof.
  intros Hs. destruct (t_Find_ok k (data_ht_ s)) as (dt&Heq&Hok&Hv); [apply Hs|].
  assert (relaid s (with_data dt s)) as Hr by (unfold relaid; simpl; by rewrite Hv).
  eexists _, dt. split; [exact Heq|]. split; [apply (relaid_is s); try done; apply Hs|].
  split; [done|]. pose proof (svc_is_lookup s d k Hs) as Hk. destruct (kv d !! k) as [c|].
  - destruct Hk as (l&kp&x&Hl&?). rewrite Hl. exists l, x. split_and!; [done| |done].
    exists kp. simpl. by rewrite Hv.
  - by rewrite Hk.
Qed.

Lemma find_expire_spec k s d :
  svc_is s d →
  ∃ s', find_expire k s = Ok (ttl d !! k, s') ∧ svc_is s' d ∧ relaid s s' ∧
        data_ht_ s' = data_ht_ s.
Proof.
  intros Hs. unfold find_expire.
  destruct (t_Find_ok k (expire_ht_ s)) as (et&Heq&Hok&Hv); [apply Hs|].
  step Heq. set (s' := with_expire et s).
  assert (relaid s s') as Hr by (unfold relaid; simpl; by rewrite Hv).
  assert (svc_is s' d) as Hs' by (apply (relaid_is s); try done; apply Hs).
  exists s'. pose proof (svc_is_ttl_lookup s d k Hs) as Hk. destruct (ttl d !! k) as [z|].
  - destruct Hk as (l&kp&Hl). rewrite Hl. simpl. rewrite <- Hv in Hl.
    rewrite (bind_Ok _ _ _ (t_value_ok et k l kp z Hok Hl)). done.
  - rewrite Hk. done.
Qed.

Lemma erase_expire_spec k s d :
  svc_is s d →
  ∃ s', erase_expire k s = Ok s' ∧ svc_is s' (db_persist k d) ∧ kept s s' ∧
        data_ht_ s' = data_ht_ s ∧ strs_ s' = strs_ s ∧ next_str_ s' = next_str_ s.
Proof.
  intros Hs. unfold erase_expire.
  destruct (t_Erase_ok k (expire_ht_ s)) as (et&Heq&Hok&Hv); [apply Hs|]. step Heq.
  exists (with_expire et s). destruct d as [kvs ttls].
  split_and!; try done. apply (svc_is_ttl s _ kvs ttls); try done; simpl.
  - rewrite Hv, fmap_delete. pose proof (is_ttl _ _ Hs) as Ht. simpl in Ht. by rewrite Ht.
  - intros k' Hk'. apply lookup_delete_None. right. by apply (is_sub _ _ Hs).
Qed.

(** Removal from both tables, in either order. *)
Lemma erase_both k s d :
  svc_is s d →
  ∃ b b' dt et, t_Erase k (data_ht_ s) = Ok (b, dt) ∧ t_Erase k (expire_ht_ s) = Ok (b', et) ∧
    b = bool_decide (is_Some (kv d !! k)) ∧
    svc_is (with_expire et (with_data dt s)) (db_erase k d) ∧
    svc_is (with_data dt (with_expire et s)) (db_erase k d).
Proof.
  intros Hs. destruct (t_Erase_ok k (data_ht_ s)) as (dt&Heq&Hok&Hv); [apply Hs|].
  destruct (t_Erase_ok k (expire_ht_ s)) as (et&Heq'&Hok'&Hv'); [apply Hs|].
  eexists _, _, dt, et. split_and!; [exact Heq|exact Heq'| |by apply (svc_is_erase s)..].
  apply bool_decide_ext. pose proof (svc_is_lookup s d k Hs) as Hk. destruct (kv d !! k) as [c|].
  - destruct Hk as (?&?&?&->&_). split; eauto.
  - by rewrite Hk.
Qed.

Lemma touch_spec k l x s d :
  svc_is s d → entry_is s k l x →
  ∃ s', touch l s = Ok s' ∧ svc_is s' d ∧ relaid s s' ∧ data_ht_ s' = data_ht_ s ∧
        expire_ht_ s' = expire_ht_ s.
Proof.
  intros Hs [kp Hl]. unfold touch.
  rewrite (bind_Ok _ _ _ (t_CopyKey_ok _ _ _ _ _ (is_data _ _ Hs) Hl)).
  eexists. split; [reflexivity|]. split; [|done]. by apply (svc_is_ext s); try apply Hs.
Qed.

(** [assign_new] gives the entry of [k] a new string object. *)
Lemma assign_new_raw k l kp p v s :
  t_ok (data_ht_ s) → t_view (data_ht_ s) !! k = Some (l, kp, p) →
  ∃ s', assign_new l v s = Ok s' ∧ t_ok (data_ht_ s') ∧
    t_view (data_ht_ s') = <[k := (l, kp, Some (next_str_ s))]> (t_view (data_ht_ s)) ∧
    expire_ht_ s' = expire_ht_ s ∧ strs_ s' = <[next_str_ s := v]> (strs_ s) ∧
    next_str_ s' = Pos.succ (next_str_ s) ∧ framed s s'.
Proof.
  intros Hok Hl. unfold assign_new, CreateMTSPtr. simpl.
  destruct (t_assign_ok _ _ _ _ _ (Some (next_str_ s)) Hok Hl) as (dt&Heq&Hok'&Hv).
  step Heq. eexists. split; [reflexivity|]. done.
Qed.

Lemma new_str_kept s s' d v :
  svc_is s d → strs_ s' = <[next_str_ s := v]> (strs_ s) → framed s s' →
  kept s s' ∧ ∀ x c, strs_ s !! x = Some c → strs_ s' !! x = Some c.
Proof.
  intros Hs Hstr Hf.
  assert (∀ x, is_Some (strs_ s !! x) → strs_ s' !! x = strs_ s !! x) as Hx.
  { intros x Hx. rewrite Hstr. apply lookup_insert_ne. intros <-.
    apply (is_fresh _ _ Hs) in Hx. lia. }
  split; [split; [done|]|].
  - intros x Hin. by apply Hx, (is_held _ _ Hs).
  - intros x c Hc. rewrite Hx; [done|by eexists].
Qed.

Lemma assign_new_spec k l x v s d :
  svc_is s d → entry_is s k l x →
  ∃ s', assign_new l v s = Ok s' ∧ svc_is s' (db_set k v d) ∧ kept s s' ∧
    entry_is s' k l (next_str_ s) ∧ strs_ s' !! next_str_ s = Some v ∧
    (∀ y c, strs_ s !! y = Some c → strs_ s' !! y = Some c).
Proof.
  intros Hs [kp Hl]. destruct (assign_new_raw k l kp (Some x) v s) as
    (s'&Heq&Hok&Hv&He&Hstr&Hn&Hf); [apply Hs|done|].
  destruct (new_str_kept s s' d v Hs Hstr Hf) as [Hk Hold].
  exists s'. destruct d as [kvs ttls]. split_and!; try done.
  - apply (svc_is_new s s' kvs ttls k l kp v); try done. by destruct Hf as (_&?&_).
  - exists kp. by rewrite Hv, lookup_insert_eq.
  - by rewrite Hstr, lookup_insert_eq.
Qed.

(** Overwriting whatever the entry held, on the way to a new value. *)
Lemma assign_twice_spec k l x p v s d :
  svc_is s d → entry_is s k l x →
  ∃ s1 s', (dt ← t_assign l p (data_ht_ s); Ok (with_data dt s)) = Ok s1 ∧
    framed s s1 ∧ strs_ s1 = strs_ s ∧
    assign_new l v s1 = Ok s' ∧ svc_is s' (db_set k v d) ∧ kept s s' ∧
    entry_is s' k l (next_str_ s) ∧ (∀ y c, strs_ s !! y = Some c → strs_ s' !! y = Some c).
Proof.
  intros Hs [kp Hl].
  destruct (t_assign_ok _ _ _ _ _ p (is_data _ _ Hs) Hl) as (dt&Heq&Hok&Hv).
  rewrite (bind_Ok _ _ _ Heq). set (s1 := with_data dt s).
  destruct (assign_new_raw k l kp p v s1) as (s'&Heq'&Hok'&Hv'&He&Hstr&Hn&Hf).
  { done. } { simpl. by rewrite Hv, lookup_insert_eq. }
  destruct (new_str_kept s s' d v Hs Hstr Hf) as [Hk Hold].
  exists s1, s'. destruct d as [kvs ttls]. split_and!; try done.
  - apply (svc_is_new s s' kvs ttls k l kp v); try done; [|by destruct Hf as (_&?&_)].
    rewrite Hv'. simpl. rewrite Hv. by rewrite insert_insert_eq.
  - exists kp. by rewrite Hv', lookup_insert_eq.
Qed.

Lemma FindOrExpire_spec k s d :
  svc_is s d →
  ∃ e s', FindOrExpire k s = Ok (e, s') ∧
    svc_is s' (db_touch (command_time_snapshot_ s) k d) ∧ kept s s' ∧ strs_ s' = strs_ s ∧
    match db_get (command_time_snapshot_ s) d k with
    | None => e = None
    | Some c => ∃ l x, e = Some l ∧ entry_is s' k l x ∧ strs_ s' !! x = Some c
    end.
Proof.
  intros Hs. unfold FindOrExpire, db_touch, db_get, expired.
  destruct (find_data k s d Hs) as (e&dt&Heq&Hs1&Hr1&Hk). step Heq.
  set (s1 := with_data dt s) in *.
  destruct (kv d !! k) as [c|] eqn:Hkv.
  2: { subst e. exists None, s1. rewrite (is_sub _ _ Hs k Hkv).
       split_and!; try done. }
  destruct Hk as (l&x&->&Hl&Hx). cbv zeta.
  destruct (t_Find_ok k (expire_ht_ s1)) as (et&Heq2&Hok2&Hv2); [apply Hs1|]. step Heq2.
  set (s2 := with_expire et s1).
  assert (relaid s1 s2) as Hr2 by (unfold relaid; simpl; by rewrite Hv2).
  assert (svc_is s2 d) as Hs2 by (apply (relaid_is s1); try done; apply Hs1).
  assert (kept s s2) as Hk2 by (apply relaid_kept; by etransitivity).
  pose proof (svc_is_ttl_lookup s1 d k Hs1) as Ht.
  destruct (ttl d !! k) as [z|].
  2: { rewrite Ht. simpl. exists (Some l), s2. split_and!; try done. by exists l, x. }
  destruct Ht as (l'&kp'&Ht). rewrite Ht. simpl. rewrite <- Hv2 in Ht.
  rewrite (bind_Ok _ _ _ (t_value_ok et k l' kp' z Hok2 Ht)). cbn [mbind outcome_bind].
  unfold GetCommandTimeSnapshot. simpl.
  destruct (Z.ltb_spec (command_time_snapshot_ s) z).
  - rewrite Zleb_f by lia. exists (Some l), s2. split_and!; try done. by exists l, x.
  - rewrite Zleb_t by lia. destruct (erase_both k s2 d Hs2) as (b&b'&dt3&et3&E1'&E2'&_&Hs3&_).
    simpl in E1', E2'. rewrite (bind_Ok _ _ _ E1'). cbn beta iota.
    rewrite (bind_Ok _ _ _ E2'). eexists None, _. split; [reflexivity|]. done.
Qed.

Lemma EraseKey_arg_spec k s d :
  svc_is s d →
  ∃ s', EraseKey (KArg k) s = Ok s' ∧ kept s s' ∧ strs_ s' = strs_ s ∧
        svc_is s' (db_erase k d).
Proof.
  intros Hs. unfold EraseKey. simpl.
  destruct (erase_both k s d Hs) as (b&b'&dt&et&E1'&E2'&Hb&Hs'&_). step E1'.
  destruct b; simpl; [destruct (t_has_buckets (expire_ht_ s)) eqn:Hbk|].
  - rewrite (bind_Ok _ _ _ E2'). eexists. split; [reflexivity|]. done.
  - eexists. split; [reflexivity|]. split_and!; try done.
    destruct (t_Erase_ok k (data_ht_ s)) as (dt'&E3&Hok&Hv); [apply Hs|].
    assert (dt' = dt) as -> by congruence.
    apply (svc_is_erase s); try done; [apply Hs|]. simpl.
    rewrite t_has_buckets_ok by (done || apply Hs). by rewrite delete_empty.
  - eexists. split; [reflexivity|]. split_and!; try done.
    destruct (t_Erase_ok k (data_ht_ s)) as (dt'&E3&Hok&Hv); [apply Hs|].
    assert (dt' = dt) as -> by congruence.
    symmetry in Hb. apply bool_decide_eq_false in Hb.
    apply (svc_is_erase s); try done; [apply Hs|]. simpl. rewrite delete_id; [done|].
    assert (kv d !! k = None) as Hkv by (by destruct (kv d !! k); [exfalso; eauto|]).
    pose proof (svc_is_ttl_lookup s d k Hs) as Ht. by rewrite (is_sub _ _ Hs k Hkv) in Ht.
Qed.

(** ** SetData *)

Definition set_post (k : bytes) s (out : SetStatus * option bytes * DB)
    (res : Outcome (SetStatus * option loc * MTSPtr * Service DT ET)) : Prop :=
  let '(st, old, d') := out in
  ∃ e p s', res = Ok (st, e, p, s') ∧ svc_is s' d' ∧ kept s s' ∧ ptr_is (strs_ s') p old ∧
    match e with
    | None => st = kNoOp
    | Some l => st ≠ kNoOp ∧ ∃ x, entry_is s' k l x
    end.

Lemma SetDataRegular_set k v s d :
  svc_is s d → Z.of_nat (size (kv d)) < table_limit →
  set_post k s (db_SetData (command_time_snapshot_ s) k v kRegular false d)
    (SetDataRegular k v false s).
Proof.
  intros Hs Hsmall. unfold SetDataRegular, db_SetData, CreateMTSPtr. simpl.
  destruct (t_Upsert_ok k (Some (next_str_ s)) (data_ht_ s)) as (l&kp&dt&Heq&Hok&Hv&Hsame);
    [apply Hs|by rewrite (svc_is_size _ _ Hs)|].
  step Heq.
  replace (bool_decide (is_Some (kv d !! k))) with (bool_decide (is_Some (t_view (data_ht_ s) !! k))).
  2: { apply bool_decide_ext. pose proof (svc_is_lookup s d k Hs) as Hk.
       destruct (kv d !! k) as [c|]; [destruct Hk as (?&?&?&->&_); split; eauto|by rewrite Hk]. }
  eexists _, _, _. split; [reflexivity|]. set (s' := with_data dt _).
  assert (framed s s') as Hf by done.
  destruct (new_str_kept s s' d v Hs) as [Hk _]; [done|done|].
  destruct d as [kvs ttls]. split_and!; try done.
  - by apply (svc_is_new s s' kvs ttls k l kp v).
  - by destruct (bool_decide _).
  - exists (next_str_ s), kp. simpl. by rewrite Hv, lookup_insert_eq.
Qed.

Lemma SetDataRegular_get k v s d :
  svc_is s d → Z.of_nat (size (kv d)) < table_limit →
  set_post k s (db_SetData (command_time_snapshot_ s) k v kRegular true d)
    (SetDataRegular k v true s).
Proof.
  intros Hs Hsmall. unfold SetDataRegular, db_SetData. simpl.
  destruct (t_FindOrCreate_ok k (data_ht_ s)) as (l&kp&p&dt&Heq&Hok&Hv&Hsame);
    [apply Hs|by rewrite (svc_is_size _ _ Hs)|].
  step Heq. cbv zeta. set (s1 := with_data dt s).
  pose proof (svc_is_lookup s d k Hs) as Hk. unfold db_get, expired.
  destruct (kv d !! k) as [c|] eqn:Hkv.
  - destruct Hk as (l0&kp0&x&Hl&Hx). rewrite Hl in Hsame. simplify_eq.
    rewrite bool_decide_true by (rewrite Hl; eauto). cbn [deref mbind outcome_bind].
    rewrite (insert_id _ _ _ Hl) in Hv.
    assert (svc_is s1 d) as Hs1 by (apply (svc_is_ext s); try done; apply Hs).
    destruct (find_expire_spec k s1 d Hs1) as (s2&Heq2&Hs2&Hr2&Hd2).
    rewrite (bind_Ok _ _ _ Heq2). cbn beta iota.
    assert (framed s s2) as Hf2 by (by destruct Hr2 as (_&_&_&_&?)).
    assert (strs_ s2 = strs_ s) as Hstr2 by (by destruct Hr2 as (_&_&?&_)).
    assert (entry_is s2 k l x) as Hl2 by (exists kp; rewrite Hd2; simpl; by rewrite Hv).
    assert (kept s s2) as Hk2 by by apply kept_same.
    unfold GetCommandTimeSnapshot. rewrite (kept_time _ _ Hk2).
    assert (match ttl d !! k with Some e => command_time_snapshot_ s <? e | None => true end
            = negb match ttl d !! k with Some e => e <=? command_time_snapshot_ s | None => false end)
      as ->.
    { destruct (ttl d !! k); [|done]. by rewrite Z.ltb_antisym. }
    destruct (match ttl d !! k with Some e => e <=? _ | None => false end); simpl negb; cbv iota.
    + cbn [mbind outcome_bind]. destruct (assign_new_spec k l x v s2 d Hs2 Hl2)
        as (s3&Heq3&Hs3&Hk3&Hl3&_&_).
      rewrite (bind_Ok _ _ _ Heq3). eexists _, _, _. split; [reflexivity|].
      split_and!; try done; [by etransitivity|eauto].
    + destruct Hl2 as [kp2 Hl2'].
      rewrite (bind_Ok _ _ _ (t_value_ok _ _ _ _ _ (is_data _ _ Hs2) Hl2')). cbn beta.
      destruct (assign_twice_spec k l x None v s2 d Hs2) as (s3&s4&Heq3&_&_&Heq4&Hs4&Hk4&Hl4&Hold);
        [by exists kp2|].
      apply bind_Ok_inv in Heq3 as (dt3&Heq3&[= Hs3]). rewrite (bind_Ok _ _ _ Heq3).
      cbn [mbind outcome_bind]. rewrite Hs3, Heq4. simpl. eexists _, _, _. split; [reflexivity|].
      split_and!; try done; [by etransitivity| |eauto]. simpl. apply Hold. by rewrite Hstr2.
  - rewrite Hk in Hsame, Heq |- *. subst p.
    rewrite bool_decide_false by (by intros [? ?]). cbn [deref mbind outcome_bind].
    destruct (assign_new_raw k l kp inhabitant v s1) as (s2&Heq2&Hok2&Hv2&He2&Hstr2&Hn2&Hf2).
    { done. } { simpl. by rewrite Hv, lookup_insert_eq. }
    rewrite (bind_Ok _ _ _ Heq2). rewrite (is_sub _ _ Hs k Hkv).
    assert (framed s s2) as Hf by done.
    destruct (new_str_kept s s2 d v Hs Hstr2 Hf) as [Hk2 _].
    destruct d as [kvs ttls]. eexists _, _, _. split; [reflexivity|].
    split_and!; try done.
    + apply (svc_is_new s s2 kvs ttls k l kp v); try done; [|by destruct Hf as (_&?&_)].
      rewrite Hv2. simpl. rewrite Hv. by rewrite insert_insert_eq.
    + exists (next_str_ s), kp. by rewrite Hv2, lookup_insert_eq.
Qed.

Lemma SetDataNX_spec k v get s d :
  svc_is s d → Z.of_nat (size (kv d)) < table_limit →
  set_post k s (db_SetData (command_time_snapshot_ s) k v kNX get d) (SetDataNX k v s).
Proof.
  intros Hs Hsmall. unfold SetDataNX, db_SetData.
  destruct (find_data k s d Hs) as (e&dt&Heq&Hs1&Hr1&Hk). step Heq.
  set (s1 := with_data dt s) in *. destruct (kv d !! k) as [c|] eqn:Hkv.
  - destruct Hk as (l&x&->&Hl&Hx). cbv zeta.
    destruct (find_expire_spec k s1 d Hs1) as (s2&Heq2&Hs2&Hr2&Hd2).
    rewrite (bind_Ok _ _ _ Heq2). cbn beta iota.
    assert (kept s s2) as Hk2 by (apply relaid_kept; by etransitivity).
    assert (entry_is s2 k l x) as Hl2 by (destruct Hl as [kp Hl]; exists kp; by rewrite Hd2).
    unfold expired, GetCommandTimeSnapshot. rewrite (kept_time _ _ Hk2).
    destruct (ttl d !! k) as [z|]; [destruct (Z.leb_spec z (command_time_snapshot_ s))|].
    2,3: eexists _, _, _; (split; [reflexivity|]); done.
    destruct (assign_new_spec k l x v s2 d Hs2 Hl2) as (s3&Heq3&Hs3&Hk3&Hl3&_&_). step Heq3.
    destruct (erase_expire_spec k s3 _ Hs3) as (s4&Heq4&Hs4&Hk4&Hd4&_&_).
    rewrite (bind_Ok _ _ _ Heq4). eexists _, _, _. split; [reflexivity|].
    split_and!; try done; [etransitivity; [exact Hk2|by etransitivity]|].
    destruct Hl3 as [kp Hl3]. eexists _, kp. rewrite Hd4. exact Hl3.
  - subst e. unfold CreateMTSPtr. simpl.
    destruct (t_Insert_ok k (Some (next_str_ s)) dt) as (l&kp&dt'&Heq2&Hok2&Hv2).
    { apply Hs1. }
    { pose proof (svc_is_size _ _ Hs1) as Hc. simpl in Hc. by rewrite Hc. }
    { pose proof (svc_is_lookup s1 d k Hs1) as Hl. by rewrite Hkv in Hl. }
    step Heq2. eexists _, _, _. split; [reflexivity|].
    destruct (new_str_kept s1 (with_data dt' (with_strs (<[next_str_ s:=v]> (strs_ s))
      (Pos.succ (next_str_ s)) s1)) d v Hs1) as [Hk _]; [done|done|].
    destruct d as [kvs ttls]. split_and!; try done.
    + by apply (svc_is_new s1 _ kvs ttls k l kp v).
    + exists (next_str_ s), kp. simpl. by rewrite Hv2, lookup_insert_eq.
Qed.

Lemma SetDataXX_spec k v get s d :
  svc_is s d →
  set_post k s (db_SetData (command_time_snapshot_ s) k v kXX get d) (SetDataXX k v get s).
Proof.
  intros Hs. unfold SetDataXX, db_SetData.
  destruct (find_data k s d Hs) as (e&dt&Heq&Hs1&Hr1&Hk). step Heq.
  set (s1 := with_data dt s) in *. destruct (kv d !! k) as [c|] eqn:Hkv.
  2: { subst e. eexists _, _, _. split; [reflexivity|]. done. }
  destruct Hk as (l&x&->&Hl&Hx). cbv zeta.
  destruct (find_expire_spec k s1 d Hs1) as (s2&Heq2&Hs2&Hr2&Hd2).
  rewrite (bind_Ok _ _ _ Heq2). cbn beta iota.
  assert (kept s s2) as Hk2 by (apply relaid_kept; by etransitivity).
  assert (strs_ s2 = strs_ s) as Hstr2 by (by destruct Hr2 as (_&_&?&_)).
  assert (entry_is s2 k l x) as Hl2 by (destruct Hl as [kp Hl]; exists kp; by rewrite Hd2).
  unfold expired, GetCommandTimeSnapshot. rewrite (kept_time _ _ Hk2).
  destruct (match ttl d !! k with Some e => e <=? _ | None => false end).
  { destruct (erase_both k s2 d Hs2) as (b&b'&dt3&et3&Ed&Ee&_&Hs3&_).
    unfold erase_data, erase_expire. rewrite (bind_Ok _ _ _ Ed). cbn [mbind outcome_bind].
    simpl. rewrite Ee. eexists _, _, _. split; [reflexivity|]. split_and!; try done. }
  destruct get.
  - pose proof Hl2 as [kp Hl2'].
    rewrite (bind_Ok _ _ _ (t_value_ok _ _ _ _ _ (is_data _ _ Hs2) Hl2')). cbn beta.
    destruct (assign_twice_spec k l x None v s2 d Hs2 Hl2)
      as (s3&s4&Heq3&_&_&Heq4&Hs4&Hk4&Hl4&Hold).
    apply bind_Ok_inv in Heq3 as (dt3&Heq3&[= Hs3]). rewrite (bind_Ok _ _ _ Heq3).
    cbn [mbind outcome_bind]. rewrite Hs3, Heq4. simpl. eexists _, _, _. split; [reflexivity|].
    split_and!; try done; [by etransitivity| |eauto]. simpl. apply Hold. by rewrite Hstr2.
  - cbn [mbind outcome_bind].
    destruct (assign_new_spec k l x v s2 d Hs2 Hl2) as (s3&Heq3&Hs3&Hk3&Hl3&_&_).
    rewrite (bind_Ok _ _ _ Heq3). eexists _, _, _. split; [reflexivity|].
    split_and!; try done; [by etransitivity|eauto].
Qed.

(** [SetData], in every mode, on every branch. *)
Lemma SetData_spec k v mode get s d :
  svc_is s d → Z.of_nat (size (kv d)) < table_limit →
  set_post k s (db_SetData (command_time_snapshot_ s) k v mode get d) (SetData k v mode get s).
Proof.
  intros Hs Hsmall. unfold SetData.
  assert (set_post k s (db_SetData (command_time_snapshot_ s) k v mode get d)
    match mode with
    | kRegular => SetDataRegular k v get s
    | kNX => SetDataNX k v s
    | kXX => SetDataXX k v get s
    end) as Hpost.
  { destruct mode; [destruct get|..].
    - by apply SetDataRegular_get.
    - by apply SetDataRegular_set.
    - by apply SetDataNX_spec.
    - by apply SetDataXX_spec. }
  destruct (db_SetData _ k v mode get d) as [[st old] d'].
  destruct Hpost as (e&p&s1&Heq&Hs1&Hk1&Hp&He). rewrite (bind_Ok _ _ _ Heq). cbn beta iota.
  destruct e as [l|].
  - destruct He as (Hst&x&Hl). destruct (touch_spec k l x s1 d' Hs1 Hl)
      as (s2&Heq2&Hs2&Hr2&Hd2&_).
    rewrite (bind_Ok _ _ _ Heq2). eexists _, _, _. split; [reflexivity|].
    split_and!; try done.
    + etransitivity; [done|by apply relaid_kept].
    + destruct Hr2 as (_&_&->&_). done.
    + exists x. destruct Hl as [kp Hl]. exists kp. by rewrite Hd2.
  - by eexists _, _, _.
Qed.

(** ** Incremental rehashing *)

Lemma rehash_table_spec {V T} `{!Inhabited V} `{!Table V T} `{!TableView V T} `{!TableLaws V T} ticks (t : T) :
  t_ok t → t_IsRehashing t = true →
  ∃ t', rehash_table ticks t = Ok t' ∧ t_ok t' ∧ t_view t' = t_view t.
Proof.
  revert t. induction ticks as [|b ticks IH]; intros t Hok Hre; simpl;
    destruct (t_RehashSome_ok 100 t Hok Hre) as (fin&t1&Heq&Hok1&Hv1&Hre1); try lia;
    rewrite (bind_Ok _ _ _ Heq); cbn beta iota; destruct fin; eauto.
  destruct b; [|eauto]. destruct (IH t1 Hok1 (Hre1 eq_refl)) as (t'&?&?&?).
  exists t'. split_and!; congruence.
Qed.

(** The cron's rehashing never fails and does not change the database. *)
Lemma IncrementalRehashing_spec ticks1 ticks2 s d :
  svc_is s d →
  ∃ s', IncrementalRehashing ticks1 ticks2 s = Ok s' ∧ svc_is s' d ∧ relaid s s'.
Proof.
  intros Hs. unfold IncrementalRehashing.
  assert (∃ dt, (if t_IsRehashing (data_ht_ s) then rehash_table ticks1 (data_ht_ s)
            else Ok (data_ht_ s)) = Ok dt ∧ t_ok dt ∧ t_view dt = t_view (data_ht_ s))
    as (dt&Hd&Hokd&Hvd).
  { destruct (t_IsRehashing (data_ht_ s)) eqn:E; [apply rehash_table_spec; [apply Hs|done]|].
    eexists. split; [reflexivity|]. split; [apply Hs|done]. }
  assert (∃ et, (if t_IsRehashing (expire_ht_ s) then rehash_table ticks2 (expire_ht_ s)
            else Ok (expire_ht_ s)) = Ok et ∧ t_ok et ∧ t_view et = t_view (expire_ht_ s))
    as (et&He&Hoke&Hve).
  { destruct (t_IsRehashing (expire_ht_ s)) eqn:E; [apply rehash_table_spec; [apply Hs|done]|].
    eexists. split; [reflexivity|]. split; [apply Hs|done]. }
  rewrite (bind_Ok _ _ _ Hd). cbn beta. rewrite (bind_Ok _ _ _ He).
  assert (relaid s (with_expire et (with_data dt s))) as Hr by done.
  eexists. split; [reflexivity|]. split; [by apply (relaid_is s)|done].
Qed.
End specs.
