(* ===== verification/Expire.v ===== *)
(** * Active expiry

    Model of [ExpireStrategy::ActiveExpire] (src/src/service/expire_strategy.cc):
    the cycle that scans the expire table bucket by bucket and erases the keys
    whose time has come.  The callback erases the very entry whose [next] field
    [TraverseBucket] reads afterwards, so a cycle that meets an expired key
    reads freed memory; a cycle that meets none is harmless. *)

From S2P Require Import Prelude Bits HashTable HashTableInv HashTableSpec HashTableWalk.
From S2P Require Import Config Table Replier Service ServiceInv ServiceSpec.

Section expire.
Context `{!BuildMode} `{!HashFn}.
Abbreviation Svc := (Service (HashTable MTSPtr) (HashTable Z)).
Implicit Types s : Svc.

Definition set_bucket_index (i : Z) s : Svc :=
  let x := expirer_ s in
  with_expirer (mkExpirer i (threshold_percentage_ x) (keys_per_loop_ x) (active_expired_keys x)
    (expired_stale_perc x) (expired_time_cap_reached_count x) (elapsed_time x)) s.
Definition set_stats (active stale cap elapsed : Z) s : Svc :=
  let x := expirer_ s in
  with_expirer (mkExpirer (bucket_index_ x) (threshold_percentage_ x) (keys_per_loop_ x)
    active stale cap elapsed) s.

(** The service and the counters the callback captures. *)
Record Scan := mkScan { sc_svc : Svc; sampled_this_iter : Z; expired_this_iter : Z }.

(** The table the callback works on. *)
Definition scan_table (w : Scan) : HashTable Z := expire_ht_ (sc_svc w).

(** The callback of [TraverseBucket]. *)
Definition expire_callback (now : Z) (entry : loc) (w : Scan) : Outcome Scan :=
  let s := sc_svc w in
  let sampled := u32 (sampled_this_iter w + 1) in
  value ← get_value entry (expire_ht_ s);
  if now <? value then Ok (mkScan s sampled (expired_this_iter w))
  else
    key ← CopyKey entry (expire_ht_ s);
    '(_, d) ← Erase (k_data key) (data_ht_ s);
    let s := with_data d s in
    '(_, e) ← Erase (k_data key) (expire_ht_ s);
    Ok (mkScan (with_expire e s) sampled (u32 (expired_this_iter w + 1))).

(** The inner loop: whole buckets until enough keys are sampled or the cursor
    is back at 0, at the latest after as many buckets as the table has. *)
Fixpoint sample_keys (fuel : nat) (now keys_to_sample : Z) (w : Scan) : Outcome Scan :=
  if sampled_this_iter w <? keys_to_sample then
    match fuel with
    | O => Diverge
    | S fuel =>
        '(index, w) ← TraverseBucket scan_table (expire_callback now)
                        (bucket_index_ (expirer_ (sc_svc w))) w;
        let w := mkScan (set_bucket_index index (sc_svc w)) (sampled_this_iter w)
                   (expired_this_iter w) in
        if index =? 0 then Ok w else sample_keys fuel now keys_to_sample w
    end
  else Ok w.

(** [expired_rate], a quotient of 32-bit integers computed as a [double],
    compared with an integer below 2^32 and truncated: both are exact, since
    the quotient's distance to the next integer is far above its rounding
    error. *)
Definition rate_below (expired sampled threshold : Z) : bool :=
  u32 (expired * 100) <=? threshold * sampled.
Definition rate_trunc (expired sampled : Z) : Z := u32 (u32 (expired * 100) / sampled).

Definition time_limit (c : Config) : Outcome Z :=
  if hz c =? 0 then Fault DivByZero
  else Ok (1000000000 * active_expire_cycle_time_percent c / 100 / hz c).

(** The outer loop; [elapsed] are the readings of the steady clock, one per
    round.  The result is the number of expired keys. *)
Fixpoint expire_loop (elapsed : list Z) (now limit max_samples sampled_keys expired_keys : Z) s
    : Outcome (Z * Svc) :=
  let x := expirer_ s in
  let count := Count (expire_ht_ s) in
  let keys_to_sample := if count <? keys_per_loop_ x then count else keys_per_loop_ x in
  if keys_to_sample =? 0 then
    Ok (expired_keys, set_stats (active_expired_keys x) 0 (expired_time_cap_reached_count x)
                        (elapsed_time x) s)
  else
    w ← sample_keys (S (length (buckets0 (expire_ht_ s)))) now keys_to_sample (mkScan s 0 0);
    let s := sc_svc w in
    let x := expirer_ s in
    if sampled_this_iter w =? 0 then Ok (expired_keys, s)
    else
      let sampled_keys := u64 (sampled_keys + sampled_this_iter w) in
      let expired_keys := u64 (expired_keys + expired_this_iter w) in
      match elapsed with
      | [] => Diverge
      | el :: elapsed =>
          let stale := rate_trunc (expired_this_iter w) (sampled_this_iter w) in
          let s := set_stats (active_expired_keys x) stale (expired_time_cap_reached_count x)
                     (u64 (elapsed_time x + el)) s in
          if rate_below (expired_this_iter w) (sampled_this_iter w) (threshold_percentage_ x)
          then Ok (expired_keys, s)
          else if limit <=? el then
            let x := expirer_ s in
            Ok (expired_keys, set_stats (active_expired_keys x) (expired_stale_perc x)
                                (u64 (expired_time_cap_reached_count x + 1)) (elapsed_time x) s)
          else if sampled_keys =? max_samples then Ok (expired_keys, s)
          else expire_loop elapsed now limit max_samples sampled_keys expired_keys s
      end.

Definition ActiveExpire (now : Z) (elapsed : list Z) s : Outcome Svc :=
  limit ← time_limit (config_ s);
  '(expired_keys, s) ← expire_loop elapsed now limit (Count (expire_ht_ s)) 0 0 s;
  let x := expirer_ s in
  Ok (set_stats (u64 (active_expired_keys x + expired_keys)) (expired_stale_perc x)
        (expired_time_cap_reached_count x) (elapsed_time x) s).

(** ** The scan *)

(** Whether the time of the entry has come. *)
Definition due (now : Z) (t : HashTable Z) (l : loc) : Prop :=
  ∃ e, heap t !! l = Some e ∧ e_value e ≤ now.

#[global] Instance due_dec now t l : Decision (due now t l).
Proof.
  unfold due. destruct (heap t !! l) as [e|] eqn:He.
  - destruct (decide (e_value e ≤ now)); [left; eauto|right].
    by intros (e'&[= <-]&?).
  - right. by intros (e&?&_).
Defined.

Lemma erase_removes key l kp v (t : HashTable Z) :
  wf t → tview t !! key = Some (l, kp, v) →
  ∃ b t', Erase key t = Ok (b, t') ∧ heap t' !! l = None.
Proof.
  intros Hwf Hl. destruct (Erase_tview key t Hwf) as (t'&Heq&Hwf'&Htv&_).
  eexists _, t'. split; [exact Heq|]. destruct (heap t' !! l) as [e|] eqn:He; [|done]. exfalso.
  destruct (wf_entry_key _ _ _ Hwf' He) as [kp' Hk'].
  assert (tview t' !! k_data kp' = Some (l, kp', e_value e)) as Hv'
    by (apply tview_lookup; eauto).
  rewrite Htv in Hv'. apply lookup_delete_Some in Hv' as [Hne Hv'].
  apply tview_lookup in Hl as (e1&He1&Hk1&_&Hd1); [|done].
  apply tview_lookup in Hv' as (e2&He2&Hk2&_&Hd2); [|done]. congruence.
Qed.

(** The callback on an entry that is not due only counts it; on a due entry
    it destroys the entry. *)
Lemma callback_alive now l s n x :
  wf (expire_ht_ s) → is_Some (heap (expire_ht_ s) !! l) → ¬ due now (expire_ht_ s) l →
  expire_callback now l (mkScan s n x) = Ok (mkScan s (u32 (n + 1)) x).
Proof.
  intros Hwf [e He] Hdue. unfold expire_callback, get_value. simpl.
  rewrite (bind_Ok _ _ _ (entry_get_Ok _ _ _ He)). cbn [mbind outcome_bind].
  rewrite Zltb_t; [done|]. apply Z.nle_gt. intros ?. apply Hdue. by exists e.
Qed.

Lemma callback_due now l s n x :
  wf (data_ht_ s) → wf (expire_ht_ s) → due now (expire_ht_ s) l →
  ∃ w, expire_callback now l (mkScan s n x) = Ok w ∧ heap (expire_ht_ (sc_svc w)) !! l = None.
Proof.
  intros Hwd Hwf (e&He&Hdue). destruct (wf_entry_key _ _ _ Hwf He) as [kp Hk].
  assert (tview (expire_ht_ s) !! k_data kp = Some (l, kp, e_value e)) as Hl
    by (apply tview_lookup; eauto).
  unfold expire_callback. simpl. rewrite (bind_Ok _ _ _ (get_value_tview _ _ _ _ _ Hwf Hl)).
  rewrite Zltb_f by done. rewrite (bind_Ok _ _ _ (CopyKey_tview _ _ _ _ _ Hwf Hl)). cbn beta.
  destruct (Erase_tview (k_data kp) (data_ht_ s) Hwd) as (d'&Heq&_). step Heq.
  destruct (erase_removes _ _ _ _ _ Hwf Hl) as (b&t'&Heq'&Hnone). simpl. step Heq'. eauto.
Qed.

Lemma u32_step n m : u32 (u32 n + m) = u32 (n + m).
Proof. unfold u32. by rewrite Zplus_mod_idemp_l. Qed.

(** A chain is counted when none of its entries is due; otherwise the freed
    entry is read. *)
Lemma scan_chain now fuel p c s n x :
  wf (data_ht_ s) → wf (expire_ht_ s) → chain (heap (expire_ht_ s)) p c → (length c ≤ fuel)%nat →
  traverse_chain scan_table (expire_callback now) fuel p (mkScan s n x) =
    if decide (Exists (due now (expire_ht_ s)) c) then Fault UseAfterFree
    else match c with [] => Ok (mkScan s n x)
         | _ => Ok (mkScan s (u32 (n + Z.of_nat (length c))) x) end.
Proof.
  intros Hwd Hwf. revert p c n. induction fuel as [|fuel IH]; intros p [|l c] n;
    cbn [traverse_chain chain length];
    try (intros -> _; rewrite decide_False by (by intros ?%Exists_nil); done); [intros; lia|].
  intros (->&e&He&Hc) Hf. destruct (decide (due now (expire_ht_ s) l)) as [Hd|Hd].
  - rewrite decide_True by by constructor. destruct (callback_due now l s n x) as (w&Heq&Hn); try done.
    rewrite (bind_Ok _ _ _ Heq).
    assert (entry_get l (scan_table w) = Fault UseAfterFree) as ->; [|done].
    unfold entry_get, scan_table. by rewrite Hn.
  - rewrite (bind_Ok _ _ _ (callback_alive now l s n x Hwf ltac:(eauto) Hd)).
    rewrite (bind_Ok _ _ _ (entry_get_Ok (scan_table (mkScan _ _ _)) _ _ He)). cbn beta.
    rewrite (IH _ c) by (done || lia).
    destruct (decide (Exists (due now (expire_ht_ s)) c)) as [Hx|Hx].
    + by rewrite decide_True by by right.
    + rewrite decide_False by (rewrite Exists_cons; tauto).
      destruct c as [|l' c]; [done|]. rewrite u32_step. cbn [length]. do 3 f_equal. lia.
Qed.

(** A bucket. *)
Lemma scan_bucket now s cs0 cs1 (i : nat) c k n x :
  wf (data_ht_ s) → lay (expire_ht_ s) cs0 cs1 → IsRehashing (expire_ht_ s) = false →
  cs0 !! i = Some c → 0 ≤ k ≤ 31 → size0 (expire_ht_ s) = 2 ^ k → 0 ≤ n < 2 ^ 32 →
  TraverseBucket scan_table (expire_callback now) (Z.of_nat i) (mkScan s n x) =
    if decide (Exists (due now (expire_ht_ s)) c) then Fault UseAfterFree
    else Ok (revk k ((revk k (Z.of_nat i) + 1) mod 2 ^ k),
             mkScan s (u32 (n + Z.of_nat (length c))) x).
Proof.
  intros Hwd Hlay Hre Hc Hk Hsz Hn. pose proof (lay_rep _ _ _ Hlay) as Hrep.
  pose proof (lookup_lt_Some _ _ _ Hc) as Hi. rewrite <- (rep_len0 _ _ _ _ _ _ Hrep) in Hi.
  destruct (lookup_lt_is_Some_2 (buckets0 (expire_ht_ s)) i Hi) as [p Hp].
  unfold TraverseBucket. change (scan_table (mkScan s n x)) with (expire_ht_ s). rewrite Hre.
  rewrite (bind_Ok _ _ tt) by (apply cassert_true, Zltb_t; unfold size0; lia). cbn beta.
  rewrite (bind_Ok _ _ _ (bucket_get0 _ _ _ Hp)). cbn beta.
  rewrite Hsz, (bind_Ok _ _ _ (NextIndex_spec k Hk (Z.of_nat i) ltac:(unfold size0 in Hsz; lia))).
  cbn beta. rewrite (scan_chain now _ p c).
  - destruct (decide _); [done|]. destruct c; [|done]. simpl. by rewrite Z.add_0_r, u32_small.
  - done.
  - by exists cs0, cs1.
  - exact (chains_lookup _ _ _ _ _ _ (rep_b0 _ _ _ _ _ _ Hrep) Hp Hc).
  - pose proof (rep_chain_fuel0 _ _ _ _ _ _ _ _ Hrep Hc) as [_ ?]. lia.
Qed.

Lemma set_bucket_index_same i s : bucket_index_ (expirer_ s) = i → set_bucket_index i s = s.
Proof. intros <-. by destruct s as [???????? []]. Qed.

(** The result of a scan of the buckets that follow the [n]-th. *)
Definition scan_post (now keys k : Z) (cs : list (list loc)) (n m : nat) s samp x
    (res : Outcome Scan) : Prop :=
  match res with
  | Ok w => ∃ j, (j ≤ m)%nat ∧
      w = mkScan (set_bucket_index (revk k (Z.of_nat (n + j) mod 2 ^ k)) s)
            (u32 (samp + Z.of_nat (length (visits k cs n j)))) x ∧
      ¬ Exists (due now (expire_ht_ s)) (visits k cs n j) ∧
      (keys ≤ sampled_this_iter w ∨ j = m)
  | Fault f => f = UseAfterFree ∧ Exists (due now (expire_ht_ s)) (visits k cs n m)
  | Diverge => False
  end.

Lemma visits_S k cs n m :
  visits k cs n (S m) = default [] (cs !! Z.to_nat (revk k (Z.of_nat n))) ++ visits k cs (S n) m.
Proof. done. Qed.

Lemma sample_keys_spec now keys k s cs0 cs1 m fuel n samp x :
  wf (data_ht_ s) → lay (expire_ht_ s) cs0 cs1 → IsRehashing (expire_ht_ s) = false →
  0 ≤ k ≤ 31 → size0 (expire_ht_ s) = 2 ^ k → Z.of_nat (n + m) = 2 ^ k → (0 < m)%nat →
  0 ≤ samp < 2 ^ 32 → (m ≤ fuel)%nat →
  scan_post now keys k cs0 n m s samp x
    (sample_keys fuel now keys (mkScan (set_bucket_index (revk k (Z.of_nat n)) s) samp x)).
Proof.
  intros Hwd Hlay Hre Hk Hsz. revert fuel n samp.
  induction m as [|m IH]; intros fuel n samp Hnm Hm Hsamp Hf; [lia|].
  destruct fuel as [|fuel]; [lia|].
  cbn [sample_keys sampled_this_iter].
  destruct (Z.ltb_spec samp keys) as [Hlt|Hge].
  2: { exists 0%nat. split; [lia|]. split.
       - rewrite Nat.add_0_r, Z.mod_small by lia. simpl. by rewrite Z.add_0_r, u32_small.
       - split; [by intros ?%Exists_nil|]. by left. }
  pose proof (revk_range k Hk (Z.of_nat n) ltac:(lia)) as Hr.
  pose proof (rep_len0 _ _ _ _ _ _ (lay_rep _ _ _ Hlay)) as Hlen.
  destruct (lookup_lt_is_Some_2 cs0 (Z.to_nat (revk k (Z.of_nat n)))) as [c Hc].
  { unfold size0 in Hsz. lia. }
  pose proof (scan_bucket now (set_bucket_index (revk k (Z.of_nat n)) s) cs0 cs1 _ c k samp x
    Hwd Hlay Hre Hc Hk Hsz Hsamp) as Hstep.
  rewrite Z2Nat.id in Hstep by lia. rewrite revk_revk in Hstep by lia.
  cbn [sc_svc set_bucket_index with_expirer expirer_ bucket_index_]. rewrite Hstep. clear Hstep.
  destruct (decide _) as [Hx|Hx].
  { split; [done|]. rewrite visits_S, Hc. simpl. apply Exists_app. by left. }
  cbn [mbind outcome_bind sc_svc sampled_this_iter expired_this_iter].
  assert (∀ i i', set_bucket_index i (set_bucket_index i' s) = set_bucket_index i s) as -> by done.
  destruct (decide (m = 0%nat)) as [->|Hm0].
  - replace (Z.of_nat n + 1) with (2 ^ k) by lia. rewrite Z.mod_same by lia.
    replace (revk k 0) with 0 by reflexivity. cbn [Z.eqb].
    exists 1%nat. split; [lia|]. rewrite visits_S, Hc. cbn [default visits seq map concat].
    rewrite app_nil_r. split_and!; [|done|by right]. replace (n + 1)%nat with (Z.to_nat (2 ^ k)) by lia.
    rewrite Z2Nat.id, Z.mod_same by lia. done.
  - rewrite Z.mod_small by lia. replace (Z.of_nat n + 1) with (Z.of_nat (S n)) by lia.
    rewrite Zeqb_f.
    2: { intros E. apply (f_equal (revk k)) in E. rewrite revk_revk in E by lia.
         change (revk k 0) with 0 in E. lia. }
    specialize (IH fuel (S n) (u32 (samp + Z.of_nat (length c))) ltac:(lia) ltac:(lia)
      (Z.mod_pos_bound _ (2 ^ 32) eq_refl) ltac:(lia)).
    destruct (sample_keys fuel now keys _) as [w|f|]; [| |done].
    + destruct IH as (j&Hj&->&Hall&Hend). exists (S j). split; [lia|].
      rewrite visits_S, Hc. cbn [default from_option id]. rewrite u32_step, length_app, Exists_app in *.
      split; [|split; [by intros [?|?]|]].
      * replace (n + S j)%nat with (S n + j)%nat by lia.
        by replace (samp + Z.of_nat (length c + length (visits k cs0 (S n) j)))
          with (samp + Z.of_nat (length c) + Z.of_nat (length (visits k cs0 (S n) j))) by lia.
      * destruct Hend as [He|He]; [left|right; lia]. exact He.
    + destruct IH as [-> Hex]. split; [done|]. rewrite visits_S, Hc. apply Exists_app. by right.
Qed.
(** ** A cycle *)

(** The cursor is a bucket of the expire table, or 0; the thresholds are
    unsigned. *)
Definition expirer_ok s : Prop :=
  0 ≤ bucket_index_ (expirer_ s) < Z.max 1 (size0 (expire_ht_ s)) ∧
  0 ≤ threshold_percentage_ (expirer_ s).

(** What a harmless cycle changes: the cursor and the statistics. *)
Definition same_but_expirer s s' : Prop :=
  s' = with_expirer (expirer_ s') s ∧ expirer_ok s' ∧
  keys_per_loop_ (expirer_ s') = keys_per_loop_ (expirer_ s) ∧
  threshold_percentage_ (expirer_ s') = threshold_percentage_ (expirer_ s) ∧
  active_expired_keys (expirer_ s') = active_expired_keys (expirer_ s).

Lemma same_stats i stale cap el s :
  expirer_ok s → 0 ≤ i < Z.max 1 (size0 (expire_ht_ s)) →
  same_but_expirer s (set_stats (active_expired_keys (expirer_ s)) stale cap el
                        (set_bucket_index i s)).
Proof. intros [_ ?] ?. by split_and!. Qed.

Lemma sample_cycle now keys s :
  wf (data_ht_ s) → wf (expire_ht_ s) → expirer_ok s → keys ≤ Count (expire_ht_ s) →
  match sample_keys (S (length (buckets0 (expire_ht_ s)))) now keys (mkScan s 0 0) with
  | Ok w => expired_this_iter w = 0 ∧ 0 ≤ sampled_this_iter w ∧
      ∃ i, sc_svc w = set_bucket_index i s ∧ 0 ≤ i < Z.max 1 (size0 (expire_ht_ s))
  | Fault f => f = UseAfterFree ∧ ∃ l, due now (expire_ht_ s) l
  | Diverge => False
  end.
Proof.
  intros Hwd Hwf [Hi _] Hkeys. destruct (decide (keys ≤ 0)) as [Hz|Hz].
  { cbn [sample_keys sampled_this_iter]. rewrite Zltb_f by lia. split_and!; [done..|].
    exists (bucket_index_ (expirer_ s)). by rewrite set_bucket_index_same. }
  destruct (IsRehashing (expire_ht_ s)) eqn:Hre.
  { cbn [sample_keys sampled_this_iter]. rewrite Zltb_t by lia. unfold TraverseBucket.
    change (scan_table (mkScan s 0 0)) with (expire_ht_ s). rewrite Hre. cbn.
    split_and!; [done..|]. exists 0. split; [done|lia]. }
  pose proof Hwf as (cs0&cs1&Hlay).
  assert (buckets0 (expire_ht_ s) ≠ []) as Hne.
  { intros Hb. rewrite wf_count, (tview_no_buckets _ Hwf Hb), map_size_empty in Hkeys by done. lia. }
  pose proof (wf_size0_pos _ Hne) as Hpos.
  destruct (lay_pow _ _ _ Hlay) as [?|(k&Hk&Hsz)]; [unfold size0 in *; lia|].
  set (i := bucket_index_ (expirer_ s)) in *. rewrite Z.max_r in Hi by (unfold size0; lia).
  pose proof (revk_range k ltac:(lia) i ltac:(lia)) as Hr.
  set (n := Z.to_nat (revk k i)). set (m := Z.to_nat (2 ^ k - revk k i)).
  pose proof (sample_keys_spec now keys k s cs0 cs1 m (S (length (buckets0 (expire_ht_ s)))) n 0 0
    Hwd Hlay Hre ltac:(lia) Hsz ltac:(lia) ltac:(lia) ltac:(lia)
    ltac:(unfold size0 in *; lia)) as Hp.
  assert (revk k (Z.of_nat n) = i) as Hn.
  { unfold n. rewrite Z2Nat.id by lia. apply revk_revk; lia. }
  rewrite Hn, set_bucket_index_same in Hp by done.
  destruct (sample_keys _ now keys (mkScan s 0 0)) as [w|f|]; [| |done].
  - destruct Hp as (j&Hj&->&_). cbn [expired_this_iter sampled_this_iter sc_svc].
    split_and!; [done|apply Z.mod_pos_bound; lia|]. eexists. split; [reflexivity|].
    pose proof (revk_range k ltac:(lia) (Z.of_nat (n + j) mod 2 ^ k)
      ltac:(apply Z.mod_pos_bound; lia)). lia.
  - destruct Hp as [-> (l&_&Hl)%Exists_exists]. eauto.
Qed.

Lemma due_ttl now s d :
  svc_is s d → (∃ l, due now (expire_ht_ s) l) ↔ ∃ k e, ttl d !! k = Some e ∧ e ≤ now.
Proof.
  intros Hs. pose proof (is_expire _ _ Hs : wf (expire_ht_ s)) as Hwf.
  rewrite (is_ttl _ _ Hs). change (t_view (expire_ht_ s)) with (tview (expire_ht_ s)). split.
  - intros (l&e&He&Hle). destruct (wf_entry_key _ _ _ Hwf He) as [kp Hk].
    exists (k_data kp), (e_value e). rewrite lookup_fmap.
    by rewrite (proj2 (tview_lookup _ (k_data kp) l kp (e_value e) Hwf)) by eauto.
  - intros (k&e&He&Hle). rewrite lookup_fmap, fmap_Some in He.
    destruct He as ([[l kp] v]&He&->). apply tview_lookup in He as (en&?&?&<-&_); [|done].
    by exists l, en.
Qed.

Lemma expire_loop_spec now elapsed limit maxs ns nx s d :
  svc_is s d → expirer_ok s → elapsed ≠ [] →
  match expire_loop elapsed now limit maxs ns nx s with
  | Ok (n, s') => u64 n = u64 nx ∧ same_but_expirer s s'
  | Fault f => f = UseAfterFree ∧ ∃ k e, ttl d !! k = Some e ∧ e ≤ now
  | Diverge => False
  end.
Proof.
  intros Hs Hx Hel. destruct elapsed as [|el elapsed]; [done|]. cbn [expire_loop].
  set (keys := if _ <? _ then _ else _).
  destruct (Z.eqb_spec keys 0) as [Hz|Hz].
  { split; [done|]. rewrite <- (set_bucket_index_same (bucket_index_ (expirer_ s)) s) at 4 by done.
    apply same_stats; [done|apply Hx]. }
  assert (keys ≤ Count (expire_ht_ s)) as Hk
    by (unfold keys; destruct (Z.ltb_spec (Count (expire_ht_ s)) (keys_per_loop_ (expirer_ s))); lia).
  pose proof (sample_cycle now keys s (is_data _ _ Hs) (is_expire _ _ Hs) Hx Hk) as Hc.
  destruct (sample_keys _ now keys _) as [w|f|]; [| |done].
  2: { destruct Hc as [-> Hd]. split; [done|]. by apply (due_ttl now s d Hs). }
  destruct Hc as (Hex&Hsam&i&Heq&Hi). cbn [mbind outcome_bind]. rewrite Heq, Hex.
  destruct (Z.eqb_spec (sampled_this_iter w) 0) as [Hz'|Hz'].
  { split; [done|]. destruct Hx. by split_and!. }
  unfold rate_below. cbn [Z.mul]. rewrite Zleb_t.
  2: { destruct Hx as [_ Hth]. simpl. unfold u32. rewrite Z.mod_0_l by lia. nia. }
  split; [unfold u64; by rewrite Z.add_0_r, Z.mod_mod by lia|].
  exact (same_stats i _ _ _ s Hx Hi).
Qed.

Lemma ActiveExpire_spec now elapsed s d :
  svc_is s d → expirer_ok s → elapsed ≠ [] → hz (config_ s) ≠ 0 →
  match ActiveExpire now elapsed s with
  | Ok s' => s' = with_expirer (expirer_ s') s ∧ svc_is s' d ∧ expirer_ok s' ∧
      active_expired_keys (expirer_ s') = u64 (active_expired_keys (expirer_ s))
  | Fault f => f = UseAfterFree ∧ ∃ k e, ttl d !! k = Some e ∧ e ≤ now
  | Diverge => False
  end.
Proof.
  intros Hs Hx Hel Hhz. unfold ActiveExpire, time_limit. rewrite Zeqb_f by done.
  cbn [mbind outcome_bind].
  pose proof (expire_loop_spec now elapsed (1000000000 * active_expire_cycle_time_percent (config_ s)
    / 100 / hz (config_ s)) (Count (expire_ht_ s)) 0 0 s d Hs Hx Hel) as Hl.
  destruct (expire_loop _ now _ _ 0 0 s) as [[n s']|f|]; [|done..].
  destruct Hl as (Hn&Heq&[Hi Hth]&Hk&Ht&Ha). cbn [mbind outcome_bind].
  split_and!.
  - rewrite Heq. done.
  - rewrite Heq. by apply (svc_is_ext s); try apply Hs.
  - split; [|exact Hth]. exact Hi.
  - cbn. rewrite Ha. unfold u64 in *. by rewrite <- Zplus_mod_idemp_r, Hn, Z.mod_0_l, Z.add_0_r by lia.
Qed.


(** A prefix of the visits that has as many entries as the table has them all. *)
Lemma visits_prefix k cs n j m : visits k cs n (j + m) = visits k cs n j ++ visits k cs (n + j) m.
Proof. unfold visits. by rewrite seq_app, map_app, concat_app. Qed.

Lemma full_scan now s d :
  svc_is s d → IsRehashing (expire_ht_ s) = false → bucket_index_ (expirer_ s) = 0 →
  0 < Count (expire_ht_ s) → (∃ l, due now (expire_ht_ s) l) →
  sample_keys (S (length (buckets0 (expire_ht_ s)))) now (Count (expire_ht_ s)) (mkScan s 0 0)
  = Fault UseAfterFree.
Proof.
  intros Hs Hre Hi Hcnt [l Hdue]. pose proof (is_expire _ _ Hs : wf (expire_ht_ s)) as Hwf.
  pose proof Hwf as (cs0&cs1&Hlay). pose proof (lay_rep _ _ _ Hlay) as Hrep.
  pose proof (wf_entries_bound _ Hwf) as Hb. unfold Count in *.
  assert (buckets0 (expire_ht_ s) ≠ []) as Hne.
  { intros E. pose proof (wf_count _ Hwf) as Hc. unfold Count in Hc.
    rewrite (tview_no_buckets _ Hwf E), map_size_empty in Hc. lia. }
  pose proof (wf_size0_pos _ Hne) as Hpos. pose proof (rep_len0 _ _ _ _ _ _ Hrep) as Hlen.
  destruct (lay_pow _ _ _ Hlay) as [?|(k&Hk&Hsz)]; [unfold size0 in *; lia|].
  pose proof (sample_keys_spec now (entries_ (expire_ht_ s)) k s cs0 cs1 (length cs0)
    (S (length (buckets0 (expire_ht_ s)))) 0 0 0 (is_data _ _ Hs) Hlay Hre ltac:(lia) Hsz
    ltac:(unfold size0 in *; lia) ltac:(lia) ltac:(lia) ltac:(lia)) as Hp.
  change (revk k (Z.of_nat 0)) with 0 in Hp. rewrite set_bucket_index_same in Hp by done.
  destruct (visits_entries _ _ _ k Hlay Hre ltac:(lia) Hsz) as [Hnd Hall].
  assert (length (visits k cs0 0 (length cs0)) ≤ size (heap (expire_ht_ s)))%nat as Hsize
    by (apply NoDup_dom_length; [done|]; intros ? ?; by apply Hall).
  destruct (sample_keys _ now _ _) as [w|f|]; [|by destruct Hp as [-> _]|done].
  destruct Hp as (j&Hj&->&Hno&Hend). destruct Hno. apply Exists_exists. exists l. split; [|done].
  assert (l ∈ visits k cs0 0 (length cs0)) as Hin by (apply Hall; destruct Hdue as (e&?&_); eauto).
  replace (length cs0) with (j + (length cs0 - j))%nat in Hin, Hsize by lia.
  rewrite visits_prefix in Hin, Hsize. rewrite length_app in Hsize.
  destruct Hend as [Hend| ->]; [|by rewrite Nat.sub_diag, app_nil_r in Hin].
  cbn [sampled_this_iter] in Hend. pose proof (lay_count _ _ _ Hlay) as Hc.
  pose proof (Z.mod_le (0 + Z.of_nat (length (visits k cs0 0 j))) (2 ^ 32) ltac:(lia) ltac:(lia)).
  unfold u32 in Hend. destruct (visits k cs0 (0 + j) _); [by rewrite app_nil_r in Hin|].
  simpl in Hsize. lia.
Qed.

(** Active expiry cannot remove an expired key: a cycle that starts at bucket 0
    and may sample the whole table (not rehashing) reads a freed entry as soon
    as some key has expired. *)
Theorem active_expire_reads_freed_entry now elapsed s d k e :
  svc_is s d → bucket_index_ (expirer_ s) = 0 → IsRehashing (expire_ht_ s) = false →
  Count (expire_ht_ s) ≤ keys_per_loop_ (expirer_ s) → hz (config_ s) ≠ 0 →
  ttl d !! k = Some e → e ≤ now →
  ActiveExpire now elapsed s = Fault UseAfterFree.
Proof.
  intros Hs Hi Hre Hk Hhz He Hle. unfold ActiveExpire, time_limit. rewrite Zeqb_f by done.
  assert (∃ l, due now (expire_ht_ s) l) as Hd by (apply (due_ttl now s d Hs); eauto).
  assert (0 < Count (expire_ht_ s)) as Hc.
  { pose proof (is_expire _ _ Hs : wf (expire_ht_ s)) as (cs0&cs1&Hlay). unfold Count.
    rewrite (lay_count _ _ _ Hlay). destruct Hd as (l&en&Hl&_).
    assert (size (heap (expire_ht_ s)) ≠ 0%nat); [|lia].
    intros E%map_size_empty_inv. by rewrite E in Hl. }
  cbn [mbind outcome_bind].
  assert ((if Count (expire_ht_ s) <? keys_per_loop_ (expirer_ s) then Count (expire_ht_ s)
           else keys_per_loop_ (expirer_ s)) = Count (expire_ht_ s)) as Hkeys
    by (destruct (Z.ltb_spec (Count (expire_ht_ s)) (keys_per_loop_ (expirer_ s))); lia).
  destruct elapsed; cbn [expire_loop]; rewrite Hkeys, Zeqb_f, (full_scan now s d) by (done || lia);
    done.
Qed.
End expire.
