(* ===== verification/StringCommands.v ===== *)
(** * String commands

    Model of the handlers of src/src/service/commands/string_commands.cc.  A
    handler takes the query's strings (the command name first), the result
    object and the service, and changes the last two. *)

From S2P Require Import Prelude Chars Table Replier HashTable Service.

(** ** Arguments *)

(** [ParseInt<Rep>]: the whole argument must be read. *)
Definition whole (r : from_chars_result) : option Z :=
  match r with FcOk v [] => Some v | _ => None end.
Definition ParseInt_i64 (str : bytes) : option Z := whole (from_chars_i64 str).
Definition ParseInt_i32 (str : bytes) : option Z := whole (from_chars_i32 str).
Definition ParseInt_u32 (str : bytes) : option Z := whole (from_chars_u32 str).

(** [IntToTimePoint<Duration>]: [unit_] is the number of milliseconds of a
    unit of [Duration].  The [if constexpr] compares the period of [TimePoint]
    with itself, so its guard is not compiled in; the comparison and the sum
    convert [Duration{i}] to milliseconds. *)
Definition IntToTimePoint (unit_ now i : Z) : Outcome (option Z) :=
  if i <=? 0 then Ok None
  else
    room ← chk_i64 (i64_max - now);
    dur ← chk_i64 (i * unit_);
    if room <? dur then Ok None
    else t ← chk_i64 (now + dur); Ok (Some t).

Inductive ExtractExpireResult := xDone | xNotFound | xError.

(** The four [rep_to_tp] functions. *)
Inductive ExpireOption := optPX | optEX | optPXAT | optEXAT.

Definition expire_option (arg : bytes) : option ExpireOption :=
  if bool_decide (arg = lit "PX") then Some optPX
  else if bool_decide (arg = lit "EX") then Some optEX
  else if bool_decide (arg = lit "PXAT") then Some optPXAT
  else if bool_decide (arg = lit "EXAT") then Some optEXAT
  else None.

Definition rep_to_tp (o : ExpireOption) (current rep : Z) : Outcome (option Z) :=
  match o with
  | optPX =>
      room ← chk_i64 (i64_max - current);
      if rep <=? room then t ← chk_i64 (current + rep); Ok (Some t) else Ok None
  | optEX =>
      if i64_max / 1000 <? rep then Ok None
      else
        dur ← chk_i64 (rep * 1000);
        room ← chk_i64 (i64_max - current);
        if dur <=? room then t ← chk_i64 (current + dur); Ok (Some t) else Ok None
  | optPXAT => Ok (Some rep)
  | optEXAT =>
      if i64_max / 1000 <? rep then Ok None else t ← chk_i64 (rep * 1000); Ok (Some t)
  end.

(** [args\[i\]]. *)
Definition arg (args : list bytes) (i : nat) : Outcome bytes :=
  match args !! i with Some a => Ok a | None => Fault OutOfRange end.

(** Answers the outcome, the new [i], the result and [expire_time]. *)
Definition ExtractExpireOptions (args : list bytes) (i : nat) (cmd_time : Z) (result : Result)
    (expire_time : option Z) : Outcome (ExtractExpireResult * nat * Result * option Z) :=
  a ← arg args i;
  match expire_option a with
  | None => Ok (xNotFound, i, result, expire_time)
  | Some o =>
      if (i =? length args - 1)%nat then Ok (xError, i, SetError kSyntaxError result, expire_time)
      else if bool_decide (is_Some expire_time)
      then Ok (xError, i, SetError kSyntaxError result, expire_time)
      else
        n ← arg args (i + 1);
        match ParseInt_i64 n with
        | None => Ok (xError, i, SetError kNotAnInt result, expire_time)
        | Some ll =>
            if ll <=? 0 then Ok (xError, i, SetError kNotAnInt result, expire_time)
            else
              expire_time ← rep_to_tp o cmd_time ll;
              if bool_decide (is_Some expire_time) then Ok (xDone, (i + 1)%nat, result, expire_time)
              else Ok (xError, i, SetError kNotAnInt result, expire_time)
        end
  end.

(** The options of SET: the variables [ExtractSetOptions] fills. *)
Record SetOptions := mkSetOptions {
  set_mode : SetMode;
  expire_time : option Z;
  keep_ttl : bool;
  get : bool }.

Definition no_options : SetOptions := mkSetOptions kRegular None false false.

(** The [for] loop of [ExtractSetOptions] from index [i]; [None] is the return
    value [false]. *)
Fixpoint ExtractSetOptions (fuel : nat) (args : list bytes) (i : nat) (cmd_time : Z)
    (result : Result) (o : SetOptions) : Outcome (option SetOptions * Result) :=
  if (i <? length args)%nat then
    match fuel with
    | O => Diverge
    | S fuel =>
        a ← arg args i;
        if bool_decide (a = lit "GET") then
          ExtractSetOptions fuel args (S i) cmd_time result
            (mkSetOptions (set_mode o) (expire_time o) (keep_ttl o) true)
        else if bool_decide (a = lit "NX") then
          if negb (bool_decide (set_mode o = kRegular)) then Ok (None, SetError kSyntaxError result)
          else ExtractSetOptions fuel args (S i) cmd_time result
                 (mkSetOptions kNX (expire_time o) (keep_ttl o) (get o))
        else if bool_decide (a = lit "XX") then
          if negb (bool_decide (set_mode o = kRegular)) then Ok (None, SetError kSyntaxError result)
          else ExtractSetOptions fuel args (S i) cmd_time result
                 (mkSetOptions kXX (expire_time o) (keep_ttl o) (get o))
        else if bool_decide (a = lit "KEEPTTL") then
          if bool_decide (is_Some (expire_time o)) then Ok (None, SetError kSyntaxError result)
          else ExtractSetOptions fuel args (S i) cmd_time result
                 (mkSetOptions (set_mode o) (expire_time o) true (get o))
        else
          '(x, i, result, e) ← ExtractExpireOptions args i cmd_time result (expire_time o);
          let o := mkSetOptions (set_mode o) e (keep_ttl o) (get o) in
          match x with
          | xError => Ok (None, result)
          | xNotFound => Ok (None, SetError kSyntaxError result)
          | xDone =>
              if negb (keep_ttl o) then ExtractSetOptions fuel args (S i) cmd_time result o
              else Ok (None, SetError kSyntaxError result)
          end
    end
  else Ok (Some o, result).

Section commands.
Context {DT ET : Type} `{!Table MTSPtr DT} `{!Table Z ET} `{!BuildMode}.
Implicit Types s : Service DT ET.

(** The handler type of [Command]. *)
Abbreviation Handler := (list bytes → Result → Service DT ET → Outcome (Result * Service DT ET)).

Definition wrong_arg_num (result : Result) s : Outcome (Result * Service DT ET) :=
  Ok (SetError kWrongArgNum result, s).

Definition GetFunctionBase (key : bytes) (result : Result) s
    : Outcome (option loc * Result * Service DT ET) :=
  '(entry, s) ← FindOrExpire key s;
  match entry with
  | None => Ok (None, SetNil result, s)
  | Some l =>
      v ← t_value l (data_ht_ s);
      s ← touch l s;
      Ok (Some l, SetString v result, s)
  end.

Definition GetFunctionBaseWithCallback (key : bytes) (result : Result)
    (callback : loc → Service DT ET → Outcome (Service DT ET)) s
    : Outcome (Result * Service DT ET) :=
  '(entry, result, s) ← GetFunctionBase key result s;
  match entry with
  | None => Ok (result, s)
  | Some l => s ← callback l s; Ok (result, s)
  end.

(** [expire_ht->Upsert(entry->CopyKey(), time)]. *)
Definition upsert_expire (l : loc) (at_ : Z) s : Outcome (Service DT ET) :=
  kp ← t_CopyKey l (data_ht_ s);
  '(_, e) ← t_UpsertKeyPtr kp at_ (expire_ht_ s);
  Ok (with_expire e s).

Definition SetFunction : Handler := λ args result s,
  if (length args <? 3)%nat then wrong_arg_num result s
  else
    let cmd_time := GetCommandTimeSnapshot s in
    '(opts, result) ←
      (if (3 <? length args)%nat
       then ExtractSetOptions (length args) (drop 3 args) 0 cmd_time result no_options
       else Ok (Some no_options, result));
    match opts with
    | None => Ok (result, s)
    | Some o =>
        key ← arg args 1;
        value ← arg args 2;
        '(set_status, entry, old_value, s) ← SetData key value (set_mode o) (get o) s;
        if bool_decide (set_status = kNoOp) then Ok (SetNil result, s)
        else
          s ← match expire_time o with
              | Some at_ => l ← deref entry; upsert_expire l at_ s
              | None =>
                  if bool_decide (set_status = kUpdated) && negb (keep_ttl o)
                  then erase_expire key s else Ok s
              end;
          if get o then
            match old_value with
            | None => Ok (SetNil result, s)
            | Some _ => Ok (SetString old_value result, s)
            end
          else Ok (SetOk result, s)
    end.

(** The [for] loops over pairs of key and value. *)
Fixpoint mset_loop (args : list bytes) s : Outcome (Service DT ET) :=
  match args with
  | [] => Ok s
  | key :: value :: args =>
      '(_, _, _, s) ← SetData key value kRegular false s;
      s ← erase_expire key s;
      mset_loop args s
  | [_] => Fault OutOfRange
  end.

Definition MSetFunction : Handler := λ args result s,
  if (length args <? 3)%nat || Nat.even (length args) then wrong_arg_num result s
  else s ← mset_loop (drop 1 args) s; Ok (result, s).

Fixpoint msetnx_loop (args : list bytes) (succeeded : bool) s
    : Outcome (bool * Service DT ET) :=
  match args with
  | [] => Ok (succeeded, s)
  | key :: value :: args =>
      '(set_status, _, _, s) ← SetData key value kNX false s;
      msetnx_loop args (succeeded || bool_decide (set_status = kInserted)) s
  | [_] => Fault OutOfRange
  end.

Definition MSetNXFunction : Handler := λ args result s,
  if (length args <? 3)%nat || Nat.even (length args) then wrong_arg_num result s
  else
    '(succeeded, s) ← msetnx_loop (drop 1 args) false s;
    Ok (SetInt (if (succeeded : bool) then 1 else 0) result, s).

Definition SetEXFunctionBase (rep_to_time : Z → Z → Outcome (option Z)) : Handler :=
  λ args result s,
  let now := GetCommandTimeSnapshot s in
  if negb (length args =? 4)%nat then wrong_arg_num result s
  else
    n ← arg args 2;
    match ParseInt_i64 n with
    | None => Ok (SetError kNotAnInt result, s)
    | Some ll =>
        at_ ← rep_to_time now ll;
        match at_ with
        | None => Ok (SetError kNotAnInt result, s)
        | Some at_ =>
            key ← arg args 1;
            value ← arg args 3;
            let '(x, s) := CreateMTSPtr value s in
            '((entry, _), d) ← t_Upsert key (Some x) (data_ht_ s);
            let s := with_data d s in
            l ← deref entry;
            s ← upsert_expire l at_ s;
            s ← touch l s;
            Ok (result, s)
        end
    end.

Definition SetEXFunction : Handler := SetEXFunctionBase (IntToTimePoint 1000).
Definition PSetEXFunction : Handler := SetEXFunctionBase (IntToTimePoint 1).

Definition SetNXFunction : Handler := λ args result s,
  if negb (length args =? 3)%nat then wrong_arg_num result s
  else
    key ← arg args 1;
    value ← arg args 2;
    '(set_status, _, _, s) ← SetData key value kNX false s;
    _ ← cassert (negb (bool_decide (set_status = kUpdated)));
    Ok (SetInt (if bool_decide (set_status = kInserted) then 1 else 0) result, s).

Definition SetRangeFunction : Handler := λ args result s,
  if negb (length args =? 4)%nat then wrong_arg_num result s
  else
    n ← arg args 2;
    match ParseInt_u32 n with
    | None => Ok (SetError kNotAnInt result, s)
    | Some start_index =>
        key ← arg args 1;
        value ← arg args 3;
        '((entry, exists_), d) ← t_FindOrCreate key (data_ht_ s);
        let s := with_data d s in
        l ← deref entry;
        '(exists_, s) ←
          (if (exists_ : bool) then
             '(at_, s) ← find_expire key s;
             if match at_ with Some e => e <=? GetCommandTimeSnapshot s | None => false end then
               d ← t_assign l None (data_ht_ s);
               s ← erase_expire key (with_data d s);
               Ok (false, s)
             else Ok (true, s)
           else Ok (false, s));
        p ← t_value l (data_ht_ s);
        s ← (if negb (exists_ : bool) || negb (use_count p s =? 1)%nat then
               if start_index =? 0 then assign_new l value s
               else assign_new l (replicate (Z.to_nat (u32 (start_index + 1))) NUL ++ value) s
             else
               c ← str_get p s;
               if Z.of_nat (length c) <? start_index
               then str_set p (c ++ replicate (Z.to_nat start_index - length c) NUL ++ value) s
               else str_set p (take (Z.to_nat start_index) c ++ value) s);
        s ← touch l s;
        p ← t_value l (data_ht_ s);
        c ← str_get p s;
        Ok (SetInt (Z.of_nat (length c)) result, s)
    end.

Definition StrlenFunction : Handler := λ args result s,
  if negb (length args =? 2)%nat then wrong_arg_num result s
  else
    key ← arg args 1;
    '(entry, s) ← FindOrExpire key s;
    match entry with
    | None => Ok (SetInt 0 result, s)
    | Some l =>
        p ← t_value l (data_ht_ s);
        c ← str_get p s;
        s ← touch l s;
        Ok (SetInt (Z.of_nat (length c)) result, s)
    end.

Definition GetFunction : Handler := λ args result s,
  if negb (length args =? 2)%nat then wrong_arg_num result s
  else
    key ← arg args 1;
    '(_, result, s) ← GetFunctionBase key result s;
    Ok (result, s).

Fixpoint mget_loop (args : list bytes) (result : Result) s : Outcome (Result * Service DT ET) :=
  match args with
  | [] => Ok (result, s)
  | key :: args =>
      '(entry, s) ← FindOrExpire key s;
      match entry with
      | None => mget_loop args (AddString None result) s
      | Some l =>
          p ← t_value l (data_ht_ s);
          s ← touch l s;
          mget_loop args (AddString p result) s
      end
  end.

Definition MGetFunction : Handler := λ args result s,
  if (length args <? 2)%nat then wrong_arg_num result s
  else mget_loop (drop 1 args) result s.

(** The callback passes a view of the entry's own key. *)
Definition GetDelFunction : Handler := λ args result s,
  if negb (length args =? 2)%nat then wrong_arg_num result s
  else
    key ← arg args 1;
    GetFunctionBaseWithCallback key result
      (λ l s, kp ← t_CopyKey l (data_ht_ s); EraseKey (KObj kp) s) s.

(** The [for] loop over GETEX's options: [persist] and [expire_time]. *)
Fixpoint getex_options (fuel : nat) (args : list bytes) (i : nat) (cmd_time : Z)
    (result : Result) (persist : bool) (expire_time : option Z)
    : Outcome (option (bool * option Z) * Result) :=
  if (i <? length args)%nat then
    match fuel with
    | O => Diverge
    | S fuel =>
        a ← arg args i;
        if bool_decide (a = lit "PERSIST") then
          if bool_decide (is_Some expire_time) || persist
          then Ok (None, SetError kSyntaxError result)
          else getex_options fuel args (S i) cmd_time result true expire_time
        else
          '(x, i, result, expire_time) ←
            ExtractExpireOptions args i cmd_time result expire_time;
          match x with
          | xError => Ok (None, result)
          | xNotFound => Ok (None, SetError kSyntaxError result)
          | xDone =>
              if persist then Ok (None, SetError kSyntaxError result)
              else getex_options fuel args (S i) cmd_time result persist expire_time
          end
    end
  else Ok (Some (persist, expire_time), result).

Definition GetEXFunction : Handler := λ args result s,
  if (length args <? 2)%nat then wrong_arg_num result s
  else
    '(opts, result) ← getex_options (length args) args 2 (GetCommandTimeSnapshot s) result
                        false None;
    match opts with
    | None => Ok (result, s)
    | Some (persist, expire_time) =>
        key ← arg args 1;
        GetFunctionBaseWithCallback key result
          (λ l s,
             kp ← t_CopyKey l (data_ht_ s);
             if (persist : bool) then erase_expire (k_data kp) s
             else match expire_time with
                  | Some at_ =>
                      '(_, e) ← t_Upsert (k_data kp) at_ (expire_ht_ s);
                      Ok (with_expire e s)
                  | None => Ok s
                  end) s
    end.

Definition GetSetFunction : Handler := λ args result s,
  if negb (length args =? 3)%nat then wrong_arg_num result s
  else
    key ← arg args 1;
    value ← arg args 2;
    '(set_status, _, old_value, s) ← SetData key value kRegular true s;
    _ ← cassert (negb (bool_decide (set_status = kNoOp)));
    match old_value with
    | None => Ok (SetNil result, s)
    | Some _ => s ← erase_expire key s; Ok (SetString old_value result, s)
    end.

(** [transform_index], for a value of [size] characters. *)
Definition transform_index (size index : Z) : Z :=
  let index := if index <? 0 then Z.max 0 (i32 (size + index)) else index in
  u64 (Z.min size index).

Definition GetRangeFunction : Handler := λ args result s,
  if negb (length args =? 4)%nat then wrong_arg_num result s
  else
    a ← arg args 2;
    match ParseInt_i32 a with
    | None => Ok (SetError kNotAnInt result, s)
    | Some start =>
        b ← arg args 3;
        match ParseInt_i32 b with
        | None => Ok (SetError kNotAnInt result, s)
        | Some end_ =>
            key ← arg args 1;
            '(entry, s) ← FindOrExpire key s;
            match entry with
            | None => let '(x, s) := CreateMTSPtr [] s in Ok (SetString (Some x) result, s)
            | Some l =>
                p ← t_value l (data_ht_ s);
                c ← str_get p s;
                let size := i32 (Z.of_nat (length c)) in
                let start_index := transform_index size start in
                let end_index := transform_index size end_ in
                sub ← (if (start_index =? Z.of_nat (length c)) || (end_index <=? start_index)
                       then Ok []
                       (* [end_index] may be the size: the terminating NUL is then read *)
                       else if end_index <=? Z.of_nat (length c) then
                         Ok (take (Z.to_nat (end_index - start_index + 1))
                               (drop (Z.to_nat start_index) (c ++ [NUL])))
                       else Fault OutOfRange);
                let '(x, s) := CreateMTSPtr sub s in
                s ← touch l s;
                Ok (SetString (Some x) result, s)
            end
        end
    end.

Definition AppendFunction : Handler := λ args result s,
  if negb (length args =? 3)%nat then wrong_arg_num result s
  else
    key ← arg args 1;
    value ← arg args 2;
    '((entry, exists_), d) ← t_FindOrCreate key (data_ht_ s);
    let s := with_data d s in
    l ← deref entry;
    s ← (if negb (exists_ : bool) then assign_new l value s
         else
           p ← t_value l (data_ht_ s);
           s ← (if negb (use_count p s =? 1)%nat
                then c ← str_get p s; assign_new l c s else Ok s);
           p ← t_value l (data_ht_ s);
           c ← str_get p s;
           str_set p (c ++ value) s);
    s ← touch l s;
    p ← t_value l (data_ht_ s);
    c ← str_get p s;
    Ok (SetInt (Z.of_nat (length c)) result, s).

Fixpoint exists_loop (args : list bytes) (cnt : Z) s : Outcome (Z * Service DT ET) :=
  match args with
  | [] => Ok (cnt, s)
  | key :: args =>
      '(entry, s) ← FindOrExpire key s;
      match entry with
      | None => exists_loop args cnt s
      | Some l => s ← touch l s; exists_loop args (i32 (cnt + 1)) s
      end
  end.

Definition ExistsFunction : Handler := λ args result s,
  '(cnt, s) ← exists_loop (drop 1 args) 0 s;
  Ok (SetInt cnt result, s).
End commands.
