(* ===== verification/CommandSpec.v ===== *)
(** * What the commands do to the database

    The reply of each command and its effect on the abstract database, as
    functions of the query's strings and the time of the command; and the
    lists of options of SET and GETEX as recursive functions on lists, with
    the proof that the index loops of the code compute them. *)

From S2P Require Import Prelude Chars Table Replier HashTable Service ServiceInv ServiceSpec.
From S2P Require Import StringCommands.

(** ** Replies *)

Inductive areply :=
  | AOk
  | AErr (e : Error)
  | ANil
  | AInt (z : Z)
  | AStr (c : bytes)
  | AArr (l : list (option bytes)).

Definition reply_is (m : StrStore) (r : Result) (a : areply) : Prop :=
  match a with
  | AOk => type r = TOk
  | AErr e => type r = TError ∧ error r = e
  | ANil => type r = TNil
  | AInt z => type r = TInt ∧ int_value r = z
  | AStr c => type r = TString ∧ ptr_is m (string_ptr r) (Some c)
  | AArr l => type r = TStrings ∧ Forall2 (ptr_is m) (strings r) l
  end.

Definition astr (o : option bytes) : areply := match o with Some c => AStr c | None => ANil end.

(** A result object before a command. *)
Definition fresh_result (r : Result) : Prop := type r = TOk ∧ strings r = [].

(** ** Expiry options *)

(** The time an expiry option stands for, when it is representable. *)
Definition expire_at (o : ExpireOption) (now n : Z) : option Z :=
  let t := match o with
           | optPX => now + n
           | optEX => now + n * 1000
           | optPXAT => n
           | optEXAT => n * 1000
           end in
  if t <=? i64_max then Some t else None.

Definition time_ok (now : Z) : Prop := 0 ≤ now ≤ i64_max.

(** The code's conversions compute it, without overflow. *)
Lemma rep_to_tp_spec o now n :
  time_ok now → 0 < n ≤ i64_max → rep_to_tp o now n = Ok (expire_at o now n).
Proof.
  intros Hnow Hn. unfold time_ok in Hnow. unfold rep_to_tp, expire_at.
  assert (i64_max = 9223372036854775807) as Hmax by reflexivity.
  assert (i64_max / 1000 = 9223372036854775) as Hdiv by reflexivity.
  assert (∀ z, 0 ≤ z ≤ i64_max → chk_i64 z = Ok z) as Hchk.
  { intros z Hz. apply chk_i64_Ok. unfold i64_min. lia. }
  destruct o; rewrite ?Hdiv.
  - rewrite (Hchk (i64_max - now)) by lia. cbn [mbind outcome_bind]. destruct (Z.leb_spec n (i64_max - now)).
    + rewrite Hchk by lia. rewrite Zleb_t by lia. done.
    + by rewrite Zleb_f by lia.
  - destruct (Z.ltb_spec 9223372036854775 n).
    + by rewrite Zleb_f by lia.
    + rewrite (Hchk (n * 1000)), (Hchk (i64_max - now)) by lia. cbn [mbind outcome_bind].
      destruct (Z.leb_spec (n * 1000) (i64_max - now)).
      * rewrite Hchk by lia. rewrite Zleb_t by lia. done.
      * by rewrite Zleb_f by lia.
  - by rewrite Zleb_t by lia.
  - destruct (Z.ltb_spec 9223372036854775 n).
    + by rewrite Zleb_f by lia.
    + rewrite Hchk by lia. rewrite Zleb_t by lia. done.
Qed.

(** ** The options of SET *)

(** Reading an expiry option that starts the list [a :: l]: [None] when it is
    not one; an error; or the time and the rest. *)
Definition read_expire (now : Z) (a : bytes) (l : list bytes) (old : option Z)
    : option (Error + Z * list bytes) :=
  match expire_option a with
  | None => None
  | Some o =>
      Some match l with
           | [] => inl kSyntaxError
           | n :: l =>
               if bool_decide (is_Some old) then inl kSyntaxError
               else match ParseInt_i64 n with
                    | None => inl kNotAnInt
                    | Some n =>
                        if n <=? 0 then inl kNotAnInt
                        else match expire_at o now n with
                             | None => inl kNotAnInt
                             | Some t => inr (t, l)
                             end
                    end
           end
  end.

Fixpoint set_options (fuel : nat) (now : Z) (l : list bytes) (o : SetOptions)
    : Error + SetOptions :=
  match fuel, l with
  | _, [] => inr o
  | O, _ => inl kSyntaxError
  | S fuel, a :: l =>
      if bool_decide (a = lit "GET") then
        set_options fuel now l (mkSetOptions (set_mode o) (expire_time o) (keep_ttl o) true)
      else if bool_decide (a = lit "NX") then
        if bool_decide (set_mode o = kRegular)
        then set_options fuel now l (mkSetOptions kNX (expire_time o) (keep_ttl o) (get o))
        else inl kSyntaxError
      else if bool_decide (a = lit "XX") then
        if bool_decide (set_mode o = kRegular)
        then set_options fuel now l (mkSetOptions kXX (expire_time o) (keep_ttl o) (get o))
        else inl kSyntaxError
      else if bool_decide (a = lit "KEEPTTL") then
        if bool_decide (is_Some (expire_time o)) then inl kSyntaxError
        else set_options fuel now l (mkSetOptions (set_mode o) (expire_time o) true (get o))
      else match read_expire now a l (expire_time o) with
           | None => inl kSyntaxError
           | Some (inl e) => inl e
           | Some (inr (t, l)) =>
               if keep_ttl o then inl kSyntaxError
               else set_options fuel now l (mkSetOptions (set_mode o) (Some t) (keep_ttl o) (get o))
           end
  end.

(** ** The loops over arguments *)

Lemma drop_next {A} i (l : list A) a k : drop i l = a :: k → drop (S i) l = k.
Proof.
  intros Hd. replace (drop (S i) l) with (drop 1 (drop i l)) by (rewrite drop_drop; f_equal; lia).
  by rewrite Hd.
Qed.

Lemma arg_drop args i : arg args i = match drop i args with a :: _ => Ok a | [] => Fault OutOfRange end.
Proof.
  unfold arg. destruct (args !! i) as [a|] eqn:E.
  - by rewrite (drop_S _ _ _ E).
  - apply lookup_ge_None in E. by rewrite drop_ge.
Qed.

Lemma ParseInt_i64_range s n : ParseInt_i64 s = Some n → n ≤ i64_max.
Proof.
  unfold ParseInt_i64, whole, from_chars_i64, from_chars.
  destruct (match s with [] => _ | _ => _ end) as [sign s'].
  destruct (scan_digits s') as [ds rest]. case_bool_decide; [done|].
  destruct (Z.leb_spec i64_min (sign * digits_val 0 ds)); [|done].
  destruct (Z.leb_spec (sign * digits_val 0 ds) i64_max); [|done].
  simpl. destruct rest; [|done]. intros [= <-]. done.
Qed.

Lemma ExtractExpireOptions_spec args i now r old a l :
  time_ok now → drop i args = a :: l →
  match read_expire now a l old with
  | None => ExtractExpireOptions args i now r old = Ok (xNotFound, i, r, old)
  | Some (inl e) => ∃ t, ExtractExpireOptions args i now r old = Ok (xError, i, SetError e r, t)
  | Some (inr (t, l')) =>
      ExtractExpireOptions args i now r old = Ok (xDone, (i + 1)%nat, r, Some t) ∧
      drop (S (i + 1)) args = l'
  end.
Proof.
  intros Hnow Hd. unfold read_expire, ExtractExpireOptions. rewrite (arg_drop args i), Hd.
  cbn [mbind outcome_bind].
  pose proof (drop_next _ _ _ _ Hd) as Hd1.
  assert (length args = i + S (length l))%nat as Hlen.
  { pose proof (length_drop args i) as Hl. rewrite Hd in Hl. simpl in Hl. lia. }
  destruct (expire_option a) as [o|]; [|done]. destruct l as [|n l].
  { rewrite (proj2 (Nat.eqb_eq _ _)) by (simpl in Hlen; lia). eauto. }
  rewrite (proj2 (Nat.eqb_neq _ _)) by (simpl in Hlen; lia).
  destruct (bool_decide (is_Some old)); [eauto|].
  rewrite arg_drop, Nat.add_1_r, Hd1. cbn [mbind outcome_bind].
  destruct (ParseInt_i64 n) as [v|] eqn:Hv; [|eauto]. destruct (Z.leb_spec v 0); [eauto|].
  apply ParseInt_i64_range in Hv. rewrite rep_to_tp_spec by (done || lia).
  cbn [mbind outcome_bind]. destruct (expire_at o now v) as [t|].
  - rewrite bool_decide_true by eauto. split; [done|].
    by apply drop_next in Hd1.
  - rewrite bool_decide_false by (by intros [? ?]). eauto.
Qed.

Lemma ExtractSetOptions_spec fuel args i now r o :
  time_ok now → (length args - i ≤ fuel)%nat →
  ExtractSetOptions fuel args i now r o =
    Ok match set_options fuel now (drop i args) o with
       | inl e => (None, SetError e r)
       | inr o => (Some o, r)
       end.
Proof.
  intros Hnow. revert i o. induction fuel as [|fuel IH]; intros i o Hf; cbn [ExtractSetOptions].
  { rewrite (proj2 (Nat.ltb_ge _ _)) by lia. by rewrite drop_ge by lia. }
  destruct (drop i args) as [|a l] eqn:Hd.
  { rewrite (proj2 (Nat.ltb_ge _ _)); [done|].
    pose proof (length_drop args i) as Hl. rewrite Hd in Hl. simpl in Hl. lia. }
  assert (length args = i + S (length l))%nat as Hlen.
  { pose proof (length_drop args i) as Hl. rewrite Hd in Hl. simpl in Hl. lia. }
  rewrite (proj2 (Nat.ltb_lt _ _)) by lia. rewrite (arg_drop args i), Hd.
  cbn [mbind outcome_bind set_options].
  pose proof (drop_next _ _ _ _ Hd) as Hd1.
  destruct (bool_decide (a = lit "GET")); [rewrite IH by lia; by rewrite Hd1|].
  destruct (bool_decide (a = lit "NX")).
  { destruct (bool_decide (set_mode o = kRegular)); simpl; [rewrite IH by lia; by rewrite Hd1|done]. }
  destruct (bool_decide (a = lit "XX")).
  { destruct (bool_decide (set_mode o = kRegular)); simpl; [rewrite IH by lia; by rewrite Hd1|done]. }
  destruct (bool_decide (a = lit "KEEPTTL")).
  { destruct (bool_decide (is_Some (expire_time o))); [done|rewrite IH by lia; by rewrite Hd1]. }
  pose proof (ExtractExpireOptions_spec args i now r (expire_time o) a l Hnow Hd) as Hx.
  destruct (read_expire now a l (expire_time o)) as [[e|[t l']]|].
  - destruct Hx as [t ->]. done.
  - destruct Hx as [-> Hd2]. cbn [mbind outcome_bind keep_ttl]. destruct (keep_ttl o); simpl negb; cbv iota.
    + done.
    + rewrite IH by lia. by rewrite Hd2.
  - rewrite Hx. done.
Qed.

(** ** Commands on the database *)

Section spec.
Context (now : Z).
Implicit Types (args : list bytes) (d : DB).

Definition wrong_args d : areply * DB := (AErr kWrongArgNum, d).

Definition spec_GET args d : areply * DB :=
  match args with
  | [_; k] => (astr (db_get now d k), db_touch now k d)
  | _ => wrong_args d
  end.

Definition spec_STRLEN args d : areply * DB :=
  match args with
  | [_; k] => (AInt (Z.of_nat (length (default [] (db_get now d k)))), db_touch now k d)
  | _ => wrong_args d
  end.

Fixpoint look_up (ks : list bytes) d : list (option bytes) * DB :=
  match ks with
  | [] => ([], d)
  | k :: ks => let '(l, d') := look_up ks (db_touch now k d) in (db_get now d k :: l, d')
  end.

Definition spec_MGET args d : areply * DB :=
  match args with
  | _ :: k :: ks => let '(l, d') := look_up (k :: ks) d in (AArr l, d')
  | _ => wrong_args d
  end.

Definition count_some (l : list (option bytes)) : Z :=
  Z.of_nat (length (filter is_Some l)).

Definition spec_EXISTS args d : areply * DB :=
  let '(l, d') := look_up (drop 1 args) d in (AInt (count_some l), d').

Definition spec_SET args d : areply * DB :=
  match args with
  | _ :: k :: v :: opts =>
      match set_options (length args) now opts no_options with
      | inl e => (AErr e, d)
      | inr o =>
          let '(st, old, d1) := db_SetData now k v (set_mode o) (get o) d in
          if bool_decide (st = kNoOp) then (ANil, d1)
          else
            (if get o then astr old else AOk,
             match expire_time o with
             | Some t => db_expire k t d1
             | None => if bool_decide (st = kUpdated) && negb (keep_ttl o)
                       then db_persist k d1 else d1
             end)
      end
  | _ => wrong_args d
  end.

Definition spec_SETNX args d : areply * DB :=
  match args with
  | [_; k; v] =>
      let '(st, _, d') := db_SetData now k v kNX false d in
      (AInt (if bool_decide (st = kInserted) then 1 else 0), d')
  | _ => wrong_args d
  end.

Fixpoint pairs (l : list bytes) : list (bytes * bytes) :=
  match l with k :: v :: l => (k, v) :: pairs l | _ => [] end.

Definition spec_MSET args d : areply * DB :=
  if (length args <? 3)%nat || Nat.even (length args) then wrong_args d
  else (AOk, foldl (λ d '(k, v), db_persist k (db_set k v d)) d (pairs (drop 1 args))).

Fixpoint set_missing (l : list (bytes * bytes)) (ok : bool) d : bool * DB :=
  match l with
  | [] => (ok, d)
  | (k, v) :: l =>
      let '(st, _, d') := db_SetData now k v kNX false d in
      set_missing l (ok || bool_decide (st = kInserted)) d'
  end.

Definition spec_MSETNX args d : areply * DB :=
  if (length args <? 3)%nat || Nat.even (length args) then wrong_args d
  else let '(ok, d') := set_missing (pairs (drop 1 args)) false d in
       (AInt (if (ok : bool) then 1 else 0), d').

(** SETEX and PSETEX: [unit_] is 1000 or 1. *)
Definition spec_SETEX (unit_ : Z) args d : areply * DB :=
  match args with
  | [_; k; n; v] =>
      match ParseInt_i64 n with
      | None => (AErr kNotAnInt, d)
      | Some n =>
          if (n <=? 0) || (i64_max <? now + n * unit_) then (AErr kNotAnInt, d)
          else (AOk, db_expire k (now + n * unit_) (db_set k v d))
      end
  | _ => wrong_args d
  end.

Definition spec_GETSET args d : areply * DB :=
  match args with
  | [_; k; v] =>
      let old := db_get now d k in
      (astr old, if bool_decide (is_Some old) then db_persist k (db_set k v d) else db_set k v d)
  | _ => wrong_args d
  end.

Definition spec_APPEND args d : areply * DB :=
  match args with
  | [_; k; v] =>
      let c := default [] (kv d !! k) ++ v in
      (AInt (Z.of_nat (length c)), db_set k c d)
  | _ => wrong_args d
  end.

(** SETRANGE: [shared] tells whether the value is shown by a result of
    another client. *)
Definition spec_SETRANGE (shared : bool) args d : areply * DB :=
  match args with
  | [_; k; n; v] =>
      match ParseInt_u32 n with
      | None => (AErr kNotAnInt, d)
      | Some start =>
          let c := match (if shared then None else db_get now d k) with
                   | None => if start =? 0 then v
                             else replicate (Z.to_nat (u32 (start + 1))) NUL ++ v
                   | Some c =>
                       if Z.of_nat (length c) <? start
                       then c ++ replicate (Z.to_nat start - length c) NUL ++ v
                       else take (Z.to_nat start) c ++ v
                   end in
          (AInt (Z.of_nat (length c)),
           if expired now d k then db_persist k (db_set k c d) else db_set k c d)
      end
  | _ => wrong_args d
  end.

(** The characters GETRANGE answers: both ends inclusive, but an empty
    answer when they are equal, and a NUL when the last is past the end. *)
Definition range_of (c : bytes) (start end_ : Z) : bytes :=
  let size := Z.of_nat (length c) in
  let index i := Z.min size (if i <? 0 then Z.max 0 (size + i) else i) in
  if index end_ <=? index start then []
  else take (Z.to_nat (index end_ - index start + 1)) (drop (Z.to_nat (index start)) (c ++ [NUL])).

Definition spec_GETRANGE args d : areply * DB :=
  match args with
  | [_; k; a; b] =>
      match ParseInt_i32 a, ParseInt_i32 b with
      | Some start, Some end_ =>
          (AStr (match db_get now d k with
                 | None => []
                 | Some c => range_of c start end_
                 end), db_touch now k d)
      | _, _ => (AErr kNotAnInt, d)
      end
  | _ => wrong_args d
  end.

(** The options of GETEX. *)
Fixpoint getex_opts (fuel : nat) (l : list bytes) (persist : bool) (at_ : option Z)
    : Error + bool * option Z :=
  match fuel, l with
  | _, [] => inr (persist, at_)
  | O, _ => inl kSyntaxError
  | S fuel, a :: l =>
      if bool_decide (a = lit "PERSIST") then
        if bool_decide (is_Some at_) || persist then inl kSyntaxError
        else getex_opts fuel l true at_
      else match read_expire now a l at_ with
           | None => inl kSyntaxError
           | Some (inl e) => inl e
           | Some (inr (t, l)) =>
               if persist then inl kSyntaxError else getex_opts fuel l persist (Some t)
           end
  end.

Definition spec_GETEX args d : areply * DB :=
  match args with
  | _ :: k :: opts =>
      match getex_opts (length args) opts false None with
      | inl e => (AErr e, d)
      | inr (persist, at_) =>
          match db_get now d k with
          | None => (ANil, db_touch now k d)
          | Some c =>
              (AStr c, if (persist : bool) then db_persist k d
                       else match at_ with Some t => db_expire k t d | None => d end)
          end
      end
  | _ => wrong_args d
  end.

Definition spec_TTL args d : areply * DB :=
  match args with
  | [_; k] =>
      match kv d !! k with
      | None => (AInt (-2), d)
      | Some _ =>
          match ttl d !! k with
          | None => (AInt (-1), d)
          | Some e => if e <=? now then (AInt (-2), db_erase k d)
                      else (AInt (Z.quot (e - now) 1000), d)
          end
      end
  | _ => wrong_args d
  end.

Fixpoint del_keys (ks : list bytes) (n : Z) d : Z * DB :=
  match ks with
  | [] => (n, d)
  | k :: ks =>
      match db_get now d k with
      | None => del_keys ks n (db_touch now k d)
      | Some _ => del_keys ks (n + 1) (db_erase k d)
      end
  end.

Definition spec_DEL args d : areply * DB :=
  match args with
  | _ :: k :: ks => let '(n, d') := del_keys (k :: ks) 0 d in (AInt n, d')
  | _ => wrong_args d
  end.

Definition spec_GETDEL args d : areply * DB :=
  match args with
  | [_; k] =>
      match db_get now d k with
      | None => (ANil, db_touch now k d)
      | Some c => (AStr c, db_erase k d)
      end
  | _ => wrong_args d
  end.

Definition spec_HELLO args d : areply * DB :=
  (if bool_decide (drop 1 args = [lit "3"]) then AOk else AErr kProtocol, d).

Definition spec_SHUTDOWN args d : areply * DB :=
  if (1 <? length args)%nat then wrong_args d else (ANil, d).

Definition spec_DBSIZE d : areply * DB := (AInt (Z.of_nat (size (kv d))), d).
End spec.
