(* ===== verification/StringCommandsThms.v ===== *)
(** * Correctness of the string commands

    Each handler, on a service that stands for a database, returns, replies
    and changes the service as its specification says; the string objects
    other clients' results show are never changed. *)

From S2P Require Import Prelude Chars Table Replier HashTable Service ServiceInv ServiceSpec.
From S2P Require Import StringCommands CommandSpec.

Section string_commands.
Context {DT ET : Type} `{!Table MTSPtr DT} `{!Table Z ET} `{!BuildMode}.
Context `{!TableView MTSPtr DT} `{!TableView Z ET} `{!TableLaws MTSPtr DT} `{!TableLaws Z ET}.
Implicit Types s : Service DT ET.

(** A command's reply and database, and what it keeps. *)
Definition cmd_post s (out : areply * DB) (res : Outcome (Result * Service DT ET)) : Prop :=
  let '(a, d') := out in
  ∃ r' s', res = Ok (r', s') ∧ svc_is s' d' ∧ kept s s' ∧ reply_is (strs_ s') r' a.

(** Room for [n] new keys. *)
Definition room (n : nat) (d : DB) : Prop := Z.of_nat (size (kv d) + n) < table_limit.

Lemma err_post e r s d : svc_is s d → cmd_post s (AErr e, d) (Ok (SetError e r, s)).
Proof. intros Hs. by exists (SetError e r), s. Qed.

(** ** Reading a key *)

Lemma value_of_entry s d k l x :
  svc_is s d → entry_is s k l x → t_value l (data_ht_ s) = Ok (Some x).
Proof. intros Hs [kp Hl]. by eapply t_value_ok; [apply Hs|]. Qed.

Lemma entry_relaid s s' k l x : entry_is s k l x → relaid s s' → entry_is s' k l x.
Proof. intros [kp Hl] (Hv&_). exists kp. by rewrite Hv. Qed.

Lemma GetFunctionBase_spec k r s d :
  svc_is s d →
  ∃ e r' s', GetFunctionBase k r s = Ok (e, r', s') ∧
    svc_is s' (db_touch (command_time_snapshot_ s) k d) ∧ kept s s' ∧ strs_ s' = strs_ s ∧
    reply_is (strs_ s') r' (astr (db_get (command_time_snapshot_ s) d k)) ∧
    match db_get (command_time_snapshot_ s) d k with
    | None => e = None
    | Some c => ∃ l x, e = Some l ∧ entry_is s' k l x
    end.
Proof.
  intros Hs. unfold GetFunctionBase.
  destruct (FindOrExpire_spec k s d Hs) as (e&s1&Heq&Hs1&Hk1&Hst1&He). step Heq.
  destruct (db_get (command_time_snapshot_ s) d k) as [c|].
  - destruct He as (l&x&->&Hl&Hx). rewrite (bind_Ok _ _ _ (value_of_entry _ _ _ _ _ Hs1 Hl)).
    cbn beta. destruct (touch_spec k l x s1 _ Hs1 Hl) as (s2&Heq2&Hs2&Hr2&_). step Heq2.
    eexists _, _, s2. split; [reflexivity|].
    assert (strs_ s2 = strs_ s1) as Hst2 by (by destruct Hr2 as (_&_&?&_)).
    split_and!; try done.
    + etransitivity; [done|by apply relaid_kept].
    + congruence.
    + simpl. by rewrite Hst2.
    + exists l, x. split; [done|by eapply entry_relaid].
  - subst e. by eexists _, _, s1.
Qed.

Lemma GET_spec args r s d :
  svc_is s d →
  cmd_post s (spec_GET (command_time_snapshot_ s) args d) (GetFunction args r s).
Proof.
  intros Hs. unfold GetFunction, spec_GET.
  destruct args as [|c [|k [|? ?]]]; simpl; try by apply err_post.
  destruct (GetFunctionBase_spec k r s d Hs) as (e&r'&s'&Heq&?&?&?&?&_). step Heq.
  by exists r', s'.
Qed.

Lemma STRLEN_spec args r s d :
  svc_is s d →
  cmd_post s (spec_STRLEN (command_time_snapshot_ s) args d) (StrlenFunction args r s).
Proof.
  intros Hs. unfold StrlenFunction, spec_STRLEN.
  destruct args as [|c [|k [|? ?]]]; simpl; try by apply err_post.
  destruct (FindOrExpire_spec k s d Hs) as (e&s1&Heq&Hs1&Hk1&Hst1&He). step Heq.
  destruct (db_get (command_time_snapshot_ s) d k) as [v|].
  - destruct He as (l&x&->&Hl&Hx). rewrite (bind_Ok _ _ _ (value_of_entry _ _ _ _ _ Hs1 Hl)).
    cbn beta. unfold str_get. cbn [deref mbind outcome_bind]. rewrite Hx.
    cbn [deref mbind outcome_bind].
    destruct (touch_spec k l x s1 _ Hs1 Hl) as (s2&Heq2&Hs2&Hr2&_). step Heq2.
    eexists _, s2. split; [reflexivity|]. split_and!; try done.
    etransitivity; [done|by apply relaid_kept].
  - subst e. by eexists _, s1.
Qed.

(** One step of the loops of MGET, EXISTS: look up, touch. *)
Lemma look_up_step k s d :
  svc_is s d →
  ∃ e s1, FindOrExpire k s = Ok (e, s1) ∧
    match db_get (command_time_snapshot_ s) d k with
    | None => e = None ∧ svc_is s1 (db_touch (command_time_snapshot_ s) k d) ∧ kept s s1 ∧
              strs_ s1 = strs_ s
    | Some c => ∃ l x s2, e = Some l ∧ t_value l (data_ht_ s1) = Ok (Some x) ∧
        touch l s1 = Ok s2 ∧ svc_is s2 (db_touch (command_time_snapshot_ s) k d) ∧ kept s s2 ∧
        strs_ s2 = strs_ s ∧ strs_ s !! x = Some c
    end.
Proof.
  intros Hs. destruct (FindOrExpire_spec k s d Hs) as (e&s1&Heq&Hs1&Hk1&Hst1&He).
  exists e, s1. split; [done|]. destruct (db_get (command_time_snapshot_ s) d k) as [v|]; [|done].
  destruct He as (l&x&->&Hl&Hx).
  destruct (touch_spec k l x s1 _ Hs1 Hl) as (s2&Heq2&Hs2&Hr2&_).
  exists l, x, s2. assert (strs_ s2 = strs_ s1) as Hst2 by (by destruct Hr2 as (_&_&?&_)).
  split_and!; try done; [by eapply value_of_entry|etransitivity; [done|by apply relaid_kept]| |];
    congruence.
Qed.

Lemma mget_loop_spec ks r s d acc :
  svc_is s d → Forall2 (ptr_is (strs_ s)) (strings r) acc →
  let '(l, d') := look_up (command_time_snapshot_ s) ks d in
  ∃ r' s', mget_loop ks r s = Ok (r', s') ∧ svc_is s' d' ∧ kept s s' ∧ strs_ s' = strs_ s ∧
    Forall2 (ptr_is (strs_ s)) (strings r') (acc ++ l) ∧ (ks ≠ [] → type r' = TStrings) ∧
    (type r = TStrings → type r' = TStrings).
Proof.
  revert r s d acc. induction ks as [|k ks IH]; intros r s d acc Hs Hr; cbn [mget_loop look_up].
  { exists r, s. rewrite app_nil_r. done. }
  destruct (look_up_step k s d Hs) as (e&s1&Heq&He). step Heq.
  assert (∀ s2 p, svc_is s2 (db_touch (command_time_snapshot_ s) k d) → kept s s2 →
    strs_ s2 = strs_ s → ptr_is (strs_ s) p (db_get (command_time_snapshot_ s) d k) →
    let '(l, d') := look_up (command_time_snapshot_ s) ks
                      (db_touch (command_time_snapshot_ s) k d) in
    ∃ r' s', mget_loop ks (AddString p r) s2 = Ok (r', s') ∧ svc_is s' d' ∧ kept s s' ∧
      strs_ s' = strs_ s ∧
      Forall2 (ptr_is (strs_ s)) (strings r') (acc ++ db_get (command_time_snapshot_ s) d k :: l) ∧
      type r' = TStrings) as Hnext.
  { intros s2 p Hs2 Hk2 Hst2 Hp.
    pose proof (IH (AddString p r) s2 _ (acc ++ [db_get (command_time_snapshot_ s) d k]) Hs2) as Hi.
    rewrite (kept_time _ _ Hk2), Hst2 in Hi.
    destruct (look_up _ ks _) as [l d'].
    destruct Hi as (r'&s'&?&?&?&?&Hf&_&Ht); [simpl; by apply Forall2_app; [|constructor]|].
    exists r', s'. rewrite <- app_assoc in Hf. split_and!; try done; [by etransitivity|].
    by apply Ht. }
  destruct (db_get (command_time_snapshot_ s) d k) as [c|].
  - destruct He as (l&x&s2&->&Hv&Ht&Hs2&Hk2&Hst2&Hx). rewrite (bind_Ok _ _ _ Hv). cbn beta.
    rewrite (bind_Ok _ _ _ Ht). cbn beta. specialize (Hnext s2 (Some x) Hs2 Hk2 Hst2 Hx).
    destruct (look_up _ ks _) as [l' d']. destruct Hnext as (r'&s'&?&?&?&?&?&?). by exists r', s'.
  - destruct He as (->&Hs1&Hk1&Hst1). specialize (Hnext s1 None Hs1 Hk1 Hst1 I).
    destruct (look_up _ ks _) as [l' d']. destruct Hnext as (r'&s'&?&?&?&?&?&?). by exists r', s'.
Qed.

Lemma MGET_spec args r s d :
  svc_is s d → fresh_result r →
  cmd_post s (spec_MGET (command_time_snapshot_ s) args d) (MGetFunction args r s).
Proof.
  intros Hs [Ht Hr]. unfold MGetFunction, spec_MGET.
  destruct args as [|c [|k ks]]; simpl (length _ <? 2)%nat; cbv iota; try by apply err_post.
  simpl (drop 1 _). pose proof (mget_loop_spec (k :: ks) r s d [] Hs) as Hl.
  destruct (look_up _ (k :: ks) d) as [l d'].
  destruct Hl as (r'&s'&Heq&?&?&Hst&Hf&Hty&_); [rewrite Hr; constructor|].
  exists r', s'. split_and!; [done|done|done|]. split; [by apply Hty|]. by rewrite Hst.
Qed.

Lemma exists_loop_spec ks n s d :
  svc_is s d → 0 ≤ n → n + Z.of_nat (length ks) < 2 ^ 31 →
  let '(l, d') := look_up (command_time_snapshot_ s) ks d in
  ∃ s', exists_loop ks n s = Ok (n + count_some l, s') ∧ svc_is s' d' ∧ kept s s'.
Proof.
  revert n s d. induction ks as [|k ks IH]; intros n s d Hs Hn Hb; cbn [exists_loop look_up].
  { exists s. unfold count_some. simpl. rewrite Z.add_0_r. done. }
  cbn [length] in Hb.
  destruct (look_up_step k s d Hs) as (e&s1&Heq&He). step Heq.
  destruct (db_get (command_time_snapshot_ s) d k) as [c|].
  - destruct He as (l&x&s2&->&_&Ht&Hs2&Hk2&_). rewrite (bind_Ok _ _ _ Ht). cbn beta.
    rewrite i32_small by lia. pose proof (IH (n + 1) s2 _ Hs2 ltac:(lia) ltac:(lia)) as Hi.
    rewrite (kept_time _ _ Hk2) in Hi. destruct (look_up _ ks _) as [l' d'].
    destruct Hi as (s'&->&?&?). exists s'. split_and!; [|done|by etransitivity].
    do 2 f_equal. unfold count_some. rewrite filter_cons_True by done. cbn [length]. lia.
  - destruct He as (->&Hs1&Hk1&_). pose proof (IH n s1 _ Hs1 Hn ltac:(lia)) as Hi.
    rewrite (kept_time _ _ Hk1) in Hi. destruct (look_up _ ks _) as [l' d'].
    destruct Hi as (s'&->&?&?). exists s'. split_and!; [done|done|by etransitivity].
Qed.

Lemma EXISTS_spec args r s d :
  svc_is s d → Z.of_nat (length args) < 2 ^ 31 →
  cmd_post s (spec_EXISTS (command_time_snapshot_ s) args d) (ExistsFunction args r s).
Proof.
  intros Hs Hb. unfold ExistsFunction, spec_EXISTS.
  pose proof (exists_loop_spec (drop 1 args) 0 s d Hs) as Hl.
  destruct (look_up _ (drop 1 args) d) as [l d'].
  destruct Hl as (s'&Heq&?&?); [lia|rewrite length_drop; lia|]. rewrite (bind_Ok _ _ _ Heq).
  by eexists _, s'.
Qed.

(** ** Setting keys *)

Lemma db_SetData_size now k v mode get d :
  (size (kv (db_SetData now k v mode get d).2) ≤ S (size (kv d)))%nat.
Proof.
  assert (size (<[k:=v]> (kv d)) ≤ S (size (kv d)))%nat as Hi.
  { rewrite map_size_insert. destruct (kv d !! k); simpl; lia. }
  unfold db_SetData. destruct mode; [destruct get|destruct (kv d !! k)|destruct (kv d !! k)];
    repeat destruct (expired _ _ _); simpl; try lia.
  rewrite map_size_delete. destruct (kv d !! k); simpl; lia.
Qed.

(** Giving [k] a time through the data entry's key object. *)
Lemma upsert_expire_spec k l x at_ s d :
  ndebug = true → svc_is s d → entry_is s k l x → t_Count (expire_ht_ s) < table_limit →
  ∃ s', upsert_expire l at_ s = Ok s' ∧ svc_is s' (db_expire k at_ d) ∧ kept s s' ∧
        strs_ s' = strs_ s ∧ data_ht_ s' = data_ht_ s.
Proof.
  intros Hrel Hs [kp Hl] Hc. unfold upsert_expire.
  pose proof (t_key_ok _ _ _ _ _ (is_data _ _ Hs) Hl) as Hkd.
  rewrite (bind_Ok _ _ _ (t_CopyKey_ok _ _ _ _ _ (is_data _ _ Hs) Hl)). cbn beta.
  destruct (t_UpsertKeyPtr_ok kp at_ (expire_ht_ s)) as (l'&kp'&et&Heq&Hok&Hv&_);
    [apply Hs|done|by left|].
  step Heq. eexists. split; [reflexivity|]. split_and!; try done.
  destruct d as [kvs ttls]. apply (svc_is_ttl s _ kvs ttls); try done; simpl.
  - rewrite Hv, Hkd, fmap_insert. pose proof (is_ttl _ _ Hs) as Ht. simpl in Ht. by rewrite Ht.
  - intros k' Hk'. pose proof (is_kv _ _ Hs k) as Hkv. rewrite Hl in Hkv.
    destruct Hkv as (?&c&_&_&Hkv). simpl in Hkv.
    rewrite lookup_insert_ne by congruence. by apply (is_sub _ _ Hs).
Qed.

Lemma room_limit d : room 1 d → Z.of_nat (size (kv d)) < table_limit.
Proof. unfold room. lia. Qed.

(** The common part of SET: after [SetData], the entry's time. *)
Lemma set_expiry k o st e s1 d1 :
  ndebug = true → svc_is s1 d1 → Z.of_nat (size (kv d1)) < table_limit → st ≠ kNoOp →
  match e with None => st = kNoOp | Some l => st ≠ kNoOp ∧ ∃ x, entry_is s1 k l x end →
  ∃ s2, match expire_time o with
        | Some at_ => l ← deref e; upsert_expire l at_ s1
        | None => if bool_decide (st = kUpdated) && negb (keep_ttl o)
                  then erase_expire k s1 else Ok s1
        end = Ok s2 ∧
    svc_is s2 (match expire_time o with
               | Some t => db_expire k t d1
               | None => if bool_decide (st = kUpdated) && negb (keep_ttl o)
                         then db_persist k d1 else d1
               end) ∧ kept s1 s2 ∧ strs_ s2 = strs_ s1.
Proof.
  intros Hrel Hs1 Hsz Hst He. destruct e as [l|]; [|done]. destruct He as (_&x&Hl).
  destruct (expire_time o) as [t|].
  - cbn [deref mbind outcome_bind].
    destruct (upsert_expire_spec k l x t s1 d1 Hrel Hs1 Hl) as (s2&?&?&?&?&_);
      [pose proof (svc_is_ttl_size _ _ Hs1); lia|]. by exists s2.
  - destruct (bool_decide (st = kUpdated) && negb (keep_ttl o)); [|by exists s1].
    destruct (erase_expire_spec k s1 d1 Hs1) as (s2&?&?&?&_&?&_). by exists s2.
Qed.

Lemma SET_spec args r s d :
  ndebug = true → svc_is s d → time_ok (command_time_snapshot_ s) → room 1 d →
  cmd_post s (spec_SET (command_time_snapshot_ s) args d) (SetFunction args r s).
Proof.
  intros Hrel Hs Hnow Hroom. unfold SetFunction, spec_SET.
  destruct args as [|c [|k [|v opts]]]; simpl (length _ <? 3)%nat; cbv iota;
    try by apply err_post.
  cbv zeta. unfold GetCommandTimeSnapshot. set (now := command_time_snapshot_ s) in *.
  set (args := c :: k :: v :: opts).
  assert ((if (3 <? length args)%nat
     then ExtractSetOptions (length args) (drop 3 args) 0 now r no_options
     else Ok (Some no_options, r)) =
    Ok match set_options (length args) now opts no_options with
       | inl e => (None, SetError e r) | inr o => (Some o, r) end) as Heq.
  { destruct (3 <? length args)%nat eqn:E.
    - rewrite ExtractSetOptions_spec; [done|done|rewrite length_drop; lia].
    - apply Nat.ltb_ge in E. simpl in E. destruct opts; [done|simpl in E; lia]. }
  rewrite (bind_Ok _ _ _ Heq). clear Heq. cbn beta.
  destruct (set_options (length args) now opts no_options) as [e|o]; [by apply err_post|].
  cbn [arg args lookup list_lookup mbind outcome_bind].
  pose proof (SetData_spec k v (set_mode o) (get o) s d Hs (room_limit _ Hroom)) as Hset.
  pose proof (db_SetData_size now k v (set_mode o) (get o) d) as Hsz. fold now in Hset.
  destruct (db_SetData now k v (set_mode o) (get o) d) as [[st old] d1].
  destruct Hset as (e&p&s1&Heq&Hs1&Hk1&Hp&He). rewrite (bind_Ok _ _ _ Heq). cbn beta iota.
  case_bool_decide as Hst; [by eexists _, s1|].
  destruct (set_expiry k o st e s1 d1 Hrel Hs1) as (s2&Heq2&Hs2&Hk2&Hstr2); [|done|done|].
  { unfold room in Hroom. simpl in Hsz. lia. }
  rewrite (bind_Ok _ _ _ Heq2). cbn beta.
  assert (kept s s2) as Hk by by etransitivity.
  destruct (get o); [|by eexists _, s2].
  rewrite <- Hstr2 in Hp. destruct p as [x|], old as [c'|]; try done; by eexists _, s2.
Qed.

Lemma SETNX_spec args r s d :
  svc_is s d → room 1 d →
  cmd_post s (spec_SETNX (command_time_snapshot_ s) args d) (SetNXFunction args r s).
Proof.
  intros Hs Hroom. unfold SetNXFunction, spec_SETNX.
  destruct args as [|c [|k [|v [|? ?]]]]; cbn [length Nat.eqb negb]; try by apply err_post.
  cbn [arg lookup list_lookup mbind outcome_bind].
  pose proof (SetData_spec k v kNX false s d Hs (room_limit _ Hroom)) as Hset.
  assert (∀ st old d', db_SetData (command_time_snapshot_ s) k v kNX false d = (st, old, d') →
    st ≠ kUpdated) as Hno.
  { unfold db_SetData. intros st old d'. destruct (kv d !! k); [destruct (expired _ _ _)|]; naive_solver. }
  destruct (db_SetData (command_time_snapshot_ s) k v kNX false d) as [[st old] d1].
  destruct Hset as (e&p&s1&Heq&Hs1&Hk1&_). rewrite (bind_Ok _ _ _ Heq). cbn beta iota.
  rewrite cassert_true by (rewrite bool_decide_false by (by eapply Hno); done).
  by eexists _, s1.
Qed.

(** A step of MSET. *)
Lemma mset_loop_spec l s d :
  svc_is s d → Nat.even (length l) = true → room (length (pairs l)) d →
  ∃ s', mset_loop l s = Ok s' ∧ kept s s' ∧
    svc_is s' (foldl (λ d '(k, v), db_persist k (db_set k v d)) d (pairs l)).
Proof.
  remember (length l) as n eqn:Hn. revert l s d Hn. induction (lt_wf n) as [n _ IH].
  intros l s d -> Hs Heven Hroom. destruct l as [|k [|v l]]; [by exists s|done|].
  cbn [mset_loop pairs foldl length] in *.
  assert (Z.of_nat (size (kv d)) < table_limit) as Hlim by (unfold room in Hroom; lia).
  pose proof (SetData_spec k v kRegular false s d Hs Hlim) as Hset.
  destruct (db_SetData (command_time_snapshot_ s) k v kRegular false d) as [[st old] d1] eqn:E.
  destruct Hset as (e&p&s1&Heq&Hs1&Hk1&_). rewrite (bind_Ok _ _ _ Heq). cbn beta iota.
  assert (d1 = db_set k v d) as -> by (unfold db_SetData in E; naive_solver).
  destruct (erase_expire_spec k s1 _ Hs1) as (s2&Heq2&Hs2&Hk2&_). step Heq2.
  destruct (IH (length l) ltac:(lia) l s2 _ eq_refl Hs2) as (s'&?&?&?); [done| |].
  { unfold room in *. simpl. rewrite map_size_insert. destruct (kv d !! k); simpl; lia. }
  exists s'. split_and!; try done. by do 2 (etransitivity; [done|]).
Qed.

Lemma even_drop (args : list bytes) :
  (length args <? 3)%nat || Nat.even (length args) = false → Nat.even (length (drop 1 args)) = true.
Proof.
  intros [_ Ho]%orb_false_iff. destruct args as [|c args]; [done|].
  change (drop 1 (c :: args)) with args. cbn [length] in Ho.
  rewrite Nat.even_succ in Ho. rewrite <- Nat.negb_odd. by rewrite Ho.
Qed.

Lemma MSET_spec args r s d :
  svc_is s d → fresh_result r → room (length (pairs (drop 1 args))) d →
  cmd_post s (spec_MSET args d) (MSetFunction args r s).
Proof.
  intros Hs [Ht _] Hroom. unfold MSetFunction, spec_MSET.
  destruct ((length args <? 3)%nat || Nat.even (length args)) eqn:E; [by apply err_post|].
  destruct (mset_loop_spec (drop 1 args) s d Hs (even_drop _ E) Hroom) as (s'&Heq&?&?).
  rewrite (bind_Ok _ _ _ Heq). by eexists _, s'.
Qed.

Lemma msetnx_loop_spec l ok s d :
  svc_is s d → Nat.even (length l) = true → room (length (pairs l)) d →
  let '(b, d') := set_missing (command_time_snapshot_ s) (pairs l) ok d in
  ∃ s', msetnx_loop l ok s = Ok (b, s') ∧ kept s s' ∧ svc_is s' d'.
Proof.
  remember (length l) as n eqn:Hn. revert l ok s d Hn. induction (lt_wf n) as [n _ IH].
  intros l ok s d -> Hs Heven Hroom. destruct l as [|k [|v l]]; [by exists s|done|].
  cbn [msetnx_loop pairs set_missing length] in *.
  assert (Z.of_nat (size (kv d)) < table_limit) as Hlim by (unfold room in Hroom; lia).
  pose proof (SetData_spec k v kNX false s d Hs Hlim) as Hset.
  pose proof (db_SetData_size (command_time_snapshot_ s) k v kNX false d) as Hsz.
  destruct (db_SetData (command_time_snapshot_ s) k v kNX false d) as [[st old] d1].
  destruct Hset as (e&p&s1&Heq&Hs1&Hk1&_). rewrite (bind_Ok _ _ _ Heq). cbn beta iota.
  pose proof (IH (length l) ltac:(lia) l (ok || bool_decide (st = kInserted)) s1 d1 eq_refl Hs1
    Heven) as Hi.
  rewrite (kept_time _ _ Hk1) in Hi. destruct (set_missing _ (pairs l) _ d1) as [b d'].
  destruct Hi as (s'&?&?&?); [unfold room in *; simpl in Hsz; lia|].
  exists s'. split_and!; try done. by etransitivity.
Qed.

Lemma MSETNX_spec args r s d :
  svc_is s d → room (length (pairs (drop 1 args))) d →
  cmd_post s (spec_MSETNX (command_time_snapshot_ s) args d) (MSetNXFunction args r s).
Proof.
  intros Hs Hroom. unfold MSetNXFunction, spec_MSETNX.
  destruct ((length args <? 3)%nat || Nat.even (length args)) eqn:E; [by apply err_post|].
  pose proof (msetnx_loop_spec (drop 1 args) false s d Hs (even_drop _ E) Hroom) as Hl.
  destruct (set_missing _ (pairs (drop 1 args)) false d) as [b d'].
  destruct Hl as (s'&Heq&?&?). rewrite (bind_Ok _ _ _ Heq). by eexists _, s'.
Qed.

Lemma IntToTimePoint_spec unit_ now i :
  time_ok now → 1 ≤ unit_ → i * unit_ ≤ i64_max →
  IntToTimePoint unit_ now i =
    Ok (if (i <=? 0) || (i64_max <? now + i * unit_) then None else Some (now + i * unit_)).
Proof.
  intros Hnow Hu Hi. unfold time_ok in Hnow. unfold IntToTimePoint.
  destruct (Z.leb_spec i 0); [done|]. simpl orb.
  assert (∀ z, 0 ≤ z ≤ i64_max → chk_i64 z = Ok z) as Hchk.
  { intros z Hz. apply chk_i64_Ok. unfold i64_min. lia. }
  assert (0 < i * unit_) by nia.
  rewrite (Hchk (i64_max - now)) by lia. cbn [mbind outcome_bind].
  rewrite (Hchk (i * unit_)) by lia. cbn [mbind outcome_bind].
  destruct (Z.ltb_spec (i64_max - now) (i * unit_)).
  - by rewrite Zltb_t by lia.
  - rewrite Hchk by lia. by rewrite Zltb_f by lia.
Qed.

Lemma SETEX_spec unit_ args r s d :
  ndebug = true → svc_is s d → time_ok (command_time_snapshot_ s) → room 1 d → fresh_result r →
  1 ≤ unit_ → (∀ n i, args !! 2%nat = Some n → ParseInt_i64 n = Some i → i * unit_ ≤ i64_max) →
  cmd_post s (spec_SETEX (command_time_snapshot_ s) unit_ args d)
    (SetEXFunctionBase (IntToTimePoint unit_) args r s).
Proof.
  intros Hrel Hs Hnow Hroom [Ht _] Hu Hi. unfold SetEXFunctionBase, spec_SETEX.
  destruct args as [|c [|k [|n [|v [|? ?]]]]]; cbn [length Nat.eqb negb]; try by apply err_post.
  cbn [arg lookup list_lookup mbind outcome_bind].
  destruct (ParseInt_i64 n) as [i|] eqn:Hn; [|by apply err_post].
  unfold GetCommandTimeSnapshot. rewrite IntToTimePoint_spec; [|done|done|by eapply Hi].
  cbn [mbind outcome_bind]. set (now := command_time_snapshot_ s) in *.
  destruct ((i <=? 0) || (i64_max <? now + i * unit_)); [by apply err_post|].
  unfold CreateMTSPtr. cbv iota beta.
  pose proof (SetDataRegular_set k v s d Hs (room_limit _ Hroom)) as Hset.
  unfold SetDataRegular, CreateMTSPtr in Hset. cbn [negb] in Hset. cbv iota beta in Hset.
  fold now in Hset. cbn [db_SetData] in Hset.
  destruct Hset as (e&p&s1&Heq&Hs1&Hk1&_&He).
  apply bind_Ok_inv in Heq as ([[e' ex] dt]&Heq&Heq'). injection Heq' as Hst -> <- <-.
  rewrite (bind_Ok _ _ _ Heq). cbn beta iota zeta.
  destruct e as [l|]; [|by destruct (bool_decide _)]. destruct He as (_&x&Hl).
  cbn [deref mbind outcome_bind].
  destruct (upsert_expire_spec k l x (now + i * unit_) _ _ Hrel Hs1 Hl) as (s2&Heq2&Hs2&Hk2&_&Hd2).
  { pose proof (svc_is_ttl_size _ _ Hs1) as Hc. unfold room in Hroom.
    pose proof (db_SetData_size now k v kRegular false d) as Hsz. simpl in Hsz, Hc |- *. lia. }
  rewrite Heq2. cbn [mbind outcome_bind].
  assert (entry_is s2 k l x) as Hl2 by (destruct Hl as [kp Hl]; exists kp; by rewrite Hd2).
  destruct (touch_spec k l x s2 _ Hs2 Hl2) as (s3&Heq3&Hs3&Hr3&_). rewrite Heq3.
  eexists _, s3. split; [reflexivity|]. split_and!; try done.
  do 2 (etransitivity; [done|]). by apply relaid_kept.
Qed.

Lemma GETSET_spec args r s d :
  svc_is s d → room 1 d →
  cmd_post s (spec_GETSET (command_time_snapshot_ s) args d) (GetSetFunction args r s).
Proof.
  intros Hs Hroom. unfold GetSetFunction, spec_GETSET.
  destruct args as [|c [|k [|v [|? ?]]]]; cbn [length Nat.eqb negb]; try by apply err_post.
  cbn [arg lookup list_lookup mbind outcome_bind].
  pose proof (SetData_spec k v kRegular true s d Hs (room_limit _ Hroom)) as Hset.
  cbn [db_SetData] in Hset. destruct Hset as (e&p&s1&Heq&Hs1&Hk1&Hp&_).
  rewrite (bind_Ok _ _ _ Heq). cbn beta iota.
  rewrite cassert_true by (by rewrite bool_decide_false). cbn [mbind outcome_bind].
  destruct (db_get (command_time_snapshot_ s) d k) as [old|], p as [x|]; try done.
  - destruct (erase_expire_spec k s1 _ Hs1) as (s2&Heq2&Hs2&Hk2&_&Hst&_). step Heq2.
    rewrite bool_decide_true by eauto. eexists _, s2. split; [reflexivity|].
    split_and!; [done|by etransitivity|]. split; [done|]. by rewrite Hst.
  - rewrite bool_decide_false by (by intros [? ?]). by eexists _, s1.
Qed.

(** ** Values changed in place *)

Lemma use_count_1 x s : (use_count (Some x) s =? 1)%nat = true ↔ x ∉ held_ s.
Proof.
  simpl. rewrite Nat.eqb_eq. split.
  - intros Hl Hx. apply nil_length_inv in Hl.
    apply (not_elem_of_nil x). rewrite <- Hl. by apply list_elem_of_filter.
  - intros Hx. rewrite length_zero_iff_nil.
    destruct (filter (x =.) (held_ s)) as [|y l] eqn:E; [done|].
    assert (y ∈ filter (x =.) (held_ s)) as Hy by (rewrite E; set_solver).
    apply list_elem_of_filter in Hy as [-> ?]. done.
Qed.

Lemma str_set_spec k l x c s d :
  svc_is s d → entry_is s k l x → x ∉ held_ s →
  ∃ s', str_set (Some x) c s = Ok s' ∧ svc_is s' (db_set k c d) ∧ kept s s' ∧
        entry_is s' k l x ∧ strs_ s' !! x = Some c.
Proof.
  intros Hs [kp Hl] Hx. unfold str_set. cbn [deref mbind outcome_bind].
  eexists. split; [reflexivity|]. destruct d as [kvs ttls]. split_and!.
  - by apply (svc_is_mutate s _ kvs ttls k l kp x c).
  - split; [done|]. intros y Hy. simpl. apply lookup_insert_ne. by intros <-.
  - by exists kp.
  - simpl. apply lookup_insert_eq.
Qed.

(** The end of APPEND and SETRANGE: touch the key, reply with the length. *)
Lemma reply_length k l x c r s d :
  svc_is s d → entry_is s k l x → strs_ s !! x = Some c →
  cmd_post s (AInt (Z.of_nat (length c)), d)
    (s ← touch l s; p ← t_value l (data_ht_ s); c ← str_get p s;
     Ok (SetInt (Z.of_nat (length c)) r, s)).
Proof.
  intros Hs Hl Hx. destruct (touch_spec k l x s d Hs Hl) as (s1&Heq&Hs1&Hr1&_). step Heq.
  pose proof (entry_relaid _ _ _ _ _ Hl Hr1) as Hl1.
  rewrite (bind_Ok _ _ _ (value_of_entry _ _ _ _ _ Hs1 Hl1)). cbn beta.
  assert (strs_ s1 = strs_ s) as Hst by (by destruct Hr1 as (_&_&?&_)).
  unfold str_get. cbn [deref mbind outcome_bind]. rewrite Hst, Hx.
  eexists _, s1. split; [reflexivity|]. split_and!; try done. by apply relaid_kept.
Qed.

Lemma cmd_post_kept s s1 out res : kept s s1 → cmd_post s1 out res → cmd_post s out res.
Proof.
  intros Hk. destruct out as [a d']. intros (r'&s'&?&?&?&?). exists r', s'.
  split_and!; try done. by etransitivity.
Qed.

(** [FindOrCreate]: the entry of an existing key, or one to be given a value. *)
Lemma find_or_create k s d :
  svc_is s d → room 1 d →
  ∃ l kp p dt, t_FindOrCreate k (data_ht_ s)
               = Ok ((Some l, bool_decide (is_Some (kv d !! k))), dt) ∧
    t_ok dt ∧ t_view dt = <[k := (l, kp, p)]> (t_view (data_ht_ s)) ∧ framed s (with_data dt s) ∧
    match kv d !! k with
    | Some c => ∃ x, svc_is (with_data dt s) d ∧ entry_is (with_data dt s) k l x ∧
                     strs_ s !! x = Some c ∧ relaid s (with_data dt s)
    | None => ttl d !! k = None
    end.
Proof.
  intros Hs Hroom. destruct (t_FindOrCreate_ok k (data_ht_ s)) as (l&kp&p&dt&Heq&Hok&Hv&Hsame);
    [apply Hs|rewrite (svc_is_size _ _ Hs); by apply room_limit|].
  exists l, kp, p, dt. pose proof (svc_is_lookup s d k Hs) as Hk.
  destruct (kv d !! k) as [c|] eqn:Hkv.
  - destruct Hk as (l0&kp0&x&Hl&Hx). rewrite Hl in Hsame, Heq. simplify_eq.
    rewrite bool_decide_true in Heq |- * by eauto. split_and!; try done.
    exists x. rewrite (insert_id _ _ _ Hl) in Hv.
    assert (relaid s (with_data dt s)) by (unfold relaid; simpl; by rewrite Hv).
    split_and!; try done.
    + apply (svc_is_ext s); try done. apply Hs.
    + exists kp. simpl. by rewrite Hv.
  - rewrite Hk in Heq. rewrite bool_decide_false in Heq |- * by (by intros [? ?]).
    split_and!; try done. by apply (is_sub _ _ Hs).
Qed.

(** Giving the entry its value; the expire table may lose [k] meanwhile. *)
Lemma first_value k l kp p v s s1 d b :
  svc_is s d → t_ok (data_ht_ s1) →
  t_view (data_ht_ s1) = <[k := (l, kp, p)]> (t_view (data_ht_ s)) →
  t_ok (expire_ht_ s1) →
  t_view (expire_ht_ s1) = (if (b : bool) then delete k else id) (t_view (expire_ht_ s)) →
  strs_ s1 = strs_ s → next_str_ s1 = next_str_ s → framed s s1 →
  ∃ s', assign_new l v s1 = Ok s' ∧
    svc_is s' (if b then db_persist k (db_set k v d) else db_set k v d) ∧ kept s s' ∧
    entry_is s' k l (next_str_ s) ∧ strs_ s' !! next_str_ s = Some v.
Proof.
  intros Hs Hok Hv Hoke Hve Hst Hn Hf.
  destruct (assign_new_raw k l kp p v s1) as (s2&Heq&Hok2&Hv2&He2&Hst2&Hn2&Hf2);
    [done|by rewrite Hv, lookup_insert_eq|].
  rewrite Hn in *. rewrite Hst in Hst2.
  assert (framed s s2) as Hf' by (unfold framed in *; destruct_and!; split_and!; congruence).
  destruct (new_str_kept s s2 d v Hs Hst2 Hf') as [Hk _].
  exists s2. destruct d as [kvs ttls].
  assert (svc_is (with_expire (expire_ht_ s) s2) (db_set k v (mkDB kvs ttls))) as Hmid.
  { apply (svc_is_new s _ kvs ttls k l kp v); try done.
    - simpl. rewrite Hv2, Hv. by rewrite insert_insert_eq.
    - simpl. by destruct Hf' as (_&?&_). }
  split_and!; try done.
  - assert (t_view (expire_ht_ s2) = (if b then delete k else id) (t_view (expire_ht_ s))) as Hve2
      by (by rewrite He2).
    pose proof (is_ttl _ _ Hs) as Ht. simpl in Ht.
    destruct b; unfold db_persist, db_set; simpl in *.
    + apply (svc_is_ttl (with_expire (expire_ht_ s) s2) _ (<[k:=v]> kvs) ttls); try done.
      * by rewrite He2.
      * by rewrite Hve2, Ht, fmap_delete.
      * intros k' Hk'. apply lookup_delete_None. right. by apply (is_sub _ _ Hmid k' Hk').
    + apply (svc_is_ttl (with_expire (expire_ht_ s) s2) _ (<[k:=v]> kvs) ttls); try done.
      * by rewrite He2.
      * by rewrite Hve2.
      * intros k' Hk'. by apply (is_sub _ _ Hmid k' Hk').
  - exists kp. by rewrite Hv2, lookup_insert_eq.
  - by rewrite Hst2, lookup_insert_eq.
Qed.

Lemma str_get_Ok x c s : strs_ s !! x = Some c → str_get (Some x) s = Ok c.
Proof. intros Hx. unfold str_get. simpl. by rewrite Hx. Qed.

(** The new value of an existing entry whose object may be shared: a copy is
    changed if it is. *)
Lemma append_existing k l x c v s d :
  svc_is s d → entry_is s k l x → strs_ s !! x = Some c →
  ∃ s' y, (p ← t_value l (data_ht_ s);
           s ← (if negb (use_count p s =? 1)%nat
                then c ← str_get p s; assign_new l c s else Ok s);
           p ← t_value l (data_ht_ s);
           c ← str_get p s;
           str_set p (c ++ v) s) = Ok s' ∧
    svc_is s' (db_set k (c ++ v) d) ∧ kept s s' ∧ entry_is s' k l y ∧
    strs_ s' !! y = Some (c ++ v).
Proof.
  intros Hs Hl Hx. rewrite (bind_Ok _ _ _ (value_of_entry _ _ _ _ _ Hs Hl)). cbn beta.
  destruct (use_count (Some x) s =? 1)%nat eqn:Hu; cbn [negb]; cbv iota.
  - apply use_count_1 in Hu. cbn [mbind outcome_bind].
    rewrite (value_of_entry _ _ _ _ _ Hs Hl). unfold str_get.
    cbn [deref mbind outcome_bind]. rewrite Hx. cbn [deref mbind outcome_bind].
    destruct (str_set_spec k l x (c ++ v) s d Hs Hl Hu) as (s'&?&?&?&?&?). by exists s', x.
  - rewrite (str_get_Ok _ _ _ Hx). cbn [mbind outcome_bind].
    destruct (assign_new_spec k l x c s d Hs Hl) as (s1&Heq&Hs1&Hk1&Hl1&Hx1&_). step Heq.
    rewrite (bind_Ok _ _ _ (value_of_entry _ _ _ _ _ Hs1 Hl1)). cbn beta.
    rewrite (bind_Ok _ _ _ (str_get_Ok _ _ _ Hx1)). cbn beta.
    assert (next_str_ s ∉ held_ s1) as Hnot.
    { pose proof Hk1 as [(_&Hh&_) _]. rewrite Hh. intros Hin. apply (is_held _ _ Hs) in Hin.
      apply (is_fresh _ _ Hs) in Hin. lia. }
    destruct (str_set_spec k l _ (c ++ v) s1 _ Hs1 Hl1 Hnot) as (s'&?&Hs'&?&?&?).
    exists s', (next_str_ s). split_and!; try done; [|by etransitivity].
    unfold db_set in *. simpl in Hs'. by rewrite insert_insert_eq in Hs'.
Qed.

Lemma APPEND_spec args r s d :
  svc_is s d → room 1 d → cmd_post s (spec_APPEND args d) (AppendFunction args r s).
Proof.
  intros Hs Hroom. unfold AppendFunction, spec_APPEND.
  destruct args as [|c0 [|k [|v [|? ?]]]]; cbn [length Nat.eqb negb]; try by apply err_post.
  cbn [arg lookup list_lookup mbind outcome_bind].
  destruct (find_or_create k s d Hs Hroom) as (l&kp&p&dt&Heq&Hok&Hv&Hf&Hk).
  rewrite (bind_Ok _ _ _ Heq). cbn beta iota zeta. cbn [deref mbind outcome_bind].
  destruct (kv d !! k) as [c|].
  - destruct Hk as (x&Hs1&Hl1&Hx&_). rewrite bool_decide_true by eauto. cbn [negb]. cbv iota.
    destruct (append_existing k l x c v _ d Hs1 Hl1 Hx) as (s'&y&Heq'&Hs'&Hk'&Hl'&Hy).
    rewrite Heq'. cbn [mbind outcome_bind default].
    apply (cmd_post_kept s s'); [done|]. by apply (reply_length k l y).
  - rewrite bool_decide_false by (by intros [? ?]). cbn [negb]. cbv iota.
    destruct (first_value k l kp p v s (with_data dt s) d false Hs) as (s'&Heq'&Hs'&Hk'&Hl'&Hy);
      try done; [apply Hs|].
    rewrite (bind_Ok _ _ _ Heq'). cbn beta.
    apply (cmd_post_kept s s'); [done|]. by apply (reply_length k l (next_str_ s)).
Qed.

(** Whether the value of [k] is shown by a result of another client. *)
Definition shared s (k : bytes) : bool :=
  match t_view (data_ht_ s) !! k with
  | Some (_, _, Some x) => bool_decide (x ∈ held_ s)
  | _ => false
  end.

Lemma use_count_shared s s1 k l x :
  entry_is s1 k l x → t_view (data_ht_ s1) = t_view (data_ht_ s) → held_ s1 = held_ s →
  negb (use_count (Some x) s1 =? 1)%nat = shared s k.
Proof.
  intros [kp Hl] Hv Hh. unfold shared. rewrite <- Hv, Hl, <- Hh.
  destruct (use_count (Some x) s1 =? 1)%nat eqn:E.
  - apply use_count_1 in E. by rewrite bool_decide_false.
  - symmetry. apply bool_decide_eq_true. apply dec_stable. intros Hn.
    apply use_count_1 in Hn. congruence.
Qed.

(** The value of SETRANGE when it is written afresh, and in place. *)
Definition range_fresh (start : Z) (v : bytes) : bytes :=
  if start =? 0 then v else replicate (Z.to_nat (u32 (start + 1))) NUL ++ v.
Definition range_in (start : Z) (v c : bytes) : bytes :=
  if Z.of_nat (length c) <? start then c ++ replicate (Z.to_nat start - length c) NUL ++ v
  else take (Z.to_nat start) c ++ v.

(** The middle of SETRANGE on a live key. *)
Lemma setrange_live k l x c start v s d :
  svc_is s d → entry_is s k l x → strs_ s !! x = Some c →
  let c' := if shared s k then range_fresh start v else range_in start v c in
  ∃ s' y, (if negb true || negb (use_count (Some x) s =? 1)%nat then
             if start =? 0 then assign_new l v s
             else assign_new l (replicate (Z.to_nat (u32 (start + 1))) NUL ++ v) s
           else
             c ← str_get (Some x) s;
             if Z.of_nat (length c) <? start
             then str_set (Some x) (c ++ replicate (Z.to_nat start - length c) NUL ++ v) s
             else str_set (Some x) (take (Z.to_nat start) c ++ v) s) = Ok s' ∧
    svc_is s' (db_set k c' d) ∧ kept s s' ∧ entry_is s' k l y ∧ strs_ s' !! y = Some c'.
Proof.
  intros Hs Hl Hx c'. cbn [negb orb]. rewrite (use_count_shared s s k l x) by done.
  subst c'. destruct (shared s k) eqn:Hsh.
  - replace (if start =? 0 then assign_new l v s
             else assign_new l (replicate (Z.to_nat (u32 (start + 1))) NUL ++ v) s)
      with (assign_new l (range_fresh start v) s) by (unfold range_fresh; by destruct (start =? 0)).
    destruct (assign_new_spec k l x (range_fresh start v) s d Hs Hl) as (s'&?&?&?&?&?&_).
    by exists s', (next_str_ s).
  - unfold str_get. cbn [deref mbind outcome_bind]. rewrite Hx. cbn [deref mbind outcome_bind].
    replace (if Z.of_nat (length c) <? start
             then str_set (Some x) (c ++ replicate (Z.to_nat start - length c) NUL ++ v) s
             else str_set (Some x) (take (Z.to_nat start) c ++ v) s)
      with (str_set (Some x) (range_in start v c) s)
      by (unfold range_in; by destruct (_ <? start)).
    assert (x ∉ held_ s) as Hn.
    { unfold shared in Hsh. destruct Hl as [kp Hl]. rewrite Hl in Hsh.
      by apply bool_decide_eq_false in Hsh. }
    destruct (str_set_spec k l x (range_in start v c) s d Hs Hl Hn) as (s'&?&?&?&?&?).
    by exists s', x.
Qed.

(** The middle of SETRANGE on an expired key: the old value is dropped, then
    the expiry time, then the new value is set. *)
Lemma setrange_expired k l x v s d :
  svc_is s d → entry_is s k l x →
  ∃ dt s1 s2, t_assign l None (data_ht_ s) = Ok dt ∧ erase_expire k (with_data dt s) = Ok s1 ∧
    t_value l (data_ht_ s1) = Ok None ∧ assign_new l v s1 = Ok s2 ∧
    svc_is s2 (db_persist k (db_set k v d)) ∧ kept s s2 ∧ entry_is s2 k l (next_str_ s) ∧
    strs_ s2 !! next_str_ s = Some v.
Proof.
  intros Hs [kp Hl]. destruct (t_assign_ok _ _ _ _ _ None (is_data _ _ Hs) Hl) as (dt&Heq&Hok&Hv).
  destruct (t_Erase_ok k (expire_ht_ s)) as (et&Heq2&Hok2&Hv2); [apply Hs|].
  destruct (first_value k l kp None v s (with_expire et (with_data dt s)) d true Hs)
    as (s2&Heq3&Hs2&Hk2&Hl2&Hy2); try done.
  exists dt, (with_expire et (with_data dt s)), s2. unfold erase_expire. simpl.
  split_and!; try done; [by rewrite (bind_Ok _ _ _ Heq2)|].
  eapply t_value_ok; [done|]. by rewrite Hv, lookup_insert_eq.
Qed.

Lemma SETRANGE_spec args r s d :
  svc_is s d → room 1 d →
  cmd_post s (spec_SETRANGE (command_time_snapshot_ s) (shared s (default [] (args !! 1%nat))) args d)
    (SetRangeFunction args r s).
Proof.
  intros Hs Hroom. unfold SetRangeFunction, spec_SETRANGE.
  destruct args as [|c0 [|k [|n [|v [|? ?]]]]]; cbn [length Nat.eqb negb]; try by apply err_post.
  cbn [arg lookup list_lookup mbind outcome_bind default]. change (id k) with k.
  destruct (ParseInt_u32 n) as [start|]; [|by apply err_post].
  destruct (find_or_create k s d Hs Hroom) as (l&kp&p&dt&Heq&Hok&Hv&Hf&Hk).
  rewrite (bind_Ok _ _ _ Heq). cbn beta iota zeta. cbn [deref mbind outcome_bind].
  unfold db_get, expired. set (now := command_time_snapshot_ s).
  destruct (kv d !! k) as [c|].
  2: { (* a new key *)
    rewrite Hk. rewrite bool_decide_false by (by intros [? ?]). cbn [mbind outcome_bind negb orb].
    rewrite (bind_Ok _ _ p) by (eapply t_value_ok; [done|]; simpl; by rewrite Hv, lookup_insert_eq).
    cbn beta. replace (if shared s k then None else None) with (@None bytes) by (by destruct (shared s k)).
    destruct (first_value k l kp p (range_fresh start v) s (with_data dt s) d false Hs)
      as (s'&Heq'&Hs'&Hk'&Hl'&Hy); try done; [apply Hs|].
    replace (if start =? 0 then assign_new l v (with_data dt s)
             else assign_new l (replicate (Z.to_nat (u32 (start + 1))) NUL ++ v) (with_data dt s))
      with (assign_new l (range_fresh start v) (with_data dt s))
      by (unfold range_fresh; by destruct (start =? 0)).
    rewrite (bind_Ok _ _ _ Heq'). cbn beta.
    apply (cmd_post_kept s s'); [done|]. exact (reply_length k l _ (range_fresh start v) r s' _ Hs' Hl' Hy). }
  destruct Hk as (x&Hs1&Hl1&Hx&Hr1). rewrite bool_decide_true by eauto.
  destruct (find_expire_spec k _ d Hs1) as (s2&Heq2&Hs2&Hr2&Hd2).
  rewrite (bind_Ok _ _ _ Heq2). cbn beta iota.
  assert (relaid s s2) as Hr by (by etransitivity).
  pose proof (relaid_kept _ _ Hr) as Hk2. pose proof (entry_relaid _ _ _ _ _ Hl1 Hr2) as Hl2.
  destruct Hr as (Hv2&_&Hst2&_&(_&Hh2&_)).
  unfold GetCommandTimeSnapshot. rewrite (kept_time _ _ Hk2). fold now.
  destruct (match ttl d !! k with Some e => e <=? now | None => false end).
  - destruct (setrange_expired k l x (range_fresh start v) s2 d Hs2 Hl2)
      as (dt3&s3&s4&Heq3&Heq3'&Heq4&Heq5&Hs4&Hk4&Hl4&Hy4).
    rewrite (bind_Ok _ _ _ Heq3). cbn beta. rewrite (bind_Ok _ _ _ Heq3'). cbn beta iota.
    cbn [mbind outcome_bind]. rewrite Heq4. cbn [mbind outcome_bind negb orb].
    replace (if start =? 0 then assign_new l v s3
             else assign_new l (replicate (Z.to_nat (u32 (start + 1))) NUL ++ v) s3)
      with (assign_new l (range_fresh start v) s3) by (unfold range_fresh; by destruct (start =? 0)).
    rewrite Heq5. cbn [mbind outcome_bind].
    replace (if shared s k then None else None) with (@None bytes) by (by destruct (shared s k)).
    apply (cmd_post_kept s s4); [by etransitivity|]. exact (reply_length k l _ (range_fresh start v) r s4 _ Hs4 Hl4 Hy4).
  - cbn [mbind outcome_bind]. rewrite (value_of_entry _ _ _ _ _ Hs2 Hl2). cbn [mbind outcome_bind].
    destruct (setrange_live k l x c start v s2 d Hs2 Hl2) as (s3&y&Heq3&Hs3&Hk3&Hl3&Hy3);
      [by rewrite Hst2|].
    rewrite Heq3. cbn [mbind outcome_bind].
    assert (shared s2 k = shared s k) as Hsh by (unfold shared; by rewrite Hv2, Hh2).
    rewrite Hsh in Hs3, Hy3.
    apply (cmd_post_kept s s3); [by etransitivity|].
    replace (match (if shared s k then None else Some c) with _ => _ end)
      with (if shared s k then range_fresh start v else range_in start v c)
      by (by destruct (shared s k)).
    by apply (reply_length k l y).
Qed.

(** ** Substrings *)

(** A string object no entry points to. *)
Lemma new_object_spec v s d :
  svc_is s d →
  let s' := with_strs (<[next_str_ s := v]> (strs_ s)) (Pos.succ (next_str_ s)) s in
  svc_is s' d ∧ kept s s' ∧ strs_ s' !! next_str_ s = Some v.
Proof.
  intros Hs s'. destruct (new_str_kept s s' d v Hs) as [Hk Hold]; [done|done|].
  split_and!; [|done|by simpl; rewrite lookup_insert_eq].
  destruct Hs as [Hd He Hkv Hinj Hfr Hheld Httl Hsub]. split; simpl; try done.
  - intros k. specialize (Hkv k). destruct (t_view (data_ht_ s) !! k) as [[[l kp] p]|]; [|done].
    destruct Hkv as (x&c&->&Hx&?). exists x, c. split_and!; [done| |done]. by apply Hold.
  - intros x. rewrite lookup_insert_is_Some'. intros [->|Hx]; [lia|]. apply Hfr in Hx. lia.
  - intros x Hx. apply Hheld in Hx. rewrite lookup_insert_is_Some'. by right.
Qed.

Lemma ParseInt_i32_range a n : ParseInt_i32 a = Some n → - 2 ^ 31 ≤ n < 2 ^ 31.
Proof.
  unfold ParseInt_i32, whole, from_chars_i32, from_chars.
  destruct (match a with [] => _ | _ => _ end) as [sign a'].
  destruct (scan_digits a') as [ds rest]. case_bool_decide; [done|].
  destruct (Z.leb_spec (- 2 ^ 31) (sign * digits_val 0 ds)); [|done].
  destruct (Z.leb_spec (sign * digits_val 0 ds) (2 ^ 31 - 1)); [|done].
  simpl. destruct rest; [|done]. intros [= <-]. lia.
Qed.

(** The index computation of the code, which is done in [int32_t], is that of
    the specification. *)
Lemma transform_index_spec sz i :
  0 ≤ sz < 2 ^ 31 → - 2 ^ 31 ≤ i < 2 ^ 31 →
  transform_index (i32 sz) i = Z.min sz (if i <? 0 then Z.max 0 (sz + i) else i).
Proof.
  intros Hsz Hi. unfold transform_index. rewrite (i32_small sz) by lia.
  destruct (Z.ltb_spec i 0); rewrite ?i32_small by lia; apply u64_small; lia.
Qed.

Lemma GETRANGE_spec args r s d :
  svc_is s d → (∀ k c, kv d !! k = Some c → Z.of_nat (length c) < 2 ^ 31) →
  cmd_post s (spec_GETRANGE (command_time_snapshot_ s) args d) (GetRangeFunction args r s).
Proof.
  intros Hs Hsmall. unfold GetRangeFunction, spec_GETRANGE.
  destruct args as [|c0 [|k [|a [|b [|? ?]]]]]; cbn [length Nat.eqb negb]; try by apply err_post.
  cbn [arg lookup list_lookup mbind outcome_bind].
  destruct (ParseInt_i32 a) as [st|] eqn:Ha; [|by apply err_post].
  destruct (ParseInt_i32 b) as [en|] eqn:Hb; [|by apply err_post].
  apply ParseInt_i32_range in Ha, Hb.
  destruct (FindOrExpire_spec k s d Hs) as (e&s1&Heq&Hs1&Hk1&Hst1&He). step Heq.
  destruct (db_get (command_time_snapshot_ s) d k) as [c|] eqn:Hget.
  2: { subst e. unfold CreateMTSPtr. destruct (new_object_spec [] s1 _ Hs1) as (Hs2&Hk2&Hx).
       eexists _, _. split; [reflexivity|]. split_and!; [done|by etransitivity|done]. }
  destruct He as (l&x&->&Hl&Hx). rewrite (bind_Ok _ _ _ (value_of_entry _ _ _ _ _ Hs1 Hl)).
  cbn beta. rewrite (bind_Ok _ _ _ (str_get_Ok _ _ _ Hx)). cbn beta zeta.
  assert (0 ≤ Z.of_nat (length c) < 2 ^ 31) as Hc.
  { split; [lia|]. apply (Hsmall k). unfold db_get in Hget. by destruct (expired _ _ _). }
  rewrite !transform_index_spec by done. unfold range_of.
  set (sz := Z.of_nat (length c)) in *.
  set (i1 := Z.min sz (if st <? 0 then _ else _)). set (i2 := Z.min sz (if en <? 0 then _ else _)).
  assert (i1 ≤ sz ∧ i2 ≤ sz) as [Hi1 Hi2] by (unfold i1, i2; lia).
  assert ((i1 =? sz) || (i2 <=? i1) = (i2 <=? i1)) as ->.
  { destruct (Z.eqb_spec i1 sz); [|done]. simpl. by rewrite Zleb_t by lia. }
  set (sub := if i2 <=? i1 then [] else take _ _).
  assert ((if i2 <=? i1 then Ok []
           else if i2 <=? sz
                then Ok (take (Z.to_nat (i2 - i1 + 1)) (drop (Z.to_nat i1) (c ++ [NUL])))
                else Fault OutOfRange) = Ok sub) as ->.
  { unfold sub. destruct (i2 <=? i1); [done|]. by rewrite Zleb_t by lia. }
  cbn [mbind outcome_bind]. unfold CreateMTSPtr. cbv iota beta.
  destruct (new_object_spec sub s1 _ Hs1) as (Hs2&Hk2&Hx2).
  assert (entry_is (with_strs (<[next_str_ s1:=sub]> (strs_ s1)) (Pos.succ (next_str_ s1)) s1) k l x)
    as Hl2 by done.
  destruct (touch_spec k l x _ _ Hs2 Hl2) as (s3&Heq3&Hs3&Hr3&_). rewrite (bind_Ok _ _ _ Heq3).
  eexists _, s3. split; [reflexivity|]. split_and!; [done| |split; [done|]].
  - do 2 (etransitivity; [done|]). by apply relaid_kept.
  - destruct Hr3 as (_&_&->&_). done.
Qed.

(** ** GETEX *)

Lemma getex_options_spec fuel args i now r persist at_ :
  time_ok now → (length args - i ≤ fuel)%nat →
  getex_options fuel args i now r persist at_ =
    Ok match getex_opts now fuel (drop i args) persist at_ with
       | inl e => (None, SetError e r)
       | inr o => (Some o, r)
       end.
Proof.
  intros Hnow. revert i persist at_. induction fuel as [|fuel IH]; intros i persist at_ Hf;
    cbn [getex_options].
  { rewrite (proj2 (Nat.ltb_ge _ _)) by lia. by rewrite drop_ge by lia. }
  destruct (drop i args) as [|a l] eqn:Hd.
  { rewrite (proj2 (Nat.ltb_ge _ _)); [done|].
    pose proof (length_drop args i) as Hl. rewrite Hd in Hl. simpl in Hl. lia. }
  assert (length args = i + S (length l))%nat as Hlen.
  { pose proof (length_drop args i) as Hl. rewrite Hd in Hl. simpl in Hl. lia. }
  rewrite (proj2 (Nat.ltb_lt _ _)) by lia. rewrite (arg_drop args i), Hd.
  cbn [mbind outcome_bind getex_opts]. pose proof (drop_next _ _ _ _ Hd) as Hd1.
  destruct (bool_decide (a = lit "PERSIST")).
  { destruct (bool_decide (is_Some at_) || persist); [done|]. rewrite IH by lia. by rewrite Hd1. }
  pose proof (ExtractExpireOptions_spec args i now r at_ a l Hnow Hd) as Hx.
  destruct (read_expire now a l at_) as [[e|[t l']]|].
  - destruct Hx as [t ->]. done.
  - destruct Hx as [-> Hd2]. cbn [mbind outcome_bind]. destruct persist; [done|].
    rewrite IH by lia. by rewrite Hd2.
  - rewrite Hx. done.
Qed.

Lemma upsert_expire_key k l x at_ s d :
  svc_is s d → entry_is s k l x → t_Count (expire_ht_ s) < table_limit →
  ∃ s', ('(_, e) ← t_Upsert k at_ (expire_ht_ s); Ok (with_expire e s)) = Ok s' ∧
        svc_is s' (db_expire k at_ d) ∧ kept s s' ∧ strs_ s' = strs_ s.
Proof.
  intros Hs [kp Hl] Hc.
  destruct (t_Upsert_ok k at_ (expire_ht_ s)) as (l'&kp'&et&Heq&Hok&Hv&_); [apply Hs|done|].
  step Heq. eexists. split; [reflexivity|]. split_and!; try done.
  destruct d as [kvs ttls]. apply (svc_is_ttl s _ kvs ttls); try done; simpl.
  - rewrite Hv, fmap_insert. pose proof (is_ttl _ _ Hs) as Ht. simpl in Ht. by rewrite Ht.
  - intros k' Hk'. pose proof (is_kv _ _ Hs k) as Hkv. rewrite Hl in Hkv.
    destruct Hkv as (?&c&_&_&Hkv). simpl in Hkv.
    rewrite lookup_insert_ne by congruence. by apply (is_sub _ _ Hs).
Qed.

Lemma GETEX_spec args r s d :
  svc_is s d → time_ok (command_time_snapshot_ s) → room 1 d →
  cmd_post s (spec_GETEX (command_time_snapshot_ s) args d) (GetEXFunction args r s).
Proof.
  intros Hs Hnow Hroom. unfold GetEXFunction, spec_GETEX.
  destruct args as [|c0 [|k opts]]; simpl (length _ <? 2)%nat; cbv iota; try by apply err_post.
  unfold GetCommandTimeSnapshot. rewrite getex_options_spec by (done || simpl; lia).
  set (now := command_time_snapshot_ s) in *. change (drop 2 (c0 :: k :: opts)) with opts.
  cbn [mbind outcome_bind].
  destruct (getex_opts now (length (c0 :: k :: opts)) opts false None) as [e|[persist at_]];
    [by apply err_post|].
  cbn [arg lookup list_lookup mbind outcome_bind]. unfold GetFunctionBaseWithCallback.
  destruct (GetFunctionBase_spec k r s d Hs) as (e&r'&s1&Heq&Hs1&Hk1&Hst1&Hr1&He). step Heq.
  fold now in Hs1, Hr1, He. unfold db_touch in *.
  destruct (db_get now d k) as [c|] eqn:Hget; [|by subst e; exists r', s1].
  destruct He as (l&x&->&Hl).
  assert (expired now d k = false) as Hx by (unfold db_get in Hget; by destruct (expired now d k)).
  rewrite Hx in Hs1. pose proof Hl as [kp Hl'].
  rewrite (bind_Ok _ _ _ (t_CopyKey_ok _ _ _ _ _ (is_data _ _ Hs1) Hl')). cbn beta.
  rewrite (t_key_ok _ _ _ _ _ (is_data _ _ Hs1) Hl').
  destruct persist; [|destruct at_ as [t|]].
  - destruct (erase_expire_spec k s1 d Hs1) as (s2&Heq2&Hs2&Hk2&_&Hst2&_). rewrite Heq2.
    eexists _, s2. split; [reflexivity|]. split_and!; [done|by etransitivity|]. by rewrite Hst2.
  - destruct (upsert_expire_key k l x t s1 d Hs1 Hl) as (s2&Heq2&Hs2&Hk2&Hst2).
    { pose proof (svc_is_ttl_size _ _ Hs1). pose proof (room_limit _ Hroom). lia. }
    rewrite Heq2. eexists _, s2. split; [reflexivity|].
    split_and!; [done|by etransitivity|]. by rewrite Hst2.
  - by exists r', s1.
Qed.
End string_commands.
