(* ===== verification/Eviction.v ===== *)
(** * Eviction

    Model of [EvictionStrategy] (src/src/service/eviction_strategy.h,
    eviction_strategy.cc): the memory test, eviction of random keys and of
    old keys picked from samples.  [std::rand] is a list of draws; the memory
    tracker's counters are parameters, functions of the state (allocation
    sizes belong to the C++ library). *)

From S2P Require Import Prelude Config Table Replier HashTable Service ServiceInv ServiceSpec.
From Stdlib Require Import Sorted.

(** [MemoryTracker::GetAllocated]: bytes allocated for keys, entries and
    values ([kMallocator]) in a state, and for query buffers. *)
Class Memory (DT ET : Type) := {
  mallocator_bytes : Service DT ET → Z;
  query_buffer_bytes : Z }.

Definition kEvictionPoolLimit : nat := 16.

Section eviction.
Context {DT ET : Type} `{!Table MTSPtr DT} `{!Table Z ET} `{!BuildMode} `{!Memory DT ET}.
Implicit Types s : Service DT ET.

(** ** Data updates *)

Definition set_pool (p : list (Z * KeyPtr)) s : Service DT ET :=
  let v := evictor_ s in
  with_evictor (mkEvictor (maxmemory_policy_ v) (maxmemory_ v) (maxmemory_samples_ v)
                  (lru_clock_ v) p (evicted_keys_ v)) s.
Definition add_evicted s : Service DT ET :=
  let v := evictor_ s in
  with_evictor (mkEvictor (maxmemory_policy_ v) (maxmemory_ v) (maxmemory_samples_ v)
                  (lru_clock_ v) (eviction_pool_ v) (u64 (evicted_keys_ v + 1))) s.

(** ** Operations *)

Definition RefreshLRUClock (now : Z) s : Service DT ET :=
  let v := evictor_ s in
  with_evictor (mkEvictor (maxmemory_policy_ v) (maxmemory_ v) (maxmemory_samples_ v)
                  (u32 now) (eviction_pool_ v) (evicted_keys_ v)) s.

Definition MaxmemoryExceeded s : Z :=
  let limit := maxmemory_ (evictor_ s) in
  if limit =? 0 then 0
  else
    let allocated := u64 (mallocator_bytes s + query_buffer_bytes) in
    if allocated <=? limit then 0 else allocated - limit.

(** The body of the eviction loops: the entry leaves the expire table, then
    the data table. *)
Definition evict_entry (l : loc) s : Outcome (Service DT ET) :=
  kp ← t_CopyKey l (data_ht_ s);
  '(_, e) ← t_Erase (k_data kp) (expire_ht_ s);
  let s := with_expire e s in
  kp ← t_CopyKey l (data_ht_ s);
  '(_, d) ← t_Erase (k_data kp) (data_ht_ s);
  Ok (add_evicted (with_data d s)).

(** [eviction_pool_.emplace]: no effect when an element with the same time is
    in the set. *)
Fixpoint pool_emplace (x : Z * KeyPtr) (pool : list (Z * KeyPtr)) : list (Z * KeyPtr) :=
  match pool with
  | [] => [x]
  | y :: pool' =>
      if x.1 <? y.1 then x :: pool
      else if y.1 <? x.1 then y :: pool_emplace x pool'
      else pool
  end.

(** The [for] loop that draws samples. *)
Fixpoint sample_loop (n : nat) (rands : list Z) s : Outcome (list Z * Service DT ET) :=
  match n with
  | O => Ok (rands, s)
  | S n =>
      '(entry, rands) ← t_GetRandomEntry rands (data_ht_ s);
      _ ← cassert (bool_decide (is_Some entry));
      l ← deref entry;
      kp ← t_CopyKey l (data_ht_ s);
      sample_loop n rands (set_pool (pool_emplace (GetLRU kp s, kp) (eviction_pool_ (evictor_ s))) s)
  end.

(** The [while] loop over the pool: the first element that is still current. *)
Fixpoint scan_pool (fuel : nat) s : Outcome (option loc * Service DT ET) :=
  match eviction_pool_ (evictor_ s) with
  | [] => Ok (None, s)
  | (lru, kp) :: pool =>
      match fuel with
      | O => Diverge
      | S fuel =>
          '(entry, d) ← t_Find (k_data kp) (data_ht_ s);
          let s := with_data d s in
          valid ← match entry with
                  | None => Ok false
                  | Some l => kp' ← t_CopyKey l (data_ht_ s); Ok (GetLRU kp' s =? lru)
                  end;
          if (valid : bool) then Ok (entry, set_pool pool s) else scan_pool fuel (set_pool pool s)
      end
  end.

(** The outer [while (result == nullptr)] loop; each turn draws samples. *)
Fixpoint old_entry_loop (fuel : nat) (samples : Z) (rands : list Z) s
    : Outcome (option loc * list Z * Service DT ET) :=
  match fuel with
  | O => Diverge
  | S fuel =>
      '(rands, s) ← sample_loop (Z.to_nat (Z.min samples (t_Count (data_ht_ s)))) rands s;
      let s := set_pool (take kEvictionPoolLimit (eviction_pool_ (evictor_ s))) s in
      '(result, s) ← scan_pool (length (eviction_pool_ (evictor_ s))) s;
      match result with
      | Some _ => Ok (result, rands, s)
      | None => old_entry_loop fuel samples rands s
      end
  end.

Definition GetSomeOldEntry (samples : Z) (rands : list Z) s
    : Outcome (option loc * list Z * Service DT ET) :=
  _ ← cassert (length (eviction_pool_ (evictor_ s)) <? kEvictionPoolLimit)%nat;
  _ ← cassert (0 <? t_Count (data_ht_ s));
  old_entry_loop (S (length rands)) samples rands s.

(** The two eviction loops: [pick] is how a victim is chosen. *)
Fixpoint evict_loop (pick : list Z → Service DT ET → Outcome (option loc * list Z * Service DT ET))
    (fuel : nat) (bytes_to_free freed : Z) (rands : list Z) s
    : Outcome (bool * list Z * Service DT ET) :=
  if freed <? bytes_to_free then
    match fuel with
    | O => Diverge
    | S fuel =>
        if t_Count (data_ht_ s) =? 0 then Ok (false, rands, s)
        else
          '(entry, rands, s) ← pick rands s;
          match entry with
          | None => Ok (false, rands, s)
          | Some l =>
              let before := mallocator_bytes s in
              s ← evict_entry l s;
              let delta := u64 (before - mallocator_bytes s) in
              evict_loop pick fuel bytes_to_free (u64 (freed + delta)) rands s
          end
    end
  else Ok (true, rands, s).

Definition pick_random (rands : list Z) s : Outcome (option loc * list Z * Service DT ET) :=
  '(entry, rands) ← t_GetRandomEntry rands (data_ht_ s);
  Ok (entry, rands, s).

Definition pick_old (rands : list Z) s : Outcome (option loc * list Z * Service DT ET) :=
  GetSomeOldEntry (maxmemory_samples_ (evictor_ s)) rands s.

(** Each turn of the loops removes a key, so the number of keys bounds them. *)
Definition Evict (bytes_to_free : Z) (rands : list Z) s
    : Outcome (bool * list Z * Service DT ET) :=
  _ ← cassert (negb (bytes_to_free =? 0));
  let fuel := S (Z.to_nat (t_Count (data_ht_ s))) in
  match maxmemory_policy_ (evictor_ s) with
  | kNoEviction => Ok (false, rands, s)
  | kAllKeysRandom => evict_loop pick_random fuel bytes_to_free 0 rands s
  | kAllKeysLru => evict_loop pick_old fuel bytes_to_free 0 rands s
  end.
End eviction.

(** ** Correctness *)

Section eviction_spec.
Context {DT ET : Type} `{!Table MTSPtr DT} `{!Table Z ET} `{!BuildMode} `{!Memory DT ET}.
Context `{!TableView MTSPtr DT} `{!TableView Z ET} `{!TableLaws MTSPtr DT} `{!TableLaws Z ET}.
Implicit Types s : Service DT ET.

(** The pool: sorted by strictly increasing time, below the limit. *)
Definition pool_sorted (pool : list (Z * KeyPtr)) : Prop :=
  StronglySorted (λ x y : Z * KeyPtr, x.1 < y.1) pool.
Definition pool_ok s : Prop :=
  pool_sorted (eviction_pool_ (evictor_ s)) ∧
  (length (eviction_pool_ (evictor_ s)) < kEvictionPoolLimit)%nat.

(** The database after keys were removed, and what eviction keeps. *)
Definition shrunk (d d' : DB) : Prop := kv d' ⊆ kv d ∧ ttl d' ⊆ ttl d.
Definition evict_kept s s' : Prop :=
  config_ s' = config_ s ∧ held_ s' = held_ s ∧ strs_ s' = strs_ s ∧
  next_str_ s' = next_str_ s ∧ key_lru_ s' = key_lru_ s ∧ expirer_ s' = expirer_ s ∧
  command_time_snapshot_ s' = command_time_snapshot_ s ∧
  commands_processed s' = commands_processed s ∧ active_ s' = active_ s ∧
  maxmemory_policy_ (evictor_ s') = maxmemory_policy_ (evictor_ s) ∧
  maxmemory_samples_ (evictor_ s') = maxmemory_samples_ (evictor_ s) ∧
  maxmemory_ (evictor_ s') = maxmemory_ (evictor_ s) ∧
  lru_clock_ (evictor_ s') = lru_clock_ (evictor_ s).

#[global] Instance evict_kept_preorder : PreOrder evict_kept.
Proof.
  split; [done|]. intros s1 s2 s3. unfold evict_kept. intros E1 E2. destruct_and!.
  split_and!; congruence.
Qed.

Lemma shrunk_erase k d : shrunk d (db_erase k d).
Proof. split; simpl; apply delete_subseteq. Qed.
Lemma shrunk_trans d1 d2 d3 : shrunk d1 d2 → shrunk d2 d3 → shrunk d1 d3.
Proof. intros [? ?] [? ?]. split; by etransitivity. Qed.

Lemma pool_emplace_elem x y pool :
  y ∈ pool_emplace x pool → y = x ∨ y ∈ pool.
Proof.
  induction pool as [|z pool IH]; simpl; [set_solver|].
  repeat destruct (_ <? _); set_solver.
Qed.

Lemma pool_emplace_sorted x pool : pool_sorted pool → pool_sorted (pool_emplace x pool).
Proof.
  induction 1 as [|y pool Hs IH Hy]; simpl; [by repeat constructor|].
  destruct (Z.ltb_spec x.1 y.1) as [Hlt|Hge].
  - constructor; [by constructor|]. constructor; [done|].
    eapply Forall_impl; [done|]. simpl. intros. lia.
  - destruct (Z.ltb_spec y.1 x.1); [|by constructor]. constructor; [done|].
    apply Forall_forall. intros z [->|Hz]%pool_emplace_elem; [done|].
    by apply (proj1 (Forall_forall _ _) Hy).
Qed.

(** Removing one entry. *)
Lemma evict_entry_spec k l kp v s d :
  svc_is s d → t_view (data_ht_ s) !! k = Some (l, kp, v) →
  ∃ s', evict_entry l s = Ok s' ∧ svc_is s' (db_erase k d) ∧ evict_kept s s' ∧
        eviction_pool_ (evictor_ s') = eviction_pool_ (evictor_ s) ∧
        evicted_keys_ (evictor_ s') = u64 (evicted_keys_ (evictor_ s) + 1).
Proof.
  intros Hs Hl. unfold evict_entry.
  rewrite (bind_Ok _ _ _ (t_CopyKey_ok _ _ _ _ _ (is_data _ _ Hs) Hl)). cbn beta.
  rewrite (t_key_ok _ _ _ _ _ (is_data _ _ Hs) Hl).
  destruct (erase_both k s d Hs) as (b&b'&dt&et&Hed&Hee&_&_&Hs'). step Hee. cbv zeta.
  rewrite (bind_Ok _ _ _ (t_CopyKey_ok _ _ _ _ _ (is_data _ _ Hs) Hl)). cbn beta.
  rewrite (t_key_ok _ _ _ _ _ (is_data _ _ Hs) Hl). simpl. rewrite (bind_Ok _ _ _ Hed).
  eexists. split; [reflexivity|]. split; [by apply (svc_is_ext _ _ _ Hs'); try apply Hs'|]. done.
Qed.

(** What picking a victim must promise. *)
Definition picks (pick : list Z → Service DT ET → Outcome (option loc * list Z * Service DT ET))
    : Prop :=
  ∀ rands s d, svc_is s d → pool_ok s → 0 < t_Count (data_ht_ s) →
    match pick rands s with
    | Ok (Some l, _, s') => svc_is s' d ∧ pool_ok s' ∧ evict_kept s s' ∧
        evicted_keys_ (evictor_ s') = evicted_keys_ (evictor_ s) ∧
        ∃ k kp v, t_view (data_ht_ s') !! k = Some (l, kp, v)
    | Diverge => True
    | _ => False
    end.

(** The evicted keys are counted, modulo 2^64. *)
Definition counted s s' (d d' : DB) : Prop :=
  ∃ n : nat, size (kv d) = (size (kv d') + n)%nat ∧
    u64 (evicted_keys_ (evictor_ s')) = u64 (evicted_keys_ (evictor_ s) + Z.of_nat n).

Definition evict_post (s : Service DT ET) (d : DB) (b : bool) (s' : Service DT ET) : Prop :=
  ∃ d', svc_is s' d' ∧ pool_ok s' ∧ shrunk d d' ∧ evict_kept s s' ∧ counted s s' d d' ∧
        (b = false → kv d' = ∅).

Lemma evict_post_refl s d b :
  svc_is s d → pool_ok s → (b = false → kv d = ∅) → evict_post s d b s.
Proof.
  intros Hs Hp Hb. exists d. split_and!; try done.
  exists 0%nat. split; [lia|]. by rewrite Z.add_0_r.
Qed.

Lemma evict_post_step s s1 s2 d k b s' :
  svc_is s1 d → evict_kept s s1 → evicted_keys_ (evictor_ s1) = evicted_keys_ (evictor_ s) →
  is_Some (kv d !! k) → evict_kept s1 s2 →
  evicted_keys_ (evictor_ s2) = u64 (evicted_keys_ (evictor_ s1) + 1) →
  evict_post s2 (db_erase k d) b s' → evict_post s d b s'.
Proof.
  intros Hs1 Hk1 He1 [c Hc] Hk2 He2 (d'&Hs'&Hp'&Hsh&Hk'&(n&Hn&Hcnt)&Hb). exists d'.
  split_and!; try done.
  - eapply shrunk_trans; [apply shrunk_erase|done].
  - by do 2 (etransitivity; [done|]).
  - exists (S n). simpl in Hn. split.
    + rewrite map_size_delete_Some in Hn by eauto.
      assert (size (kv d) ≠ 0%nat); [|lia].
      intros H0'. apply map_size_empty_inv in H0'. by rewrite H0', lookup_empty in Hc.
    + rewrite Hcnt, He2, He1. unfold u64. rewrite Zplus_mod_idemp_l. f_equal. lia.
Qed.

Lemma count_erase s d k :
  svc_is s d → is_Some (kv d !! k) → ∀ s2, svc_is s2 (db_erase k d) →
  t_Count (data_ht_ s2) = t_Count (data_ht_ s) - 1.
Proof.
  intros Hs [c Hc] s2 Hs2. rewrite (svc_is_size _ _ Hs), (svc_is_size _ _ Hs2). simpl.
  rewrite map_size_delete_Some by eauto.
  assert (size (kv d) ≠ 0%nat); [|lia].
  intros H0'. apply map_size_empty_inv in H0'. by rewrite H0', lookup_empty in Hc.
Qed.

Lemma view_kv s d k l kp v :
  svc_is s d → t_view (data_ht_ s) !! k = Some (l, kp, v) → is_Some (kv d !! k).
Proof.
  intros Hs Hl. pose proof (is_kv _ _ Hs k) as Hk. rewrite Hl in Hk.
  destruct Hk as (?&?&_&_&->). eauto.
Qed.

Lemma count_zero s d : svc_is s d → t_Count (data_ht_ s) = 0 → kv d = ∅.
Proof.
  intros Hs Hz. rewrite (svc_is_size _ _ Hs) in Hz. apply map_size_empty_inv. lia.
Qed.

(** The eviction loop never fails: it removes keys and nothing else, and
    gives up only when there is none left. *)
Lemma evict_loop_spec pick fuel n freed rands s d :
  picks pick → svc_is s d → pool_ok s → t_Count (data_ht_ s) < Z.of_nat fuel →
  match evict_loop pick fuel n freed rands s with
  | Ok (b, _, s') => evict_post s d b s'
  | Diverge => True
  | Fault _ => False
  end.
Proof.
  intros Hpick. revert freed rands s d. induction fuel as [|fuel IH]; intros freed rands s d Hs Hp Hf.
  { rewrite (svc_is_size _ _ Hs) in Hf. lia. }
  cbn [evict_loop]. destruct (freed <? n); [|by apply evict_post_refl].
  destruct (Z.eqb_spec (t_Count (data_ht_ s)) 0) as [Hz|Hz].
  { apply evict_post_refl; [done|done|]. intros _. by eapply count_zero. }
  assert (0 < t_Count (data_ht_ s)) as Hpos by (rewrite (svc_is_size _ _ Hs) in *; lia).
  specialize (Hpick rands s d Hs Hp Hpos).
  destruct (pick rands s) as [[[[l|] rands'] s1]|?|]; [|done..]. cbn [mbind outcome_bind].
  destruct Hpick as (Hs1&Hp1&Hk1&He1&k&kp&v&Hl).
  destruct (evict_entry_spec k l kp v s1 d Hs1 Hl) as (s2&Heq&Hs2&Hk2&Hpool&He2).
  rewrite (bind_Ok _ _ _ Heq). cbn beta zeta.
  pose proof (view_kv _ _ _ _ _ _ Hs1 Hl) as Hkv.
  assert (t_Count (data_ht_ s1) = t_Count (data_ht_ s)) as Hc1
    by (by rewrite (svc_is_size _ _ Hs1), (svc_is_size _ _ Hs)).
  pose proof (count_erase s1 d k Hs1 Hkv s2 Hs2) as Hc2.
  specialize (IH (u64 (freed + u64 (mallocator_bytes s1 - mallocator_bytes s2))) rands' s2 _ Hs2).
  assert (pool_ok s2) as Hp2 by (unfold pool_ok in *; by rewrite Hpool).
  specialize (IH Hp2 ltac:(lia)).
  destruct (evict_loop pick fuel n _ rands' s2) as [[[b rs] s']|?|]; try done.
  by eapply (evict_post_step s s1 s2 d k).
Qed.

Lemma pick_random_picks : picks pick_random.
Proof.
  intros rands s d Hs Hp Hc. unfold pick_random.
  pose proof (t_GetRandomEntry_ok rands (data_ht_ s) (is_data _ _ Hs) Hc) as Hr.
  by destruct (t_GetRandomEntry rands (data_ht_ s)) as [[[l|] ?]|?|].
Qed.

(** ** Old entries *)

(** States that differ in the pool and in how the data table is laid out. *)
Definition scanned (d : DB) s s' : Prop :=
  svc_is s' d ∧ evict_kept s s' ∧ evicted_keys_ (evictor_ s') = evicted_keys_ (evictor_ s) ∧
  t_view (data_ht_ s') = t_view (data_ht_ s).

Lemma scanned_trans d s1 s2 s3 : scanned d s1 s2 → scanned d s2 s3 → scanned d s1 s3.
Proof.
  intros (?&Hk1&?&?) (?&Hk2&?&?). split; [done|].
  split; [by etransitivity|split; congruence].
Qed.

Lemma scanned_pool d s p : svc_is s d → scanned d s (set_pool p s).
Proof.
  intros Hs. split; [|done]. by apply (svc_is_ext s); try apply Hs.
Qed.

Lemma scanned_count d s s' :
  svc_is s d → scanned d s s' → t_Count (data_ht_ s') = t_Count (data_ht_ s).
Proof.
  intros Hs (Hs'&_). by rewrite (svc_is_size _ _ Hs), (svc_is_size _ _ Hs').
Qed.

Lemma sample_loop_spec n rands s d :
  svc_is s d → 0 < t_Count (data_ht_ s) → pool_sorted (eviction_pool_ (evictor_ s)) →
  match sample_loop n rands s with
  | Ok (_, s') => scanned d s s' ∧ pool_sorted (eviction_pool_ (evictor_ s'))
  | Diverge => True
  | Fault _ => False
  end.
Proof.
  revert rands s. induction n as [|n IH]; intros rands s Hs Hc Hp; cbn [sample_loop]; [done|].
  pose proof (t_GetRandomEntry_ok rands (data_ht_ s) (is_data _ _ Hs) Hc) as Hr.
  destruct (t_GetRandomEntry rands (data_ht_ s)) as [[[l|] rands']|?|]; try done.
  cbn [mbind outcome_bind]. destruct Hr as (k&kp&v&Hl).
  rewrite cassert_true by (by apply bool_decide_eq_true). cbn [mbind outcome_bind deref].
  rewrite (t_CopyKey_ok _ _ _ _ _ (is_data _ _ Hs) Hl). cbn [mbind outcome_bind].
  set (s1 := set_pool _ s). assert (scanned d s s1) as H1 by by apply scanned_pool.
  specialize (IH rands' s1 (proj1 H1) Hc (pool_emplace_sorted _ _ Hp)).
  by destruct (sample_loop n rands' s1) as [[rs s2]|?|].
Qed.

(** Dropping outdated elements of the pool finds a live entry or empties it. *)
Lemma scan_pool_spec fuel s d :
  svc_is s d → pool_sorted (eviction_pool_ (evictor_ s)) →
  length (eviction_pool_ (evictor_ s)) = fuel →
  ∃ r s', scan_pool fuel s = Ok (r, s') ∧ scanned d s s' ∧
    pool_sorted (eviction_pool_ (evictor_ s')) ∧
    match r with
    | Some l => (length (eviction_pool_ (evictor_ s')) < fuel)%nat ∧
                ∃ k kp v, t_view (data_ht_ s') !! k = Some (l, kp, v)
    | None => eviction_pool_ (evictor_ s') = []
    end.
Proof.
  revert s. induction fuel as [|fuel IH]; intros s Hs Hp Hlen.
  { cbn [scan_pool]. apply nil_length_inv in Hlen. rewrite Hlen. exists None, s.
    split; [done|]. by rewrite Hlen in *. }
  cbn [scan_pool]. destruct (eviction_pool_ (evictor_ s)) as [|[lru kp] pool] eqn:Epool; [done|].
  simpl in Hlen. apply StronglySorted_inv in Hp as [Hp _].
  destruct (find_data (k_data kp) s d Hs) as (e&dt&Heq&Hs1&Hr&He). step Heq. cbv zeta.
  set (s1 := with_data dt s) in *.
  assert (∀ p, scanned d s (set_pool p s1)) as Hsc.
  { intros p. apply (scanned_trans d s s1); [|by apply scanned_pool].
    split; [done|]. destruct Hr as (?&?&?&?&_). by split_and!. }
  assert (∀ s', scanned d (set_pool pool s1) s' → scanned d s s') as Htr
    by (intros s'; by apply scanned_trans).
  specialize (IH (set_pool pool s1) (proj1 (Hsc pool)) Hp ltac:(simpl in *; lia)).
  destruct IH as (r&s'&Hscan&Hs'&Hp'&Hres).
  assert (∃ r s', scan_pool fuel (set_pool pool s1) = Ok (r, s') ∧ scanned d s s' ∧
    pool_sorted (eviction_pool_ (evictor_ s')) ∧
    match r with
    | Some l => (length (eviction_pool_ (evictor_ s')) < S fuel)%nat ∧
                ∃ k kp v, t_view (data_ht_ s') !! k = Some (l, kp, v)
    | None => eviction_pool_ (evictor_ s') = []
    end) as Hskip.
  { exists r, s'. split; [done|]. split; [by apply Htr|]. split; [done|].
    destruct r; [|done]. destruct Hres. split; [lia|done]. }
  destruct (kv d !! k_data kp) as [c|].
  - destruct He as (l&x&->&[kp' Hl]&_).
    rewrite (t_CopyKey_ok _ _ _ _ _ (is_data _ _ Hs1) Hl). cbn [mbind outcome_bind].
    destruct (GetLRU kp' s1 =? lru); [|done].
    exists (Some l), (set_pool pool s1). split; [done|]. split; [done|]. split; [done|].
    simpl in *. split; [lia|]. by eauto.
  - rewrite He. cbn [mbind outcome_bind]. done.
Qed.

Lemma sorted_take n (pool : list (Z * KeyPtr)) : pool_sorted pool → pool_sorted (take n pool).
Proof.
  intros Hp. revert n. induction Hp as [|x pool Hs IH Hx]; intros [|n]; try constructor.
  - apply IH.
  - by apply Forall_take.
Qed.

Lemma old_entry_loop_spec fuel samples rands s d :
  svc_is s d → 0 < t_Count (data_ht_ s) → pool_sorted (eviction_pool_ (evictor_ s)) →
  match old_entry_loop fuel samples rands s with
  | Ok (Some l, _, s') => scanned d s s' ∧ pool_ok s' ∧
      ∃ k kp v, t_view (data_ht_ s') !! k = Some (l, kp, v)
  | Diverge => True
  | _ => False
  end.
Proof.
  revert rands s. induction fuel as [|fuel IH]; intros rands s Hs Hc Hp; cbn [old_entry_loop]; [done|].
  set (n := Z.to_nat _). pose proof (sample_loop_spec n rands s d Hs Hc Hp) as Hl.
  destruct (sample_loop n rands s) as [[rands' s1]|?|]; try done. cbn [mbind outcome_bind].
  destruct Hl as [H1 Hp1]. set (s2 := set_pool _ s1).
  assert (scanned d s s2) as H2
    by (eapply scanned_trans; [done|]; apply scanned_pool; apply H1).
  destruct (scan_pool_spec _ s2 d (proj1 H2) (sorted_take _ _ Hp1) eq_refl)
    as (r&s3&Hscan&H3&Hp3&Hres). rewrite (bind_Ok _ _ _ Hscan). cbn beta iota.
  assert (scanned d s s3) as H13 by by eapply scanned_trans. destruct r as [l|].
  - destruct Hres as [Hlen Hlive]. split; [done|]. split; [|done]. split; [done|].
    simpl in Hlen. rewrite length_take in Hlen. unfold kEvictionPoolLimit in *. lia.
  - assert (pool_sorted (eviction_pool_ (evictor_ s3))) as Hp3' by done.
    specialize (IH rands' s3 (proj1 H3)). rewrite (scanned_count d s s3) in IH by done.
    specialize (IH Hc Hp3').
    destruct (old_entry_loop fuel samples rands' s3) as [[[[l|] ?] s4]|?|]; try done.
    destruct IH as (H4&?&?). split; [by eapply scanned_trans|done].
Qed.

Lemma pick_old_picks : picks pick_old.
Proof.
  intros rands s d Hs [Hp Hlen] Hc. unfold pick_old, GetSomeOldEntry.
  rewrite (cassert_true (_ <? _)%nat) by by apply Nat.ltb_lt.
  rewrite (cassert_true (0 <? _)) by by apply Z.ltb_lt. cbn [mbind outcome_bind].
  set (n := S (length rands)). set (m := maxmemory_samples_ _).
  pose proof (old_entry_loop_spec n m rands s d Hs Hc Hp) as Hl.
  destruct (old_entry_loop n m rands s) as [[[[l|] ?] s']|?|]; try done.
  by destruct Hl as ((?&?&?&_)&?&?).
Qed.

(** ** [Evict] *)

Lemma Evict_spec n rands s d :
  svc_is s d → pool_ok s → n ≠ 0 →
  match Evict n rands s with
  | Ok (b, _, s') =>
      match maxmemory_policy_ (evictor_ s) with
      | kNoEviction => b = false ∧ s' = s
      | _ => evict_post s d b s'
      end
  | Diverge => True
  | Fault _ => False
  end.
Proof.
  intros Hs Hp Hn. unfold Evict.
  rewrite (cassert_true (negb (n =? 0))) by (apply negb_true_iff, Z.eqb_neq; done).
  cbn [mbind outcome_bind]. cbv zeta.
  assert (t_Count (data_ht_ s) < Z.of_nat (S (Z.to_nat (t_Count (data_ht_ s))))) as Hf
    by (rewrite (svc_is_size _ _ Hs); lia).
  destruct (maxmemory_policy_ (evictor_ s)); [done| |].
  - by apply evict_loop_spec; [apply pick_random_picks|..].
  - by apply evict_loop_spec; [apply pick_old_picks|..].
Qed.

(** ** Eviction returns once enough values are drawn

    A search that returned leaves the draws it did not use, and any list of
    draws can be continued so that the search returns: the loops stop unless
    [std::rand] misses every key for ever. *)

Definition stable (pick : list Z → Service DT ET → Outcome (option loc * list Z * Service DT ET))
    : Prop :=
  ∀ rands s o rest s' more, pick rands s = Ok (o, rest, s') →
    pick (rands ++ more) s = Ok (o, rest ++ more, s').
Definition returns (pick : list Z → Service DT ET → Outcome (option loc * list Z * Service DT ET))
    (good : Service DT ET → Prop) : Prop :=
  ∀ rands s d, svc_is s d → pool_ok s → 0 < t_Count (data_ht_ s) → good s →
    ∃ more x, pick (rands ++ more) s = Ok x.

Lemma pick_random_stable : stable pick_random.
Proof.
  intros rands s o rest s' more. unfold pick_random.
  intros ([x r] & Hx & [= <- <- <-])%bind_Ok_inv. by step (t_GetRandomEntry_stable _ _ _ _ more Hx).
Qed.

Lemma pick_random_returns : returns pick_random (λ _, True).
Proof.
  intros rands s d Hs _ Hc _. unfold pick_random.
  destruct (t_GetRandomEntry_returns rands _ (is_data _ _ Hs) Hc) as (more & [o r] & Hx).
  exists more. eexists. by step Hx.
Qed.

Lemma sample_loop_stable n rands s rest s' more :
  sample_loop n rands s = Ok (rest, s') → sample_loop n (rands ++ more) s = Ok (rest ++ more, s').
Proof.
  revert rands s. induction n as [|n IH]; intros rands s; cbn [sample_loop]; [by intros [= <- <-]|].
  intros ([o r] & Hx & Hb)%bind_Ok_inv. step (t_GetRandomEntry_stable _ _ _ _ more Hx).
  apply bind_Ok_inv in Hb as (u & Hu & Hb). step Hu.
  apply bind_Ok_inv in Hb as (l & Hl & Hb). step Hl.
  apply bind_Ok_inv in Hb as (kp & Hkp & Hb). step Hkp. by apply IH.
Qed.

Lemma old_entry_loop_stable fuel fuel' samples rands s o rest s' more :
  (fuel ≤ fuel')%nat → old_entry_loop fuel samples rands s = Ok (o, rest, s') →
  old_entry_loop fuel' samples (rands ++ more) s = Ok (o, rest ++ more, s').
Proof.
  revert fuel' rands s. induction fuel as [|fuel IH]; intros [|fuel'] rands s Hf;
    cbn [old_entry_loop]; [done..|lia|].
  intros ([r s1] & Hx & Hb)%bind_Ok_inv. step (sample_loop_stable _ _ _ _ _ more Hx). cbv zeta in Hb.
  apply bind_Ok_inv in Hb as ([o' s2] & Ho & Hb). step Ho.
  destruct o' as [l|]; [by simplify_eq|]. apply IH; [lia|done].
Qed.

Lemma pick_old_stable : stable pick_old.
Proof.
  intros rands s o rest s' more. unfold pick_old, GetSomeOldEntry.
  intros (u & Hu & Hb)%bind_Ok_inv. step Hu.
  apply bind_Ok_inv in Hb as (w & Hw & Hb). step Hw.
  eapply old_entry_loop_stable; [|done]. rewrite length_app. lia.
Qed.

(** Elements of the pool that are up to date. *)
Definition current (s : Service DT ET) (x : Z * KeyPtr) : Prop :=
  ∃ l kp v, t_view (data_ht_ s) !! k_data x.2 = Some (l, kp, v) ∧ GetLRU kp s = x.1.

Lemma pool_emplace_ne x pool : pool_emplace x pool ≠ [].
Proof. destruct pool as [|y pool]; simpl; [done|]. by repeat destruct (_ <? _). Qed.

(** Sampling returns when enough values are drawn; into a pool that is up to
    date it draws elements that are. *)
Lemma sample_loop_returns n rands s d :
  svc_is s d → 0 < t_Count (data_ht_ s) →
  ∃ more rest s', sample_loop n (rands ++ more) s = Ok (rest, s') ∧
    (Forall (current s) (eviction_pool_ (evictor_ s)) →
     Forall (current s') (eviction_pool_ (evictor_ s')) ∧
     ((0 < n)%nat ∨ eviction_pool_ (evictor_ s) ≠ [] → eviction_pool_ (evictor_ s') ≠ [])).
Proof.
  revert rands s. induction n as [|n IH]; intros rands s Hs Hc; cbn [sample_loop].
  { exists [], (rands ++ []), s. split; [done|]. intros. split; [done|]. intros [?|?]; [lia|done]. }
  destruct (t_GetRandomEntry_returns rands _ (is_data _ _ Hs) Hc) as (m1 & [o r] & Hx).
  pose proof (t_GetRandomEntry_ok (rands ++ m1) _ (is_data _ _ Hs) Hc) as Hl. rewrite Hx in Hl.
  destruct o as [l|]; [|done]. destruct Hl as (k & kp & v & Hl).
  set (s1 := set_pool (pool_emplace (GetLRU kp s, kp) (eviction_pool_ (evictor_ s))) s).
  destruct (IH r s1) as (m2 & rest & s' & Hloop & Hcur); [by apply (scanned_pool d)|done|].
  exists (m1 ++ m2), rest, s'. rewrite app_assoc. split.
  - step (t_GetRandomEntry_stable _ _ _ _ m2 Hx).
    rewrite cassert_true by (by apply bool_decide_eq_true). cbn [mbind outcome_bind deref].
    by step (t_CopyKey_ok _ _ _ _ _ (is_data _ _ Hs) Hl).
  - intros Hall. destruct Hcur as [H1' H2'].
    + apply Forall_forall. intros x [->|Hx']%pool_emplace_elem.
      * exists l, kp, v. split; [|done]. simpl.
        by rewrite (t_key_ok _ _ _ _ _ (is_data _ _ Hs) Hl).
      * by apply (proj1 (Forall_forall _ _) Hall).
    + split; [done|]. intros _. apply H2'. right. apply pool_emplace_ne.
Qed.

(** A pool whose first element is up to date has a victim. *)
Lemma scan_pool_current s d x pool fuel :
  svc_is s d → eviction_pool_ (evictor_ s) = x :: pool → current s x →
  ∃ l s', scan_pool (S fuel) s = Ok (Some l, s').
Proof.
  intros Hs Hpool (l & kp & v & Hl & Hlru). destruct x as [lru kp0]. cbn [scan_pool]. rewrite Hpool.
  destruct (t_Find_ok (k_data kp0) _ (is_data _ _ Hs)) as (dt & Hfind & Hok & Hv).
  step Hfind. cbn [snd] in Hl. rewrite Hl. cbn [fmap option_fmap option_map compose fst].
  rewrite <- Hv in Hl. cbn [data_ht_ with_data].
  rewrite (t_CopyKey_ok _ _ _ _ _ Hok Hl). cbn [mbind outcome_bind].
  change (GetLRU kp (with_data dt s)) with (GetLRU kp s). rewrite Hlru. cbn [fst].
  rewrite Z.eqb_refl. by eexists _, _.
Qed.
(** A second round of samples starts from an empty pool, so it always has a
    victim. *)
Lemma second_round samples rands s d :
  svc_is s d → 0 < t_Count (data_ht_ s) → 0 < samples → eviction_pool_ (evictor_ s) = [] →
  ∃ more x, ∀ fuel, old_entry_loop (S fuel) samples (rands ++ more) s = Ok x.
Proof.
  intros Hs Hc Hn Hpool. set (n := Z.to_nat (Z.min samples (t_Count (data_ht_ s)))).
  destruct (sample_loop_returns n rands s d Hs Hc) as (more & rest & s1 & Hx & Hcur).
  rewrite Hpool in Hcur. destruct (Hcur (Forall_nil_2 _)) as [Hall Hne].
  specialize (Hne ltac:(left; lia)).
  pose proof (sample_loop_spec n (rands ++ more) s d Hs Hc) as Hspec.
  rewrite Hx, Hpool in Hspec. destruct Hspec as [H1 _]; [constructor|].
  destruct (eviction_pool_ (evictor_ s1)) as [|x pool] eqn:E; [done|].
  destruct (scan_pool_current (set_pool (take kEvictionPoolLimit (x :: pool)) s1) d x
    (take (Nat.pred kEvictionPoolLimit) pool) (Nat.pred (length (take kEvictionPoolLimit (x :: pool)))))
    as (l & s2 & Hscan); [by apply scanned_pool, H1|done|by apply Forall_cons in Hall as [? _]|].
  exists more. eexists. intros fuel. cbn [old_entry_loop]. step Hx. rewrite E. cbv zeta.
  cbn [set_pool evictor_ with_evictor eviction_pool_] in *. step Hscan. done.
Qed.

Lemma pick_old_returns : returns pick_old (λ s, 0 < maxmemory_samples_ (evictor_ s)).
Proof.
  intros rands s d Hs [Hp Hlen] Hc Hn. unfold pick_old, GetSomeOldEntry.
  set (m := maxmemory_samples_ _) in *. set (n := Z.to_nat (Z.min m (t_Count (data_ht_ s)))).
  rewrite (cassert_true (_ <? _)%nat) by by apply Nat.ltb_lt.
  rewrite (cassert_true (0 <? _)) by by apply Z.ltb_lt. cbn [mbind outcome_bind].
  destruct (sample_loop_returns n rands s d Hs Hc) as (m1 & rest & s1 & Hx & _).
  pose proof (sample_loop_spec n (rands ++ m1) s d Hs Hc Hp) as Hl. rewrite Hx in Hl.
  destruct Hl as [H1 Hp1]. set (s2 := set_pool (take kEvictionPoolLimit (eviction_pool_ (evictor_ s1))) s1).
  assert (scanned d s s2) as H2
    by (eapply scanned_trans; [done|]; apply scanned_pool; apply H1).
  destruct (scan_pool_spec _ s2 d (proj1 H2) (sorted_take _ _ Hp1) eq_refl)
    as (r & s3 & Hscan & H3 & _ & Hres). destruct r as [l|].
  { exists m1. eexists. cbn [old_entry_loop]. fold n. step Hx. cbv zeta. fold s2. by step Hscan. }
  assert (scanned d s s3) as H13 by by eapply scanned_trans.
  pose proof (scanned_count d s s3 Hs H13) as Hcount.
  destruct (second_round m rest s3 d (proj1 H3)) as (m2 & [[o r] s4] & Hrun); [by rewrite Hcount|done|done|].
  exists (m1 ++ m2 ++ [0]). eexists. rewrite (app_assoc rands).
  assert (∃ g, length ((rands ++ m1) ++ m2 ++ [0]) = g ∧ (1 ≤ g)%nat) as (g & -> & Hg)
    by (eexists; split; [done|]; rewrite !length_app; simpl; lia).
  cbn [old_entry_loop]. fold n. step (sample_loop_stable _ _ _ _ _ (m2 ++ [0]) Hx). cbv zeta. fold s2.
  step Hscan. rewrite app_assoc. eapply (old_entry_loop_stable 1); [done|apply Hrun].
Qed.

Lemma evict_loop_returns pick good fuel n freed rands s d :
  picks pick → stable pick → returns pick good →
  (∀ s s', evict_kept s s' → good s → good s') →
  svc_is s d → pool_ok s → good s → t_Count (data_ht_ s) < Z.of_nat fuel →
  ∃ more x, evict_loop pick fuel n freed (rands ++ more) s = Ok x.
Proof.
  intros Hpick Hst Hret Hgood. revert freed rands s d.
  induction fuel as [|fuel IH]; intros freed rands s d Hs Hp Hg Hf.
  { rewrite (svc_is_size _ _ Hs) in Hf. lia. }
  cbn [evict_loop]. destruct (freed <? n); [|by exists []; eexists].
  destruct (Z.eqb_spec (t_Count (data_ht_ s)) 0) as [Hz|Hz]; [by exists []; eexists|].
  assert (0 < t_Count (data_ht_ s)) as Hpos by (rewrite (svc_is_size _ _ Hs) in *; lia).
  destruct (Hret rands s d Hs Hp Hpos Hg) as (m1 & [[o rest] s1] & Hx).
  pose proof (Hpick (rands ++ m1) s d Hs Hp Hpos) as Hpost. rewrite Hx in Hpost.
  destruct o as [l|]; [|done]. destruct Hpost as (Hs1&Hp1&Hk1&_&k&kp&v&Hl).
  destruct (evict_entry_spec k l kp v s1 d Hs1 Hl) as (s2&Heq&Hs2&Hk2&Hpool&_).
  pose proof (count_erase s1 d k Hs1 (view_kv _ _ _ _ _ _ Hs1 Hl) s2 Hs2) as Hc2.
  assert (t_Count (data_ht_ s1) = t_Count (data_ht_ s)) as Hc1
    by (by rewrite (svc_is_size _ _ Hs1), (svc_is_size _ _ Hs)).
  destruct (IH (u64 (freed + u64 (mallocator_bytes s1 - mallocator_bytes s2))) rest s2 _ Hs2)
    as (m2 & x & Hloop); [by unfold pool_ok in *; rewrite Hpool|by eauto|lia|].
  exists (m1 ++ m2), x. rewrite app_assoc. step (Hst _ _ _ _ _ m2 Hx). by step Heq.
Qed.

(** Without samples the search for an old entry never ends. *)
Theorem no_samples_no_victim rands s :
  eviction_pool_ (evictor_ s) = [] → 0 < t_Count (data_ht_ s) → GetSomeOldEntry 0 rands s = Diverge.
Proof.
  intros Hp Hc. unfold GetSomeOldEntry.
  rewrite (cassert_true (_ <? _)%nat) by (by rewrite Hp).
  rewrite (cassert_true (0 <? _)) by by apply Z.ltb_lt. cbn [mbind outcome_bind].
  set (fuel := S (length rands)). clearbody fuel. revert s Hp Hc.
  induction fuel as [|fuel IH]; intros s Hp Hc; [done|]. cbn [old_entry_loop].
  rewrite Z.min_l by lia. change (Z.to_nat 0) with 0%nat. cbn [sample_loop mbind outcome_bind].
  cbv zeta. rewrite Hp, take_nil. by apply IH.
Qed.

(** With the default and any other positive number of samples. *)
Lemma Evict_returns n rands s d :
  svc_is s d → pool_ok s → n ≠ 0 → 0 < maxmemory_samples_ (evictor_ s) →
  ∃ more x, Evict n (rands ++ more) s = Ok x.
Proof.
  intros Hs Hp Hn Hm. unfold Evict.
  rewrite (cassert_true (negb (n =? 0))) by (apply negb_true_iff, Z.eqb_neq; done).
  cbn [mbind outcome_bind]. cbv zeta.
  assert (t_Count (data_ht_ s) < Z.of_nat (S (Z.to_nat (t_Count (data_ht_ s))))) as Hf
    by (rewrite (svc_is_size _ _ Hs); lia).
  destruct (maxmemory_policy_ (evictor_ s)); [by exists []; eexists| |].
  - by eapply (evict_loop_returns _ (λ _, True)); eauto using pick_random_picks, pick_random_stable,
      pick_random_returns.
  - eapply evict_loop_returns; eauto using pick_old_picks, pick_old_stable, pick_old_returns.
    intros s1 s2 Hk. simpl. unfold evict_kept in Hk. destruct_and!. by congruence.
Qed.
End eviction_spec.
