(* ===== verification/KeyCommands.v ===== *)
(** * Key, miscellaneous and client commands

    The handlers of src/src/service/commands/key_commands.cc,
    misc_commands.cc and client_commands.cc.  What INFO prints about the
    process, the system and the other components is a parameter. *)

From S2P Require Import Prelude Chars Config Table Replier HashTable Service StringCommands.

(** The values INFO reads from the operating system, the clocks, the server
    and the client manager; the last is how the stream prints
    [expired_stale_perc / 100.0]. *)
Record InfoEnv := mkInfoEnv {
  getpid : Z;
  server_time_usec : Z;
  clock_now : Z;
  start_time : Z;
  connected_clients : Z;
  max_input_buffer : Z;
  max_output_buffer : Z;
  used_memory : Z;
  ru_maxrss : option Z;
  used_memory_peak : Z;
  totalram : option Z;
  connections_received : Z;
  net_input_bytes : Z;
  net_output_bytes : Z;
  rejected_connections : Z;
  show_hundredth : Z → bytes }.

Section handlers.
Context {DT ET : Type} `{!Table MTSPtr DT} `{!Table Z ET} `{!BuildMode}.
Implicit Types s : Service DT ET.
Abbreviation Handler := (list bytes → Result → Service DT ET → Outcome (Result * Service DT ET)).

(** ** Keys *)

(** [duration_cast] of milliseconds to seconds truncates. *)
Definition TtlFunction : Handler := λ args result s,
  if (2 <? length args)%nat then wrong_arg_num result s
  else
    key ← arg args 1;
    '(data_entry, d) ← t_Find key (data_ht_ s);
    let s := with_data d s in
    match data_entry with
    | None => Ok (SetInt (-2) result, s)
    | Some _ =>
        '(expire_entry, e) ← t_Find key (expire_ht_ s);
        let s := with_expire e s in
        match expire_entry with
        | None => Ok (SetInt (-1) result, s)
        | Some l =>
            let cmd_time := GetCommandTimeSnapshot s in
            v ← t_value l (expire_ht_ s);
            if v <=? cmd_time then
              '(_, d) ← t_Erase key (data_ht_ s);
              let s := with_data d s in
              '(_, e) ← t_Erase key (expire_ht_ s);
              Ok (SetInt (-2) result, with_expire e s)
            else
              diff ← chk_i64 (v - cmd_time);
              Ok (SetInt (Z.quot diff 1000) result, s)
        end
    end.

Fixpoint del_loop (args : list bytes) (deleted : Z) s : Outcome (Z * Service DT ET) :=
  match args with
  | [] => Ok (deleted, s)
  | key :: args =>
      '(entry, s) ← FindOrExpire key s;
      match entry with
      | None => del_loop args deleted s
      | Some _ =>
          s ← EraseKey (KArg key) s;
          if deleted + 1 <? 2 ^ 31 then del_loop args (deleted + 1) s
          else Fault SignedOverflow
      end
  end.

Definition DelFunction : Handler := λ args result s,
  if (length args <? 2)%nat then wrong_arg_num result s
  else
    '(deleted, s) ← del_loop (drop 1 args) 0 s;
    Ok (SetInt deleted result, s).

(** ** Miscellaneous *)

Definition DbSizeFunction : Handler := λ args result s,
  Ok (SetInt (i32 (t_Count (data_ht_ s))) result, s).

Definition nl : bytes := [LF].
Definition field (name : string) (v : Z) : bytes := lit name ++ to_chars v ++ nl.

Definition CollectServerInfo (env : InfoEnv) s : bytes :=
  let uptime := clock_now env - start_time env in
  lit "# Server" ++ nl ++
  lit "multiplexing_api:io_uring" ++ nl ++
  field "process_id:" (getpid env) ++
  field "tcp_port:" (port (config_ s)) ++
  field "server_time_usec:" (server_time_usec env) ++
  field "uptime_in_seconds:" (Z.quot uptime 1000) ++
  field "uptime_in_days:" (Z.quot uptime 86400000) ++
  field "hz:" (hz (config_ s)) ++
  field "configured_hz:" (hz (config_ s)) ++ nl.

Definition CollectClientsInfo (env : InfoEnv) s : bytes :=
  lit "# Clients" ++ nl ++
  field "connected_clients:" (connected_clients env) ++
  field "maxclients:" (maxclients (config_ s)) ++
  field "client_recent_max_input_buffer:" (max_input_buffer env) ++
  field "client_recent_max_output_buffer:" (max_output_buffer env) ++ nl.

Definition CollectMemoryInfo (env : InfoEnv) : bytes :=
  lit "# Memory" ++ nl ++
  field "used_memory:" (used_memory env) ++
  match ru_maxrss env with None => [] | Some v => field "used_memory_rss:" v end ++
  field "used_memory_peak:" (used_memory_peak env) ++
  match totalram env with None => [] | Some v => field "total_system_memory:" v end ++
  nl.

Definition CollectStatsInfo (env : InfoEnv) s : bytes :=
  lit "# Stats" ++ nl ++
  field "total_connections_received:" (connections_received env) ++
  field "total_commands_processed:" (commands_processed s) ++
  field "total_net_input_bytes:" (net_input_bytes env) ++
  field "total_net_output_bytes:" (net_output_bytes env) ++
  field "rejected_connections:" (rejected_connections env) ++
  field "expired_keys:" (active_expired_keys (expirer_ s)) ++
  lit "expired_stale_perc:" ++ show_hundredth env (expired_stale_perc (expirer_ s)) ++ nl ++
  field "expired_time_cap_reached_count:" (expired_time_cap_reached_count (expirer_ s)) ++
  field "expire_cycle_cpu_milliseconds:" (Z.quot (i64 (elapsed_time (expirer_ s))) 1000000) ++
  field "evicted_keys:" (evicted_keys_ (evictor_ s)) ++
  nl.

Definition CollectKeyspaceInfo s : bytes :=
  lit "# Keyspace" ++ nl ++
  lit "db0: keys=" ++ to_chars (t_Count (data_ht_ s)) ++
  lit ",expires=" ++ to_chars (t_Count (expire_ht_ s)) ++ nl ++ nl.

(** One argument of INFO: the section it names, in upper or lower case. *)
Definition info_section (env : InfoEnv) s (a : bytes) : bytes :=
  if bool_decide (a = lit "SERVER") || bool_decide (a = lit "server")
  then CollectServerInfo env s
  else if bool_decide (a = lit "CLIENTS") || bool_decide (a = lit "clients")
  then CollectClientsInfo env s
  else if bool_decide (a = lit "MEMORY") || bool_decide (a = lit "memory")
  then CollectMemoryInfo env
  else if bool_decide (a = lit "STATS") || bool_decide (a = lit "stats")
  then CollectStatsInfo env s
  else if bool_decide (a = lit "KEYSPACE") || bool_decide (a = lit "keyspace")
  then CollectKeyspaceInfo s
  else [].

Definition info_text (env : InfoEnv) (args : list bytes) s : bytes :=
  if (length args =? 1)%nat then
    CollectServerInfo env s ++ CollectClientsInfo env s ++ CollectMemoryInfo env ++
    CollectStatsInfo env s ++ CollectKeyspaceInfo s
  else concat (info_section env s <$> drop 1 args).

Definition InfoFunction (env : InfoEnv) : Handler := λ args result s,
  let '(p, s) := CreateMTSPtr (info_text env args s) s in
  Ok (SetString (Some p) result, s).

Definition CommandFunction : Handler := λ args result s,
  let '(p, s) := CreateMTSPtr (lit " ") s in
  Ok (SetString (Some p) result, s).

Definition ShutdownFunction : Handler := λ args result s,
  if (1 <? length args)%nat then wrong_arg_num result s
  else
    s ← Shutdown s;
    Ok (SetNil result, s).

(** ** Clients *)

Definition HelloFunction : Handler := λ args result s,
  if (length args =? 2)%nat then
    a ← arg args 1;
    if bool_decide (a = lit "3") then Ok (SetOk result, s)
    else Ok (SetError kProtocol result, s)
  else Ok (SetError kProtocol result, s).
End handlers.
