(* ===== verification/KeyCommandsThms.v ===== *)
(** * Correctness of the key, miscellaneous and client commands

    TTL, DEL, DBSIZE, COMMAND, INFO, HELLO, SHUTDOWN, and GETDEL where the key
    object outlives the data entry (or the expire table was never used). *)

From S2P Require Import Prelude Chars Config Table Replier HashTable Service ServiceInv ServiceSpec.
From S2P Require Import StringCommands CommandSpec StringCommandsThms KeyCommands.

Section key_commands.
Context {DT ET : Type} `{!Table MTSPtr DT} `{!Table Z ET} `{!BuildMode}.
Context `{!TableView MTSPtr DT} `{!TableView Z ET} `{!TableLaws MTSPtr DT} `{!TableLaws Z ET}.
Implicit Types s : Service DT ET.

Lemma cmd_post_intro s s' a d' r' :
  svc_is s' d' → kept s s' → reply_is (strs_ s') r' a → cmd_post s (a, d') (Ok (r', s')).
Proof. intros. by exists r', s'. Qed.

Lemma TTL_spec args r s d :
  svc_is s d → time_ok (command_time_snapshot_ s) → length args ≠ 1%nat → args ≠ [] →
  (∀ k e, ttl d !! k = Some e → e ≤ i64_max) →
  cmd_post s (spec_TTL (command_time_snapshot_ s) args d) (TtlFunction args r s).
Proof.
  intros Hs Hnow H1' H0' Hmax. unfold TtlFunction, spec_TTL.
  destruct args as [|c0 [|k [|? ?]]]; try done; [|by apply err_post].
  cbn [length Nat.ltb Nat.leb arg lookup list_lookup mbind outcome_bind].
  destruct (find_data k s d Hs) as (e&dt&Heq&Hs1&Hr1&He). step Heq. cbv zeta.
  set (s1 := with_data dt s) in *.
  destruct (kv d !! k) as [c|] eqn:Hkv.
  2: { subst e. by apply cmd_post_intro; [|apply relaid_kept|]. }
  destruct He as (l&x&->&_&_).
  destruct (t_Find_ok k (expire_ht_ s1)) as (et&Heq2&Hok2&Hv2); [apply Hs1|]. step Heq2.
  set (s2 := with_expire et s1).
  assert (relaid s1 s2) as Hr2 by (unfold relaid; simpl; by rewrite Hv2).
  assert (svc_is s2 d) as Hs2 by (apply (relaid_is s1); try done; apply Hs1).
  assert (kept s s2) as Hk2 by (apply relaid_kept; by etransitivity).
  pose proof (svc_is_ttl_lookup s1 d k Hs1) as Ht.
  destruct (ttl d !! k) as [z|] eqn:Httl.
  2: { rewrite Ht. cbn [fmap option_fmap option_map]. by apply cmd_post_intro. }
  destruct Ht as (l'&kp'&Ht). rewrite Ht. cbn [fmap option_fmap option_map compose fst].
  rewrite <- Hv2 in Ht.
  change (expire_ht_ s2) with et.
  rewrite (bind_Ok _ _ _ (t_value_ok et k l' kp' z Hok2 Ht)). cbn beta.
  change (GetCommandTimeSnapshot s2) with (command_time_snapshot_ s).
  destruct (Z.leb_spec z (command_time_snapshot_ s)).
  - destruct (erase_both k s2 d Hs2) as (b&b'&dt3&et3&E1'&E2'&_&Hs3&_).
    step E1'. cbv zeta. change (expire_ht_ (with_data dt3 s2)) with (expire_ht_ s2).
    step E2'. by apply cmd_post_intro.
  - specialize (Hmax k z Httl). unfold time_ok in Hnow.
    rewrite (bind_Ok _ _ _ (chk_i64_Ok (z - command_time_snapshot_ s)
      ltac:(unfold i64_min; lia))). by apply cmd_post_intro.
Qed.

Lemma db_get_touch now d k c : db_get now d k = Some c → db_touch now k d = d.
Proof. unfold db_get, db_touch. by destruct (expired now d k). Qed.

Lemma del_loop_spec ks n s d :
  svc_is s d → 0 ≤ n → n + Z.of_nat (length ks) < 2 ^ 31 →
  let '(m, d') := del_keys (command_time_snapshot_ s) ks n d in
  ∃ s', del_loop ks n s = Ok (m, s') ∧ svc_is s' d' ∧ kept s s'.
Proof.
  revert n s d. induction ks as [|k ks IH]; intros n s d Hs Hn Hlen; simpl; [by exists s|].
  simpl in Hlen. destruct (FindOrExpire_spec k s d Hs) as (e&s1&Heq&Hs1&Hk1&Hst1&He).
  rewrite (bind_Ok _ _ _ Heq). cbn beta iota. pose proof (kept_time _ _ Hk1) as Ht1.
  destruct (db_get (command_time_snapshot_ s) d k) as [c|] eqn:Hget.
  - destruct He as (l&x&->&_&_). rewrite (db_get_touch _ _ _ _ Hget) in Hs1.
    destruct (EraseKey_arg_spec k s1 d Hs1) as (s2&Heq2&Hk2&_&Hs2).
    rewrite (bind_Ok _ _ _ Heq2). cbn beta. rewrite Zltb_t by lia.
    specialize (IH (n + 1) s2 _ Hs2). rewrite (kept_time _ _ Hk2), Ht1 in IH.
    destruct (del_keys _ ks (n + 1) _) as [m d']. destruct IH as (s'&?&?&?); [lia..|].
    exists s'. split_and!; [done|done|]. by do 2 (etransitivity; [done|]).
  - subst e. specialize (IH n s1 _ Hs1). rewrite Ht1 in IH.
    destruct (del_keys _ ks n _) as [m d']. destruct IH as (s'&?&?&?); [lia..|].
    exists s'. split_and!; [done|done|]. by etransitivity.
Qed.

Lemma DEL_spec args r s d :
  svc_is s d → Z.of_nat (length args) < 2 ^ 31 →
  cmd_post s (spec_DEL (command_time_snapshot_ s) args d) (DelFunction args r s).
Proof.
  intros Hs Hlen. unfold DelFunction, spec_DEL.
  destruct args as [|c [|k ks]]; simpl (length _ <? 2)%nat; cbv iota; try by apply err_post.
  simpl (drop 1 _). pose proof (del_loop_spec (k :: ks) 0 s d Hs) as Hl.
  destruct (del_keys _ (k :: ks) 0 d) as [m d'].
  destruct Hl as (s'&Heq&?&?); [lia|cbn [length] in *; lia|]. rewrite (bind_Ok _ _ _ Heq).
  by apply cmd_post_intro.
Qed.

Lemma DBSIZE_spec args r s d :
  svc_is s d → Z.of_nat (size (kv d)) < 2 ^ 31 →
  cmd_post s (spec_DBSIZE d) (DbSizeFunction args r s).
Proof.
  intros Hs Hsz. unfold DbSizeFunction. rewrite (svc_is_size _ _ Hs), i32_small by lia.
  by apply cmd_post_intro.
Qed.

(** A new string object, in the reply only. *)
Lemma new_string_post c r s d :
  svc_is s d →
  cmd_post s (AStr c, d)
    (let '(p, s) := CreateMTSPtr c s in Ok (SetString (Some p) r, s)).
Proof.
  intros Hs. unfold CreateMTSPtr. apply cmd_post_intro.
  - assert (∀ x v, strs_ s !! x = Some v → <[next_str_ s := c]> (strs_ s) !! x = Some v) as Hold.
    { intros x v Hx. rewrite lookup_insert_ne; [done|]. intros <-.
      assert (next_str_ s < next_str_ s)%positive by (apply (is_fresh _ _ Hs); eauto). lia. }
    destruct Hs as [Hd He Hkv Hinj Hfr Hheld Httl Hsub]. split; simpl; try done.
    + intros k. specialize (Hkv k). destruct (t_view (data_ht_ s) !! k) as [[[??] p]|]; [|done].
      destruct Hkv as (x&v&->&Hx&?). exists x, v. by rewrite (Hold _ _ Hx).
    + intros x. rewrite lookup_insert_is_Some'. intros [->|Hx]; [lia|]. apply Hfr in Hx. lia.
    + intros x Hx. apply Hheld in Hx. rewrite lookup_insert_is_Some'. by right.
  - split; [done|]. intros x Hx. simpl. rewrite lookup_insert_ne; [done|]. intros <-.
    apply (is_held _ _ Hs) in Hx. apply (is_fresh _ _ Hs) in Hx. lia.
  - split; [done|]. simpl. by rewrite lookup_insert_eq.
Qed.

Lemma COMMAND_spec args r s d :
  svc_is s d → cmd_post s (AStr (lit " "), d) (CommandFunction args r s).
Proof. apply new_string_post. Qed.

Lemma INFO_spec env args r s d :
  svc_is s d → cmd_post s (AStr (info_text env args s), d) (InfoFunction env args r s).
Proof. apply new_string_post. Qed.

Lemma HELLO_spec args r s d :
  svc_is s d → cmd_post s (spec_HELLO args d) (HelloFunction args r s).
Proof.
  intros Hs. unfold HelloFunction, spec_HELLO.
  destruct args as [|c [|a [|? ?]]]; try by apply cmd_post_intro.
  2: { rewrite bool_decide_false by done. by apply cmd_post_intro. }
  cbn [length Nat.eqb arg lookup list_lookup mbind outcome_bind]. simpl (drop 1 _).
  destruct (bool_decide_reflect (a = lit "3")) as [->|Hne].
  - by apply cmd_post_intro.
  - rewrite bool_decide_false by congruence. by apply cmd_post_intro.
Qed.

(** SHUTDOWN, which clears the flag of the service. *)
Lemma SHUTDOWN_spec args r s d :
  svc_is s d → active_ s = true →
  ∃ r', ShutdownFunction args r s
        = Ok (r', with_active (1 <? length args)%nat s) ∧
    reply_is (strs_ s) r' (spec_SHUTDOWN args d).1.
Proof.
  intros Hs Ha. unfold ShutdownFunction, spec_SHUTDOWN, Shutdown, wrong_arg_num.
  destruct (1 <? length args)%nat; rewrite ?Ha; cbn [mbind outcome_bind].
  - exists (SetError kWrongArgNum r). split; [|done]. by destruct s; simpl in *; subst.
  - by eexists.
Qed.

(** ** GETDEL *)

(** The view of the key stays valid: the expire table was never used, or its
    entry shares the key object. *)
Definition key_outlives (k : bytes) s : Prop :=
  t_has_buckets (expire_ht_ s) = false ∨
  ∃ l l' kp v v', t_view (data_ht_ s) !! k = Some (l, kp, v) ∧
                  t_view (expire_ht_ s) !! k = Some (l', kp, v').

Lemma FindOrExpire_outlives k s d l s' :
  svc_is s d → FindOrExpire k s = Ok (Some l, s') → key_outlives k s → key_outlives k s'.
Proof.
  intros Hs Heq Hout. unfold FindOrExpire in Heq.
  destruct (t_Find_ok k (data_ht_ s)) as (dt&Hf&Hokd&Hv); [apply Hs|].
  rewrite (bind_Ok _ _ _ Hf) in Heq. cbn beta iota zeta in Heq.
  destruct (fst ∘ fst <$> t_view (data_ht_ s) !! k) as [l0|]; [|done].
  destruct (t_Find_ok k (expire_ht_ s)) as (et&Hfe&Hoke&Hve); [apply Hs|].
  change (expire_ht_ (with_data dt s)) with (expire_ht_ s) in Heq.
  assert (key_outlives k (with_expire et (with_data dt s))) as Hout'.
  { destruct Hout as [Hb|Hsh].
    - left. rewrite (t_Find_no_buckets k _ Hb) in Hfe. injection Hfe as _ <-. done.
    - right. simpl. by rewrite Hv, Hve. }
  rewrite (bind_Ok _ _ _ Hfe) in Heq. cbn beta iota in Heq.
  apply bind_Ok_inv in Heq as (b&_&Heq). destruct b; [by injection Heq as _ <-|].
  by inv_ok.
Qed.

Lemma touch_tables l s s' :
  touch l s = Ok s' → data_ht_ s' = data_ht_ s ∧ expire_ht_ s' = expire_ht_ s.
Proof. unfold touch. intros ?. by inv_ok. Qed.

(** Erasing through the view of the entry's own key. *)
Lemma EraseKey_obj_spec k l x kp s d :
  svc_is s d → t_view (data_ht_ s) !! k = Some (l, kp, x) → key_outlives k s →
  EraseKey (KObj kp) s = EraseKey (KArg k) s.
Proof.
  intros Hs Hl Hout. pose proof (t_key_ok _ _ _ _ _ (is_data _ _ Hs) Hl) as Hk.
  unfold EraseKey. cbn [read_key mbind outcome_bind].
  assert (key_alive kp s = true) as Ha.
  { unfold key_alive. by rewrite (t_key_held_ok _ _ _ _ _ (is_data _ _ Hs) Hl). }
  rewrite Ha. cbn [mbind outcome_bind]. rewrite Hk.
  destruct (t_Erase_ok k (data_ht_ s)) as (dt&He&_&_); [apply Hs|].
  rewrite !(bind_Ok _ _ _ He). cbn beta iota zeta.
  rewrite bool_decide_true by eauto. cbn [negb].
  change (expire_ht_ (with_data dt s)) with (expire_ht_ s).
  destruct (t_has_buckets (expire_ht_ s)) eqn:Hb; [|done].
  destruct Hout as [Hn|(l1&l2&kp'&v1&v2&Hd&He')]; [by rewrite Hb in Hn|].
  assert (kp' = kp) as -> by congruence.
  assert (key_alive kp (with_data dt s) = true) as Ha'.
  { unfold key_alive. simpl. rewrite (t_key_held_ok _ _ _ _ _ (is_expire _ _ Hs) He').
    by rewrite orb_true_r. }
  by rewrite Ha'.
Qed.

Lemma GETDEL_spec args r s d :
  svc_is s d → (∀ k, args !! 1%nat = Some k → key_outlives k s) →
  cmd_post s (spec_GETDEL (command_time_snapshot_ s) args d) (GetDelFunction args r s).
Proof.
  intros Hs Hout. unfold GetDelFunction, spec_GETDEL.
  destruct args as [|c0 [|k [|? ?]]]; cbn [length Nat.eqb negb]; try by apply err_post.
  cbn [arg lookup list_lookup mbind outcome_bind]. specialize (Hout k eq_refl).
  unfold GetFunctionBaseWithCallback, GetFunctionBase.
  destruct (FindOrExpire_spec k s d Hs) as (e&s1&Heq&Hs1&Hk1&Hst1&He). step Heq.
  destruct (db_get (command_time_snapshot_ s) d k) as [c|] eqn:Hget;
    [|by subst e; apply cmd_post_intro].
  destruct He as (l&x&->&Hl&Hx). rewrite (db_get_touch _ _ _ _ Hget) in Hs1.
  pose proof (FindOrExpire_outlives _ _ _ _ _ Hs Heq Hout) as Hout1.
  rewrite (bind_Ok _ _ _ (value_of_entry _ _ _ _ _ Hs1 Hl)). cbn beta.
  destruct (touch_spec k l x s1 _ Hs1 Hl) as (s2&Heq2&Hs2&Hr2&Hd2&He2). step Heq2.
  destruct Hl as [kp Hl]. rewrite <- Hd2 in Hl. cbn [mbind outcome_bind].
  rewrite (bind_Ok _ _ _ (t_CopyKey_ok _ _ _ _ _ (is_data _ _ Hs2) Hl)). cbn beta.
  rewrite (EraseKey_obj_spec k l (Some x) kp s2 d Hs2 Hl)
    by (unfold key_outlives; by rewrite Hd2, He2).
  destruct (EraseKey_arg_spec k s2 d Hs2) as (s3&Heq3&Hk3&Hst3&Hs3). step Heq3.
  apply cmd_post_intro; [done| |].
  - etransitivity; [done|]. etransitivity; [by apply relaid_kept|done].
  - split; [done|]. simpl. rewrite Hst3. by destruct Hr2 as (_&_&->&_).
Qed.
End key_commands.
