(* ===== verification/Dispatch.v ===== *)
(** * Commands and their dispatch

    Model of [Command] (src/src/service/command.h), of the command dictionary
    (command_dictionary.h), of the registration of commands
    (command_registry.cc and the Register functions of the command files) and of
    [DataStructureService::RegisterCommand] and [Invoke]
    (data_structure_service.cc). *)

From S2P Require Import Prelude Chars Config Table Replier HashTable Service StringCommands.
From S2P Require Import KeyCommands Eviction.

(** [std::tolower] and [std::toupper] in the C locale. *)
Definition tolower (c : ascii) : ascii :=
  let n := N_of_ascii c in
  if ((65 <=? n) && (n <=? 90))%N then ascii_of_N (n + 32) else c.
Definition toupper (c : ascii) : ascii :=
  let n := N_of_ascii c in
  if ((97 <=? n) && (n <=? 122))%N then ascii_of_N (n - 32) else c.

(** [commands_.emplace]: no effect when the name is there. *)
Definition emplace {A} (k : bytes) (a : A) (m : gmap bytes A) : gmap bytes A :=
  match m !! k with Some _ => m | None => <[k := a]> m end.

Section dispatch.
Context {DT ET : Type} `{!Table MTSPtr DT} `{!Table Z ET} `{!BuildMode} `{!Memory DT ET}.
Implicit Types s : Service DT ET.

Record Command := mkCommand {
  handler_ : list bytes → Result → Service DT ET → Outcome (Result * Service DT ET);
  is_write_command_ : bool }.
Implicit Types (c : Command) (m : gmap bytes Command).

Definition read_command h : Command := mkCommand h false.
Definition write_command h : Command := mkCommand h true.

Definition RegisterCommand (name : bytes) c m : gmap bytes Command :=
  let name := tolower <$> name in
  let m := emplace name c m in
  let name := toupper <$> name in
  emplace name c m.

Definition RegisterAll (l : list (string * Command)) m : gmap bytes Command :=
  foldl (λ m '(n, c), RegisterCommand (lit n) c m) m l.

Definition RegisterClientCommands : gmap bytes Command → gmap bytes Command :=
  RegisterAll [("HELLO"%string, read_command HelloFunction)].

Definition RegisterKeyCommands : gmap bytes Command → gmap bytes Command :=
  RegisterAll [("TTL"%string, read_command TtlFunction);
               ("DEL"%string, write_command DelFunction)].

Definition RegisterMiscCommands (env : InfoEnv) : gmap bytes Command → gmap bytes Command :=
  RegisterAll [("DBSIZE"%string, read_command DbSizeFunction);
               ("INFO"%string, read_command (InfoFunction env));
               ("COMMAND"%string, read_command CommandFunction);
               ("SHUTDOWN"%string, read_command ShutdownFunction)].

Definition RegisterStringCommands : gmap bytes Command → gmap bytes Command :=
  RegisterAll [("SET"%string, write_command SetFunction);
               ("SETEX"%string, write_command SetEXFunction);
               ("PSETEX"%string, write_command PSetEXFunction);
               ("SETNX"%string, write_command SetNXFunction);
               ("SETRANGE"%string, write_command SetRangeFunction);
               ("MSET"%string, write_command MSetFunction);
               ("MSETNX"%string, write_command MSetNXFunction);
               ("GET"%string, read_command GetFunction);
               ("MGET"%string, read_command MGetFunction);
               ("GETDEL"%string, read_command GetDelFunction);
               ("GETEX"%string, read_command GetEXFunction);
               ("GETSET"%string, read_command GetSetFunction);
               ("GETRANGE"%string, read_command GetRangeFunction);
               ("SUBSTR"%string, read_command GetRangeFunction);
               ("APPEND"%string, read_command AppendFunction);
               ("EXISTS"%string, read_command ExistsFunction);
               ("STRLEN"%string, read_command StrlenFunction)].

Definition RegisterCommands (env : InfoEnv) m : gmap bytes Command :=
  RegisterStringCommands (RegisterMiscCommands env (RegisterKeyCommands
    (RegisterClientCommands m))).

(** [Invoke]: the eviction before a write command draws from [rands]. *)
Definition Invoke m (command_strings : list bytes) (rands : list Z) (result : Result) s
    : Outcome (Result * Service DT ET) :=
  name ← arg command_strings 0;
  match m !! name with
  | None => Ok (SetError kUnknownCommand result, s)
  | Some command =>
      '(oom, s) ←
        (if is_write_command_ command then
           let bytes_to_free := MaxmemoryExceeded s in
           if negb (bytes_to_free =? 0) then
             '(evicted, _, s) ← Evict bytes_to_free rands s;
             Ok (negb evicted, s)
           else Ok (false, s)
         else Ok (false, s));
      if (oom : bool) then Ok (SetError kOOM result, s)
      else
        '(result, s) ← handler_ command command_strings result s;
        Ok (result, with_processed (u64 (commands_processed s + 1)) s)
  end.
End dispatch.
Arguments Command : clear implicits.
