(* ===== verification/DispatchThms.v ===== *)
(** * Correctness of command dispatch

    The dictionary built by the registration functions answers exactly the
    lower-case and upper-case names of the commands, and [Invoke] does what the
    specification of the named command says, after evicting keys where the
    memory limit asks for it. *)

From S2P Require Import Prelude Chars Config Table Replier HashTable Service ServiceInv ServiceSpec.
From S2P Require Import StringCommands CommandSpec StringCommandsThms KeyCommands KeyCommandsThms.
From S2P Require Import Eviction Dispatch.

(** ** The dictionary *)

(** The command a name stands for, in a list of commands. *)
Definition is_name (k : bytes) (n : string) : bool :=
  bool_decide (k = tolower <$> lit n) || bool_decide (k = toupper <$> (tolower <$> lit n)).

Fixpoint assoc {A} (l : list (string * A)) (k : bytes) : option A :=
  match l with
  | [] => None
  | (n, a) :: l => if is_name k n then Some a else assoc l k
  end.

Lemma assoc_app {A} (l1 l2 : list (string * A)) k :
  assoc (l1 ++ l2) k = match assoc l1 k with Some a => Some a | None => assoc l2 k end.
Proof. induction l1 as [|[n a] l1 IH]; simpl; [done|]. by destruct (is_name k n). Qed.

Lemma lookup_emplace {A} k k' (a : A) m :
  emplace k a m !! k' = match m !! k' with
                        | Some b => Some b
                        | None => if bool_decide (k' = k) then Some a else None
                        end.
Proof.
  unfold emplace. destruct (m !! k) eqn:E; case_bool_decide; subst.
  - by rewrite E.
  - by destruct (m !! k').
  - by rewrite lookup_insert_eq, E.
  - rewrite lookup_insert_ne by done. by destruct (m !! k').
Qed.

Section registry.
Context {DT ET : Type} `{!Table MTSPtr DT} `{!Table Z ET} `{!BuildMode} `{!Memory DT ET}.

Lemma RegisterAll_lookup (l : list (string * Command DT ET)) m k :
  RegisterAll l m !! k = match m !! k with Some c => Some c | None => assoc l k end.
Proof.
  unfold RegisterAll. revert m. induction l as [|[n c] l IH]; intros m; simpl.
  { by destruct (m !! k). }
  rewrite IH. unfold RegisterCommand, is_name. rewrite !lookup_emplace.
  destruct (m !! k); [done|]. by destruct (bool_decide _), (bool_decide _).
Qed.

(** The commands in the order of their registration. *)
Definition all_commands (env : InfoEnv) : list (string * Command DT ET) :=
  [("HELLO"%string, read_command HelloFunction);
   ("TTL"%string, read_command TtlFunction); ("DEL"%string, write_command DelFunction);
   ("DBSIZE"%string, read_command DbSizeFunction);
   ("INFO"%string, read_command (InfoFunction env));
   ("COMMAND"%string, read_command CommandFunction);
   ("SHUTDOWN"%string, read_command ShutdownFunction);
   ("SET"%string, write_command SetFunction); ("SETEX"%string, write_command SetEXFunction);
   ("PSETEX"%string, write_command PSetEXFunction);
   ("SETNX"%string, write_command SetNXFunction);
   ("SETRANGE"%string, write_command SetRangeFunction);
   ("MSET"%string, write_command MSetFunction);
   ("MSETNX"%string, write_command MSetNXFunction);
   ("GET"%string, read_command GetFunction); ("MGET"%string, read_command MGetFunction);
   ("GETDEL"%string, read_command GetDelFunction);
   ("GETEX"%string, read_command GetEXFunction);
   ("GETSET"%string, read_command GetSetFunction);
   ("GETRANGE"%string, read_command GetRangeFunction);
   ("SUBSTR"%string, read_command GetRangeFunction);
   ("APPEND"%string, read_command AppendFunction);
   ("EXISTS"%string, read_command ExistsFunction);
   ("STRLEN"%string, read_command StrlenFunction)].

Lemma registry_lookup env k : RegisterCommands env ∅ !! k = assoc (all_commands env) k.
Proof.
  unfold RegisterCommands, RegisterStringCommands, RegisterMiscCommands, RegisterKeyCommands,
    RegisterClientCommands. rewrite !RegisterAll_lookup, lookup_empty.
  simpl. by repeat destruct (is_name k _).
Qed.
End registry.

(** ** What the commands promise *)

Section promises.
Context {DT ET : Type} `{!Table MTSPtr DT} `{!Table Z ET} `{!BuildMode} `{!Memory DT ET}.
Context `{!TableView MTSPtr DT} `{!TableView Z ET} `{!TableLaws MTSPtr DT} `{!TableLaws Z ET}.
Implicit Types s : Service DT ET.

(** The reply and the new database, as a relation on the time, the query and
    the old database. *)
Abbreviation cmd_rel := (Z → list bytes → DB → areply → DB → Prop).
Definition det (f : Z → list bytes → DB → areply * DB) : cmd_rel :=
  λ now args d a d', f now args d = (a, d').

(** A command: whether it is a write command, when it is safe to run, and its
    effect. *)
Record cspec := CSpec {
  c_write : bool;
  c_safe : list bytes → Service DT ET → Prop;
  c_rel : cmd_rel }.

Definition always (args : list bytes) s : Prop := True.

(** SETEX multiplies the seconds by 1000 before it checks them. *)
Definition seconds_fit (args : list bytes) s : Prop :=
  ∀ n i, args !! 2%nat = Some n → ParseInt_i64 n = Some i → i * 1000 ≤ i64_max.

Definition all_specs : list (string * cspec) :=
  [("HELLO"%string, CSpec false always (det (λ _, spec_HELLO)));
   ("TTL"%string, CSpec false (λ args _, length args ≠ 1%nat) (det spec_TTL));
   ("DEL"%string, CSpec true always (det spec_DEL));
   ("DBSIZE"%string, CSpec false always (det (λ _ _, spec_DBSIZE)));
   ("INFO"%string, CSpec false always (λ _ _ d a d', (∃ text, a = AStr text) ∧ d' = d));
   ("COMMAND"%string, CSpec false always (det (λ _ _ d, (AStr (lit " "), d))));
   ("SHUTDOWN"%string, CSpec false (λ _ s, active_ s = true) (det (λ _, spec_SHUTDOWN)));
   ("SET"%string, CSpec true always (det spec_SET));
   ("SETEX"%string, CSpec true seconds_fit (det (λ now, spec_SETEX now 1000)));
   ("PSETEX"%string, CSpec true always (det (λ now, spec_SETEX now 1)));
   ("SETNX"%string, CSpec true always (det spec_SETNX));
   ("SETRANGE"%string, CSpec true always
      (λ now args d a d', ∃ sh, spec_SETRANGE now sh args d = (a, d')));
   ("MSET"%string, CSpec true always (det (λ _, spec_MSET)));
   ("MSETNX"%string, CSpec true always (det spec_MSETNX));
   ("GET"%string, CSpec false always (det spec_GET));
   ("MGET"%string, CSpec false always (det spec_MGET));
   ("GETDEL"%string,
     CSpec false (λ args s, ∀ k, args !! 1%nat = Some k → key_outlives k s) (det spec_GETDEL));
   ("GETEX"%string, CSpec false always (det spec_GETEX));
   ("GETSET"%string, CSpec false always (det spec_GETSET));
   ("GETRANGE"%string, CSpec false always (det spec_GETRANGE));
   ("SUBSTR"%string, CSpec false always (det spec_GETRANGE));
   ("APPEND"%string, CSpec false always (det (λ _, spec_APPEND)));
   ("EXISTS"%string, CSpec false always (det spec_EXISTS));
   ("STRLEN"%string, CSpec false always (det spec_STRLEN))].

(** Limits of the machine representation: a release build, times, counts and
    lengths in range, room for the keys the query may add. *)
Record limits (now : Z) (args : list bytes) (d : DB) : Prop := {
  lim_build : ndebug = true;
  lim_time : time_ok now;
  lim_args : args ≠ [] ∧ Z.of_nat (length args) < 2 ^ 31;
  lim_room : room (length args) d;
  lim_values : ∀ k c, kv d !! k = Some c → Z.of_nat (length c) < 2 ^ 31;
  lim_ttl : ∀ k e, ttl d !! k = Some e → e ≤ i64_max }.

(** What no handler changes. *)
Definition calm s s' : Prop :=
  config_ s' = config_ s ∧ held_ s' = held_ s ∧ evictor_ s' = evictor_ s ∧
  expirer_ s' = expirer_ s ∧ command_time_snapshot_ s' = command_time_snapshot_ s ∧
  ∀ x, x ∈ held_ s → strs_ s' !! x = strs_ s !! x.

Lemma kept_calm s s' : kept s s' → calm s s'.
Proof. by intros [(?&?&?&?&?&?&?) ?]. Qed.

Definition handler_ok (h : list bytes → Result → Service DT ET → Outcome (Result * Service DT ET))
    (sp : cspec) : Prop :=
  ∀ args r s d, svc_is s d → fresh_result r → limits (command_time_snapshot_ s) args d →
    c_safe sp args s →
    ∃ r' s' a d', h args r s = Ok (r', s') ∧ svc_is s' d' ∧ calm s s' ∧
      reply_is (strs_ s') r' a ∧ c_rel sp (command_time_snapshot_ s) args d a d'.

Lemma handler_det h w safe f :
  (∀ args r s d, svc_is s d → fresh_result r → limits (command_time_snapshot_ s) args d →
     safe args s → cmd_post s (f (command_time_snapshot_ s) args d) (h args r s)) →
  handler_ok h (CSpec w safe (det f)).
Proof.
  intros Hh args r s d Hs Hr Hlim Hsafe. specialize (Hh args r s d Hs Hr Hlim Hsafe).
  destruct (f (command_time_snapshot_ s) args d) as [a d'] eqn:E.
  destruct Hh as (r'&s'&?&?&?&?). exists r', s', a, d'. by split_and!; [..|apply kept_calm| |].
Qed.

Lemma room_le n m d : (n ≤ m)%nat → room m d → room n d.
Proof. unfold room. lia. Qed.

Lemma pairs_length (l : list bytes) : (length (pairs l) ≤ length l)%nat.
Proof.
  assert (∀ n, ∀ l : list bytes, (length l ≤ n)%nat → (length (pairs l) ≤ length l)%nat)
    as Hgen; [|by eapply Hgen].
  intros n. induction n as [|n IH]; intros [|k [|v l']] Hl; simpl in *; try lia.
  specialize (IH l'). lia.
Qed.

Lemma lim_room1 now args d : limits now args d → room 1 d.
Proof.
  intros Hl. destruct (lim_args _ _ _ Hl) as [Hne _]. apply (room_le _ (length args)); [|apply Hl].
  destruct args; [done|]. simpl. lia.
Qed.

Lemma lim_pairs now args d : limits now args d → room (length (pairs (drop 1 args))) d.
Proof.
  intros Hl. apply (room_le _ (length args)); [|apply Hl].
  pose proof (pairs_length (drop 1 args)). rewrite length_drop in *. lia.
Qed.

Lemma lim_size now args d : limits now args d → Z.of_nat (size (kv d)) < 2 ^ 31.
Proof. intros Hl. pose proof (lim_room _ _ _ Hl) as Hr. unfold room, table_limit in Hr. lia. Qed.

#[local] Hint Resolve lim_room1 lim_pairs lim_size lim_build lim_time lim_values lim_ttl : core.

Lemma SHUTDOWN_ok : handler_ok ShutdownFunction
  (CSpec false (λ _ s, active_ s = true) (det (λ _, spec_SHUTDOWN))).
Proof.
  intros args r s d Hs _ _ Ha. destruct (SHUTDOWN_spec args r s d Hs Ha) as (r'&Heq&Hr).
  exists r', (with_active (1 <? length args)%nat s), (spec_SHUTDOWN args d).1, d.
  split; [done|]. split; [by apply (svc_is_ext s); try apply Hs|].
  split; [by unfold calm; split_and!|]. split; [exact Hr|].
  simpl. unfold det, spec_SHUTDOWN, wrong_args. by destruct (1 <? length args)%nat.
Qed.

Lemma INFO_ok env : handler_ok (InfoFunction env)
  (CSpec false always (λ _ _ d a d', (∃ text, a = AStr text) ∧ d' = d)).
Proof.
  intros args r s d Hs _ _ _. destruct (INFO_spec env args r s d Hs) as (r'&s'&?&?&?&?).
  exists r', s', (AStr (info_text env args s)), d.
  split; [done|]. split; [done|]. split; [by apply kept_calm|]. split; [done|].
  split; [by eexists|done].
Qed.

Lemma SETRANGE_ok : handler_ok SetRangeFunction
  (CSpec true always (λ now args d a d', ∃ sh, spec_SETRANGE now sh args d = (a, d'))).
Proof.
  intros args r s d Hs _ Hl _. pose proof (SETRANGE_spec args r s d Hs) as Hp.
  specialize (Hp ltac:(eauto)). set (sh := shared s _) in Hp.
  destruct (spec_SETRANGE _ sh args d) as [a d'] eqn:E. destruct Hp as (r'&s'&?&?&?&?).
  exists r', s', a, d'. split_and!; [done|done|by apply kept_calm|done|by exists sh].
Qed.

Lemma TTL_ok : handler_ok TtlFunction (CSpec false (λ args _, length args ≠ 1%nat) (det spec_TTL)).
Proof.
  apply handler_det. intros args r s d Hs Hr Hl Hsafe.
  apply TTL_spec; eauto. apply (lim_args _ _ _ Hl).
Qed.

Lemma SETEX_ok : handler_ok SetEXFunction (CSpec true seconds_fit (det (λ now, spec_SETEX now 1000))).
Proof.
  apply handler_det. intros args r s d Hs Hr Hl Hsafe.
  apply (SETEX_spec 1000); eauto. lia.
Qed.

Lemma PSETEX_ok : handler_ok PSetEXFunction (CSpec true always (det (λ now, spec_SETEX now 1))).
Proof.
  apply handler_det. intros args r s d Hs Hr Hl _. apply (SETEX_spec 1); eauto; [lia|].
  intros n i _ Hn. rewrite Z.mul_1_r. by apply (ParseInt_i64_range n).
Qed.

(** A registered command meets its specification. *)
Definition registered (p : string * Command DT ET) (q : string * cspec) : Prop :=
  p.1 = q.1 ∧ is_write_command_ p.2 = c_write q.2 ∧ handler_ok (handler_ p.2) q.2 ∧
  (c_write q.2 = true → ∀ args s s', c_safe q.2 args s → c_safe q.2 args s').

Lemma all_registered env : Forall2 registered (all_commands env) all_specs.
Proof.
  repeat constructor; simpl; try done;
    first [apply SHUTDOWN_ok | apply INFO_ok | apply SETRANGE_ok | apply TTL_ok | apply SETEX_ok
          | apply PSETEX_ok | apply handler_det; intros args r s d Hs Hr Hl Hsafe].
  - by apply HELLO_spec.
  - apply DEL_spec; [done|]. apply Hl.
  - by apply DBSIZE_spec; eauto.
  - by apply COMMAND_spec.
  - apply SET_spec; eauto.
  - apply SETNX_spec; eauto.
  - apply MSET_spec; eauto.
  - apply MSETNX_spec; eauto.
  - by apply GET_spec.
  - by apply MGET_spec.
  - by apply GETDEL_spec.
  - apply GETEX_spec; eauto.
  - apply GETSET_spec; eauto.
  - apply GETRANGE_spec; eauto.
  - apply GETRANGE_spec; eauto.
  - apply APPEND_spec; eauto.
  - apply EXISTS_spec; [done|]. apply Hl.
  - by apply STRLEN_spec.
Qed.

Lemma assoc_registered env k :
  match assoc (all_commands env) k, assoc all_specs k with
  | Some c, Some sp => registered ("", c) ("", sp)
  | None, None => True
  | _, _ => False
  end.
Proof.
  induction (all_registered env) as [|[n c] [n' sp] l l' (E&Hw&Hh&Hp) _ IH]; simpl; [done|].
  simpl in E. subst n'. by destruct (is_name k n).
Qed.
End promises.

(** ** Invoke *)

Section invoke.
Context {DT ET : Type} `{!Table MTSPtr DT} `{!Table Z ET} `{!BuildMode} `{!Memory DT ET}.
Context `{!TableView MTSPtr DT} `{!TableView Z ET} `{!TableLaws MTSPtr DT} `{!TableLaws Z ET}.
Implicit Types s : Service DT ET.

Definition over_limit s : bool := negb (MaxmemoryExceeded s =? 0).

(** Memory pressure: the eviction policy when the limit is exceeded.  [cap] is
    the policy when there is a limit at all. *)
Definition pressure s : option MaxmemoryPolicy :=
  if over_limit s then Some (maxmemory_policy_ (evictor_ s)) else None.
Definition cap s : option MaxmemoryPolicy :=
  if maxmemory_ (evictor_ s) =? 0 then None else Some (maxmemory_policy_ (evictor_ s)).

Lemma pressure_cap s : pressure s = None ∨ pressure s = cap s.
Proof.
  unfold pressure, over_limit, MaxmemoryExceeded, cap.
  destruct (maxmemory_ (evictor_ s) =? 0); [by left|]. case_match; [by right|by left].
Qed.

(** The specification of a query's command. *)
Definition spec_for (args : list bytes) : option (@cspec DT ET) :=
  args !! 0%nat ≫= assoc all_specs.
Definition query_safe (args : list bytes) s : Prop :=
  ∀ sp, spec_for args = Some sp → c_safe sp args s.

(** What a write command does first under memory pressure: nothing without
    pressure; under the noeviction policy it is refused with no key lost; under
    the other policies keys are lost and, when it is refused, no key is left. *)
Inductive make_space : option MaxmemoryPolicy → DB → bool → DB → Prop :=
  | space_enough d : make_space None d true d
  | space_refused d : make_space (Some kNoEviction) d false d
  | space_evicted p d b d1 :
      p ≠ kNoEviction → shrunk d d1 → (b = false → kv d1 = ∅) → make_space (Some p) d b d1.

(** What a query answers and does under the memory pressure [pr]. *)
Inductive query_rel (pr : option MaxmemoryPolicy) (now : Z) (args : list bytes) (d : DB)
    : areply → DB → Prop :=
  | query_unknown : spec_for args = None → query_rel pr now args d (AErr kUnknownCommand) d
  | query_oom sp d1 :
      spec_for args = Some sp → c_write sp = true → make_space pr d false d1 →
      query_rel pr now args d (AErr kOOM) d1
  | query_done sp d1 a d' :
      spec_for args = Some sp → (if c_write sp then make_space pr d true d1 else d1 = d) →
      c_rel sp now args d1 a d' → query_rel pr now args d a d'.

(** What serving a query keeps. *)
Definition served s s' : Prop :=
  config_ s' = config_ s ∧ held_ s' = held_ s ∧ expirer_ s' = expirer_ s ∧
  command_time_snapshot_ s' = command_time_snapshot_ s ∧
  (∀ x, x ∈ held_ s → strs_ s' !! x = strs_ s !! x) ∧ cap s' = cap s.

Lemma cap_same s s' :
  maxmemory_ (evictor_ s') = maxmemory_ (evictor_ s) →
  maxmemory_policy_ (evictor_ s') = maxmemory_policy_ (evictor_ s) → cap s' = cap s.
Proof. unfold cap. by intros -> ->. Qed.

Lemma evict_kept_served s s' : evict_kept s s' → served s s'.
Proof.
  unfold evict_kept, served. intros Hk. destruct_and!. split_and!; try done.
  - intros x _. congruence.
  - by apply cap_same.
Qed.
Lemma calm_served s s' : calm s s' → served s s'.
Proof.
  unfold calm, served. intros. destruct_and!. split_and!; try done. apply cap_same; congruence.
Qed.

#[global] Instance served_preorder : PreOrder served.
Proof.
  split; [done|]. intros s1 s2 s3 (?&E1&?&?&Hk1&?) (?&E2&?&?&Hk2&?). unfold served.
  split_and!; [congruence..| |congruence]. intros x Hx. rewrite Hk2, Hk1; [done..|]. by rewrite E1.
Qed.

Lemma shrunk_limits now args d d' : shrunk d d' → limits now args d → limits now args d'.
Proof.
  intros [Hkv Httl] []. split; try done.
  - unfold room in *. pose proof (map_subseteq_size _ _ Hkv). lia.
  - intros k c Hk. by eapply lim_values0, lookup_weaken.
  - intros k e He. by eapply lim_ttl0, lookup_weaken.
Qed.

Lemma pool_ok_evictor s s' : evictor_ s' = evictor_ s → pool_ok s → pool_ok s'.
Proof. unfold pool_ok. by intros ->. Qed.

(** The part of [Invoke] after the eviction. *)
Lemma run_command sp c args r s d :
  handler_ok (handler_ c) sp → svc_is s d → pool_ok s → fresh_result r →
  limits (command_time_snapshot_ s) args d → c_safe sp args s →
  ∃ r' s' a d',
    ('(result, s) ← handler_ c args r s;
     Ok (result, with_processed (u64 (commands_processed s + 1)) s)) = Ok (r', s') ∧
    svc_is s' d' ∧ pool_ok s' ∧ served s s' ∧ reply_is (strs_ s') r' a ∧
    c_rel sp (command_time_snapshot_ s) args d a d'.
Proof.
  intros Hh Hs Hp Hr Hl Hsafe. destruct (Hh args r s d Hs Hr Hl Hsafe)
    as (r'&s'&a&d'&Heq&Hs'&Hc&Hrep&Hrel). rewrite (bind_Ok _ _ _ Heq). cbn beta iota.
  eexists r', _, a, d'. split; [reflexivity|].
  split; [by apply (svc_is_ext s'); try apply Hs'|].
  split; [eapply (pool_ok_evictor s); [apply Hc|done]|].
  split; [by apply calm_served|]. done.
Qed.

Lemma Invoke_spec env args rands r s d :
  svc_is s d → pool_ok s → fresh_result r → limits (command_time_snapshot_ s) args d →
  query_safe args s →
  match Invoke (RegisterCommands env ∅) args rands r s with
  | Ok (r', s') => ∃ a d', svc_is s' d' ∧ pool_ok s' ∧ served s s' ∧
      reply_is (strs_ s') r' a ∧ query_rel (pressure s) (command_time_snapshot_ s) args d a d'
  | Diverge => over_limit s = true ∧ Evict (MaxmemoryExceeded s) rands s = Diverge
  | Fault _ => False
  end.
Proof.
  intros Hs Hp Hr Hl Hsafe. unfold Invoke.
  destruct (lim_args _ _ _ Hl) as [Hne _]. destruct args as [|name rest]; [done|].
  set (args := name :: rest) in *. change (arg args 0) with (Ok name). cbn [mbind outcome_bind].
  rewrite registry_lookup. pose proof (assoc_registered env name) as Hreg.
  destruct (assoc (all_commands env) name) as [c|];
    destruct (assoc all_specs name) as [sp|] eqn:Hsp; try done.
  2: { exists (AErr kUnknownCommand), d. split_and!; try done. by apply query_unknown. }
  destruct Hreg as (_&Hw&Hh&Hmono). cbn [fst snd] in Hw, Hh, Hmono. specialize (Hsafe sp Hsp).
  rewrite Hw. fold (over_limit s). cbv zeta.
  assert (∀ s1 d1, svc_is s1 d1 → pool_ok s1 → served s s1 → c_safe sp args s1 →
    (if c_write sp then make_space (pressure s) d true d1 else d1 = d) →
    match
      ('(result, s) ← handler_ c args r s1;
       Ok (result, with_processed (u64 (commands_processed s + 1)) s))
    with
    | Ok (r', s') => ∃ a d', svc_is s' d' ∧ pool_ok s' ∧ served s s' ∧
        reply_is (strs_ s') r' a ∧ query_rel (pressure s) (command_time_snapshot_ s) args d a d'
    | Diverge => over_limit s = true ∧ Evict (MaxmemoryExceeded s) rands s = Diverge
    | Fault _ => False
    end) as Hrun.
  { intros s1 d1 Hs1 Hp1 Hk1 Hsafe1 Hd1. pose proof Hk1 as (_&_&_&Ht&_).
    destruct (run_command sp c args r s1 d1) as (r'&s'&a&d'&->&?&?&?&?&?); try done.
    { rewrite Ht. destruct (c_write sp); [|by subst].
      inversion Hd1; subst; [done|by eapply shrunk_limits]. }
    rewrite Ht in *. exists a, d'. split_and!; try done; [by etransitivity|].
    by eapply query_done. }
  destruct (c_write sp) eqn:Hwr; [|by apply (Hrun s d)].
  unfold over_limit at 1. destruct (Z.eqb_spec (MaxmemoryExceeded s) 0) as [Hz|Hz]; cbn [negb].
  { apply (Hrun s d); try done. unfold pressure, over_limit. rewrite Hz. constructor. }
  assert (over_limit s = true) as Ho by (unfold over_limit; by rewrite Zeqb_f).
  pose proof (Evict_spec (MaxmemoryExceeded s) rands s d Hs Hp Hz) as He.
  destruct (Evict (MaxmemoryExceeded s) rands s) as [[[b rs] s1]|f|]; try done.
  cbn [mbind outcome_bind].
  assert (∃ d1, svc_is s1 d1 ∧ pool_ok s1 ∧ make_space (pressure s) d b d1 ∧ served s s1)
    as (d1&Hs1&Hp1&Hsh&Hk1).
  { unfold pressure. rewrite Ho. destruct (maxmemory_policy_ (evictor_ s)).
    - destruct He as [-> ->]. exists d. split_and!; try done. constructor.
    - destruct He as (d1&?&?&?&?&_&?). exists d1.
      split_and!; [done..|by constructor|by apply evict_kept_served].
    - destruct He as (d1&?&?&?&?&_&?). exists d1.
      split_and!; [done..|by constructor|by apply evict_kept_served]. }
  destruct b; cbn [negb].
  - apply (Hrun s1 d1); try done; by eapply Hmono.
  - exists (AErr kOOM), d1. split_and!; try done. by eapply query_oom.
Qed.

(** More draws make [Invoke] return. *)
Lemma Invoke_returns env args rands r s d :
  svc_is s d → pool_ok s → fresh_result r → limits (command_time_snapshot_ s) args d →
  query_safe args s → 0 < maxmemory_samples_ (evictor_ s) →
  ∃ more x, Invoke (RegisterCommands env ∅) args (rands ++ more) r s = Ok x.
Proof.
  intros Hs Hp Hr Hl Hsafe Hm. pose proof (λ rands, Invoke_spec env args rands r s d Hs Hp Hr Hl Hsafe) as Hi.
  destruct (Z.eqb_spec (MaxmemoryExceeded s) 0) as [Hz|Hz].
  - exists []. specialize (Hi (rands ++ [])). unfold over_limit in Hi. rewrite Hz in Hi.
    destruct (Invoke _ _ _ _ _) as [x|f|]; [by eexists|done|by destruct Hi].
  - destruct (Evict_returns (MaxmemoryExceeded s) rands s d Hs Hp Hz Hm) as (more & x & Hx).
    exists more. specialize (Hi (rands ++ more)). rewrite Hx in Hi.
    destruct (Invoke _ _ _ _ _) as [y|f|]; [by eexists|done|by destruct Hi].
Qed.
End invoke.
