(* ===== verification/Client.v ===== *)
(** * Client connections

    Model of [Client] (src/src/client.h, client.cc): making room, receiving and
    parsing a chunk, and sending a reply.  The client receives into its own
    buffer, or, when the connection uses the ring's buffers, gets a view of
    them that its buffer shows.  A turn of [Process] is [EnsureBuffer], then
    [OnRecv], then, for a complete query, [DataStructureService::Invoke] and
    [SendReply].  Sockets and executors are outside: a received chunk is an
    argument, the bytes sent are an answer. *)

From S2P Require Import Prelude Chars Buffer RespParser RespParserThms Replier.

Record Client := mkClient {
  query_buffer_ : Buffer;
  output_buffer_ : Buffer;
  arguments_ : list StringView;
  mbulk_parser_ : option MultiBulkParser;
  query_result_ : Result }.

(** What a turn of [Process] does after the reception. *)
Inductive client_event :=
  | CClose                        (* leaves the loop *)
  | CContinue                     (* waits for more bytes *)
  | CReply                        (* replies [query_result_] at once *)
  | CInvoke (args : list bytes).  (* runs a command, then replies *)

#[global] Instance client_event_eq_dec : EqDecision client_event.
Proof. solve_decision. Defined.

(** The block a vector of [n] bytes gets from the allocator: its address and
    how many bytes more than [n] it holds. *)
Record Place := mkPlace { pl_addr : Z; pl_slack : nat }.
Definition block_for (n : nat) (pl : Place) : Block := mkBlock (pl_addr pl) (n + pl_slack pl).

Section client.
Context `{!BuildMode}.
Implicit Types c : Client.

Definition new_Client (use_ring_buf : bool) (pl1 pl2 : Place) : Client :=
  let capacity := if use_ring_buf then 0%nat else kIOGenericBufferSize in
  mkClient (new_Buffer capacity (block_for capacity pl1)).2
    (new_Buffer kOutputBufferSize (block_for kOutputBufferSize pl2)).2 [] None new_Result.

(** A call of the multi-bulk parser in [detail::Parse]; [result_size] is set
    when the answer is [kDone]. *)
Definition ParseBulks (buffer : Buffer) (p : MultiBulkParser) (result : list StringView)
    : Outcome (ParserState * option Z * list StringView * Buffer * option MultiBulkParser) :=
  '(res, result, buffer, p) ← Parse result buffer p;
  n ← (if bool_decide (res = kDone) then n ← GetResultSize p; Ok (Some n) else Ok None);
  Ok (res, n, result, buffer, Some p).

(** [buffer.Source().at(0)], which throws when there is nothing. *)
Definition first_char (buffer : Buffer) : Outcome ascii :=
  src ← Source buffer;
  match src_bytes src with ch :: _ => Ok ch | [] => Fault Thrown end.

(** [detail::Parse]. *)
Definition ParseQuery (buffer : Buffer) (mbulk_parser : option MultiBulkParser)
    (result : list StringView)
    : Outcome (ParserState * option Z * list StringView * Buffer * option MultiBulkParser) :=
  if from_option InProgress false mbulk_parser
  then p ← deref mbulk_parser; ParseBulks buffer p result
  else
    ch ← first_char buffer;
    if bool_decide (ch = "*"%char)
    then ParseBulks buffer (default new_parser mbulk_parser) result
    else
      '(res, result, n, buffer) ← ParseInline result buffer;
      Ok (res, option_map Z.of_nat n, result, buffer, mbulk_parser).

(** The views of the parsed arguments follow the buffer when it moves. *)
Definition EnsureBuffer (pl : Place) c : Outcome Client :=
  let b := query_buffer_ c in
  if virtual_view_ b then Ok c
  else
    let greedy := (Capacity b <? kIOGenericBufferSize)%nat in
    let new_size := MakeRoomFor (kIOGenericBufferSize + write_index_ b) greedy in
    '(data_start_, _, b) ← EnsureAvailable kIOGenericBufferSize greedy (block_for new_size pl) b;
    args ← match mbulk_parser_ c with
           | Some p =>
               if negb (data_start_ =? 0) && InProgress p
               then BufferUpdate data_start_ (data_start b) (arguments_ c) p
               else Ok (arguments_ c)
           | None => Ok (arguments_ c)
           end;
    Ok (mkClient b (output_buffer_ c) args (mbulk_parser_ c) (query_result_ c)).

Fixpoint read_views (b : Buffer) (vs : list StringView) : Outcome (list bytes) :=
  match vs with
  | [] => Ok []
  | v :: vs => x ← read_view b v; l ← read_views b vs; Ok (x :: l)
  end.

(** The completion of a receive: [chunk] is in the buffer's sink, or in the
    ring's memory at [at_]; an empty chunk is the peer's end of stream. *)
Definition Receive (at_ : Z) (chunk : bytes) (b : Buffer) : Outcome Buffer :=
  if bool_decide (chunk = []) then Ok b
  else if virtual_view_ b then ProduceView (mkSrc at_ chunk) b else recv chunk b.

(** From the reception to the [switch] on the parser's answer. *)
Definition OnReceived (b : Buffer) c : Outcome (client_event * Client) :=
  src ← Source b;
  if bool_decide (src_bytes src = []) then
    Ok (CClose, mkClient b (output_buffer_ c) (arguments_ c) (mbulk_parser_ c) (query_result_ c))
  else
    '(res, num_strings, args, b, p) ← ParseQuery b (mbulk_parser_ c) (arguments_ c);
    let c' r := mkClient b (output_buffer_ c) args p r in
    match res with
    | kInit | kParsing => Ok (CContinue, c' (query_result_ c))
    | kError => Ok (CReply, c' (SetError kProtocol (query_result_ c)))
    | kDone =>
        n ← deref num_strings;
        _ ← cassert (negb (n =? 0));
        if n <=? Z.of_nat (length args) then
          strs ← read_views b (take (Z.to_nat n) args);
          Ok (CInvoke strs, c' (query_result_ c))
        else Fault OutOfRange
    end.

Definition OnRecv (at_ : Z) (chunk : bytes) c : Outcome (client_event * Client) :=
  b ← Receive at_ chunk (query_buffer_ c); OnReceived b c.

Definition set_result (r : Result) c : Client :=
  mkClient (query_buffer_ c) (output_buffer_ c) (arguments_ c) (mbulk_parser_ c) r.

Definition ResetState c : Client :=
  mkClient (Reset (query_buffer_ c)) (Reset (output_buffer_ c)) (arguments_ c)
    (mbulk_parser_ c) (ResetResult (query_result_ c)).

(** The bytes sent, and the client after [ResetState]. *)
Definition SendReply (strs : StrStore) (blk : Block) c : Outcome (bytes * Client) :=
  '(out, b) ← Reply strs blk (query_result_ c) (output_buffer_ c);
  Ok (out, ResetState (mkClient (query_buffer_ c) b (arguments_ c) (mbulk_parser_ c)
                         (query_result_ c))).

(** A turn without the command. *)
Definition OnChunk (pl : Place) (chunk : bytes) c : Outcome (client_event * Client) :=
  c ← EnsureBuffer pl c; OnRecv (pl_addr pl) chunk c.

Fixpoint OnChunks (l : list (Place * bytes)) c : Outcome (client_event * Client) :=
  match l with
  | [] => Ok (CContinue, c)
  | (pl, chunk) :: l =>
      '(ev, c) ← OnChunk pl chunk c;
      match ev with CContinue => OnChunks l c | _ => Ok (ev, c) end
  end.
End client.
