(* ===== verification/Rings.v ===== *)
(** * Messages between rings

    Model of the operations that move coroutines between executors:
    [detail::RingTransfer] and [RingExecutor::Initiate], [Schedule] and
    [Deactivate] (src/src/runtime/ring_executor.h, ring_executor.cc) and
    [ResumeOn] (src/src/runtime/util.cc).

    liburing and the kernel are outside: what the executors use of a set of
    rings is the class [Uring], and the documented behaviour the theorems rely on
    is [UringLaws]: a prepared request leads to one completion with its user
    data, on its own ring, or on the target's for a ring message.  [Threads]
    has the theorems. *)

From S2P Require Import Prelude.

(** ** What io_uring promises

    [R] is the state of all rings, a ring being known by its number; [T] is what
    user data points to (a [Continuation]; 0 is [None]). *)

Class Uring (R T : Type) := {
  sq_space : nat → R → bool;               (* io_uring_get_sqe does not answer null *)
  put_op : nat → T → R → R;                (* an entry for I/O or a timeout *)
  put_msg : nat → nat → option T → R → R;  (* io_uring_prep_msg_ring, CQE_SKIP_SUCCESS *)
  submit : nat → R → R;                    (* io_uring_submit *)
  sqring_wait : nat → R → R;               (* io_uring_sqring_wait, with the polling thread *)
  peek : nat → R → option (option T * R);  (* the next completion is read *)
  kernel_move : nat → nat → R → R;         (* the kernel at work for a ring *)
  polled : nat → bool;                     (* IORING_SETUP_SQPOLL *)
  sq_size : nat → nat;                     (* sq_entries *)
  waiting : R → list (nat * option T);     (* user data under way, with the ring it goes to *)
  unsubmitted : nat → R → nat }.           (* entries of a ring not yet submitted *)

Class UringLaws (R T : Type) `{!Uring R T} : Prop := {
  put_op_waiting e t r : waiting (put_op e t r) ≡ₚ (e, Some t) :: waiting r;
  put_op_unsubmitted e t r e' :
    unsubmitted e' (put_op e t r) = if decide (e' = e) then S (unsubmitted e r) else unsubmitted e' r;
  put_msg_waiting e e' t r : waiting (put_msg e e' t r) ≡ₚ (e', t) :: waiting r;
  put_msg_unsubmitted e t r d e' :
    unsubmitted e' (put_msg e d t r)
    = if decide (e' = e) then S (unsubmitted e r) else unsubmitted e' r;
  submit_waiting e r : waiting (submit e r) ≡ₚ waiting r;
  submit_unsubmitted e r e' :
    unsubmitted e' (submit e r) = if decide (e' = e) then 0%nat else unsubmitted e' r;
  sqring_wait_waiting e r : waiting (sqring_wait e r) ≡ₚ waiting r;
  (* The polling thread takes the submitted entries, only those. *)
  sqring_wait_space e r :
    polled e = true → (unsubmitted e r < sq_size e)%nat → sq_space e (sqring_wait e r) = true;
  sqring_wait_unsubmitted e r e' : (unsubmitted e' (sqring_wait e r) ≤ unsubmitted e' r)%nat;
  peek_waiting e t r r' : peek e r = Some (t, r') → waiting r ≡ₚ (e, t) :: waiting r';
  peek_unsubmitted e t r r' e' : peek e r = Some (t, r') → unsubmitted e' r' = unsubmitted e' r;
  kernel_waiting e i r : waiting (kernel_move e i r) ≡ₚ waiting r;
  kernel_unsubmitted e i r e' : (unsubmitted e' (kernel_move e i r) ≤ unsubmitted e' r)%nat;
  (* Without a polling thread submitted entries are taken at once. *)
  sq_space_ok e r :
    polled e = false → (unsubmitted e r < sq_size e)%nat → sq_space e r = true }.

(** ** Operations *)

Section rings.
Context {R T : Type} `{!Uring R T}.
Implicit Types r : R.

(** [Initiate], called on the executor's own thread: when the queue is full the
    executor submits it (or waits for the polling thread) and tries again. *)
Definition Initiate (e : nat) (t : T) r : Outcome R :=
  let r := if sq_space e r then r else if polled e then sqring_wait e r else submit e r in
  if sq_space e r then Ok (put_op e t r) else Diverge.

(** [RingTransfer::await_suspend] tries again without submitting or waiting: only
    a polling thread can make room in the meantime. *)
Definition RingTransfer (ring target : nat) (submit_ : bool) (t : T) r : Outcome R :=
  let r := if sq_space ring r then r else if polled ring then sqring_wait ring r else r in
  if sq_space ring r then
    let r := put_msg ring target (Some t) r in
    Ok (if submit_ then submit ring r else r)
  else Diverge.

(** [Deactivate], the part that wakes the executor up. *)
Definition send_stop (ring target : nat) r : Outcome R :=
  if sq_space ring r then Ok (submit ring (put_msg ring target None r)) else Fault LogFatal.

(** ** Their effect on the completions under way *)

Context `{!UringLaws R T}.

(** Whichever way the loops for a free entry go. *)
Lemma room_waited e r r1 :
  (r1 = r ∧ sq_space e r = true) ∨ (r1 = sqring_wait e r ∧ polled e = true) →
  (unsubmitted e r < sq_size e)%nat →
  sq_space e r1 = true ∧ waiting r1 ≡ₚ waiting r ∧ ∀ e', (unsubmitted e' r1 ≤ unsubmitted e' r)%nat.
Proof.
  intros [[-> Hsp]|[-> Hpl]] Hu; [by split_and!|].
  split_and!; [by apply sqring_wait_space|apply sqring_wait_waiting|apply sqring_wait_unsubmitted].
Qed.

Lemma Initiate_ok e t r :
  (unsubmitted e r < sq_size e)%nat →
  ∃ r', Initiate e t r = Ok r' ∧ waiting r' ≡ₚ (e, Some t) :: waiting r ∧
    (∀ e', e' ≠ e → unsubmitted e' r' ≤ unsubmitted e' r)%nat ∧
    (unsubmitted e r' ≤ S (unsubmitted e r))%nat.
Proof.
  intros Hroom. unfold Initiate.
  set (r1 := if sq_space e r then r else if polled e then sqring_wait e r else submit e r).
  destruct (room_waited e r r1) as (Hsp & Hw & Hu); [|done|].
  { unfold r1. destruct (sq_space e r) eqn:E; [by left|]. destruct (polled e) eqn:Ep; [by right|].
    by rewrite sq_space_ok in E. }
  rewrite Hsp. clearbody r1. eexists. split; [done|]. split; [by rewrite put_op_waiting, Hw|].
  split; [intros e' ?; specialize (Hu e')|specialize (Hu e)]; rewrite put_op_unsubmitted;
    case_decide; (done || lia).
Qed.

Lemma RingTransfer_ok ring target b t r :
  (unsubmitted ring r < sq_size ring)%nat →
  ∃ r', RingTransfer ring target b t r = Ok r' ∧ waiting r' ≡ₚ (target, Some t) :: waiting r ∧
    (∀ e', e' ≠ ring → unsubmitted e' r' ≤ unsubmitted e' r)%nat ∧
    (unsubmitted ring r' ≤ if b then 0 else S (unsubmitted ring r))%nat.
Proof.
  intros Hroom. unfold RingTransfer.
  set (r1 := if sq_space ring r then r else if polled ring then sqring_wait ring r else r).
  destruct (room_waited ring r r1) as (Hsp & Hw & Hu); [|done|].
  { unfold r1. destruct (sq_space ring r) eqn:E; [by left|].
    destruct (polled ring) eqn:Ep; [by right|]. by rewrite sq_space_ok in E. }
  rewrite Hsp. clearbody r1. eexists. split; [done|]. split.
  { destruct b; by rewrite ?submit_waiting, put_msg_waiting, Hw. }
  split; [intros e' ?; specialize (Hu e')|specialize (Hu ring)]; destruct b;
    rewrite ?submit_unsubmitted, put_msg_unsubmitted; repeat case_decide; (done || lia).
Qed.
End rings.
