(* ===== verification/Cancel.v ===== *)
(** * Operations that can be cancelled

    Model of the awaitable operations with a cancellation token
    (src/src/io/async_operation.h, async_operation_processor.h, cancellation.h):
    [CompletionHandler], [AwaitableCancellableOperation] with its three
    implementations, [AsyncOperationProcessor::Execute] and [CancellationToken].
    The headers are complete in themselves; no target of the build uses them any
    more, and the two .cc files beside them name classes and settings that no
    longer exist.

    Operations, tokens and the handlers of cancel requests are objects in heaps.
    A [co_await] constructs an operation, and either has its answer at once or
    suspends; the completion of its request resumes the coroutine, which takes
    the answer and destroys the operation. *)

From S2P Require Import Prelude Chars Rings.

Inductive State := kNotStarted | kStarted | kCompleted | kCancelled.
#[global] Instance State_eq_dec : EqDecision State.
Proof. solve_decision. Defined.

Inductive Implementation :=
  | AwaitableCancellableAccept
  | AwaitableCancellableRecv (buffer_size : nat)
  | AwaitableCancellableSend (data : bytes).
#[global] Instance Implementation_eq_dec : EqDecision Implementation.
Proof. solve_decision. Defined.

(** Requests, and what user data points to: the handler inside an operation, or
    one made for a cancel request. *)
Inductive Sqe := SqeAccept (fd : Z) | SqeRecv (fd : Z) (n : nat) | SqeSend (fd : Z) (data : bytes) | SqeCancelFd (fd : Z).
Inductive Handler := HOp (o : nat) | HCancel (h : nat).
Record Entry := mkEntry { e_sqe : Sqe; e_data : Handler; e_flags : Z }.
Definition IOSQE_ASYNC : Z := 16.

(** [std::function<void()>] of a handler: the continuation of a coroutine, or the
    function that deletes the handler. *)
Inductive Callback := CbResume (o : nat) | CbDelete (h : nat).
Record CompletionHandler := mkHandler {
  completed : bool;
  result_ : Z;
  callback_ : option Callback }.
Definition new_handler : CompletionHandler := mkHandler false 0 None.
Definition SetCallback (cb : Callback) (h : CompletionHandler) : CompletionHandler :=
  mkHandler (completed h) (result_ h) (Some cb).
Definition set_result (result : Z) (h : CompletionHandler) : CompletionHandler :=
  mkHandler true result (callback_ h).
Definition GetResult `{BuildMode} (h : CompletionHandler) : Outcome Z :=
  _ ← cassert (completed h); Ok (result_ h).

Record Operation := mkOperation {
  impl : Implementation;
  fd_ : Z;
  completion_handler_ : CompletionHandler;
  state_ : State;
  token_ : nat;
  cancel_handler_ : option nat }.
Record CancellationToken := mkToken {
  cancel_requested_ : bool;
  cancellation_callback_ : option nat }.  (* the operation captured *)

Definition Impl_PrepareSqe (i : Implementation) (fd : Z) : Sqe :=
  match i with
  | AwaitableCancellableAccept => SqeAccept fd
  | AwaitableCancellableRecv n => SqeRecv fd n
  | AwaitableCancellableSend data => SqeSend fd data
  end.

(** What [co_await] gives. *)
Record Answer := mkAnswer { a_token : nat; a_cancelled : bool; a_size : Z }.

Inductive cancel_event :=
  | EvAwait (i : Implementation) (fd : Z) (token : nat)
  | EvCancel (token : nat)                (* RequestCancel *)
  | EvKernel (i : nat)                    (* the kernel at work *)
  | EvComplete (result : Z).              (* the next completion is read *)
#[global] Instance cancel_event_eq_dec : EqDecision cancel_event.
Proof. solve_decision. Defined.

Record World (R : Type) := mkWorld {
  ops : gmap nat Operation;
  tokens : gmap nat CancellationToken;
  handlers : gmap nat CompletionHandler;
  ring : R;
  next_address : nat }.
Arguments mkWorld {R}.
Arguments ops {R} _.
Arguments tokens {R} _.
Arguments handlers {R} _.
Arguments ring {R} _.
Arguments next_address {R} _.

Section cancel.
Context {R : Type} `{!Uring R Entry} `{!BuildMode}.

Implicit Types (w : World R) (o k h : nat).

Definition set_op o op w : World R :=
  mkWorld (<[o := op]> (ops w)) (tokens w) (handlers w) (ring w) (next_address w).
Definition set_token k t w : World R :=
  mkWorld (ops w) (<[k := t]> (tokens w)) (handlers w) (ring w) (next_address w).
Definition live {A} (x : option A) : Outcome A := match x with Some a => Ok a | None => Fault UseAfterFree end.

(** ** [CancellationToken] *)

Definition CancelRequested k w : Outcome bool := t ← live (tokens w !! k); Ok (cancel_requested_ t).
Definition RegisterCancellationCallback o k w : Outcome (World R) :=
  t ← live (tokens w !! k); Ok (set_token k (mkToken (cancel_requested_ t) (Some o)) w).
Definition DeregisterCancellationCallback k w : Outcome (World R) :=
  t ← live (tokens w !! k); Ok (set_token k (mkToken (cancel_requested_ t) None) w).

(** ** [AwaitableCancellableOperation] *)

Definition new_operation (i : Implementation) (fd : Z) k w : Outcome (nat * World R) :=
  let o := next_address w in
  let op (s : State) := mkOperation i fd new_handler s k None in
  let alloc (s : State) := mkWorld (<[o := op s]> (ops w)) (tokens w) (handlers w) (ring w) (S o) in
  requested ← CancelRequested k w;
  if (requested : bool) then Ok (o, alloc kCancelled)
  else w ← RegisterCancellationCallback o k (alloc kNotStarted); Ok (o, w).

Definition await_ready o w : Outcome bool :=
  op ← live (ops w !! o); Ok (negb (bool_decide (state_ op = kNotStarted))).

(** [PrepareSqe]: the request and its user data; a cancel request has a handler
    of its own. *)
Definition PrepareSqe o w : Outcome (Sqe * Handler * World R) :=
  op ← live (ops w !! o);
  if bool_decide (state_ op = kStarted) then Ok (Impl_PrepareSqe (impl op) (fd_ op), HOp o, w)
  else
    _ ← cassert (bool_decide (state_ op = kCancelled));
    let h := next_address w in
    let op := mkOperation (impl op) (fd_ op) (completion_handler_ op) (state_ op) (token_ op) (Some h) in
    Ok (SqeCancelFd (fd_ op), HCancel h,
        mkWorld (<[o := op]> (ops w)) (tokens w)
          (<[h := SetCallback (CbDelete h) new_handler]> (handlers w)) (ring w) (S h)).

(** [AsyncOperationProcessor::Execute]; the entry is written to without a test
    that there is one. *)
Definition Execute o w : Outcome (World R) :=
  if sq_space 0 (ring w) then
    '(sqe, data, w) ← PrepareSqe o w;
    Ok (mkWorld (ops w) (tokens w) (handlers w)
          (submit 0 (put_op 0 (mkEntry sqe data IOSQE_ASYNC) (ring w))) (next_address w))
  else Fault NullDeref.

Definition await_suspend o w : Outcome (World R) :=
  op ← live (ops w !! o);
  Execute o (set_op o (mkOperation (impl op) (fd_ op) (SetCallback (CbResume o) (completion_handler_ op))
                         kStarted (token_ op) (cancel_handler_ op)) w).

Definition await_resume o w : Outcome (Answer * World R) :=
  op ← live (ops w !! o);
  w ← DeregisterCancellationCallback (token_ op) w;
  if bool_decide (state_ op = kCancelled) then Ok (mkAnswer (token_ op) true 0, w)
  else
    _ ← cassert (bool_decide (state_ op = kStarted));
    n ← GetResult (completion_handler_ op);
    Ok (mkAnswer (token_ op) false (u64 n),
        set_op o (mkOperation (impl op) (fd_ op) (completion_handler_ op) kCompleted (token_ op)
                    (cancel_handler_ op)) w).

Definition OnCancellationRequested o w : Outcome (World R) :=
  op ← live (ops w !! o);
  _ ← cassert (bool_decide (state_ op = kStarted));
  Execute o (set_op o (mkOperation (impl op) (fd_ op) (completion_handler_ op) kCancelled (token_ op)
                         (cancel_handler_ op)) w).

Definition RequestCancel k w : Outcome (World R) :=
  t ← live (tokens w !! k);
  let w := set_token k (mkToken true (cancellation_callback_ t)) w in
  match cancellation_callback_ t with
  | Some o => OnCancellationRequested o w
  | None => Ok w
  end.

(** ** The coroutine *)

Definition delete_operation o w : World R :=
  mkWorld (delete o (ops w)) (tokens w) (handlers w) (ring w) (next_address w).
Definition resume o w : Outcome (option Answer * World R) :=
  '(a, w) ← await_resume o w; Ok (Some a, delete_operation o w).

Definition co_await (i : Implementation) (fd : Z) k w : Outcome (option Answer * World R) :=
  '(o, w) ← new_operation i fd k w;
  ready ← await_ready o w;
  if (ready : bool) then resume o w else w ← await_suspend o w; Ok (None, w).

(** [CompletionHandler::Complete] of the handler a completion names, and the
    call of its function; calling an empty one throws. *)
Definition Complete (d : Handler) (result : Z) w : Outcome (option Answer * World R) :=
  match d with
  | HOp o =>
      op ← live (ops w !! o);
      let ch := set_result result (completion_handler_ op) in
      let w := set_op o (mkOperation (impl op) (fd_ op) ch (state_ op) (token_ op) (cancel_handler_ op)) w in
      match callback_ ch with
      | Some (CbResume o) => resume o w
      | _ => Fault Thrown
      end
  | HCancel h =>
      ch ← live (handlers w !! h);
      let ch := set_result result ch in
      match callback_ ch with
      | Some (CbDelete h) =>
          _ ← GetResult ch;
          Ok (None, mkWorld (ops w) (tokens w) (delete h (handlers w)) (ring w) (next_address w))
      | _ => Fault Thrown
      end
  end.

Definition cancel_step (ev : cancel_event) w : Outcome (option Answer * World R) :=
  match ev with
  | EvAwait i fd k => co_await i fd k w
  | EvCancel k => w ← RequestCancel k w; Ok (None, w)
  | EvKernel i => Ok (None, mkWorld (ops w) (tokens w) (handlers w) (kernel_move 0 i (ring w)) (next_address w))
  | EvComplete result =>
      match peek 0 (ring w) with
      | Some (Some e, r) => Complete (e_data e) result (mkWorld (ops w) (tokens w) (handlers w) r (next_address w))
      | Some (None, r) => Ok (None, mkWorld (ops w) (tokens w) (handlers w) r (next_address w))
      | None => Ok (None, w)
      end
  end.

(** [n] tokens and an idle ring. *)
Definition idle_world (n : nat) (r : R) : World R :=
  mkWorld ∅ (list_to_map ((λ k, (k, mkToken false None)) <$> seq 0 n)) ∅ r 0.

(** Executions.  With [shared = false] a token is given to one operation at a
    time. *)
Definition allowed (shared : bool) (ev : cancel_event) w : Prop :=
  match ev with
  | EvAwait _ _ k =>
      is_Some (tokens w !! k) ∧ (shared = false → ∀ o op, ops w !! o = Some op → token_ op ≠ k)
  | EvCancel k => is_Some (tokens w !! k)
  | _ => True
  end.

Inductive executes (shared : bool) (w0 : World R) : list (cancel_event * option Answer) → World R → Prop :=
  | executes_nil : executes shared w0 [] w0
  | executes_step tr w ev a w' :
      executes shared w0 tr w → allowed shared ev w → cancel_step ev w = Ok (a, w') →
      executes shared w0 (tr ++ [(ev, a)]) w'.

Definition requested (k : nat) (tr : list (cancel_event * option Answer)) : Prop :=
  ∃ a, (EvCancel k, a) ∈ tr.
End cancel.

(** ** The invariant *)

Section keys.
Context {A : Type}.
Implicit Types (m : gmap nat A).

Definition keys m : list nat := (map_to_list m).*1.

Lemma keys_insert m i x : m !! i = None → keys (<[i := x]> m) ≡ₚ i :: keys m.
Proof. intros Hi. unfold keys. by rewrite map_to_list_insert. Qed.
Lemma keys_delete m i x : m !! i = Some x → keys m ≡ₚ i :: keys (delete i m).
Proof. intros Hi. unfold keys. by rewrite <- (map_to_list_delete m i x Hi). Qed.
Lemma keys_update m i x y : m !! i = Some x → keys (<[i := y]> m) ≡ₚ keys m.
Proof.
  intros Hi. rewrite (keys_delete _ i y), delete_insert_eq by by rewrite lookup_insert_eq.
  by rewrite <- (keys_delete m i x).
Qed.
Lemma elem_of_keys m i : i ∈ keys m ↔ is_Some (m !! i).
Proof.
  unfold keys. rewrite list_elem_of_fmap. split.
  - intros ([j x] & -> & Hx). exists x. by apply elem_of_map_to_list.
  - intros [x Hx]. exists (i, x). split; [done|]. by apply elem_of_map_to_list.
Qed.
End keys.

Section invariant.
Context {R : Type} `{!Uring R Entry} `{!UringLaws R Entry} `{!BuildMode}.
Implicit Types (w : World R) (o k h : nat) (r : R) (ch : CompletionHandler).

Definition to_ring (d : option Handler) : nat * option Handler := (0%nat, d).
(** The user data under way, with the ring it goes to. *)
Definition under_way r : list (nat * option Handler) :=
  (λ x : nat * option Entry, (x.1, e_data <$> x.2)) <$> waiting r.
(** One completion for each suspended operation and for each cancel request. *)
Definition expected (ops : gmap nat Operation) (handlers : gmap nat CompletionHandler)
    : list (nat * option Handler) :=
  (λ d, to_ring (Some d)) <$> (HOp <$> keys ops) ++ (HCancel <$> keys handlers).

Record suspended (shared : bool) (ts : gmap nat CancellationToken) o (op : Operation) : Prop := {
  su_state : state_ op = kStarted ∨ state_ op = kCancelled;
  su_callback : callback_ (completion_handler_ op) = Some (CbResume o);
  su_token : ∃ t, ts !! token_ op = Some t ∧
    (state_ op = kCancelled → cancel_requested_ t = true) ∧
    (shared = false → cancellation_callback_ t = Some o ∧
       (cancel_requested_ t = true → state_ op = kCancelled)) }.

Record cancel_inv (shared : bool) w : Prop := {
  ci_ops o op : ops w !! o = Some op → (o < next_address w)%nat ∧ suspended shared (tokens w) o op;
  ci_handlers h ch : handlers w !! h = Some ch → (h < next_address w)%nat ∧ callback_ ch = Some (CbDelete h);
  ci_tokens k t o : tokens w !! k = Some t → cancellation_callback_ t = Some o →
    ∃ op, ops w !! o = Some op ∧ token_ op = k;
  ci_under_way : under_way (ring w) ≡ₚ expected (ops w) (handlers w);
  ci_requests e o op : (0%nat, Some e) ∈ waiting (ring w) → e_data e = HOp o → ops w !! o = Some op →
    e_sqe e = Impl_PrepareSqe (impl op) (fd_ op) }.

(** ** Completions under way *)

Lemma put_under_way e r :
  under_way (submit 0 (put_op 0 e r)) ≡ₚ to_ring (Some (e_data e)) :: under_way r.
Proof. unfold under_way. by rewrite submit_waiting, put_op_waiting. Qed.
Lemma peek_under_way t r r' :
  peek 0 r = Some (t, r') → under_way r ≡ₚ to_ring (e_data <$> t) :: under_way r'.
Proof. intros Hp. unfold under_way. by rewrite (peek_waiting _ _ _ _ Hp). Qed.
Lemma put_elem e e' r :
  (0%nat, Some e') ∈ waiting (submit 0 (put_op 0 e r)) → e' = e ∨ (0%nat, Some e') ∈ waiting r.
Proof.
  rewrite submit_waiting, put_op_waiting. intros [[= ->]|Hin]%elem_of_cons; [by left|by right].
Qed.

Lemma expected_op o op os hs :
  os !! o = None → expected (<[o := op]> os) hs ≡ₚ to_ring (Some (HOp o)) :: expected os hs.
Proof. intros Ho. unfold expected. by rewrite (keys_insert os o op Ho). Qed.
Lemma expected_same o op op' os hs :
  os !! o = Some op → expected (<[o := op']> os) hs ≡ₚ expected os hs.
Proof. intros Ho. unfold expected. by rewrite (keys_update os o op op' Ho). Qed.
Lemma expected_handler h ch os hs :
  hs !! h = None → expected os (<[h := ch]> hs) ≡ₚ to_ring (Some (HCancel h)) :: expected os hs.
Proof.
  intros Hh. unfold expected. rewrite (keys_insert hs h ch Hh). rewrite !fmap_app. simpl.
  by rewrite <- Permutation_middle.
Qed.
Lemma expected_elem d os hs :
  to_ring (Some d) ∈ expected os hs →
  match d with
  | HOp o => ∃ op, os !! o = Some op ∧ expected os hs ≡ₚ to_ring (Some d) :: expected (delete o os) hs
  | HCancel h => ∃ ch, hs !! h = Some ch ∧ expected os hs ≡ₚ to_ring (Some d) :: expected os (delete h hs)
  end.
Proof.
  unfold expected at 1. intros (d' & [= <-] & Hd)%list_elem_of_fmap.
  apply elem_of_app in Hd as [(o & -> & [op Ho]%elem_of_keys)%list_elem_of_fmap|(h & -> & [ch Hh]%elem_of_keys)%list_elem_of_fmap].
  - exists op. split; [done|]. unfold expected. by rewrite (keys_delete os o op Ho).
  - exists ch. split; [done|]. unfold expected. rewrite (keys_delete hs h ch Hh), !fmap_app. simpl.
    by rewrite <- Permutation_middle.
Qed.

Lemma entry_live shared w e o :
  cancel_inv shared w → (0%nat, Some e) ∈ waiting (ring w) → e_data e = HOp o → is_Some (ops w !! o).
Proof.
  intros Hinv He Hd. assert (to_ring (Some (HOp o)) ∈ under_way (ring w)) as Hin.
  { unfold under_way. apply list_elem_of_fmap. exists (0%nat, Some e). simpl. by rewrite Hd. }
  rewrite (ci_under_way _ _ Hinv) in Hin. apply expected_elem in Hin as (op & ? & _). by exists op.
Qed.

(** ** What a step does *)

Definition was_requested k w : bool :=
  match tokens w !! k with Some t => cancel_requested_ t | None => false end.

(** The answers of a step; with shared tokens a cancel request may be lost. *)
Definition answer_ok (shared : bool) (ev : cancel_event) w (a : option Answer) : Prop :=
  match a with
  | None => True
  | Some a =>
      (if a_cancelled a then was_requested (a_token a) w = true ∧ a_size a = 0
       else ∃ result, ev = EvComplete result ∧ a_size a = u64 result) ∧
      (shared = false → a_cancelled a = was_requested (a_token a) w)
  end.

Definition answered (a : option Answer) : nat := match a with Some _ => 1 | None => 0 end.
Definition awaits (ev : cancel_event) : nat := match ev with EvAwait _ _ _ => 1 | _ => 0 end.

Record stepped (shared : bool) (ev : cancel_event) w (a : option Answer) w' : Prop := {
  st_inv : cancel_inv shared w';
  st_requested k : was_requested k w' = bool_decide (ev = EvCancel k) || was_requested k w;
  st_answer : answer_ok shared ev w a;
  st_count : (size (ops w') + answered a = size (ops w) + awaits ev)%nat }.

Lemma suspended_tokens shared ts ts' o op :
  suspended shared ts o op → ts' !! token_ op = ts !! token_ op → suspended shared ts' o op.
Proof. intros [H1 H2 H3] E. split; [done|done|]. by rewrite E. Qed.

(** A token that no operation holds, or of which several may: its callback can
    be dropped. *)
Lemma suspended_drop shared ts k t o op :
  suspended shared ts o op → ts !! k = Some t → (shared = false → token_ op ≠ k) →
  suspended shared (<[k := mkToken (cancel_requested_ t) None]> ts) o op.
Proof.
  intros [H1 H2 (t' & Ht' & Hc & Hs)] Ht Hk. split; [done|done|]. destruct (decide (token_ op = k)) as [<-|Hne].
  - exists (mkToken (cancel_requested_ t) None). rewrite lookup_insert_eq. simplify_eq.
    split_and!; [done|done|]. intros E. by destruct (Hk E).
  - exists t'. by rewrite lookup_insert_ne.
Qed.

Lemma was_requested_insert k k' t w w' :
  tokens w' = <[k := t]> (tokens w) →
  was_requested k' w' = if decide (k' = k) then cancel_requested_ t else was_requested k' w.
Proof.
  unfold was_requested. intros ->. case_decide; [subst; by rewrite lookup_insert_eq|].
  by rewrite lookup_insert_ne.
Qed.
Lemma was_requested_kept k t t' k' w w' :
  tokens w !! k = Some t → cancel_requested_ t' = cancel_requested_ t →
  tokens w' = <[k := t']> (tokens w) → was_requested k' w' = was_requested k' w.
Proof.
  intros Ht E Hw. rewrite (was_requested_insert _ _ _ _ _ Hw). case_decide; [|done]. subst.
  unfold was_requested. by rewrite Ht.
Qed.

(** A [co_await] on a token already cancelled. *)
Lemma await_cancelled shared i fd k t w :
  cancel_inv shared w → allowed shared (EvAwait i fd k) w → tokens w !! k = Some t → cancel_requested_ t = true →
  ∃ a w', cancel_step (EvAwait i fd k) w = Ok (a, w') ∧ stepped shared (EvAwait i fd k) w a w'.
Proof.
  intros Hinv [_ Hk] Ht Hreq. eexists _, _. split.
  { cbn [cancel_step co_await]. unfold co_await, new_operation, CancelRequested, await_ready, resume, await_resume,
      DeregisterCancellationCallback. simpl. rewrite Ht. simpl. rewrite Hreq. simpl.
    rewrite lookup_insert_eq. simpl. rewrite Ht. simpl. reflexivity. }
  assert (ops w !! next_address w = None) as Hf.
  { destruct (ops w !! next_address w) eqn:E; [|done]. destruct (ci_ops _ _ Hinv _ _ E). lia. }
  assert (delete (next_address w) (<[next_address w := mkOperation i fd new_handler kCancelled k None]> (ops w)) = ops w) as Hdel.
  { by rewrite delete_insert_id. }
  split.
  - split; simpl; rewrite ?Hdel.
    + intros o op Ho. destruct (ci_ops _ _ Hinv o op Ho) as [Hlt Hs]. split; [lia|].
      apply suspended_drop; [done|done|]. intros E. by apply (Hk E o).
    + intros h ch Hh. destruct (ci_handlers _ _ Hinv h ch Hh). split; [lia|done].
    + intros k' t' o. destruct (decide (k' = k)) as [->|Hne].
      * rewrite lookup_insert_eq. by intros [= <-].
      * rewrite lookup_insert_ne by done. apply (ci_tokens _ _ Hinv).
    + apply (ci_under_way _ _ Hinv).
    + apply (ci_requests _ _ Hinv).
  - intros k'. rewrite bool_decide_false by done.
    by eapply (was_requested_kept k t (mkToken (cancel_requested_ t) None)).
  - simpl. unfold was_requested. by rewrite Ht.
  - unfold delete_operation. simpl. rewrite Hdel. lia.
Qed.

(** A [co_await] that suspends. *)
Lemma await_starts shared i fd k t w :
  cancel_inv shared w → allowed shared (EvAwait i fd k) w → tokens w !! k = Some t → cancel_requested_ t = false →
  sq_space 0 (ring w) = true →
  ∃ a w', cancel_step (EvAwait i fd k) w = Ok (a, w') ∧ stepped shared (EvAwait i fd k) w a w'.
Proof.
  intros Hinv [_ Hk] Ht Hreq Hsp. eexists _, _. split.
  { cbn [cancel_step]. unfold co_await, new_operation, CancelRequested, RegisterCancellationCallback, await_ready,
      await_suspend, Execute, PrepareSqe. simpl. rewrite Ht. simpl. rewrite Hreq. simpl.
    rewrite lookup_insert_eq. simpl. rewrite lookup_insert_eq. simpl. rewrite Hsp. simpl. reflexivity. }
  set (o0 := next_address w) in *.
  assert (ops w !! o0 = None) as Hf.
  { destruct (ops w !! o0) eqn:E; [|done]. destruct (ci_ops _ _ Hinv _ _ E). lia. }
  rewrite insert_insert_eq. split.
  - split; simpl.
    + intros o op. destruct (decide (o = o0)) as [->|Hne].
      * rewrite lookup_insert_eq. intros [= <-]. split; [lia|]. split; simpl; [by left|done|].
        eexists. rewrite lookup_insert_eq. split; [done|]. done.
      * rewrite lookup_insert_ne by done. intros Ho. destruct (ci_ops _ _ Hinv o op Ho) as [Hlt Hs]. split; [lia|].
        destruct (decide (token_ op = k)) as [E|Hnk].
        -- destruct shared; [|by destruct (Hk eq_refl o op Ho)]. destruct Hs as [H1 H2 (t' & Ht' & Hc & _)].
           split; [done|done|]. eexists. rewrite E, lookup_insert_eq. split; [done|]. assert (t' = t) as -> by congruence. rewrite Hreq in Hc. by split.
        -- apply (suspended_tokens _ (tokens w)); [done|]. by rewrite lookup_insert_ne.
    + intros h ch Hh. destruct (ci_handlers _ _ Hinv h ch Hh). split; [lia|done].
    + intros k' t' o. destruct (decide (k' = k)) as [->|Hne].
      * rewrite lookup_insert_eq. intros [= <-] [= <-]. eexists. by rewrite lookup_insert_eq.
      * rewrite lookup_insert_ne by done. intros Hk' Hc. destruct (ci_tokens _ _ Hinv _ _ _ Hk' Hc) as (op & Ho & <-).
        exists op. split; [|done]. rewrite lookup_insert_ne; [done|]. intros <-. by simplify_eq.
    + rewrite put_under_way, expected_op by done. by rewrite (ci_under_way _ _ Hinv).
    + intros e o op He Hd. apply put_elem in He as [->|He].
      * injection Hd as <-. rewrite lookup_insert_eq. by intros [= <-].
      * destruct (entry_live _ _ _ _ Hinv He Hd) as [op' Ho']. rewrite lookup_insert_ne by congruence.
        by apply (ci_requests _ _ Hinv).
  - intros k'. rewrite bool_decide_false by done. by eapply (was_requested_kept k t (mkToken false (Some o0))).
  - done.
  - simpl. rewrite map_size_insert_None by done. lia.
Qed.

(** [RequestCancel] on a token whose operation is suspended. *)
Definition cancelled_world o op k w : World R :=
  let h := next_address w in
  mkWorld (<[o := mkOperation (impl op) (fd_ op) (completion_handler_ op) kCancelled (token_ op) (Some h)]> (ops w))
    (<[k := mkToken true (Some o)]> (tokens w))
    (<[h := SetCallback (CbDelete h) new_handler]> (handlers w))
    (submit 0 (put_op 0 (mkEntry (SqeCancelFd (fd_ op)) (HCancel h) IOSQE_ASYNC) (ring w))) (S h).

Lemma cancelled_inv shared o op k t w :
  cancel_inv shared w → tokens w !! k = Some t → cancellation_callback_ t = Some o → ops w !! o = Some op →
  token_ op = k → stepped shared (EvCancel k) w None (cancelled_world o op k w).
Proof.
  intros Hinv Ht Hcb Ho Hk.
  assert (handlers w !! next_address w = None) as Hf.
  { destruct (handlers w !! next_address w) eqn:E; [|done]. destruct (ci_handlers _ _ Hinv _ _ E). lia. }
  split; [| |done|simpl; rewrite map_size_insert_Some by (by exists op); simpl; lia].
  - split; simpl.
    + intros o' op'. destruct (decide (o' = o)) as [->|Hne].
      * rewrite lookup_insert_eq. intros [= <-]. destruct (ci_ops _ _ Hinv o op Ho) as [Hlt [_ H2 _]]. split; [lia|].
        split; simpl; [by right|done|]. exists (mkToken true (Some o)). by rewrite Hk, lookup_insert_eq.
      * rewrite lookup_insert_ne by done. intros Ho'. destruct (ci_ops _ _ Hinv o' op' Ho') as [Hlt Hs]. split; [lia|].
        destruct (decide (token_ op' = k)) as [E|Hnk].
        -- destruct Hs as [H1 H2 (t' & Ht' & Hc & Hs)]. split; [done|done|]. exists (mkToken true (Some o)).
           rewrite E, lookup_insert_eq. split_and!; [done|done|]. intros Hsh. destruct (Hs Hsh). congruence.
        -- apply (suspended_tokens _ (tokens w)); [done|]. by rewrite lookup_insert_ne.
    + intros h ch. destruct (decide (h = next_address w)) as [->|Hne].
      * rewrite lookup_insert_eq. intros [= <-]. split; [lia|done].
      * rewrite lookup_insert_ne by done. intros Hh. destruct (ci_handlers _ _ Hinv h ch Hh). split; [lia|done].
    + intros k' t' o'. assert (∀ op1, ops w !! o' = Some op1 → token_ op1 = k' →
        ∃ op2, <[o := mkOperation (impl op) (fd_ op) (completion_handler_ op) kCancelled (token_ op)
                        (Some (next_address w))]> (ops w) !! o' = Some op2 ∧ token_ op2 = k') as Hgo.
      { intros op1 Ho1 <-. destruct (decide (o' = o)) as [->|Hne].
        - simplify_eq. eexists. by rewrite lookup_insert_eq.
        - exists op1. by rewrite lookup_insert_ne. }
      destruct (decide (k' = k)) as [->|Hne].
      * rewrite lookup_insert_eq. intros [= <-] [= <-]. by apply (Hgo op).
      * rewrite lookup_insert_ne by done. intros Hk' Hc.
        destruct (ci_tokens _ _ Hinv _ _ _ Hk' Hc) as (op1 & Ho1 & E). by apply (Hgo op1).
    + rewrite put_under_way, (expected_same o op), expected_handler by done. by rewrite (ci_under_way _ _ Hinv).
    + intros e o' op' He Hd. apply put_elem in He as [->|He]; [done|].
      destruct (decide (o' = o)) as [->|Hne].
      * rewrite lookup_insert_eq. intros [= <-]. simpl. by apply (ci_requests _ _ Hinv e o).
      * rewrite lookup_insert_ne by done. by apply (ci_requests _ _ Hinv).
  - intros k'. rewrite (was_requested_insert k k' (mkToken true (Some o)) w) by done.
    case_decide; [subst; by rewrite bool_decide_true|by rewrite bool_decide_false by congruence].
Qed.

(** ... and on one without a callback. *)
Lemma cancel_nobody shared k t w :
  cancel_inv shared w → tokens w !! k = Some t → cancellation_callback_ t = None →
  stepped shared (EvCancel k) w None (set_token k (mkToken true None) w).
Proof.
  intros Hinv Ht Hcb. split; [| |done|done].
  - split; simpl; try apply Hinv.
    + intros o op Ho. destruct (ci_ops _ _ Hinv o op Ho) as [Hlt [H1 H2 (t' & Ht' & Hc & Hs)]]. split; [done|].
      split; [done|done|]. destruct (decide (token_ op = k)) as [E|Hne].
      * exists (mkToken true None). rewrite E, lookup_insert_eq. split_and!; [done|done|].
        intros Hsh. destruct (Hs Hsh). congruence.
      * exists t'. by rewrite lookup_insert_ne.
    + intros k' t' o. destruct (decide (k' = k)) as [->|Hne].
      * rewrite lookup_insert_eq. by intros [= <-].
      * rewrite lookup_insert_ne by done. apply (ci_tokens _ _ Hinv).
  - intros k'. rewrite (was_requested_insert k k' (mkToken true None) w) by done.
    case_decide; [subst; by rewrite bool_decide_true|by rewrite bool_decide_false by congruence].
Qed.

(** The completion of an operation. *)
Lemma complete_op shared result o op e r w :
  cancel_inv shared w → ops w !! o = Some op → e_data e = HOp o → peek 0 (ring w) = Some (Some e, r) →
  expected (ops w) (handlers w) ≡ₚ to_ring (Some (HOp o)) :: expected (delete o (ops w)) (handlers w) →
  ∃ a w', cancel_step (EvComplete result) w = Ok (a, w') ∧ stepped shared (EvComplete result) w a w'.
Proof.
  intros Hinv Ho Hd Hp Hex. destruct (ci_ops _ _ Hinv o op Ho) as [Hlt [Hst Hcb (t & Ht & Hc & Hs)]].
  set (k := token_ op) in *.
  set (w' := mkWorld (delete o (ops w)) (<[k := mkToken (cancel_requested_ t) None]> (tokens w)) (handlers w) r (next_address w)).
  assert (cancel_inv shared w' ∧ ∀ k', was_requested k' w' = was_requested k' w) as [Hi Hr].
  { split.
    - split; simpl.
      + intros o' op' Ho'. apply lookup_delete_Some in Ho' as [Hne Ho'].
        destruct (ci_ops _ _ Hinv o' op' Ho') as [Hlt' Hs']. split; [done|]. apply suspended_drop; [done|done|].
        intros Hsh Ek. destruct Hs' as [_ _ (t' & Ht' & _ & Hs')]. destruct (Hs Hsh), (Hs' Hsh). congruence.
      + apply (ci_handlers _ _ Hinv).
      + intros k' t' o'. destruct (decide (k' = k)) as [->|Hne].
        * rewrite lookup_insert_eq. by intros [= <-].
        * rewrite lookup_insert_ne by done. intros Hk' Hc'.
          destruct (ci_tokens _ _ Hinv _ _ _ Hk' Hc') as (op' & Ho' & <-). exists op'. split; [|done].
          rewrite lookup_delete_ne; [done|]. intros <-. by simplify_eq.
      + pose proof (ci_under_way _ _ Hinv) as Hu. rewrite (peek_under_way _ _ _ Hp), Hex in Hu. simpl in Hu.
        rewrite Hd in Hu. by apply Permutation_cons_inv in Hu.
      + intros e' o' op' He' Hd' Ho'. apply lookup_delete_Some in Ho' as [_ Ho'].
        apply (ci_requests _ _ Hinv e' o'); [|done|done]. rewrite (peek_waiting _ _ _ _ Hp). by right.
    - intros k'. by eapply (was_requested_kept k t (mkToken (cancel_requested_ t) None)). }
  assert (∀ op1, delete o (<[o := op1]> (ops w)) = delete o (ops w)) as Hdel by (intros; by rewrite delete_insert_eq).
  eexists (Some (mkAnswer k (bool_decide (state_ op = kCancelled)) (if bool_decide (state_ op = kCancelled) then 0 else u64 result))), w'.
  split.
  - cbn [cancel_step]. rewrite Hp, Hd. unfold Complete. simpl. rewrite Ho. simpl. rewrite Hcb.
    unfold resume, await_resume, DeregisterCancellationCallback. simpl. rewrite lookup_insert_eq. simpl.
    fold k. rewrite Ht. simpl. unfold GetResult.
    destruct Hst as [E|E]; rewrite E; simpl; rewrite ?cassert_true by done; simpl; rewrite ?cassert_true by done;
      unfold delete_operation, set_token, set_op; simpl; by rewrite ?insert_insert_eq, Hdel.
  - split; [done|intros k'; by rewrite bool_decide_false| |].
    2: { simpl. rewrite map_size_delete, Ho. enough (size (ops w) ≠ 0%nat) by lia. intros Hz%map_size_empty_inv.
         by rewrite Hz in Ho. }
    simpl. unfold was_requested. rewrite Ht. destruct Hst as [E|E]; rewrite E; simpl.
    + split; [by exists result|]. intros Hsh. destruct (Hs Hsh) as [_ H2]. destruct (cancel_requested_ t); [|done].
      rewrite H2 in E; done.
    + rewrite (Hc E). done.
Qed.

Lemma complete_cancel shared result h ch e r w :
  cancel_inv shared w → handlers w !! h = Some ch → e_data e = HCancel h → peek 0 (ring w) = Some (Some e, r) →
  expected (ops w) (handlers w) ≡ₚ to_ring (Some (HCancel h)) :: expected (ops w) (delete h (handlers w)) →
  ∃ a w', cancel_step (EvComplete result) w = Ok (a, w') ∧ stepped shared (EvComplete result) w a w'.
Proof.
  intros Hinv Hh Hd Hp Hex. destruct (ci_handlers _ _ Hinv h ch Hh) as [_ Hcb]. eexists _, _. split.
  { cbn [cancel_step]. rewrite Hp, Hd. unfold Complete, GetResult. simpl. rewrite Hh. simpl. rewrite Hcb.
    rewrite cassert_true by done. simpl. reflexivity. }
  split; [| |done|done].
  - split; simpl; try apply Hinv.
    + intros h' ch' Hh'. apply lookup_delete_Some in Hh' as [_ Hh']. by apply (ci_handlers _ _ Hinv).
    + pose proof (ci_under_way _ _ Hinv) as Hu. rewrite (peek_under_way _ _ _ Hp), Hex in Hu. simpl in Hu.
      rewrite Hd in Hu. by apply Permutation_cons_inv in Hu.
    + intros e' o' op' He'. apply (ci_requests _ _ Hinv e' o'). rewrite (peek_waiting _ _ _ _ Hp). by right.
  - intros k'. by rewrite bool_decide_false.
Qed.

(** Why a step may stop the program: no room for a request, or, with
    assertions, a second request to cancel the same operation. *)
Definition stops (ev : cancel_event) w : Prop :=
  (cancel_step ev w = Fault NullDeref ∧ sq_space 0 (ring w) = false) ∨
  (cancel_step ev w = Fault AssertFailed ∧ ndebug = false ∧ ∃ k, ev = EvCancel k ∧ was_requested k w = true).

Lemma step_cancel shared k w :
  cancel_inv shared w → is_Some (tokens w !! k) →
  stops (EvCancel k) w ∨
  ∃ a w', cancel_step (EvCancel k) w = Ok (a, w') ∧ stepped shared (EvCancel k) w a w'.
Proof.
  intros Hinv [t Ht]. unfold stops. cbn [cancel_step]. unfold RequestCancel. rewrite Ht. cbn [live mbind outcome_bind].
  destruct (cancellation_callback_ t) as [o|] eqn:Hcb.
  2: { right. eexists _, _. split; [reflexivity|]. by eapply cancel_nobody. }
  destruct (ci_tokens _ _ Hinv _ _ _ Ht Hcb) as (op & Ho & Hk).
  destruct (ci_ops _ _ Hinv o op Ho) as [_ [Hst _ (t' & Ht' & Hc & _)]]. rewrite Hk, Ht in Ht'. injection Ht' as <-.
  unfold OnCancellationRequested. simpl. rewrite Ho. simpl.
  destruct (sq_space 0 (ring w)) eqn:Hsp; [|destruct Hst as [E|E]; rewrite E; simpl].
  - destruct (cassert (bool_decide (state_ op = kStarted))) as [[]|f|] eqn:Ea.
    + right. exists None, (cancelled_world o op k w). split; [|by eapply cancelled_inv].
      simpl. unfold Execute, PrepareSqe. simpl. rewrite Hsp, lookup_insert_eq. simpl.
      rewrite cassert_true by done. simpl. by rewrite insert_insert_eq.
    + left. right. unfold cassert in Ea. destruct ndebug eqn:En; [done|].
      destruct Hst as [E|E]; rewrite E in Ea; simpl in Ea; [done|]. injection Ea as <-. split_and!; [done|done|].
      exists k. split; [done|]. unfold was_requested. rewrite Ht. by apply Hc.
    + unfold cassert in Ea. by repeat case_match.
  - left. left. rewrite cassert_true by done. simpl. unfold Execute. simpl. by rewrite Hsp.
  - left. unfold cassert. destruct ndebug eqn:En; simpl.
    + left. unfold Execute. simpl. by rewrite Hsp.
    + right. split_and!; [done|done|]. exists k. split; [done|]. unfold was_requested. rewrite Ht. by apply Hc.
Qed.

Lemma step_ok_or_stops shared ev w :
  cancel_inv shared w → allowed shared ev w →
  stops ev w ∨ ∃ a w', cancel_step ev w = Ok (a, w') ∧ stepped shared ev w a w'.
Proof.
  intros Hinv Hall. destruct ev as [i fd k|k|i|result].
  - destruct Hall as [[t Ht] Hk]. destruct (cancel_requested_ t) eqn:Hreq; [right; by eapply await_cancelled|].
    destruct (sq_space 0 (ring w)) eqn:Hsp; [right; by eapply await_starts|]. left. left. split; [|done].
    cbn [cancel_step]. unfold co_await, new_operation, CancelRequested, RegisterCancellationCallback, await_ready,
      await_suspend, Execute. simpl. rewrite Ht. simpl. rewrite Hreq. simpl.
    rewrite lookup_insert_eq. simpl. by rewrite Hsp.
  - by apply step_cancel.
  - right. eexists _, _. split; [reflexivity|]. split; [| |done|done].
    + split; simpl; try apply Hinv.
      * unfold under_way. rewrite kernel_waiting. apply (ci_under_way _ _ Hinv).
      * intros e o op He. rewrite kernel_waiting in He. by apply (ci_requests _ _ Hinv).
    + intros k'. by rewrite bool_decide_false.
  - right. destruct (peek 0 (ring w)) as [[d r]|] eqn:Hp.
    2: { eexists _, _. split; [cbn [cancel_step]; by rewrite Hp|]. split; [done| |done|done].
         intros k'. by rewrite bool_decide_false. }
    assert (to_ring (e_data <$> d) ∈ expected (ops w) (handlers w)) as Hin.
    { rewrite <- (ci_under_way _ _ Hinv), (peek_under_way _ _ _ Hp). by left. }
    destruct d as [e|]; simpl in Hin.
    2: { unfold expected in Hin. by apply list_elem_of_fmap in Hin as (? & ? & _). }
    apply expected_elem in Hin. destruct (e_data e) as [o|h] eqn:Hd.
    + destruct Hin as (op & Ho & Hex). by eapply complete_op.
    + destruct Hin as (ch & Hh & Hex). by eapply complete_cancel.
Qed.

(** ** Executions *)

Lemma idle_tokens n r k t : tokens (idle_world n r) !! k = Some t → t = mkToken false None.
Proof.
  intros Ht%elem_of_list_to_map_2. by apply list_elem_of_fmap in Ht as (? & [= _ ->] & _).
Qed.

Lemma idle_inv shared n r : waiting r = [] → cancel_inv shared (idle_world n r).
Proof.
  intros Hr. split.
  - done.
  - done.
  - intros k t o Ht%idle_tokens. by rewrite Ht.
  - unfold under_way, expected, keys. simpl. by rewrite Hr, !map_to_list_empty.
  - done.
Qed.

(** What the trace of an execution says of the state it leads to. *)
Record traced (shared : bool) (tr : list (cancel_event * option Answer)) w : Prop := {
  tr_inv : cancel_inv shared w;
  tr_requested k : was_requested k w = true ↔ requested k tr;
  tr_answers tr1 ev a tr2 : tr = tr1 ++ (ev, Some a) :: tr2 →
    (if a_cancelled a then requested (a_token a) tr1 ∧ a_size a = 0
     else ∃ result, ev = EvComplete result ∧ a_size a = u64 result) ∧
    (shared = false → a_cancelled a = true ↔ requested (a_token a) tr1);
  tr_count : (sum_list_with (λ x, awaits x.1) tr = sum_list_with (λ x, answered x.2) tr + size (ops w))%nat }.

Lemma executes_traced shared n r tr w :
  waiting r = [] → executes shared (idle_world n r) tr w → traced shared tr w.
Proof.
  intros Hr. induction 1 as [|tr w ev a w' Hex [Hinv Hreq Hans Hcnt] Hall Hs].
  { split; [by apply idle_inv| | |done].
    - intros k. unfold was_requested. split.
      + destruct (tokens _ !! k) as [t|] eqn:Ht; [|done]. by rewrite (idle_tokens _ _ _ _ Ht).
      + by intros [a ?%elem_of_nil].
    - intros tr1 ev a tr2 E. by destruct tr1. }
  destruct (step_ok_or_stops shared ev w Hinv Hall) as [[[E _]|[E _]]|(a' & w1 & E & [Hinv' Hreq' Hans' Hcnt'])];
    rewrite Hs in E; [done|done|]. injection E as <- <-. split; [done| | |].
  - intros k. rewrite Hreq', orb_true_iff, bool_decide_eq_true, Hreq. unfold requested. setoid_rewrite elem_of_app.
    setoid_rewrite list_elem_of_singleton. split.
    + intros [->|[b Hb]]; [exists a; by right|exists b; by left].
    + intros [b [Hb|[= <- _]]]; [right; by exists b|by left].
  - intros tr1 ev1 a1 tr2 E. destruct tr2 as [|x tr2 _] using rev_ind.
    + apply app_inj_tail in E as [<- [= <- ->]]. simpl in Hans'. destruct Hans' as [H1 H2].
      split; [|intros Hsh; by rewrite (H2 Hsh)].
      destruct (a_cancelled a1); [|done]. destruct H1. split; [by apply Hreq|done].
    + rewrite app_comm_cons, app_assoc in E. apply app_inj_tail in E as [E _]. by apply (Hans tr1 ev1 a1 tr2).
  - rewrite !sum_list_with_app. simpl. lia.
Qed.

(** C34: Cancellation.  Whatever operations are awaited, tokens cancelled and
    completions read, in any order and with tokens shared or not: a step stops
    the program only when the submission queue is full, or, with assertions, when
    a token that has been cancelled is cancelled again; no callback, completion or
    handler names an object that is gone (so an operation that a callback
    captured has not been released); each suspended operation and each
    cancel request has one completion under way, and nothing else has; an
    awaited operation is answered once.  An answer is the result of the
    completion, or cancelled, without a size, which it is only if its token was;
    and if no two operations hold a token at a time it is cancelled whenever its
    token was. *)
Theorem cancellation_answers shared n r tr w :
  waiting r = [] → executes shared (idle_world n r) tr w →
  (∀ ev, allowed shared ev w →
     (∃ a w', cancel_step ev w = Ok (a, w')) ∨
     (cancel_step ev w = Fault NullDeref ∧ sq_space 0 (ring w) = false) ∨
     (cancel_step ev w = Fault AssertFailed ∧ ndebug = false ∧ ∃ k, ev = EvCancel k ∧ requested k tr)) ∧
  (∀ k t o, tokens w !! k = Some t → cancellation_callback_ t = Some o →
     ∃ op, ops w !! o = Some op ∧ token_ op = k) ∧
  under_way (ring w) ≡ₚ expected (ops w) (handlers w) ∧
  (sum_list_with (λ x, awaits x.1) tr = sum_list_with (λ x, answered x.2) tr + size (ops w))%nat ∧
  (∀ tr1 ev a tr2, tr = tr1 ++ (ev, Some a) :: tr2 →
     (if a_cancelled a then requested (a_token a) tr1 ∧ a_size a = 0
      else ∃ result, ev = EvComplete result ∧ a_size a = u64 result) ∧
     (shared = false → a_cancelled a = true ↔ requested (a_token a) tr1)).
Proof.
  intros Hr Hex. destruct (executes_traced _ _ _ _ _ Hr Hex) as [Hinv Hreq Hans Hcnt].
  split_and!; [|apply (ci_tokens _ _ Hinv)|apply (ci_under_way _ _ Hinv)|done|done].
  intros ev Hall. destruct (step_ok_or_stops shared ev w Hinv Hall) as [[Hs|(Hs & Hd & k & -> & Hk)]|(a & w' & Hs & _)].
  - right. by left.
  - right. right. split_and!; [done|done|]. exists k. by rewrite <- Hreq.
  - left. by exists a, w'.
Qed.
End invariant.

(** ** A ring, and samples *)

(** Entries with the ring they were put on, whether they were submitted, and
    where they go; completions are read in the order of the list, which the kernel
    changes. *)
Record Slot := mkSlot { s_ring : nat; s_submitted : bool; s_goes : nat * option Entry }.

Fixpoint take_first (e : nat) (l : list Slot) : option (option Entry * list Slot) :=
  match l with
  | [] => None
  | x :: l =>
      if s_submitted x && bool_decide ((s_goes x).1 = e) then Some ((s_goes x).2, l)
      else '(t, l) ← take_first e l; Some (t, x :: l)
  end.
Definition submit_slot (e : nat) (x : Slot) : Slot :=
  if bool_decide (s_ring x = e) then mkSlot (s_ring x) true (s_goes x) else x.
Definition open_slots (e : nat) (l : list Slot) : nat :=
  length (filter (λ x, s_ring x = e ∧ s_submitted x = false) l).

#[local] Instance slot_ring : Uring (list Slot) Entry := {|
  sq_space e l := (open_slots e l <? 1024)%nat;
  put_op e t l := l ++ [mkSlot e false (e, Some t)];
  put_msg e d t l := l ++ [mkSlot e false (d, t)];
  submit e l := submit_slot e <$> l;
  sqring_wait e l := l;
  peek := take_first;
  kernel_move e i l := match l !! i with Some x => delete i l ++ [x] | None => l end;
  polled e := true;
  sq_size e := 1024%nat;
  waiting l := s_goes <$> l;
  unsubmitted := open_slots |}.

Lemma open_app e l x :
  open_slots e (l ++ [mkSlot x.1 false x.2])
  = if decide (e = x.1) then S (open_slots x.1 l) else open_slots e l.
Proof.
  unfold open_slots. rewrite filter_app, length_app. case_decide as E.
  - subst. rewrite (filter_cons_True _ (mkSlot _ _ _)) by done. simpl. lia.
  - rewrite (filter_cons_False _ (mkSlot _ _ _)) by (simpl; naive_solver). simpl. lia.
Qed.
Lemma take_first_perm e t l l' :
  take_first e l = Some (t, l') →
  s_goes <$> l ≡ₚ (e, t) :: (s_goes <$> l') ∧ ∀ e', open_slots e' l' = open_slots e' l.
Proof.
  revert l'. induction l as [|x l IH]; intros l'; [done|]. simpl.
  destruct (s_submitted x && _) eqn:E.
  - intros [= <- <-]. apply andb_true_iff in E as [E1 E2%bool_decide_eq_true].
    split; [by rewrite <- E2; destruct x as [? ? []]|]. intros e'. unfold open_slots.
    rewrite filter_cons_False; [done|]. rewrite E1. by intros [].
  - destruct (take_first e l) as [[t' l1]|] eqn:El; [|done]. intros [= <- <-].
    destruct (IH l1 eq_refl) as [H1 H2]. split; [simpl; rewrite H1; apply Permutation_swap|].
    intros e'. specialize (H2 e'). unfold open_slots in *. rewrite !filter_cons. clear E. case_decide; simpl; [by f_equal|done].
Qed.

Lemma slot_ring_laws : UringLaws (list Slot) Entry.
Proof.
  split; simpl.
  - intros e t l. rewrite fmap_app. simpl. by rewrite <- Permutation_cons_append.
  - intros e t l e'. apply (open_app e' l (e, (e, Some t))).
  - intros e d t l. rewrite fmap_app. simpl. by rewrite <- Permutation_cons_append.
  - intros e t l d e'. apply (open_app e' l (e, (d, t))).
  - intros e l. assert (s_goes <$> (submit_slot e <$> l) = s_goes <$> l) as ->; [|done].
    rewrite <- list_fmap_compose. apply list_fmap_ext. intros i x _. simpl. unfold submit_slot. by case_bool_decide.
  - intros e l e'. unfold open_slots. induction l as [|x l IH]; [by case_decide|]. rewrite fmap_cons, !filter_cons.
    assert (submit_slot e x = x ∧ s_ring x ≠ e ∨ s_submitted (submit_slot e x) = true ∧ s_ring x = e)
      as [[-> Hs]|[Hs1 Hs]].
    { unfold submit_slot. case_bool_decide; [by right|by left]. }
    + case_decide as Hd; [by rewrite decide_False by naive_solver|].
      case_decide; cbn [length]; [by f_equal|done].
    + rewrite decide_False by (rewrite Hs1; by intros [_ ?]). case_decide; [done|].
      by rewrite decide_False by naive_solver.
  - done.
  - intros e l _ Hl. by apply Nat.ltb_lt.
  - done.
  - intros e t l l' Hp. by apply take_first_perm.
  - intros e t l l' e' Hp. by eapply take_first_perm.
  - intros e i l. destruct (l !! i) as [x|] eqn:E; [|done]. rewrite <- Permutation_cons_append.
    symmetry. by apply fmap_Permutation, delete_Permutation.
  - intros e i l e'. destruct (l !! i) as [x|] eqn:E; [|done]. unfold open_slots.
    apply delete_Permutation in E. set (d := delete i l) in *. clearbody d.
    by rewrite <- Permutation_cons_append, E.
  - done.
Qed.

(** Running a list of events, as long as they are allowed. *)
Section run.
Context `{!BuildMode}.
Implicit Types w : World (list Slot).

Definition allowedb (shared : bool) (ev : cancel_event) w : bool :=
  match ev with
  | EvAwait _ _ k =>
      bool_decide (is_Some (tokens w !! k)) &&
      (shared || forallb (λ x : nat * Operation, negb (token_ x.2 =? k)%nat) (map_to_list (ops w)))
  | EvCancel k => bool_decide (is_Some (tokens w !! k))
  | _ => true
  end.
Fixpoint cancel_run (shared : bool) (evs : list cancel_event) w :
    option (list (cancel_event * option Answer) * World (list Slot)) :=
  match evs with
  | [] => Some ([], w)
  | ev :: evs =>
      if allowedb shared ev w then
        match cancel_step ev w with
        | Ok (a, w) => '(l, w) ← cancel_run shared evs w; Some ((ev, a) :: l, w)
        | _ => None
        end
      else None
  end.

Lemma allowedb_allowed shared ev w : allowedb shared ev w = true → allowed shared ev w.
Proof.
  destruct ev as [i fd k|k| |]; simpl; try done.
  - intros [Hk Hf]%andb_true_iff. apply bool_decide_eq_true in Hk. split; [done|]. intros -> o op Ho E.
    simpl in Hf. rewrite forallb_forall in Hf. specialize (Hf (o, op)). simpl in Hf. rewrite E, Nat.eqb_refl in Hf.
    discriminate Hf. apply list_elem_of_In. by apply elem_of_map_to_list.
  - by intros ?%bool_decide_eq_true.
Qed.

Lemma run_executes shared (w0 w w' : World (list Slot)) tr evs l :
  executes shared w0 tr w → cancel_run shared evs w = Some (l, w') → executes shared w0 (tr ++ l) w'.
Proof.
  revert tr w l. induction evs as [|ev evs IH]; intros tr w l Hex Hrun; simpl in Hrun.
  { injection Hrun as <- <-. by rewrite app_nil_r. }
  destruct (allowedb shared ev w) eqn:Ha; [|done].
  destruct (cancel_step ev w) as [[a w1]| |] eqn:Hs; [|done|done].
  destruct (cancel_run shared evs w1) as [[l1 w2]|] eqn:Hr; [|done]. injection Hrun as <- <-.
  rewrite (cons_middle (ev, a)), app_assoc. apply (IH _ w1); [|done].
  eapply executes_step; [done| |done]. by apply allowedb_allowed.
Qed.
End run.

#[local] Instance cancel_debug : BuildMode := false.
Definition answers_of (x : option (list (cancel_event * option Answer) * World (list Slot))) : option (list Answer) :=
  match x with Some (tr, _) => Some (omap snd tr) | None => None end.

(** Two tokens.  A receive is cancelled while it is suspended and answered when
    its completion comes, after that of the cancel request; a send on the other
    token has its result; a receive on the cancelled token is answered at once. *)
Definition sample_events : list cancel_event :=
  [EvAwait (AwaitableCancellableRecv 100) 5 0; EvAwait (AwaitableCancellableSend (lit "x")) 6 1; EvCancel 0;
   EvKernel 0; EvComplete 1; EvComplete 0; EvComplete (-125); EvAwait (AwaitableCancellableRecv 100) 5 0].

Lemma cancellation_answers_witness :
  ∃ tr w, cancel_run false sample_events (idle_world 2 []) = Some (tr, w) ∧
    omap snd tr = [mkAnswer 1 false 1; mkAnswer 0 true 0; mkAnswer 0 true 0] ∧
    under_way (ring w) ≡ₚ expected (ops w) (handlers w) ∧
    (sum_list_with (λ x, awaits x.1) tr = sum_list_with (λ x, answered x.2) tr + size (ops w))%nat.
Proof.
  destruct (cancel_run false sample_events (idle_world 2 [])) as [[tr w]|] eqn:E; [|by vm_compute in E].
  assert (executes false (idle_world 2 []) tr w) as Hex.
  { apply (run_executes false _ (idle_world 2 []) w [] sample_events tr); [constructor|done]. }
  destruct (cancellation_answers (R:=list Slot) (UringLaws0:=slot_ring_laws) false 2 [] tr w eq_refl Hex)
    as (_ & _ & H1 & H2 & _).
  exists tr, w. split_and!; [done| |done|done]. vm_compute in E. by injection E as <- <-.
Defined.

(** An operation that shares its token with another that completes first cannot
    be cancelled any more: [await_resume] of the other has dropped its
    callback. *)
Theorem shared_token_cancel_lost :
  answers_of (cancel_run true
    [EvAwait (AwaitableCancellableSend (lit "x")) 5 0; EvAwait (AwaitableCancellableRecv 100) 5 0; EvComplete 1;
     EvCancel 0; EvComplete 7] (idle_world 1 []))
  = Some [mkAnswer 0 false 1; mkAnswer 0 false 7].
Proof. vm_compute. reflexivity. Qed.

(** The result of a failed request is answered as a size. *)
Theorem failed_request_is_a_size :
  answers_of (cancel_run false [EvAwait (AwaitableCancellableRecv 100) 5 0; EvComplete (-104)] (idle_world 1 []))
  = Some [mkAnswer 0 false (2 ^ 64 - 104)].
Proof. vm_compute. reflexivity. Qed.

(** A token cancelled twice before its operation has completed. *)
Theorem second_cancel_asserts :
  match cancel_run false [EvAwait (AwaitableCancellableRecv 100) 5 0; EvCancel 0] (idle_world 1 []) with
  | Some (_, w) => cancel_step (EvCancel 0) w = Fault AssertFailed
  | None => False
  end.
Proof. vm_compute. reflexivity. Qed.
