(* ===== verification/Threads.v ===== *)
(** * The threads of the server

    Model of how the server's coroutines are spread over its threads: the main
    thread ([Server::Server], [Setup], [Run] and [Shutdown], src/src/server.cc,
    with [SetupInitBufRing], src/src/runtime/util.cc), the event loops of the
    executors ([RingExecutor::EventLoop], src/src/runtime/ring_executor.cc), and
    the suspension points of [Cron], [AcceptLoop] and [Client::Process].

    Executor 0 runs the data structure service, executors 1 to [n] the clients;
    ring [n + 1] is the main thread's.  A task is a suspended coroutine, named
    after the point where it continues.  An executor takes a completion (its
    task is then running), runs it up to its next suspension, and takes the next
    one; the executors and the kernel act in any interleaving.  What a task
    decides from data (the outcome of parsing, of a send, of an accept) is an
    argument of the step.

    The theorems justify the steps of [System] and [Acceptor]: tasks that run at
    the same time have nothing in common but atomics and the locked client
    table, no task is lost or resumed twice, no thread spins for ever, and
    start-up and shutdown happen in order. *)

From S2P Require Import Prelude Config RingExecutor Client Rings.

Inductive task :=
  | TInitBuf (e : nat)        (* the lambda of SetupInitBufRing *)
  | TStartCron                (* the lambdas of Server::Run *)
  | TStartAccept
  | TCron                     (* Cron after WaitFor *)
  | TAccept                   (* AcceptLoop after Accept *)
  | TAcceptNext               (* AcceptLoop after Schedule, running *)
  | TStart (e id : nat)       (* the lambda of AcceptLoop, for connection [id] *)
  | TRecv (e id : nat)        (* Process after Recv, on executor [e] *)
  | TInvoke (e id : nat)      (* Process after ResumeOn(dss_executor) *)
  | TBack (e id : nat)        (* Process after ResumeOn(conn_->GetExecutor()) *)
  | TSend (e id : nat).       (* Process after Send or Writev *)

#[global] Instance task_eq_dec : EqDecision task.
Proof. solve_decision. Defined.

(** What tasks decide from data. *)
Inductive accept_result := AcceptError | AcceptReject | Accepted.
Record choice := mkChoice {
  ch_accept : accept_result;     (* the connection, against maxclients *)
  ch_event : client_event;       (* the received bytes *)
  ch_shutdown : bool;            (* the command is SHUTDOWN *)
  ch_written : bool }.           (* the reply was written *)

(** ** State *)

Record Exr := mkExr {
  running : option task;         (* the task being run *)
  processed : nat;               (* completions read in this round *)
  looping : bool;                (* in io_uring_for_each_cqe *)
  x_active : bool;               (* active_ *)
  exited : bool;                 (* the thread has left EventLoop *)
  bufs : bool }.                 (* InitBufRing was called *)

Definition new_Exr : Exr := mkExr None 0 false true false false.

Inductive main_pc :=
  | MConstruct
  | MInit (exrs : list nat)      (* SetupInitBufRing: executors to be told *)
  | MWaitInit                    (* init_future.wait() *)
  | MCron | MAccept              (* the two calls of Schedule in Run *)
  | MWaitShutdown                (* shutdown_future_.wait() *)
  | MDeactivate (exrs : list nat)
  | MJoin (exrs : list nat)
  | MClose                       (* closing active connections *)
  | MDone.

Inductive label :=
  | LKernel (ring i : nat)       (* the kernel works on a ring *)
  | LRound (e : nat)             (* io_uring_submit_and_wait_timeout *)
  | LTake (e : nat)              (* the next completion of the round *)
  | LRun (e : nat) (ch : choice) (* the running task goes on *)
  | LMain.

Section threads.
Context {R : Type} `{!Uring R task} (c : Config).

Record Threads := mkThreads {
  rings : R;
  exrs : gmap nat Exr;
  main : main_pc;
  get_future_called_ : bool;
  num_not_finished : Z;
  init_promise : bool;
  service_active : bool;
  shutdown_promise_ : bool;
  next_executor : nat;           (* ce_index *)
  next_id : nat;                 (* connections given to executors *)
  finished : list nat;           (* clients that were removed *)
  stranded : list nat }.         (* clients whose coroutine ended by an exception *)
Implicit Types s : Threads.

Definition set_rings (r : R) s : Threads :=
  mkThreads r (exrs s) (main s) (get_future_called_ s) (num_not_finished s) (init_promise s)
    (service_active s) (shutdown_promise_ s) (next_executor s) (next_id s) (finished s) (stranded s).
Definition set_exrs (m : gmap nat Exr) s : Threads :=
  mkThreads (rings s) m (main s) (get_future_called_ s) (num_not_finished s) (init_promise s)
    (service_active s) (shutdown_promise_ s) (next_executor s) (next_id s) (finished s) (stranded s).
Definition set_main (m : main_pc) s : Threads :=
  mkThreads (rings s) (exrs s) m (get_future_called_ s) (num_not_finished s) (init_promise s)
    (service_active s) (shutdown_promise_ s) (next_executor s) (next_id s) (finished s) (stranded s).
Definition set_exr (e : nat) (x : Exr) s : Threads := set_exrs (<[e := x]> (exrs s)) s.

Definition with_rings (f : R → Outcome R) s : Outcome Threads :=
  r ← f (rings s); Ok (set_rings r s).

(** The executors. *)
Definition dss : nat := 0.
Definition clients : list nat := seq 1 (Z.to_nat (client_executors c)).
Definition main_ring : nat := S (Z.to_nat (client_executors c)).
Definition batch : nat := Z.to_nat (Z.max 1 (submit_batch_size c)).

(** [ResumeOn] on thread [self], for the rest [k] of the coroutine. *)
Definition ResumeOn (self exr : nat) (t : task) (k : Threads → Outcome Threads) s : Outcome Threads :=
  if (exr =? self)%nat then k s else with_rings (RingTransfer self exr false t) s.

(** [Schedule] from the ring [src]; [k] is the function, run inline on the same
    ring. *)
Definition Schedule (src exr : nat) (t : task) (k : Threads → Outcome Threads) s : Outcome Threads :=
  if (exr =? src)%nat then k s else with_rings (RingTransfer src exr true t) s.

(** ** [Client::Process] *)

(** The end: the client is removed, closed and deleted. *)
Definition Process_end (id : nat) s : Outcome Threads :=
  Ok (mkThreads (rings s) (exrs s) (main s) (get_future_called_ s) (num_not_finished s)
        (init_promise s) (service_active s) (shutdown_promise_ s) (next_executor s) (next_id s)
        (id :: finished s) (stranded s)).

Definition Process_loop (e id : nat) s : Outcome Threads :=
  with_rings (Initiate e (TRecv e id)) s.

(** After the command: the reply is sent. *)
Definition Process_reply (e id : nat) s : Outcome Threads :=
  with_rings (Initiate e (TSend e id)) s.

(** [Invoke]; SHUTDOWN sets the promise, and when it is set already the
    exception ends the coroutine in [TaskPromise::unhandled_exception]. *)
Definition Process_invoke (self e id : nat) (ch : choice) s : Outcome Threads :=
  if ch_shutdown ch && shutdown_promise_ s then
    Ok (mkThreads (rings s) (exrs s) (main s) (get_future_called_ s) (num_not_finished s)
          (init_promise s) false true (next_executor s) (next_id s) (finished s)
          (id :: stranded s))
  else
    let s := if ch_shutdown ch
             then mkThreads (rings s) (exrs s) (main s) (get_future_called_ s) (num_not_finished s)
                    (init_promise s) false true (next_executor s) (next_id s) (finished s)
                    (stranded s)
             else s in
    ResumeOn self e (TBack e id) (Process_reply e id) s.

Definition Process_received (self e id : nat) (ch : choice) s : Outcome Threads :=
  match ch_event ch with
  | CClose => Process_end id s
  | CContinue => Process_loop e id s
  | CReply => Process_reply e id s
  | CInvoke _ => ResumeOn self dss (TInvoke e id) (Process_invoke self e id ch) s
  end.

Definition Process_sent (e id : nat) (ch : choice) s : Outcome Threads :=
  if ch_written ch then Process_loop e id s else Process_end id s.

(** ** [AcceptLoop] and [Cron] *)

Definition AcceptLoop_accept (e : nat) s : Outcome Threads :=
  with_rings (Initiate e TAccept) s.

(** A connection is given to the next executor; by the time the loop goes on,
    that executor may have the message already. *)
Definition AcceptLoop_turn (self : nat) (ch : choice) s : Outcome (option task * Threads) :=
  match ch_accept ch with
  | AcceptError | AcceptReject => s ← AcceptLoop_accept self s; Ok (None, s)
  | Accepted =>
      let e := S (next_executor s) in
      let id := next_id s in
      next ← umod (Z.of_nat (next_executor s) + 1) (Z.of_nat (length clients));
      let s := mkThreads (rings s) (exrs s) (main s) (get_future_called_ s) (num_not_finished s)
                 (init_promise s) (service_active s) (shutdown_promise_ s) (Z.to_nat next) (S id)
                 (finished s) (stranded s) in
      s ← Schedule self e (TStart e id) (Process_loop e id) s;
      Ok (Some TAcceptNext, s)
  end.

Definition Cron_loop (e : nat) s : Outcome Threads :=
  if service_active s then with_rings (Initiate e TCron) s else Ok s.

(** The lambda of [SetupInitBufRing]. *)
Definition InitBuf_task (e : nat) s : Outcome Threads :=
  match exrs s !! e with
  | None => Ok s
  | Some x =>
      let s := set_exr e (mkExr (running x) (processed x) (looping x) (x_active x) (exited x) true) s in
      Ok (mkThreads (rings s) (exrs s) (main s) (get_future_called_ s)
            (u64 (num_not_finished s - 1))
            (if num_not_finished s =? 1 then true else init_promise s)
            (service_active s) (shutdown_promise_ s) (next_executor s) (next_id s) (finished s)
            (stranded s))
  end.

(** A task on thread [self], up to its next suspension. *)
Definition resume (self : nat) (t : task) (ch : choice) s : Outcome (option task * Threads) :=
  let fin (o : Outcome Threads) := s ← o; Ok (None, s) in
  match t with
  | TInitBuf e => fin (InitBuf_task e s)
  | TStartCron | TCron => fin (Cron_loop self s)
  | TStartAccept | TAcceptNext => fin (AcceptLoop_accept self s)
  | TAccept => AcceptLoop_turn self ch s
  | TStart e id => fin (Process_loop e id s)
  | TRecv e id => fin (Process_received self e id ch s)
  | TInvoke e id => fin (Process_invoke self e id ch s)
  | TBack e id => fin (Process_reply e id s)
  | TSend e id => fin (Process_sent e id ch s)
  end.

(** ** [EventLoop] *)

Definition EventLoop_round (e : nat) s : Threads :=
  match exrs s !! e with
  | Some x =>
      if bool_decide (running x = None) && negb (exited x) then
        if x_active x then
          set_exr e (mkExr None 0 true true false (bufs x)) (set_rings (submit e (rings s)) s)
        else set_exr e (mkExr None (processed x) false false true (bufs x)) s
      else s
  | None => s
  end.

(** The next completion: 0 stops the round. *)
Definition EventLoop_take (e : nat) s : Threads :=
  match exrs s !! e with
  | Some x =>
      if bool_decide (running x = None) && looping x && negb (exited x) then
        match peek e (rings s) with
        | Some (t, r) =>
            set_exr e (mkExr t (S (processed x)) (bool_decide (is_Some t)) (x_active x) (exited x)
                         (bufs x)) (set_rings r s)
        | None => s
        end
      else s
  | None => s
  end.

(** Once per batch the executor submits. *)
Definition EventLoop_run (e : nat) (ch : choice) s : Outcome Threads :=
  match exrs s !! e with
  | Some x =>
      match running x with
      | Some t =>
          '(next, s) ← resume e t ch s;
          match exrs s !! e with
          | None => Ok s
          | Some x =>
              let s := set_exr e (mkExr next (processed x) (looping x) (x_active x) (exited x)
                                    (bufs x)) s in
              Ok (if bool_decide (next = None) && (processed x mod batch =? 0)%nat
                  then set_rings (submit e (rings s)) s else s)
          end
      | None => Ok s
      end
  | None => Ok s
  end.

(** ** The main thread *)

Definition GetShutdownFuture s : Outcome Threads :=
  if get_future_called_ s then Fault LogFatal
  else Ok (mkThreads (rings s) (exrs s) (main s) true (num_not_finished s) (init_promise s)
             (service_active s) (shutdown_promise_ s) (next_executor s) (next_id s) (finished s)
             (stranded s)).

Definition Deactivate (e : nat) s : Outcome Threads :=
  match exrs s !! e with
  | None => Ok s
  | Some x =>
      with_rings (send_stop main_ring e)
        (set_exr e (mkExr (running x) (processed x) (looping x) false (exited x) (bufs x)) s)
  end.

(** The main thread schedules on a ring of its own. *)
Definition main_schedule (e : nat) (t : task) s : Outcome Threads :=
  Schedule main_ring e t (λ s, Ok s) s.

(** The end of the constructor, and [Setup] up to [SetupInitBufRing], whose
    counter starts at the number of client executors. *)
Definition Setup_begin s : Outcome Threads :=
  s ← GetShutdownFuture s;
  Ok (if use_ring_buffer c
      then mkThreads (rings s) (exrs s) (MInit clients) (get_future_called_ s)
             (Z.of_nat (length clients)) false (service_active s) (shutdown_promise_ s)
             (next_executor s) (next_id s) (finished s) (stranded s)
      else set_main MCron s).

(** The loop of [SetupInitBufRing], then its wait. *)
Definition SetupInitBufRing (todo : list nat) s : Outcome Threads :=
  match todo with
  | e :: l => s ← main_schedule e (TInitBuf e) s; Ok (set_main (MInit l) s)
  | [] => Ok (set_main MWaitInit s)
  end.

Definition main_step s : Outcome Threads :=
  match main s with
  | MConstruct => Setup_begin s
  | MInit l => SetupInitBufRing l s
  | MWaitInit => Ok (if init_promise s then set_main MCron s else s)
  | MCron => s ← main_schedule dss TStartCron s; Ok (set_main MAccept s)
  | MAccept => s ← main_schedule 1 TStartAccept s; Ok (set_main MWaitShutdown s)
  | MWaitShutdown =>
      Ok (if shutdown_promise_ s then set_main (MDeactivate (clients ++ [dss])) s else s)
  | MDeactivate (e :: l) => s ← Deactivate e s; Ok (set_main (MDeactivate l) s)
  | MDeactivate [] => Ok (set_main (MJoin (dss :: clients)) s)
  | MJoin (e :: l) =>
      match exrs s !! e with
      | Some x => Ok (if exited x then set_main (MJoin l) s else s)
      | None => Ok s
      end
  | MJoin [] => Ok (set_main MClose s)
  | MClose => Ok (set_main MDone s)
  | MDone => Ok s
  end.

Definition thread_step (l : label) s : Outcome Threads :=
  match l with
  | LKernel ring i => Ok (set_rings (kernel_move ring i (rings s)) s)
  | LRound e => Ok (EventLoop_round e s)
  | LTake e => Ok (EventLoop_take e s)
  | LRun e ch => EventLoop_run e ch s
  | LMain => main_step s
  end.

Fixpoint thread_run (ls : list label) s : Outcome Threads :=
  match ls with
  | [] => Ok s
  | l :: ls => s ← thread_step l s; thread_run ls s
  end.

(** The server before its constructor's body: empty rings, executors started. *)
Definition initial_threads (r : R) : Threads :=
  mkThreads r (list_to_map ((λ e, (e, new_Exr)) <$> dss :: clients)) MConstruct false 0 false true
    false 0 0 [] [].
End threads.
Arguments Threads : clear implicits.
