(* ===== verification/ThreadsThms.v ===== *)
(** * Correctness of the threads

    The invariant of [Threads]: where every task is, that its user data is
    under way or it is running exactly once, at the executor it belongs to; how
    full the submission queues are; and how far start-up and shutdown are. *)

From S2P Require Import Prelude Config RingExecutor Client Rings Threads.

(** ** Lists of tasks up to order *)

#[global] Instance main_pc_eq_dec : EqDecision main_pc.
Proof. solve_decision. Defined.

#[global] Instance omap_perm {A B} (f : A → option B) : Proper ((≡ₚ) ==> (≡ₚ)) (omap f).
Proof.
  induction 1 as [|x l l' _ IH|x y l|l1 l2 l3 _ IH1 _ IH2]; simpl; [done| | |by etransitivity].
  - by destruct (f x); rewrite IH.
  - destruct (f x), (f y); try done. by constructor.
Qed.

Lemma omap_option_list {A B} (f : A → option B) (o : option A) :
  omap f (option_list o) = option_list (o ≫= f).
Proof. destruct o as [x|]; simpl; [|done]. by destruct (f x). Qed.

(** The executor a task belongs to. *)
Definition home (t : task) : nat :=
  match t with
  | TStartCron | TCron | TInvoke _ _ => dss
  | TStartAccept | TAccept | TAcceptNext => 1
  | TInitBuf e | TStart e _ | TRecv e _ | TBack e _ | TSend e _ => e
  end.

(** The coroutine a task belongs to: one of the server's own, or a client's. *)
Inductive ctl_key := KInit (e : nat) | KCron | KAccept.

Definition ctl (t : task) : option ctl_key :=
  match t with
  | TInitBuf e => Some (KInit e)
  | TStartCron | TCron => Some KCron
  | TStartAccept | TAccept | TAcceptNext => Some KAccept
  | _ => None
  end.
Definition client_of (t : task) : option nat :=
  match t with
  | TStart _ id | TRecv _ id | TInvoke _ id | TBack _ id | TSend _ id => Some id
  | _ => None
  end.
Definition executor_of (t : task) : option nat :=
  match t with
  | TInitBuf e | TStart e _ | TRecv e _ | TInvoke e _ | TBack e _ | TSend e _ => Some e
  | _ => None
  end.

(** What the main thread has still to start. *)
Definition to_start (c : Config) (m : main_pc) : list ctl_key :=
  match m with
  | MConstruct => (KInit <$> clients c) ++ [KCron; KAccept]
  | MInit l => (KInit <$> l) ++ [KCron; KAccept]
  | MWaitInit | MCron => [KCron; KAccept]
  | MAccept => [KAccept]
  | _ => []
  end.

Section proofs.
Context {R : Type} `{!Uring R task} `{!UringLaws R task} (c : Config).
Implicit Types (s : Threads R) (t : task) (r : R) (m : gmap nat Exr) (p : nat * task).

Abbreviation executors := (dss :: clients c).

(** The tasks whose completion is under way, with the executor it goes to, and
    the running ones. *)
Definition due r : list (nat * task) := omap (λ q : nat * option task, pair q.1 <$> q.2) (waiting r).
Definition run m : list (nat * task) :=
  omap (λ q : nat * Exr, pair q.1 <$> running q.2) (map_to_list m).
Definition places s : list (nat * task) := due (rings s) ++ run (exrs s).

Lemma due_same r r' : waiting r' ≡ₚ waiting r → due r' ≡ₚ due r.
Proof. intros E. unfold due. by rewrite E. Qed.
Lemma due_cons r r' e t : waiting r' ≡ₚ (e, Some t) :: waiting r → due r' ≡ₚ (e, t) :: due r.
Proof. intros E. unfold due. by rewrite E. Qed.
Lemma due_stop r r' e : waiting r' ≡ₚ (e, None) :: waiting r → due r' ≡ₚ due r.
Proof. intros E. unfold due. by rewrite E. Qed.

Lemma run_lookup m e x :
  m !! e = Some x → run m ≡ₚ option_list (pair e <$> running x) ++ run (delete e m).
Proof.
  intros E. unfold run. rewrite <- (map_to_list_delete m e x E). simpl.
  by destruct (running x).
Qed.

Lemma run_insert m e x :
  run (<[e := x]> m) ≡ₚ option_list (pair e <$> running x) ++ run (delete e m).
Proof.
  rewrite (run_lookup _ e x) by by rewrite lookup_insert_eq. by rewrite delete_insert_eq.
Qed.

(** A task at its place. *)
Definition good p : Prop :=
  home p.2 = p.1 ∧ p.1 ∈ executors ∧ ∀ e, executor_of p.2 = Some e → e ∈ clients c.

(** ** What resuming a task does *)

(** The state [s'] is [s] with one more task [p] under way, sent by thread
    [self]. *)
Definition emits (self : nat) p s s' : Prop :=
  ∃ r, s' = set_rings r s ∧ due r ≡ₚ p :: due (rings s) ∧
    (∀ e, e ≠ self → unsubmitted e r ≤ unsubmitted e (rings s))%nat ∧
    (unsubmitted self r ≤ S (unsubmitted self (rings s)))%nat.

(** Room for one more entry in the queue of a ring. *)
Definition room e r : Prop := (unsubmitted e r < sq_size e)%nat.

Lemma Initiate_emits e t s :
  room e (rings s) → ∃ s', with_rings (Initiate e t) s = Ok s' ∧ emits e (e, t) s s'.
Proof.
  intros Hsz. destruct (Initiate_ok e t (rings s) Hsz) as (r & Hr & Hw & Hu & Hs).
  unfold with_rings. step Hr. eexists. split; [done|]. exists r.
  split_and!; [done|by apply due_cons|done|done].
Qed.

Lemma RingTransfer_emits self e b t s :
  room self (rings s) →
  ∃ s', with_rings (RingTransfer self e b t) s = Ok s' ∧ emits self (e, t) s s'.
Proof.
  intros Hroom. destruct (RingTransfer_ok self e b t (rings s) Hroom) as (r & Hr & Hw & Hu & Hs).
  unfold with_rings. step Hr. eexists. split; [done|]. exists r.
  split_and!; [done|by apply due_cons|done|]. destruct b; lia.
Qed.

(** The effect of running [t] on thread [self] up to its next suspension: the
    tasks [new] are under way, [next] goes on running. *)
Record effect (self : nat) t s (new : list (nat * task)) (next : option task) s' : Prop := {
  ef_due : due (rings s') ≡ₚ new ++ due (rings s);
  ef_good : Forall good (new ++ option_list (pair self <$> next));
  ef_ctl : omap ctl (new.*2 ++ option_list next) ⊆+ option_list (ctl t);
  ef_clients : omap client_of (new.*2 ++ option_list next) ++ finished s' ++ stranded s'
    ≡ₚ option_list (client_of t) ++ finished s ++ stranded s
       ++ seq (next_id s) (next_id s' - next_id s);
  ef_ids : (next_id s ≤ next_id s')%nat ∧ (next_id s' = next_id s ∨ ctl t = Some KAccept);
  ef_turn : (next_executor s' < length (clients c))%nat;
  ef_main : main s' = main s ∧ get_future_called_ s' = get_future_called_ s;
  ef_init : match t with
            | TInitBuf e => InitBuf_task e s = Ok s' ∧ new = [] ∧ next = None
            | _ => exrs s' = exrs s ∧ num_not_finished s' = num_not_finished s ∧
                   init_promise s' = init_promise s
            end;
  ef_queue : ∀ e, (e ≠ self → unsubmitted e (rings s') ≤ unsubmitted e (rings s))%nat ∧
    (unsubmitted self (rings s') ≤ S (unsubmitted self (rings s)))%nat;
  ef_running : match next with Some t' => t = TAccept ∧ t' = TAcceptNext | None => True end }.

(** States that differ in what the service knows only. *)
Definition like s s0 : Prop :=
  ∃ a b, s0 = mkThreads (rings s) (exrs s) (main s) (get_future_called_ s) (num_not_finished s)
                (init_promise s) a b (next_executor s) (next_id s) (finished s) (stranded s).

Lemma like_refl s : like s s.
Proof. exists (service_active s), (shutdown_promise_ s). by destruct s. Qed.

Definition goes_on t s : Prop :=
  (∀ e, t ≠ TInitBuf e) ∧ (next_executor s < length (clients c))%nat.

(** A task that suspends again. *)
Lemma emit_effect self t s s0 e' t' o :
  goes_on t s → like s s0 → good (e', t') → ctl t' = ctl t → client_of t' = client_of t →
  (∃ s', o = Ok s' ∧ emits self (e', t') s0 s') →
  ∃ new next s', (s ← o; Ok (None, s)) = Ok (next, s') ∧ effect self t s new next s'.
Proof.
  intros [Hinit Hturn] (a & b & ->) Hgood Hctl Hcl (s' & -> & r & -> & Hdue & Hq & Hself).
  exists [(e', t')], None. eexists. split; [done|]. split; simpl; try done.
  - by constructor.
  - rewrite <- Hctl. by destruct (ctl t').
  - rewrite Nat.sub_diag, app_nil_r, <- Hcl. by destruct (client_of t').
  - split; [done|by left].
  - by destruct t; try (by specialize (Hinit e)).
  - intros e. split; [apply Hq|done].
Qed.

(** A coroutine that ends. *)
Lemma end_effect self t s s' :
  goes_on t s → rings s' = rings s → next_id s' = next_id s → next_executor s' = next_executor s →
  main s' = main s → get_future_called_ s' = get_future_called_ s → exrs s' = exrs s →
  num_not_finished s' = num_not_finished s → init_promise s' = init_promise s →
  finished s' ++ stranded s' ≡ₚ option_list (client_of t) ++ finished s ++ stranded s →
  effect self t s [] None s'.
Proof.
  intros [Hinit Hturn] Hr Hid Hne Hm Hg Hx Hn Hp Hcl. split; simpl; try done.
  - by rewrite Hr.
  - apply submseteq_nil_l.
  - by rewrite Hid, Nat.sub_diag, app_nil_r, Hcl.
  - split; [lia|by left].
  - by rewrite Hne.
  - by destruct t; try (by specialize (Hinit e)).
  - intros e. rewrite Hr. split; lia.
Qed.

Lemma client_good t e :
  e ∈ clients c → executor_of t = Some e → home t = e → good (e, t).
Proof. intros He Ht Hh. split_and!; simpl; [done|by right|by intros e' [= <-]%(eq_trans (eq_sym Ht))]. Qed.

(** The rest of [Process] after a suspension on the connection's executor, and
    after one on the service's. *)
Lemma receive_effect e id t s :
  goes_on t s → e ∈ clients c → ctl t = None → client_of t = Some id → room e (rings s) →
  ∃ new next s', (s ← Process_loop e id s; Ok (None, s)) = Ok (next, s') ∧ effect e t s new next s'.
Proof.
  intros Hon He Hc Hid Hroom.
  apply (emit_effect e t s s e (TRecv e id)); try done; [apply like_refl|by apply client_good|].
  by apply Initiate_emits.
Qed.

Lemma reply_effect e id t s :
  goes_on t s → e ∈ clients c → ctl t = None → client_of t = Some id → room e (rings s) →
  ∃ new next s', (s ← Process_reply e id s; Ok (None, s)) = Ok (next, s') ∧ effect e t s new next s'.
Proof.
  intros Hon He Hc Hid Hroom.
  apply (emit_effect e t s s e (TSend e id)); try done; [apply like_refl|by apply client_good|].
  by apply Initiate_emits.
Qed.

Lemma finish_effect self id t s :
  goes_on t s → client_of t = Some id →
  ∃ new next s', (s ← Process_end id s; Ok (None, s)) = Ok (next, s') ∧ effect self t s new next s'.
Proof.
  intros Hon Hid. exists [], None. eexists. split; [done|]. apply end_effect; try done.
  by rewrite Hid.
Qed.

Lemma invoke_effect self e id ch s :
  goes_on (TInvoke e id) s → e ∈ clients c → self = dss → room self (rings s) →
  ∃ new next s', (s ← Process_invoke self e id ch s; Ok (None, s)) = Ok (next, s') ∧
    effect self (TInvoke e id) s new next s'.
Proof.
  intros Hon He -> Hroom. unfold Process_invoke.
  destruct (ch_shutdown ch && shutdown_promise_ s).
  { exists [], None. eexists. split; [done|]. apply end_effect; try done. simpl.
    by rewrite Permutation_middle. }
  set (s0 := if ch_shutdown ch then _ else s).
  assert (like s s0) as Hlike.
  { unfold s0. destruct (ch_shutdown ch); [by eexists _, _|apply like_refl]. }
  apply (emit_effect dss _ s s0 e (TBack e id)); try done; [by apply client_good|].
  unfold ResumeOn. assert ((e =? dss)%nat = false) as ->.
  { apply Nat.eqb_neq. apply elem_of_seq in He. unfold dss. lia. }
  apply RingTransfer_emits. by destruct Hlike as (a & b & ->).
Qed.

Lemma accept_effect t s :
  goes_on t s → ctl t = Some KAccept → client_of t = None → room 1 (rings s) →
  ∃ new next s', (s ← AcceptLoop_accept 1 s; Ok (None, s)) = Ok (next, s') ∧ effect 1 t s new next s'.
Proof.
  intros Hon Hc Hid Hroom.
  apply (emit_effect 1 t s s 1 TAccept); try done; [apply like_refl| |by apply Initiate_emits].
  split_and!; simpl; [done| |done]. right. apply elem_of_seq. destruct Hon as [_ Hon].
  unfold clients in Hon. rewrite length_seq in Hon. lia.
Qed.

Lemma cron_effect t s :
  goes_on t s → ctl t = Some KCron → client_of t = None → room dss (rings s) →
  ∃ new next s', (s ← Cron_loop dss s; Ok (None, s)) = Ok (next, s') ∧ effect dss t s new next s'.
Proof.
  intros Hon Hc Hid Hroom. unfold Cron_loop. destruct (service_active s).
  - apply (emit_effect dss t s s dss TCron); try done; [apply like_refl| |by apply Initiate_emits].
    split_and!; simpl; [done|by left|done].
  - exists [], None, s. split; [done|]. apply end_effect; try done. by rewrite Hid.
Qed.

(** A new connection: the executors take turns. *)
Lemma turn_effect ch s :
  (next_executor s < length (clients c))%nat → room 1 (rings s) →
  ∃ new next s', AcceptLoop_turn c 1 ch s = Ok (next, s') ∧ effect 1 TAccept s new next s'.
Proof.
  intros Hturn Hroom. unfold AcceptLoop_turn. destruct (ch_accept ch).
  1,2: by apply accept_effect.
  rewrite umod_Ok by lia. cbn [mbind outcome_bind].
  set (e := S (next_executor s)). set (s0 := mkThreads _ _ _ _ _ _ _ _ _ _ _ _).
  assert (e ∈ clients c) as He.
  { apply elem_of_seq. unfold clients in Hturn. rewrite length_seq in Hturn. unfold e. lia. }
  assert (1%nat ∈ clients c) as H1.
  { apply elem_of_seq. unfold clients in Hturn. rewrite length_seq in Hturn. lia. }
  assert (∃ t' s', Schedule 1 e (TStart e (next_id s)) (Process_loop e (next_id s)) s0 = Ok s' ∧
    emits 1 (e, t') s0 s' ∧ ctl t' = None ∧ client_of t' = Some (next_id s) ∧ good (e, t'))
    as (t' & s' & Hs' & (r & -> & Hdue & Hq & Hself) & Hc & Hid & Hg).
  { unfold Schedule. destruct (Nat.eqb_spec e 1) as [->|Hne].
    - destruct (Initiate_emits 1 (TRecv 1 (next_id s)) s0 Hroom) as (s' & ? & ?).
      exists (TRecv 1 (next_id s)), s'. split_and!; try done. by apply client_good.
    - destruct (RingTransfer_emits 1 e true (TStart e (next_id s)) s0 Hroom) as (s' & ? & ?).
      exists (TStart e (next_id s)), s'. split_and!; try done. by apply client_good. }
  exists [(e, t')], (Some TAcceptNext), (set_rings r s0). split; [by step Hs'|]. split; simpl.
  - done.
  - constructor; [done|]. constructor; [|done]. split_and!; simpl; [done|by right|done].
  - by rewrite Hc.
  - rewrite Hid. simpl. replace (S (next_id s) - next_id s)%nat with 1%nat by lia. simpl.
    by rewrite app_assoc, <- Permutation_cons_append.
  - split; [lia|by right].
  - apply Nat2Z.inj_lt. rewrite Z2Nat.id; [apply Z.mod_pos_bound; lia|apply Z.mod_pos_bound; lia].
  - done.
  - done.
  - intros e0. split; [apply Hq|done].
  - done.
Qed.

Lemma init_effect self e s :
  (next_executor s < length (clients c))%nat →
  ∃ new next s', (s ← InitBuf_task e s; Ok (None, s)) = Ok (next, s') ∧
    effect self (TInitBuf e) s new next s'.
Proof.
  intros Hturn. exists [], None. unfold InitBuf_task. destruct (exrs s !! e) as [x|] eqn:Ex; eexists;
    (split; [done|]); split; simpl; rewrite ?Nat.sub_diag, ?app_nil_r; try done;
    try apply submseteq_nil_l; try (by split; [lia|left]); unfold InitBuf_task; try by rewrite Ex.
  all: intros e0; simpl; split; lia.
Qed.

(** Every task on its thread returns and suspends again, ends, or goes on. *)
Lemma resume_effect self t ch s :
  good (self, t) → room self (rings s) → (next_executor s < length (clients c))%nat →
  ∃ new next s', resume c self t ch s = Ok (next, s') ∧ effect self t s new next s'.
Proof.
  intros (Hh & He & Hx) Hroom Hturn. simpl in Hh, He, Hx.
  assert ((∀ e, t ≠ TInitBuf e) → goes_on t s) as Hon by done.
  destruct t as [e| | | | | |e id|e id|e id|e id|e id]; cbn [resume]; simpl in Hh; subst self;
    try specialize (Hx e eq_refl); try specialize (Hon ltac:(done)).
  - by apply init_effect.
  - by apply cron_effect.
  - by apply accept_effect.
  - by apply cron_effect.
  - by apply turn_effect.
  - by apply accept_effect.
  - by apply (receive_effect e id).
  - unfold Process_received. destruct (ch_event ch).
    + by apply finish_effect.
    + by apply (receive_effect e id).
    + by apply (reply_effect e id).
    + unfold ResumeOn. assert ((dss =? e)%nat = false) as ->.
      { apply Nat.eqb_neq. apply elem_of_seq in Hx. unfold dss. lia. }
      apply (emit_effect e _ s s dss (TInvoke e id)); try done; [apply like_refl| |].
      * split_and!; simpl; [done|by left|by intros e' [= <-]].
      * by apply RingTransfer_emits.
  - by apply invoke_effect.
  - by apply (reply_effect e id).
  - unfold Process_sent. destruct (ch_written ch); [by apply (receive_effect e id)|by apply finish_effect].
Qed.

(** ** Where the tasks are *)

Definition keys s : list ctl_key := omap ctl (places s).*2.
Definition ids s : list nat := omap client_of (places s).*2.

Record placed s : Prop := {
  pl_good : Forall good (places s);
  pl_ctl : NoDup (keys s ++ to_start c (main s));
  pl_clients : ids s ++ finished s ++ stranded s ≡ₚ seq 0 (next_id s);
  pl_turn : (next_executor s < length (clients c))%nat }.

(** Moving tasks around changes nothing. *)
Lemma placed_perm s s' :
  places s' ≡ₚ places s → main s' = main s → finished s' = finished s → stranded s' = stranded s →
  next_id s' = next_id s → next_executor s' = next_executor s → placed s → placed s'.
Proof.
  intros Hp Hm Hf Hst Hid Hne [Hg Hc Hcl Ht]. unfold keys, ids in *. split; unfold keys, ids;
    rewrite ?Hp, ?Hm, ?Hf, ?Hst, ?Hid, ?Hne; done.
Qed.

Lemma places_at s e x :
  exrs s !! e = Some x →
  places s ≡ₚ option_list (pair e <$> running x) ++ due (rings s) ++ run (delete e (exrs s)).
Proof. intros E. unfold places. rewrite (run_lookup _ _ _ E). solve_Permutation. Qed.

Lemma places_set s e x :
  places (set_exr e x s)
  ≡ₚ option_list (pair e <$> running x) ++ due (rings s) ++ run (delete e (exrs s)).
Proof. unfold places. simpl. rewrite run_insert. solve_Permutation. Qed.

Lemma submseteq_NoDup {A} (l k : list A) : l ⊆+ k → NoDup k → NoDup l.
Proof.
  intros [k' ->]%submseteq_Permutation Hk. by apply NoDup_app in Hk as [? _].
Qed.

(** Resuming a task: it is replaced by what it sends off and what goes on. *)
Lemma run_places e t x s new next s1 x1 :
  exrs s !! e = Some x → running x = Some t → effect e t s new next s1 →
  delete e (exrs s1) = delete e (exrs s) → running x1 = next →
  ∃ rest, places s ≡ₚ (e, t) :: rest ∧
    places (set_exr e x1 s1) ≡ₚ (new ++ option_list (pair e <$> next)) ++ rest.
Proof.
  intros Hx Hrun Hef Hdel Hnext. exists (due (rings s) ++ run (delete e (exrs s))). split.
  - rewrite (places_at _ _ _ Hx), Hrun. done.
  - rewrite places_set, Hnext, Hdel, (ef_due _ _ _ _ _ _ Hef). solve_Permutation.
Qed.

Lemma next_snd (e : nat) (next : option task) : (option_list (pair e <$> next)).*2 = option_list next.
Proof. by destruct next. Qed.

Lemma placed_run e t x s new next s1 x1 :
  placed s → exrs s !! e = Some x → running x = Some t → effect e t s new next s1 →
  delete e (exrs s1) = delete e (exrs s) → running x1 = next →
  placed (set_exr e x1 s1).
Proof.
  intros [Hg Hc Hcl Ht] Hx Hrun Hef Hdel Hnext.
  destruct (run_places _ _ _ _ _ _ _ _ Hx Hrun Hef Hdel Hnext) as (rest & E & E').
  unfold keys, ids in *. rewrite E in Hg, Hc, Hcl. simpl in Hc, Hcl.
  split; unfold keys, ids; rewrite ?E'; simpl.
  - apply Forall_app. split; [apply Hef|]. by apply Forall_cons in Hg as [_ ?].
  - rewrite (proj1 (ef_main _ _ _ _ _ _ Hef)). eapply submseteq_NoDup; [|exact Hc].
    rewrite fmap_app, omap_app, fmap_app, next_snd. rewrite <- app_assoc.
    transitivity (option_list (ctl t) ++ omap ctl rest.*2 ++ to_start c (main s)).
    + apply submseteq_skips_r, Hef.
    + by destruct (ctl t).
  - rewrite fmap_app, omap_app, fmap_app, next_snd.
    pose proof (ef_clients _ _ _ _ _ _ Hef) as Hcs. destruct (ef_ids _ _ _ _ _ _ Hef) as [Hle _].
    set (k := (next_id s1 - next_id s)%nat) in *.
    replace (next_id s1) with (next_id s + k)%nat by lia. rewrite seq_app, <- Hcl. simpl.
    transitivity ((omap client_of (new.*2 ++ option_list next) ++ finished s1 ++ stranded s1)
                  ++ omap client_of rest.*2); [solve_Permutation|].
    rewrite Hcs. destruct (client_of t); simpl; solve_Permutation.
  - apply Hef.
Qed.

(** ** How full the queues are

    Between two submissions an executor runs at most a batch of tasks, and
    each adds at most two entries. *)

(** What the server's rings are set up with. *)
Record rings_fit : Prop := {
  rf_clients : 1 ≤ client_executors c < 2 ^ 32;
  rf_size : ∀ e, e ∈ executors → (2 * batch c ≤ sq_size e)%nat;
  rf_main : (0 < sq_size (main_ring c))%nat ∧ polled (main_ring c) = false }.

Definition quota (x : Exr) : nat :=
  match running x with
  | Some TAcceptNext => 2 * ((processed x - 1) mod batch c) + 1
  | Some _ => 2 * ((processed x - 1) mod batch c)
  | None => if looping x then 2 * (processed x mod batch c) else 2 * batch c
  end.

Record queued s : Prop := {
  qu_exr : ∀ e x, exrs s !! e = Some x →
    (unsubmitted e (rings s) ≤ quota x)%nat;
  qu_other : ∀ e, e ∉ executors → unsubmitted e (rings s) = 0%nat;
  qu_dom : ∀ e, is_Some (exrs s !! e) ↔ e ∈ executors;
  qu_run : ∀ e x, exrs s !! e = Some x → is_Some (running x) →
    looping x = true ∧ (1 ≤ processed x)%nat ∧ exited x = false }.

Lemma batch_pos : (0 < batch c)%nat.
Proof. unfold batch. lia. Qed.

Lemma batch_next n :
  (1 ≤ n)%nat → (n mod batch c = 0 ∨ n mod batch c = (n - 1) mod batch c + 1)%nat.
Proof.
  intros Hn. pose proof batch_pos as Hb. set (b := batch c) in *. clearbody b.
  pose proof (Nat.div_mod (n - 1) b ltac:(lia)) as E. pose proof (Nat.mod_upper_bound (n - 1) b ltac:(lia)) as Hq.
  set (q := ((n - 1) mod b)%nat) in *. set (k := ((n - 1) / b)%nat) in *.
  destruct (decide (q + 1 = b)%nat) as [Eq|Hne].
  - left. symmetry. apply (Nat.mod_unique n b (k + 1)); lia.
  - right. symmetry. apply (Nat.mod_unique n b k); lia.
Qed.

Lemma main_ring_other e : e ∈ executors → main_ring c ≠ e.
Proof.
  unfold main_ring, clients. intros [->|He]%elem_of_cons; [done|]. apply elem_of_seq in He. lia.
Qed.

Lemma qu_main s : queued s → unsubmitted (main_ring c) (rings s) = 0%nat.
Proof. intros Hq. apply (qu_other _ Hq). intros He. by destruct (main_ring_other _ He). Qed.

Lemma submit_le e r e' : (unsubmitted e' (submit e r) ≤ unsubmitted e' r)%nat.
Proof.
  rewrite submit_unsubmitted. case_decide; subst; lia.
Qed.

Lemma run_room e x t s :
  rings_fit → queued s → exrs s !! e = Some x → running x = Some t → room e (rings s).
Proof.
  intros Hfit [Hq _ Hd Hr] Hx Ht. pose proof (rf_size Hfit e (proj1 (Hd e) ltac:(eauto))) as Hsz.
  pose proof batch_pos. unfold room. specialize (Hq _ _ Hx). unfold quota in Hq. rewrite Ht in Hq.
  pose proof (Nat.mod_upper_bound (processed x - 1) (batch c) ltac:(lia)).
  destruct t; lia.
Qed.

(** Changes of the rings that add nothing. *)
Lemma queued_rings s r :
  queued s → (∀ e, unsubmitted e r ≤ unsubmitted e (rings s))%nat → queued (set_rings r s).
Proof.
  intros [Hq Hm Hd Hr] Hle. split; simpl; try done.
  - intros e x Hx. etransitivity; [apply Hle|by apply Hq].
  - intros e He. specialize (Hle e). rewrite Hm in Hle by done. lia.
Qed.

(** Changes of one executor. *)
Lemma queued_exr s e x x' :
  queued s → exrs s !! e = Some x →
  (unsubmitted e (rings s) ≤ quota x')%nat →
  (is_Some (running x') → looping x' = true ∧ (1 ≤ processed x')%nat ∧ exited x' = false) →
  queued (set_exr e x' s).
Proof.
  intros [Hq Hm Hd Hr] Hx Hqx Hrx. split; simpl; try done.
  - intros e' y [[<- <-]|[_ Hy]]%lookup_insert_Some; [done|by apply Hq].
  - intros e'. rewrite <- Hd. destruct (decide (e' = e)) as [->|].
    + rewrite lookup_insert_eq, Hx. by split; eauto.
    + by rewrite lookup_insert_ne by done.
  - intros e' y [[<- <-]|[_ Hy]]%lookup_insert_Some; [done|by eapply Hr].
Qed.

(** A task changes at most whether its own executor has buffers. *)
Definition readied t (b : bool) : bool := match t with TInitBuf _ => true | _ => b end.

Lemma run_exrs e t x s new next s1 :
  home t = e → exrs s !! e = Some x → effect e t s new next s1 →
  exrs s1 = <[e := mkExr (running x) (processed x) (looping x) (x_active x) (exited x)
                     (readied t (bufs x))]> (exrs s).
Proof.
  intros Hh Hx Hef. pose proof (ef_init _ _ _ _ _ _ Hef) as Hi.
  destruct t as [e'| | | | | | | | | |]; simpl;
    try (destruct Hi as (-> & _); symmetry; apply insert_id; rewrite Hx; by destruct x).
  simpl in Hh. subst e'. destruct Hi as [Hi _]. unfold InitBuf_task in Hi. rewrite Hx in Hi.
  by injection Hi as <-.
Qed.

Lemma queued_run e t x s new next s1 :
  rings_fit → queued s → home t = e → exrs s !! e = Some x → running x = Some t →
  effect e t s new next s1 →
  let x1 := mkExr next (processed x) (looping x) (x_active x) (exited x) (readied t (bufs x)) in
  let s2 := set_exr e x1 s1 in
  queued (if bool_decide (next = None) && (processed x mod batch c =? 0)%nat
          then set_rings (submit e (rings s2)) s2 else s2).
Proof.
  intros Hfit Hqs Hh Hx Ht Hef x1 s2. pose proof Hqs as [Hq Hm Hd Hr].
  destruct (Hr e x Hx ltac:(eauto)) as (Hl & Hpr & Hex).
  pose proof (ef_queue _ _ _ _ _ _ Hef) as Hu.
  assert (e ∈ executors) as He by (apply Hd; eauto).
  set (r := if bool_decide (next = None) && (processed x mod batch c =? 0)%nat
            then submit e (rings s1) else rings s1).
  enough (queued (set_rings r s2)) as Hgoal.
  { revert Hgoal. unfold r. destruct (_ && _); [done|]. by destruct s1. }
  assert (∀ e', unsubmitted e' r ≤ unsubmitted e' (rings s1))%nat as Hle.
  { intros e'. unfold r. destruct (_ && _); [apply submit_le|done]. }
  split; simpl; rewrite ?(run_exrs _ _ _ _ _ _ _ Hh Hx Hef), ?insert_insert_eq.
  - intros e' y [[<- <-]|[Hne Hy]]%lookup_insert_Some.
    + pose proof (Hq _ _ Hx) as Hqx. destruct (Hu e) as [_ Hself].
      pose proof (batch_next (processed x) Hpr) as Hb.
      pose proof (ef_running _ _ _ _ _ _ Hef) as Hnext.
      unfold quota in *. rewrite Ht in Hqx. simpl. rewrite Hl. destruct next as [t'|].
      * destruct Hnext as [-> ->]. specialize (Hle e). lia.
      * destruct (Nat.eqb_spec (processed x mod batch c) 0) as [Hz|Hz].
        -- unfold r. simpl. rewrite submit_unsubmitted, decide_True by done. lia.
        -- specialize (Hle e). destruct Hb as [?|Hb]; [done|]. rewrite Hb. destruct t; lia.
    + etransitivity; [apply Hle|]. destruct (Hu e') as [Ho _]. etransitivity; [apply Ho; done|].
      by apply Hq.
  - intros e' He'. specialize (Hle e'). destruct (Hu e') as [Ho _]. specialize (Ho ltac:(congruence)).
    rewrite Hm in Ho by done. lia.
  - intros e'. rewrite <- Hd. destruct (decide (e' = e)) as [->|].
    + rewrite lookup_insert_eq, Hx. by split; eauto.
    + by rewrite lookup_insert_ne by done.
  - intros e' y [[<- <-]|[Hne Hy]]%lookup_insert_Some; [done|by eapply Hr].
Qed.

(** ** Start-up and shutdown *)

Definition unready (m : gmap nat Exr) (e : nat) : bool :=
  match m !! e with Some x => negb (bufs x) | None => false end.

Definition past_init (m : main_pc) : bool :=
  match m with MConstruct | MInit _ | MWaitInit => false | _ => true end.
(** Executor [e] has been joined. *)
Definition joined (m : main_pc) (e : nat) : Prop :=
  match m with MJoin l => e ∉ l | MClose | MDone => True | _ => False end.

Record ordered s : Prop := {
  or_future : main s = MConstruct → get_future_called_ s = false;
  or_none : KAccept ∈ to_start c (main s) → next_id s = 0%nat;
  or_unready : ∀ e, KInit e ∈ keys s ++ to_start c (main s) → e ∈ clients c ∧ unready (exrs s) e = true;
  or_init : ∀ e, KInit e ∈ keys s → use_ring_buffer c = true ∧ main s ≠ MConstruct;
  or_count : use_ring_buffer c = true → main s ≠ MConstruct →
    num_not_finished s = Z.of_nat (length (filter (λ e, unready (exrs s) e = true) (clients c)));
  or_promise : init_promise s = true → ∀ e, e ∈ clients c → unready (exrs s) e = false;
  or_ready : use_ring_buffer c = true → past_init (main s) = true →
    ∀ e, e ∈ clients c → unready (exrs s) e = false;
  or_use : ∀ l, main s = MInit l → use_ring_buffer c = true;
  or_joined : ∀ e x, exrs s !! e = Some x → joined (main s) e → exited x = true }.

(** Only the tasks and the buffers of the executors matter. *)
Lemma ordered_same s s' :
  places s' ≡ₚ places s → main s' = main s → get_future_called_ s' = get_future_called_ s →
  next_id s' = next_id s → num_not_finished s' = num_not_finished s →
  init_promise s' = init_promise s →
  (∀ e, unready (exrs s') e = unready (exrs s) e) →
  (∀ e x, exrs s' !! e = Some x → joined (main s) e → exited x = true) →
  ordered s → ordered s'.
Proof.
  intros Hp Hm Hg Hid Hn Hi Hu Hj []. unfold keys in *.
  split; unfold keys; rewrite ?Hm, ?Hg, ?Hid, ?Hn, ?Hi; try done.
  - intros e. rewrite Hp, Hu. apply or_unready0.
  - intros e. rewrite Hp. apply or_init0.
  - intros Hr Hc. rewrite or_count0 by done. do 2 f_equal. apply list_filter_iff. intros e. by rewrite Hu.
  - intros Hpr e. rewrite Hu. by apply or_promise0.
  - intros Hr Hpi e. rewrite Hu. by apply or_ready0.
Qed.

Lemma unready_set s e x x' :
  exrs s !! e = Some x → bufs x' = bufs x →
  ∀ e', unready (exrs (set_exr e x' s)) e' = unready (exrs s) e'.
Proof.
  intros Hx Hb e'. unfold unready. simpl. destruct (decide (e' = e)) as [->|].
  - by rewrite lookup_insert_eq, Hx, Hb.
  - by rewrite lookup_insert_ne by done.
Qed.

Lemma filter_drop_one {A} `{!EqDecision A} (P Q : A → Prop) `{!∀ x, Decision (P x)} `{!∀ x, Decision (Q x)} a l :
  NoDup l → a ∈ l → P a → (∀ x, Q x ↔ P x ∧ x ≠ a) →
  length (filter P l) = S (length (filter Q l)).
Proof.
  intros Hnd Ha HP HQ. induction Hnd as [|x l Hx Hnd IH]; [by apply elem_of_nil in Ha|].
  rewrite !filter_cons. destruct (decide (x = a)) as [->|Hne].
  - rewrite decide_True, (decide_False (P := Q a)) by (rewrite ?HQ; naive_solver). simpl. do 2 f_equal.
    clear Ha Hnd IH. induction l as [|y l IH]; [done|]. apply not_elem_of_cons in Hx as [Hy Hx].
    rewrite !filter_cons, (IH Hx).
    destruct (decide (P y)); [rewrite (decide_True (P := Q y))|rewrite (decide_False (P := Q y))];
      rewrite ?HQ; naive_solver.
  - apply elem_of_cons in Ha as [?|Ha]; [done|]. specialize (IH Ha).
    destruct (decide (P x)); [rewrite (decide_True (P := Q x))|rewrite (decide_False (P := Q x))];
      rewrite ?HQ; naive_solver.
Qed.

Lemma filter_all {A} (P : A → Prop) `{!∀ x, Decision (P x)} l : Forall P l → filter P l = l.
Proof.
  induction 1 as [|x l Hx _ IH]; [done|]. by rewrite filter_cons, decide_True, IH.
Qed.

Lemma nodup_clients : NoDup (clients c).
Proof. apply NoDup_seq. Qed.

(** The lambda of [SetupInitBufRing]: the last one sets the promise. *)
Lemma ordered_init e x s s1 x1 :
  rings_fit → ordered s → KInit e ∈ keys s → exrs s !! e = Some x → InitBuf_task e s = Ok s1 →
  (∀ k, k ∈ keys (set_exr e x1 s1) → k ∈ keys s ∧ k ≠ KInit e) →
  KInit e ∉ to_start c (main s) →
  bufs x1 = true → exited x1 = exited x → ordered (set_exr e x1 s1).
Proof.
  intros Hfit [] Hk Hx Hs1 Hkeys Hnot Hb Hex.
  unfold InitBuf_task in Hs1. rewrite Hx in Hs1. injection Hs1 as <-.
  set (s' := set_exr e x1 _) in *.
  assert (exrs s' = <[e := x1]> (exrs s)) as Hxs by (simpl; apply insert_insert_eq).
  destruct (or_unready0 e) as [He Hun]; [apply elem_of_app; by left|].
  destruct (or_init0 e Hk) as [Hring Hmain]. specialize (or_count0 Hring Hmain).
  assert (∀ e', unready (exrs s') e' = true ↔ unready (exrs s) e' = true ∧ e' ≠ e) as Hiff.
  { intros e'. rewrite Hxs. unfold unready. destruct (decide (e' = e)) as [->|Hne].
    - rewrite lookup_insert_eq, Hb. naive_solver.
    - rewrite lookup_insert_ne by done. naive_solver. }
  assert (∀ e', unready (exrs s) e' = false → unready (exrs s') e' = false) as Hmono.
  { intros e' E. destruct (unready (exrs s') e') eqn:E'; [|done]. apply Hiff in E' as [? _]. congruence. }
  pose proof (filter_drop_one _ (λ e', unready (exrs s') e' = true) e _ nodup_clients He Hun Hiff) as Hlen.
  assert (length (clients c) < 2 ^ 32)%nat as Hn.
  { unfold clients. rewrite length_seq. pose proof (rf_clients Hfit). apply Nat2Z.inj_lt.
    rewrite Nat2Z.inj_pow. lia. }
  pose proof (length_filter (λ e', unready (exrs s) e' = true) (clients c)) as Hle.
  apply Nat2Z.inj_lt in Hn. rewrite Nat2Z.inj_pow in Hn. change (Z.of_nat 2 ^ Z.of_nat 32) with (2 ^ 32) in Hn.
  split; simpl main in *; try done.
  - intros e' [[Hin Hne]%Hkeys|Hin]%elem_of_app.
    + destruct (or_unready0 e') as [? ?]; [apply elem_of_app; by left|]. split; [done|].
      apply Hiff. split; [done|]. by intros ->.
    + destruct (or_unready0 e') as [? ?]; [apply elem_of_app; by right|]. split; [done|].
      apply Hiff. split; [done|]. by intros ->.
  - intros _ _. cbn [num_not_finished set_exr set_exrs s']. rewrite or_count0. rewrite u64_small by lia. lia.
  - cbn [init_promise set_exr set_exrs s']. destruct (Z.eqb_spec (num_not_finished s) 1) as [E1|_].
    + intros _ e' He'. destruct (unready (exrs s') e') eqn:Eu; [|done].
      assert (e' ∈ filter (λ e', unready (exrs s') e' = true) (clients c)) as Hin
        by by apply list_elem_of_filter.
      destruct (filter (λ e', unready (exrs s') e' = true) (clients c)); [by apply elem_of_nil in Hin|].
      simpl in Hlen. lia.
    + intros Hpr e' He'. apply Hmono. by apply or_promise0.
  - intros Hr Hp e' He'. apply Hmono. by apply or_ready0.
  - intros e' y. rewrite Hxs. intros [[<- <-]|[Hne Hy]]%lookup_insert_Some Hj.
    + rewrite Hex. by eapply or_joined0.
    + by eapply or_joined0.
Qed.

Lemma ordered_run e t x s new next s1 x1 :
  rings_fit → placed s → ordered s → exrs s !! e = Some x → running x = Some t →
  effect e t s new next s1 → running x1 = next → exited x1 = exited x →
  bufs x1 = readied t (bufs x) → ordered (set_exr e x1 s1).
Proof.
  intros Hfit Hpl Hor Hx Ht Hef Hn Hex Hb. pose proof Hpl as [Hg Hc _ _].
  assert (home t = e) as Hh.
  { pose proof (places_at _ _ _ Hx) as E. rewrite Ht in E. rewrite E in Hg.
    by apply Forall_cons in Hg as [[? _] _]. }
  pose proof (run_exrs _ _ _ _ _ _ _ Hh Hx Hef) as Hxs.
  assert (delete e (exrs s1) = delete e (exrs s)) as Hdel by (rewrite Hxs; apply delete_insert_eq).
  destruct (run_places _ _ _ _ _ _ _ _ Hx Ht Hef Hdel Hn) as (rest & E & E').
  assert (keys s ≡ₚ option_list (ctl t) ++ omap ctl rest.*2) as Ek.
  { unfold keys. rewrite E. simpl. by destruct (ctl t). }
  assert (keys (set_exr e x1 s1) ≡ₚ omap ctl (new.*2 ++ option_list next) ++ omap ctl rest.*2) as Ek'.
  { unfold keys. rewrite E', !fmap_app, next_snd, omap_app. done. }
  rewrite Ek in Hc.
  assert (∀ k, k ∈ keys (set_exr e x1 s1) → k ∈ keys s) as Hkeys.
  { intros k. rewrite Ek, Ek'. intros [Hk|Hk]%elem_of_app; apply elem_of_app; [left|by right].
    eapply elem_of_submseteq; [exact Hk|apply Hef]. }
  destruct (decide (t = TInitBuf e)) as [->|Hno].
  - destruct (ef_init _ _ _ _ _ _ Hef) as (Hi & -> & ->).
    simpl in Hc, Ek. apply NoDup_cons in Hc as [Hfresh _]. rewrite not_elem_of_app in Hfresh.
    eapply (ordered_init e x s s1 x1); try done.
    + rewrite Ek. by left.
    + intros k Hk. split; [by apply Hkeys|]. rewrite Ek' in Hk. simpl in Hk. intros ->. by destruct Hfresh.
    + by destruct Hfresh.
  - assert (exrs s1 = exrs s ∧ num_not_finished s1 = num_not_finished s ∧
      init_promise s1 = init_promise s) as (Hsame & Hnum & Hpr).
    { pose proof (ef_init _ _ _ _ _ _ Hef). destruct t; try done. simpl in Hh. by subst. }
    assert (bufs x1 = bufs x) as Hbx
      by (rewrite Hb; destruct t; try done; simpl in Hh; by subst).
    assert (∀ e', unready (exrs (set_exr e x1 s1)) e' = unready (exrs s) e') as Hu.
    { intros e'. rewrite <- Hsame in Hx. rewrite (unready_set s1 e x x1 Hx Hbx). by rewrite Hsame. }
    destruct (ef_main _ _ _ _ _ _ Hef) as [Hm Hf]. destruct Hor.
    split; cbn [main get_future_called_ next_id num_not_finished init_promise set_exr set_exrs];
      rewrite ?Hm, ?Hf, ?Hnum, ?Hpr; try done.
    + intros Ha. destruct (ef_ids _ _ _ _ _ _ Hef) as [_ [->|Hca]]; [by apply or_none0|].
      rewrite Hca in Hc. simpl in Hc. apply NoDup_cons in Hc as [Hc _]. set_solver.
    + intros e' [Hk|Hk]%elem_of_app; rewrite Hu; apply or_unready0, elem_of_app; [left; by apply Hkeys|by right].
    + intros e' Hk%Hkeys. by apply (or_init0 e').
    + intros Hr Hmm. rewrite or_count0 by done. do 2 f_equal. apply list_filter_iff. intros e'. by rewrite Hu.
    + intros Hp' e'. rewrite Hu. by apply or_promise0.
    + intros Hr Hp' e'. rewrite Hu. by apply or_ready0.
    + simpl. rewrite Hsame. intros e' y [[<- <-]|[Hne Hy]]%lookup_insert_Some Hj;
        [rewrite Hex|]; by eapply or_joined0.
Qed.

(** ** The invariant of the server's threads *)

Record threads_ok s : Prop := {
  th_placed : placed s;
  th_queued : queued s;
  th_ordered : ordered s }.

Lemma at_home s e x t :
  placed s → exrs s !! e = Some x → running x = Some t → good (e, t).
Proof.
  intros [Hg _ _ _] Hx Ht. pose proof (places_at _ _ _ Hx) as E. rewrite Ht in E. rewrite E in Hg.
  by apply Forall_cons in Hg as [? _].
Qed.

(** Rings may move what is under way. *)
Lemma ok_rings s r :
  threads_ok s → due r ≡ₚ due (rings s) →
  (∀ e, unsubmitted e r ≤ unsubmitted e (rings s))%nat → threads_ok (set_rings r s).
Proof.
  intros [Hp Hq Ho] Hw Hu.
  assert (places (set_rings r s) ≡ₚ places s) as E.
  { unfold places. simpl. by rewrite Hw. }
  split; [by apply (placed_perm s)|by apply queued_rings|].
  apply (ordered_same s); try done. intros e x Hx Hj. by eapply or_joined.
Qed.

(** An executor between two tasks. *)
Lemma ok_idle s e x x' :
  threads_ok s → exrs s !! e = Some x → running x = None → running x' = None → bufs x' = bufs x →
  (unsubmitted e (rings s) ≤ quota x')%nat →
  (exited x = true → exited x' = true) → threads_ok (set_exr e x' s).
Proof.
  intros [Hp Hq Ho] Hx Hr Hr' Hb Hu Hex.
  assert (places (set_exr e x' s) ≡ₚ places s) as E.
  { rewrite places_set, (places_at _ _ _ Hx), Hr, Hr'. done. }
  split; [by apply (placed_perm s)| |].
  - eapply queued_exr; [done|done|done|]. rewrite Hr'. by intros [? ?].
  - apply (ordered_same s); try done; [by eapply unready_set|].
    simpl. intros e' y [[<- <-]|[_ Hy]]%lookup_insert_Some Hj; [apply Hex|]; by eapply or_joined.
Qed.

Lemma round_ok e s : threads_ok s → threads_ok (EventLoop_round e s).
Proof.
  intros Hok. unfold EventLoop_round. destruct (exrs s !! e) as [x|] eqn:Hx; [|done].
  destruct (bool_decide (running x = None)) eqn:Hr; [|done]. apply bool_decide_eq_true in Hr.
  destruct (exited x) eqn:Hex; [done|]. cbn [andb negb].
  destruct (x_active x).
  - eapply (ok_idle (set_rings (submit e (rings s)) s) e x); try done.
    + apply ok_rings; [done|apply due_same, submit_waiting|apply submit_le].
    + simpl. rewrite submit_unsubmitted, decide_True by done. lia.
    + by rewrite Hex.
  - eapply (ok_idle s e x); try done. unfold quota. simpl.
    pose proof (qu_exr _ (th_queued _ Hok) _ _ Hx) as Hq. unfold quota in Hq. rewrite Hr in Hq.
    pose proof batch_pos. pose proof (Nat.mod_upper_bound (processed x) (batch c) ltac:(lia)).
    destruct (looping x); lia.
Qed.

Lemma take_ok e s : threads_ok s → threads_ok (EventLoop_take e s).
Proof.
  intros Hok. unfold EventLoop_take. destruct (exrs s !! e) as [x|] eqn:Hx; [|done].
  destruct (bool_decide (running x = None)) eqn:Hr; [|done]. apply bool_decide_eq_true in Hr.
  destruct (looping x) eqn:Hl; [|done]. destruct (exited x) eqn:Hex; [done|]. cbn [andb negb].
  destruct (peek e (rings s)) as [[t r]|] eqn:Hpk; [|done].
  pose proof (peek_waiting _ _ _ _ Hpk) as Hw.
  assert (∀ e', unsubmitted e' r = unsubmitted e' (rings s)) as Hu
    by (intros; by eapply peek_unsubmitted).
  pose proof Hok as [Hp Hq Ho]. set (x' := mkExr t _ _ _ _ _).
  assert (places (set_exr e x' (set_rings r s)) ≡ₚ places s) as E.
  { rewrite places_set, (places_at _ _ _ Hx), Hr. simpl. destruct t as [t|]; simpl.
    - rewrite (due_cons _ _ _ _ Hw). done.
    - by rewrite (due_stop _ _ _ Hw). }
  split; [by apply (placed_perm s)| |].
  - eapply (queued_exr (set_rings r s) e x); [apply queued_rings; [done|intros; by rewrite Hu]|done| |].
    + simpl. rewrite Hu. pose proof (qu_exr _ Hq _ _ Hx) as Hqx. unfold quota in *.
      rewrite Hr, Hl in Hqx. simpl. pose proof batch_pos.
      pose proof (Nat.mod_upper_bound (processed x) (batch c) ltac:(lia)).
      rewrite Nat.sub_0_r. destruct t as [[]|]; simpl; lia.
    + simpl. intros Ht. by rewrite bool_decide_true by done; split; [|split; [lia|]].
  - apply (ordered_same s); try done; [by eapply (unready_set (set_rings r s))|].
    simpl. intros e' y [[<- <-]|[_ Hy]]%lookup_insert_Some Hj; [|by eapply or_joined].
    pose proof (or_joined _ Ho _ _ Hx Hj). congruence.
Qed.

Lemma run_ok e ch s :
  rings_fit → threads_ok s → ∃ s', EventLoop_run c e ch s = Ok s' ∧ threads_ok s'.
Proof.
  intros Hfit Hok. unfold EventLoop_run. destruct (exrs s !! e) as [x|] eqn:Hx; [|by exists s].
  destruct (running x) as [t|] eqn:Ht; [|by exists s]. pose proof Hok as [Hp Hq Ho].
  pose proof (at_home _ _ _ _ Hp Hx Ht) as Hg. pose proof Hg as (Hh & _). simpl in Hh.
  destruct (resume_effect e t ch s Hg (run_room _ _ _ _ Hfit Hq Hx Ht) (pl_turn _ Hp))
    as (new & next & s1 & Hres & Hef). step Hres.
  pose proof (run_exrs _ _ _ _ _ _ _ Hh Hx Hef) as Hxs. rewrite Hxs, lookup_insert_eq.
  cbn [processed looping x_active exited bufs]. eexists. split; [done|].
  set (x1 := mkExr next _ _ _ _ _). set (s2 := set_exr e x1 s1).
  assert (placed s2) as Hp2.
  { eapply placed_run; try done. rewrite Hxs. apply delete_insert_eq. }
  assert (ordered s2) as Ho2 by exact (ordered_run e t x s new next s1 x1 Hfit Hp Ho Hx Ht Hef eq_refl eq_refl eq_refl).
  pose proof (queued_run e t x s new next s1 Hfit Hq Hh Hx Ht Hef) as Hq2. cbv zeta in Hq2.
  fold x1 in Hq2. fold s2 in Hq2. destruct (_ && _); [|by split].
  split; [|done|].
  - apply (placed_perm s2); try done. unfold places. simpl. by rewrite (due_same _ _ (submit_waiting e _)).
  - apply (ordered_same s2); try done.
    + unfold places. simpl. by rewrite (due_same _ _ (submit_waiting e _)).
    + intros e' y Hy Hj. by eapply (or_joined _ Ho2).
Qed.

(** ** The main thread *)

(** It only counts down what it has to start and moves on. *)
Lemma ok_main s (m : main_pc) :
  threads_ok s → to_start c m ⊆+ to_start c (main s) → m ≠ MConstruct →
  main s ≠ MConstruct ∨ use_ring_buffer c = false →
  past_init m = false ∨ past_init (main s) = true ∨ use_ring_buffer c = false ∨
    init_promise s = true →
  (∀ l, m = MInit l → use_ring_buffer c = true) →
  (∀ e x, exrs s !! e = Some x → joined m e → exited x = true) → threads_ok (set_main m s).
Proof.
  intros [[Hg Hc Hcl Ht] Hq []] Hsub Hm Hold Hpast Huse Hj.
  assert (∀ k, k ∈ to_start c m → k ∈ to_start c (main s)) as Hin
    by (intros k Hk; by eapply elem_of_submseteq).
  split; [split| |split]; simpl; try done.
  - eapply submseteq_NoDup; [|exact Hc]. by apply submseteq_skips_l.
  - by destruct Hq; split.
  - intros Hk%Hin. by apply or_none0.
  - intros e [Hk|Hk%Hin]%elem_of_app; apply or_unready0, elem_of_app; [by left|by right].
  - intros e Hk. split; [by apply (or_init0 e)|done].
  - intros Hr _. apply or_count0; [done|]. destruct Hold; [done|congruence].
  - intros Hr Hp. destruct Hpast as [?|[?|[?|?]]]; [congruence|by apply or_ready0|congruence|by apply or_promise0].
Qed.

(** It starts a task. *)
Lemma ok_start s (m : main_pc) e t k r :
  threads_ok s → due r ≡ₚ (e, t) :: due (rings s) →
  (∀ e', unsubmitted e' r ≤ unsubmitted e' (rings s))%nat →
  good (e, t) → client_of t = None → ctl t = Some k → to_start c (main s) = k :: to_start c m →
  main s ≠ MConstruct → m ≠ MConstruct → past_init m = past_init (main s) →
  (∀ e, joined m e → False) →
  (∀ e', k = KInit e' → use_ring_buffer c = true) → (∀ l, m = MInit l → use_ring_buffer c = true) →
  threads_ok (set_main m (set_rings r s)).
Proof.
  intros [[Hg Hc Hcl Ht] Hq []] Hdue Hu Hgood Hcl' Hk Hst Hold Hm Hpast Hj Huse Huse'.
  assert (places (set_main m (set_rings r s)) ≡ₚ (e, t) :: places s) as E
    by (unfold places; simpl; by rewrite Hdue).
  assert (keys (set_main m (set_rings r s)) ≡ₚ k :: keys s) as Ek
    by (unfold keys; rewrite E; simpl; by rewrite Hk).
  assert (∀ k', k' ∈ keys (set_main m (set_rings r s)) ++ to_start c m →
                k' ∈ keys s ++ to_start c (main s)) as Hin.
  { intros k'. rewrite Ek, Hst. set_solver. }
  split; [split| |split]; cbn [main next_id finished stranded next_executor set_main set_rings]; try done.
  - rewrite E. by constructor.
  - rewrite Ek. rewrite Hst in Hc. by rewrite <- Permutation_middle in Hc.
  - unfold ids. rewrite E. simpl. by rewrite Hcl'.
  - destruct (queued_rings s r Hq Hu). by split.
  - intros Hk'. apply or_none0. rewrite Hst. by right.
  - intros e' Hk'%Hin. by apply or_unready0.
  - intros e'. rewrite Ek. intros [Heq|Hk']%elem_of_cons; (split; [|done]).
    + by apply (Huse e').
    + by apply (or_init0 e').
  - intros Hr _. by apply or_count0.
  - rewrite Hpast. apply or_ready0.
  - intros e' x _ Hj'. by destruct (Hj e').
Qed.

Lemma main_schedule_ok e t s :
  rings_fit → queued s → e ∈ executors →
  ∃ r, main_schedule c e t s = Ok (set_rings r s) ∧ due r ≡ₚ (e, t) :: due (rings s) ∧
    (∀ e', unsubmitted e' r ≤ unsubmitted e' (rings s))%nat.
Proof.
  intros Hfit Hq He. pose proof (main_ring_other e He) as Hne. destruct (rf_main Hfit) as [Hsz Hpol].
  unfold main_schedule, Schedule. assert ((e =? main_ring c)%nat = false) as -> by (by apply Nat.eqb_neq).
  destruct (RingTransfer_ok (main_ring c) e true t (rings s)) as (r & Hr & Hw & Ho & Hs).
  { by rewrite (qu_main _ Hq). }
  exists r. unfold with_rings. step Hr. split; [done|]. split; [by apply due_cons|].
  intros e'. destruct (decide (e' = main_ring c)) as [->|]; [lia|by apply Ho].
Qed.

Lemma deactivate_ok e s :
  rings_fit → threads_ok s → ∃ s', Deactivate c e s = Ok s' ∧ threads_ok s' ∧ main s' = main s.
Proof.
  intros Hfit Hok. unfold Deactivate. destruct (exrs s !! e) as [x|] eqn:Hx; [|by exists s].
  set (x' := mkExr _ _ _ _ _ _). set (s0 := set_exr e x' s).
  assert (threads_ok s0) as Hok0.
  { destruct Hok as [Hp Hq Ho].
    assert (places s0 ≡ₚ places s) as E by (unfold s0; by rewrite places_set, (places_at _ _ _ Hx)).
    split; [by apply (placed_perm s)| |].
    - eapply queued_exr; [done|done|exact (qu_exr _ Hq _ _ Hx)|exact (qu_run _ Hq _ _ Hx)].
    - apply (ordered_same s); try done; [by eapply unready_set|].
      simpl. intros e' y [[<- <-]|[_ Hy]]%lookup_insert_Some Hj; [simpl|]; by eapply (or_joined _ Ho). }
  destruct (rf_main Hfit) as [Hsz Hpol]. unfold with_rings, send_stop.
  rewrite sq_space_ok by (by rewrite ?(qu_main _ (th_queued _ Hok0))). cbn [mbind outcome_bind].
  eexists. split; [done|]. split; [|done]. apply ok_rings; [done| |].
  - eapply due_stop. by rewrite submit_waiting, put_msg_waiting.
  - intros e'. rewrite submit_unsubmitted. case_decide; [lia|].
    rewrite put_msg_unsubmitted. by case_decide.
Qed.

Lemma construct_ok s :
  threads_ok s → main s = MConstruct → ∃ s', main_step c s = Ok s' ∧ threads_ok s'.
Proof.
  intros [Hp Hq Ho] Em. unfold main_step. rewrite Em.
  unfold Setup_begin, GetShutdownFuture. rewrite (or_future _ Ho Em). cbn [mbind outcome_bind].
  eexists. split; [done|]. destruct Hp as [Hg Hc Hcl Ht], Hq, Ho. rewrite Em in *.
  assert (∀ e, e ∈ clients c → unready (exrs s) e = true) as Hun.
  { intros e He. apply or_unready0. apply elem_of_app. right. apply elem_of_app. left.
    by apply list_elem_of_fmap_2. }
  assert (∀ e, KInit e ∉ keys s) as Hno by (intros e [_ ?]%or_init0; done).
  destruct (use_ring_buffer c) eqn:Hring.
  - split; [by split|by split|]. split; simpl; try done.
    + intros _ _. rewrite filter_all; [done|]. by apply Forall_forall.
  - assert (to_start c MCron ⊆+ to_start c MConstruct) by (by apply submseteq_inserts_l).
    split; [split| |split]; simpl; try done.
    + eapply submseteq_NoDup; [|exact Hc]. by apply submseteq_skips_l.
    + intros Hk. apply or_none0. set_solver.
    + intros e [Hk|Hk]%elem_of_app; [by destruct (Hno e)|set_solver].
    + intros e Hk. by destruct (Hno e).
    + by rewrite Hring.
    + by rewrite Hring.
Qed.

Lemma main_ok s : rings_fit → threads_ok s → ∃ s', main_step c s = Ok s' ∧ threads_ok s'.
Proof.
  intros Hfit Hok. pose proof Hok as [Hp Hq Ho]. pose proof (qu_dom _ Hq) as Hd.
  assert (1%nat ∈ clients c) as H1 by (apply elem_of_seq; pose proof (rf_clients Hfit); lia).
  destruct (decide (main s = MConstruct)) as [E|Hmain]; [by apply construct_ok|].
  unfold main_step, SetupInitBufRing. destruct (main s) as [|[|e l]| | | | |[|e l]|[|e l]| |] eqn:Em.
  - done.
  - eexists. split; [done|]. apply ok_main; rewrite ?Em; try done; by left.
  - destruct (or_unready _ Ho e) as [He _]; [rewrite Em; apply elem_of_app; right; by left|].
    destruct (main_schedule_ok e (TInitBuf e) s Hfit Hq) as (r & Hr & Hdue & Hu); [by right|].
    step Hr. eexists. split; [done|].
    pose proof (or_use _ Ho _ Em). eapply ok_start; rewrite ?Em; try done. by apply client_good.
  - eexists. split; [done|]. destruct (init_promise s) eqn:Hi; [|done].
    apply ok_main; rewrite ?Em; try done; [by left|by do 3 right].
  - destruct (main_schedule_ok dss TStartCron s Hfit Hq) as (r & Hr & Hdue & Hu); [by left|].
    step Hr. eexists. split; [done|].
    eapply ok_start; rewrite ?Em; try done. split_and!; simpl; [done|by left|done].
  - destruct (main_schedule_ok 1 TStartAccept s Hfit Hq) as (r & Hr & Hdue & Hu); [by right|].
    step Hr. eexists. split; [done|].
    eapply ok_start; rewrite ?Em; try done. split_and!; simpl; [done|by right|done].
  - eexists. split; [done|]. destruct (shutdown_promise_ s); [|done].
    apply ok_main; rewrite ?Em; try done; [by left|by right; left].
  - eexists. split; [done|].
    apply ok_main; rewrite ?Em; try done; [by left|by right; left|].
    intros e x Hx Hj. simpl in Hj. destruct Hj. apply Hd. by eauto.
  - destruct (deactivate_ok e s Hfit Hok) as (s' & Hs' & Hok' & Hm). step Hs'. eexists.
    split; [done|]. rewrite Em in Hm. apply ok_main; rewrite ?Hm; try done; [by left|by right; left].
  - eexists. split; [done|]. apply ok_main; rewrite ?Em; try done; [by left|by right; left|].
    intros e x Hx _. eapply (or_joined _ Ho); [done|]. rewrite Em. simpl. set_solver.
  - destruct (exrs s !! e) as [x|] eqn:Hx; [|by eexists]. eexists. split; [done|].
    destruct (exited x) eqn:Hex; [|done].
    apply ok_main; rewrite ?Em; try done; [by left|by right; left|].
    intros e' y Hy Hj. destruct (decide (e' = e)) as [->|Hne]; [congruence|].
    eapply (or_joined _ Ho); [done|]. rewrite Em. simpl in *. set_solver.
  - eexists. split; [done|]. apply ok_main; rewrite ?Em; try done; [by left|by right; left|].
    intros e x Hx _. eapply (or_joined _ Ho); [done|]. by rewrite Em.
  - by eexists.
Qed.

Lemma step_ok l s : rings_fit → threads_ok s → ∃ s', thread_step c l s = Ok s' ∧ threads_ok s'.
Proof.
  intros Hfit Hok. destruct l as [ring i|e|e|e ch|]; cbn [thread_step].
  - eexists. split; [done|].
    apply ok_rings; [done|apply due_same, kernel_waiting|apply kernel_unsubmitted].
  - eexists. split; [done|]. by apply round_ok.
  - eexists. split; [done|]. by apply take_ok.
  - by apply run_ok.
  - by apply main_ok.
Qed.

(** Empty rings. *)
Definition idle_rings r : Prop := waiting r = [] ∧ ∀ e, unsubmitted e r = 0%nat.

Lemma initial_exrs r e x :
  exrs (initial_threads c r) !! e = Some x ↔ e ∈ executors ∧ x = new_Exr.
Proof.
  assert (NoDup executors) as Hnd.
  { apply NoDup_cons. split; [|apply NoDup_seq]. intros He%elem_of_seq. unfold dss in He. lia. }
  etransitivity; [symmetry; apply (elem_of_list_to_map (M:=gmap nat))|].
  { by rewrite <- list_fmap_compose, list_fmap_id. }
  rewrite list_elem_of_fmap. split; [by intros (? & [= -> ->] & ?)|intros [? ->]; by eexists].
Qed.

Lemma initial_ok r : rings_fit → idle_rings r → threads_ok (initial_threads c r).
Proof.
  intros Hfit [Hw Hu]. set (s := initial_threads c r).
  assert (places s = []) as E.
  { unfold places, due. simpl rings. rewrite Hw. simpl.
    destruct (run (exrs s)) as [|y l] eqn:Eo; [done|exfalso].
    assert (y ∈ run (exrs s)) as Hy by (rewrite Eo; by left).
    apply list_elem_of_omap in Hy as ([e x] & Hx%elem_of_map_to_list & Hy).
    apply initial_exrs in Hx as [_ ->]. done. }
  assert (∀ e, e ∈ clients c → unready (exrs s) e = true) as Hun.
  { intros e He. unfold unready.
    assert (exrs s !! e = Some new_Exr) as -> by (apply initial_exrs; split; [by right|done]). done. }
  split; split; unfold keys, ids; rewrite ?E; simpl main; simpl; try done.
  - apply NoDup_app. split_and!.
    + apply NoDup_fmap; [by intros ?? [=]|apply nodup_clients].
    + intros k (e & -> & _)%list_elem_of_fmap. set_solver.
    + repeat constructor; set_solver.
  - unfold clients. rewrite length_seq. pose proof (rf_clients Hfit). lia.
  - intros e x _. rewrite Hu. lia.
  - intros e. split; [by intros [x [? _]%initial_exrs]|]. intros He.
    exists new_Exr. exact (proj2 (initial_exrs r e new_Exr) (conj He eq_refl)).
  - by intros e x [_ ->]%initial_exrs [? ?].
  - intros e [(e' & [= ->] & He)%list_elem_of_fmap|Hk]%elem_of_app; [by split; [|apply Hun]|set_solver].
  - by intros e Hk%elem_of_nil.
Qed.

Lemma run_threads ls s :
  rings_fit → threads_ok s → ∃ s', thread_run c ls s = Ok s' ∧ threads_ok s'.
Proof.
  intros Hfit. revert s. induction ls as [|l ls IH]; intros s Hok; [by exists s|]. cbn [thread_run].
  destruct (step_ok l s Hfit Hok) as (s1 & Hs & Hok1). step Hs. by apply IH.
Qed.

Lemma reached ls r s :
  rings_fit → idle_rings r → thread_run c ls (initial_threads c r) = Ok s → threads_ok s.
Proof.
  intros Hfit Hr Hs. destruct (run_threads ls _ Hfit (initial_ok r Hfit Hr)) as (s' & E & Hok).
  rewrite Hs in E. by injection E as <-.
Qed.

(** ** Theorems *)

(** What a task uses that is not an atomic variable or behind the lock of the
    client table: the service with its tables, a client with its buffers and
    parser, an executor's slots and receive buffers, the listener. *)
Inductive resource := RService | RClient (id : nat) | RExecutor (e : nat) | RListener.

Definition footprint (t : task) : list resource :=
  match t with
  | TInitBuf e => [RExecutor e]
  | TStartCron | TCron => [RService]
  | TStartAccept | TAccept | TAcceptNext => [RListener; RExecutor 1]
  | TStart e id | TRecv e id | TBack e id | TSend e id => [RClient id; RExecutor e]
  | TInvoke _ id => [RService; RClient id]
  end.

Lemma two_running s e1 e2 x1 x2 t1 t2 :
  exrs s !! e1 = Some x1 → exrs s !! e2 = Some x2 → e1 ≠ e2 →
  running x1 = Some t1 → running x2 = Some t2 →
  ∃ rest, places s ≡ₚ (e1, t1) :: (e2, t2) :: rest.
Proof.
  intros H1 H2 Hne Ht1 Ht2. pose proof (places_at _ _ _ H1) as E. rewrite Ht1 in E. simpl in E.
  rewrite (run_lookup (delete e1 (exrs s)) e2 x2) in E by (by rewrite lookup_delete_ne).
  rewrite Ht2 in E. simpl in E. eexists. rewrite E. by rewrite <- Permutation_middle.
Qed.

Lemma footprint_home t (r : resource) :
  r ∈ footprint t →
  match r with
  | RService => home t = dss
  | RListener => home t = 1%nat
  | RExecutor e => home t = e
  | RClient id => client_of t = Some id
  end.
Proof. destruct t, r; set_solver. Qed.


(** C9: No client is lost: every connection given to an executor is exactly one of
    a client that has ended, a client whose coroutine an exception ended, or a
    coroutine that runs or whose completion is under way, once, to its
    executor. *)
Theorem no_client_lost ls r s :
  rings_fit → idle_rings r → thread_run c ls (initial_threads c r) = Ok s →
  ids s ++ finished s ++ stranded s ≡ₚ seq 0 (next_id s) ∧
  ∀ e t, (e, t) ∈ places s → home t = e ∧ e ∈ executors.
Proof.
  intros Hfit Hr Hs. pose proof (reached _ _ _ Hfit Hr Hs) as [[Hg _ Hcl _] _ _]. split; [done|].
  intros e t Hin. rewrite Forall_forall in Hg. by destruct (Hg _ Hin) as (? & ? & _).
Qed.


(** C15: Start-up and shutdown are in order: no connection is given to an executor
    before all client executors have their receive buffers (when they are
    used), and when the main thread closes the clients every event loop has
    ended and no task is running. *)
Theorem startup_and_shutdown_in_order ls r s :
  rings_fit → idle_rings r → thread_run c ls (initial_threads c r) = Ok s →
  (use_ring_buffer c = true → next_id s ≠ 0%nat →
     ∀ e x, e ∈ clients c → exrs s !! e = Some x → bufs x = true) ∧
  (main s = MClose → ∀ e x, exrs s !! e = Some x → exited x = true ∧ running x = None).
Proof.
  intros Hfit Hr Hs. pose proof (reached _ _ _ Hfit Hr Hs) as [_ Hq Ho]. split.
  - intros Huse Hid e x He Hx.
    assert (past_init (main s) = true) as Hpast.
    { pose proof (or_none _ Ho) as Hn. destruct (main s); try done; simpl in Hn; set_solver. }
    pose proof (or_ready _ Ho Huse Hpast e He) as Hun. unfold unready in Hun. rewrite Hx in Hun.
    by destruct (bufs x).
  - intros Hm e x Hx. assert (exited x = true) as Hex by (by eapply (or_joined _ Ho); [|rewrite Hm]).
    split; [done|]. destruct (running x) eqn:Ht; [|done].
    destruct (qu_run _ Hq _ _ Hx) as (_ & _ & ?); [by rewrite Ht|congruence].
Qed.
End proofs.
