(* ===== verification/ThreadsFlow.v ===== *)
(** * What each task is followed by

    The tasks that take the place of a resumed one, exactly: the order of the
    suspension points of [Client::Process], [AcceptLoop] and [Cron] on the
    executors.  [ThreadedServer] uses it to run the clients and the service on
    the threads. *)

From S2P Require Import Prelude Config RingExecutor Client Rings Threads ThreadsThms.

Section flow.
Context {R : Type} `{!Uring R task} `{!UringLaws R task} (c : Config).
Implicit Types (s : Threads R) (t : task) (p : nat * task).

(** The tasks sent off, with the executor they go to. *)
Definition successors (self : nat) t (ch : choice) s : list (nat * task) :=
  match t with
  | TInitBuf _ => []
  | TStartCron | TCron => if service_active s then [(self, TCron)] else []
  | TStartAccept | TAcceptNext => [(self, TAccept)]
  | TAccept =>
      match ch_accept ch with
      | AcceptError | AcceptReject => [(self, TAccept)]
      | Accepted =>
          let e := S (next_executor s) in
          [(e, if (e =? self)%nat then TRecv e (next_id s) else TStart e (next_id s))]
      end
  | TStart e id => [(e, TRecv e id)]
  | TRecv e id =>
      match ch_event ch with
      | CClose => []
      | CContinue => [(e, TRecv e id)]
      | CReply => [(e, TSend e id)]
      | CInvoke _ => [(dss, TInvoke e id)]
      end
  | TInvoke e id => [(e, TBack e id)]
  | TBack e id => [(e, TSend e id)]
  | TSend e id => if ch_written ch then [(e, TRecv e id)] else []
  end.

(** The task that goes on running. *)
Definition continues t (ch : choice) : option task :=
  match t, ch_accept ch with TAccept, Accepted => Some TAcceptNext | _, _ => None end.

(** Whether the task calls [DataStructureService::Shutdown]. *)
Definition shuts_down t (ch : choice) : bool :=
  match t with TInvoke _ _ => ch_shutdown ch | _ => false end.

Record flow (self : nat) t (ch : choice) s (next : option task) s' : Prop := {
  fl_due : due (rings s') ≡ₚ successors self t ch s ++ due (rings s);
  fl_next : next = continues t ch;
  fl_active : service_active s' = if shuts_down t ch then false else service_active s;
  fl_promise : shutdown_promise_ s' = if shuts_down t ch then true else shutdown_promise_ s;
  fl_stranded : stranded s' = stranded s }.

Lemma flow_emits self t ch s s0 p o :
  (∃ s', o = Ok s' ∧ emits self p s0 s') → rings s0 = rings s → successors self t ch s = [p] →
  continues t ch = None →
  service_active s0 = (if shuts_down t ch then false else service_active s) →
  shutdown_promise_ s0 = (if shuts_down t ch then true else shutdown_promise_ s) →
  stranded s0 = stranded s →
  ∀ next s', (s ← o; Ok (None, s)) = Ok (next, s') → flow self t ch s next s'.
Proof.
  intros (s1 & -> & r & -> & Hdue & _ & _) Hr Hsucc Hc Ha Hp Hst next s'. cbn [mbind outcome_bind].
  intros [= <- <-]. split; simpl; try done. by rewrite Hsucc, Hdue, Hr.
Qed.

Lemma flow_ends self t ch s s0 :
  rings s0 = rings s → successors self t ch s = [] → continues t ch = None → shuts_down t ch = false →
  service_active s0 = service_active s → shutdown_promise_ s0 = shutdown_promise_ s →
  stranded s0 = stranded s →
  ∀ next s', (s ← Ok s0; Ok (None, s)) = Ok (next, s') → flow self t ch s next s'.
Proof.
  intros Hr Hsucc Hc Hsd Ha Hp Hst next s' [= <- <-]. split; rewrite ?Hsd; try done.
  by rewrite Hsucc, Hr.
Qed.

Lemma turn_flow ch s next s' :
  room 1 (rings s) → AcceptLoop_turn c 1 ch s = Ok (next, s') → flow 1 TAccept ch s next s'.
Proof.
  intros Hroom. unfold AcceptLoop_turn.
  destruct (ch_accept ch) eqn:E.
  1,2: apply (flow_emits 1 TAccept ch s s (1%nat, TAccept)); try done;
    [by apply Initiate_emits|cbn [successors]; by rewrite E|cbn [continues]; by rewrite E].
  intros (n & Hn & H)%bind_Ok_inv. apply bind_Ok_inv in H as (s1 & H1 & [= <- <-]).
  set (s0 := mkThreads _ _ _ _ _ _ _ _ _ _ _ _) in H1. set (e := S (next_executor s)) in *.
  assert (emits 1 (e, if (e =? 1)%nat then TRecv e (next_id s) else TStart e (next_id s)) s0 s1)
    as (r & -> & Hdue & _).
  { unfold Schedule in H1. destruct (Nat.eqb_spec e 1) as [He|He].
    - rewrite He in H1. destruct (Initiate_emits 1 (TRecv 1 (next_id s)) s0 Hroom) as (s2 & E2 & Hem).
      unfold Process_loop in H1. rewrite E2 in H1. injection H1 as <-. by rewrite He.
    - destruct (RingTransfer_emits 1 e true (TStart e (next_id s)) s0 Hroom) as (s2 & E2 & Hem).
      rewrite E2 in H1. by injection H1 as <-. }
  split; simpl; try done; rewrite ?E; [exact Hdue|done].
Qed.

(** A second SHUTDOWN apart, a resumed task is followed by these. *)
Lemma resume_flow self t ch s next s' :
  good c (self, t) → room self (rings s) → shuts_down t ch && shutdown_promise_ s = false →
  resume c self t ch s = Ok (next, s') → flow self t ch s next s'.
Proof.
  intros (Hh & He & Hx) Hroom Hsh. simpl in Hh, He, Hx.
  assert (∀ e, executor_of t = Some e → (dss =? e)%nat = false ∧ (e =? dss)%nat = false) as Hne.
  { intros e Ee. specialize (Hx e Ee). apply elem_of_seq in Hx. unfold dss.
    split; apply Nat.eqb_neq; lia. }
  destruct t as [e| | | | | |e id|e id|e id|e id|e id]; cbn [resume]; simpl in Hh; subst self.
  - unfold InitBuf_task. destruct (exrs s !! e); by apply flow_ends.
  - unfold Cron_loop. destruct (service_active s) eqn:E.
    + apply (flow_emits _ _ _ s s (dss, TCron)); try done; [by apply Initiate_emits|cbn; by rewrite E].
    + apply flow_ends; try done. cbn. by rewrite E.
  - apply (flow_emits _ _ _ s s (1%nat, TAccept)); try done. by apply Initiate_emits.
  - unfold Cron_loop. destruct (service_active s) eqn:E.
    + apply (flow_emits _ _ _ s s (dss, TCron)); try done; [by apply Initiate_emits|cbn; by rewrite E].
    + apply flow_ends; try done. cbn. by rewrite E.
  - by apply turn_flow.
  - apply (flow_emits _ _ _ s s (1%nat, TAccept)); try done. by apply Initiate_emits.
  - apply (flow_emits _ _ _ s s (e, TRecv e id)); try done. by apply Initiate_emits.
  - unfold Process_received. destruct (ch_event ch) as [| | |args] eqn:E.
    + apply flow_ends; try done. cbn. by rewrite E.
    + apply (flow_emits _ _ _ s s (e, TRecv e id)); try done; [by apply Initiate_emits|cbn; by rewrite E].
    + apply (flow_emits _ _ _ s s (e, TSend e id)); try done; [by apply Initiate_emits|cbn; by rewrite E].
    + unfold ResumeOn. rewrite (proj1 (Hne e eq_refl)).
      apply (flow_emits _ _ _ s s (dss, TInvoke e id)); try done;
        [by apply RingTransfer_emits|cbn; by rewrite E].
  - unfold Process_invoke. cbn [shuts_down] in Hsh. rewrite Hsh. unfold ResumeOn.
    rewrite (proj2 (Hne e eq_refl)). destruct (ch_shutdown ch) eqn:E.
    + match goal with |- context [with_rings _ ?s0] =>
        apply (flow_emits _ _ _ s s0 (e, TBack e id)) end; try done;
        [by apply RingTransfer_emits|cbn; by rewrite E..].
    + apply (flow_emits _ _ _ s s (e, TBack e id)); try done;
        [by apply RingTransfer_emits|cbn; by rewrite E..].
  - apply (flow_emits _ _ _ s s (e, TSend e id)); try done. by apply Initiate_emits.
  - unfold Process_sent. destruct (ch_written ch) eqn:E.
    + apply (flow_emits _ _ _ s s (e, TRecv e id)); try done; [by apply Initiate_emits|cbn; by rewrite E].
    + apply flow_ends; try done. cbn. by rewrite E.
Qed.

(** ** Steps of the threads *)

(** The executor runs its task up to the next suspension. *)
Lemma run_flow e ch s s' x t :
  rings_fit c → threads_ok c s → exrs s !! e = Some x → running x = Some t →
  shuts_down t ch && shutdown_promise_ s = false → EventLoop_run c e ch s = Ok s' →
  main s' = main s ∧
  service_active s' = (if shuts_down t ch then false else service_active s) ∧
  shutdown_promise_ s' = (if shuts_down t ch then true else shutdown_promise_ s) ∧
  stranded s' = stranded s ∧
  ∃ rest, places s ≡ₚ (e, t) :: rest ∧
    places s' ≡ₚ (successors e t ch s ++ option_list (pair e <$> continues t ch)) ++ rest.
Proof.
  intros Hfit [Hp Hq Ho] Hx Ht Hsh. unfold EventLoop_run. rewrite Hx, Ht.
  pose proof (at_home c _ _ _ _ Hp Hx Ht) as Hg.
  pose proof (run_room c _ _ _ _ Hfit Hq Hx Ht) as Hroom.
  destruct (resume_effect c e t ch s Hg Hroom (pl_turn _ _ Hp)) as (new & next & s1 & Hres & Hef).
  step Hres. destruct (resume_flow _ _ _ _ _ _ Hg Hroom Hsh Hres) as [Hdue -> Ha Hpr Hst].
  rewrite (run_exrs c _ _ _ _ _ _ _ (proj1 Hg) Hx Hef), lookup_insert_eq.
  intros [= <-]. set (x1 := mkExr _ _ _ _ _ _).
  destruct (run_places c e t x s new _ s1 x1 Hx Ht Hef) as (rest & E & E'); [|done|].
  { rewrite (run_exrs c _ _ _ _ _ _ _ (proj1 Hg) Hx Hef). apply delete_insert_eq. }
  assert (new ≡ₚ successors e t ch s) as Hnew.
  { apply (Permutation_app_inv_r (due (rings s))). by rewrite <- Hdue, <- (ef_due _ _ _ _ _ _ _ Hef). }
  rewrite Hnew in E'. destruct (ef_main _ _ _ _ _ _ _ Hef) as [Hm _].
  destruct (bool_decide (continues t ch = None) && _); (split_and!; [done..|]); exists rest;
    (split; [done|]); [|done].
  rewrite <- E'. unfold places. simpl. by rewrite (due_same _ _ (submit_waiting e _)).
Qed.

(** The other steps touch no client: they only move what is under way and start
    the coroutines of the server's own. *)
Definition quiet s s' : Prop :=
  service_active s' = service_active s ∧ shutdown_promise_ s' = shutdown_promise_ s ∧
  stranded s' = stranded s ∧
  ∃ new, places s' ≡ₚ new ++ places s ∧ Forall (λ p, client_of p.2 = None) new ∧
    (KCron ∈ omap ctl new.*2 ++ to_start c (main s') → KCron ∈ to_start c (main s)).

Lemma quiet_same s s' :
  places s' ≡ₚ places s → main s' = main s → service_active s' = service_active s →
  shutdown_promise_ s' = shutdown_promise_ s → stranded s' = stranded s → quiet s s'.
Proof. intros Hp Hm Ha Hpr Hst. split_and!; try done. exists []. rewrite Hm. by split_and!. Qed.

Lemma quiet_main s (m : main_pc) : (KCron ∈ to_start c m → KCron ∈ to_start c (main s)) → quiet s (set_main m s).
Proof. intros Hk. split_and!; try done. by exists []. Qed.

Lemma round_quiet e s : quiet s (EventLoop_round e s).
Proof.
  unfold EventLoop_round. destruct (exrs s !! e) as [x|] eqn:Hx; [|by apply quiet_same].
  destruct (bool_decide (running x = None)) eqn:Hr; [|by apply quiet_same].
  apply bool_decide_eq_true in Hr. destruct (exited x); [by apply quiet_same|]. cbn [andb negb].
  destruct (x_active x); apply quiet_same; try done; rewrite places_set, (places_at _ _ _ Hx), Hr; [|done].
  cbn. by rewrite (due_same _ _ (submit_waiting e (rings s))).
Qed.

Lemma take_quiet e s : quiet s (EventLoop_take e s).
Proof.
  unfold EventLoop_take. destruct (exrs s !! e) as [x|] eqn:Hx; [|by apply quiet_same].
  destruct (bool_decide (running x = None)) eqn:Hr; [|by apply quiet_same].
  apply bool_decide_eq_true in Hr. destruct (true && looping x && negb (exited x)); [|by apply quiet_same].
  destruct (peek e (rings s)) as [[t r]|] eqn:Hpk; [|by apply quiet_same]. apply quiet_same; try done.
  rewrite places_set, (places_at _ _ _ Hx), Hr. apply peek_waiting in Hpk. simpl. destruct t as [t|]; simpl.
  - by rewrite (due_cons _ _ _ _ Hpk).
  - by rewrite (due_stop _ _ _ Hpk).
Qed.

Lemma schedule_quiet e t k s s' :
  rings_fit c → queued c s → e ∈ dss :: clients c → client_of t = None →
  (KCron ∈ option_list (ctl t) ++ to_start c k → KCron ∈ to_start c (main s)) →
  (s ← main_schedule c e t s; Ok (set_main k s)) = Ok s' → quiet s s'.
Proof.
  intros Hfit Hq He Hcl Hk. destruct (main_schedule_ok c e t s Hfit Hq He) as (r & Hr & Hdue & _).
  step Hr. intros [= <-]. split_and!; try done. exists [(e, t)]. split_and!.
  - unfold places. simpl. by rewrite Hdue.
  - by repeat constructor.
  - simpl. by destruct (ctl t).
Qed.

Lemma deactivate_quiet e k s s' :
  rings_fit c → (KCron ∈ to_start c k → KCron ∈ to_start c (main s)) →
  (s ← Deactivate c e s; Ok (set_main k s)) = Ok s' → quiet s s'.
Proof.
  intros Hfit Hk. unfold Deactivate, with_rings, send_stop. destruct (exrs s !! e) as [x|] eqn:Hx.
  2: { intros [= <-]. by apply quiet_main. }
  destruct (sq_space _ _); [|done]. intros [= <-]. split_and!; try done. exists []. split_and!; [|done|done].
  match goal with |- context [set_exr e ?x' s] =>
    transitivity (places (set_exr e x' s)); [|by rewrite places_set, (places_at _ _ _ Hx)] end.
  unfold places. simpl.
  rewrite (due_stop (rings s) (submit (main_ring c) (put_msg (main_ring c) e None (rings s))) e); [done|].
  by rewrite submit_waiting, put_msg_waiting.
Qed.

Lemma main_quiet s s' : rings_fit c → threads_ok c s → main_step c s = Ok s' → quiet s s'.
Proof.
  intros Hfit [Hp Hq Ho]. unfold main_step, Setup_begin, SetupInitBufRing, GetShutdownFuture.
  assert (1%nat ∈ dss :: clients c) as H1.
  { right. apply elem_of_seq. pose proof (rf_clients _ Hfit). lia. }
  assert (∀ m, (KCron ∈ to_start c m → KCron ∈ to_start c (main s)) → Ok (set_main m s) = Ok s' → quiet s s')
    as Hset by (intros m Hm [= <-]; by apply quiet_main).
  assert (Ok s = Ok s' → quiet s s') as Hstay by (intros [= <-]; by apply quiet_same).
  destruct (main s) as [|[|e l]| | | | |[|e l]|[|e l]| |] eqn:Em.
  - destruct (get_future_called_ s); [done|]. intros [= <-]. destruct (use_ring_buffer c).
    + split_and!; try done. exists []. rewrite Em. by split_and!.
    + split_and!; try done. exists []. rewrite Em. split_and!; try done. simpl. set_solver.
  - by apply Hset.
  - apply (schedule_quiet e); rewrite ?Em; try done.
    right. apply (or_unready _ _ Ho). rewrite Em. apply elem_of_app. right. by left.
  - destruct (init_promise s); [by apply Hset|done].
  - apply (schedule_quiet dss); rewrite ?Em; try done. simpl. set_solver.
  - apply (schedule_quiet 1); rewrite ?Em; try done.
  - destruct (shutdown_promise_ s); [by apply Hset|done].
  - by apply Hset.
  - apply deactivate_quiet; rewrite ?Em; done.
  - by apply Hset.
  - destruct (exrs s !! e) as [x|]; [|done]. destruct (exited x); [by apply Hset|done].
  - by apply Hset.
  - done.
Qed.

Lemma step_quiet l s s' :
  rings_fit c → threads_ok c s → (∀ e ch, l ≠ LRun e ch) → thread_step c l s = Ok s' → quiet s s'.
Proof.
  intros Hfit Hok Hl. destruct l as [ring i|e|e|e ch|]; cbn [thread_step].
  - intros [= <-]. apply quiet_same; try done. unfold places. simpl.
    by rewrite (due_same _ _ (kernel_waiting ring i (rings s))).
  - intros [= <-]. apply round_quiet.
  - intros [= <-]. apply take_quiet.
  - by destruct (Hl e ch).
  - by apply main_quiet.
Qed.
End flow.
