(* ===== verification/ThreadsLive.v ===== *)
(** * Every coroutine goes on

    Liveness of the threads: in an infinite execution in which the event loops
    keep turning and the kernel completes messages, timeouts and sends, every
    task under way is resumed ([task_resumed]), and every command that a client
    has received is run by the service and its reply sent ([command_answered]).

    What io_uring promises for this is in terms of its queues: an entry waits to
    be submitted, is then with the kernel, and then in the completion queue of
    its target, from which completions are read in order. *)

From S2P Require Import Prelude Config RingExecutor Client Rings Threads ThreadsThms ThreadsFlow.

(** ** The queues of a set of rings *)

Class UringQueues (R T : Type) := {
  sq : nat → R → list (nat * option T);    (* not submitted yet *)
  busy : nat → R → list (nat * option T);  (* with the kernel *)
  cq : nat → R → list (option T) }.        (* completions to be read *)

(** Entries only go forward, completions stay in order. *)
Record moves {R T : Type} `{!UringQueues R T} (r r' : R) : Prop := {
  mv_sq : ∀ e x, x ∈ sq e r → x ∈ sq e r' ∨ x ∈ busy e r' ∨ x.2 ∈ cq x.1 r';
  mv_busy : ∀ e x, x ∈ busy e r → x ∈ busy e r' ∨ x.2 ∈ cq x.1 r';
  mv_cq : ∀ e, cq e r `prefix_of` cq e r' }.

Class UringQueueLaws (R T : Type) `{!Uring R T} `{!UringQueues R T} : Prop := {
  queues_waiting (r : R) x : x ∈ waiting r →
    (∃ e, x ∈ sq e r) ∨ (∃ e, x ∈ busy e r) ∨ x.2 ∈ cq x.1 r;
  sq_unsubmitted e (r : R) : unsubmitted e r = 0%nat → sq e r = [];
  put_op_moves e t (r : R) : moves r (put_op e t r);
  put_msg_moves e d t (r : R) : moves r (put_msg e d t r);
  submit_moves e (r : R) : moves r (submit e r);
  submit_sq e (r : R) : sq e (submit e r) = [];
  sqring_wait_moves e (r : R) : moves r (sqring_wait e r);
  kernel_moves e i (r : R) : moves r (kernel_move e i r);
  peek_cq e (r : R) :
    match peek e r with
    | None => cq e r = []
    | Some (t, r') => cq e r = t :: cq e r' ∧ (∀ e', e' ≠ e → cq e' r' = cq e' r) ∧
                      (∀ e', sq e' r' = sq e' r ∧ busy e' r' = busy e' r)
    end }.

#[global] Instance moves_preorder {R T} `{!UringQueues R T} : PreOrder (moves (R:=R) (T:=T)).
Proof.
  split; [intros r; split; [by left|by left|by intros e]|]. intros r1 r2 r3 [H1 H2 H3] [H4 H5 H6].
  assert (∀ (x : nat * option T), x.2 ∈ cq x.1 r2 → x.2 ∈ cq x.1 r3) as Hcq.
  { intros x Hx. destruct (H6 x.1) as [l ->]. apply elem_of_app. by left. }
  split.
  - intros e x [Hx|[Hx|Hx]]%H1; [by apply H4|right; by apply H5|right; right; by apply Hcq].
  - intros e x [Hx|Hx]%H2; [by apply H5|right; by apply Hcq].
  - intros e. by transitivity (cq e r2).
Qed.

(** The tasks that do not wait for a peer. *)
Definition prompt (t : task) : bool :=
  match t with TRecv _ _ | TAccept => false | _ => true end.

Section live.
Context {R : Type} `{!Uring R task} `{!UringLaws R task}.
Context `{!UringQueues R task} `{!UringQueueLaws R task} (c : Config).
Implicit Types (s : Threads R) (t : task) (r : R).
Local Hint Resolve put_op_moves put_msg_moves submit_moves sqring_wait_moves kernel_moves : rdss.

Abbreviation executors := (dss :: clients c).

(** ** What a step does to the queues *)

Lemma moves_refl r : moves r r.
Proof. reflexivity. Qed.
Local Hint Resolve moves_refl : rdss.

Lemma Initiate_moves e t r r' : Initiate e t r = Ok r' → moves r r'.
Proof.
  unfold Initiate. set (r1 := if sq_space e r then r else _). intros Hr.
  transitivity r1; [unfold r1; repeat case_match; auto with rdss|].
  destruct (sq_space e r1); [|done]. injection Hr as <-. auto with rdss.
Qed.

Lemma RingTransfer_moves e d b t r r' : RingTransfer e d b t r = Ok r' → moves r r'.
Proof.
  unfold RingTransfer. set (r1 := if sq_space e r then r else _). intros Hr.
  transitivity r1; [unfold r1; repeat case_match; auto with rdss|].
  destruct (sq_space e r1); [|done]. injection Hr as <-.
  destruct b; [etransitivity; [apply put_msg_moves|apply submit_moves]|auto with rdss].
Qed.

Lemma with_rings_moves f s s' :
  (∀ r r', f r = Ok r' → moves r r') → with_rings f s = Ok s' → moves (rings s) (rings s').
Proof. intros Hf (r & Hr & [= <-])%bind_Ok_inv. by apply Hf. Qed.

Lemma resume_moves self t ch s next s' :
  resume c self t ch s = Ok (next, s') → moves (rings s) (rings s').
Proof.
  assert (∀ e t s0, with_rings (Initiate e t) s0 = Ok s' → moves (rings s0) (rings s')) as Hini
    by (intros ???; apply with_rings_moves, Initiate_moves).
  assert (∀ e d b t s0, with_rings (RingTransfer e d b t) s0 = Ok s' → moves (rings s0) (rings s')) as Htr
    by (intros ?????; apply with_rings_moves, RingTransfer_moves).
  intros Hres. destruct t; cbn [resume] in Hres;
    unfold InitBuf_task, Cron_loop, AcceptLoop_turn, AcceptLoop_accept, Process_received, Process_invoke,
      Process_sent, Process_loop, Process_reply, Process_end, ResumeOn, Schedule in Hres;
    repeat case_match; inv_ok; try reflexivity; try (by eapply Hini); try (by eapply Htr).
  all: match goal with H : with_rings _ ?s0 = Ok _ |- _ =>
         change (moves (rings s0) (rings s')); first [by eapply Hini|by eapply Htr] end.
Qed.

Lemma run_moves e ch s s' : EventLoop_run c e ch s = Ok s' → moves (rings s) (rings s').
Proof.
  unfold EventLoop_run. destruct (exrs s !! e) as [x|]; [|intros [= ->]; reflexivity].
  destruct (running x) as [t|]; [|intros [= ->]; reflexivity].
  intros ([next s1] & Hres & Hs)%bind_Ok_inv. apply resume_moves in Hres.
  transitivity (rings s1); [done|]. destruct (exrs s1 !! e); injection Hs as <-; [|reflexivity].
  destruct (_ && _); simpl; auto with rdss.
Qed.

Lemma main_moves s s' : main_step c s = Ok s' → moves (rings s) (rings s').
Proof.
  assert (∀ e t s0, main_schedule c e t s = Ok s0 → moves (rings s) (rings s0)) as Hsch.
  { intros e t s0. unfold main_schedule, Schedule. case_match; [intros [= ->]; reflexivity|].
    apply with_rings_moves, RingTransfer_moves. }
  unfold main_step, Setup_begin, GetShutdownFuture, SetupInitBufRing, Deactivate.
  intros Hs. repeat case_match; inv_ok; try reflexivity; try (by eapply Hsch).
  match goal with H : with_rings _ ?s0 = Ok ?s1 |- _ => change (moves (rings s0) (rings s1)) end.
  eapply with_rings_moves; [|done]. unfold send_stop. intros r r' Hr. destruct (sq_space _ r); [|done].
  injection Hr as <-. etransitivity; [apply put_msg_moves|apply submit_moves].
Qed.

Definition runs (e : nat) t s : Prop := ∃ x, exrs s !! e = Some x ∧ running x = Some t.

(** An executor that reads the next completion. *)
Definition takes (e : nat) s : Prop :=
  ∃ x, exrs s !! e = Some x ∧ running x = None ∧ looping x = true ∧ exited x = false.
(** An executor that starts a round, and is not to stop. *)
Definition turns (e : nat) s : Prop :=
  ∃ x, exrs s !! e = Some x ∧ running x = None ∧ x_active x = true ∧ exited x = false.

(** A completion is read, or entries move on. *)
Lemma step_queues l s s' :
  thread_step c l s = Ok s' →
  moves (rings s) (rings s') ∨
  ∃ e (t : option task), l = LTake e ∧ peek e (rings s) = Some (t, rings s') ∧
    ∀ t', t = Some t' → runs e t' s'.
Proof.
  destruct l as [ring i|e|e|e ch|]; cbn [thread_step]; intros Hs.
  - left. injection Hs as <-. apply kernel_moves.
  - left. injection Hs as <-. unfold EventLoop_round.
    repeat case_match; simpl; auto with rdss.
  - injection Hs as <-. unfold EventLoop_take.
    destruct (exrs s !! e) as [x|] eqn:Hx; [|auto with rdss].
    destruct (_ && _ && _); [|auto with rdss]. destruct (peek e (rings s)) as [[t r]|] eqn:Hp; [|auto with rdss].
    right. exists e, t. split; [done|]. split; [done|]. intros t' ->. eexists. simpl.
    rewrite lookup_insert_eq. by split.
  - left. by eapply run_moves.
  - left. by apply main_moves.
Qed.

(** A task runs until its executor goes on with it. *)
Lemma runs_kept l e t s s' :
  rings_fit c → threads_ok c s → thread_step c l s = Ok s' → runs e t s →
  runs e t s' ∨ ∃ ch, l = LRun e ch.
Proof.
  intros Hfit Hok Hs (x & Hx & Ht). destruct l as [ring i|e'|e'|e' ch|]; cbn [thread_step] in Hs.
  - left. injection Hs as <-. by exists x.
  - left. injection Hs as <-. unfold EventLoop_round. destruct (decide (e' = e)) as [->|Hne].
    + rewrite Hx, Ht. by exists x.
    + destruct (exrs s !! e'); [|by exists x]. exists x.
      repeat case_match; simpl; by rewrite ?lookup_insert_ne by done.
  - left. injection Hs as <-. unfold EventLoop_take. destruct (decide (e' = e)) as [->|Hne].
    + rewrite Hx, Ht. by exists x.
    + destruct (exrs s !! e'); [|by exists x]. exists x.
      repeat case_match; simpl; by rewrite ?lookup_insert_ne by done.
  - destruct (decide (e' = e)) as [->|Hne]; [right; by eexists|left]. unfold EventLoop_run in Hs.
    destruct (exrs s !! e') as [x'|] eqn:Hx'; [|injection Hs as <-; by exists x].
    destruct (running x') as [t'|] eqn:Ht'; [|injection Hs as <-; by exists x].
    pose proof Hok as [Hp Hq Ho]. pose proof (at_home c _ _ _ _ Hp Hx' Ht') as Hg.
    destruct (resume_effect c e' t' ch s Hg (run_room c _ _ _ _ Hfit Hq Hx' Ht') (pl_turn _ _ Hp))
      as (new & next & s1 & Hres & Hef). rewrite (bind_Ok _ _ _ Hres) in Hs.
    rewrite (run_exrs c _ _ _ _ _ _ _ (proj1 Hg) Hx' Hef), lookup_insert_eq in Hs. injection Hs as <-.
    exists x. destruct (_ && _); simpl; rewrite (run_exrs c _ _ _ _ _ _ _ (proj1 Hg) Hx' Hef);
      by rewrite !lookup_insert_ne by done.
  - left. unfold main_step, Setup_begin, GetShutdownFuture, SetupInitBufRing, Deactivate, main_schedule,
      Schedule, with_rings in Hs. repeat case_match; inv_ok; try (by exists x).
    simpl. match goal with |- runs _ _ (set_main _ (set_rings _ (set_exr ?e0 _ _))) =>
      destruct (decide (e0 = e)) as [->|Hne] end.
    + eexists. simpl. rewrite lookup_insert_eq. split; [done|]. simpl. congruence.
    + exists x. simpl. by rewrite lookup_insert_ne by done.
Qed.

(** ** Infinite executions *)

Section execution.
Context (σ : nat → label) (st : nat → Threads R).

(** From a reachable state on. *)
Definition infinite_execution : Prop :=
  threads_ok c (st 0%nat) ∧ ∀ i, thread_step c (σ i) (st i) = Ok (st (S i)).

(** Every event loop keeps turning and reading completions, every coroutine
    that runs reaches its next suspension, and the kernel completes what does
    not depend on a peer. *)
Record fair : Prop := {
  fair_round : ∀ i e, e ∈ executors → ∃ j, (i ≤ j)%nat ∧ σ j = LRound e ∧ turns e (st j);
  fair_take : ∀ i e, e ∈ executors → ∃ j, (i ≤ j)%nat ∧ σ j = LTake e ∧ takes e (st j);
  fair_run : ∀ i e t, runs e t (st i) → ∃ j ch, (i ≤ j)%nat ∧ σ j = LRun e ch;
  fair_kernel : ∀ i e d t, prompt t = true → (d, Some t) ∈ busy e (rings (st i)) →
    ∃ j, (i ≤ j)%nat ∧ (d, Some t) ∉ busy e (rings (st j)) }.

Context (Hfit : rings_fit c) (Hex : infinite_execution) (Hfair : fair).

Lemma always_ok i : threads_ok c (st i).
Proof.
  induction i as [|i IH]; [apply Hex|]. destruct (step_ok c (σ i) _ Hfit IH) as (s & Hs & Hok).
  rewrite (proj2 Hex i) in Hs. by injection Hs as ->.
Qed.

(** What holds from time [i] on, or leads to [Q] on the way, at time [j]. *)
Lemma until (P Q : nat → Prop) i j :
  (i ≤ j)%nat → (∀ k, P k → P (S k) ∨ Q (S k)) → P i →
  P j ∨ ∃ k, (i ≤ k)%nat ∧ Q k.
Proof.
  intros Hle Hstep Hi. induction Hle as [|j Hle [Hj|Hk]]; [by left| |by right].
  destruct (Hstep j Hj); [by left|right]. exists (S j). split; [lia|done].
Qed.

(** Where the completion of a task is. *)
Definition unsent (d : nat) t (e i : nat) : Prop := (d, Some t) ∈ sq e (rings (st i)).
Definition handled (d : nat) t (e i : nat) : Prop := (d, Some t) ∈ busy e (rings (st i)).
Definition nth_cq (d : nat) t (n i : nat) : Prop := cq d (rings (st i)) !! n = Some (Some t).
Definition resumed (d : nat) t (i : nat) : Prop := runs d t (st i).

(** A completion that is in its queue stays or comes nearer to the head. *)
Lemma cq_next d t n i :
  nth_cq d t n i → nth_cq d t n (S i) ∨
    resumed d t (S i) ∨ ∃ n', (n' < n)%nat ∧ nth_cq d t n' (S i).
Proof.
  intros Hn. unfold nth_cq in *. destruct (step_queues _ _ _ (proj2 Hex i)) as [Hm|(e & t' & _ & Hp & Hr)].
  - left. destruct (mv_cq _ _ Hm d) as [l ->]. by apply lookup_app_l_Some.
  - pose proof (peek_cq e (rings (st i))) as Hc. rewrite Hp in Hc. destruct Hc as (Hc & Ho & _).
    destruct (decide (d = e)) as [->|Hne]; [|left; by rewrite Ho].
    rewrite Hc in Hn. right. destruct n as [|n]; [|right; exists n; by split; [lia|]].
    injection Hn as ->. left. by apply Hr.
Qed.

(** Reading a completion brings it nearer. *)
Lemma cq_taken d t n i :
  σ i = LTake d → takes d (st i) → nth_cq d t n i →
  resumed d t (S i) ∨ ∃ n', (n' < n)%nat ∧ nth_cq d t n' (S i).
Proof.
  intros Hl (x & Hx & Hrun & Hlo & Hexit) Hn. pose proof (proj2 Hex i) as Hs. rewrite Hl in Hs.
  cbn [thread_step] in Hs. unfold EventLoop_take in Hs. rewrite Hx, Hlo, Hexit in Hs.
  rewrite bool_decide_true in Hs by done. cbn [andb negb] in Hs. unfold nth_cq in *.
  pose proof (peek_cq d (rings (st i))) as Hc. destruct (peek d (rings (st i))) as [[t' r]|].
  2: { by rewrite Hc in Hn. }
  destruct Hc as (Hc & _). injection Hs as Hs. rewrite <- Hs. rewrite Hc in Hn.
  destruct n as [|n]; [left|right; exists n; by split; [lia|]]. injection Hn as ->.
  unfold resumed. rewrite <- Hs. eexists. simpl. rewrite lookup_insert_eq. by split.
Qed.

Lemma cq_resumed d t n i :
  d ∈ executors → nth_cq d t n i → ∃ j, (i ≤ j)%nat ∧ resumed d t j.
Proof.
  intros Hd. revert i. induction n as [n IH] using lt_wf_ind. intros i Hn.
  set (Q := λ k, resumed d t k ∨ ∃ n', (n' < n)%nat ∧ nth_cq d t n' k).
  assert (∃ k, (i ≤ k)%nat ∧ Q k) as (k & Hk & [Hq|(n' & Hlt & Hn')]).
  { destruct (fair_take Hfair i d Hd) as (j & Hij & Hl & Ht).
    destruct (until (nth_cq d t n) Q i j Hij) as [Hj|Hk]; [|done| |done].
    - intros k Hk. by apply cq_next.
    - exists (S j). split; [lia|]. by apply (cq_taken d t n). }
  - by exists k.
  - destruct (IH n' Hlt k Hn') as (j & Hj & Hr). exists j. split; [lia|done].
Qed.

(** What the kernel has is completed. *)
Lemma handled_next d t e i :
  handled d t e i → handled d t e (S i) ∨ ∃ n, nth_cq d t n (S i).
Proof.
  intros Hh. unfold handled, nth_cq in *.
  destruct (step_queues _ _ _ (proj2 Hex i)) as [Hm|(e' & t' & _ & Hp & _)].
  - destruct (mv_busy _ _ Hm e _ Hh) as [?|Hc%list_elem_of_lookup]; [by left|by right].
  - pose proof (peek_cq e' (rings (st i))) as Hc. rewrite Hp in Hc.
    destruct Hc as (_ & _ & Hc). left. by rewrite (proj2 (Hc e)).
Qed.

Lemma handled_resumed d t e i :
  d ∈ executors → prompt t = true → handled d t e i → ∃ j, (i ≤ j)%nat ∧ resumed d t j.
Proof.
  intros Hd Hp Hh. destruct (fair_kernel Hfair i e d t Hp Hh) as (j & Hij & Hno).
  destruct (until (handled d t e) (λ k, ∃ n, nth_cq d t n k) i j Hij) as [Hj|(k & Hk & n & Hn)];
    [intros k; apply handled_next|done|done|].
  destruct (cq_resumed d t n k Hd Hn) as (l & Hl & Hr). exists l. split; [lia|done].
Qed.

(** What an executor has prepared is submitted. *)
Lemma unsent_next d t e i :
  unsent d t e i → unsent d t e (S i) ∨ handled d t e (S i) ∨ ∃ n, nth_cq d t n (S i).
Proof.
  intros Hu. unfold unsent, handled, nth_cq in *.
  destruct (step_queues _ _ _ (proj2 Hex i)) as [Hm|(e' & t' & _ & Hp & _)].
  - destruct (mv_sq _ _ Hm e _ Hu) as [?|[?|Hc%list_elem_of_lookup]]; auto.
  - pose proof (peek_cq e' (rings (st i))) as Hc. rewrite Hp in Hc.
    destruct Hc as (_ & _ & Hc). left. by rewrite (proj1 (Hc e)).
Qed.

Lemma unsent_resumed d t e i :
  d ∈ executors → prompt t = true → unsent d t e i → ∃ j, (i ≤ j)%nat ∧ resumed d t j.
Proof.
  intros Hd Hp Hu.
  assert (e ∈ executors) as He.
  { destruct (decide (e ∈ executors)) as [|Hno]; [done|].
    pose proof (qu_other _ _ (th_queued _ _ (always_ok i)) e Hno) as Hz%sq_unsubmitted.
    unfold unsent in Hu. rewrite Hz in Hu. by apply elem_of_nil in Hu. }
  destruct (fair_round Hfair i e He) as (j & Hij & Hl & x & Hx & Hrun & Hact & Hexit).
  set (Q := λ k, handled d t e k ∨ ∃ n, nth_cq d t n k).
  assert (∃ k, (i ≤ k)%nat ∧ Q k) as (k & Hk & [Hh|[n Hn]]).
  { destruct (until (unsent d t e) Q i j Hij) as [Hj|Hk]; [intros k; apply unsent_next|done| |done].
    exists (S j). split; [lia|]. destruct (unsent_next d t e j Hj) as [Hs|Hq]; [|done]. exfalso.
    pose proof (proj2 Hex j) as Hstep. rewrite Hl in Hstep. cbn [thread_step] in Hstep.
    unfold EventLoop_round in Hstep. rewrite Hx, Hact, Hexit in Hstep.
    rewrite bool_decide_true in Hstep by done. injection Hstep as Hstep.
    unfold unsent in Hs. rewrite <- Hstep in Hs. simpl in Hs. rewrite submit_sq in Hs.
    by apply elem_of_nil in Hs. }
  - destruct (handled_resumed d t e k Hd Hp Hh) as (l & Hle & Hr). exists l. split; [lia|done].
  - destruct (cq_resumed d t n k Hd Hn) as (l & Hle & Hr). exists l. split; [lia|done].
Qed.

Lemma due_resumed d t i :
  prompt t = true → (d, t) ∈ due (rings (st i)) → ∃ j, (i ≤ j)%nat ∧ resumed d t j.
Proof.
  intros Hp Hin. assert (d ∈ executors) as Hd.
  { pose proof (pl_good _ _ (th_placed _ _ (always_ok i))) as Hg. rewrite Forall_forall in Hg.
    apply (Hg (d, t)). unfold places. apply elem_of_app. by left. }
  apply list_elem_of_omap in Hin as ([d' o] & Hin & Ho). destruct o as [t'|]; [|done].
  injection Ho as -> ->.
  destruct (queues_waiting _ _ Hin) as [[e He]|[[e He]|[n Hn]%list_elem_of_lookup]].
  - by eapply unsent_resumed.
  - by eapply handled_resumed.
  - by eapply cq_resumed.
Qed.

Lemma place_resumed d t i :
  prompt t = true → (d, t) ∈ places (st i) → ∃ j, (i ≤ j)%nat ∧ resumed d t j.
Proof.
  intros Hp [Hin|Hin]%elem_of_app; [by apply due_resumed|]. exists i. split; [done|].
  apply list_elem_of_omap in Hin as ([e x] & Hx%elem_of_map_to_list & Ho).
  simpl in Ho. destruct (running x) as [t'|] eqn:Ht; [|done]. injection Ho as -> ->. by exists x.
Qed.

(** A coroutine that runs goes on to its next suspension. *)
Lemma resumed_goes_on d t i :
  resumed d t i → ∃ j ch, (i ≤ j)%nat ∧ σ j = LRun d ch ∧ resumed d t j.
Proof.
  intros Hr. destruct (fair_run Hfair i d t Hr) as (j & ch & Hij & Hl).
  destruct (until (λ k, (i ≤ k)%nat ∧ resumed d t k)
    (λ k, ∃ k' ch', (i ≤ k')%nat ∧ σ k' = LRun d ch' ∧ resumed d t k') i j Hij) as [[_ Hj]|(k & _ & Hk)];
    [|by split|by exists j, ch|done].
  intros k [Hk Hrk].
  destruct (runs_kept _ _ _ _ _ Hfit (always_ok k) (proj2 Hex k) Hrk) as [Hr'|[ch' Hl']].
  - left. split; [lia|done].
  - right. by exists k, ch'.
Qed.

(** What follows it is under way. *)
Lemma goes_on_to d t ch i p :
  σ i = LRun d ch → resumed d t i → shuts_down t ch && shutdown_promise_ (st i) = false →
  p ∈ successors d t ch (st i) → p ∈ places (st (S i)).
Proof.
  intros Hl (x & Hx & Ht) Hsh Hin. pose proof (proj2 Hex i) as Hs. rewrite Hl in Hs.
  destruct (run_flow c d ch _ _ x t Hfit (always_ok i) Hx Ht Hsh Hs) as (_ & _ & _ & _ & rest & _ & E).
  rewrite E. apply elem_of_app. left. apply elem_of_app. by left.
Qed.

(** No command is SHUTDOWN while the server shuts down already. *)
Definition one_shutdown : Prop :=
  ∀ i d ch, σ i = LRun d ch → ch_shutdown ch && shutdown_promise_ (st i) = false.

(** From one suspension point of a client to the next. *)
Lemma next_stage d t ch i d' t' :
  one_shutdown → σ i = LRun d ch → resumed d t i → prompt t' = true →
  successors d t ch (st i) = [(d', t')] →
  ∃ j ch', (i < j)%nat ∧ σ j = LRun d' ch' ∧ resumed d' t' j.
Proof.
  intros Hone Hl Hr Hp Hs.
  destruct (place_resumed d' t' (S i) Hp) as (j & Hj & Hrj).
  { apply (goes_on_to d t ch); [done|done| |rewrite Hs; by left].
    specialize (Hone i d ch Hl). by destruct t. }
  destruct (resumed_goes_on d' t' j Hrj) as (k & ch' & Hk & Hlk & Hrk). exists k, ch'. split; [lia|done].
Qed.

End execution.
End live.
