(* ===== verification/ThreadSamples.v ===== *)
(** * Queues as rings, and sample executions of the threads

    A concrete instance of [Uring]: each ring has a list of entries not yet
    submitted, a list of requests in progress and a list of completions, and the
    kernel completes requests in any order.  The theorems of [ThreadsThms] are
    applied at executions of a server with two client executors, and what
    happens outside their assumptions is shown: a transfer on a full queue that
    nobody submits, and a second SHUTDOWN. *)

From S2P Require Import Prelude Config RingExecutor Client Rings Threads ThreadsThms.

Record Queue := mkQueue {
  q_sq : list (nat * option task);
  q_busy : list (nat * option task);
  q_cq : list (option task) }.
Abbreviation Queues := (gmap nat Queue).

Section queues.
Implicit Types (r : Queues) (q : Queue).

Definition get_q (e : nat) r : Queue := default (mkQueue [] [] []) (r !! e).
Definition entries (e : nat) q : list (nat * option task) :=
  q_sq q ++ q_busy q ++ (pair e <$> q_cq q).
Definition all_entries r : list (nat * option task) :=
  map_to_list r ≫= λ p, entries p.1 p.2.

Definition add_entry (e : nat) (x : nat * option task) r : Queues :=
  let q := get_q e r in <[e := mkQueue (q_sq q ++ [x]) (q_busy q) (q_cq q)]> r.
Definition add_completion (e : nat) (t : option task) r : Queues :=
  let q := get_q e r in <[e := mkQueue (q_sq q) (q_busy q) (q_cq q ++ [t])]> r.

(** Queues of [sz] entries each; the rings of [pol] have a polling thread, which
    is always up to date. *)
#[local] Instance queue_rings (sz : nat) (pol : nat → bool) : Uring Queues task := {|
  sq_space e r := (length (q_sq (get_q e r)) <? sz)%nat;
  put_op e t := add_entry e (e, Some t);
  put_msg e d t := add_entry e (d, t);
  submit e r :=
    let q := get_q e r in <[e := mkQueue [] (q_busy q ++ q_sq q) (q_cq q)]> r;
  sqring_wait e r := r;
  peek e r :=
    let q := get_q e r in
    match q_cq q with
    | t :: l => Some (t, <[e := mkQueue (q_sq q) (q_busy q) l]> r)
    | [] => None
    end;
  kernel_move e i r :=
    let q := get_q e r in
    match q_busy q !! i with
    | Some (d, t) => add_completion d t (<[e := mkQueue (q_sq q) (delete i (q_busy q)) (q_cq q)]> r)
    | None => r
    end;
  polled := pol;
  sq_size e := sz;
  waiting := all_entries;
  unsubmitted e r := length (q_sq (get_q e r)) |}.

Lemma all_entries_insert r e q :
  all_entries (<[e := q]> r) ≡ₚ entries e q ++ all_entries (delete e r).
Proof.
  unfold all_entries.
  rewrite <- (map_to_list_delete (<[e := q]> r) e q) by by rewrite lookup_insert_eq.
  by rewrite bind_cons, delete_insert_eq.
Qed.

Lemma all_entries_at r e : all_entries r ≡ₚ entries e (get_q e r) ++ all_entries (delete e r).
Proof.
  unfold get_q. destruct (r !! e) as [q|] eqn:E.
  - unfold all_entries at 1. by rewrite <- (map_to_list_delete r e q E), bind_cons.
  - by rewrite delete_id.
Qed.

Lemma get_insert e e' q r : get_q e' (<[e := q]> r) = if decide (e' = e) then q else get_q e' r.
Proof.
  unfold get_q. case_decide as E; [subst; by rewrite lookup_insert_eq|].
  by rewrite lookup_insert_ne.
Qed.

Lemma add_entry_waiting e x r : all_entries (add_entry e x r) ≡ₚ x :: all_entries r.
Proof.
  unfold add_entry. rewrite all_entries_insert, (all_entries_at r e). unfold entries. simpl.
  rewrite <- app_assoc, <- !Permutation_middle. solve_Permutation.
Qed.

Lemma add_entry_unsubmitted e x r e' :
  length (q_sq (get_q e' (add_entry e x r)))
  = if decide (e' = e) then S (length (q_sq (get_q e r))) else length (q_sq (get_q e' r)).
Proof.
  unfold add_entry. rewrite get_insert. case_decide; [|done]. simpl. rewrite length_app. simpl. lia.
Qed.

Lemma queue_rings_laws (sz : nat) (pol : nat → bool) : @UringLaws Queues task (queue_rings sz pol).
Proof.
  split; simpl.
  - intros. apply add_entry_waiting.
  - intros. apply add_entry_unsubmitted.
  - intros. apply add_entry_waiting.
  - intros. apply add_entry_unsubmitted.
  - intros e r. rewrite all_entries_insert, (all_entries_at r e). unfold entries. simpl.
    solve_Permutation.
  - intros e r e'. rewrite get_insert. by case_decide.
  - done.
  - intros e r _ Hlt. by apply Nat.ltb_lt.
  - done.
  - intros e t r r' Hp. destruct (q_cq (get_q e r)) as [|t' l] eqn:E; [done|]. injection Hp as <- <-.
    rewrite (all_entries_at r e), all_entries_insert. unfold entries. simpl. rewrite E. simpl.
    rewrite <- !Permutation_middle. solve_Permutation.
  - intros e t r r' e' Hp. destruct (q_cq (get_q e r)) as [|t' l] eqn:E; [done|]. injection Hp as <- <-.
    rewrite get_insert. by case_decide as Ed; [subst|].
  - intros e i r. destruct (q_busy (get_q e r) !! i) as [[d t]|] eqn:E; [|done].
    set (r1 := <[e := _]> r). unfold add_completion. rewrite all_entries_insert.
    transitivity ((d, t) :: all_entries r1).
    + rewrite (all_entries_at r1 d). unfold entries. simpl. rewrite fmap_app. simpl.
      change ((d, t) :: ?l) with ([(d, t)] ++ l). solve_Permutation.
    + unfold r1. rewrite all_entries_insert, (all_entries_at r e). unfold entries. simpl.
      pose proof (delete_Permutation _ _ _ E) as Ed. set (b := delete i _) in *. clearbody b.
      rewrite Ed. change ((d, t) :: ?l) with ([(d, t)] ++ l). solve_Permutation.
  - intros e i r e'. destruct (q_busy (get_q e r) !! i) as [[d t]|] eqn:E; [|done].
    unfold add_completion. rewrite get_insert. case_decide as Ed; [subst; simpl|];
      rewrite get_insert; by case_decide as Ee; [subst|].
  - intros e r _ Hlt. by apply Nat.ltb_lt.
Qed.
End queues.

(** ** Executions of a server with two client executors *)

Definition two_executors : Config :=
  mkConfig 6379 10 10000 0 kNoEviction 5 25 10 20 2 false 4096 true 2 1.

Definition accept_one : choice := mkChoice Accepted CContinue false true.
Definition run_command : choice := mkChoice Accepted (CInvoke [[]]) false true.
Definition run_shutdown : choice := mkChoice Accepted (CInvoke [[]]) true true.

(** The kernel completes the first request of ring [e], executor [e'] takes the
    completion. *)
Definition deliver (e e' : nat) : list label := [LRound e; LKernel e 0; LTake e'].

(** Start-up: the receive buffers, then the periodic work and the accept loop. *)
Definition start_up : list label :=
  [LMain; LMain; LMain; LMain; LKernel 3 0; LKernel 3 0; LRound 0; LRound 1; LRound 2;
   LTake 1; LTake 2; LRun 1 accept_one; LRun 2 accept_one; LMain; LMain; LMain;
   LKernel 3 0; LKernel 3 0; LTake 0; LRun 0 accept_one; LTake 1; LRun 1 accept_one].

(** Two connections: the first stays on executor 1, the second is sent to
    executor 2. *)
Definition two_clients : list label :=
  deliver 1 1 ++ [LRun 1 accept_one; LRun 1 accept_one] ++
  [LRound 1; LKernel 1 1; LTake 1; LRun 1 accept_one; LRun 1 accept_one].

(** The first client's command is sent to executor 0 and runs there while
    executor 2 starts the second client. *)
Definition at_work : list label :=
  start_up ++ two_clients ++
  [LRound 1; LKernel 1 0; LTake 1; LRun 1 run_command; LRound 1; LKernel 1 2; LTake 0;
   LKernel 1 0; LTake 2].

(** SHUTDOWN from the first client, up to the closing of clients. *)
Definition shut_down : list label :=
  start_up ++ two_clients ++
  [LRound 1; LKernel 1 0; LTake 1; LRun 1 run_shutdown; LRound 1; LKernel 1 2; LTake 0;
   LRun 0 run_shutdown; LMain; LMain; LMain; LMain; LMain; LRound 0; LRound 1; LRound 2;
   LMain; LMain; LMain; LMain].

(** SHUTDOWN from both clients before the main thread wakes up. *)
Definition two_shutdowns : list label :=
  start_up ++ two_clients ++
  [LRound 1; LKernel 1 0; LTake 1; LRun 1 run_shutdown; LRound 1; LKernel 1 2; LTake 0;
   LRun 0 run_shutdown; LKernel 1 0; LTake 2; LRun 2 run_shutdown; LRound 2; LKernel 2 0; LTake 2;
   LRun 2 run_shutdown; LRound 2; LKernel 2 0; LRound 0; LTake 0; LRun 0 run_shutdown].

Section samples.
Context (sz : nat).
#[local] Instance sample_rings : Uring Queues task := queue_rings sz (λ _, false).
#[local] Instance sample_laws : UringLaws Queues task := queue_rings_laws sz (λ _, false).

Definition sample_run (ls : list label) : Outcome (Threads Queues) :=
  thread_run two_executors ls (initial_threads two_executors ∅).

Lemma sample_fit : (4 ≤ sz)%nat → rings_fit two_executors.
Proof. intros Hsz. split; simpl; [lia| |split; [lia|done]]. intros e _. unfold batch. simpl. lia. Qed.

Lemma sample_idle : idle_rings (∅ : Queues).
Proof. split; [reflexivity|]. intros e. simpl. unfold get_q. by rewrite lookup_empty. Qed.
End samples.


Lemma no_client_lost_witness :
  ∃ s, sample_run 8 shut_down = Ok s ∧
    @ids Queues (queue_rings 8 (λ _, false)) s ++ finished s ++ stranded s ≡ₚ seq 0 (next_id s) ∧ next_id s = 2%nat.
Proof.
  destruct (sample_run 8 shut_down) as [s|f|] eqn:E; [|vm_compute in E; discriminate E..].
  exists s. split; [done|]. split.
  - exact (proj1 (@no_client_lost Queues (queue_rings 8 (λ _, false)) (queue_rings_laws 8 (λ _, false)) two_executors shut_down
      ∅ s (sample_fit 8 ltac:(lia)) (sample_idle 8) E)).
  - vm_compute in E. by injection E as <-.
Defined.


Lemma startup_and_shutdown_in_order_witness :
  ∃ s, sample_run 8 shut_down = Ok s ∧ main s = MClose ∧
    ∀ e x, exrs s !! e = Some x → exited x = true ∧ running x = None.
Proof.
  destruct (sample_run 8 shut_down) as [s|f|] eqn:E; [|vm_compute in E; discriminate E..].
  assert (main s = MClose) as Hm by (vm_compute in E; by injection E as <-).
  exists s. split; [done|]. split; [done|].
  exact (proj2 (@startup_and_shutdown_in_order Queues (queue_rings 8 (λ _, false)) (queue_rings_laws 8 (λ _, false)) two_executors
    shut_down ∅ s (sample_fit 8 ltac:(lia)) (sample_idle 8) E) Hm).
Defined.

(** A second SHUTDOWN sets the promise again: the exception ends the client's
    coroutine, which neither replies nor ends; its completion is nowhere. *)
Theorem second_shutdown_strands_client :
  ∃ s, sample_run 8 two_shutdowns = Ok s ∧ stranded s = [1%nat] ∧ finished s = [] ∧
    1%nat ∉ @ids Queues (queue_rings 8 (λ _, false)) s.
Proof.
  destruct (sample_run 8 two_shutdowns) as [s|f|] eqn:E; [|vm_compute in E; discriminate E..].
  exists s. split; [done|]. vm_compute in E. injection E as <-. split_and!; [done..|].
  vm_compute. intros Hin. repeat (apply elem_of_cons in Hin as [Hin|Hin]; [done|]).
  by apply elem_of_nil in Hin.
Qed.

(** Without room for a batch a transfer spins for ever: here a queue of one
    entry holds the accept request that the batch has not submitted yet. *)
Theorem full_queue_spins :
  sample_run 1 (start_up ++ deliver 1 1 ++ [LRun 1 accept_one; LRun 1 accept_one;
    LRound 1; LKernel 1 1; LKernel 1 0; LTake 1; LRun 1 (mkChoice AcceptError CContinue false true);
    LTake 1; LRun 1 run_command]) = Diverge.
Proof. vm_compute. reflexivity. Qed.

(** With a polling thread [Initiate] waits for it, but never submits: entries the
    executor has not submitted yet fill the queue for ever. *)
Theorem polled_queue_spins :
  @Initiate Queues task (queue_rings 1 (λ _, true)) 0 TCron
    (@put_op Queues task (queue_rings 1 (λ _, true)) 0 (TInvoke 1 0) ∅) = Diverge.
Proof. vm_compute. reflexivity. Qed.
