(* ===== verification/FairSample.v ===== *)
(** * A fair execution of the threads

    The queues of [ThreadSamples] keep the promises of [ThreadsLive], and an
    execution that runs up to a command and its reply and then repeats a round of
    the periodic work is fair: [ThreadsLive.commands_answered] applies to it. *)

From S2P Require Import Prelude Config RingExecutor Client Rings Threads ThreadsThms ThreadsFlow.
From S2P Require Import ThreadsLive ThreadSamples.

Section queues.
Context (sz : nat).
#[local] Instance live_rings : Uring Queues task := queue_rings sz (λ _, false).
#[local] Instance live_queues : UringQueues Queues task := {|
  sq e r := q_sq (get_q e r); busy e r := q_busy (get_q e r); cq e r := q_cq (get_q e r) |}.

Lemma moves_add_entry e x (r : Queues) : moves r (add_entry e x r).
Proof.
  unfold add_entry. split; cbn [sq busy cq live_queues]; intros e' *; rewrite get_insert;
    case_decide as E; subst; simpl; auto. intros Hx. left. apply elem_of_app. by left.
Qed.

Lemma queue_laws : UringQueueLaws Queues task.
Proof.
  split; cbn [waiting unsubmitted put_op put_msg submit sqring_wait kernel_move peek live_rings queue_rings].
  - intros r x Hx. apply list_elem_of_bind in Hx as ([e q] & Hx & Hq%elem_of_map_to_list).
    assert (get_q e r = q) as Eq by (unfold get_q; by rewrite Hq). simpl in Hx. rewrite <- Eq in Hx.
    unfold entries in Hx. rewrite !elem_of_app in Hx.
    destruct Hx as [Hx|[Hx|(t & -> & Ht)%list_elem_of_fmap]]; [left; by exists e|right; left; by exists e|].
    by right; right.
  - intros e r Hl. by apply nil_length_inv.
  - intros e t r. apply moves_add_entry.
  - intros e d t r. apply moves_add_entry.
  - intros e r. split; cbn [sq busy cq live_queues]; intros e' *; rewrite get_insert;
      case_decide as E; subst; simpl; auto; intros Hx; [right; left|left]; apply elem_of_app; auto.
  - intros e r. cbn [sq live_queues]. by rewrite get_insert, decide_True.
  - intros e r. reflexivity.
  - intros e i r. destruct (q_busy (get_q e r) !! i) as [[d t]|] eqn:E; [|reflexivity].
    set (r1 := <[e := _]> r). unfold add_completion.
    assert (∀ e', q_sq (get_q e' r1) = q_sq (get_q e' r) ∧ q_cq (get_q e' r1) = q_cq (get_q e' r)) as H1.
    { intros e'. unfold r1. rewrite get_insert. by case_decide; subst. }
    assert (∀ e' x, x ∈ q_busy (get_q e' r) → x ∈ q_busy (get_q e' r1) ∨ x = (d, t)) as H2.
    { intros e' x Hx. unfold r1. rewrite get_insert. case_decide; subst; [|by left]. simpl.
      rewrite (delete_Permutation _ _ _ E) in Hx. apply elem_of_cons in Hx as [->|Hx]; [by right|by left]. }
    split; cbn [sq busy cq live_queues]; intros e' *; rewrite !get_insert.
    + intros Hx. left. case_decide; subst; simpl; by rewrite (proj1 (H1 _)).
    + intros [Hx| ->]%H2; [left; by case_decide; subst|right]. simpl. rewrite decide_True by done.
      simpl. apply elem_of_app. right. by left.
    + case_decide; subst; simpl; rewrite (proj2 (H1 _)); [by eexists|done].
  - intros e r. cbn [sq busy cq live_queues]. destruct (q_cq (get_q e r)) as [|t l] eqn:E; [done|].
    split_and!.
    + by rewrite get_insert, decide_True.
    + intros e' Hne. by rewrite get_insert, decide_False.
    + intros e'. rewrite get_insert. by case_decide; subst.
Qed.
End queues.

(** ** Executions that repeat *)

Section lasso.
Context {R : Type} `{!Uring R task} (c : Config).
Context (pre cyc : list label) (s0 s1 : Threads R).
Implicit Types (s : Threads R).

Definition after (l : list label) s : Threads R :=
  match thread_run c l s with Ok s' => s' | _ => s end.

Definition lasso_label (i : nat) : label :=
  if (i <? length pre)%nat then nth i pre LMain else nth ((i - length pre) mod length cyc) cyc LMain.
Definition lasso_state (i : nat) : Threads R :=
  if (i <? length pre)%nat then after (take i pre) s0
  else after (take ((i - length pre) mod length cyc) cyc) s1.

Lemma thread_run_app l1 l2 s : thread_run c (l1 ++ l2) s = (s ← thread_run c l1 s; thread_run c l2 s).
Proof.
  revert s. induction l1 as [|l l1 IH]; intros s; [done|]. cbn [app thread_run].
  destruct (thread_step c l s); [|done..]. apply IH.
Qed.

(** The steps of an execution that succeeds. *)
Lemma after_step l s s' k :
  thread_run c l s = Ok s' → (k < length l)%nat →
  thread_step c (nth k l LMain) (after (take k l) s) = Ok (after (take (S k) l) s).
Proof.
  intros Hrun Hk. destruct (nth_lookup_or_length l k LMain) as [Hl|]; [|lia].
  rewrite <- (take_drop_middle _ _ _ Hl), thread_run_app in Hrun.
  apply bind_Ok_inv in Hrun as (sk & Hrk & Hrun). cbn [thread_run] in Hrun.
  apply bind_Ok_inv in Hrun as (sk1 & Hstep & _). unfold after.
  rewrite (take_S_r _ _ _ Hl), thread_run_app, Hrk. cbn [mbind outcome_bind thread_run].
  by rewrite Hstep.
Qed.

Context (Hpre : thread_run c pre s0 = Ok s1) (Hcyc : thread_run c cyc s1 = Ok s1).
Context (Hne : (0 < length cyc)%nat).

Lemma lasso_at q k :
  (k < length cyc)%nat →
  lasso_label (length pre + q * length cyc + k) = nth k cyc LMain ∧
  lasso_state (length pre + q * length cyc + k) = after (take k cyc) s1.
Proof.
  intros Hk. unfold lasso_label, lasso_state.
  assert ((length pre + q * length cyc + k <? length pre)%nat = false) as -> by (apply Nat.ltb_ge; lia).
  assert (((length pre + q * length cyc + k - length pre) mod length cyc)%nat = k) as ->; [|done].
  replace (length pre + q * length cyc + k - length pre)%nat with (k + q * length cyc)%nat by lia.
  rewrite Nat.Div0.mod_add. by apply Nat.mod_small.
Qed.

Lemma lasso_steps i : thread_step c (lasso_label i) (lasso_state i) = Ok (lasso_state (S i)).
Proof.
  destruct (Nat.lt_ge_cases i (length pre)) as [Hlt|Hge].
  - pose proof (after_step pre s0 s1 i Hpre Hlt) as Hs. unfold lasso_label, lasso_state.
    rewrite (proj2 (Nat.ltb_lt _ _) Hlt), Hs. f_equal.
    destruct (Nat.ltb_spec (S i) (length pre)) as [|Hge]; [done|].
    replace (S i - length pre)%nat with 0%nat by lia. rewrite Nat.Div0.mod_0_l.
    rewrite take_ge by lia. unfold after. by rewrite Hpre.
  - assert (∃ q k, i = (length pre + q * length cyc + k)%nat ∧ (k < length cyc)%nat) as (q & k & -> & Hk).
    { exists ((i - length pre) / length cyc)%nat, ((i - length pre) mod length cyc)%nat.
      pose proof (Nat.div_mod (i - length pre) (length cyc) ltac:(lia)).
      split; [lia|apply Nat.mod_upper_bound; lia]. }
    destruct (lasso_at q k Hk) as [-> ->]. rewrite (after_step cyc s1 s1 k Hcyc Hk). f_equal.
    destruct (Nat.eq_dec (S k) (length cyc)) as [Ek|].
    + replace (S (length pre + q * length cyc + k))%nat with (length pre + S q * length cyc + 0)%nat by lia.
      destruct (lasso_at (S q) 0 Hne) as [_ ->]. rewrite Ek, take_ge by lia. unfold after. by rewrite Hcyc.
    + replace (S (length pre + q * length cyc + k))%nat with (length pre + q * length cyc + S k)%nat by lia.
      by destruct (lasso_at q (S k) ltac:(lia)) as [_ ->].
Qed.

(** What the cycle does once it does again and again. *)
Lemma recurs (P : label → Threads R → Prop) i k :
  (k < length cyc)%nat → P (nth k cyc LMain) (after (take k cyc) s1) →
  ∃ j, (i ≤ j)%nat ∧ P (lasso_label j) (lasso_state j).
Proof.
  intros Hk HP. exists (length pre + i * length cyc + k)%nat. split; [nia|].
  by destruct (lasso_at i k Hk) as [-> ->].
Qed.
End lasso.

(** ** The sample *)

Definition to_command : list label := start_up ++ two_clients ++ [LRound 1; LKernel 1 0; LTake 1].
Definition one_cycle : list label :=
  [LRound 0; LKernel 0 0; LTake 0; LRun 0 accept_one; LRound 1; LTake 1; LRun 1 accept_one;
   LRound 2; LTake 2; LRun 2 accept_one].
Definition sample_prefix : list label :=
  to_command ++
  [LRun 1 run_command; LRound 1; LKernel 1 0; LTake 2; LRun 2 accept_one; LKernel 1 1; LTake 0;
   LRun 0 accept_one; LRound 0; LKernel 0 1; LTake 1; LRun 1 accept_one; LRound 1; LKernel 1 1; LTake 1;
   LRun 1 accept_one; LRound 1; LRound 2; LKernel 0 0; LTake 0; LRun 0 accept_one] ++ one_cycle.

Section sample.
#[local] Instance sample_live_rings : Uring Queues task := queue_rings 8 (λ _, false).
#[local] Instance sample_live_laws : UringLaws Queues task := queue_rings_laws 8 (λ _, false).
#[local] Instance sample_live_queues : UringQueues Queues task := live_queues.
#[local] Instance sample_queue_laws : UringQueueLaws Queues task := queue_laws 8.

Definition cycle_start : Threads Queues :=
  after two_executors sample_prefix (initial_threads two_executors ∅).
Definition sample_label : nat → label := lasso_label sample_prefix one_cycle.
Definition sample_state : nat → Threads Queues :=
  lasso_state two_executors sample_prefix one_cycle (initial_threads two_executors ∅) cycle_start.

Lemma sample_pre : thread_run two_executors sample_prefix (initial_threads two_executors ∅) = Ok cycle_start.
Proof. vm_compute. reflexivity. Qed.
Lemma fair_cycle : thread_run two_executors one_cycle cycle_start = Ok cycle_start.
Proof. vm_compute. reflexivity. Qed.

Lemma sample_infinite : infinite_execution two_executors sample_label sample_state.
Proof.
  split; [exact (initial_ok _ _ (sample_fit 8 ltac:(lia)) (sample_idle 8))|].
  intros i. by apply (lasso_steps _ _ _ _ _ sample_pre fair_cycle); simpl; lia.
Qed.

(** At the start of a cycle the kernel has only what waits for a peer. *)
Definition only_peers (q : Queue) : bool :=
  forallb (λ x, match x.2 with Some t => negb (prompt t) | None => true end) (q_busy q).

Lemma cycle_start_peers e d t :
  prompt t = true → (d, Some t) ∉ busy e (rings cycle_start).
Proof.
  assert (forallb (λ p, only_peers p.2) (map_to_list (rings cycle_start)) = true) as Hall
    by (vm_compute; reflexivity).
  intros Hp. cbn [busy sample_live_queues live_queues]. unfold get_q.
  destruct (rings cycle_start !! e) as [q|] eqn:E; [|by intros ?%elem_of_nil].
  rewrite forallb_forall in Hall. specialize (Hall (e, q)).
  rewrite <- list_elem_of_In, elem_of_map_to_list in Hall. specialize (Hall E). unfold only_peers in Hall.
  simpl in *. rewrite forallb_forall in Hall. intros Hin%list_elem_of_In%Hall. simpl in Hin.
  by rewrite Hp in Hin.
Qed.

Lemma sample_fair : fair two_executors sample_label sample_state.
Proof.
  assert (0 < length one_cycle)%nat as Hne by (simpl; lia).
  assert (∀ e, e ∈ dss :: clients two_executors → e = 0 ∨ e = 1 ∨ e = 2)%nat as Hcases
    by (intros e He; change (e ∈ [0; 1; 2]%nat) in He; rewrite !elem_of_cons, elem_of_nil in He; naive_solver).
  pose proof (λ P i k, recurs two_executors sample_prefix one_cycle (initial_threads two_executors ∅)
    cycle_start Hne P i k) as Hrec.
  split.
  - intros i e He. destruct (Hcases e He) as [->|[->| ->]];
      [apply (Hrec (λ l s, l = LRound 0 ∧ turns 0 s) i 0%nat)|apply (Hrec (λ l s, l = LRound 1 ∧ turns 1 s) i 4%nat)
      |apply (Hrec (λ l s, l = LRound 2 ∧ turns 2 s) i 7%nat)]; try (simpl; lia);
      (split; [done|]; eexists; vm_compute; by split_and!).
  - intros i e He. destruct (Hcases e He) as [->|[->| ->]];
      [apply (Hrec (λ l s, l = LTake 0 ∧ takes 0 s) i 2%nat)|apply (Hrec (λ l s, l = LTake 1 ∧ takes 1 s) i 5%nat)
      |apply (Hrec (λ l s, l = LTake 2 ∧ takes 2 s) i 8%nat)]; try (simpl; lia);
      (split; [done|]; eexists; vm_compute; by split_and!).
  - intros i e t (x & Hx & _).
    assert (e ∈ dss :: clients two_executors) as He.
    { apply (qu_dom _ _ (th_queued _ _ (always_ok _ _ _ (sample_fit 8 ltac:(lia)) sample_infinite i))).
      by eexists. }
    assert (∃ j, (i ≤ j)%nat ∧ ∃ ch, sample_label j = LRun e ch) as (j & Hj & ch & Hl); [|by exists j, ch].
    destruct (Hcases e He) as [->|[->| ->]];
      [apply (Hrec (λ l _, ∃ ch, l = LRun 0 ch) i 3%nat)|apply (Hrec (λ l _, ∃ ch, l = LRun 1 ch) i 6%nat)
      |apply (Hrec (λ l _, ∃ ch, l = LRun 2 ch) i 9%nat)]; try (simpl; lia); by eexists.
  - intros i e d t Hp _. apply (Hrec (λ _ s, (d, Some t) ∉ busy e (rings s)) i 0%nat); [simpl; lia|].
    by apply cycle_start_peers.
Qed.

Lemma sample_no_shutdown : one_shutdown sample_label sample_state.
Proof.
  assert (∀ l, forallb (λ x, match x with LRun _ ch => negb (ch_shutdown ch) | _ => true end) l = true →
    ∀ k d ch, nth k l LMain = LRun d ch → ch_shutdown ch = false) as Hall.
  { intros l Hl k d ch Hn. rewrite forallb_forall in Hl. destruct (nth_in_or_default k l LMain) as [Hin|E].
    - apply Hl in Hin. rewrite Hn in Hin. by apply negb_true_iff.
    - by rewrite E in Hn. }
  intros i d ch Hl. apply andb_false_iff. left. unfold sample_label, lasso_label in Hl.
  destruct (_ <? _)%nat; (eapply Hall; [|exact Hl]); vm_compute; reflexivity.
Qed.

End sample.
