(* ===== verification/ClientThms.v ===== *)
(** * Correctness of query reception

    However a query is cut into received chunks, and wherever the query buffer
    is moved between them, the client hands the service the strings of the
    query; the views it keeps follow the buffer. *)

From S2P Require Import Prelude Chars Buffer RespParser RespParserThms Replier Client.

(** ** Moving the views *)

Lemma move_views_spec n o u vs :
  (n ≤ length vs)%nat →
  ∃ vs', move_views n o u vs = Ok vs' ∧ length vs' = length vs ∧
    ∀ i v', (i < n)%nat → vs' !! i = Some v' →
      ∃ v, vs !! i = Some v ∧ v' = mkSV (u + (sv_data v - o)) (sv_size v).
Proof.
  revert n. induction vs as [|v vs IH]; intros [|n] Hn; simpl in *; try lia.
  - exists []. by split_and!.
  - eexists. split; [done|]. split; [done|]. intros; lia.
  - destruct (IH n) as (vs'&->&Hlen&Hall); [lia|]. eexists. split; [reflexivity|].
    split; [simpl; lia|]. intros [|i] v' Hi Hv'; simpl in *; [by simplify_eq; eauto|].
    apply Hall; [lia|done].
Qed.

Lemma views_ok_moved b b' result l :
  views_ok b result l → read_index_ b' = read_index_ b →
  (read_index_ b ≤ length (data_ b))%nat → (∃ x, data_ b' = data_ b ++ x) →
  ∃ result', move_views (length l) (data_start b) (data_start b') result = Ok result' ∧
    views_ok b' result' l.
Proof.
  intros [Hlen Hall] Hri Hle [x Hx].
  destruct (move_views_spec (length l) (data_start b) (data_start b') result Hlen)
    as (result'&Heq&Hlen'&Hmv).
  exists result'. split; [done|]. split; [lia|]. intros i v' s Hv' Hs.
  destruct (Hmv i v') as (v&Hv&->); [by eapply lookup_lt_Some|done|].
  destruct (Hall i v s Hv Hs) as (off&Ha&Hsz&Ho&Hsl). exists off. rewrite Hri, Hx. simpl.
  split_and!; [lia|done|done|]. rewrite slice_app_l by lia. done.
Qed.

Lemma read_views_ok b result l :
  buf_ok b → views_ok b result l → read_views b (take (length l) result) = Ok l.
Proof.
  intros Hok. revert result. induction l as [|s l IH]; intros result [Hlen Hall]; [done|].
  destruct result as [|v result]; simpl in Hlen; [lia|]. cbn [length take read_views].
  rewrite (bind_Ok _ _ _ (view_ok_read b v s Hok (Hall 0%nat v s eq_refl eq_refl))). cbn beta.
  rewrite (IH result); [done|]. split; [lia|]. intros i w t Hw Ht. by apply (Hall (S i)).
Qed.

Section reception.
Context `{!BuildMode}.
Implicit Types c : Client.

(** The parser as the next call of [Parse] sees it. *)
Definition next_parser (o : option MultiBulkParser) : MultiBulkParser :=
  match o with
  | None => new_parser
  | Some p => if bool_decide (state_ p = kError ∨ state_ p = kDone) then new_parser else p
  end.

(** The client has received [stream] since the last reply and waits for
    more. *)
Definition receiving (stream : bytes) c : Prop :=
  data_start (query_buffer_ c) ≠ 0 ∧
  fed stream [] (query_buffer_ c) (next_parser (mbulk_parser_ c)) (arguments_ c).

Lemma Parse_next result b p :
  Parse result b p = Parse result b (next_parser (Some p)).
Proof.
  unfold next_parser. case_bool_decide as E; [|done].
  unfold Parse. rewrite (bool_decide_true (state_ p = kError ∨ state_ p = kDone)) by done.
  by rewrite (bool_decide_false (state_ new_parser = kError ∨ state_ new_parser = kDone))
    by (by intros [|]).
Qed.

Lemma next_in_progress o p : from_option InProgress false o = true → deref o = Ok p →
  next_parser o = p ∧ state_ p = kParsing.
Proof.
  destruct o as [q|]; simpl; [|done]. unfold InProgress. intros Hst%bool_decide_eq_true [= <-].
  rewrite bool_decide_false by (rewrite Hst; by intros [|]). done.
Qed.

Lemma fed_init_pending stream chunk b p args :
  fed stream chunk b p args → state_ p ≠ kParsing → pending b = stream ++ chunk.
Proof.
  intros [_ Hf] Hst. destruct (state_ p); try done. by destruct Hf as (_&?&_).
Qed.

Lemma EnsureAvailable_nonnull n g blk b p z b' :
  EnsureAvailable n g blk b = Ok (p, z, b') → data_start b ≠ 0 → blk_addr blk ≠ 0 →
  data_start b' ≠ 0.
Proof.
  unfold EnsureAvailable. intros Heq Hb Hblk. destruct (_ <=? _)%nat; [by simplify_eq|].
  apply bind_Ok_inv in Heq as (?&_&Heq). injection Heq as _ _ <-. unfold resize.
  destruct (_ <=? _)%nat; simpl; assumption.
Qed.

(** Making room keeps what was received. *)
Lemma EnsureBuffer_spec pl stream c :
  receiving stream c → pl_addr pl ≠ 0 →
  ∃ c', EnsureBuffer pl c = Ok c' ∧ receiving stream c' ∧
    (kIOGenericBufferSize ≤ Available (query_buffer_ c'))%nat ∧
    output_buffer_ c' = output_buffer_ c ∧ query_result_ c' = query_result_ c.
Proof.
  intros (Hnz&Hf) Hpl. unfold EnsureBuffer. pose proof Hf as [Hok _].
  set (g := (Capacity _ <? _)%nat). set (b := query_buffer_ c) in *.
  set (sz := MakeRoomFor _ g).
  replace (virtual_view_ b) with false by (symmetry; apply Hok).
  destruct (EnsureAvailable_spec kIOGenericBufferSize g (block_for sz pl) b Hok)
    as (p&z&b'&Heq&Hok'&Hp&Hav&Hri&Hwi&Hx&_&Hcase); [apply Nat.le_add_r|].
  rewrite (bind_Ok _ _ _ Heq). cbn beta iota.
  assert (data_start b' ≠ 0) as Hnz' by (by eapply EnsureAvailable_nonnull).
  assert (∃ args, match mbulk_parser_ c with
    | Some q => if negb (p =? 0) && InProgress q
                then BufferUpdate p (data_start b') (arguments_ c) q else Ok (arguments_ c)
    | None => Ok (arguments_ c) end = Ok args ∧
    fed stream [] b' (next_parser (mbulk_parser_ c)) args) as (args&Hargs&Hf').
  { destruct Hf as [_ Hf]. destruct (from_option InProgress false (mbulk_parser_ c)) eqn:Hin.
    - destruct (mbulk_parser_ c) as [q|]; [|done]. simpl in Hin.
      destruct (next_in_progress (Some q) q Hin eq_refl) as [Hq Hst]. rewrite Hq, Hst in *.
      destruct Hf as (n&body&l&r&Hh&Hb&->&Hpend&Hvs).
      rewrite Hin, andb_true_r. destruct Hcase as [->|[-> ->]].
      + rewrite Zeqb_f by done. cbn [negb]. unfold BufferUpdate. cbn [cur_arg_idx_].
        destruct (views_ok_moved b b' (arguments_ c) l Hvs Hri) as (args&Heq'&Hvs');
          [destruct Hok; lia|done|].
        exists args. split; [done|]. split; [done|]. simpl.
        exists n, body, l, r. by rewrite Hp.
      + exists (arguments_ c). split; [done|]. split; [done|]. simpl. by exists n, body, l, r.
    - exists (arguments_ c). split.
      { destruct (mbulk_parser_ c) as [q|]; [|done]. simpl in Hin. by rewrite Hin, andb_false_r. }
      split; [done|]. destruct (state_ (next_parser (mbulk_parser_ c))) eqn:Hst; try done.
      + by rewrite Hp.
      + exfalso. destruct (mbulk_parser_ c) as [q|]; [|done]. simpl in Hin, Hst.
        unfold InProgress in Hin. apply bool_decide_eq_false in Hin.
        by destruct (bool_decide _). }
  rewrite (bind_Ok _ _ _ Hargs). eexists. split; [reflexivity|]. by split_and!.
Qed.

Lemma fed_recv stream chunk b b' p args :
  fed stream [] b p args → buf_ok b' → pending b' = pending b ++ chunk →
  data_start b' = data_start b → read_index_ b' = read_index_ b →
  (∀ off len, (off + len ≤ write_index_ b)%nat →
     slice off len (data_ b') = slice off len (data_ b)) →
  fed stream chunk b' p args.
Proof.
  intros [Hok Hf] Hok' Hp Hst Hri Hsl. split; [done|]. destruct (state_ p); try done.
  - destruct Hf as (->&Hpend&Hh). rewrite Hp, Hpend, app_nil_r. done.
  - destruct Hf as (n&body&l&r&Hh&Hb&->&Hpend&Hvs). exists n, body, l, r.
    rewrite Hp, Hpend, app_nil_r. split_and!; try done.
    apply (views_ok_mono b); try done; [lia|]. intros off len Hle. apply Hsl.
    destruct Hok as (_&?&_). lia.
Qed.

(** Parsing only consumes. *)
Definition consumed (b b' : Buffer) : Prop := ∃ r, b' = set_indices r (write_index_ b) b.

Lemma consumed_refl b : consumed b b.
Proof. exists (read_index_ b). by destruct b. Qed.
Lemma consumed_trans b1 b2 b3 : consumed b1 b2 → consumed b2 b3 → consumed b1 b3.
Proof. intros [r ->] [r' ->]. by exists r'. Qed.
Lemma consumed_start b b' : consumed b b' → data_start b' = data_start b.
Proof. by intros [r ->]. Qed.
Lemma Consume_consumed n b b' : Consume n b = Ok b' → consumed b b'.
Proof. unfold Consume. intros ?. inv_ok. by eexists. Qed.
Local Hint Resolve consumed_refl Consume_consumed : rdss.

Lemma parse_bulk_consumed src cursor result b p x :
  parse_bulk src cursor result b p = Ok x →
  match x with inl (_, _, b', _) | inr (_, _, b', _) => consumed b b' end.
Proof.
  unfold parse_bulk. intros Heq.
  repeat match goal with
  | H : (if ?c then _ else _) = Ok _ |- _ => destruct c
  | H : match ?c with _ => _ end = Ok _ |- _ => destruct c
  | H : (_ ≫= _) = Ok _ |- _ => apply bind_Ok_inv in H as (?&?&H)
  | H : Ok _ = Ok _ |- _ => injection H as <-
  | H : Fault _ = Ok _ |- _ => discriminate H
  end; eauto with rdss.
Qed.

Lemma bulk_loop_consumed fuel src cursor result b p st r b' p' :
  bulk_loop fuel src cursor result b p = Ok (st, r, b', p') → consumed b b'.
Proof.
  revert cursor result b p. induction fuel as [|fuel IH]; intros cursor result b p;
    cbn [bulk_loop]; destruct (_ <? _); try (intros Heq; inv_ok; apply consumed_refl).
  intros Heq. apply bind_Ok_inv in Heq as (x&Hb&Heq). apply parse_bulk_consumed in Hb.
  destruct x as [[[[? ?] ?] ?]|[[[? ?] ?] ?]]; [by inv_ok|].
  eapply consumed_trans; [done|by eapply IH].
Qed.

Lemma Parse_consumed result b p st r b' p' :
  Parse result b p = Ok (st, r, b', p') → consumed b b'.
Proof.
  unfold Parse. intros Heq. apply bind_Ok_inv in Heq as (src&_&Heq).
  destruct (bool_decide _); [inv_ok; apply consumed_refl|].
  destruct (bool_decide _); [|by eapply bulk_loop_consumed].
  apply bind_Ok_inv in Heq as ([[cursor b1] p1]&Hh&Heq).
  assert (consumed b b1) as Hb1.
  { unfold ParseArgNum in Hh. apply bind_Ok_inv in Hh as (c&_&Hh).
    destruct (negb _); [inv_ok; apply consumed_refl|].
    destruct (find_crlf_from _ _); [|inv_ok; apply consumed_refl].
    destruct (from_chars_i32 _) as [m ?| |]; [|inv_ok; apply consumed_refl..].
    destruct (m <? 0); [inv_ok; apply consumed_refl|].
    apply bind_Ok_inv in Hh as (b2&Hc&Hh). apply Consume_consumed in Hc. by inv_ok. }
  destruct (cursor =? 0)%nat; [by inv_ok|].
  eapply consumed_trans; [done|by eapply bulk_loop_consumed].
Qed.

(** After a reply, the client is ready for the next query. *)
Lemma ResetState_receiving c :
  buf_ok (query_buffer_ c) → data_start (query_buffer_ c) ≠ 0 →
  next_parser (mbulk_parser_ c) = new_parser → receiving [] (ResetState c).
Proof.
  intros Hok Hnz Hp. destruct (Reset_spec _ Hok) as (Hok'&Hpend&_).
  split; simpl; [by unfold Reset; destruct (virtual_view_ _) eqn:E; [destruct Hok; congruence|]|].
  split; [done|]. rewrite Hp. simpl. by rewrite Hpend.
Qed.

(** What a chunk leads to, given what the grammar says of all the bytes. *)
Definition chunk_post (stream : bytes) c (res : Outcome (client_event * Client)) : Prop :=
  let '(st, args, rest) := query_of stream in
  match st with
  | kInit | kParsing =>
      ∃ c', res = Ok (CContinue, c') ∧ receiving stream c' ∧
        output_buffer_ c' = output_buffer_ c ∧ query_result_ c' = query_result_ c
  | kError =>
      ∃ c', res = Ok (CReply, c') ∧ receiving [] (ResetState c') ∧
        output_buffer_ c' = output_buffer_ c ∧
        query_result_ c' = SetError kProtocol (query_result_ c)
  | kDone =>
      args ≠ [] →
      ∃ c', res = Ok (CInvoke args, c') ∧ receiving [] (ResetState c') ∧
        output_buffer_ c' = output_buffer_ c ∧ query_result_ c' = query_result_ c
  end.

Lemma head_char b ch rest :
  buf_ok b → pending b = ch :: rest → first_char b = Ok ch.
Proof.
  intros Hok Hp. unfold first_char. destruct (Source_bytes b Hok) as (src&->&Hb&_).
  cbn [mbind outcome_bind]. by rewrite Hb, Hp.
Qed.

Lemma ParseQuery_bulks stream chunk b o args rest :
  fed stream chunk b (next_parser o) args → stream ++ chunk = "*"%char :: rest →
  ∃ p, ParseQuery b o args = ParseBulks b p args ∧ Parse args b p = Parse args b (next_parser o).
Proof.
  intros Hf Hstar. unfold ParseQuery.
  destruct (from_option InProgress false o) eqn:Hin.
  - destruct o as [p|]; [|done]. exists p. split; [done|]. apply Parse_next.
  - assert (pending b = "*"%char :: rest) as Hp.
    { rewrite <- Hstar. apply (fed_init_pending _ _ _ (next_parser o) args); [done|].
      destruct o as [p|]; [|done]. simpl in *. unfold InProgress in Hin.
      apply bool_decide_eq_false in Hin. by destruct (bool_decide _). }
    rewrite (bind_Ok _ _ _ (head_char b _ _ (proj1 Hf) Hp)). cbn beta.
    rewrite bool_decide_true by done. exists (default new_parser o). split; [done|].
    destruct o as [p|]; [apply Parse_next|done].
Qed.

Lemma next_parser_final p : state_ p = kDone ∨ state_ p = kError → next_parser (Some p) = new_parser.
Proof. intros Hst. simpl. by rewrite bool_decide_true by (destruct Hst; auto). Qed.
Lemma next_parser_live p : state_ p = kInit ∨ state_ p = kParsing → next_parser (Some p) = p.
Proof.
  intros Hst. simpl. rewrite bool_decide_false; [done|].
  destruct Hst as [-> | ->]; by intros [|].
Qed.

(** [OnReceived] on a multi-bulk query. *)
Lemma OnReceived_spec stream chunk b c rest :
  data_start b ≠ 0 → fed stream chunk b (next_parser (mbulk_parser_ c)) (arguments_ c) →
  pending b ≠ [] → stream ++ chunk = "*"%char :: rest →
  chunk_post (stream ++ chunk) c (OnReceived b c).
Proof.
  intros Hnz Hf' Hne Hstar. pose proof Hf' as [Hok _]. unfold OnReceived.
  destruct (Source_bytes b Hok) as (src&Hsrc&Hsb&_). rewrite (bind_Ok _ _ _ Hsrc). cbn beta.
  rewrite (bool_decide_false (src_bytes src = [])) by (by rewrite Hsb).
  destruct (ParseQuery_bulks _ _ _ _ _ _ Hf' Hstar) as (p&Hpq&Hpn). rewrite Hpq.
  unfold ParseBulks. rewrite Hpn. pose proof (Parse_fed _ _ _ _ _ Hf') as Hpost.
  unfold parse_post in Hpost. unfold chunk_post.
  destruct (query_of (stream ++ chunk)) as [[st args] rest'].
  destruct Hpost as (result'&b'&p'&Heq&Hok'&_&Hvs&Hst'&Hn&Hlive).
  rewrite (bind_Ok _ _ _ Heq). cbn beta iota.
  assert (data_start b' ≠ 0) as Hnz'.
  { assert (data_start b' = data_start b) as ->; [|done]. eapply consumed_start, Parse_consumed, Heq. }
  assert (∀ r, st = kDone ∨ st = kError →
    receiving [] (ResetState (mkClient b' (output_buffer_ c) result' (Some p') r))) as Hready.
  { intros r Hfin. apply ResetState_receiving; [done|done|]. apply next_parser_final.
    rewrite Hst'. done. }
  destruct st.
  - rewrite bool_decide_false by done. cbn [mbind outcome_bind]. eexists. split; [reflexivity|].
    split; [|done]. split; [done|]. cbn [query_buffer_ mbulk_parser_ arguments_].
    rewrite next_parser_live by (rewrite Hst'; auto). apply Hlive. auto.
  - rewrite bool_decide_false by done. cbn [mbind outcome_bind]. eexists. split; [reflexivity|].
    split; [|done]. apply Hready. auto.
  - rewrite bool_decide_false by done. cbn [mbind outcome_bind]. eexists. split; [reflexivity|].
    split; [|done]. split; [done|]. cbn [query_buffer_ mbulk_parser_ arguments_].
    rewrite next_parser_live by (rewrite Hst'; auto). apply Hlive. auto.
  - intros Hargs. rewrite bool_decide_true by done. unfold GetResultSize.
    rewrite (cassert_true (bool_decide (state_ p' = kDone))) by (by apply bool_decide_eq_true).
    rewrite Hn by done. cbn [mbind outcome_bind deref].
    rewrite (cassert_true (negb _))
      by (apply negb_true_iff, Z.eqb_neq; destruct args; [done|simpl; lia]).
    cbn [mbind outcome_bind]. rewrite Zleb_t by (pose proof (proj1 Hvs); lia).
    rewrite Nat2Z.id, (read_views_ok b' result' args Hok' Hvs). cbn [mbind outcome_bind].
    eexists. split; [reflexivity|]. split; [apply Hready; auto|done].
Qed.

Lemma Receive_sink at_ chunk b :
  chunk ≠ [] → buf_ok b → Receive at_ chunk b = recv chunk b.
Proof. intros Hne (Hv&_). unfold Receive. by rewrite bool_decide_false, Hv. Qed.

Lemma OnRecv_spec at_ stream chunk c rest :
  receiving stream c → chunk ≠ [] → (length chunk ≤ Available (query_buffer_ c))%nat →
  stream ++ chunk = "*"%char :: rest → chunk_post (stream ++ chunk) c (OnRecv at_ chunk c).
Proof.
  intros [Hnz Hf] Hne Hroom Hstar. unfold OnRecv. rewrite Receive_sink by (done || apply Hf).
  destruct (recv_spec chunk (query_buffer_ c) (proj1 Hf) Hroom)
    as (b&Hrecv&Hok&Hpend&Hst&Hri&Hsl&_). rewrite (bind_Ok _ _ _ Hrecv). cbn beta.
  apply (OnReceived_spec stream chunk b c rest); [by rewrite Hst|by eapply fed_recv| |done].
  rewrite Hpend. intros [_ ?]%app_nil. done.
Qed.

(** A chunk the client can receive at once, and a non-null block. *)
Definition chunk_ok (x : Place * bytes) : Prop :=
  pl_addr x.1 ≠ 0 ∧ x.2 ≠ [] ∧ (length x.2 ≤ kIOGenericBufferSize)%nat.

Lemma OnChunk_spec stream pl chunk c rest :
  receiving stream c → chunk_ok (pl, chunk) → stream ++ chunk = "*"%char :: rest →
  chunk_post (stream ++ chunk) c (OnChunk pl chunk c).
Proof.
  intros Hr (Hpl&Hne&Hlen) Hstar. simpl in *. unfold OnChunk.
  destruct (EnsureBuffer_spec pl stream c Hr Hpl) as (c1&Heq&Hr1&Hav&Ho&Hq).
  rewrite (bind_Ok _ _ _ Heq). cbn beta.
  pose proof (OnRecv_spec (pl_addr pl) stream chunk c1 rest Hr1 Hne ltac:(lia) Hstar) as Hp.
  unfold chunk_post in *. rewrite Ho, Hq in Hp. done.
Qed.

(** What a waiting client has not consumed is what the grammar leaves. *)
Lemma receiving_pending stream c :
  receiving stream c →
  pending (query_buffer_ c) = (query_of stream).2 ∧
  ((query_of stream).1.1 = kInit ∨ (query_of stream).1.1 = kParsing).
Proof.
  intros [_ [_ Hf]]. unfold query_of.
  destruct (state_ (next_parser (mbulk_parser_ c))); try done.
  - destruct Hf as (_&->&->). rewrite app_nil_r. auto.
  - destruct Hf as (n&body&l&r&->&->&_&->&_). rewrite app_nil_r. auto.
Qed.

(** The end of the stream, reported while a part of a query is unread. *)
Lemma OnChunk_end stream pl c rest :
  receiving stream c → stream = "*"%char :: rest → (query_of stream).2 ≠ [] → pl_addr pl ≠ 0 →
  ∃ c', OnChunk pl [] c = Ok (CContinue, c') ∧ receiving stream c'.
Proof.
  intros Hr Hstar Hrest Hpl. unfold OnChunk.
  destruct (EnsureBuffer_spec pl stream c Hr Hpl) as (c1&Heq&Hr1&_). step Heq.
  unfold OnRecv, Receive. rewrite bool_decide_true by done. cbn [mbind outcome_bind].
  destruct (receiving_pending _ _ Hr1) as [Hp Hv]. pose proof Hr1 as [Hnz Hf].
  pose proof (OnReceived_spec stream [] (query_buffer_ c1) c1 rest Hnz) as Hpost.
  rewrite app_nil_r in Hpost. specialize (Hpost Hf ltac:(by rewrite Hp) Hstar).
  unfold chunk_post in Hpost. destruct (query_of stream) as [[st args] r]. simpl in Hv.
  destruct Hv as [-> | ->]; destruct Hpost as (c'&?&?&_); by exists c'.
Qed.

Lemma OnChunks_spec args l stream c :
  receiving stream c → args ≠ [] → Forall arg_ok args → Z.of_nat (length args) < 2 ^ 31 →
  Forall chunk_ok l → stream ++ concat (map snd l) = encode_query args → l ≠ [] →
  ∃ c', OnChunks l c = Ok (CInvoke args, c') ∧ receiving [] (ResetState c') ∧
    output_buffer_ c' = output_buffer_ c ∧ query_result_ c' = query_result_ c.
Proof.
  intros Hr Hargs Hok Hn Hl. revert stream c Hr.
  induction Hl as [|[pl chunk] l Hc Hl IH]; intros stream c Hr Hcat Hne; [done|].
  cbn [map snd concat] in Hcat. cbn [OnChunks]. rewrite app_assoc in Hcat.
  assert (∃ rest, stream ++ chunk = "*"%char :: rest) as [rest Hstar].
  { destruct (stream ++ chunk) as [|ch rest] eqn:E.
    - apply app_nil in E as [_ E]. by destruct Hc as (_&?&_).
    - exists rest. rewrite <- app_comm_cons in Hcat. unfold encode_query in Hcat.
      by injection Hcat as -> _. }
  pose proof (OnChunk_spec stream pl chunk c rest Hr Hc Hstar) as Hp. unfold chunk_post in Hp.
  destruct l as [|x l].
  - simpl in Hcat. rewrite app_nil_r in Hcat. rewrite Hcat in Hp.
    pose proof (query_of_encode args [] Hok Hn) as Hq. rewrite app_nil_r in Hq. rewrite Hq in Hp.
    destruct Hp as (c'&->&Hc'); [done|]. by exists c'.
  - assert (concat (map snd (x :: l)) ≠ []) as Hmore.
    { inversion_clear Hl as [|? ? (_&Hx&_) _]. simpl. intros [? _]%app_nil. done. }
    pose proof (query_of_prefix args _ _ Hok Hn Hcat Hmore) as Hpre.
    destruct (query_of (stream ++ chunk)) as [[st args'] rest'].
    assert (∃ c', OnChunk pl chunk c = Ok (CContinue, c') ∧ receiving (stream ++ chunk) c' ∧
      output_buffer_ c' = output_buffer_ c ∧ query_result_ c' = query_result_ c)
      as (c1&Heq&Hr1&Ho&Hq) by (destruct Hpre as [E|E]; simpl in E; by subst st).
    rewrite (bind_Ok _ _ _ Heq). cbn beta iota.
    destruct (IH (stream ++ chunk) c1 Hr1 Hcat ltac:(done)) as (c'&Heq'&Hr'&Ho'&Hq').
    exists c'. split_and!; [done|done|congruence|congruence].
Qed.
End reception.

(** ** Inline queries *)

Section inline_reception.
Context `{!BuildMode}.
Implicit Types c : Client.

(** The client has received the beginning [stream] of a line. *)
Definition receiving_line (stream : bytes) c : Prop :=
  data_start (query_buffer_ c) ≠ 0 ∧ buf_ok (query_buffer_ c) ∧
  pending (query_buffer_ c) = stream ∧ next_parser (mbulk_parser_ c) = new_parser.

Lemma receiving_line_init c : receiving [] c → receiving_line [] c ∨
  state_ (next_parser (mbulk_parser_ c)) = kParsing.
Proof.
  intros (Hnz&Hok&Hf). destruct (state_ (next_parser (mbulk_parser_ c))) eqn:E; try done.
  - left. destruct Hf as (?&?&_). done.
  - by right.
Qed.

Lemma EnsureBuffer_line pl stream c :
  receiving_line stream c → pl_addr pl ≠ 0 →
  ∃ c', EnsureBuffer pl c = Ok c' ∧ receiving_line stream c' ∧
    (kIOGenericBufferSize ≤ Available (query_buffer_ c'))%nat ∧
    output_buffer_ c' = output_buffer_ c ∧ query_result_ c' = query_result_ c.
Proof.
  intros (Hnz&Hok&Hpend&Hp) Hpl. unfold EnsureBuffer.
  set (g := (Capacity _ <? _)%nat). set (b := query_buffer_ c) in *. set (sz := MakeRoomFor _ g).
  replace (virtual_view_ b) with false by (symmetry; apply Hok).
  destruct (EnsureAvailable_spec kIOGenericBufferSize g (block_for sz pl) b Hok)
    as (p&z&b'&Heq&Hok'&Hp'&Hav&Hri&Hwi&Hx&_&Hcase); [apply Nat.le_add_r|].
  rewrite (bind_Ok _ _ _ Heq). cbn beta iota.
  assert (data_start b' ≠ 0) as Hnz' by (by eapply EnsureAvailable_nonnull).
  assert (from_option InProgress false (mbulk_parser_ c) = false) as Hin.
  { destruct (mbulk_parser_ c) as [q|]; [|done]. simpl in *. unfold InProgress.
    apply bool_decide_eq_false. intros Hst. rewrite bool_decide_false in Hp
      by (rewrite Hst; by intros [|]). by subst q. }
  destruct (mbulk_parser_ c) as [q|] eqn:Eq; simpl in Hin; rewrite ?Hin, ?andb_false_r;
    cbn [mbind outcome_bind]; eexists; (split; [reflexivity|]);
    unfold receiving_line; cbn [query_buffer_ mbulk_parser_]; by rewrite Hp'.
Qed.

Lemma ParseInline_none result b st r n b' :
  buf_ok b → ParseInline result b = Ok (st, r, n, b') → find_crlf (pending b) = None → b' = b.
Proof.
  intros Hok Heq Hnone. unfold ParseInline in Heq.
  destruct (Source_bytes b Hok) as (src&Hsrc&Hb&_). rewrite (bind_Ok _ _ _ Hsrc) in Heq.
  cbn beta in Heq. rewrite Hb, Hnone in Heq.
  destruct (bool_decide _); [by simplify_eq|]. by destruct (_ <=? _)%nat; simplify_eq.
Qed.

(** [OnReceived] on a line: nothing while it is incomplete, its words when it
    is. *)
Lemma OnReceived_line stream b c ch rest :
  data_start b ≠ 0 → buf_ok b → pending b = stream →
  next_parser (mbulk_parser_ c) = new_parser → stream = ch :: rest → ch ≠ "*"%char →
  let '(st, ws, _) := inline_of stream in
  match st with
  | kParsing =>
      find_crlf stream = None →
      ∃ c', OnReceived b c = Ok (CContinue, c') ∧ receiving_line stream c' ∧
        output_buffer_ c' = output_buffer_ c ∧ query_result_ c' = query_result_ c
  | kDone =>
      ∃ c', OnReceived b c = Ok (CInvoke ws, c') ∧
        output_buffer_ c' = output_buffer_ c ∧ query_result_ c' = query_result_ c
  | _ => True
  end.
Proof.
  intros Hnz Hok Hpend Hp Hcat Hch. unfold OnReceived.
  destruct (Source_bytes b Hok) as (src&Hsrc&Hsb&_). rewrite (bind_Ok _ _ _ Hsrc). cbn beta.
  rewrite (bool_decide_false (src_bytes src = [])) by (rewrite Hsb, Hpend; congruence).
  unfold ParseQuery.
  assert (from_option InProgress false (mbulk_parser_ c) = false) as ->.
  { destruct (mbulk_parser_ c) as [q|]; [|done]. simpl in *. unfold InProgress.
    apply bool_decide_eq_false. intros Hst'. rewrite bool_decide_false in Hp
      by (rewrite Hst'; by intros [|]). by subst q. }
  rewrite (bind_Ok _ _ _ (head_char b ch rest Hok ltac:(congruence))). cbn beta.
  rewrite bool_decide_false by done.
  pose proof (ParseInline_spec (arguments_ c) b Hok) as Hpi. rewrite Hpend in Hpi.
  destruct (inline_of stream) as [[st ws] rest'] eqn:Hin.
  destruct Hpi as (result'&n&b'&Heq&Hok'&Hpend'&Hvs&Hn).
  rewrite (bind_Ok _ _ _ Heq). cbn [mbind outcome_bind].
  destruct st; try done.
  - intros Hnone. eexists. split; [reflexivity|]. split; [|done].
    unfold inline_of in Hin. rewrite Hcat, bool_decide_false in Hin by done.
    rewrite <- Hcat, Hnone in Hin. injection Hin as _ <- <-.
    assert (b' = b) as -> by (by eapply ParseInline_none; [..|rewrite Hpend; exact Hnone]).
    by split.
  - rewrite Hn by done. cbn [option_map deref mbind outcome_bind].
    assert (ws ≠ []) as Hws.
    { unfold inline_of in Hin. rewrite Hcat, bool_decide_false in Hin by done.
      destruct (find_crlf _); [|by destruct (_ <=? _)%nat; simplify_eq].
      injection Hin as E <- _. by case_bool_decide. }
    rewrite (cassert_true (negb _))
      by (apply negb_true_iff, Z.eqb_neq; destruct ws; [done|simpl; lia]).
    cbn [mbind outcome_bind]. rewrite Zleb_t by (pose proof (proj1 Hvs); lia).
    rewrite Nat2Z.id, (read_views_ok b' result' ws Hok' Hvs). cbn [mbind outcome_bind].
    eexists. split; [reflexivity|done].
Qed.

Lemma OnRecv_line at_ stream chunk c ch rest :
  receiving_line stream c → chunk ≠ [] → (length chunk ≤ Available (query_buffer_ c))%nat →
  stream ++ chunk = ch :: rest → ch ≠ "*"%char →
  let '(st, ws, _) := inline_of (stream ++ chunk) in
  match st with
  | kParsing =>
      find_crlf (stream ++ chunk) = None →
      ∃ c', OnRecv at_ chunk c = Ok (CContinue, c') ∧ receiving_line (stream ++ chunk) c' ∧
        output_buffer_ c' = output_buffer_ c ∧ query_result_ c' = query_result_ c
  | kDone =>
      ∃ c', OnRecv at_ chunk c = Ok (CInvoke ws, c') ∧
        output_buffer_ c' = output_buffer_ c ∧ query_result_ c' = query_result_ c
  | _ => True
  end.
Proof.
  intros (Hnz&Hok0&Hpend0&Hp) Hne Hroom Hcat Hch. unfold OnRecv.
  rewrite Receive_sink by done.
  destruct (recv_spec chunk (query_buffer_ c) Hok0 Hroom)
    as (b&Hrecv&Hok&Hpend&Hst&Hri&Hsl&_). rewrite Hpend0 in Hpend.
  rewrite (bind_Ok _ _ _ Hrecv). cbn beta.
  apply (OnReceived_line (stream ++ chunk) b c ch rest); by rewrite ?Hst.
Qed.

(** A line that ends in CRLF, does not contain another and is not taken for a
    multi-bulk query. *)
Definition line_ok (line : bytes) : Prop :=
  (CR ∉ line) ∧ (∃ ch rest, line = ch :: rest ∧ ch ≠ "*"%char) ∧ words [] line ≠ [] ∧
  (S (length line) < kMaxInlineBufferSize)%nat.

Lemma inline_of_line line :
  line_ok line → inline_of (line ++ CRLF) = (kDone, words [] line, []).
Proof.
  intros (Hcr&(ch&rest&->&_)&Hw&_). unfold inline_of. rewrite bool_decide_false by done.
  unfold CRLF. rewrite (find_crlf_no_CR _ [] Hcr), take_app_length.
  rewrite bool_decide_false by done. rewrite drop_app_ge by lia.
  by replace (length (ch :: rest) + 2 - length (ch :: rest))%nat with 2%nat by lia.
Qed.

Lemma inline_of_prefix line s t :
  line_ok line → s ++ t = line ++ CRLF → s ≠ [] → t ≠ [] →
  find_crlf s = None ∧ inline_of s = (kParsing, [], s).
Proof.
  intros (Hcr&_&_&Hlen) Hcat Hs Ht.
  assert (length s < length line + 2)%nat as Hls.
  { apply (f_equal length) in Hcat. rewrite !length_app in Hcat. simpl in Hcat.
    destruct t; [done|]. simpl in Hcat. lia. }
  assert (find_crlf s = None) as Hnone.
  { destruct (find_crlf s) as [i|] eqn:E; [|done].
    pose proof (find_crlf_app _ t _ E) as E'. rewrite Hcat in E'. unfold CRLF in E'.
    rewrite (find_crlf_no_CR _ [] Hcr) in E'. injection E' as <-.
    apply find_crlf_Some in E as [_ E]. lia. }
  split; [done|]. unfold inline_of. rewrite bool_decide_false, Hnone by done.
  by rewrite (proj2 (Nat.leb_gt _ _)) by lia.
Qed.

Lemma OnChunks_line line l stream c :
  receiving_line stream c → line_ok line → Forall chunk_ok l →
  stream ++ concat (map snd l) = line ++ CRLF → l ≠ [] →
  ∃ c', OnChunks l c = Ok (CInvoke (words [] line), c') ∧
    output_buffer_ c' = output_buffer_ c ∧ query_result_ c' = query_result_ c.
Proof.
  intros Hr Hline Hl. revert stream c Hr.
  induction Hl as [|[pl chunk] l (Hpl&Hc&Hcl) Hl IH]; intros stream c Hr Hcat Hne; [done|].
  cbn [map snd concat fst] in *. cbn [OnChunks]. rewrite app_assoc in Hcat.
  unfold OnChunk. destruct (EnsureBuffer_line pl stream c Hr Hpl) as (c1&Heq&Hr1&Hav&Ho&Hq).
  rewrite (bind_Ok _ _ _ Heq). cbn beta.
  assert (stream ++ chunk ≠ []) as Hsc by (intros [_ ?]%app_nil; done).
  assert (∃ ch rest, stream ++ chunk = ch :: rest ∧ ch ≠ "*"%char) as (ch&rest&Hh&Hstar).
  { destruct (stream ++ chunk) as [|ch rest] eqn:E; [done|]. exists ch, rest. split; [done|].
    destruct Hline as (_&(ch'&r'&->&Hch)&_). rewrite <- !app_comm_cons in Hcat.
    by injection Hcat as ->. }
  pose proof (OnRecv_line (pl_addr pl) stream chunk c1 ch rest Hr1 Hc ltac:(lia) Hh Hstar) as Hp.
  destruct l as [|x l].
  - simpl in Hcat. rewrite app_nil_r in Hcat. rewrite Hcat, inline_of_line in Hp by done.
    destruct Hp as (c'&Heq'&?&?). rewrite (bind_Ok _ _ _ Heq'). cbn beta iota.
    exists c'. split_and!; congruence.
  - assert (concat (map snd (x :: l)) ≠ []) as Hmore.
    { inversion_clear Hl as [|? ? (_&Hx&_) _]. simpl. intros [? _]%app_nil. done. }
    destruct (inline_of_prefix line _ _ Hline Hcat Hsc Hmore) as [Hnone Hin]. rewrite Hin in Hp.
    destruct Hp as (c2&Heq2&Hr2&Ho2&Hq2); [done|]. rewrite (bind_Ok _ _ _ Heq2). cbn beta iota.
    destruct (IH (stream ++ chunk) c2 Hr2 Hcat ltac:(done)) as (c'&Heq'&Ho'&Hq').
    exists c'. split_and!; [done|congruence..].
Qed.
End inline_reception.

(** ** Claims *)

Section claims.
Context `{!BuildMode}.

(** C5: Round trip of queries through the multi-bulk parser: take any non-empty
    list of strings (at most 2^31 - 1 of them, each shorter than 2^31), encode
    it in RESP, cut the encoding into any non-empty chunks of at most 16 KB,
    and let a client that waits for a query receive them, its buffer being
    resized and moved in between as the code does.  The client waits until the
    last chunk and then hands exactly these strings to the service; no
    assertion fails and no view dangles; after the reply it is ready for the
    next query. *)
Theorem chunked_query_round_trip args l c :
  receiving [] c → args ≠ [] → Forall arg_ok args → Z.of_nat (length args) < 2 ^ 31 →
  Forall chunk_ok l → concat (map snd l) = encode_query args →
  ∃ c', OnChunks l c = Ok (CInvoke args, c') ∧ receiving [] (ResetState c').
Proof.
  intros Hr Hargs Hok Hn Hl Hcat.
  destruct (OnChunks_spec args l [] c Hr Hargs Hok Hn Hl Hcat) as (c'&?&?&_); [by intros ->|].
  by exists c'.
Qed.

(** C35: Inline queries: a line (without CR, not starting with a star, below the
    16 KB limit, with at least one word) that arrives in any chunks is handed
    to the service as the list of its words, once its CRLF has arrived. *)
Theorem inline_query_words line l c :
  receiving_line [] c → line_ok line → Forall chunk_ok l →
  concat (map snd l) = line ++ CRLF →
  ∃ c', OnChunks l c = Ok (CInvoke (words [] line), c').
Proof.
  intros Hr Hline Hl Hcat.
  destruct (OnChunks_line line l [] c Hr Hline Hl Hcat) as (c'&?&_); [|by exists c'].
  intros ->. by destruct Hline as (_&(?&?&->&_)&_).
Qed.


(** A peer that closes its connection in the middle of a query is never
    dropped: when the unread part of the query is not empty, every further
    receive, which reports the end of the stream, finds that part in the buffer
    and the client waits for more, however often; [Process] spins and the
    connection is not closed. *)
Theorem end_of_stream_spins stream rest pl c n :
  receiving stream c → stream = "*"%char :: rest → (query_of stream).2 ≠ [] → pl_addr pl ≠ 0 →
  ∃ c', OnChunks (replicate n (pl, [])) c = Ok (CContinue, c').
Proof.
  intros Hr Hstar Hrest Hpl. revert c Hr. induction n as [|n IH]; intros c Hr; [by eexists|].
  destruct (OnChunk_end stream pl c rest Hr Hstar Hrest Hpl) as (c1&Heq&Hr1).
  cbn [replicate OnChunks]. step Heq. by apply IH.
Qed.
End claims.

Lemma new_Client_buffer pl1 pl2 :
  pl_addr pl1 ≠ 0 → data_start (query_buffer_ (new_Client false pl1 pl2)) ≠ 0 ∧
  buf_ok (query_buffer_ (new_Client false pl1 pl2)) ∧ pending (query_buffer_ (new_Client false pl1 pl2)) = [].
Proof.
  intros Hpl. unfold new_Client, new_Buffer, block_for. cbn [kIOGenericBufferSize].
  destruct (kIOGenericBufferSize =? 0)%nat eqn:E; [done|]. cbn [snd query_buffer_ data_start].
  split; [done|]. split; [|by unfold pending]. unfold buf_ok.
  cbn [virtual_view_ read_index_ write_index_ data_ data_capacity blk_capacity].
  rewrite length_replicate. split_and!; (done || lia).
Qed.

Lemma new_Client_receiving `{!BuildMode} pl1 pl2 :
  pl_addr pl1 ≠ 0 → receiving [] (new_Client false pl1 pl2) ∧ receiving_line [] (new_Client false pl1 pl2).
Proof.
  intros Hpl. destruct (new_Client_buffer pl1 pl2 Hpl) as (Hnz&Hok&Hp).
  split; (split; [done|]); (split; [done|]); [|done].
  change (next_parser (mbulk_parser_ (new_Client false pl1 pl2))) with new_parser.
  change (state_ new_parser) with kInit. cbv iota. by rewrite Hp.
Qed.

Ltac solve_chunk :=
  split; [done|]; split; [done|]; apply Nat.leb_le; vm_compute; reflexivity.
Ltac solve_chunks := repeat (apply Forall_cons; split; [solve_chunk|]); apply Forall_nil; done.

Lemma chunked_query_round_trip_witness :
  let B : BuildMode := false in
  let c := new_Client false (mkPlace 4096 0) (mkPlace 65536 0) in
  let l := [(mkPlace 100000 5, lit "*2" ++ CRLF ++ lit "$3" ++ CRLF ++ lit "GE");
            (mkPlace 200000 0, lit "T" ++ CRLF ++ lit "$1" ++ [CR]);
            (mkPlace 300000 7, LF :: lit "k" ++ CRLF)] in
  ∃ c', OnChunks l c = Ok (CInvoke [lit "GET"; lit "k"], c') ∧ receiving [] (ResetState c').
Proof.
  intros B c l. apply (chunked_query_round_trip [lit "GET"; lit "k"] l c).
  - apply (new_Client_receiving (mkPlace 4096 0)). done.
  - done.
  - repeat constructor.
  - done.
  - solve_chunks.
  - reflexivity.
Defined.

Lemma inline_query_words_witness :
  let B : BuildMode := false in
  let c := new_Client false (mkPlace 4096 0) (mkPlace 65536 0) in
  let l := [(mkPlace 100000 5, lit " set k "); (mkPlace 1 1, lit "v" ++ [CR]);
            (mkPlace 300000 7, [LF])] in
  ∃ c', OnChunks l c = Ok (CInvoke [lit "set"; lit "k"; lit "v"], c').
Proof.
  intros B c l. apply (inline_query_words (lit " set k v") l c).
  - apply (new_Client_receiving (mkPlace 4096 0)). done.
  - split; [by apply (bool_decide_unpack _)|]. split; [by eexists _, _|].
    split; [done|]. apply Nat.ltb_lt. vm_compute. reflexivity.
  - solve_chunks.
  - reflexivity.
Defined.


Lemma end_of_stream_spins_witness :
  let B : BuildMode := false in
  let c := new_Client false (mkPlace 4096 0) (mkPlace 65536 0) in
  ∃ c1, OnChunk (mkPlace 8192 0) (lit "*1" ++ CRLF ++ lit "$4") c = Ok (CContinue, c1) ∧
    ∃ c', OnChunks (replicate 1000 (mkPlace 8192 0, [])) c1 = Ok (CContinue, c').
Proof.
  intros B c.
  destruct (OnChunk_spec [] (mkPlace 8192 0) (lit "*1" ++ CRLF ++ lit "$4") c
    (lit "1" ++ CRLF ++ lit "$4")) as (c1&Heq&Hr&_).
  - apply (new_Client_receiving (mkPlace 4096 0)). done.
  - solve_chunk.
  - reflexivity.
  - exists c1. split; [exact Heq|].
    apply (end_of_stream_spins (lit "*1" ++ CRLF ++ lit "$4") (lit "1" ++ CRLF ++ lit "$4"));
      [exact Hr|reflexivity|vm_compute; discriminate|done].
Defined.
