(* ===== verification/RingClient.v ===== *)
(** * Clients that receive into the ring's buffers

    With [use_ring_buffer] a client's query buffer is virtual: it shows the
    bytes of one receive where they lie in the ring's memory.  Parsing such a
    buffer is parsing the buffer that holds the same bytes at the same address
    ([devirt], a simulation of every parser function), so that a query received
    whole is served as by a client with a buffer of its own; a query received
    in two pieces is not (src/src/base/buffer.h, src/src/client.cc). *)

From S2P Require Import Prelude Chars Buffer RespParser RespParserThms Replier Client ClientThms.

(** ** Outcomes that agree *)

Definition agree {A B} (R : A → B → Prop) (x : Outcome A) (y : Outcome B) : Prop :=
  match x, y with
  | Ok a, Ok b => R a b
  | Fault f, Fault g => f = g
  | Diverge, Diverge => True
  | _, _ => False
  end.

Lemma agree_bind {A B C D} (R : A → B → Prop) (S : C → D → Prop) x y k h :
  agree R x y → (∀ a b, R a b → agree S (k a) (h b)) → agree S (x ≫= k) (y ≫= h).
Proof. destruct x, y; simpl; naive_solver. Qed.

(** The same computation on both sides. *)
Lemma agree_same {A C D} (S : C → D → Prop) (x : Outcome A) k h :
  (∀ a, agree S (k a) (h a)) → agree S (x ≫= k) (x ≫= h).
Proof. intros Hk. apply agree_bind with eq; [by destruct x|]. by intros a ? <-. Qed.

(** ** Virtual buffers *)

(** A virtual buffer whose write index is the end of its view. *)
Definition shows (b : Buffer) : Prop :=
  virtual_view_ b = true ∧ write_index_ b = length (view_ b).

(** The buffer that holds the same bytes at the same address. *)
Definition devirt (b : Buffer) : Buffer :=
  mkBuffer false (view_ b) (view_start b) (length (view_ b)) (read_index_ b) (write_index_ b) 0 [].

Definition stands_for (b b' : Buffer) : Prop := shows b ∧ b' = devirt b.

Section simulation.
Context `{!BuildMode}.

Lemma Source_devirt b : shows b → Source (devirt b) = Source b.
Proof.
  intros [Hv Hw]. unfold Source. simpl. rewrite Hv. simpl. rewrite Hw.
  destruct (length (view_ b) =? read_index_ b)%nat; [done|].
  rewrite (proj2 (Nat.leb_le (length (view_ b)) _)) by done. rewrite andb_true_r.
  destruct (Nat.leb_spec (read_index_ b) (length (view_ b))); [|done].
  unfold slice. by rewrite take_ge by (rewrite length_drop; lia).
Qed.

Lemma Consume_devirt n b :
  shows b → agree stands_for (Consume n b) (Consume n (devirt b)).
Proof.
  intros [Hv Hw]. unfold Consume. apply agree_same. intros _. simpl. by repeat split.
Qed.

(** Results that carry a buffer. *)
Definition ret_rel (x y : parse_ret) : Prop :=
  let '(st, r, b, p) := x in let '(st', r', b', p') := y in
  st = st' ∧ r = r' ∧ p = p' ∧ stands_for b b'.

Definition turn_rel (x y : parse_ret + nat * list StringView * Buffer * MultiBulkParser) : Prop :=
  match x, y with
  | inl x, inl y => ret_rel x y
  | inr (n, r, b, p), inr (n', r', b', p') => n = n' ∧ r = r' ∧ p = p' ∧ stands_for b b'
  | _, _ => False
  end.

Ltac agree_step :=
  match goal with
  | |- agree _ (Consume _ _ ≫= _) (Consume _ _ ≫= _) =>
      eapply agree_bind; [by apply Consume_devirt|]; intros ? ? [? ->]
  | |- agree _ (_ ≫= _) (_ ≫= _) => apply agree_same; intros ?
  | |- agree _ (if ?c then _ else _) (if ?c then _ else _) => destruct c
  | |- agree _ (match ?c with _ => _ end) (match ?c with _ => _ end) => destruct c
  end; cbv zeta.

Ltac agree_done := first [done | simpl; unfold stands_for; auto 10].

Lemma parse_bulk_devirt src cursor result b p :
  shows b → agree turn_rel (parse_bulk src cursor result b p)
                           (parse_bulk src cursor result (devirt b) p).
Proof.
  intros Hb. unfold parse_bulk. repeat agree_step; agree_done.
Qed.

Lemma bulk_loop_devirt fuel src cursor result b p :
  shows b → agree ret_rel (bulk_loop fuel src cursor result b p)
                          (bulk_loop fuel src cursor result (devirt b) p).
Proof.
  revert cursor result b p. induction fuel as [|fuel IH]; intros cursor result b p Hb; cbn [bulk_loop];
    (destruct (_ <? _); [|agree_done]); [done|].
  eapply agree_bind; [by apply parse_bulk_devirt|].
  intros [x|[[[n r] b1] p1]] [y|[[[n' r'] b1'] p1']]; try done.
  intros (<- & <- & <- & Hb1 & ->). by apply IH.
Qed.

Lemma ParseArgNum_devirt src b p :
  shows b → agree (λ x y, x.1.1 = y.1.1 ∧ x.2 = y.2 ∧ stands_for x.1.2 y.1.2)
              (ParseArgNum src b p) (ParseArgNum src (devirt b) p).
Proof. intros Hb. unfold ParseArgNum. repeat agree_step; agree_done. Qed.

Lemma Parse_devirt result b p :
  shows b → agree ret_rel (Parse result b p) (Parse result (devirt b) p).
Proof.
  intros Hb. unfold Parse. rewrite Source_devirt by done. apply agree_same. intros src.
  destruct (bool_decide _); [agree_done|].
  destruct (bool_decide _); [|by apply bulk_loop_devirt].
  eapply agree_bind; [by apply ParseArgNum_devirt|].
  intros [[n b1] p1] [[n' b1'] p1']; cbn [fst snd]. intros (<- & <- & Hb1 & ->).
  destruct (n =? 0)%nat; [agree_done|by apply bulk_loop_devirt].
Qed.

Lemma ParseInline_devirt result b :
  shows b → agree (λ x y, x.1 = y.1 ∧ stands_for x.2 y.2)
              (ParseInline result b) (ParseInline result (devirt b)).
Proof.
  intros Hb. unfold ParseInline. rewrite Source_devirt by done. apply agree_same. intros src.
  repeat agree_step; agree_done.
Qed.

Definition parsed_rel
    (x y : ParserState * option Z * list StringView * Buffer * option MultiBulkParser) : Prop :=
  let '(st, n, r, b, p) := x in let '(st', n', r', b', p') := y in
  st = st' ∧ n = n' ∧ r = r' ∧ p = p' ∧ stands_for b b'.

Lemma ParseBulks_devirt b p result :
  shows b → agree parsed_rel (ParseBulks b p result) (ParseBulks (devirt b) p result).
Proof.
  intros Hb. unfold ParseBulks. eapply agree_bind; [by apply Parse_devirt|].
  intros [[[st r] b1] p1] [[[st' r'] b1'] p1']. cbn [ret_rel]. intros (<- & <- & <- & Hb1).
  apply agree_same. intros n. agree_done.
Qed.

Lemma ParseQuery_devirt b o result :
  shows b → agree parsed_rel (ParseQuery b o result) (ParseQuery (devirt b) o result).
Proof.
  intros Hb. unfold ParseQuery. destruct (from_option InProgress false o).
  - apply agree_same. intros p. by apply ParseBulks_devirt.
  - unfold first_char. rewrite Source_devirt by done. apply agree_same. intros ch.
    destruct (bool_decide _); [by apply ParseBulks_devirt|].
    eapply agree_bind; [by apply ParseInline_devirt|].
    intros [[[st r] n] b1] [[[st' r'] n'] b1']. cbn [fst snd]. intros ([= <- <- <-] & Hb1).
    agree_done.
Qed.

Lemma read_views_devirt b vs : shows b → read_views (devirt b) vs = read_views b vs.
Proof.
  intros [Hv _]. induction vs as [|v vs IH]; [done|]. cbn [read_views]. rewrite IH.
  unfold read_view. simpl. by rewrite Hv.
Qed.

(** The same event, and the same client but for its query buffer. *)
Definition event_rel (x y : client_event * Client) : Prop :=
  x.1 = y.1 ∧ stands_for (query_buffer_ x.2) (query_buffer_ y.2) ∧
  output_buffer_ x.2 = output_buffer_ y.2 ∧ mbulk_parser_ x.2 = mbulk_parser_ y.2 ∧
  query_result_ x.2 = query_result_ y.2.

Lemma OnReceived_devirt b c :
  shows b → agree event_rel (OnReceived b c) (OnReceived (devirt b) c).
Proof.
  intros Hb. unfold OnReceived. rewrite Source_devirt by done. apply agree_same. intros src.
  destruct (bool_decide _); [by repeat split; apply Hb|].
  eapply agree_bind; [by apply ParseQuery_devirt|].
  intros [[[[st n] r] b1] p1] [[[[st' n'] r'] b1'] p1']. cbn [parsed_rel].
  intros (<- & <- & <- & <- & Hb1 & ->). destruct st; try (by repeat split; apply Hb1).
  apply agree_same. intros m. apply agree_same. intros _. destruct (_ <=? _); [|done].
  rewrite read_views_devirt by done. apply agree_same. intros strs. by repeat split; apply Hb1.
Qed.
End simulation.

(** ** A client between queries *)

Section ring_client.
Context `{!BuildMode}.
Implicit Types c : Client.

Definition ring_idle c : Prop :=
  let b := query_buffer_ c in
  virtual_view_ b = true ∧ view_ b = [] ∧ read_index_ b = 0%nat ∧ write_index_ b = 0%nat ∧
  next_parser (mbulk_parser_ c) = new_parser.

(** The buffer after a receive into the ring. *)
Definition shown_at (at_ : Z) (chunk : bytes) (b : Buffer) : Buffer :=
  mkBuffer (virtual_view_ b) (data_ b) (data_start b) (data_capacity b) (read_index_ b)
    (length chunk) at_ chunk.

Lemma Receive_ring at_ chunk c :
  ring_idle c → chunk ≠ [] →
  Receive at_ chunk (query_buffer_ c) = Ok (shown_at at_ chunk (query_buffer_ c)) ∧
  shows (shown_at at_ chunk (query_buffer_ c)).
Proof.
  intros (Hv & Hview & Hr & Hw & Hp) Hne. unfold Receive, ProduceView.
  rewrite bool_decide_false by done. rewrite Hv. rewrite (cassert_true true) by done. cbn [mbind outcome_bind].
  rewrite cassert_true by (by apply bool_decide_eq_true). split; [|by split].
  cbn [mbind outcome_bind]. unfold shown_at. by rewrite Hv.
Qed.

Lemma devirt_shown at_ chunk c :
  ring_idle c → chunk ≠ [] →
  let b := devirt (shown_at at_ chunk (query_buffer_ c)) in
  buf_ok b ∧ pending b = chunk ∧ data_start b = at_.
Proof.
  intros (Hv & Hview & Hr & Hw & Hp) Hne b. unfold b, devirt, shown_at, buf_ok, pending.
  cbn [virtual_view_ data_ data_start data_capacity read_index_ write_index_ view_ view_start].
  rewrite Hr. split_and!; try (done || lia). unfold slice. rewrite drop_0, Nat.sub_0_r.
  by rewrite firstn_all.
Qed.

(** After the reply the client is between queries again. *)
Lemma ResetState_ring c c' :
  stands_for (query_buffer_ c) (query_buffer_ c') →
  next_parser (mbulk_parser_ c) = new_parser → ring_idle (ResetState c).
Proof. intros [[Hv _] _] Hp. unfold ring_idle. simpl. unfold Reset. by rewrite Hv. Qed.

Lemma receiving_nil_parser c : receiving [] c → next_parser (mbulk_parser_ c) = new_parser.
Proof.
  intros [_ [_ Hf]]. destruct (state_ (next_parser (mbulk_parser_ c))) eqn:E; try done.
  - by destruct Hf.
  - by destruct Hf as (? & ? & ? & ? & Hh & _).
Qed.

Lemma agree_Ok_r {A B} (R : A → B → Prop) x b : agree R x (Ok b) → ∃ a, x = Ok a ∧ R a b.
Proof. destruct x; simpl; naive_solver. Qed.

(** A chunk received between queries, against the client that holds it. *)
Lemma OnChunk_ring pl chunk c rest :
  ring_idle c → chunk_ok (pl, chunk) → chunk = "*"%char :: rest →
  OnChunk pl chunk c = OnReceived (shown_at (pl_addr pl) chunk (query_buffer_ c)) c ∧
  ∃ res, agree event_rel (OnChunk pl chunk c) res ∧ chunk_post chunk c res.
Proof.
  intros Hc (Hpl & Hne & _) Hstar. simpl in Hpl, Hne.
  destruct (Receive_ring (pl_addr pl) chunk c Hc Hne) as [Hrecv Hshow].
  destruct (devirt_shown (pl_addr pl) chunk c Hc Hne) as (Hok & Hpend & Hst).
  assert (OnChunk pl chunk c = OnReceived (shown_at (pl_addr pl) chunk (query_buffer_ c)) c) as Heq.
  { unfold OnChunk, EnsureBuffer. destruct (Hc) as (-> & _). cbn [mbind outcome_bind].
    unfold OnRecv. by rewrite Hrecv. }
  split; [done|]. rewrite Heq. eexists. split; [by apply OnReceived_devirt|].
  apply (OnReceived_spec [] chunk _ c rest); [by rewrite Hst| |by rewrite Hpend|done].
  destruct Hc as (_ & _ & _ & _ & ->). split; [exact Hok|].
  cbn [new_parser state_]. split_and!; [done|exact Hpend|done].
Qed.

(** ** Both kinds of client *)

(** The client waits for more bytes of a query that begins with [stream]. *)
Definition awaiting (stream : bytes) c : Prop :=
  receiving stream c ∨ stream = [] ∧ ring_idle c.

(** A client that uses the ring's buffers must get a query whole. *)
Definition whole_query (s : bytes) c : Prop :=
  virtual_view_ (query_buffer_ c) = true →
  match (query_of s).1.1 with kDone | kError => True | _ => False end.

Definition awaiting_post (stream : bytes) c (res : Outcome (client_event * Client)) : Prop :=
  let '(st, args, rest) := query_of stream in
  match st with
  | kInit | kParsing =>
      ∃ c', res = Ok (CContinue, c') ∧ awaiting stream c' ∧
        output_buffer_ c' = output_buffer_ c ∧ query_result_ c' = query_result_ c
  | kError =>
      ∃ c', res = Ok (CReply, c') ∧ awaiting [] (ResetState c') ∧
        output_buffer_ c' = output_buffer_ c ∧
        query_result_ c' = SetError kProtocol (query_result_ c)
  | kDone =>
      args ≠ [] →
      ∃ c', res = Ok (CInvoke args, c') ∧ awaiting [] (ResetState c') ∧
        output_buffer_ c' = output_buffer_ c ∧ query_result_ c' = query_result_ c
  end.

Lemma chunk_post_awaiting stream c res : chunk_post stream c res → awaiting_post stream c res.
Proof.
  unfold chunk_post, awaiting_post, awaiting. destruct (query_of stream) as [[st args] rest].
  destruct st; naive_solver.
Qed.

Lemma OnChunk_awaiting stream pl chunk c rest :
  awaiting stream c → chunk_ok (pl, chunk) → whole_query (stream ++ chunk) c →
  stream ++ chunk = "*"%char :: rest →
  awaiting_post (stream ++ chunk) c (OnChunk pl chunk c).
Proof.
  intros [Hr|[-> Hc]] Hck Hwhole Hstar; [by eapply chunk_post_awaiting, OnChunk_spec|].
  simpl in *. destruct (OnChunk_ring pl chunk c rest Hc Hck Hstar) as (_ & res & Hag & Hpost).
  specialize (Hwhole (proj1 Hc)). unfold awaiting_post, chunk_post in *.
  destruct (query_of chunk) as [[st args] r]. cbn [fst] in Hwhole.
  destruct st; try done; [destruct Hpost as (c' & -> & Hr & Ho & Hq)
                         |intros Hargs; destruct (Hpost Hargs) as (c' & -> & Hr & Ho & Hq)];
    apply agree_Ok_r in Hag as ([ev c1] & -> & He & Hb & Ho1 & Hp1 & Hq1); simpl in *; subst ev;
    exists c1; (split_and!; [done|right; split; [done|]|congruence..]);
    (eapply ResetState_ring; [done|]); rewrite Hp1; apply receiving_nil_parser in Hr; done.
Qed.

Lemma new_Client_ring_idle pl1 pl2 : ring_idle (new_Client true pl1 pl2).
Proof. by repeat split. Qed.

Lemma new_Client_awaiting ring pl1 pl2 : pl_addr pl1 ≠ 0 → awaiting [] (new_Client ring pl1 pl2).
Proof.
  intros Hpl. destruct ring; [right; split; [done|apply new_Client_ring_idle]|left].
  by apply new_Client_receiving.
Qed.

(** ** Queries received in pieces *)

Lemma ParseQuery_consumed b o r st n r' b' p' rest :
  ParseQuery b o r = Ok (st, n, r', b', p') → from_option InProgress false o = false →
  (∃ src, Source b = Ok src ∧ src_bytes src = "*"%char :: rest) → consumed b b'.
Proof.
  intros Heq Ho (src & Hsrc & Hb). unfold ParseQuery in Heq. rewrite Ho in Heq.
  unfold first_char in Heq. rewrite Hsrc in Heq. cbn [mbind outcome_bind] in Heq.
  rewrite Hb in Heq. cbn [mbind outcome_bind] in Heq. rewrite bool_decide_true in Heq by done.
  unfold ParseBulks in Heq. apply bind_Ok_inv in Heq as ([[[st1 r1] b1] p1] & Hp & Heq).
  apply Parse_consumed in Hp. apply bind_Ok_inv in Heq as (m & _ & Heq). by injection Heq as <- <- <- <- <-.
Qed.

(** The client that waits for the rest of a query keeps showing the first
    piece. *)
Lemma OnReceived_view b c ev c' rest :
  OnReceived b c = Ok (ev, c') → from_option InProgress false (mbulk_parser_ c) = false →
  (∃ src, Source b = Ok src ∧ src_bytes src = "*"%char :: rest) → consumed b (query_buffer_ c').
Proof.
  intros Heq Ho (src & Hsrc & Hb). unfold OnReceived in Heq. rewrite Hsrc in Heq.
  cbn [mbind outcome_bind] in Heq. rewrite Hb in Heq. rewrite bool_decide_false in Heq by done.
  apply bind_Ok_inv in Heq as ([[[[st n] r] b'] p] & Hp & Heq).
  eapply ParseQuery_consumed in Hp; [|done|by eexists].
  destruct st; try (injection Heq as <- <-; exact Hp).
  apply bind_Ok_inv in Heq as (m & _ & Heq). apply bind_Ok_inv in Heq as (_ & _ & Heq).
  destruct (_ <=? _); [|done]. apply bind_Ok_inv in Heq as (l & _ & Heq).
  injection Heq as <- <-. exact Hp.
Qed.

Lemma next_parser_idle o : next_parser o = new_parser → from_option InProgress false o = false.
Proof.
  destruct o as [p|]; [|done]. simpl. unfold InProgress. intros Hp. apply bool_decide_eq_false.
  intros Hst. rewrite bool_decide_false in Hp by (rewrite Hst; by intros [|]). by subst p.
Qed.

(** A second receive into a virtual buffer that shows bytes. *)
Lemma OnChunk_second pl chunk c :
  virtual_view_ (query_buffer_ c) = true → view_ (query_buffer_ c) ≠ [] → chunk ≠ [] →
  (ndebug = false → OnChunk pl chunk c = Fault AssertFailed) ∧
  (ndebug = true → (length chunk < read_index_ (query_buffer_ c))%nat →
     OnChunk pl chunk c = Fault OutOfRange).
Proof.
  intros Hv Hview Hne. unfold OnChunk, EnsureBuffer. rewrite Hv. cbn [mbind outcome_bind].
  unfold OnRecv, Receive. rewrite bool_decide_false by done. rewrite Hv.
  unfold ProduceView. rewrite Hv, (cassert_true true) by done. cbn [mbind outcome_bind].
  split; intros Hd; unfold cassert; rewrite Hd; cbn [mbind outcome_bind].
  - by rewrite bool_decide_false by done.
  - intros Hlt. unfold OnReceived, Source. simpl.
    rewrite (proj2 (Nat.eqb_neq _ _)) by lia. by rewrite (proj2 (Nat.leb_gt _ _)) by lia.
Qed.

(** C31: Round trip of queries in ring mode: a client that uses the ring's
    buffers and receives the encoding of a query at once hands exactly the
    strings of the query to the service, without a fault, and after the reply
    its buffer shows nothing and it is ready for the next query. *)
Theorem ring_query_round_trip args pl c :
  ring_idle c → args ≠ [] → Forall arg_ok args → Z.of_nat (length args) < 2 ^ 31 →
  chunk_ok (pl, encode_query args) →
  ∃ c', OnChunk pl (encode_query args) c = Ok (CInvoke args, c') ∧ ring_idle (ResetState c').
Proof.
  intros Hc Hargs Hok Hn Hck.
  pose proof (query_of_encode args [] Hok Hn) as Hq. rewrite app_nil_r in Hq.
  destruct (OnChunk_ring pl (encode_query args) c _ Hc Hck eq_refl) as (_ & res & Hag & Hpost).
  unfold chunk_post in Hpost. rewrite Hq in Hpost. destruct (Hpost Hargs) as (c' & -> & Hr & _).
  apply agree_Ok_r in Hag as ([ev c1] & -> & He & Hb & _ & Hp1 & _); simpl in *; subst ev.
  exists c1. split; [done|]. eapply ResetState_ring; [done|]. rewrite Hp1.
  by apply receiving_nil_parser in Hr.
Qed.

(** C40: A query received in two pieces in ring mode is fatal: after a first
    piece the client waits with its buffer still showing that piece, and any
    second piece fails the assertion of [Buffer::Produce] in a debug build; in
    a release build the second piece replaces the first one, and if it is
    shorter than what was consumed the next read is outside the view. *)
Theorem ring_split_query_faults pl chunk c rest :
  ring_idle c → chunk_ok (pl, chunk) → chunk = "*"%char :: rest →
  (query_of chunk).1.1 = kInit ∨ (query_of chunk).1.1 = kParsing →
  ∃ c1, OnChunk pl chunk c = Ok (CContinue, c1) ∧
    ∀ pl2 chunk2, chunk2 ≠ [] →
      (ndebug = false → OnChunk pl2 chunk2 c1 = Fault AssertFailed) ∧
      (ndebug = true → (length chunk2 < read_index_ (query_buffer_ c1))%nat →
         OnChunk pl2 chunk2 c1 = Fault OutOfRange).
Proof.
  intros Hc Hck Hstar Hv. assert (chunk ≠ []) as Hne by (by subst).
  destruct (OnChunk_ring pl chunk c rest Hc Hck Hstar) as (Heq & res & Hag & Hpost).
  unfold chunk_post in Hpost. destruct (query_of chunk) as [[st args] r]. simpl in Hv.
  assert (∃ c', res = Ok (CContinue, c')) as [c' ->]
    by (destruct Hv as [-> | ->]; destruct Hpost as (c' & ? & _); by exists c').
  apply agree_Ok_r in Hag as ([ev c1] & Hev & He & Hb & _); simpl in *; subst ev.
  exists c1. split; [done|]. intros pl2 chunk2 Hne2. rewrite Heq in Hev.
  destruct (Receive_ring (pl_addr pl) chunk c Hc Hne) as [_ Hshow].
  destruct (devirt_shown (pl_addr pl) chunk c Hc Hne) as (Hok & Hpend & _).
  apply (OnReceived_view _ _ _ _ rest) in Hev as [i Hi].
  - apply OnChunk_second; [|by rewrite Hi|done]. rewrite Hi. simpl. apply Hc.
  - apply next_parser_idle, Hc.
  - destruct (Source_bytes _ Hok) as (src & Hsrc & Hs & _). rewrite Source_devirt in Hsrc by done.
    exists src. by rewrite Hs, Hpend.
Qed.
End ring_client.

Lemma ring_query_round_trip_witness :
  let B : BuildMode := false in
  let c := new_Client true (mkPlace 4096 0) (mkPlace 65536 0) in
  ∃ c', OnChunk (mkPlace 9000 0) (encode_query [lit "GET"; lit "k"]) c
        = Ok (CInvoke [lit "GET"; lit "k"], c') ∧ ring_idle (ResetState c').
Proof.
  intros B c. apply (ring_query_round_trip [lit "GET"; lit "k"] (mkPlace 9000 0) c).
  - apply new_Client_ring_idle.
  - done.
  - repeat constructor.
  - done.
  - split; [done|]. split; [done|]. apply Nat.leb_le. vm_compute. reflexivity.
Defined.

Lemma ring_split_query_faults_witness :
  let B : BuildMode := false in
  let c := new_Client true (mkPlace 4096 0) (mkPlace 65536 0) in
  ∃ c1, OnChunk (mkPlace 9000 0) (lit "*1" ++ CRLF ++ lit "$4") c = Ok (CContinue, c1) ∧
    OnChunk (mkPlace 13096 0) (CRLF ++ lit "PING" ++ CRLF) c1 = Fault AssertFailed.
Proof.
  intros B c.
  destruct (ring_split_query_faults (mkPlace 9000 0) (lit "*1" ++ CRLF ++ lit "$4") c
    (lit "1" ++ CRLF ++ lit "$4")) as (c1 & Heq & H).
  - apply new_Client_ring_idle.
  - split; [done|]. split; [done|]. apply Nat.leb_le. vm_compute. reflexivity.
  - reflexivity.
  - right. vm_compute. reflexivity.
  - exists c1. split; [exact Heq|]. by apply H.
Defined.
