(* ===== verification/System.v ===== *)
(** * The server as a whole

    Clients and the data structure service together: the chunks a client
    receives, the commands the service executor runs one at a time, the replies
    the client executors send later, and the periodic work, in any
    interleaving.  A reply points into the service's string objects until it is
    sent, so a command of one client runs while results of others are shown.
    Models the composition made by [Client::Process] (src/src/client.cc) and
    [DataStructureService::Cron] (src/src/service/data_structure_service.cc). *)

From S2P Require Import Prelude Chars Buffer RespParser RespParserThms Config Table Replier HashTable.
From S2P Require Import Service ServiceInv ServiceSpec StringCommands CommandSpec StringCommandsThms.
From S2P Require Import KeyCommands Eviction Dispatch DispatchThms Client ClientThms.

(** ** The concrete system *)

(** Where a client's [Process] is: receiving, waiting for the service executor
    with a parsed query, or about to send its reply. *)
Inductive phase := PRecv | PQueued (args : list bytes) | PReply.

(** What may happen next. *)
Inductive input :=
  | IConnect (id : nat) (pl1 pl2 : Place)
  | IChunk (id : nat) (pl : Place) (chunk : bytes)
  | IRun (id : nat) (rands : list Z)
  | ISend (id : nat) (blk : Block) (written : Z) (* the result of the send *)
  | IClose (id : nat)
  | ITime (now : Z)
  | IClock (now : Z)
  | IRehash (ticks1 ticks2 : list bool).

(** The string objects a result shows. *)
Definition result_ptrs (r : Result) : list sid :=
  match type r with
  | TString => option_list (string_ptr r)
  | TStrings => omap id (strings r)
  | _ => []
  end.

Section system.
Context {DT ET : Type} `{!Table MTSPtr DT} `{!Table Z ET} `{!BuildMode} `{!Memory DT ET}.

Record World := mkWorld {
  service_ : Service DT ET;
  clients_ : gmap nat (Client * phase) }.
Implicit Types w : World.

Definition shown (m : gmap nat (Client * phase)) : list sid :=
  map_to_list m ≫= λ p, result_ptrs (query_result_ p.2.1).

(** The service is told which string objects results point to. *)
Definition put_client (id : nat) (x : option (Client * phase)) (s : Service DT ET) w : World :=
  let m := partial_alter (λ _, x) id (clients_ w) in
  mkWorld (with_held (shown m) s) m.

Definition sys_step (cmds : gmap bytes (Command DT ET)) (i : input) w
    : Outcome (option (nat * bytes) * World) :=
  let s := service_ w in
  match i with
  | IConnect id pl1 pl2 =>
      match clients_ w !! id with
      | None => Ok (None, put_client id (Some (new_Client (use_ring_buffer (config_ s)) pl1 pl2, PRecv)) s w)
      | Some _ => Ok (None, w)
      end
  | IChunk id pl chunk =>
      match clients_ w !! id with
      | Some (c, PRecv) =>
          '(ev, c) ← OnChunk pl chunk c;
          Ok (None, match ev with
                    | CClose => put_client id None s w
                    | CContinue => put_client id (Some (c, PRecv)) s w
                    | CReply => put_client id (Some (c, PReply)) s w
                    | CInvoke args => put_client id (Some (c, PQueued args)) s w
                    end)
      | _ => Ok (None, w)
      end
  | IRun id rands =>
      match clients_ w !! id with
      | Some (c, PQueued args) =>
          '(r, s) ← Invoke cmds args rands (query_result_ c) s;
          Ok (None, put_client id (Some (set_result r c, PReply)) s w)
      | _ => Ok (None, w)
      end
  | ISend id blk written =>
      match clients_ w !! id with
      | Some (c, PReply) =>
          '(out, c) ← SendReply (strs_ s) blk c;
          if 0 <? written
          then Ok (Some (id, take (Z.to_nat written) out), put_client id (Some (c, PRecv)) s w)
          else Ok (None, put_client id None s w)
      | _ => Ok (None, w)
      end
  | IClose id =>
      match clients_ w !! id with
      | Some (_, PRecv) => Ok (None, put_client id None s w)
      | _ => Ok (None, w)
      end
  | ITime now => Ok (None, mkWorld (UpdateCommandTime now s) (clients_ w))
  | IClock now => Ok (None, mkWorld (RefreshLRUClock now s) (clients_ w))
  | IRehash t1 t2 =>
      s ← IncrementalRehashing t1 t2 s;
      Ok (None, mkWorld s (clients_ w))
  end.
End system.
Arguments World : clear implicits.

(** ** The abstract system *)

(** What a client sees: bytes of a query still to be completed, a query to be
    answered, or its answer. *)
Inductive aphase := ARecv (stream : bytes) | AQueued (args : list bytes) | AReply (a : areply).

Record AWorld := mkAWorld {
  adb : DB;
  anow : Z;
  acap : option MaxmemoryPolicy; (* the eviction policy, when memory is limited *)
  aclients : gmap nat aphase;
}.

Definition encode_str (o : option bytes) : bytes :=
  match o with None => kNilStr | Some c => encode_bulk c end.

(** The reply on the wire. *)
Definition encode_areply (a : areply) : bytes :=
  match a with
  | AOk => kOkStr
  | AErr e => ErrorToStringView e
  | ANil => kNilStr
  | AInt z => ":"%char :: to_chars z ++ CRLF
  | AStr c => encode_bulk c
  | AArr l => "*"%char :: to_chars (Z.of_nat (length l)) ++ CRLF ++ concat (map encode_str l)
  end.

(** The grammar's verdict on the bytes received. *)
Definition after_chunk (stream : bytes) : aphase :=
  match query_of stream with
  | (kInit, _, _) | (kParsing, _, _) => ARecv stream
  | (kError, _, _) => AReply (AErr kProtocol)
  | (kDone, args, _) => AQueued args
  end.
