(* ===== verification/Cron.v ===== *)
(** * The server with its periodic work

    Model of [DataStructureService::Cron]
    (src/src/service/data_structure_service.cc) and of the server that runs it
    beside the clients: the coroutine wakes every millisecond, updates the
    command time and, once per interval, refreshes the LRU clock, runs a cycle
    of active expiry and rehashes.  It shares the executor with the commands,
    so a round is one step.  With it come the timeout it waits for and the clock
    it reads. *)

From S2P Require Import Prelude Config Ini Table Replier HashTable Service Expire Eviction Dispatch System.

(** ** [Timeout] (src/src/runtime/timeout.h) *)

Record Timespec := mkTimespec { tv_sec : Z; tv_nsec : Z }.
Definition ETIME : Z := 62.

Definition Timeout (nanoseconds : Z) : Timespec := mkTimespec 0 nanoseconds.
Definition Timeout_resume (result : Z) : Outcome unit :=
  if negb (result =? - ETIME) && negb (result =? 0) then Fault LogFatal else Ok tt.

(** What the kernel promises of a timeout: a time it accepts runs out; other
    times are refused with another error. *)
Definition timer_ok (ts : Timespec) (result : Z) : Prop :=
  0 ≤ tv_sec ts ∧ 0 ≤ tv_nsec ts < 1000000000 → result = - ETIME ∨ result = 0.

(** [std::chrono::milliseconds(1)] *)
Definition kCronWait : Z := 1000000.

(** ** [Clock] (src/src/base/clock.h) *)

Record Clock := mkClock { is_system_ : bool; time_ : Z }.
(** [system] is the reading of the system clock, in milliseconds. *)
Definition Now (c : Clock) (system : Z) : Z := if is_system_ c then system else time_ c.
Definition SetTime (time : Z) (c : Clock) : Clock := mkClock (is_system_ c) time.
(** The [clock_] of the service: the one it was given, or a system clock. *)
Definition service_clock (clock : option Clock) : Clock := default (mkClock true 0) clock.

(** ** [Cron] *)

Section cron.
Context `{!BuildMode} `{!HashFn} `{!Memory (HashTable MTSPtr) (HashTable Z)}.
Abbreviation Svc := (Service (HashTable MTSPtr) (HashTable Z)).
Implicit Types s : Svc.

(** What a round reads from outside: the result of its timeout, the clocks, the elapsed times seen by the
    expiry cycle and the clock tests of the rehash loops. *)
Record round := mkRound {
  r_timeout : Z;          (* of WaitFor *)
  r_now : Z;              (* the system clock in UpdateCommandTime *)
  r_lru : Z;              (* the LRU clock *)
  r_expire : Z;           (* the system clock in ActiveExpire *)
  r_elapsed : list Z;     (* steady clock in ActiveExpire *)
  r_ticks1 : list bool;
  r_ticks2 : list bool }.

Definition cron_interval (c : Config) : Outcome Z :=
  if hz c =? 0 then Fault DivByZero else Ok (1000 / hz c).

(** The body of the loop from the end of [WaitFor]. *)
Definition Cron_body (interval : Z) (r : round) (cnt : Z) s : Outcome (Z * Svc) :=
  _ ← Timeout_resume (r_timeout r);
  let clock_ := service_clock None in
  let s := UpdateCommandTime (Now clock_ (r_now r)) s in
  let cnt := u64 (cnt + 1) in
  if cnt <? interval then Ok (cnt, s)
  else
    let s := RefreshLRUClock (r_lru r) s in
    s ← ActiveExpire (Now clock_ (r_expire r)) (r_elapsed r) s;
    s ← IncrementalRehashing (r_ticks1 r) (r_ticks2 r) s;
    Ok (0, s).

(** What is asked of a round: the timer keeps its promise and the steady clock
    answers. *)
Definition tick_ok (r : round) : Prop := timer_ok (Timeout kCronWait) (r_timeout r) ∧ r_elapsed r ≠ [].

Lemma round_resumes r : tick_ok r → Timeout_resume (r_timeout r) = Ok tt.
Proof. intros [Ht _]. destruct Ht as [->| ->]; [simpl; unfold kCronWait; lia|done|done]. Qed.

(** The server: the clients and the service, and the coroutine's counter and
    whether it waits for its next round; it ends when [active_] is false after
    a round. *)
Record Server := mkServer {
  world : World (HashTable MTSPtr) (HashTable Z);
  cnt : Z;
  waiting : bool }.

Inductive event := ESys (i : input) | ECron (r : round).

Definition server_step (cmds : gmap bytes (Command (HashTable MTSPtr) (HashTable Z))) (e : event)
    (v : Server) : Outcome (option (nat * bytes) * Server) :=
  match e with
  | ESys i => '(out, w) ← sys_step cmds i (world v); Ok (out, mkServer w (cnt v) (waiting v))
  | ECron r =>
      let s := service_ (world v) in
      if negb (waiting v) then Ok (None, v)
      else
        interval ← cron_interval (config_ s);
        '(n, s) ← Cron_body interval r (cnt v) s;
        Ok (None, mkServer (mkWorld s (clients_ (world v))) n (active_ s))
  end.
End cron.

(** A configuration file may set [hz] to 0: it is read without complaint
    (nothing calls [SanityCheck], which would not look at it either) and the
    first statement of [Cron] divides by it. *)
Theorem hz_zero_stops_cron before :
  ∃ c, ReadFromFile (lit "[redis]" ++ [LF] ++ lit "hz = 0" ++ [LF]) before = Ok c ∧
       SanityCheck c = Ok tt ∧ cron_interval c = Fault DivByZero.
Proof. eexists. split; [reflexivity|]. split; reflexivity. Qed.
