(* ===== verification/SystemThms.v ===== *)
(** * Correctness of the server

    Every interleaving of receptions, commands, replies and periodic work is
    one of the abstract system: each client gets the RESP encoding of the answer
    its command had when it ran, whatever the other clients did before the
    reply was sent. *)

From S2P Require Import Prelude Chars Buffer RespParser RespParserThms Config Table Replier HashTable.
From S2P Require Import Service ServiceInv ServiceSpec StringCommands CommandSpec StringCommandsThms.
From S2P Require Import KeyCommands Eviction Dispatch DispatchThms Client ClientThms RingClient System.

Section refinement.
Context {DT ET : Type} `{!Table MTSPtr DT} `{!Table Z ET} `{!BuildMode} `{!Memory DT ET}.
Context `{!TableView MTSPtr DT} `{!TableView Z ET} `{!TableLaws MTSPtr DT} `{!TableLaws Z ET}.
Implicit Types (w : World DT ET) (aw : AWorld).

(** ** Steps of the abstract system *)

Definition aput (id : nat) (x : option aphase) (d : DB) aw : AWorld :=
  mkAWorld d (anow aw) (acap aw) (partial_alter (λ _, x) id (aclients aw)).

(** Whether an input changes the abstract state. *)
Definition enabled (i : input) aw : bool :=
  match i with
  | IConnect id _ _ => match aclients aw !! id with None => true | _ => false end
  | IChunk id _ _ | IClose id =>
      match aclients aw !! id with Some (ARecv _) => true | _ => false end
  | IRun id _ => match aclients aw !! id with Some (AQueued _) => true | _ => false end
  | ISend id _ _ => match aclients aw !! id with Some (AReply _) => true | _ => false end
  | ITime _ => true
  | IClock _ | IRehash _ _ => false
  end.

Inductive astep : input → option (nat * bytes) → AWorld → AWorld → Prop :=
  | A_connect id pl1 pl2 aw :
      aclients aw !! id = None →
      astep (IConnect id pl1 pl2) None aw (aput id (Some (ARecv [])) (adb aw) aw)
  | A_chunk id pl chunk stream aw :
      aclients aw !! id = Some (ARecv stream) →
      astep (IChunk id pl chunk) None aw
        (aput id (Some (after_chunk (stream ++ chunk))) (adb aw) aw)
  | A_run id rands pr args a d aw :
      aclients aw !! id = Some (AQueued args) →
      pr = None ∨ pr = acap aw →
      query_rel (DT:=DT) (ET:=ET) pr (anow aw) args (adb aw) a d →
      astep (IRun id rands) None aw (aput id (Some (AReply a)) d aw)
  | A_send id blk written a aw :
      aclients aw !! id = Some (AReply a) → 0 < written →
      astep (ISend id blk written) (Some (id, take (Z.to_nat written) (encode_areply a))) aw
        (aput id (Some (ARecv [])) (adb aw) aw)
  | A_send_fails id blk written a aw :
      aclients aw !! id = Some (AReply a) → written ≤ 0 →
      astep (ISend id blk written) None aw (aput id None (adb aw) aw)
  | A_close id stream aw :
      aclients aw !! id = Some (ARecv stream) →
      astep (IClose id) None aw (aput id None (adb aw) aw)
  | A_time now aw : astep (ITime now) None aw (mkAWorld (adb aw) now (acap aw) (aclients aw))
  | A_quiet i aw : enabled i aw = false → astep i None aw aw.

(** ** The refinement relation *)

Definition conn_is (strs : StrStore) (x : option (Client * phase)) (y : option aphase) : Prop :=
  match x, y with
  | None, None => True
  | Some (c, ph), Some aph =>
      out_ok (output_buffer_ c) ∧
      match ph, aph with
      | PRecv, ARecv stream => awaiting stream c ∧ fresh_result (query_result_ c)
      | PQueued args, AQueued args' =>
          args = args' ∧ awaiting [] (ResetState c) ∧ fresh_result (query_result_ c)
      | PReply, AReply a =>
          awaiting [] (ResetState c) ∧ reply_is strs (query_result_ c) a
      | _, _ => False
      end
  | _, _ => False
  end.

Record sys_is w aw : Prop := {
  si_svc : svc_is (service_ w) (adb aw);
  si_pool : pool_ok (service_ w);
  si_cap : cap (service_ w) = acap aw;
  si_now : command_time_snapshot_ (service_ w) = anow aw;
  si_held : held_ (service_ w) = shown (clients_ w);
  si_conns : ∀ id, conn_is (strs_ (service_ w)) (clients_ w !! id) (aclients aw !! id) }.

(** What is asked of an input: blocks from the allocator are not null and
    large enough, chunks are non-empty and at most 16 KB, queries are
    multi-bulk and not empty, a command is within the machine limits. *)
Definition areply_fits (a : areply) : Prop :=
  match a with
  | AInt z => - 2 ^ 63 ≤ z < 2 ^ 63
  | AStr c => Z.of_nat (length c) < 2 ^ 31
  | AArr l => Forall (λ o, Z.of_nat (length (default [] o)) < 2 ^ 31) l ∧
              Z.of_nat (length l) < 2 ^ 32
  | _ => True
  end.

Definition input_ok (i : input) w aw : Prop :=
  match i with
  | IConnect _ pl1 pl2 => pl_addr pl1 ≠ 0
  | IChunk id pl chunk =>
      chunk_ok (pl, chunk) ∧
      ∀ stream, aclients aw !! id = Some (ARecv stream) →
        head (stream ++ chunk) = Some "*"%char ∧ after_chunk (stream ++ chunk) ≠ AQueued [] ∧
        ∀ c ph, clients_ w !! id = Some (c, ph) → whole_query (stream ++ chunk) c
  | IRun id _ =>
      ∀ args, aclients aw !! id = Some (AQueued args) →
        limits (anow aw) args (adb aw) ∧ query_safe args (service_ w)
  | ISend id blk _ =>
      ∀ a, aclients aw !! id = Some (AReply a) → areply_fits a ∧
        ∀ c ph, clients_ w !! id = Some (c, ph) → blk_ok (query_result_ c) blk
  | _ => True
  end.

(** ** Results and string objects *)

Lemma elem_of_shown x m :
  x ∈ shown m ↔ ∃ id c ph, m !! id = Some (c, ph) ∧ x ∈ result_ptrs (query_result_ c).
Proof.
  unfold shown. rewrite list_elem_of_bind. split.
  - intros ([id [c ph]]&Hx&Hin%elem_of_map_to_list). by exists id, c, ph.
  - intros (id&c&ph&Hm&Hx). exists (id, (c, ph)). by rewrite elem_of_map_to_list.
Qed.

Lemma ptr_is_frame strs strs' (p : MTSPtr) o :
  (∀ x, p = Some x → strs' !! x = strs !! x) → ptr_is strs p o → ptr_is strs' p o.
Proof. intros Hf. destruct p as [x|], o; simpl; try done. by rewrite Hf. Qed.

Lemma reply_is_frame strs strs' r a :
  (∀ x, x ∈ result_ptrs r → strs' !! x = strs !! x) → reply_is strs r a → reply_is strs' r a.
Proof.
  unfold result_ptrs. intros Hf. destruct a; try done; simpl.
  - intros [Ht Hp]. split; [done|]. rewrite Ht in Hf. eapply ptr_is_frame; [|done].
    intros x Hx. apply Hf. rewrite Hx. simpl. set_solver.
  - intros [Ht Hp]. split; [done|]. rewrite Ht in Hf.
    apply Forall2_same_length_lookup. split; [by eapply Forall2_length|]. intros i p o Hi Ho.
    eapply ptr_is_frame; [|by eapply Forall2_lookup_lr]. intros x ->.
    apply Hf, list_elem_of_omap. exists (Some x). by split; [eapply list_elem_of_lookup_2|].
Qed.

Lemma reply_is_ptrs strs r a x :
  reply_is strs r a → x ∈ result_ptrs r → is_Some (strs !! x).
Proof.
  unfold result_ptrs. destruct a; simpl.
  1,3: intros Ht; rewrite Ht; by intros ?%elem_of_nil.
  1,2: intros [Ht _]; rewrite Ht; by intros ?%elem_of_nil.
  - intros [Ht Hp]; rewrite Ht. destruct (string_ptr r) as [y|]; simpl in *; [|done].
    intros ->%list_elem_of_singleton. by eexists.
  - intros [Ht Hp]; rewrite Ht. intros (p&Hin&Hpx)%list_elem_of_omap.
    apply list_elem_of_lookup in Hin as [i Hi]. destruct p as [y|]; [|done].
    injection Hpx as ->. destruct (Forall2_lookup_l _ _ _ _ _ Hp Hi) as (o&_&Ho).
    simpl in Ho. destruct o; [by eexists|done].
Qed.

Lemma fresh_ptrs r : fresh_result r → result_ptrs r = [].
Proof. intros [Ht _]. unfold result_ptrs. by rewrite Ht. Qed.

Lemma conn_is_ptrs strs x y z :
  conn_is strs x y → z ∈ from_option (λ p, result_ptrs (query_result_ p.1)) [] x →
  is_Some (strs !! z).
Proof.
  destruct x as [[c ph]|], y as [aph|]; simpl; try done; [|by intros _ ?%elem_of_nil..].
  intros [_ Hc]. destruct ph, aph; try done.
  - destruct Hc as [_ Hf]. rewrite (fresh_ptrs _ Hf). by intros ?%elem_of_nil.
  - destruct Hc as (_&_&Hf). rewrite (fresh_ptrs _ Hf). by intros ?%elem_of_nil.
  - destruct Hc as [_ Hr]. by eapply reply_is_ptrs.
Qed.

Lemma conn_is_frame strs strs' x y :
  (∀ z, z ∈ from_option (λ p, result_ptrs (query_result_ p.1)) [] x → strs' !! z = strs !! z) →
  conn_is strs x y → conn_is strs' x y.
Proof.
  destruct x as [[c ph]|], y as [aph|]; simpl; try done.
  intros Hf [Ho Hc]. split; [done|]. destruct ph, aph; try done.
  destruct Hc as [? Hr]. split; [done|]. by eapply reply_is_frame.
Qed.

Lemma svc_is_with_held h (s : Service DT ET) d :
  svc_is s d → (∀ x, x ∈ h → is_Some (strs_ s !! x)) → svc_is (with_held h s) d.
Proof. by intros [] ?. Qed.

(** One client changes, the service may have changed outside the string
    objects that are shown. *)
Lemma put_sys w aw id x y (s : Service DT ET) d :
  sys_is w aw → svc_is s d → pool_ok s → cap s = acap aw → command_time_snapshot_ s = anow aw →
  (∀ z, z ∈ held_ (service_ w) → strs_ s !! z = strs_ (service_ w) !! z) →
  conn_is (strs_ s) x y → sys_is (put_client id x s w) (aput id y d aw).
Proof.
  intros Hw Hs Hp Hcap Hnow Hf Hx.
  assert (∀ id', conn_is (strs_ s) (partial_alter (λ _, x) id (clients_ w) !! id')
                   (partial_alter (λ _, y) id (aclients aw) !! id')) as Hall.
  { intros id'. destruct (decide (id = id')) as [<-|Hne].
    { by rewrite !lookup_partial_alter_eq. }
    rewrite !lookup_partial_alter_ne by done. eapply conn_is_frame; [|apply (si_conns _ _ Hw)].
    intros z Hz. apply Hf. rewrite (si_held _ _ Hw), elem_of_shown.
    destruct (clients_ w !! id') as [[c ph]|] eqn:E; simpl in Hz; [|by apply elem_of_nil in Hz].
    by exists id', c, ph. }
  split; simpl; try done. apply svc_is_with_held; [done|].
  intros z (id'&c&ph&Hm&Hz)%elem_of_shown. specialize (Hall id'). rewrite Hm in Hall.
  by eapply conn_is_ptrs.
Qed.

(** A step of a client alone. *)
Lemma put_client_sys w aw id x y :
  sys_is w aw → conn_is (strs_ (service_ w)) x y →
  sys_is (put_client id x (service_ w) w) (aput id y (adb aw) aw).
Proof. intros Hw Hx. by apply put_sys; try apply Hw. Qed.

(** ** Replies *)

Lemma encode_ptr_is strs p o : ptr_is strs p o → encode_ptr strs p = encode_str o.
Proof. destruct p, o; simpl; try done. by intros ->. Qed.

Lemma encode_reply strs r a : reply_is strs r a → encode_result strs r = encode_areply a.
Proof.
  unfold encode_result. destruct a; simpl.
  1,3: by intros ->.
  1: by intros [-> ->].
  1: by intros [-> ->].
  - intros [-> Hp]. by rewrite (encode_ptr_is _ _ _ Hp).
  - intros [-> Hp]. rewrite (Forall2_length _ _ _ Hp). do 4 f_equal.
    induction Hp as [|p o ps os Hpo _ IH]; [done|]. simpl. by rewrite IH, (encode_ptr_is _ _ _ Hpo).
Qed.

Lemma ptr_is_ok strs p o :
  ptr_is strs p o → Z.of_nat (length (default [] o)) < 2 ^ 31 → ptr_ok strs p.
Proof. destruct p, o; simpl; try done. eauto. Qed.

Lemma reply_fits_ok strs r a : reply_is strs r a → areply_fits a → result_ok strs r.
Proof.
  unfold result_ok. destruct a; simpl.
  1,3: by intros ->.
  1: by intros [-> _].
  1: by intros [-> ->].
  - intros [-> Hp] Hl. by eapply ptr_is_ok.
  - intros [-> Hp] [Hl Hn]. split; [|by rewrite (Forall2_length _ _ _ Hp)].
    clear Hn. induction Hp as [|p o ps os Hpo _ IH]; [done|].
    inversion_clear Hl. constructor; [by eapply ptr_is_ok|auto].
Qed.

Lemma SendReply_spec strs blk c a :
  out_ok (output_buffer_ c) → awaiting [] (ResetState c) → reply_is strs (query_result_ c) a →
  areply_fits a → blk_ok (query_result_ c) blk →
  ∃ c', SendReply strs blk c = Ok (encode_areply a, c') ∧
    conn_is strs (Some (c', PRecv)) (Some (ARecv [])).
Proof.
  intros Ho Hr Hrep Hfit Hblk. unfold SendReply.
  destruct (Reply_spec strs blk (query_result_ c) (output_buffer_ c)) as (b'&Heq&Ho');
    [by eapply reply_fits_ok|done|done|].
  rewrite (bind_Ok _ _ _ Heq), (encode_reply _ _ _ Hrep). eexists. split; [reflexivity|]. done.
Qed.

(** ** Simulation *)

(** The postcondition of a step. *)
Definition step_post (i : input) w aw (res : Outcome (option (nat * bytes) * World DT ET)) : Prop :=
  match res with
  | Ok (out, w') => ∃ aw', astep i out aw aw' ∧ sys_is w' aw'
  | Diverge => over_limit (service_ w) = true ∧ ∃ id rands, i = IRun id rands
  | Fault _ => False
  end.

Lemma quiet_post i w aw :
  sys_is w aw → enabled i aw = false → step_post i w aw (Ok (None, w)).
Proof. intros Hw He. exists aw. split; [by apply A_quiet|done]. Qed.

(** Inputs that find the client in another phase. *)
Ltac quiet E := apply quiet_post; [done|]; simpl; by rewrite E.

Lemma new_Client_out ring pl1 pl2 : out_ok (output_buffer_ (new_Client ring pl1 pl2)).
Proof.
  unfold new_Client, new_Buffer, block_for. cbn [output_buffer_].
  destruct (kOutputBufferSize =? 0)%nat eqn:E; [done|]. cbn [snd]. unfold out_ok, buf_ok.
  cbn [virtual_view_ read_index_ write_index_ data_ data_capacity blk_capacity].
  rewrite length_replicate. split_and!; (done || lia).
Qed.

Lemma step_connect id pl1 pl2 cmds w aw :
  sys_is w aw → pl_addr pl1 ≠ 0 →
  step_post (IConnect id pl1 pl2) w aw (sys_step cmds (IConnect id pl1 pl2) w).
Proof.
  intros Hw Hpl. cbn [sys_step]. pose proof (si_conns _ _ Hw id) as Hc.
  destruct (clients_ w !! id) as [[c ph]|], (aclients aw !! id) eqn:E; try done; [quiet E|]. eexists. split; [by apply A_connect|].
  apply put_client_sys; [done|]. split; [apply new_Client_out|].
  split; [by apply new_Client_awaiting|done].
Qed.

Lemma step_chunk id pl chunk cmds w aw :
  sys_is w aw → input_ok (IChunk id pl chunk) w aw →
  step_post (IChunk id pl chunk) w aw (sys_step cmds (IChunk id pl chunk) w).
Proof.
  intros Hw [Hck Hin]. cbn [sys_step]. pose proof (si_conns _ _ Hw id) as Hc.
  destruct (clients_ w !! id) as [[c ph]|], (aclients aw !! id) as [aph|] eqn:E; try done;
    [|quiet E]. destruct Hc as [Ho Hc].
  destruct ph, aph as [stream| |]; try done; [|quiet E..].
  destruct Hc as [Hr Hf]. destruct (Hin stream eq_refl) as (Hstar & Hne & Hwhole).
  destruct (stream ++ chunk) as [|ch rest] eqn:Hcat; [done|]. injection Hstar as ->.
  specialize (Hwhole c PRecv eq_refl). rewrite <- Hcat in Hwhole.
  pose proof (OnChunk_awaiting stream pl chunk c rest Hr Hck Hwhole Hcat) as Hp.
  unfold awaiting_post in Hp.
  rewrite <- Hcat in Hne.
  assert (∀ x, conn_is (strs_ (service_ w)) x (Some (after_chunk (stream ++ chunk))) →
    step_post (IChunk id pl chunk) w aw (Ok (None, put_client id x (service_ w) w))) as Hput.
  { intros x Hx. eexists. split; [by apply A_chunk|]. by apply put_client_sys. }
  unfold after_chunk in Hne, Hput. destruct (query_of (stream ++ chunk)) as [[st args] rest'].
  destruct st.
  - destruct Hp as (c'&Heq&Hr'&Ho'&Hq). rewrite (bind_Ok _ _ _ Heq). cbn beta iota.
    apply Hput. split; [by rewrite Ho'|]. by rewrite Hq.
  - destruct Hp as (c'&Heq&Hr'&Ho'&Hq). rewrite (bind_Ok _ _ _ Heq). cbn beta iota.
    apply Hput. split; [by rewrite Ho'|]. rewrite Hq. done.
  - destruct Hp as (c'&Heq&Hr'&Ho'&Hq). rewrite (bind_Ok _ _ _ Heq). cbn beta iota.
    apply Hput. split; [by rewrite Ho'|]. by rewrite Hq.
  - destruct Hp as (c'&Heq&Hr'&Ho'&Hq); [congruence|]. rewrite (bind_Ok _ _ _ Heq).
    cbn beta iota. apply Hput. split; [by rewrite Ho'|]. by rewrite Hq.
Qed.

Lemma step_run env id rands w aw :
  sys_is w aw → input_ok (IRun id rands) w aw →
  step_post (IRun id rands) w aw (sys_step (RegisterCommands env ∅) (IRun id rands) w).
Proof.
  intros Hw Hin. cbn [sys_step]. pose proof (si_conns _ _ Hw id) as Hc.
  destruct (clients_ w !! id) as [[c ph]|], (aclients aw !! id) as [aph|] eqn:E; try done;
    [|quiet E]. destruct Hc as [Ho Hc].
  destruct ph as [|args|], aph as [|args'|]; try done; [quiet E| |quiet E]. destruct Hc as (<-&Hr&Hf).
  destruct (Hin args E) as [Hlim Hsafe]. rewrite <- (si_now _ _ Hw) in Hlim.
  pose proof (Invoke_spec env args rands (query_result_ c) (service_ w) (adb aw)
    (si_svc _ _ Hw) (si_pool _ _ Hw) Hf Hlim Hsafe) as Hinv.
  destruct (Invoke _ args rands (query_result_ c) (service_ w)) as [[r s']|f|]; [|done|destruct Hinv; split; by eauto].
  destruct Hinv as (a&d'&Hs'&Hp'&(Hcfg&Hheld&_&Ht&Hstr&Hcap)&Hrep&Hrel). cbn [mbind outcome_bind].
  rewrite (si_now _ _ Hw) in Hrel, Ht. eexists. split.
  { eapply A_run; [done| |done]. rewrite <- (si_cap _ _ Hw). apply pressure_cap. }
  apply put_sys; try done. rewrite Hcap. apply Hw.
Qed.

Lemma step_run_returns env id rands w aw :
  sys_is w aw → input_ok (IRun id rands) w aw → 0 < maxmemory_samples_ (evictor_ (service_ w)) →
  ∃ more x, sys_step (RegisterCommands env ∅) (IRun id (rands ++ more)) w = Ok x.
Proof.
  intros Hw Hin Hm. cbn [sys_step]. pose proof (si_conns _ _ Hw id) as Hc.
  destruct (clients_ w !! id) as [[c ph]|]; [|by exists []; eexists].
  destruct ph as [|args|]; [by exists []; eexists| |by exists []; eexists].
  destruct (aclients aw !! id) as [[|args'|]|] eqn:E; try (by destruct Hc).
  destruct Hc as (_&<-&_&Hf). destruct (Hin args E) as [Hlim Hsafe].
  rewrite <- (si_now _ _ Hw) in Hlim.
  destruct (Invoke_returns env args rands (query_result_ c) (service_ w) (adb aw)
    (si_svc _ _ Hw) (si_pool _ _ Hw) Hf Hlim Hsafe Hm) as (more & [r s] & Hx).
  exists more. eexists. by step Hx.
Qed.

Lemma step_send id blk written cmds w aw :
  sys_is w aw → input_ok (ISend id blk written) w aw →
  step_post (ISend id blk written) w aw (sys_step cmds (ISend id blk written) w).
Proof.
  intros Hw Hin. cbn [sys_step]. pose proof (si_conns _ _ Hw id) as Hc.
  destruct (clients_ w !! id) as [[c ph]|] eqn:Em, (aclients aw !! id) as [aph|] eqn:E; try done;
    [|quiet E]. destruct Hc as [Ho Hc].
  destruct ph, aph as [| |a]; try done; [quiet E..|].
  destruct Hc as [Hr Hrep]. destruct (Hin a E) as [Hfit Hblk].
  destruct (SendReply_spec (strs_ (service_ w)) blk c a) as (c'&Heq&Hc'); [done..|by eapply Hblk|].
  rewrite (bind_Ok _ _ _ Heq). cbn beta iota.
  destruct (Z.ltb_spec 0 written); eexists;
    (split; [by apply A_send || by eapply A_send_fails|]); by apply put_client_sys.
Qed.

Lemma step_close id cmds w aw :
  sys_is w aw → step_post (IClose id) w aw (sys_step cmds (IClose id) w).
Proof.
  intros Hw. cbn [sys_step]. pose proof (si_conns _ _ Hw id) as Hc.
  destruct (clients_ w !! id) as [[c ph]|], (aclients aw !! id) as [aph|] eqn:E; try done;
    [|quiet E]. destruct Hc as [_ Hc].
  destruct ph, aph as [stream| |]; try done; [|quiet E..].
  eexists. split; [by eapply A_close|]. by apply put_client_sys.
Qed.

(** Periodic work. *)
Lemma step_service w aw (s : Service DT ET) d now :
  sys_is w aw → svc_is s d → pool_ok s → command_time_snapshot_ s = now →
  held_ s = held_ (service_ w) → strs_ s = strs_ (service_ w) → cap s = cap (service_ w) →
  sys_is (mkWorld s (clients_ w)) (mkAWorld d now (acap aw) (aclients aw)).
Proof.
  intros Hw Hs Hp Ht Hh Hst Hcap. split; simpl; try done.
  - rewrite Hcap. apply Hw.
  - rewrite Hh. apply Hw.
  - rewrite Hst. apply Hw.
Qed.

(** Each step of the server is a step of the abstract system. *)
Lemma step_simulates env i w aw :
  sys_is w aw → input_ok i w aw →
  step_post i w aw (sys_step (RegisterCommands env ∅) i w).
Proof.
  intros Hw Hin. pose proof (si_svc _ _ Hw) as Hs. pose proof (si_pool _ _ Hw) as Hp.
  destruct i as [id pl1 pl2|id pl chunk|id rands|id blk|id|now|now|t1 t2].
  - by apply step_connect.
  - by apply step_chunk.
  - by apply step_run.
  - by apply step_send.
  - by apply step_close.
  - exists (mkAWorld (adb aw) now (acap aw) (aclients aw)). split; [apply A_time|].
    apply step_service; try done. by apply (svc_is_ext (service_ w)); try apply Hs.
  - exists (mkAWorld (adb aw) (anow aw) (acap aw) (aclients aw)).
    split; [destruct aw; by apply A_quiet|].
    apply step_service; try done; [by apply (svc_is_ext (service_ w)); try apply Hs|apply Hw].
  - cbn [sys_step].
    destruct (IncrementalRehashing_spec t1 t2 (service_ w) (adb aw) Hs) as (s'&Heq&Hs'&Hr).
    rewrite (bind_Ok _ _ _ Heq). exists (mkAWorld (adb aw) (anow aw) (acap aw) (aclients aw)).
    split; [destruct aw; by apply A_quiet|]. destruct Hr as (_&_&Hst&_&Hfr). unfold framed in Hfr.
    destruct_and!. apply step_service; try done.
    + by eapply pool_ok_evictor.
    + rewrite <- (si_now _ _ Hw). done.
    + apply cap_same; congruence.
Qed.

(** ** Steps of other clients *)

Definition not_for (id : nat) (i : input) : Prop :=
  match i with
  | IConnect j _ _ | IChunk j _ _ | IRun j _ | ISend j _ _ | IClose j => j ≠ id
  | _ => True
  end.

Lemma put_client_other id id' x (s : Service DT ET) w :
  id' ≠ id → clients_ (put_client id' x s w) !! id = clients_ w !! id.
Proof. intros. simpl. by rewrite lookup_partial_alter_ne. Qed.

Lemma other_client cmds i id w out w' :
  not_for id i → sys_step cmds i w = Ok (out, w') → clients_ w' !! id = clients_ w !! id.
Proof.
  intros Hne Hstep.
  destruct i as [j pl1 pl2|j pl chunk|j rands|j blk written|j|now|now|t1 t2]; simpl in Hne, Hstep.
  all: try destruct (clients_ w !! j) as [[c ph]|]; try destruct ph;
    inv_ok; try done; try (by rewrite lookup_partial_alter_ne).
  - match goal with |- context [match ?e with _ => _ end] => destruct e end;
      by apply put_client_other.
  - destruct (0 <? written); inv_ok; by rewrite lookup_partial_alter_ne.
Qed.

Lemma other_aclient i out aw aw' id :
  not_for id i → astep i out aw aw' → aclients aw' !! id = aclients aw !! id.
Proof.
  intros Hne Ha. destruct Ha; simpl in *; try done; by rewrite lookup_partial_alter_ne.
Qed.
End refinement.
