(* ===== verification/Samples.v ===== *)
(** * Sample services

    Concrete services on the hash table, at which the theorems about commands
    and about the server are applied. *)

From S2P Require Import Prelude Chars Config Table Replier HashTable HashTableInv HashTableSpec.
From S2P Require Import HashTableThms Service ServiceInv ServiceSpec StringCommands CommandSpec.
From S2P Require Import StringCommandsThms KeyCommands Eviction Dispatch.

#[global] Existing Instance toy_hash.
#[global] Existing Instance release_build.

(** The two tables of the program. *)
Abbreviation DataTable := (HashTable MTSPtr).
Abbreviation ExpireTable := (HashTable Z).

(** A memory tracker that counts 100 bytes for every key. *)
#[global] Instance sample_memory : Memory DataTable ExpireTable := {
  mallocator_bytes s := 100 * Count (data_ht_ s);
  query_buffer_bytes := 0 }.

Definition empty_service (config : Config) : Service DataTable ExpireTable :=
  new_Service config (new_table 1) (new_table 2) 0.

Definition empty_db : DB := mkDB ∅ ∅.

Lemma empty_is config : svc_is (empty_service config) empty_db.
Proof.
  assert (∀ V (i : nat), wf (new_table (V:=V) i) ∧ tview (new_table (V:=V) i) = ∅) as Hnew.
  { intros V i. split; [apply new_table_wf|by apply tview_no_buckets; [apply new_table_wf|]]. }
  destruct (Hnew MTSPtr 1%nat) as [Hd Hdv], (Hnew Z 2%nat) as [He Hev].
  assert (t_view (data_ht_ (empty_service config)) = ∅) as Hdv' by exact Hdv.
  assert (t_view (expire_ht_ (empty_service config)) = ∅) as Hev' by exact Hev.
  split; rewrite ?Hdv', ?Hev'; try done.
  - by intros x [? ?].
  - by intros x ?%elem_of_nil.
Qed.

Lemma new_pool_ok (config : Config) : pool_ok (empty_service config).
Proof. split; [constructor|]. simpl. unfold kEvictionPoolLimit. lia. Qed.

(** ** A service with data

    The strings [foo = bar] and [n = 12345], the second with an expiry time,
    at time 1000. *)

Definition sample_config : Config := default_config.

Definition at_time (now : Z) (s : Service DataTable ExpireTable) : Service DataTable ExpireTable :=
  UpdateCommandTime now s.

Definition after (h : list bytes → Result → Service DataTable ExpireTable →
                     Outcome (Result * Service DataTable ExpireTable))
    (args : list string) (s : Service DataTable ExpireTable) : Service DataTable ExpireTable :=
  match h (lit <$> args) new_Result s with Ok (_, s) => s | _ => s end.

Definition sample_service : Service DataTable ExpireTable :=
  after PSetEXFunction ["PSETEX"%string; "n"%string; "5000"%string; "12345"%string]
    (after MSetFunction ["MSET"%string; "foo"%string; "bar"%string]
      (at_time 1000 (empty_service sample_config))).

Definition sample_db : DB :=
  mkDB {[ lit "foo" := lit "bar"; lit "n" := lit "12345" ]} {[ lit "n" := 6000 ]}.

Lemma after_is h args s out d' :
  cmd_post s out (h (lit <$> args) new_Result s) → out.2 = d' →
  svc_is (after h args s) d' ∧ kept s (after h args s).
Proof.
  destruct out as [a d]. intros (r'&s'&Heq&Hs'&Hk&_) <-. unfold after. by rewrite Heq.
Qed.

Lemma sample_is : svc_is sample_service sample_db ∧ command_time_snapshot_ sample_service = 1000.
Proof.
  set (s0 := at_time 1000 (empty_service sample_config)).
  assert (svc_is s0 empty_db) as H0.
  { apply (svc_is_ext (empty_service sample_config)); try done; apply empty_is. }
  set (a1 := ["MSET"; "foo"; "bar"]%string).
  destruct (after_is MSetFunction a1 s0 (spec_MSET (lit <$> a1) empty_db)
    (mkDB {[ lit "foo" := lit "bar" ]} ∅)) as [H1 K1].
  { apply MSET_spec; [done|done|]. vm_compute. reflexivity. }
  { reflexivity. }
  set (s1 := after MSetFunction a1 s0) in *.
  set (a2 := ["PSETEX"; "n"; "5000"; "12345"]%string).
  assert (command_time_snapshot_ s1 = 1000) as Ht by (by rewrite (kept_time _ _ K1)).
  destruct (after_is PSetEXFunction a2 s1
    (spec_SETEX (command_time_snapshot_ s1) 1 (lit <$> a2) (mkDB {[ lit "foo" := lit "bar" ]} ∅))
    sample_db) as [H2 K2].
  { apply (SETEX_spec 1); [done|done| |vm_compute; reflexivity|done|lia|].
    - rewrite Ht. unfold time_ok, i64_max. lia.
    - intros m i Hm Hi. rewrite Z.mul_1_r. by apply (ParseInt_i64_range m). }
  { rewrite Ht. vm_compute. reflexivity. }
  split; [exact H2|]. etransitivity; [exact (kept_time _ _ K2)|exact Ht].
Qed.

Lemma sample_room n : (n ≤ 100)%nat → room n sample_db.
Proof.
  intros Hn. unfold room, table_limit.
  replace (size (kv sample_db)) with 2%nat by (vm_compute; reflexivity). lia.
Qed.
