(* ===== verification/CommandThms.v ===== *)
(** * Theorems about the commands

    What each command answers and does to the database, on every branch: wrong
    number of arguments, malformed options, missing, expired and live keys.
    Every theorem says that the handler returns (no failed assertion, no
    undefined behaviour), that its reply and the new database are the ones of
    its specification (CommandSpec), and that string objects shown by pending
    replies of other clients are not changed ([cmd_post]). *)

From S2P Require Import Prelude Chars Config Table Replier HashTable Service ServiceInv ServiceSpec.
From S2P Require Import StringCommands CommandSpec StringCommandsThms KeyCommands KeyCommandsThms.
From S2P Require Import Eviction Dispatch DispatchThms HashTableThms Samples.

Section commands.
Context {DT ET : Type} `{!Table MTSPtr DT} `{!Table Z ET} `{!BuildMode}.
Context `{!TableView MTSPtr DT} `{!TableView Z ET} `{!TableLaws MTSPtr DT} `{!TableLaws Z ET}.
Implicit Types s : Service DT ET.

(** GET answers the live value of the key, or nil, and removes the key when
    its time has come. *)
Theorem get_replies_live_value args r s d :
  svc_is s d → cmd_post s (spec_GET (command_time_snapshot_ s) args d) (GetFunction args r s).
Proof. apply GET_spec. Qed.

(** MGET answers the live values of all its keys, in order. *)
Theorem mget_replies_live_values args r s d :
  svc_is s d → fresh_result r →
  cmd_post s (spec_MGET (command_time_snapshot_ s) args d) (MGetFunction args r s).
Proof. apply MGET_spec. Qed.

(** EXISTS counts the live keys among its arguments, with repetitions. *)
Theorem exists_counts_live_keys args r s d :
  svc_is s d → Z.of_nat (length args) < 2 ^ 31 →
  cmd_post s (spec_EXISTS (command_time_snapshot_ s) args d) (ExistsFunction args r s).
Proof. apply EXISTS_spec. Qed.


(** SETEX (unit 1000) and PSETEX (unit 1) set the value and the expiry time,
    or refuse a time that is not a positive integer or not representable;
    seconds whose product with 1000 overflows are excluded. *)
Theorem setex_sets_value_and_time unit_ args r s d :
  ndebug = true → svc_is s d → time_ok (command_time_snapshot_ s) → room 1 d → fresh_result r →
  1 ≤ unit_ → (∀ n i, args !! 2%nat = Some n → ParseInt_i64 n = Some i → i * unit_ ≤ i64_max) →
  cmd_post s (spec_SETEX (command_time_snapshot_ s) unit_ args d)
    (SetEXFunctionBase (IntToTimePoint unit_) args r s).
Proof. apply SETEX_spec. Qed.

(** MSET sets all its pairs, from left to right, and clears their times. *)
Theorem mset_sets_every_pair args r s d :
  svc_is s d → fresh_result r → room (length (pairs (drop 1 args))) d →
  cmd_post s (spec_MSET args d) (MSetFunction args r s).
Proof. apply MSET_spec. Qed.

(** MSETNX sets those of its keys that are absent, and answers 1 when there
    was at least one. *)
Theorem msetnx_sets_absent_keys args r s d :
  svc_is s d → room (length (pairs (drop 1 args))) d →
  cmd_post s (spec_MSETNX (command_time_snapshot_ s) args d) (MSetNXFunction args r s).
Proof. apply MSETNX_spec. Qed.

(** GETSET answers the old live value and sets the new one; the expiry time is
    removed when there was a live value. *)
Theorem getset_swaps_value args r s d :
  svc_is s d → room 1 d →
  cmd_post s (spec_GETSET (command_time_snapshot_ s) args d) (GetSetFunction args r s).
Proof. apply GETSET_spec. Qed.

(** APPEND appends to the stored string (in place when no pending reply shows
    it, in a new object otherwise) and answers the new length. *)
Theorem append_appends args r s d :
  svc_is s d → room 1 d → cmd_post s (spec_APPEND args d) (AppendFunction args r s).
Proof. apply APPEND_spec. Qed.

(** SETRANGE: the value becomes its prefix up to the offset, padded with NUL,
    followed by the argument; a value another client's reply shows counts as
    absent. *)
Theorem setrange_writes_at_offset args r s d :
  svc_is s d → room 1 d →
  cmd_post s
    (spec_SETRANGE (command_time_snapshot_ s) (shared s (default [] (args !! 1%nat))) args d)
    (SetRangeFunction args r s).
Proof. apply SETRANGE_spec. Qed.

(** GETRANGE never reads outside the string object, whatever the (possibly
    negative) indices, and answers the characters [range_of] describes. *)
Theorem getrange_stays_in_bounds args r s d :
  svc_is s d → (∀ k c, kv d !! k = Some c → Z.of_nat (length c) < 2 ^ 31) →
  cmd_post s (spec_GETRANGE (command_time_snapshot_ s) args d) (GetRangeFunction args r s).
Proof. apply GETRANGE_spec. Qed.

(** GETEX answers the live value and sets or removes its expiry time, or
    refuses malformed options. *)
Theorem getex_updates_time args r s d :
  svc_is s d → time_ok (command_time_snapshot_ s) → room 1 d →
  cmd_post s (spec_GETEX (command_time_snapshot_ s) args d) (GetEXFunction args r s).
Proof. apply GETEX_spec. Qed.

(** GETDEL answers the live value and removes the key from both tables, when
    the key object outlives the data entry: the expire table shares it or was
    never used. *)
Theorem getdel_removes_key args r s d :
  svc_is s d → (∀ k, args !! 1%nat = Some k → key_outlives k s) →
  cmd_post s (spec_GETDEL (command_time_snapshot_ s) args d) (GetDelFunction args r s).
Proof. apply GETDEL_spec. Qed.

(** TTL answers -2 for a missing or expired key (which it removes), -1 for a
    key without expiry, and else the whole seconds left. *)
Theorem ttl_answers_seconds_left args r s d :
  svc_is s d → time_ok (command_time_snapshot_ s) → length args ≠ 1%nat → args ≠ [] →
  (∀ k e, ttl d !! k = Some e → e ≤ i64_max) →
  cmd_post s (spec_TTL (command_time_snapshot_ s) args d) (TtlFunction args r s).
Proof. apply TTL_spec. Qed.

(** DEL removes its keys from both tables and answers how many were live. *)
Theorem del_removes_live_keys args r s d :
  svc_is s d → Z.of_nat (length args) < 2 ^ 31 →
  cmd_post s (spec_DEL (command_time_snapshot_ s) args d) (DelFunction args r s).
Proof. apply DEL_spec. Qed.

(** Write then read: a value set with an expiry time by PSETEX is what GET
    answers at every later time before the expiry, and GET answers nil from
    the expiry on. *)
Theorem psetex_get_round_trip k n v i c1 c2 r s d now :
  ndebug = true → svc_is s d → time_ok (command_time_snapshot_ s) → room 1 d → fresh_result r →
  ParseInt_i64 n = Some i → 0 < i → command_time_snapshot_ s + i ≤ i64_max →
  ∃ r1 s1 r2 s2,
    PSetEXFunction [c1; k; n; v] r s = Ok (r1, s1) ∧
    GetFunction [c2; k] (ResetResult r1) (UpdateCommandTime now s1) = Ok (r2, s2) ∧
    reply_is (strs_ s2) r2
      (if now <? command_time_snapshot_ s + i then AStr v else ANil).
Proof.
  intros Hnd Hs Ht Hroom Hr Hn Hi Hmax.
  pose proof (SETEX_spec 1 [c1; k; n; v] r s d Hnd Hs Ht Hroom Hr ltac:(lia)) as Hset.
  unfold spec_SETEX in Hset. rewrite Hn, Zleb_f, Z.mul_1_r in Hset by lia.
  rewrite Zltb_f in Hset by exact Hmax. cbn [orb] in Hset.
  destruct Hset as (r1&s1&Heq1&Hs1&_&_).
  { intros m j [= <-] Hj. simplify_eq. unfold time_ok in Ht. lia. }
  set (d1 := db_expire k _ _) in Hs1.
  assert (svc_is (UpdateCommandTime now s1) d1) as Hs1'
    by (by apply (svc_is_ext s1); try apply Hs1).
  destruct (GET_spec [c2; k] (ResetResult r1) _ _ Hs1') as (r2&s2&Heq2&_&_&Hrep).
  exists r1, s1, r2, s2. split; [done|]. split; [done|].
  unfold db_get, expired in Hrep. simpl in Hrep. rewrite !lookup_insert_eq in Hrep.
  destruct (Z.ltb_spec now (command_time_snapshot_ s + i));
    [rewrite Zleb_f in Hrep by lia|rewrite Zleb_t in Hrep by lia]; exact Hrep.
Qed.
End commands.

Section service.
Context {DT ET : Type} `{!Table MTSPtr DT} `{!Table Z ET} `{!BuildMode} `{!Memory DT ET}.
Context `{!TableView MTSPtr DT} `{!TableView Z ET} `{!TableLaws MTSPtr DT} `{!TableLaws Z ET}.
Implicit Types s : Service DT ET.

(** The command dictionary maps the all-lower-case and the all-upper-case
    spelling of each registered name to its command, and nothing else. *)
Theorem dictionary_has_both_spellings env k :
  RegisterCommands (DT:=DT) (ET:=ET) env ∅ !! k = assoc (all_commands env) k.
Proof. apply registry_lookup. Qed.


(** C28: Eviction, for every policy and any random draws: it never fails; it only
    removes keys, from both tables alike, and counts them; it gives up only
    under the noeviction policy or when no key is left.  When the draws given
    do not suffice, there are more with which it returns, provided
    [maxmemory_samples] is not 0. *)
Theorem evict_only_removes_keys n rands s d :
  svc_is s d → pool_ok s → n ≠ 0 →
  match Evict n rands s with
  | Ok (b, _, s') =>
      match maxmemory_policy_ (evictor_ s) with
      | kNoEviction => b = false ∧ s' = s
      | _ => evict_post s d b s'
      end
  | Diverge => 0 < maxmemory_samples_ (evictor_ s) → ∃ more x, Evict n (rands ++ more) s = Ok x
  | Fault _ => False
  end.
Proof.
  intros Hs Hp Hn. pose proof (Evict_spec n rands s d Hs Hp Hn) as He.
  destruct (Evict n rands s) as [[[b r] s']|f|]; [done..|]. by eapply Evict_returns.
Qed.
End service.

(** ** The theorems at the sample service *)

Lemma sample_time_ok : time_ok (command_time_snapshot_ sample_service).
Proof. rewrite (proj2 sample_is). unfold time_ok, i64_max. lia. Qed.

Lemma sample_room1 : room 1 sample_db.
Proof. apply sample_room. lia. Qed.

Lemma sample_values k c : kv sample_db !! k = Some c → Z.of_nat (length c) < 2 ^ 31.
Proof.
  simpl. rewrite lookup_insert_Some, lookup_singleton_Some.
  intros [[_ <-]|[_ [_ <-]]]; simpl; lia.
Qed.

Lemma sample_ttl k e : ttl sample_db !! k = Some e → e ≤ i64_max.
Proof.
  simpl. rewrite lookup_singleton_Some. intros [_ <-]. unfold i64_max. lia.
Qed.

Definition q (l : list string) : list bytes := lit <$> l.

Lemma get_replies_live_value_witness :
  cmd_post sample_service (AStr (lit "bar"), sample_db)
    (GetFunction (q ["GET"; "foo"]%string) new_Result sample_service).
Proof.
  pose proof (get_replies_live_value (q ["GET"; "foo"]%string) new_Result sample_service sample_db
    (proj1 sample_is)) as Hc.
  rewrite (proj2 sample_is) in Hc. exact Hc.
Defined.

Lemma mget_replies_live_values_witness :
  cmd_post sample_service (AArr [Some (lit "bar"); None; Some (lit "12345")], sample_db)
    (MGetFunction (q ["MGET"; "foo"; "zzz"; "n"]%string) new_Result sample_service).
Proof.
  pose proof (mget_replies_live_values (q ["MGET"; "foo"; "zzz"; "n"]%string) new_Result
    sample_service sample_db (proj1 sample_is) ltac:(done)) as Hc.
  rewrite (proj2 sample_is) in Hc. exact Hc.
Defined.

Lemma exists_counts_live_keys_witness :
  cmd_post sample_service (AInt 2, sample_db)
    (ExistsFunction (q ["EXISTS"; "foo"; "zzz"; "foo"]%string) new_Result sample_service).
Proof.
  pose proof (exists_counts_live_keys (q ["EXISTS"; "foo"; "zzz"; "foo"]%string) new_Result
    sample_service sample_db (proj1 sample_is) ltac:(simpl; lia)) as Hc.
  rewrite (proj2 sample_is) in Hc. exact Hc.
Defined.


Lemma setex_sets_value_and_time_witness :
  cmd_post sample_service
    (AOk, db_expire (lit "a") 3000 (db_set (lit "a") (lit "x") sample_db))
    (SetEXFunction (q ["SETEX"; "a"; "2"; "x"]%string) new_Result sample_service).
Proof.
  pose proof (setex_sets_value_and_time 1000 (q ["SETEX"; "a"; "2"; "x"]%string) new_Result
    sample_service sample_db eq_refl (proj1 sample_is) sample_time_ok sample_room1) as Hc.
  rewrite (proj2 sample_is) in Hc. apply Hc; [done|lia|].
  intros n i [= <-] Hi. vm_compute in Hi. injection Hi as <-. unfold i64_max. lia.
Defined.

Lemma mset_sets_every_pair_witness :
  cmd_post sample_service
    (AOk, db_persist (lit "n") (db_set (lit "n") (lit "2")
            (db_persist (lit "a") (db_set (lit "a") (lit "1") sample_db))))
    (MSetFunction (q ["MSET"; "a"; "1"; "n"; "2"]%string) new_Result sample_service).
Proof.
  apply (mset_sets_every_pair (q ["MSET"; "a"; "1"; "n"; "2"]%string) new_Result
    sample_service sample_db (proj1 sample_is)); [done|]. apply sample_room. simpl. lia.
Defined.

Lemma msetnx_sets_absent_keys_witness :
  cmd_post sample_service (AInt 1, db_set (lit "a") (lit "2") sample_db)
    (MSetNXFunction (q ["MSETNX"; "foo"; "1"; "a"; "2"]%string) new_Result sample_service).
Proof.
  pose proof (msetnx_sets_absent_keys (q ["MSETNX"; "foo"; "1"; "a"; "2"]%string) new_Result
    sample_service sample_db (proj1 sample_is)) as Hc.
  rewrite (proj2 sample_is) in Hc. apply Hc. apply sample_room. simpl. lia.
Defined.

Lemma getset_swaps_value_witness :
  cmd_post sample_service
    (AStr (lit "12345"), db_persist (lit "n") (db_set (lit "n") (lit "x") sample_db))
    (GetSetFunction (q ["GETSET"; "n"; "x"]%string) new_Result sample_service).
Proof.
  pose proof (getset_swaps_value (q ["GETSET"; "n"; "x"]%string) new_Result
    sample_service sample_db (proj1 sample_is) sample_room1) as Hc.
  rewrite (proj2 sample_is) in Hc. exact Hc.
Defined.

Lemma append_appends_witness :
  cmd_post sample_service (AInt 6, db_set (lit "foo") (lit "barbaz") sample_db)
    (AppendFunction (q ["APPEND"; "foo"; "baz"]%string) new_Result sample_service).
Proof.
  apply (append_appends (q ["APPEND"; "foo"; "baz"]%string) new_Result
    sample_service sample_db (proj1 sample_is) sample_room1).
Defined.

Lemma setrange_writes_at_offset_witness :
  cmd_post sample_service (AInt 4, db_set (lit "foo") (lit "bxyz") sample_db)
    (SetRangeFunction (q ["SETRANGE"; "foo"; "1"; "xyz"]%string) new_Result sample_service).
Proof.
  pose proof (setrange_writes_at_offset (q ["SETRANGE"; "foo"; "1"; "xyz"]%string) new_Result
    sample_service sample_db (proj1 sample_is) sample_room1) as Hc.
  assert (shared sample_service (default [] (q ["SETRANGE"; "foo"; "1"; "xyz"]%string !! 1%nat))
          = false) as Hsh by (vm_compute; reflexivity).
  rewrite (proj2 sample_is), Hsh in Hc. exact Hc.
Defined.

Lemma getrange_stays_in_bounds_witness :
  cmd_post sample_service (AStr (lit "234"), sample_db)
    (GetRangeFunction (q ["GETRANGE"; "n"; "1"; "-2"]%string) new_Result sample_service).
Proof.
  pose proof (getrange_stays_in_bounds (q ["GETRANGE"; "n"; "1"; "-2"]%string) new_Result
    sample_service sample_db (proj1 sample_is) sample_values) as Hc.
  rewrite (proj2 sample_is) in Hc. exact Hc.
Defined.

Lemma getex_updates_time_witness :
  cmd_post sample_service (AStr (lit "12345"), db_persist (lit "n") sample_db)
    (GetEXFunction (q ["GETEX"; "n"; "PERSIST"]%string) new_Result sample_service).
Proof.
  pose proof (getex_updates_time (q ["GETEX"; "n"; "PERSIST"]%string) new_Result
    sample_service sample_db (proj1 sample_is) sample_time_ok sample_room1) as Hc.
  rewrite (proj2 sample_is) in Hc. exact Hc.
Defined.

Lemma getdel_removes_key_witness :
  cmd_post sample_service (AStr (lit "12345"), db_erase (lit "n") sample_db)
    (GetDelFunction (q ["GETDEL"; "n"]%string) new_Result sample_service).
Proof.
  pose proof (getdel_removes_key (q ["GETDEL"; "n"]%string) new_Result
    sample_service sample_db (proj1 sample_is)) as Hc.
  rewrite (proj2 sample_is) in Hc. apply Hc.
  intros k [= <-]. right.
  eexists _, _, _, _, _. split; vm_compute; reflexivity.
Defined.

Lemma ttl_answers_seconds_left_witness :
  cmd_post sample_service (AInt 5, sample_db)
    (TtlFunction (q ["TTL"; "n"]%string) new_Result sample_service).
Proof.
  pose proof (ttl_answers_seconds_left (q ["TTL"; "n"]%string) new_Result
    sample_service sample_db (proj1 sample_is) sample_time_ok ltac:(done) ltac:(done) sample_ttl) as Hc.
  rewrite (proj2 sample_is) in Hc. exact Hc.
Defined.

Lemma del_removes_live_keys_witness :
  cmd_post sample_service (AInt 1, db_erase (lit "foo") sample_db)
    (DelFunction (q ["DEL"; "foo"; "foo"]%string) new_Result sample_service).
Proof.
  pose proof (del_removes_live_keys (q ["DEL"; "foo"; "foo"]%string) new_Result
    sample_service sample_db (proj1 sample_is) ltac:(simpl; lia)) as Hc.
  rewrite (proj2 sample_is) in Hc. exact Hc.
Defined.

Lemma psetex_get_round_trip_witness :
  ∃ r1 s1 r2 s2,
    PSetEXFunction (q ["PSETEX"; "k"; "100"; "v"]%string) new_Result sample_service = Ok (r1, s1) ∧
    GetFunction (q ["GET"; "k"]%string) (ResetResult r1) (UpdateCommandTime 1100 s1) = Ok (r2, s2) ∧
    reply_is (strs_ s2) r2 ANil.
Proof.
  pose proof (psetex_get_round_trip (lit "k") (lit "100") (lit "v") 100 (lit "PSETEX") (lit "GET")
    new_Result sample_service sample_db 1100 eq_refl (proj1 sample_is) sample_time_ok sample_room1) as Hc.
  rewrite (proj2 sample_is) in Hc. apply Hc; [done|vm_compute; reflexivity|lia|].
  unfold i64_max. lia.
Defined.

(** The sample service with a memory limit of 150 bytes (two keys count 200)
    and a given eviction policy. *)
Definition limited (p : MaxmemoryPolicy) : Service DataTable ExpireTable :=
  with_evictor (mkEvictor p 150 5 0 [] 0) sample_service.

Lemma limited_is p : svc_is (limited p) sample_db.
Proof.
  exact (svc_is_ext sample_service (limited p) sample_db (proj1 sample_is)
    (is_data _ _ (proj1 sample_is)) (is_expire _ _ (proj1 sample_is))
    eq_refl eq_refl eq_refl eq_refl eq_refl).
Qed.

Lemma limited_pool p : pool_ok (limited p).
Proof. split; [constructor|]. simpl. unfold kEvictionPoolLimit. lia. Qed.


Lemma evict_only_removes_keys_witness :
  match Evict 50 [0; 0; 1; 1; 2; 2] (limited kAllKeysLru) with
  | Ok (b, _, s') => evict_post (limited kAllKeysLru) sample_db b s'
  | Diverge => 0 < maxmemory_samples_ (evictor_ (limited kAllKeysLru)) →
      ∃ more x, Evict 50 ([0; 0; 1; 1; 2; 2] ++ more) (limited kAllKeysLru) = Ok x
  | Fault _ => False
  end.
Proof.
  exact (evict_only_removes_keys 50 [0; 0; 1; 1; 2; 2] (limited kAllKeysLru) sample_db
    (limited_is kAllKeysLru) (limited_pool kAllKeysLru) ltac:(done)).
Defined.
