(* ===== verification/ServerThms.v ===== *)
(** * Executions of the server

    The theorems about whole executions: the server refines the abstract
    system, never fails, and a pending reply is immutable. *)

From S2P Require Import Prelude Chars Buffer RespParser RespParserThms Config Table Replier HashTable.
From S2P Require Import Service ServiceInv ServiceSpec StringCommands CommandSpec StringCommandsThms.
From S2P Require Import KeyCommands Eviction Dispatch DispatchThms Client ClientThms RingClient System SystemThms.
From S2P Require Import HashTableThms Samples Expire Cron.

(** ** The invariant

    Beside the refinement relation: the cursor of the expiry cycle is a bucket
    of the expire table.  The expire table is used under the contract of tables
    with at least as many buckets as the cursor needs. *)

Section invariant.
Context `{!BuildMode} `{!HashFn} `{!Memory DataTable ExpireTable} (env : InfoEnv).
Implicit Types (w : World DataTable ExpireTable) (aw : AWorld) (v : Server).

(** The smallest table for which the cursor is in range. *)
Definition least_size (x : ExpireStrategy) : Z :=
  if bucket_index_ x =? 0 then 0 else bucket_index_ x + 1.

Lemma least_size_ok (s : Service DataTable ExpireTable) :
  expirer_ok s → least_size (expirer_ s) ≤ size0 (expire_ht_ s).
Proof.
  intros [Hi _]. unfold least_size, size0 in *.
  destruct (Z.eqb_spec (bucket_index_ (expirer_ s)) 0); lia.
Qed.

Lemma least_size_expirer (s s' : Service DataTable ExpireTable) :
  expirer_ok s → expirer_ s' = expirer_ s → least_size (expirer_ s) ≤ size0 (expire_ht_ s') →
  expirer_ok s'.
Proof.
  intros [Hi Ht] E. unfold expirer_ok, least_size, size0 in *. rewrite E.
  destruct (Z.eqb_spec (bucket_index_ (expirer_ s)) 0); lia.
Qed.

(** The invariant under the contract of tables of at least [b] buckets. *)
Abbreviation sized_is b := (svc_is (TableLaws1 := sized_laws b)).

Lemma svc_sized b (s : Service DataTable ExpireTable) d :
  sized_is b s d ↔ svc_is s d ∧ b ≤ size0 (expire_ht_ s).
Proof.
  split.
  - intros [? [? ?] ? ? ? ? ? ?]. done.
  - intros [[] ?]. by split.
Qed.

Lemma sys_sized b w aw :
  sys_is (TableLaws1 := sized_laws b) w aw ↔ sys_is w aw ∧ b ≤ size0 (expire_ht_ (service_ w)).
Proof.
  split.
  - intros [[? ?]%svc_sized ? ? ? ? ?]. done.
  - intros [[] ?]. split; try done. by apply svc_sized.
Qed.

(** What a step on behalf of a client does not touch. *)
Lemma sys_step_frame i w aw out w' :
  sys_is w aw → input_ok i w aw → sys_step (RegisterCommands env ∅) i w = Ok (out, w') →
  config_ (service_ w') = config_ (service_ w) ∧ expirer_ (service_ w') = expirer_ (service_ w).
Proof.
  intros Hw Hin Hstep. destruct i as [j pl1 pl2|j pl chunk|j rands|j blk written|j|now|now|t1 t2].
  3: { cbn [sys_step] in Hstep. pose proof (si_conns _ _ Hw j) as Hc.
    destruct (clients_ w !! j) as [[c ph]|] eqn:E; [|by inv_ok]. destruct ph; try by inv_ok.
    destruct (aclients aw !! j) as [[| args'|]|] eqn:Ea; try (by destruct Hc).
    destruct Hc as (_&<-&_&Hf). destruct (Hin _ Ea) as [Hlim Hsafe].
    rewrite <- (si_now _ _ Hw) in Hlim.
    pose proof (Invoke_spec env args rands (query_result_ c) (service_ w) (adb aw)
      (si_svc _ _ Hw) (si_pool _ _ Hw) Hf Hlim Hsafe) as Hi.
    apply bind_Ok_inv in Hstep as ([r s']&Heq&Hstep). rewrite Heq in Hi.
    destruct Hi as (a&d&_&_&(?&_&?&_)&_). by inv_ok. }
  7: { cbn [sys_step] in Hstep. destruct (IncrementalRehashing_spec t1 t2 (service_ w) (adb aw))
         as (s'&Heq&_&(_&_&_&_&(?&_&_&?&_))); [apply Hw|]. rewrite Heq in Hstep. by inv_ok. }
  all: cbn [sys_step] in Hstep; try destruct (clients_ w !! j) as [[c ph]|]; try destruct ph;
    inv_ok; try done.
  - match goal with |- context [match ?e with _ => _ end] => destruct e end; done.
  - destruct (0 <? written); by inv_ok.
Qed.

(** The invariant of the server. *)
Record srv_is v aw : Prop := {
  sv_sys : sys_is (world v) aw;
  sv_expirer : expirer_ok (service_ (world v));
  sv_hz : hz (config_ (service_ (world v))) ≠ 0 }.

(** What is asked of an event: of a client's input, the limits of [input_ok];
    of a round, those of [tick_ok]. *)
Definition event_ok (e : event) v aw : Prop :=
  match e with
  | ESys i => input_ok i (world v) aw
  | ECron r => tick_ok r
  end.

(** The steps of the abstract system: a round may set the time. *)
Inductive aevent : event → option (nat * bytes) → AWorld → AWorld → Prop :=
  | AE_sys i out aw aw' : astep (DT:=DataTable) (ET:=ExpireTable) i out aw aw' →
      aevent (ESys i) out aw aw'
  | AE_idle r aw : aevent (ECron r) None aw aw
  | AE_round r aw :
      aevent (ECron r) None aw (mkAWorld (adb aw) (r_now r) (acap aw) (aclients aw)).

Definition event_post (e : event) v aw (res : Outcome (option (nat * bytes) * Server)) : Prop :=
  match res with
  | Ok (out, v') => ∃ aw', aevent e out aw aw' ∧ srv_is v' aw'
  | Fault f => f = UseAfterFree ∧
      ∃ r k t, e = ECron r ∧ ttl (adb aw) !! k = Some t ∧ t ≤ r_expire r
  | Diverge => over_limit (service_ (world v)) = true ∧ ∃ id rands, e = ESys (IRun id rands)
  end.

Lemma client_event i v aw :
  srv_is v aw → input_ok i (world v) aw →
  event_post (ESys i) v aw (server_step (RegisterCommands env ∅) (ESys i) v).
Proof.
  intros [Hw Hx Hhz] Hin. cbn [server_step].
  pose proof (step_simulates (TableLaws1 := sized_laws _) env i (world v) aw
    (proj2 (sys_sized _ _ _) (conj Hw (least_size_ok _ Hx))) Hin) as Hs.
  destruct (sys_step _ i (world v)) as [[out w']|f|] eqn:Hstep;
    [|done|destruct Hs as (?&j&rands&->); split; by eauto].
  destruct Hs as (aw'&Ha&[Hw' Hb]%sys_sized). exists aw'. split; [by constructor|].
  destruct (sys_step_frame i (world v) aw out w' Hw Hin Hstep) as [Hc He].
  split; [done| |simpl; by rewrite Hc]. eapply least_size_expirer; [exact Hx|done|done].
Qed.

(** The service after the clocks of a round are set stands for the same
    database. *)
Lemma clocks_is now lru w aw :
  sys_is w aw →
  sys_is (mkWorld (RefreshLRUClock lru (UpdateCommandTime now (service_ w))) (clients_ w))
    (mkAWorld (adb aw) now (acap aw) (aclients aw)).
Proof.
  intros Hw. pose proof (si_svc _ _ Hw) as Hs. pose proof (si_pool _ _ Hw) as Hp.
  apply step_service; try done. by apply (svc_is_ext (service_ w)); try apply Hs.
Qed.

Lemma cron_event r v aw :
  srv_is v aw → tick_ok r →
  event_post (ECron r) v aw (server_step (RegisterCommands env ∅) (ECron r) v).
Proof.
  intros [Hw Hx Hhz] Hok. pose proof (proj2 Hok) as Hel. cbn [server_step].
  destruct (waiting v); [|exists aw; split; [constructor|done]]. cbn [negb].
  unfold cron_interval. rewrite Zeqb_f by done. cbn [mbind outcome_bind]. unfold Cron_body.
  rewrite (round_resumes r Hok). cbn [mbind outcome_bind Now service_clock default is_system_ from_option id].
  pose proof (clocks_is (r_now r) (r_lru r) _ _ Hw) as Hcl.
  set (aw' := mkAWorld _ _ _ _) in Hcl.
  destruct (_ <? _).
  { exists aw'. split; [constructor|]. split; [|done..].
    apply step_service; try done; [|apply Hw].
    by apply (svc_is_ext (service_ (world v))); try apply Hw. }
  set (s1 := RefreshLRUClock _ _) in *.
  pose proof (ActiveExpire_spec (r_expire r) (r_elapsed r) s1 (adb aw) (si_svc _ _ Hcl) Hx Hel Hhz)
    as He.
  destruct (ActiveExpire _ _ s1) as [s2|f|]; [| |done].
  2: { destruct He as (->&k&t&?&?). split; [done|]. by exists r, k, t. }
  destruct He as (Heq&Hs2&Hx2&_). cbn [mbind outcome_bind].
  destruct (IncrementalRehashing_spec (TableLaws1 := sized_laws (least_size (expirer_ s2)))
    (r_ticks1 r) (r_ticks2 r) s2 (adb aw)) as (s3&Heq3&[Hs3 Hb]%svc_sized&Hr);
    [by apply svc_sized; split; [|apply least_size_ok]|].
  rewrite (bind_Ok _ _ _ Heq3). exists aw'. split; [constructor|].
  destruct Hr as (_&_&Hst&_&(Hc&Hh&Hev&Hex&Ht&_&_)).
  split; simpl.
  - apply (step_service (mkWorld s1 (clients_ (world v))) aw'); try done.
    + eapply (pool_ok_evictor s1); [|apply Hcl]. by rewrite Hev, Heq.
    + by rewrite Ht, Heq.
    + by rewrite Hh, Heq.
    + by rewrite Hst, Heq.
    + apply cap_same; by rewrite Hev, Heq.
  - eapply least_size_expirer; [exact Hx2|done|done].
  - by rewrite Hc, Heq.
Qed.

Lemma event_simulates e v aw :
  srv_is v aw → event_ok e v aw → event_post e v aw (server_step (RegisterCommands env ∅) e v).
Proof. destruct e; [apply client_event|apply cron_event]. Qed.

(** Steps that are not for a client leave it alone. *)
Lemma other_client_event cmds e id v out v' :
  (∀ i, e = ESys i → not_for id i) → server_step cmds e v = Ok (out, v') →
  clients_ (world v') !! id = clients_ (world v) !! id.
Proof.
  intros Hne Hstep. destruct e as [i|r]; cbn [server_step] in Hstep.
  - apply bind_Ok_inv in Hstep as ([o w]&Heq&[= <- <-]). eapply other_client; [|done]. by apply Hne.
  - destruct (waiting v); [|by inv_ok]. cbn [negb] in Hstep. by inv_ok.
Qed.

Lemma other_aclient_event e out aw aw' id :
  (∀ i, e = ESys i → not_for id i) → aevent e out aw aw' →
  aclients aw' !! id = aclients aw !! id.
Proof.
  intros Hne Ha. destruct Ha as [i out aw aw' Ha| |]; [|done..].
  eapply other_aclient; [by apply Hne|done].
Qed.

(** ** Executions *)

(** An execution: events and outputs, each event being within the limits. *)
Inductive execution v : list (event * option (nat * bytes)) → Server → Prop :=
  | exec_nil : execution v [] v
  | exec_snoc tr v1 e out v2 :
      execution v tr v1 → (∀ aw, srv_is v1 aw → event_ok e v1 aw) →
      server_step (RegisterCommands env ∅) e v1 = Ok (out, v2) →
      execution v (tr ++ [(e, out)]) v2.

Inductive abstract_execution aw : list (event * option (nat * bytes)) → AWorld → Prop :=
  | aexec_nil : abstract_execution aw [] aw
  | aexec_snoc tr aw1 e out aw2 :
      abstract_execution aw tr aw1 → aevent e out aw1 aw2 →
      abstract_execution aw (tr ++ [(e, out)]) aw2.

Lemma execution_simulates v aw tr v' :
  srv_is v aw → execution v tr v' → ∃ aw', abstract_execution aw tr aw' ∧ srv_is v' aw'.
Proof.
  intros Hv. induction 1 as [|tr v1 e out v2 _ (aw1&Ha&Hs) Hin Hstep].
  - exists aw. split; [constructor|done].
  - pose proof (event_simulates e v1 aw1 Hs (Hin aw1 Hs)) as Hp. rewrite Hstep in Hp.
    destruct Hp as (aw2&Hst&Hs2). exists aw2. split; [by econstructor|done].
Qed.

(** The server before the first connection, on a service [s]. *)
Definition booted (s : Service DataTable ExpireTable) : Server :=
  mkServer (mkWorld s ∅) 0 (active_ s).
Definition abooted (s : Service DataTable ExpireTable) (d : DB) : AWorld :=
  mkAWorld d (command_time_snapshot_ s) (cap s) ∅.

(** A service that can be started: its invariants hold, no reply is pending
    and [hz] is not 0. *)
Record startable (s : Service DataTable ExpireTable) (d : DB) : Prop := {
  st_svc : svc_is s d;
  st_pool : pool_ok s;
  st_expirer : expirer_ok s;
  st_held : held_ s = [];
  st_hz : hz (config_ s) ≠ 0 }.

Lemma booted_is s d : startable s d → srv_is (booted s) (abooted s d).
Proof. intros []. by split. Qed.



(** C8: A pending reply is immutable: while a client has a computed reply to send,
    no step on behalf of other clients, no command and no periodic work
    changes the bytes it will send. *)
Theorem pending_reply_immutable e v aw id c out v' :
  srv_is v aw → event_ok e v aw → clients_ (world v) !! id = Some (c, PReply) →
  (∀ i, e = ESys i → not_for id i) → server_step (RegisterCommands env ∅) e v = Ok (out, v') →
  clients_ (world v') !! id = Some (c, PReply) ∧
  encode_result (strs_ (service_ (world v'))) (query_result_ c)
  = encode_result (strs_ (service_ (world v))) (query_result_ c).
Proof.
  intros Hv Hin Hc Hne Hstep. pose proof (event_simulates e v aw Hv Hin) as Hp.
  rewrite Hstep in Hp. destruct Hp as (aw'&Ha&[Hw' _ _]). destruct Hv as [Hw _ _].
  assert (clients_ (world v') !! id = Some (c, PReply)) as Hc'.
  { rewrite <- Hc. by eapply other_client_event. }
  split; [done|]. pose proof (si_conns _ _ Hw id) as H1. pose proof (si_conns _ _ Hw' id) as H2.
  rewrite Hc in H1. rewrite Hc' in H2. rewrite (other_aclient_event e out aw aw' id Hne Ha) in H2.
  destruct (aclients aw !! id) as [[| |a]|]; simpl in *; try naive_solver.
  destruct H1 as (_&_&H1), H2 as (_&_&H2).
  by rewrite (encode_reply _ _ _ H1), (encode_reply _ _ _ H2).
Qed.
End invariant.


(** ** A sample execution

    A client connects, sends SET k v, the command runs, the cron does a round,
    and the reply is sent. *)

Definition sample_env : InfoEnv :=
  mkInfoEnv 1 0 0 0 0 0 0 0 None 0 None 0 0 0 0 (λ _, []).

Definition sample_cmds : gmap bytes (Command DataTable ExpireTable) := RegisterCommands sample_env ∅.

(** [hz] is 1000: every round of the cron does all its work. *)
Definition busy_config : Config :=
  mkConfig 6379 1000 10000 0 kNoEviction 5 25 10 20 2 false 4096 true 32 1.
Definition start : Service DataTable ExpireTable := at_time 1000 (empty_service busy_config).

Definition next (e : event) (v : Server) : Server :=
  match server_step sample_cmds e v with Ok (_, v') => v' | _ => v end.

Definition set_query : list bytes := [lit "SET"; lit "k"; lit "v"].
Definition i1 : input := IConnect 0 (mkPlace 4096 0) (mkPlace 65536 0).
Definition i2 : input := IChunk 0 (mkPlace 9000 0) (encode_query set_query).
Definition i3 : input := IRun 0 [].
Definition i4 : input := ISend 0 (mkBlock 70000 100) 5.
Definition round1 : round := mkRound (- ETIME) 2000 2000 2000 [5] [] [].
Lemma round1_ok : tick_ok round1.
Proof. split; [by left|done]. Qed.
Definition v0 : Server := booted start.
Definition v1 : Server := next (ESys i1) v0.
Definition v2 : Server := next (ESys i2) v1.
Definition v3 : Server := next (ESys i3) v2.
Definition v4 : Server := next (ECron round1) v3.
Definition v5 : Server := next (ESys i4) v4.

Lemma start_ok : startable start empty_db.
Proof.
  split.
  - apply (svc_is_ext (empty_service busy_config)); try done; apply empty_is.
  - apply (new_pool_ok busy_config).
  - split; [|done]. vm_compute. split; congruence.
  - done.
  - done.
Qed.

(** The inputs are admissible. *)
Lemma i2_ok aw : srv_is v1 aw → event_ok (ESys i2) v1 aw.
Proof.
  intros [Hw _ _]. split; [solve_chunk|]. intros stream Hs. pose proof (si_conns _ _ Hw 0%nat) as Hc.
  rewrite Hs in Hc.
  assert (clients_ (world v1) !! 0%nat
          = Some (new_Client true (mkPlace 4096 0) (mkPlace 65536 0), PRecv)) as Hm
    by (vm_compute; reflexivity).
  rewrite Hm in Hc. destruct Hc as (_&[(_&(Hv&_)&_)|[-> _]]&_); [done|].
  split; [done|]. split; [by vm_compute|]. intros c ph _ _. vm_compute. done.
Qed.

Lemma i3_ok aw : srv_is v2 aw → event_ok (ESys i3) v2 aw.
Proof.
  intros [Hw _ _] args Ha. pose proof (si_conns _ _ Hw 0%nat) as Hc. rewrite Ha in Hc.
  assert (match clients_ (world v2) !! 0%nat with Some (_, PQueued a) => a = set_query | _ => False end)
    as Hq by (vm_compute; reflexivity).
  destruct (clients_ (world v2) !! 0%nat) as [[c ph]|]; [|done]. destruct ph as [|args'|]; try done.
  subst args'. destruct Hc as (_&<-&_).
  assert (command_time_snapshot_ (service_ (world v2)) = 1000) as Ht by (vm_compute; reflexivity).
  assert (kv (adb aw) = ∅) as Hkv.
  { apply (count_zero (service_ (world v2))); [apply Hw|]. vm_compute. reflexivity. }
  split.
  - rewrite <- (si_now _ _ Hw), Ht. split; [done|by vm_compute|by vm_compute|..].
    + unfold room. rewrite Hkv. vm_compute. reflexivity.
    + intros k c' Hk. by rewrite Hkv in Hk.
    + intros k e He. rewrite (is_sub _ _ (si_svc _ _ Hw)) in He; [done|]. by rewrite Hkv.
  - intros sp Hsp.
    assert (spec_for set_query = Some (CSpec (DT:=DataTable) (ET:=ExpireTable) true always
      (det spec_SET))) as E by reflexivity.
    rewrite E in Hsp. by injection Hsp as <-.
Qed.

Lemma i4_ok aw : srv_is v4 aw → event_ok (ESys i4) v4 aw.
Proof.
  intros [Hw _ _] a Ha. pose proof (si_conns _ _ Hw 0%nat) as Hc. rewrite Ha in Hc.
  assert (match clients_ (world v4) !! 0%nat with
          | Some (c, PReply) => type (query_result_ c) = TOk ∧ strings (query_result_ c) = []
          | _ => False end) as Hq by (vm_compute; split; reflexivity).
  destruct (clients_ (world v4) !! 0%nat) as [[c ph]|]; [|done]. destruct ph; try done.
  destruct Hq as [Hty Hstr], Hc as (_&_&Hrep). split.
  - destruct a; simpl in *; try done; rewrite Hty in Hrep; naive_solver.
  - intros c' ph' [= <- <-]. unfold blk_ok. rewrite Hstr. simpl. lia.
Qed.

Definition sample_trace : list (event * option (nat * bytes)) :=
  [(ESys i1, None); (ESys i2, None); (ESys i3, None); (ECron round1, None);
   (ESys i4, Some (0%nat, lit "+OK" ++ CRLF))].

Lemma sample_execution3 : execution sample_env v0 (take 3 sample_trace) v3.
Proof.
  apply (exec_snoc sample_env v0 (take 2 sample_trace) v2);
    [|exact i3_ok|vm_compute; reflexivity].
  apply (exec_snoc sample_env v0 (take 1 sample_trace) v1); [|exact i2_ok|vm_compute; reflexivity].
  apply (exec_snoc sample_env v0 [] v0); [constructor|done|vm_compute; reflexivity].
Qed.

Lemma sample_execution : execution sample_env v0 sample_trace v5.
Proof.
  apply (exec_snoc sample_env v0 (take 4 sample_trace) v4); [|exact i4_ok|vm_compute; reflexivity].
  apply (exec_snoc sample_env v0 (take 3 sample_trace) v3); [|intros; exact round1_ok|vm_compute; reflexivity].
  exact sample_execution3.
Qed.



Lemma pending_reply_immutable_witness :
  ∃ c, clients_ (world v3) !! 0%nat = Some (c, PReply) ∧
    clients_ (world v4) !! 0%nat = Some (c, PReply) ∧
    encode_result (strs_ (service_ (world v4))) (query_result_ c)
    = encode_result (strs_ (service_ (world v3))) (query_result_ c).
Proof.
  destruct (execution_simulates sample_env _ _ _ _ (booted_is start empty_db start_ok)
    sample_execution3) as (aw&_&Hv).
  assert (∃ c, clients_ (world v3) !! 0%nat = Some (c, PReply)) as [c Hc]
    by (eexists; vm_compute; reflexivity).
  exists c. split; [exact Hc|].
  apply (pending_reply_immutable sample_env (ECron round1) v3 aw 0%nat c None);
    [exact Hv|exact round1_ok|exact Hc|discriminate|].
  vm_compute. reflexivity.
Defined.

(** ** A cycle of active expiry on the sample service, before and after its
    key expires *)

Lemma sample_expirer : expirer_ok sample_service.
Proof. split; [|vm_compute; congruence]. vm_compute. split; congruence. Qed.


Lemma active_expire_reads_freed_entry_witness :
  ActiveExpire 7000 [5] sample_service = Fault UseAfterFree.
Proof.
  apply (active_expire_reads_freed_entry 7000 [5] sample_service sample_db (lit "n") 6000).
  - exact (proj1 sample_is).
  - vm_compute. reflexivity.
  - vm_compute. reflexivity.
  - vm_compute. congruence.
  - vm_compute. congruence.
  - reflexivity.
  - lia.
Defined.
