(* ===== verification/Stats.v ===== *)
(** * The traffic counters

    [ClientStats::net_input_bytes] and [net_output_bytes]
    (src/src/client_manager.h), which [Client::Process] (src/src/client.cc) adds
    to after a receive and after a send and INFO shows.  The output is counted
    exactly; the input is counted with the bytes of earlier chunks that the
    parser has not consumed yet, so exactly only when queries arrive whole. *)

From S2P Require Import Prelude Chars Buffer RespParser RespParserThms Table Replier HashTable.
From S2P Require Import Service ServiceInv ServiceSpec CommandSpec Eviction Dispatch Client ClientThms RingClient.
From S2P Require Import System SystemThms Cron Samples ServerThms.

Record ClientStats := mkStats { net_input_bytes : Z; net_output_bytes : Z }.
Definition new_Stats : ClientStats := mkStats 0 0.

Section stats.
Context `{!BuildMode} `{!HashFn} `{!Memory DataTable ExpireTable} (env : KeyCommands.InfoEnv).
Implicit Types (v : Server) (w : World DataTable ExpireTable) (st : ClientStats) (aw : AWorld).

(** After a receive: the size of the buffer's source, unless it is empty. *)
Definition count_receive (pl : Place) (chunk : bytes) (c : Client) st : Outcome ClientStats :=
  c ← EnsureBuffer pl c;
  b ← Receive (pl_addr pl) chunk (query_buffer_ c);
  src ← Source b;
  if bool_decide (src_bytes src = []) then Ok st
  else Ok (mkStats (u64 (net_input_bytes st + Z.of_nat (length (src_bytes src))))
             (net_output_bytes st)).

(** After a send: what the socket took, unless it is an error or nothing. *)
Definition count_send (written : Z) st : ClientStats :=
  if 0 <? written then mkStats (net_input_bytes st) (u64 (net_output_bytes st + written)) else st.

(** The additions a turn of [Process] makes. *)
Definition Process_count (i : input) w st : Outcome ClientStats :=
  match i with
  | IChunk id pl chunk =>
      match clients_ w !! id with
      | Some (c, PRecv) => count_receive pl chunk c st
      | _ => Ok st
      end
  | ISend id _ written =>
      match clients_ w !! id with
      | Some (_, PReply) => Ok (count_send written st)
      | _ => Ok st
      end
  | _ => Ok st
  end.

(** A step of the server with its counters. *)
Definition counted_step (e : event) v st : Outcome (option (nat * bytes) * Server * ClientStats) :=
  '(out, v') ← server_step (RegisterCommands env ∅) e v;
  st ← match e with ESys i => Process_count i (world v) st | ECron _ => Ok st end;
  Ok (out, v', st).

(** The bytes of a chunk that a client receives. *)
Definition received (e : event) v : Z :=
  match e with
  | ESys (IChunk id _ chunk) =>
      match clients_ (world v) !! id with Some (_, PRecv) => Z.of_nat (length chunk) | _ => 0 end
  | _ => 0
  end.

(** An execution, with the number of bytes received. *)
Inductive counted_execution v : list (event * option (nat * bytes)) → Z → Server → ClientStats → Prop :=
  | ce_nil : counted_execution v [] 0 v new_Stats
  | ce_snoc tr n v1 st1 e out v2 st2 :
      counted_execution v tr n v1 st1 → (∀ aw, srv_is v1 aw → event_ok e v1 aw) →
      counted_step e v1 st1 = Ok (out, v2, st2) →
      counted_execution v (tr ++ [(e, out)]) (n + received e v1) v2 st2.

(** The bytes on the wire. *)
Definition wire_bytes (tr : list (event * option (nat * bytes))) : Z :=
  foldr Z.add 0 (map (λ p, from_option (λ o, Z.of_nat (length o.2)) 0 p.2) tr).

(** What is asked of the socket: it does not take more than it is given. *)
Definition honest_send (p : event * option (nat * bytes)) : Prop :=
  match p with (ESys (ISend _ _ n), Some o) => n = Z.of_nat (length o.2) | _ => True end.

(** The chunks are whole queries. *)
Definition whole_chunk (p : event * option (nat * bytes)) : Prop :=
  match p.1 with
  | ESys (IChunk _ _ chunk) =>
      match (query_of chunk).1.1 with kDone | kError => True | _ => False end
  | _ => True
  end.
Definition between_queries aw : Prop :=
  ∀ id stream, aclients aw !! id = Some (ARecv stream) → stream = [].

(** The counters never make the server stop. *)
Lemma counted_step_exists e v st out v' :
  server_step (RegisterCommands env ∅) e v = Ok (out, v') →
  ∃ st', counted_step e v st = Ok (out, v', st').
Proof.
  intros Hstep. unfold counted_step. step Hstep. destruct e as [i|r]; [|by eexists].
  cbn [server_step] in Hstep. apply bind_Ok_inv in Hstep as ([o w] & Hs & _).
  destruct i as [|id pl chunk| |id blk n| | | |]; try (by eexists); cbn [sys_step Process_count] in *; unfold count_receive.
  - destruct (clients_ (world v) !! id) as [[c [| |]]|]; try (by eexists).
    apply bind_Ok_inv in Hs as ([ev c'] & Hs & _). unfold OnChunk in Hs.
    apply bind_Ok_inv in Hs as (c1 & H1 & Hs). unfold OnRecv in Hs.
    apply bind_Ok_inv in Hs as (b & H2 & Hs). unfold OnReceived in Hs.
    apply bind_Ok_inv in Hs as (src & H3 & _). step H1. step H2. step H3.
    case_bool_decide; by eexists.
  - destruct (clients_ (world v) !! id) as [[c [| |]]|]; by eexists.
Qed.

(** What a waiting client's buffer shows after a receive. *)
Lemma shown_after_receive stream pl chunk c :
  awaiting stream c → chunk_ok (pl, chunk) →
  ∃ c1 b src, EnsureBuffer pl c = Ok c1 ∧ Receive (pl_addr pl) chunk (query_buffer_ c1) = Ok b ∧
    Source b = Ok src ∧ src_bytes src = (query_of stream).2 ++ chunk.
Proof.
  intros Haw (Hpl & Hne & Hlen). simpl in Hpl, Hne, Hlen. destruct Haw as [Hr|[-> Hr]].
  - destruct (EnsureBuffer_spec pl stream c Hr Hpl) as (c1 & Heq & Hr1 & Hav & _).
    pose proof Hr1 as [_ Hf]. pose proof (proj1 Hf) as Hok.
    destruct (recv_spec chunk (query_buffer_ c1) Hok ltac:(lia)) as (b & Hb & Hok' & Hp & _).
    destruct (Source_bytes b Hok') as (src & Hsrc & Hs & _). exists c1, b, src.
    rewrite Receive_sink by done. split_and!; try done.
    by rewrite Hs, Hp, (proj1 (receiving_pending stream c1 Hr1)).
  - destruct (Receive_ring (pl_addr pl) chunk c Hr Hne) as [Hrecv Hshow].
    destruct (devirt_shown (pl_addr pl) chunk c Hr Hne) as (Hok & Hp & _).
    destruct (Source_bytes _ Hok) as (src & Hsrc & Hs & _). rewrite Source_devirt in Hsrc by done.
    exists c, (shown_at (pl_addr pl) chunk (query_buffer_ c)), src. split_and!; try done.
    + unfold EnsureBuffer. by destruct Hr as (-> & _).
    + by rewrite Hs, Hp.
Qed.

Lemma count_input e v st aw out v' st' t :
  srv_is v aw → event_ok e v aw → counted_step e v st = Ok (out, v', st') →
  net_input_bytes st = u64 t →
  ∃ again, 0 ≤ again ∧ (between_queries aw → again = 0) ∧
    net_input_bytes st' = u64 (t + received e v + again).
Proof.
  intros Hv Hev Hstep Ht. unfold counted_step in Hstep. apply bind_Ok_inv in Hstep as ([o v1] & _ & Hstep).
  apply bind_Ok_inv in Hstep as (st1 & Hcount & [= -> -> ->]).
  assert (net_input_bytes st' = net_input_bytes st → received e v = 0 →
    ∃ again, 0 ≤ again ∧ (between_queries aw → again = 0) ∧
      net_input_bytes st' = u64 (t + received e v + again)) as Hsame.
  { intros -> ->. exists 0. split_and!; [done..|]. rewrite Ht. f_equal. lia. }
  destruct e as [i|r]; [|injection Hcount as <-; by apply Hsame].
  destruct i as [|id pl chunk| |id blk n| | | |]; cbn [Process_count received] in *;
    unfold count_receive, count_send in *; try (injection Hcount as <-; by apply Hsame).
  - pose proof (si_conns _ _ (sv_sys _ _ Hv) id) as Hc.
    destruct (clients_ (world v) !! id) as [[c [| |]]|]; try (injection Hcount as <-; by apply Hsame).
    destruct (aclients aw !! id) as [[stream| |]|] eqn:Ea; try done; [|by destruct Hc..].
    destruct Hc as (_ & Haw & _), Hev as [Hck _].
    destruct (shown_after_receive stream pl chunk c Haw Hck) as (c1 & b & src & H1 & H2 & H3 & Hs).
    rewrite (bind_Ok _ _ _ H1), (bind_Ok _ _ _ H2), (bind_Ok _ _ _ H3) in Hcount.
    destruct Hck as (_ & Hne & _). rewrite bool_decide_false in Hcount
      by (rewrite Hs; by intros [_ ?]%app_nil). injection Hcount as <-. cbn [net_input_bytes].
    exists (Z.of_nat (length (query_of stream).2)). split_and!; [lia| |].
    + intros Hb. by rewrite (Hb id stream Ea).
    + rewrite Ht, Hs, length_app. unfold u64. rewrite Zplus_mod_idemp_l. f_equal. lia.
  - destruct (clients_ (world v) !! id) as [[c [| |]]|]; [..|]; try (injection Hcount as <-; by apply Hsame).
    destruct (0 <? n); injection Hcount as <-; by apply Hsame.
Qed.

Lemma count_output e v st out v' st' t :
  counted_step e v st = Ok (out, v', st') → honest_send (e, out) → net_output_bytes st = u64 t →
  net_output_bytes st' = u64 (t + from_option (λ o, Z.of_nat (length o.2)) 0 out).
Proof.
  intros Hstep Hh Ht. unfold counted_step in Hstep. apply bind_Ok_inv in Hstep as ([o v1] & Hserv & Hstep).
  apply bind_Ok_inv in Hstep as (st1 & Hcount & [= -> -> ->]).
  assert (net_output_bytes st' = net_output_bytes st → out = None →
    net_output_bytes st' = u64 (t + from_option (λ o, Z.of_nat (length o.2)) 0 out)) as Hsame.
  { intros -> ->. rewrite Ht. simpl. f_equal. lia. }
  destruct e as [i|r]; cbn [server_step] in Hserv.
  2:{ injection Hcount as <-. apply Hsame; [done|]. destruct (waiting v); [|by injection Hserv].
      cbn [negb] in Hserv. by inv_ok. }
  apply bind_Ok_inv in Hserv as ([o w] & Hs & [= -> <-]).
  destruct i as [id|id pl chunk|id|id blk n|id| | |]; cbn [Process_count sys_step] in *;
    unfold count_receive, count_send in *; try (injection Hcount as <-).
  - apply Hsame; [done|]. by destruct (clients_ (world v) !! id); injection Hs.
  - apply Hsame.
    + destruct (clients_ (world v) !! id) as [[c [| |]]|]; inv_ok; try done. by case_bool_decide; inv_ok.
    + destruct (clients_ (world v) !! id) as [[c [| |]]|]; by inv_ok.
  - apply Hsame; [done|]. destruct (clients_ (world v) !! id) as [[c [| |]]|]; by inv_ok.
  - destruct (clients_ (world v) !! id) as [[c [| |]]|]; [inv_ok; by apply Hsame..| |inv_ok; by apply Hsame].
    apply bind_Ok_inv in Hs as ([rep c'] & _ & Hs). destruct (0 <? n); inv_ok; [|by apply Hsame].
    simpl in *. rewrite Ht, <- Hh. unfold u64. by rewrite Zplus_mod_idemp_l.
  - apply Hsame; [done|]. destruct (clients_ (world v) !! id) as [[c [| |]]|]; by inv_ok.
  - by apply Hsame; [|injection Hs].
  - by apply Hsame; [|injection Hs].
  - apply Hsame; [done|]. by inv_ok.
Qed.

Lemma between_queries_step e out aw aw' :
  aevent e out aw aw' → whole_chunk (e, out) → between_queries aw → between_queries aw'.
Proof.
  intros Hst Hwh Hb. destruct Hst as [i out aw aw' Hst| |]; [|exact Hb..].
  destruct Hst as [| id pl chunk stream aw Hc | | | | | | ]; try exact Hb.
  all: intros id' stream' Hs; unfold aput in Hs; simpl in Hs; apply lookup_partial_alter_Some in Hs
    as [(<- & Hs)|(_ & Hs)]; try discriminate Hs; try (by eapply Hb); try (by injection Hs as <-).
  injection Hs as Hs. rewrite (Hb _ _ Hc) in Hs. unfold after_chunk in Hs. unfold whole_chunk in Hwh. simpl in *.
  destruct (query_of chunk) as [[[] ?] ?]; simpl in *; done.
Qed.

Lemma foldr_add_snoc (l : list Z) x : foldr Z.add 0 (l ++ [x]) = foldr Z.add 0 l + x.
Proof. induction l; simpl; lia. Qed.

Lemma counted_invariant v aw tr n v' st :
  srv_is v aw → between_queries aw → counted_execution v tr n v' st →
  ∃ aw', srv_is v' aw' ∧ (Forall whole_chunk tr → between_queries aw') ∧
    (Forall honest_send tr → net_output_bytes st = u64 (wire_bytes tr)) ∧
    ∃ again, 0 ≤ again ∧ (Forall whole_chunk tr → again = 0) ∧ net_input_bytes st = u64 (n + again).
Proof.
  intros Hv Hb. induction 1 as [|tr n v1 st1 e out v2 st2 _ IH Hlim Hstep].
  { exists aw. split_and!; try done. by exists 0. }
  destruct IH as (aw1 & Hv1 & Hb1 & Hout & again & Hge & Hwh & Hin).
  destruct (count_input e v1 st1 aw1 out v2 st2 _ Hv1 (Hlim aw1 Hv1) Hstep Hin) as (more & Hge' & Hmore & Hin').
  pose proof (λ Hh, count_output e v1 st1 out v2 st2 (wire_bytes tr) Hstep Hh) as Hout'.
  pose proof (event_simulates env e v1 aw1 Hv1 (Hlim aw1 Hv1)) as Hp.
  unfold counted_step in Hstep. apply bind_Ok_inv in Hstep as ([o v3] & Hserv & (st3 & _ & [= -> -> _])%bind_Ok_inv).
  rewrite Hserv in Hp. destruct Hp as (aw2 & Hae & Hv2). exists aw2. split; [done|].
  split.
  { intros [Hw1 [Hw2 _]%Forall_cons]%Forall_app. by apply (between_queries_step _ _ _ _ Hae Hw2), Hb1. }
  split.
  { intros [Hh1 [Hh2 _]%Forall_cons]%Forall_app. unfold wire_bytes. rewrite map_app. simpl.
    rewrite foldr_add_snoc. by apply Hout', Hout. }
  exists (again + more). split; [lia|]. split; [|rewrite Hin'; f_equal; lia].
  intros [Hw1 _]%Forall_app. rewrite Hwh, Hmore by auto. done.
Qed.

End stats.

(** ** The sample execution of [ServerThms] with its counters *)

Fixpoint counted_run (es : list event) (v : Server) (st : ClientStats) : Outcome (Server * ClientStats) :=
  match es with
  | [] => Ok (v, st)
  | e :: es => '(_, v, st) ← counted_step sample_env e v st; counted_run es v st
  end.

Definition sample_received : Z := Z.of_nat (length (encode_query set_query)).

Lemma sample_counted :
  counted_execution sample_env v0 sample_trace sample_received v5 (mkStats sample_received 5).
Proof.
  apply (ce_snoc sample_env v0 (take 4 sample_trace) sample_received v4 (mkStats sample_received 0));
    [|exact i4_ok|vm_compute; reflexivity].
  apply (ce_snoc sample_env v0 (take 3 sample_trace) sample_received v3 (mkStats sample_received 0));
    [|intros; exact round1_ok|vm_compute; reflexivity].
  apply (ce_snoc sample_env v0 (take 2 sample_trace) sample_received v2 (mkStats sample_received 0));
    [|exact i3_ok|vm_compute; reflexivity].
  apply (ce_snoc sample_env v0 (take 1 sample_trace) 0 v1 new_Stats); [|exact i2_ok|vm_compute; reflexivity].
  apply (ce_snoc sample_env v0 [] 0 v0 new_Stats); [constructor|done|vm_compute; reflexivity].
Qed.


(** With buffers of the clients' own a query may arrive in pieces: SET k v, of
    27 bytes, received as 22 and 5 bytes is counted as 29, since two bytes of
    the first piece are still unread when the second arrives. *)
Definition plain_start : Service DataTable ExpireTable :=
  at_time 1000 (empty_service (Config.mkConfig 6379 1000 10000 0 Config.kNoEviction 5 25 10 20 2 false 4096 false 32 1)).

Theorem split_query_counted_again :
  match counted_run [ESys i1; ESys (IChunk 0 (mkPlace 9000 0) (take 22 (encode_query set_query)));
                     ESys (IChunk 0 (mkPlace 99000 0) (drop 22 (encode_query set_query)))]
          (booted plain_start) new_Stats with
  | Ok (_, st) => net_input_bytes st = 29 ∧ length (encode_query set_query) = 27%nat
  | _ => False
  end.
Proof. vm_compute. split; reflexivity. Qed.
