(* ===== verification/ThreadedServer.v ===== *)
(** * The server on its threads

    The clients and the service of [System] and [Cron], run by the coroutines
    of [Threads]: a task that goes on on its executor makes the step of the
    server that [Client::Process] (src/src/client.cc), the accept loop
    (src/src/server.cc) or [Cron] (src/src/service/data_structure_service.cc)
    makes there, with the bytes, sizes and times it reads as data, and is
    followed by what the state of the client then asks for.

    [threaded_server_refines]: every interleaving of the threads is an execution
    of the server in the sense of [ServerThms], so the outputs are those of the
    abstract database; and each step finds its client where the coroutine
    expects it. *)

From S2P Require Import Prelude Chars Buffer RespParser RespParserThms Config Table Replier HashTable.
From S2P Require Import Service ServiceInv ServiceSpec StringCommands CommandSpec StringCommandsThms.
From S2P Require Import KeyCommands Eviction Dispatch DispatchThms Client ClientThms RingClient System SystemThms.
From S2P Require Import HashTableThms Samples Expire Cron ServerThms RingExecutor Rings Threads ThreadsThms ThreadsFlow ThreadSamples.

(** What a task reads from outside when it goes on. *)
Inductive data :=
  | DNone
  | DAccept (r : accept_result) (pl1 pl2 : Place)  (* and the buffers of a client *)
  | DStart (pl1 pl2 : Place)
  | DChunk (pl : Place) (chunk : bytes)
  | DError                                         (* the receive failed *)
  | DRands (rands : list Z)
  | DSent (blk : Block) (written : Z)
  | DTick (r : round).

Section threaded.
Context {R : Type} `{!Uring R task} `{!UringLaws R task}.
Context `{!BuildMode} `{!HashFn} `{!Memory DataTable ExpireTable} (env : InfoEnv) (c : Config).
Implicit Types (s : Threads R) (t : task) (v : Server) (d : data).

Record Threaded := mkThreaded { threads : Threads R; server : Server }.
Implicit Types x : Threaded.

(** The step of the server a task makes on executor [self]; [None] when the
    data is not for the task. *)
Definition task_event s (self : nat) t d : option (option event) :=
  match t, d with
  | TAccept, DAccept r pl1 pl2 =>
      Some (match r with
            | Accepted => if (S (next_executor s) =? self)%nat
                          then Some (ESys (IConnect (next_id s) pl1 pl2)) else None
            | _ => None
            end)
  | TStart _ id, DStart pl1 pl2 => Some (Some (ESys (IConnect id pl1 pl2)))
  | TRecv _ id, DChunk pl chunk => Some (Some (ESys (IChunk id pl chunk)))
  | TRecv _ id, DError => Some (Some (ESys (IClose id)))
  | TInvoke _ id, DRands rands => Some (Some (ESys (IRun id rands)))
  | TSend _ id, DSent blk written => Some (Some (ESys (ISend id blk written)))
  | TCron, DTick r => Some (Some (ECron r))
  | (TInitBuf _ | TStartCron | TStartAccept | TAcceptNext | TBack _ _), DNone => Some None
  | _, _ => None
  end.

(** What the task decides, from the server after the step. *)
Definition task_choice s t d v : choice :=
  mkChoice (match d with DAccept r _ _ => r | _ => AcceptError end)
    (match t with
     | TRecv _ id =>
         match clients_ (world v) !! id with
         | None => CClose
         | Some (_, PRecv) => CContinue
         | Some (_, PQueued args) => CInvoke args
         | Some (_, PReply) => CReply
         end
     | _ => CContinue
     end)
    (service_active s && negb (active_ (service_ (world v))))
    (match d with DSent _ written => 0 <? written | _ => false end).

Inductive tlabel := TLThread (l : label) | TLRun (e : nat) (d : data).

Definition run_event (ev : option event) v : Outcome (option (event * option (nat * bytes)) * Server) :=
  match ev with
  | None => Ok (None, v)
  | Some e => '(out, v) ← server_step (RegisterCommands env ∅) e v; Ok (Some (e, out), v)
  end.

Definition threaded_step (l : tlabel) x : Outcome (option (event * option (nat * bytes)) * Threaded) :=
  let s := threads x in
  match l with
  | TLThread (LRun _ _) => Ok (None, x)
  | TLThread l => s ← thread_step c l s; Ok (None, mkThreaded s (server x))
  | TLRun e d =>
      match exrs s !! e ≫= running with
      | None => Ok (None, x)
      | Some t =>
          match task_event s e t d with
          | None => Ok (None, x)
          | Some ev =>
              '(o, v) ← run_event ev (server x);
              s ← EventLoop_run c e (task_choice s t d v) s;
              Ok (o, mkThreaded s v)
          end
      end
  end.

(** ** Where a client is when a coroutine goes on *)

(** The state of the client a task expects. *)
Definition expects v t : Prop :=
  match t with
  | TStart _ id => clients_ (world v) !! id = None
  | TRecv _ id => ∃ cl, clients_ (world v) !! id = Some (cl, PRecv)
  | TInvoke _ id => ∃ cl args, clients_ (world v) !! id = Some (cl, PQueued args)
  | TBack _ id | TSend _ id => ∃ cl, clients_ (world v) !! id = Some (cl, PReply)
  | _ => True
  end.

(** An event that finds its client, or the periodic work, where it expects it. *)
Definition enabled (e : event) v : Prop :=
  match e with
  | ESys (IConnect id _ _) => clients_ (world v) !! id = None
  | ESys (IChunk id _ _) | ESys (IClose id) => ∃ cl, clients_ (world v) !! id = Some (cl, PRecv)
  | ESys (IRun id _) => ∃ cl args, clients_ (world v) !! id = Some (cl, PQueued args)
  | ESys (ISend id _ _) => ∃ cl, clients_ (world v) !! id = Some (cl, PReply)
  | ECron _ => Cron.waiting v = true
  | _ => False
  end.

Record linked s v : Prop := {
  lk_tasks : Forall (λ p, expects v p.2) (places s);
  lk_clients : ∀ id, is_Some (clients_ (world v) !! id) → id ∈ ids s;
  lk_flags : shutdown_promise_ s = negb (service_active s);
  lk_active : service_active s = true → active_ (service_ (world v)) = true;
  lk_stranded : stranded s = [];
  lk_cron : KCron ∈ keys s ++ to_start c (main s) → Cron.waiting v = true }.

Lemma linked_quiet s s' v : quiet c s s' → linked s v → linked s' v.
Proof.
  intros (Ha & Hp & Hst & new & E & Hnew & Hk) [Ht Hcl Hf Hac Hs Hcr]. split.
  - rewrite E. apply Forall_app. split; [|done]. eapply Forall_impl; [exact Hnew|].
    intros [e t]. by destruct t.
  - intros id Hid%Hcl. unfold ids in *. rewrite E, fmap_app, omap_app. apply elem_of_app. by right.
  - by rewrite Ha, Hp.
  - by rewrite Ha.
  - by rewrite Hst.
  - unfold keys in *. rewrite E, fmap_app, omap_app. intros Hin. apply Hcr. rewrite !elem_of_app in *.
    tauto.
Qed.

(** ** What the events do *)

Lemma expects_same v v' t :
  (∀ id, client_of t = Some id → clients_ (world v') !! id = clients_ (world v) !! id) →
  expects v t → expects v' t.
Proof.
  intros Hid. destruct t as [| | | | | |e id|e id|e id|e id|e id]; cbn [expects]; try done;
    by rewrite (Hid id eq_refl).
Qed.

Abbreviation commands := (RegisterCommands env ∅).

Lemma put_client_self id y (sv : Service DataTable ExpireTable) w :
  clients_ (put_client id y sv w) !! id = y.
Proof. simpl. by rewrite lookup_partial_alter_eq. Qed.

(** A client's event changes only the client; of the service's flag, only a
    command changes something. *)
Lemma client_event_effect i v out v' :
  enabled (ESys i) v → server_step commands (ESys i) v = Ok (out, v') →
  Cron.waiting v' = Cron.waiting v ∧
  match i with
  | IRun id _ => ∃ cl, clients_ (world v') !! id = Some (cl, PReply)
  | IConnect id _ _ => ∃ cl, clients_ (world v') !! id = Some (cl, PRecv)
  | IChunk id _ _ => True
  | ISend id _ written =>
      if 0 <? written then ∃ cl, clients_ (world v') !! id = Some (cl, PRecv)
      else clients_ (world v') !! id = None
  | IClose id => clients_ (world v') !! id = None
  | _ => False
  end ∧
  match i with IRun _ _ => True | _ => active_ (service_ (world v')) = active_ (service_ (world v)) end.
Proof.
  intros Hen Hstep. cbn [server_step] in Hstep.
  apply bind_Ok_inv in Hstep as ([o w] & Hstep & [= <- <-]). split; [done|].
  destruct i as [id pl1 pl2|id pl chunk|id rands|id blk written|id|now|now|t1 t2]; cbn [enabled] in Hen;
    cbn [sys_step] in Hstep; try done.
  - rewrite Hen in Hstep. injection Hstep as _ <-. split; [|done]. eexists. apply put_client_self.
  - destruct Hen as [cl Hcl]. rewrite Hcl in Hstep.
    apply bind_Ok_inv in Hstep as ([ev cl'] & _ & [= _ <-]). split; [done|]. by destruct ev.
  - destruct Hen as (cl & args & Hcl). rewrite Hcl in Hstep.
    apply bind_Ok_inv in Hstep as ([r s'] & _ & [= _ <-]). split; [|done].
    eexists. apply put_client_self.
  - destruct Hen as [cl Hcl]. rewrite Hcl in Hstep.
    apply bind_Ok_inv in Hstep as ([bs cl'] & _ & Hstep).
    destruct (0 <? written); injection Hstep as _ <-; (split; [|done]);
      [eexists|]; apply put_client_self.
  - destruct Hen as [cl Hcl]. rewrite Hcl in Hstep. injection Hstep as _ <-. split; [|done].
    apply put_client_self.
Qed.

Lemma cron_event_effect r v out v' aw :
  srv_is v aw → tick_ok r → Cron.waiting v = true → server_step commands (ECron r) v = Ok (out, v') →
  clients_ (world v') = clients_ (world v) ∧
  active_ (service_ (world v')) = active_ (service_ (world v)) ∧
  Cron.waiting v' = active_ (service_ (world v')).
Proof.
  intros [Hw Hx Hhz] Hel Hwait. cbn [server_step]. rewrite Hwait. cbn [negb].
  intros (n & _ & ([m s'] & Hb & [= _ <-])%bind_Ok_inv)%bind_Ok_inv. split_and!; [done| |done]. simpl.
  unfold Cron_body in Hb. rewrite (round_resumes r) in Hb by done.
  cbn [mbind outcome_bind Now service_clock default is_system_ from_option id] in Hb.
  destruct (_ <? _); [by injection Hb as _ <-|].
  apply bind_Ok_inv in Hb as (s1 & H1 & (s2 & H2 & [= _ <-])%bind_Ok_inv).
  pose proof (clocks_is (r_now r) (r_lru r) _ _ Hw) as Hcl.
  pose proof (ActiveExpire_spec (r_expire r) (r_elapsed r) _ _ (si_svc _ _ Hcl) Hx (proj2 Hel) Hhz) as He.
  cbn [service_] in He. rewrite H1 in He. destruct He as (E1 & _).
  unfold IncrementalRehashing in H2. apply bind_Ok_inv in H2 as (d & _ & (e & _ & [= <-])%bind_Ok_inv).
  simpl. by rewrite E1.
Qed.

(** ** The link is kept *)

Lemma ids_distinct s e t rest id :
  placed c s → places s ≡ₚ (e, t) :: rest → client_of t = Some id → id ∉ omap client_of rest.*2.
Proof.
  intros [_ _ Hcl _] E Ht Hin. pose proof (NoDup_seq 0 (next_id s)) as Hnd. rewrite <- Hcl in Hnd.
  unfold ids in Hnd. rewrite E in Hnd. simpl in Hnd. rewrite Ht in Hnd.
  apply NoDup_cons in Hnd as [Hnd _]. apply Hnd, elem_of_app. by left.
Qed.

Lemma ids_below s id : placed c s → id ∈ ids s → (id < next_id s)%nat.
Proof.
  intros [_ _ Hcl _] Hid. assert (id ∈ seq 0 (next_id s)) as ?%elem_of_seq; [|lia].
  rewrite <- Hcl. apply elem_of_app. by left.
Qed.

(** The flags of the service, and its periodic work. *)
Definition flags_ok s v : Prop :=
  shutdown_promise_ s = negb (service_active s) ∧
  (service_active s = true → active_ (service_ (world v)) = true) ∧ stranded s = [].

(** A coroutine goes on: the clients of the others are as they were. *)
Lemma link_next s s' v v' e t rest new (id : option nat) :
  linked s v → placed c s → places s ≡ₚ (e, t) :: rest → places s' ≡ₚ new ++ rest →
  flags_ok s' v' → id = client_of t ∨ id = Some (next_id s) ∧ client_of t = None →
  (∀ id', id ≠ Some id' → clients_ (world v') !! id' = clients_ (world v) !! id') →
  Forall (λ p, expects v' p.2) new →
  (∀ id', id = Some id' → is_Some (clients_ (world v') !! id') → id' ∈ omap client_of new.*2) →
  (KCron ∈ omap ctl new.*2 ++ omap ctl rest.*2 ++ to_start c (main s') → Cron.waiting v' = true) →
  linked s' v'.
Proof.
  intros [Ht Hcl _ _ _ _] Hp E E' (Hf & Ha & Hst) Hid Hother Hnew Hown Hcr.
  rewrite E in Ht. apply Forall_cons in Ht as [Ht Hrest].
  assert (∀ id', id' ∈ omap client_of rest.*2 → id ≠ Some id') as Hne.
  { intros id' Hin ->. destruct Hid as [Hid|[[= ->] Hid]].
    - by apply (ids_distinct s e t rest id' Hp E).
    - apply (Nat.lt_irrefl (next_id s)). apply (ids_below s _ Hp). unfold ids. rewrite E. simpl.
      rewrite Hid. done. }
  split; try done.
  - rewrite E'. apply Forall_app. split; [done|]. rewrite Forall_forall in *. intros [e1 t1] Hin.
    apply (expects_same v); [|by apply (Hrest _ Hin)]. intros id1 Hid1. apply Hother, Hne.
    apply list_elem_of_omap. exists t1. split; [|done]. apply list_elem_of_fmap. by exists (e1, t1).
  - intros id' His. unfold ids. rewrite E', fmap_app, omap_app. apply elem_of_app.
    destruct (decide (id = Some id')) as [Eid|Nid]; [left; by apply Hown|right].
    rewrite Hother in His by done. apply Hcl in His. unfold ids in His. rewrite E in His. simpl in His.
    destruct (client_of t) as [idt|] eqn:Ect; [|done]. apply elem_of_cons in His as [->|]; [|done].
    destruct Hid as [?|[_ ?]]; done.
  - unfold keys. by rewrite E', fmap_app, omap_app, <- app_assoc.
Qed.

Lemma running_place s e (y : Exr) t :
  exrs s !! e = Some y → running y = Some t → (e, t) ∈ places s.
Proof. intros Hx Ht. rewrite (places_at _ _ _ Hx), Ht. left. Qed.

(** A task's event finds the client where the task expects it. *)
Lemma task_event_enabled s v e t d ev :
  placed c s → linked s v → (e, t) ∈ places s → task_event s e t d = Some (Some ev) → enabled ev v.
Proof.
  intros Hp Hl Hin Hev. pose proof (lk_tasks _ _ Hl) as Ht. rewrite Forall_forall in Ht.
  specialize (Ht _ Hin). cbn [snd] in Ht.
  destruct t as [| | | | | |e' id|e' id|e' id|e' id|e' id], d as [|[] pl1 pl2|pl1 pl2|pl chunk| |rands|blk n|r];
    try discriminate Hev; cbn [task_event] in Hev.
  - injection Hev as <-. apply (lk_cron _ _ Hl), elem_of_app. left. unfold keys.
    apply list_elem_of_omap. exists TCron. split; [|done]. by apply (list_elem_of_fmap_2 snd _ _ Hin).
  - destruct (_ =? _)%nat; [|done]. injection Hev as <-. cbn [enabled].
    destruct (clients_ (world v) !! next_id s) eqn:E; [|done].
    assert (next_id s ∈ ids s) as Hid by (apply (lk_clients _ _ Hl); by rewrite E).
    apply (ids_below s _ Hp) in Hid. lia.
  - by injection Hev as <-.
  - by injection Hev as <-.
  - by injection Hev as <-.
  - by injection Hev as <-.
  - by injection Hev as <-.
Qed.

(** What is left of the service's flag after a task. *)
Lemma task_flags s v t d ev o v' :
  linked s v → run_event ev v = Ok (o, v') →
  (∀ e, ev = Some e → enabled e v ∧ ∃ aw, srv_is v aw ∧ event_ok e v aw) →
  (∀ id rands, ev = Some (ESys (IRun id rands)) → ∃ e', t = TInvoke e' id) →
  let ch := task_choice s t d v' in
  shuts_down t ch && shutdown_promise_ s = false ∧
  ∀ s', service_active s' = (if shuts_down t ch then false else service_active s) →
    shutdown_promise_ s' = (if shuts_down t ch then true else shutdown_promise_ s) →
    stranded s' = stranded s → flags_ok s' v'.
Proof.
  intros [_ _ Hf Ha Hst _] Hrun Hen Htask ch. split.
  { rewrite Hf. destruct t; try done. cbn. by destruct (service_active s); rewrite ?andb_false_r. }
  intros s' Ea Ep Es. unfold flags_ok. rewrite Ea, Ep, Es.
  split_and!; [by destruct (shuts_down t ch)| |done].
  destruct ev as [e|].
  2: { injection Hrun as <- <-. intros Hs. apply Ha. by destruct (shuts_down t ch). }
  destruct (Hen e eq_refl) as [He (aw & Hsrv & Hok)]. cbn [run_event] in Hrun.
  apply bind_Ok_inv in Hrun as ([out v1] & Hstep & [= _ <-]). destruct e as [i|r].
  - destruct (client_event_effect i v out v1 He Hstep) as (_ & _ & Hact). destruct i as [| |id rands| | | | |];
      try (intros Hs; rewrite Hact; apply Ha; by destruct (shuts_down t ch)).
    destruct (Htask id rands eq_refl) as [e' ->]. cbn. destruct (service_active s); [|done].
    by destruct (active_ (service_ (world v1))).
  - destruct (cron_event_effect r v out v1 aw Hsrv Hok He Hstep) as (_ & Hact & _).
    intros Hs. rewrite Hact. apply Ha. by destruct (shuts_down t ch).
Qed.

Abbreviation next_tasks e t ch s := (successors e%nat t ch s ++ option_list (pair e%nat <$> continues t ch)).

Lemma next_tasks_cron e t ch s : KCron ∈ omap ctl (next_tasks e t ch s).*2 → ctl t = Some KCron.
Proof.
  destruct t; try done; unfold successors, continues;
    repeat match goal with |- context [match ?y with _ => _ end] => destruct y end; simpl; set_solver.
Qed.

(** The periodic work: only its own rounds end it. *)
Lemma cron_kept s v v' e t ch rest :
  linked s v → places s ≡ₚ (e, t) :: rest → Cron.waiting v' = Cron.waiting v →
  KCron ∈ omap ctl (next_tasks e t ch s).*2 ++ omap ctl rest.*2 ++ to_start c (main s) →
  Cron.waiting v' = true.
Proof.
  intros Hl E -> Hin. apply (lk_cron _ _ Hl). unfold keys. rewrite E. simpl.
  apply elem_of_app in Hin as [Hin%next_tasks_cron|Hin].
  - rewrite Hin. left.
  - destruct (ctl t); [by right|done].
Qed.

(** A client's own event on behalf of its task. *)
Lemma link_client s s' v v' e t d id i out rest :
  linked s v → placed c s → places s ≡ₚ (e, t) :: rest →
  places s' ≡ₚ next_tasks e t (task_choice s t d v') s ++ rest → main s' = main s → flags_ok s' v' →
  client_of t = Some id → enabled (ESys i) v → (∀ id', id' ≠ id → not_for id' i) →
  server_step commands (ESys i) v = Ok (out, v') →
  (clients_ (world v') !! id = None ∧ next_tasks e t (task_choice s t d v') s = [] ∨
   ∃ p, next_tasks e t (task_choice s t d v') s = [p] ∧ client_of p.2 = Some id ∧ expects v' p.2) →
  linked s' v'.
Proof.
  intros Hl Hp E E' Hm Hf Hid Hen Hnot Hstep Hnext.
  destruct (client_event_effect i v out v' Hen Hstep) as (Hw & _ & _).
  eapply (link_next s s' v v' e t rest _ (Some id)); try done.
  - by left.
  - intros id' Hne. eapply other_client_event; [|exact Hstep]. intros i' [= <-]. apply Hnot. congruence.
  - destruct Hnext as [[_ ->]|(p & -> & _ & He)]; by repeat constructor.
  - intros id' [= <-] [y Hy]. destruct Hnext as [[Hno _]|(p & -> & Hcp & _)]; [congruence|].
    simpl. rewrite Hcp. left.
  - rewrite Hm. by apply cron_kept with (v := v).
Qed.

(** A task without an event. *)
Lemma link_silent s s' v e t ch rest :
  linked s v → placed c s → places s ≡ₚ (e, t) :: rest →
  places s' ≡ₚ next_tasks e t ch s ++ rest → main s' = main s → flags_ok s' v →
  Forall (λ p, expects v p.2) (next_tasks e t ch s) →
  (∀ id, client_of t = Some id → id ∈ omap client_of (next_tasks e t ch s).*2) → linked s' v.
Proof.
  intros Hl Hp E E' Hm Hf Hex Hcl. eapply (link_next s s' v v e t rest _ (client_of t)); try done.
  - by left.
  - intros id' Hid _. by apply Hcl.
  - rewrite Hm. by eapply cron_kept.
Qed.

(** A round of the periodic work. *)
Lemma link_round s s' v v' e ch r out rest aw :
  linked s v → placed c s → places s ≡ₚ (e, TCron) :: rest →
  places s' ≡ₚ next_tasks e TCron ch s ++ rest → main s' = main s → flags_ok s' v' →
  srv_is v aw → tick_ok r → server_step commands (ECron r) v = Ok (out, v') → linked s' v'.
Proof.
  intros Hl Hp E E' Hm Hf Hsrv Hel Hstep.
  assert (Cron.waiting v = true) as Hwait.
  { apply (lk_cron _ _ Hl). unfold keys. rewrite E. left. }
  destruct (cron_event_effect r v out v' aw Hsrv Hel Hwait Hstep) as (Hc & Ha & Hw).
  eapply (link_next s s' v v' e TCron rest _ None); try done; [by left|by rewrite Hc| |].
  { unfold successors. destruct (service_active s); by repeat constructor. }
  rewrite Hw, Ha, Hm. pose proof (pl_ctl _ _ Hp) as Hnd. unfold keys in Hnd. rewrite E in Hnd.
  simpl in Hnd. apply NoDup_cons in Hnd as [Hnd _]. intros [Hin|Hin]%elem_of_app; [|done].
  apply (lk_active _ _ Hl). unfold successors in Hin.
  destruct (service_active s); [done|]. by apply elem_of_nil in Hin.
Qed.

(** A connection that is accepted. *)
Lemma link_accept s s' v v' ch o pl1 pl2 rest :
  linked s v → placed c s → places s ≡ₚ (1%nat, TAccept) :: rest →
  places s' ≡ₚ next_tasks 1 TAccept ch s ++ rest → main s' = main s → flags_ok s' v' →
  ch_accept ch = Accepted →
  run_event (if (S (next_executor s) =? 1)%nat then Some (ESys (IConnect (next_id s) pl1 pl2)) else None) v
  = Ok (o, v') → linked s' v'.
Proof.
  intros Hl Hp E E' Hm Hf Hch Hrun. set (id := next_id s) in *.
  assert (clients_ (world v) !! id = None) as Hno.
  { destruct (clients_ (world v) !! id) eqn:Ec; [|done].
    assert (id ∈ ids s) as Hid by (apply (lk_clients _ _ Hl); by rewrite Ec).
    apply (ids_below s _ Hp) in Hid. unfold id in Hid. lia. }
  unfold successors, continues in E'. rewrite Hch in E'. fold id in E'. simpl in E'.
  assert (Cron.waiting v' = Cron.waiting v ∧
    (∀ id', Some id ≠ Some id' → clients_ (world v') !! id' = clients_ (world v) !! id') ∧
    expects v' (if (next_executor s =? 0)%nat then TRecv (S (next_executor s)) id
                else TStart (S (next_executor s)) id)) as (Hw & Hother & Hex).
  { simpl in Hrun. destruct (next_executor s =? 0)%nat; cbn [run_event] in Hrun.
    - apply bind_Ok_inv in Hrun as ([out v1] & Hstep & [= _ <-]).
      destruct (client_event_effect (IConnect id pl1 pl2) v out v1 Hno Hstep) as (? & ? & _).
      split_and!; [done| |done]. intros id' Hne. eapply other_client_event; [|exact Hstep].
      intros i [= <-]. simpl. congruence.
    - by injection Hrun as <- <-. }
  apply (link_next s s' v v' 1 TAccept rest
    [(S (next_executor s), if (next_executor s =? 0)%nat then TRecv (S (next_executor s)) id
                           else TStart (S (next_executor s)) id); (1%nat, TAcceptNext)] (Some id)); try done.
  - by right.
  - by repeat constructor.
  - intros id' [= <-] _. destruct (next_executor s =? 0)%nat; left.
  - rewrite Hm. intros Hin. apply (cron_kept s v v' 1 TAccept ch rest Hl E Hw).
    unfold successors, continues. rewrite Hch. exact Hin.
Qed.

Lemma link_run s s' v v' e (y : Exr) t d ev o :
  rings_fit c → threads_ok c s → linked s v → exrs s !! e = Some y → running y = Some t →
  task_event s e t d = Some ev → run_event ev v = Ok (o, v') →
  (∀ e', ev = Some e' → ∃ aw, srv_is v aw ∧ event_ok e' v aw) →
  EventLoop_run c e (task_choice s t d v') s = Ok s' → linked s' v'.
Proof.
  intros Hfit Hok Hl Hy Ht Hev Hrun Hlim Hloop. pose proof Hok as [Hp _ _].
  pose proof (running_place _ _ _ _ Hy Ht) as Hin.
  pose proof (lk_tasks _ _ Hl) as Hex. rewrite Forall_forall in Hex. specialize (Hex _ Hin). cbn [snd] in Hex.
  assert (∀ e', ev = Some e' → enabled e' v) as Hen.
  { intros e' ->. by eapply task_event_enabled. }
  destruct (task_flags s v t d ev o v' Hl Hrun) as [Hsh Hfl].
  { intros e' He'. split; [by apply Hen|by apply Hlim]. }
  { intros id rands ->. destruct t, d as [|[]| | | | | |]; try discriminate Hev; cbn [task_event] in Hev.
    - by destruct (S (next_executor s) =? e)%nat.
    - injection Hev as <- _. by eexists. }
  destruct (run_flow c e _ s s' y t Hfit Hok Hy Ht Hsh Hloop) as (Hm & Ha & Hpr & Hst & rest & E & E').
  specialize (Hfl s' Ha Hpr Hst).
  pose proof (at_home c _ _ _ _ Hp Hy Ht) as (Hhome & _). simpl in Hhome.
  destruct t as [e'| | | | | |e' id|e' id|e' id|e' id|e' id],
    d as [|r pl1 pl2|pl1 pl2|pl chunk| |rands|blk n|r]; try discriminate Hev; injection Hev as <-.
  all: try (injection Hrun as <- <-; eapply (link_silent s s' v e _ _ rest Hl Hp E E' Hm Hfl);
    solve [done|unfold successors, continues; repeat case_match; by repeat constructor
          |intros ? [= <-]; left]).
  all: try (cbn [run_event] in Hrun; apply bind_Ok_inv in Hrun as ([out v1] & Hstep & [= _ <-])).
  - destruct (Hlim _ eq_refl) as (aw & Hsrv & Hel). by eapply (link_round s s' v v1 e _ r out rest aw).
  - simpl in Hhome. subst e. destruct r.
    1,2: injection Hrun as <- <-; eapply (link_silent s s' v _ _ _ rest Hl Hp E E' Hm Hfl);
      [by repeat constructor|done].
    by eapply (link_accept s s' v v' _ o pl1 pl2 rest).
  - eapply (link_client s s' v v1 e _ _ id _ out rest); try done; [by apply Hen|by intros ??|].
    right. eexists. split; [done|]. split; [done|]. apply (client_event_effect _ _ _ _ (Hen _ eq_refl) Hstep).
  - eapply (link_client s s' v v1 e _ _ id _ out rest); try done; [by apply Hen|by intros ??|].
    unfold successors, continues. cbn [task_choice ch_event ch_accept].
    destruct (clients_ (world v1) !! id) as [[cl [|args|]]|] eqn:Ec; [right..|by left];
      (eexists; split; [done|]; split; [done|]; cbn; by eauto).
  - eapply (link_client s s' v v1 e _ _ id _ out rest); try done; [by apply Hen|by intros ??|].
    left. destruct (client_event_effect _ _ _ _ (Hen _ eq_refl) Hstep) as (_ & Hno & _). split; [done|].
    unfold successors, continues. cbn [task_choice ch_event ch_accept]. by rewrite Hno.
  - eapply (link_client s s' v v1 e _ _ id _ out rest); try done; [by apply Hen|by intros ??|].
    right. eexists. split; [done|]. split; [done|]. apply (client_event_effect _ _ _ _ (Hen _ eq_refl) Hstep).
  - eapply (link_client s s' v v1 e _ _ id _ out rest); try done; [by apply Hen|by intros ??|].
    destruct (client_event_effect _ _ _ _ (Hen _ eq_refl) Hstep) as (_ & Hs & _).
    unfold successors, continues. cbn [task_choice ch_written ch_accept].
    destruct (0 <? n); [right; by eexists|by left].
Qed.

(** ** Executions *)

(** An execution of the threads, with the events of the server and its outputs;
    the events are within the limits of [ServerThms.event_ok]. *)
Inductive threaded_execution x : list (event * option (nat * bytes)) → Threaded → Prop :=
  | te_nil : threaded_execution x [] x
  | te_step tr x1 l o x2 :
      threaded_execution x tr x1 →
      (∀ e out, o = Some (e, out) → ∀ aw, srv_is (server x1) aw → event_ok e (server x1) aw) →
      threaded_step l x1 = Ok (o, x2) → threaded_execution x (tr ++ option_list o) x2.

(** Steps that are no event of the server. *)
Fixpoint silent_run (ls : list tlabel) x : option Threaded :=
  match ls with
  | [] => Some x
  | l :: ls => match threaded_step l x with Ok (None, x) => silent_run ls x | _ => None end
  end.

Lemma te_silent ls x tr x1 x2 :
  silent_run ls x1 = Some x2 → threaded_execution x tr x1 → threaded_execution x tr x2.
Proof.
  revert x1. induction ls as [|l ls IH]; intros x1; cbn [silent_run]; [by intros [= ->]|].
  destruct (threaded_step l x1) as [[[o|] x3]| |] eqn:E; try done. intros Hr Hx.
  eapply IH; [exact Hr|]. rewrite <- (app_nil_r tr). by eapply (te_step x tr x1 l None).
Qed.

Definition boot (r : R) (sv : Service DataTable ExpireTable) : Threaded :=
  mkThreaded (initial_threads c r) (booted sv).

Lemma boot_linked r sv :
  idle_rings r → active_ sv = true → linked (initial_threads c r) (booted sv).
Proof.
  intros [Hw _] Ha. assert (places (initial_threads c r) = []) as E.
  { unfold places, due. simpl rings. rewrite Hw. simpl.
    destruct (run (exrs (initial_threads c r))) as [|q l] eqn:Eo; [done|exfalso].
    assert (q ∈ run (exrs (initial_threads c r))) as Hq by (rewrite Eo; by left).
    apply list_elem_of_omap in Hq as ([e y] & Hy%elem_of_map_to_list & Hq).
    apply initial_exrs in Hy as [_ ->]. done. }
  split; try done.
  - by rewrite E.
  - intros id [y Hy]. simpl in Hy. by rewrite lookup_empty in Hy.
Qed.

(** The parts of a step. *)
Lemma threaded_step_inv l x o x' :
  threaded_step l x = Ok (o, x') →
  (o = None ∧ x' = x) ∨
  (o = None ∧ server x' = server x ∧ ∃ l', (∀ e ch, l' ≠ LRun e ch) ∧
     thread_step c l' (threads x) = Ok (threads x')) ∨
  (∃ e y t d ev, l = TLRun e d ∧ exrs (threads x) !! e = Some y ∧ running y = Some t ∧
     task_event (threads x) e t d = Some ev ∧ run_event ev (server x) = Ok (o, server x') ∧
     EventLoop_run c e (task_choice (threads x) t d (server x')) (threads x) = Ok (threads x')).
Proof.
  destruct l as [l|e d]; cbn [threaded_step].
  - destruct l; try (intros (s' & Hs & [= <- <-])%bind_Ok_inv; right; left; split_and!; [done..|];
      eexists; split; [|exact Hs]; done).
    intros [= <- <-]. by left.
  - destruct (exrs (threads x) !! e) as [y|] eqn:Hy; cbn [mbind option_bind]; [|intros [= <- <-]; by left].
    destruct (running y) as [t|] eqn:Ht; [|intros [= <- <-]; by left].
    destruct (task_event (threads x) e t d) as [ev|] eqn:Hev; [|intros [= <- <-]; by left].
    intros ([o' v] & Hrun & (s' & Hs & [= <- <-])%bind_Ok_inv)%bind_Ok_inv.
    right; right. by exists e, y, t, d, ev.
Qed.

Lemma threaded_ok (r : R) (sv : Service DataTable ExpireTable) (db : DB) tr x :
  rings_fit c → idle_rings r → startable sv db → active_ sv = true →
  threaded_execution (boot r sv) tr x →
  threads_ok c (threads x) ∧ linked (threads x) (server x) ∧ execution env (booted sv) tr (server x).
Proof.
  intros Hfit Hr Hst Ha. induction 1 as [|tr x1 l o x2 Hex IH Hlim Hstep].
  { split_and!; [by apply initial_ok|by apply boot_linked|constructor]. }
  destruct IH as (Hok & Hl & Hexec).
  destruct (execution_simulates env _ _ _ _ (booted_is _ _ Hst) Hexec) as (aw & _ & Hsrv).
  apply threaded_step_inv in Hstep
    as [[-> ->]|[(-> & -> & l' & Hne & Hs)|(e & y & t & d' & ev & -> & Hy & Ht & Hev & Hrun & Hs)]].
  - by rewrite app_nil_r.
  - rewrite app_nil_r. split_and!; [|eapply linked_quiet; [by eapply step_quiet|done]|done].
    destruct (step_ok c l' _ Hfit Hok) as (s' & Hs' & Hok'). rewrite Hs in Hs'. by injection Hs' as ->.
  - destruct (run_ok c e (task_choice (threads x1) t d' (server x2)) _ Hfit Hok) as (s' & Hs' & Hok').
    rewrite Hs in Hs'. injection Hs' as <-.
    assert (∀ e', ev = Some e' → ∃ aw, srv_is (server x1) aw ∧ event_ok e' (server x1) aw) as Hlim'.
    { intros e' ->. exists aw. split; [done|]. cbn [run_event] in Hrun.
      apply bind_Ok_inv in Hrun as ([out v1] & _ & [= <- _]). by eapply Hlim. }
    split_and!; [done|by eapply (link_run (threads x1) _ (server x1) _ e y t d' ev o)|].
    destruct ev as [e'|]; cbn [run_event] in Hrun.
    + apply bind_Ok_inv in Hrun as ([out v1] & Hserv & [= <- <-]). cbn [option_list].
      eapply exec_snoc; [done|by eapply Hlim|done].
    + injection Hrun as <- <-. by rewrite app_nil_r.
Qed.

End threaded.

(** ** The sample execution of [ServerThms], on its threads *)

Section sample.
#[local] Instance wide_rings : Uring Queues task := queue_rings 64 (λ _, false).
#[local] Instance wide_laws : UringLaws Queues task := queue_rings_laws 64 (λ _, false).

Definition thr (l : label) : tlabel := TLThread l.
Abbreviation go e := (TLRun e DNone).

(** Start-up, then a connection reaches executor 1. *)
Definition to_accept : list tlabel :=
  map thr [LMain; LMain; LMain; LMain; LKernel 3 0; LKernel 3 0; LRound 0; LRound 1; LRound 2;
           LTake 1; LTake 2] ++ [go 1; go 2] ++
  map thr [LMain; LMain; LMain; LKernel 3 0; LKernel 3 0; LTake 0] ++ [go 0; thr (LTake 1); go 1] ++
  map thr (deliver 1 1).
(** The query arrives. *)
Definition to_receive : list tlabel := go 1 :: map thr (deliver 1 1).
(** The command reaches executor 0. *)
Definition to_invoke : list tlabel := map thr [LRound 1; LKernel 1 1; LTake 0].
(** The timeout of the periodic work elapses. *)
Definition to_round : list tlabel := map thr [LRound 0; LKernel 0 0; LTake 0].
(** The client is back on executor 1, and its reply is written. *)
Definition to_send : list tlabel :=
  map thr [LKernel 0 0; LTake 1] ++ go 1 :: map thr [LRound 1; LKernel 1 1; LTake 1].

Definition skip (ls : list tlabel) (x : Threaded (R:=Queues)) : Threaded (R:=Queues) :=
  default x (silent_run sample_env busy_config ls x).
Definition act (l : tlabel) (x : Threaded (R:=Queues)) : Threaded (R:=Queues) :=
  match threaded_step sample_env busy_config l x with Ok (_, x) => x | _ => x end.

Definition x0 : Threaded (R:=Queues) := boot busy_config ∅ start.
Definition x1 : Threaded (R:=Queues) := skip to_accept x0.
Definition accept1 : tlabel := TLRun 1 (DAccept Accepted (mkPlace 4096 0) (mkPlace 65536 0)).
Definition x2 : Threaded (R:=Queues) := skip to_receive (act accept1 x1).
Definition receive1 : tlabel := TLRun 1 (DChunk (mkPlace 9000 0) (encode_query set_query)).
Definition x3 : Threaded (R:=Queues) := skip to_invoke (act receive1 x2).
Definition x4 : Threaded (R:=Queues) := skip to_round (act (TLRun 0 (DRands [])) x3).
Definition x5 : Threaded (R:=Queues) := skip to_send (act (TLRun 0 (DTick round1)) x4).
Definition send1 : tlabel := TLRun 1 (DSent (mkBlock 70000 100) 5).
Definition x6 : Threaded (R:=Queues) := act send1 x5.

(** An event, then steps that are none. *)
Lemma te_event tr x y l v e out ls z :
  threaded_execution sample_env busy_config x tr y → server y = v →
  (∀ aw, srv_is v aw → event_ok e v aw) →
  threaded_step sample_env busy_config l y = Ok (Some (e, out), act l y) →
  silent_run sample_env busy_config ls (act l y) = Some z →
  threaded_execution sample_env busy_config x (tr ++ [(e, out)]) z.
Proof.
  intros Hx <- Hok Hstep Hs. eapply te_silent; [exact Hs|].
  eapply (te_step _ _ x tr y l (Some (e, out))); [done| |done]. by intros ?? [= <- <-].
Qed.

Lemma sample_threads : threaded_execution sample_env busy_config x0 sample_trace x6.
Proof.
  apply (te_event (take 4 sample_trace) x0 x5 send1 v4 (ESys i4) (Some (0%nat, lit "+OK" ++ CRLF)) [] x6);
    [|vm_compute; reflexivity|exact i4_ok|vm_compute; reflexivity..].
  apply (te_event (take 3 sample_trace) x0 x4 (TLRun 0 (DTick round1)) v3 (ECron round1) None to_send x5);
    [|vm_compute; reflexivity|intros; exact round1_ok|vm_compute; reflexivity..].
  apply (te_event (take 2 sample_trace) x0 x3 (TLRun 0 (DRands [])) v2 (ESys i3) None to_round x4);
    [|vm_compute; reflexivity|exact i3_ok|vm_compute; reflexivity..].
  apply (te_event (take 1 sample_trace) x0 x2 receive1 v1 (ESys i2) None to_invoke x3);
    [|vm_compute; reflexivity|exact i2_ok|vm_compute; reflexivity..].
  apply (te_event [] x0 x1 accept1 v0 (ESys i1) None to_receive x2);
    [|vm_compute; reflexivity|done|vm_compute; reflexivity..].
  apply (te_silent sample_env busy_config to_accept x0 [] x0 x1); [vm_compute; reflexivity|constructor].
Qed.

Lemma wide_fit : rings_fit busy_config.
Proof. split; simpl; [lia| |split; [lia|done]]. intros e _. unfold batch. simpl. lia. Qed.

End sample.
